(* ===== verification/_CoqProject ===== *)
-Q . S2P
Prelude.v
Effects.v
Kube.v
Monitoring.v
Flags.v
Manager.v
LSC.v
DeepCopy.v
LSCValidate.v
LSCResolve.v
LSCReconcile.v
LSCConverge.v
LSCEvents.v
LSCSafety.v
LSCLifecycle.v
GC.v
CSI.v
CSIController.v
CSISizes.v
CSIVolumes.v
CSIDelete.v
CSISafety.v
CSIRelease.v
CSINode.v
CSIInFlight.v
CSINodeSpec.v
CSINodePaths.v
Provisioning.v
GCSweep.v
GCSafety.v
GCLifecycle.v
Cluster.v
ClusterSafety.v
GCAccounting.v
GCPicture.v
GCProgress.v
GCController.v
GCEvents.v
GCPace.v
NodeWatcher.v
NodeWatcherLists.v
NodeWatcherSafety.v
Settings.v
Loggers.v
Paths.v
ReleaseNotes.v
ReleaseNotesSpec.v
MetricTypes.v
Process.v
ControllerMain.v
DriverMain.v
DriverRun.v
Teardown.v
Certs.v
Webhooks.v
WebhooksSpec.v
WebhooksMain.v
Worlds.v
Memory.v
Scenarios.v
ClusterScenarios.v
ProvisioningScenarios.v
