(* ===== verification/Prelude.v ===== *)
(** * sds-local-volume

    A model of the Deckhouse module sds-local-volume, which serves local LVM
    volumes to Kubernetes, and the theorems that make it correct.  Paths are
    relative to src/.

    ** The program

    Four Go programs share the Kubernetes API server as their only channel.
    - The controller (images/controller) runs three reconcilers.  The
      LocalStorageClass controller keeps one StorageClass per LocalStorageClass
      (local_storage_class_watcher.go, local_storage_class_watcher_func.go).
      The garbage collector takes the CSI finalizer off volumes and snapshots
      that nothing refers to any more (lvm_logical_volume_gc.go).  The node
      watcher labels the nodes where the driver runs
      (local_csi_node_watcher.go).
    - The CSI driver (images/sds-local-volume-csi) creates, grows, snapshots and
      deletes LVMLogicalVolumes (driver/controller.go, pkg/utils/func.go) and
      formats and mounts them on the nodes (driver/node.go,
      pkg/utils/node_store_manager.go, internal/inflight.go).
    - The webhooks (images/webhooks) admit LocalStorageClasses and
      StorageClasses, and give Pods their scheduler.
    - The hooks (hooks/go) run in the operator; one releases what the module
      leaves behind when it is removed.
    The volumes themselves are made by sds-node-configurator, which is not part
    of this repository: it is one of the writers of the API server.

    ** How it is modelled

    Effects.v: a function that talks to the world is a [prog], a tree of
    operations with a continuation for any response.  [exec] relates it to
    every history of operations and responses, so a theorem [wp p [] Q] holds
    for every API server, cache, clock, kernel and interleaving with other
    writers.  Where a theorem is about a server that keeps its contract, the
    contract is a relation between its states that the statement names
    (GCLifecycle, LSCLifecycle, Cluster, DriverRun).  Each component declares
    the operations it performs (gc_op, lsc_op, csi_op, node_op, nw_op, wh_op,
    td_op, fs_op, and setup_op, proc_op and run_op when a process starts); they are the calls of the source, in its order.  Errors are values
    of a sum; a panic is [None], [Panics] or [NilDereference].  Objects that Go
    mutates through pointers are passed along and returned.  Integers are in Z
    and wrapped to int64 ([i64]) where the source can overflow; time.Duration
    is such an integer; float64 is the standard library's SpecFloat.

    Kube.v: third-party code is behind type classes: [ApiMachinery],
    [RetryOnError], [LabelSelectors], [Conditions], [Quantities], the YAML and
    JSON readers.  Their fields are the functions the source calls; their laws
    are documented behaviour (a retry runs the function again, a quantity made
    of an int64 has that value).  [MapRange] is Go's unspecified order of
    iteration.  Worlds.v, Memory.v and Scenarios.v give instances of the classes
    and run the program in concrete worlds; a theorem with hypotheses is applied
    to a concrete input there or at the end of its own file.

    ** The files

    - Prelude, Effects, Kube: integers, time, strings, lists; programs; objects.
    - Monitoring: pkg/monitoring of the controller, the metrics it declares and
      the operations each recording helper performs on the metrics storage.
      MetricTypes: declarations and recordings agree.
    - Manager: what the controllers use of controller-runtime: watches, events
      and their predicates, requests.  Flags: the package flag.
    - GC, GCSweep: lvm_logical_volume_gc.go, the helpers and then the pass, from
      [reclaim] to the reconciler.  GCController: how the collector is built and
      registered, and what wakes it up.  GCSafety, GCAccounting, GCPicture,
      GCProgress: what a pass may write, how often, what it reports and what it
      must release.  GCLifecycle: the life of a volume or a snapshot as a
      specification, and that a reconcile refines it.  GCEvents, GCPace: the
      events it may ignore, and its rhythm.
    - LSC: api/v1alpha1 and the pure functions of the LocalStorageClass
      controller (resolution of the volume groups, difference, the wanted
      StorageClass).  LSCValidate: the validation.  LSCReconcile: the reconciles,
      the reconciler and the event filters.  LSCResolve, LSCConverge, LSCEvents,
      LSCSafety: the resolution, the fixed point, the events that may be
      ignored, the writes.  LSCLifecycle: the life of a class as a specification,
      and that a pass refines it on any API server that keeps its contract and
      through a cache that lags behind it.
      DeepCopy: zz_generated.deepcopy.go on a heap.
    - CSI: sizes, placement, the API calls and polling loops of
      pkg/utils/func.go.  CSIController: the calls of driver/controller.go and
      driver/controller_snapshots_ee.go, for every edition of lib/go/common.
      CSISizes, CSIVolumes, CSIDelete, CSISafety: what the calls guarantee.
      CSIRelease: which volumes and snapshots a call may let go.
    - Cluster, ClusterSafety: any number of passes of the collector and of calls
      of the driver interleaved over one API server, with the node agent and
      everybody else as others who keep a contract.
    - CSINode: the calls of driver/node.go and the store they mount with.
      CSIInFlight: internal/inflight.go and the interleaving of the calls.
      CSINodeSpec, CSINodePaths: mounts, then paths, options and statistics.
    - Provisioning: the controller, the driver and the node one after the other,
      from a LocalStorageClass over the parameters of its StorageClass and the
      context of a volume to the mount.
    - NodeWatcher, NodeWatcherLists, NodeWatcherSafety: the node watcher.
    - Webhooks, WebhooksSpec: images/webhooks/handlers.
    - Teardown: hooks/go/030-remove-finalizers-on-module-delete.
      Certs: hooks/go/020-webhook-certs, what it declares.
    - Settings: pkg/config and the verbosity of pkg/logger, pkg/monitoring of the
      driver.  Loggers: the rest of pkg/logger, and the adapter for kubewebhook.
    - Process: what a start amounts to.  ControllerMain, DriverMain,
      WebhooksMain: cmd/main.go of the three images, with pkg/kubutils, the
      registration of the API types, config/config.go and the identity service
      of the driver, and the wiring of handlers/func.go.  DriverRun: Driver.Run,
      its preparations and the interleaving of its goroutines.
    - Paths, ReleaseNotes, ReleaseNotesSpec: hack/generate_release_notes.go over
      the operations of a file system.
    - Worlds, Memory, Scenarios, ClusterScenarios, ProvisioningScenarios: concrete
      instances, witnesses and runs.

    ** What the theorems show

    - Writes are justified by what was read.  The garbage collector removes a
      finalizer only after the grace period, when a fresh picture from the API
      server refers to the object no more, from the very object it read, and at
      most as often as its budget allows.  The LocalStorageClass controller
      never touches a foreign StorageClass and lets a class go only after its
      StorageClass.  The node watcher unlabels a node only when the lists it
      just read have no group of it that a class names, or that is still marked
      for eviction; a class that selects its groups by label does not hold a
      node.  The removal hook patches only what is the module's, and goes
      through all of it.  CreateVolume creates only the volume it was asked for,
      and cleans up only that one, after it waited for it in vain.
    - Nothing is lost that was not let go: however the passes of the collector
      and the calls of the driver interleave, and however old what they read is,
      a volume or a snapshot keeps the finalizer and the data unless it was let
      go by a pass, when its deletion had been requested and nothing referred to
      it, or by a call that was asked to delete or create this very object, or a
      snapshot was taken of the volume after its deletion had been requested.
      Each side is proved on its own (GCLifecycle, CSIRelease) against what it
      relies on, and Cluster shows that the other side keeps it.
    - A class becomes a volume and a mount: the parameters the controller writes
      are the ones the driver reads, the volume is the one the class describes,
      and what the driver answers leads the node to that volume (Provisioning).
    - Calls do what they promise: CreateVolume, DeleteVolume,
      ControllerExpandVolume, CreateSnapshot, NodeStageVolume and
      NodePublishVolume that succeed leave the volume, size, file system and
      mount they report, on every path.
    - Decisions are exact: the resolution of the volume groups and its
      independence of the order of a list, the verdict of the validation, the
      difference with a StorageClass, the propagated labels, the free space and
      the chosen node, the admission of the webhooks, the published picture.
    - Work gets done: after a pass of the LocalStorageClass controller that
      succeeds there is nothing left to do, and a pass of the collector that
      does not fail releases everything it should, up to its budget, and asks to
      be run again within a second when that was not enough.
    - Objects live as specified, on a server that keeps its contract and through
      caches that lag behind it.  What a pass does to a LocalStorageClass and its
      StorageClass is a run of LSCLifecycle's [lifecycle], where what goes wrong
      has a name: a StorageClass the cache did not list yet is overlooked, and
      one is provisioned astray when the deletion slips in unseen ([slipped]).
      What a reconcile of the collector does to a volume or a snapshot is a run
      of GCLifecycle's, where the uses that begin after the deletion was
      requested are noted.
    - Events: for given StorageClasses, which are not watched, what the watches
      drop changes nothing a pass would do; and a pass that did its work and any
      later one are apart on the clock by the minimal interval.
    - Metrics are typed: everything recorded was declared, with those labels.
    - Deep copies share no memory.
    - Processes start whole or not at all.  Once it serves, the driver returns
      only when the context is cancelled, however its servers and goroutines
      interleave, and then unless a call or a connection of a server that was
      asked to stop stays pending.
    - The release notes are written whole, newest version first, when no document
      that is read contains itself.
    - Concurrency: however node calls interleave, two that change mounts are
      about different volumes, and no entry of the table leaks.
    - Loops end: polling within the time it is given, retries within their
      attempts.
    - Panics: the inputs that can make a call panic, and no others.
    - Bounds: alignment to extents, and where it overflows; statistics of a
      file system; the grace period that is configured.

    ** Fuel

    Every definition terminates.  The polling loops of the driver take the
    number of polls as fuel and answer [StillWaiting] when it is used up;
    WaitForStatusUpdate_terminates shows that each unit pays for a poll half a
    second apart at which the context was alive, so a fuel that covers the
    deadline of the context is never used up.  The parsers of Settings run on
    the length of the string.  The printers of ReleaseNotes answer [None] when
    theirs is used up: formatChange_returns shows that a fuel above the depth of
    the document is enough, and self_alias_never_returns that no fuel is for a
    node that contains itself.

    ** What is not modelled

    The health checker of the driver, which nothing calls, the logr view of a
    logger, log lines other than those of a start and, in
    the driver, the texts of errors.  What controller-runtime does between a
    request and a call of the reconciler is its own: the theorems about events
    are about the predicates and map functions the source hands to it.  Helm
    templates, resource definitions and dashboards are configuration.  A deferred
    call runs at the end of the call it belongs to, also after an error; after a
    panic only the observation of a reconcile is modelled.

    ** What is left

    In the joint model of Cluster the node agent is a contract (it keeps the data
    of an object that carries the finalizer of the driver), since its code is in
    another repository, and the theorem follows one object at a time.  The
    LocalStorageClass controller writes to other objects: it has its own
    specification, LSCLifecycle, and meets the driver in Provisioning. *)

From stdpp Require Export prelude strings gmap sorting pretty.
From Stdlib Require Export ZArith Lia SpecFloat.

#[export] Set Default Proof Using "Type".
#[export] Set Warnings "-clear-no-such-hyp".

(** ** Machine integers

    Go's [int64] (and [time.Duration], which is one) kept at its width: values
    are integers and every operation that can leave the range is followed by
    [i64], the two's complement wrap-around. *)

Declare Scope go_scope.
Delimit Scope go_scope with go.

Definition int64_min : Z := -9223372036854775808.
Definition int64_max : Z := 9223372036854775807.

Definition in_int64 (z : Z) : Prop := (int64_min ≤ z ≤ int64_max)%Z.

#[export] Instance in_int64_dec z : Decision (in_int64 z).
Proof. unfold in_int64. apply _. Defined.

(** The value an [int64] holds after an operation whose exact result is [z]. *)
Definition i64 (z : Z) : Z :=
  ((z + 9223372036854775808) mod 18446744073709551616 - 9223372036854775808)%Z.

Lemma i64_in_range z : in_int64 (i64 z).
Proof.
  unfold in_int64, i64, int64_min, int64_max.
  pose proof (Z.mod_pos_bound (z + 9223372036854775808) 18446744073709551616).
  lia.
Qed.

Lemma i64_id z : in_int64 z → i64 z = z.
Proof.
  unfold in_int64, i64, int64_min, int64_max. intros [??].
  rewrite Z.mod_small; lia.
Qed.

Lemma i64_above z :
  (int64_max < z ≤ int64_max + 18446744073709551616)%Z →
  i64 z = (z - 18446744073709551616)%Z.
Proof.
  unfold i64, int64_max. intros [??].
  replace (z + 9223372036854775808)%Z
    with ((z - 9223372036854775808) + 1 * 18446744073709551616)%Z by lia.
  rewrite Z.mod_add by lia. rewrite Z.mod_small; lia.
Qed.

(** Truncation toward zero is Go's [/] on integers. *)
Definition i64_quot (a b : Z) : Z := i64 (Z.quot a b).

(** ** Time

    A [time.Time] is the number of nanoseconds since Go's zero time, so the
    zero value is [0]; a [time.Duration] is an [int64] of nanoseconds. *)

Definition time_IsZero (t : Z) : bool := (t =? 0)%Z.

(** [Time.Sub] saturates instead of wrapping around. *)
Definition time_Sub (t u : Z) : Z := Z.max int64_min (Z.min int64_max (t - u)).

Definition Second : Z := 1000000000.
Definition Minute : Z := 60 * Second.

Lemma time_Sub_diag t : time_Sub t t = 0%Z.
Proof. unfold time_Sub, int64_min, int64_max. lia. Qed.

Lemma time_Sub_in_range t u : in_int64 (time_Sub t u).
Proof. unfold in_int64, time_Sub, int64_min, int64_max. lia. Qed.

(** ** Floating point

    Go's [float64] is IEEE 754 binary64, here [SpecFloat]'s model of it with 53
    bits of precision and exponents up to 1024; [float64 (n)] of an integer and
    [+] round to nearest, ties to even. *)

Definition float64 : Type := spec_float.
Definition float64_of_int (n : Z) : float64 := binary_normalize 53 1024 n 0 false.
Definition float64_add (x y : float64) : float64 := SFadd 53 1024 x y.
Definition float64_neq (x y : float64) : bool := negb (SFeqb x y).
Definition float64_zero : float64 := S754_zero false.

(** ** Results

    A Go function that returns a value or an error. *)

Definition result (E A : Type) : Type := (A + E)%type.

#[export] Instance result_ret E : MRet (result E) := λ A a, inl a.
#[export] Instance result_bind E : MBind (result E) := λ A B f r,
  match r with inl a => f a | inr e => inr e end.

(** A loop that may return early with an error. *)
Fixpoint foldM {M : Type → Type} `{MRet M, MBind M} {A B} (f : B → A → M B) (b : B)
    (l : list A) : M B :=
  match l with
  | [] => mret b
  | x :: l => b ← f b x; foldM f b l
  end.

Lemma foldM_inl {E A B} (f : B → A → result E B) b l r (I : B → Prop) :
  (∀ b x b', x ∈ l → I b → f b x = inl b' → I b') →
  I b → foldM (M := result E) f b l = inl r → I r.
Proof.
  revert b. induction l as [|x l IH]; intros b Hf Hb; simpl.
  - by intros [= <-].
  - unfold mbind, result_bind. destruct (f b x) as [b'|] eqn:E1; [|done].
    apply IH; [|by eapply Hf; [left|..]]. intros b0 y b1 Hy. apply Hf. by right.
Qed.

(** ** Strings *)

(** [strings.Join]. *)
Fixpoint strings_Join (l : list string) (sep : string) : string :=
  match l with
  | [] => ""
  | [s] => s
  | s :: l => s +:+ sep +:+ strings_Join l sep
  end.

Definition newline : string := String (Ascii.ascii_of_nat 10) "".

(** One hexadecimal digit. *)
Definition hex_digit (n : nat) : string :=
  default "" (["0"; "1"; "2"; "3"; "4"; "5"; "6"; "7"; "8"; "9";
               "a"; "b"; "c"; "d"; "e"; "f"] !! n).

(** [strconv.Quote], the verb %q, one byte at a time: the escapes of Go's
    syntax, and the bytes of printable characters beyond ASCII unchanged. *)
Definition quote_byte (c : Ascii.ascii) : string :=
  let n := Ascii.nat_of_ascii c in
  let backslash := String (Ascii.ascii_of_nat 92) "" in
  if bool_decide (n = 34) || bool_decide (n = 92) then backslash +:+ String c ""
  else if bool_decide (n = 7) then backslash +:+ "a"
  else if bool_decide (n = 8) then backslash +:+ "b"
  else if bool_decide (n = 9) then backslash +:+ "t"
  else if bool_decide (n = 10) then backslash +:+ "n"
  else if bool_decide (n = 11) then backslash +:+ "v"
  else if bool_decide (n = 12) then backslash +:+ "f"
  else if bool_decide (n = 13) then backslash +:+ "r"
  else if bool_decide (n < 32) || bool_decide (n = 127)
  then backslash +:+ "x" +:+ hex_digit (n / 16) +:+ hex_digit (n mod 16)
  else String c "".

Fixpoint quote_bytes (s : string) : string :=
  match s with
  | EmptyString => ""
  | String c s => quote_byte c +:+ quote_bytes s
  end.

Definition quote (s : string) : string :=
  let q := String (Ascii.ascii_of_nat 34) "" in q +:+ quote_bytes s +:+ q.

(** [strings.HasPrefix]. *)
Definition HasPrefix (s prefix : string) : bool := String.prefix prefix s.

(** ** Maps *)

(** Go iterates over a map in an unspecified order: [range] is some
    enumeration of the entries, each exactly once. *)
Class MapRange := {
  range : ∀ {K V} `{Countable K}, gmap K V → list (K * V);
  range_perm : ∀ {K V} `{Countable K} (m : gmap K V), range m ≡ₚ map_to_list m;
}.

(** ** Booleans and lists *)

(** [slices.Contains] and the map lookups of the source are boolean tests. *)
Definition contains {A} `{EqDecision A} (l : list A) (x : A) : bool :=
  bool_decide (x ∈ l).

Lemma contains_true {A} `{EqDecision A} (l : list A) x :
  contains l x = true ↔ x ∈ l.
Proof. apply bool_decide_eq_true. Qed.

Lemma contains_false {A} `{EqDecision A} (l : list A) x :
  contains l x = false ↔ x ∉ l.
Proof. apply bool_decide_eq_false. Qed.

Lemma NoDup_map_inj {A B} (f : A → B) (l : list A) x y :
  NoDup (map f l) → x ∈ l → y ∈ l → f x = f y → x = y.
Proof.
  induction l as [|z l IH]; simpl; [by intros _ ?%elem_of_nil|].
  intros [Hz Hnd]%NoDup_cons Hx Hy Hf.
  assert (Hin : ∀ w, w ∈ l → f w ∈ map f l).
  { intros w Hw. apply list_elem_of_fmap. eauto. }
  apply elem_of_cons in Hx as [->|Hx]; apply elem_of_cons in Hy as [->|Hy]; auto.
  - rewrite Hf in Hz. by destruct Hz; auto.
  - rewrite <-Hf in Hz. by destruct Hz; auto.
Qed.

(** [slices.DeleteFunc (l, == x)]: every occurrence of [x] dropped. *)
Definition delete_all {A} `{EqDecision A} (x : A) (l : list A) : list A :=
  filter (.≠ x) l.

Lemma elem_of_delete_all {A} `{EqDecision A} (x y : A) l :
  y ∈ delete_all x l ↔ y ≠ x ∧ y ∈ l.
Proof. unfold delete_all. by rewrite list_elem_of_filter. Qed.

Lemma delete_all_not_in {A} `{EqDecision A} (x : A) l : x ∉ delete_all x l.
Proof. rewrite elem_of_delete_all. tauto. Qed.

Lemma delete_all_id {A} `{EqDecision A} (x : A) l : x ∉ l → delete_all x l = l.
Proof.
  unfold delete_all. induction l as [|y l IH]; [done|].
  rewrite filter_cons. intros Hx.
  rewrite decide_True by set_solver. f_equal. apply IH. set_solver.
Qed.

(** ** Tactics *)

(** Split every boolean conjunction, disjunction and comparison in the context. *)
Ltac bool_simpl :=
  repeat match goal with
  | H : (_ && _) = true |- _ => apply andb_prop in H as [??]
  | H : negb _ = true |- _ => apply negb_true_iff in H
  | H : negb _ = false |- _ => apply negb_false_iff in H
  | H : contains _ _ = true |- _ => apply contains_true in H
  | H : contains _ _ = false |- _ => apply contains_false in H
  | H : bool_decide _ = true |- _ => apply bool_decide_eq_true in H
  | H : bool_decide _ = false |- _ => apply bool_decide_eq_false in H
  | H : (_ =? _)%Z = true |- _ => apply Z.eqb_eq in H
  | H : (_ =? _)%Z = false |- _ => apply Z.eqb_neq in H
  | H : (_ <? _)%Z = true |- _ => apply Z.ltb_lt in H
  | H : (_ <? _)%Z = false |- _ => apply Z.ltb_ge in H
  | H : (_ <=? _)%Z = true |- _ => apply Z.leb_le in H
  | H : (_ <=? _)%Z = false |- _ => apply Z.leb_gt in H
  end.
