(* ===== verification/Effects.v ===== *)
(** * Programs with effects

    The controllers and the CSI driver are ordinary sequential Go code that talks
    to the outside world: the Kubernetes API server, the clock, the metrics
    storage.  A program is therefore a tree: a [Ret]urned value, or one
    operation followed by a continuation that is ready for any response.  No
    assumption is made about the world: [exec] relates a program to every
    history (sequence of operations and responses) it can have, so a theorem
    about [exec] holds for every API server, every interleaving with other
    writers and every clock.  [run] executes a program against one concrete
    world, which is how the examples evaluate. *)

From S2P Require Import Prelude.

(** The operations a component may perform, with the type of the response. *)
Record sig := Sig { op : Type; res : op → Type }.

Section prog.
Context (S : sig).

Inductive prog (A : Type) : Type :=
| Ret (a : A)
| Do (o : op S) (k : res S o → prog A).

(** One operation that was performed, together with its response. *)
Record event := Ev { ev_op : op S; ev_res : res S ev_op }.

(** What happened so far, the latest event first. *)
Definition history := list event.
End prog.

Arguments Ret {S A} a.
Arguments Do {S A} o k.
Arguments Ev {S} ev_op ev_res.
Arguments ev_op {S} e.
Arguments ev_res {S} e : rename.

Section semantics.
Context {S : sig}.

Fixpoint prog_bind {A B} (f : A → prog S B) (p : prog S A) : prog S B :=
  match p with
  | Ret a => f a
  | Do o k => Do o (λ r, prog_bind f (k r))
  end.

#[global] Instance prog_mret : MRet (prog S) := λ A a, Ret a.
#[global] Instance prog_mbind : MBind (prog S) := λ A B f p, prog_bind f p.

#[global] Instance prog_fmap : FMap (prog S) := λ A B f p, p ≫= (λ a, mret (f a)).

(** Perform one operation and return its response. *)
Definition call (o : op S) : prog S (res S o) := Do o Ret.

(** [exec p h a h']: starting with the history [h], [p] can return [a] and
    leave the history [h']. *)
Fixpoint exec {A} (p : prog S A) (h : history S) (a : A) (h' : history S) : Prop :=
  match p with
  | Ret b => a = b ∧ h' = h
  | Do o k => ∃ r, exec (k r) (Ev o r :: h) a h'
  end.

(** [wp p h Q]: whatever the responses, [p] ends in a state satisfying [Q]. *)
Definition wp {A} (p : prog S A) (h : history S) (Q : A → history S → Prop) : Prop :=
  ∀ a h', exec p h a h' → Q a h'.

(** A concrete world: a state and a response to every operation. *)
Definition world (St : Type) := ∀ o : op S, St → res S o * St.

Fixpoint run {A St} (w : world St) (p : prog S A) (s : St) (h : history S)
  : A * St * history S :=
  match p with
  | Ret a => (a, s, h)
  | Do o k => let '(r, s') := w o s in run w (k r) s' (Ev o r :: h)
  end.

(** Every event satisfies [P] with respect to the events before it. *)
Fixpoint always (P : event S → history S → Prop) (h : history S) : Prop :=
  match h with
  | [] => True
  | e :: past => P e past ∧ always P past
  end.
End semantics.

(** ** Rules *)

Section rules.
Context {S : sig}.
Implicit Types (h : history S).

Lemma exec_bind {A B} (f : A → prog S B) (p : prog S A) h b h'' :
  exec (p ≫= f) h b h'' ↔ ∃ a h', exec p h a h' ∧ exec (f a) h' b h''.
Proof.
  revert h. induction p as [a|o k IH]; intros h.
  - change (Ret a ≫= f) with (f a). split.
    + intros H. exists a, h. simpl. tauto.
    + intros (? & ? & [-> ->] & H). exact H.
  - change (Do o k ≫= f) with (Do o (λ r, k r ≫= f)). simpl. split.
    + intros [r H]. apply IH in H as (a & h' & ? & ?). eauto.
    + intros (a & h' & [r ?] & ?). exists r. apply IH. eauto.
Qed.

(** Every program terminates: any world gives it an execution. *)
Lemma run_exec {A St} (w : world St) (p : prog S A) s h :
  let '(a, _, h') := run w p s h in exec p h a h'.
Proof.
  revert s h. induction p as [a|o k IH]; intros s h; simpl.
  - done.
  - destruct (w o s) as [r s']. specialize (IH r s' (Ev o r :: h)).
    destruct (run w (k r) s' (Ev o r :: h)) as [[a s''] h']. eauto.
Qed.

Lemma wp_ret {A} (a : A) h (Q : A → history S → Prop) :
  Q a h → wp (mret a : prog S A) h Q.
Proof. intros HQ a' h' [-> ->]. exact HQ. Qed.

Lemma wp_call_bind {A} (o : op S) (f : res S o → prog S A) h Q :
  (∀ r, wp (f r) (Ev o r :: h) Q) → wp (call o ≫= f) h Q.
Proof. intros H a h' [r Hr]. by apply (H r). Qed.

Lemma wp_do {A} (o : op S) (k : res S o → prog S A) h Q :
  (∀ r, wp (k r) (Ev o r :: h) Q) → wp (Do o k) h Q.
Proof. intros H a h' [r Hr]. by apply (H r). Qed.

Lemma wp_bind {A B} (f : A → prog S B) (p : prog S A) h Q :
  wp p h (λ a h', wp (f a) h' Q) → wp (p ≫= f) h Q.
Proof.
  intros H b h'' (a & h' & Ha & Hb)%exec_bind. by apply (H a h' Ha).
Qed.

Lemma wp_fmap {A B} (f : A → B) (p : prog S A) h Q :
  wp p h (λ a h', Q (f a) h') → wp (f <$> p) h Q.
Proof.
  intros H. apply wp_bind. intros a h' He. apply wp_ret. by apply (H a h' He).
Qed.

Lemma wp_mono {A} (p : prog S A) h (Q Q' : A → history S → Prop) :
  wp p h Q → (∀ a h', Q a h' → Q' a h') → wp p h Q'.
Proof. unfold wp. eauto. Qed.

Lemma wp_and {A} (p : prog S A) h (Q Q' : A → history S → Prop) :
  wp p h Q → wp p h Q' → wp p h (λ a h', Q a h' ∧ Q' a h').
Proof. unfold wp. eauto. Qed.

(** The history only grows. *)
Lemma exec_extends {A} (p : prog S A) h a h' :
  exec p h a h' → ∃ new, h' = new ++ h.
Proof.
  revert h. induction p as [b|o k IH]; intros h; simpl.
  - intros [_ ->]. by exists [].
  - intros [r H]. apply IH in H as [new ->].
    exists (new ++ [Ev o r]). by rewrite <-app_assoc.
Qed.

Lemma wp_extends {A} (p : prog S A) h : wp p h (λ _ h', ∃ new, h' = new ++ h).
Proof. intros a h'. apply exec_extends. Qed.

(** An execution does not depend on what happened before it. *)
Lemma exec_frame {A} (p : prog S A) h1 h2 a new :
  exec p h1 a (new ++ h1) → exec p h2 a (new ++ h2).
Proof.
  revert h1 h2 new. induction p as [b|o k IH]; intros h1 h2 new; simpl.
  - intros [-> H]. split; [done|].
    apply (f_equal length) in H. rewrite length_app in H.
    destruct new; [done|simpl in H; lia].
  - intros [r H]. exists r.
    destruct (exec_extends _ _ _ _ H) as [new' Heq].
    assert (new = new' ++ [Ev o r]) as ->.
    { change (Ev o r :: h1) with ([Ev o r] ++ h1) in Heq.
      rewrite app_assoc in Heq. by apply app_inv_tail in Heq. }
    rewrite <-app_assoc in *. simpl in *. eapply IH; eauto.
Qed.
End rules.

(** ** One component inside another

    The operations of a component as operations of the process it is part of,
    and its programs carried over. *)

Class Subsig (S T : sig) := {
  lift_op : op S → op T;
  lift_res : ∀ o, res T (lift_op o) → res S o;
}.

Section translate.
Context {S T : sig} `{!Subsig S T}.

Fixpoint translate {A} (p : prog S A) : prog T A :=
  match p with
  | Ret a => Ret a
  | Do o k => Do (lift_op o) (λ r, translate (k (lift_res o r)))
  end.

(** An event of the process, as the component sees it. *)
Definition seen_as (e : event T) (e' : event S) : Prop :=
  ∃ r, e = Ev (lift_op (ev_op e')) r ∧ ev_res e' = lift_res (ev_op e') r.

Lemma exec_translate {A} (p : prog S A) h a h' :
  exec (translate p) h a h' →
  ∃ new new', h' = (new ++ h)%list ∧ Forall2 seen_as new new' ∧ ∀ h0, exec p h0 a (new' ++ h0)%list.
Proof.
  revert h. induction p as [b|o k IH]; intros h; simpl.
  - intros [-> ->]. exists [], []. split_and!; [done|by apply Forall2_nil|done].
  - intros [r (new & new' & -> & Hs & He)%IH].
    exists (new ++ [Ev (lift_op o) r])%list, (new' ++ [Ev o (lift_res o r)])%list.
    rewrite <-app_assoc. split; [done|]. split.
    + apply Forall2_app; [done|]. apply Forall2_cons. split; [by exists r|by apply Forall2_nil].
    + intros h0. exists (lift_res o r). rewrite <-app_assoc. apply He.
Qed.

(** What holds of the component holds of it inside the process. *)
Lemma wp_translate {A} (p : prog S A) h (Q : A → history S → Prop) :
  wp p [] Q →
  wp (translate p) h (λ a h', ∃ new new', h' = (new ++ h)%list ∧ Forall2 seen_as new new' ∧
    Q a new').
Proof.
  intros Hp a h' (new & new' & -> & Hs & He)%exec_translate. exists new, new'.
  split_and!; [done..|]. apply Hp. specialize (He []). by rewrite app_nil_r in He.
Qed.
End translate.

(** ** Observational equivalence: the same executions. *)

Section equivalence.
Context {S : sig}.

#[global] Instance prog_equiv A : Equiv (prog S A) :=
  λ p q, ∀ h a h', exec p h a h' ↔ exec q h a h'.

#[global] Instance prog_equivalence A : Equivalence (≡@{prog S A}).
Proof.
  split.
  - by intros p h a h'.
  - intros p q H h a h'. by symmetry.
  - intros p q r H1 H2 h a h'. by rewrite (H1 h a h').
Qed.

Lemma bind_proper {A B} (f g : A → prog S B) (p q : prog S A) :
  p ≡ q → (∀ a, f a ≡ g a) → p ≫= f ≡ q ≫= g.
Proof.
  intros Hp Hf h b h''. rewrite !exec_bind.
  split; intros (a & h' & H1 & H2); exists a, h';
    (split; [by apply Hp|by apply (Hf a)]).
Qed.

#[global] Instance wp_proper A :
  Proper ((≡) ==> (=) ==> pointwise_relation _ (pointwise_relation _ iff) ==> iff)
    (@wp S A).
Proof.
  intros p q Hp h ? <- Q Q' HQ. unfold wp. split; intros H a h' He.
  - apply HQ, H. by apply Hp.
  - apply HQ, H. by apply Hp.
Qed.
End equivalence.

(** ** Proof automation

    [wp_step] performs one step of symbolic execution: it looks at the program
    and applies the rule for a return or an operation. *)

Create HintDb effects.
#[export] Hint Resolve wp_ret wp_call_bind : effects.

Ltac wp_step :=
  match goal with
  | |- wp (mret _) _ _ => apply wp_ret
  | |- wp (call _ ≫= _) _ _ => apply wp_call_bind; intros ?
  | |- wp (_ ≫= _) _ _ => apply wp_bind
  | |- wp (_ <$> _) _ _ => apply wp_fmap
  | |- wp (if ?b then _ else _) _ _ => destruct b eqn:?
  | |- wp (match ?x with _ => _ end) _ _ => destruct x eqn:?
  end.

Lemma always_mono {S : sig} (P Q : event S → history S → Prop) h :
  (∀ e past, P e past → Q e past) → always P h → always Q h.
Proof. intros HPQ. induction h as [|e h IH]; simpl; [done|]. intros [??]. auto. Qed.

Lemma always_app_inv {S : sig} (P : event S → history S → Prop) h1 h2 :
  always P (h1 ++ h2) → always P h2.
Proof. induction h1; simpl; [done|]. intros [??]. auto. Qed.

(** ** What a program may do

    [emits P p]: every operation [p] performs, with its response, satisfies
    [P]. *)

Section emits.
Context {S : sig} (P : event S → Prop).

Definition emits {A} (p : prog S A) : Prop :=
  ∀ h, wp p h (λ _ h', ∃ new, h' = new ++ h ∧ Forall P new).

Lemma emits_ret {A} (a : A) : emits (mret a).
Proof. intros h. apply wp_ret. by exists []. Qed.

Lemma emits_call o : (∀ r, P (Ev o r)) → emits (call o).
Proof. intros HP h r h' [r' [-> ->]]. exists [Ev o r']. split; [done|]. by constructor. Qed.

Lemma emits_bind {A B} (p : prog S A) (f : A → prog S B) :
  emits p → (∀ a, emits (f a)) → emits (p ≫= f).
Proof.
  intros Hp Hf h. apply wp_bind. eapply wp_mono; [apply Hp|].
  intros a h' (new & -> & Hnew). eapply wp_mono; [apply Hf|].
  intros b h'' (new' & -> & Hnew'). exists (new' ++ new). rewrite <-app_assoc.
  split; [done|]. by apply Forall_app.
Qed.

Lemma emits_do {A} o (k : res S o → prog S A) :
  (∀ r, P (Ev o r)) → (∀ r, emits (k r)) → emits (Do o k).
Proof. intros Ho Hk. change (Do o k) with (call o ≫= k). by apply emits_bind; [apply emits_call|]. Qed.

Lemma emits_fmap {A B} (f : A → B) (p : prog S A) : emits p → emits (f <$> p).
Proof. intros Hp. apply emits_bind; [done|]. intros a. apply emits_ret. Qed.

(** Operations that are fine after the history so far keep [always]. *)
Lemma always_emitted (J : event S → history S → Prop) new h :
  (∀ e l, P e → J e (l ++ h)) → Forall P new → always J h → always J (new ++ h).
Proof. intros HJ. induction 1 as [|e new He Hnew IH]; simpl; auto. Qed.
End emits.

Lemma emits_mono {S : sig} (P Q : event S → Prop) {A} (p : prog S A) :
  (∀ e, P e → Q e) → emits P p → emits Q p.
Proof.
  intros HPQ Hp h. eapply wp_mono; [apply Hp|]. intros a h' (new & -> & Hnew).
  exists new. split; [done|]. by eapply Forall_impl.
Qed.

Ltac emits_step :=
  match goal with
  | |- emits _ (mret _) => apply emits_ret
  | |- emits _ (call _) => apply emits_call; intros ?
  | |- emits _ (Do _ _) => apply emits_do; intros ?
  | |- emits _ (_ <$> _) => apply emits_fmap
  | |- emits _ (_ ≫= _) => apply emits_bind; [|intros ?]
  | |- emits _ (if ?b then _ else _) => destruct b
  | |- emits _ (match ?x with _ => _ end) => destruct x
  end.
