(* ===== verification/Kube.v ===== *)
(** * What the program uses of Kubernetes

    The values the API machinery hands to the program (errors, quantities,
    unstructured contents, label selectors) are abstract: class [ApiMachinery]
    names the functions the source calls on them.  Object metadata and the
    resources of sds-node-configurator that the source reads are records with
    exactly the fields it reads. *)

From S2P Require Import Prelude Effects.

(** ** Third-party interfaces *)

(** The functions of k8s.io/apimachinery the source calls. *)
Class ApiMachinery := {
  (* k8s.io/apimachinery/pkg/api/errors *)
  api_error : Type;
  error_text : api_error → string;
  IsNotFound : api_error → bool;
  IsAlreadyExists : api_error → bool;
  IsConflict : api_error → bool;
  IsTooManyRequests : api_error → bool;
  IsServerTimeout : api_error → bool;
  IsInternalError : api_error → bool;
  IsTimeout : api_error → bool;
  IsNoMatchError : api_error → bool;
  (* k8s.io/apimachinery/pkg/api/resource *)
  Quantity : Type;
  Value : Quantity → Z;
  (* k8s.io/apimachinery/pkg/apis/meta/v1/unstructured: the value found, or
     the empty string, and whether it was found *)
  unstructured : Type;
  NestedString : unstructured → list string → string * bool;
}.

(** [retry.OnError] of client-go, whose backoff is a parameter of the world.
    Documented behaviour: the function is run, and run again while it fails
    with an error the caller calls retriable and the backoff allows another
    attempt; the last outcome is returned. *)
Fixpoint attempts {S : sig} {A E} (retriable : E → bool)
    (fn : prog S (A + E)) (extra : nat) : prog S (A + E) :=
  r ← fn;
  match r with
  | inl a => mret (inl a)
  | inr e =>
      match extra with
      | O => mret (inr e)
      | Datatypes.S n => if retriable e then attempts retriable fn n else mret (inr e)
      end
  end.

Class RetryOnError := {
  OnError : ∀ {S : sig} {A E}, (E → bool) → prog S (A + E) → prog S (A + E);
  OnError_attempts : ∀ {S : sig} {A E} (retriable : E → bool) (fn : prog S (A + E)),
    ∃ extra, OnError retriable fn = attempts retriable fn extra;
}.

(** The loop invariant rule of a retry: what holds before an attempt and is
    kept by a failed one holds before the last. *)
Lemma wp_OnError {R : RetryOnError} {S : sig} {A E} (retriable : E → bool)
    (fn : prog S (A + E)) (I : history S → Prop)
    (Q : A + E → history S → Prop) h :
  I h →
  (∀ h', I h' → wp fn h' (λ r h'', Q r h'' ∧ (∀ e, r = inr e → I h''))) →
  wp (OnError retriable fn) h Q.
Proof.
  intros HI Hfn. destruct (OnError_attempts retriable fn) as [n ->].
  revert h HI. induction n as [|n IH]; intros h HI; simpl;
    apply wp_bind; eapply wp_mono; try (by apply Hfn); intros [a|e] h' [HQ HI'].
  - by apply wp_ret.
  - by apply wp_ret.
  - by apply wp_ret.
  - destruct (retriable e); [|by apply wp_ret]. apply IH. by eapply HI'.
Qed.

Lemma emits_OnError {R : RetryOnError} {S : sig} (P : event S → Prop) {A E}
    (retriable : E → bool) (fn : prog S (A + E)) :
  emits P fn → emits P (OnError retriable fn).
Proof.
  intros Hfn h. apply (wp_OnError _ _ (λ h', ∃ new, h' = new ++ h ∧ Forall P new)).
  - by exists [].
  - intros h' (new & -> & Hnew). eapply wp_mono; [apply Hfn|].
    intros r h'' (new' & -> & Hnew').
    assert (Hgoal : ∃ new0, (new' ++ new ++ h)%list = new0 ++ h ∧ Forall P new0).
    { exists (new' ++ new). rewrite <-app_assoc. split; [done|]. by apply Forall_app. }
    by split.
Qed.

(** ** Object metadata *)

(** A nil map and an empty one are told apart where the source can tell them
    apart: writing to a nil map panics. *)
Abbreviation strmap := (gmap string string).

Record ObjectMeta := mkMeta {
  om_Name : string;
  om_Namespace : string;
  om_UID : string;
  om_ResourceVersion : string;
  om_Generation : Z;
  om_DeletionTimestamp : option Z;
  om_Finalizers : list string;
  om_Labels : option strmap;
  om_Annotations : option strmap;
  om_ManagedFields : list string;
}.

(** [m[k]] of a possibly nil map of strings: the empty string when absent. *)
Definition map_get (m : option strmap) (k : string) : string :=
  default "" (m ≫= lookup k).

(** [_, ok := m[k]]. *)
Definition map_has (m : option strmap) (k : string) : bool :=
  bool_decide (is_Some (m ≫= lookup k)).

Definition SetFinalizers (fs : list string) (m : ObjectMeta) : ObjectMeta :=
  mkMeta (om_Name m) (om_Namespace m) (om_UID m) (om_ResourceVersion m)
    (om_Generation m) (om_DeletionTimestamp m) fs (om_Labels m) (om_Annotations m)
    (om_ManagedFields m).

Definition SetResourceVersion (v : string) (m : ObjectMeta) : ObjectMeta :=
  mkMeta (om_Name m) (om_Namespace m) (om_UID m) v
    (om_Generation m) (om_DeletionTimestamp m) (om_Finalizers m) (om_Labels m)
    (om_Annotations m) (om_ManagedFields m).

(** [client.Object]: anything that carries metadata. *)
Class Object (T : Type) := {
  meta_of : T → ObjectMeta;
  with_meta : (ObjectMeta → ObjectMeta) → T → T;
  meta_with_meta : ∀ f t, meta_of (with_meta f t) = f (meta_of t);
}.

Definition GetName `{Object T} (t : T) : string := om_Name (meta_of t).
Definition GetUID `{Object T} (t : T) : string := om_UID (meta_of t).
Definition GetFinalizers `{Object T} (t : T) : list string := om_Finalizers (meta_of t).
Definition GetDeletionTimestamp `{Object T} (t : T) : option Z :=
  om_DeletionTimestamp (meta_of t).

(** ** The resources of sds-node-configurator *)

Section snc.
Context `{ApiMachinery}.

Record LVMLogicalVolumeSpec := mkLLVSpec {
  llv_ActualLVNameOnTheNode : string;
  llv_Type : string;
  llv_Size : string;
  llv_LVMVolumeGroupName : string;
  llv_Source : option (string * string); (* Kind, Name *)
  llv_Thin : option string;              (* PoolName *)
  llv_Thick : option (option bool);      (* Contiguous *)
  llv_VolumeCleanup : option string;
}.

Record LVMLogicalVolumeStatus := mkLLVStatus {
  llv_Phase : string;
  llv_Reason : string;
  llv_ActualSize : Quantity;
}.

Record LVMLogicalVolume := mkLLV {
  llv_meta : ObjectMeta;
  llv_Spec : LVMLogicalVolumeSpec;
  llv_Status : option LVMLogicalVolumeStatus;
}.

Record LVMLogicalVolumeSnapshotSpec := mkLLVSSpec {
  llvs_ActualSnapshotNameOnTheNode : string;
  llvs_LVMLogicalVolumeName : string;
}.

Record LVMLogicalVolumeSnapshotStatus := mkLLVSStatus {
  llvs_NodeName : string;
  llvs_ActualVGNameOnTheNode : string;
  llvs_Phase : string;
  llvs_Reason : string;
  llvs_Size : Quantity;
  llvs_UsedSize : Quantity;
}.

Record LVMLogicalVolumeSnapshot := mkLLVS {
  llvs_meta : ObjectMeta;
  llvs_Spec : LVMLogicalVolumeSnapshotSpec;
  llvs_Status : option LVMLogicalVolumeSnapshotStatus;
}.

(** LVMVolumeGroup, with the part of its spec and status the source reads. *)
Record LVMVolumeGroupThinPoolStatus := mkThinPoolStatus {
  tp_Name : string;
  tp_AvailableSpace : Quantity;
}.

Record LVMVolumeGroupSpec := mkVGSpec {
  vg_ActualVGNameOnTheNode : string;
  vg_Local_NodeName : string;
}.

Record LVMVolumeGroupStatus := mkVGStatus {
  vg_Nodes : list string; (* the names *)
  vg_ThinPools : list LVMVolumeGroupThinPoolStatus;
  vg_VGFree : Quantity;
  vg_VGSize : Quantity;
  vg_AllocatedSize : Quantity;
  vg_ExtentSize : Quantity;
}.

Record LVMVolumeGroup := mkVG {
  vg_meta : ObjectMeta;
  vg_Spec : LVMVolumeGroupSpec;
  vg_Status : LVMVolumeGroupStatus;
}.

Definition vg_Name (lvg : LVMVolumeGroup) : string := om_Name (vg_meta lvg).

#[global, program] Instance llv_object : Object LVMLogicalVolume := {
  meta_of := llv_meta;
  with_meta f l := mkLLV (f (llv_meta l)) (llv_Spec l) (llv_Status l);
}.
Next Obligation. done. Qed.

#[global, program] Instance llvs_object : Object LVMLogicalVolumeSnapshot := {
  meta_of := llvs_meta;
  with_meta f l := mkLLVS (f (llvs_meta l)) (llvs_Spec l) (llvs_Status l);
}.
Next Obligation. done. Qed.
End snc.

(** ** PersistentVolumes *)

Record CSIPersistentVolumeSource := mkCSISource {
  csi_Driver : string;
  csi_VolumeHandle : string;
  csi_FSType : string;
  csi_VolumeAttributes : option strmap;
}.

Record PersistentVolumeSpec := mkPVSpec {
  pv_StorageClassName : string;
  pv_CSI : option CSIPersistentVolumeSource;
}.

Record PersistentVolume := mkPV {
  pv_meta : ObjectMeta;
  pv_Spec : PersistentVolumeSpec;
  pv_Phase : string; (* status *)
}.

(** ** StorageClasses *)

(** [storagev1.StorageClass]. *)
Record StorageClass := mkSC {
  sc_Kind : string;
  sc_APIVersion : string;
  sc_meta : ObjectMeta;
  sc_Provisioner : string;
  sc_Parameters : option strmap;
  sc_ReclaimPolicy : option string;
  sc_AllowVolumeExpansion : option bool;
  sc_VolumeBindingMode : option string;
}.

#[global, program] Instance sc_object : Object StorageClass := {
  meta_of := sc_meta;
  with_meta f s := mkSC (sc_Kind s) (sc_APIVersion s) (f (sc_meta s)) (sc_Provisioner s)
    (sc_Parameters s) (sc_ReclaimPolicy s) (sc_AllowVolumeExpansion s)
    (sc_VolumeBindingMode s);
}.
Next Obligation. done. Qed.
