(* ===== verification/Monitoring.v ===== *)
(** * Package monitoring: what the controller publishes

    images/controller/pkg/monitoring/monitoring.go.  A [Recorder] turns what the
    controllers observed into operations on the metrics storage; the storage
    itself is third-party, so a recording helper is the list of operations it
    performs, in order.  [Register] declares the metrics to the storage, and is a
    program because the storage can refuse. *)

From S2P Require Import Prelude Effects Kube.

Local Open Scope string_scope.

(** ** Metric names, labels and label values *)

Definition ReconcilesTotal := "sds_local_volume_reconciles_total".
Definition ReconcileDurationSeconds := "sds_local_volume_reconcile_duration_seconds".
Definition LocalStorageClassPhase := "sds_local_volume_local_storage_class_phase".
Definition LocalStorageClassReady := "sds_local_volume_local_storage_class_ready".
Definition LVMLogicalVolumeCount := "sds_local_volume_lvm_logical_volume_count".
Definition LVMLogicalVolumeAllocatedBytes :=
  "sds_local_volume_lvm_logical_volume_allocated_bytes".
Definition OrphanedLVMLogicalVolumeCount :=
  "sds_local_volume_orphaned_lvm_logical_volume_count".
Definition OrphanedLVMLogicalVolumeAllocatedBytes :=
  "sds_local_volume_orphaned_lvm_logical_volume_allocated_bytes".
Definition OrphanedLVMLogicalVolumeSnapshotCount :=
  "sds_local_volume_orphaned_lvm_logical_volume_snapshot_count".
Definition OrphanedLVMLogicalVolumeSnapshotUsedBytes :=
  "sds_local_volume_orphaned_lvm_logical_volume_snapshot_used_bytes".
Definition AwaitingAgentCount := "sds_local_volume_awaiting_agent_count".
Definition CSIFinalizerRemovalsTotal := "sds_local_volume_csi_finalizer_removals_total".

Definition LabelController := "controller".
Definition LabelResult := "result".
Definition LabelName := "name".
Definition LabelPhase := "phase".
Definition LabelState := "state".
Definition LabelReason := "reason".
Definition LabelKind := "kind".
Definition LabelLVMVolumeGroup := "lvm_volume_group".
Definition LabelLVMLogicalVolume := "lvm_logical_volume".
Definition LabelLVMType := "type".

Definition KindLVMLogicalVolume := "LVMLogicalVolume".
Definition KindLVMLogicalVolumeSnapshot := "LVMLogicalVolumeSnapshot".

Definition ResultSuccess := "success".
Definition ResultError := "error".
Definition ResultRequeue := "requeue".
Definition ResultNoop := "noop".

Definition OrphanStateActive := "active".
Definition OrphanStateRetained := "retained".
Definition OrphanStateTerminating := "terminating".
Definition OrphanStateBlocked := "blocked".

Definition BlockReasonSnapshotsPresent := "snapshots_present".
Definition BlockReasonAgentFinalizerAbsent := "agent_finalizer_absent".
Definition BlockReasonPersistentVolumeExists := "persistent_volume_exists".
Definition BlockReasonVolumeSnapshotContentExists := "volume_snapshot_content_exists".
Definition BlockReasonSuccessorInPlace := "successor_in_place".
Definition BlockReasonAPIError := "api_error".
Definition BlockReasonRemovalFailed := "removal_failed".

Definition PhaseUnknown := "Unknown".
Definition TypeUnknown := "Unknown".

(** ** Declarations *)

Inductive metric_kind := Counter | Gauge | Histogram.

#[export] Instance metric_kind_eq_dec : EqDecision metric_kind.
Proof. solve_decision. Defined.

(** What RegisterCounter, RegisterGauge and RegisterHistogram are called with;
    only a histogram has buckets.  The help text is left out. *)
Record declaration := mkDecl {
  d_kind : metric_kind;
  d_name : string;
  d_labels : list string;
  d_buckets : list float64;
}.

(** A registration answers with the text of its error. *)
Definition regSig : sig := Sig declaration (λ _, option string).

(** [if _, err := st.Register...; err != nil { return fmt.Errorf ("register %s: %w") }]. *)
Definition register (d : declaration) (rest : prog regSig (option string))
    : prog regSig (option string) :=
  err ← call (S := regSig) d;
  match err with
  | Some err => mret (Some ("register " +:+ d_name d +:+ ": " +:+ err))
  | None => rest
  end.

(** The float64 nearest to [n / d], the value of a decimal literal. *)
Definition float64_literal (n d : Z) : float64 :=
  SFdiv 53 1024 (float64_of_int n) (float64_of_int d).

Definition reconcileDurationBuckets : list float64 :=
  [float64_literal 5 1000; float64_literal 1 100; float64_literal 25 1000;
   float64_literal 5 100; float64_literal 1 10; float64_literal 25 100;
   float64_literal 5 10; float64_of_int 1; float64_literal 25 10;
   float64_of_int 5; float64_of_int 10; float64_of_int 30].

Definition Register : prog regSig (option string) :=
  register (mkDecl Counter ReconcilesTotal [LabelController; LabelResult] []) (
  register (mkDecl Histogram ReconcileDurationSeconds [LabelController]
              reconcileDurationBuckets) (
  register (mkDecl Gauge LocalStorageClassPhase [LabelName; LabelPhase] []) (
  register (mkDecl Gauge LocalStorageClassReady [LabelName] []) (
  register (mkDecl Gauge LVMLogicalVolumeCount [LabelPhase; LabelLVMType] []) (
  register (mkDecl Gauge LVMLogicalVolumeAllocatedBytes [LabelPhase; LabelLVMType] []) (
  register (mkDecl Gauge OrphanedLVMLogicalVolumeCount [LabelState] []) (
  register (mkDecl Gauge OrphanedLVMLogicalVolumeAllocatedBytes
              [LabelName; LabelLVMVolumeGroup; LabelLVMType; LabelState; LabelReason] []) (
  register (mkDecl Gauge OrphanedLVMLogicalVolumeSnapshotCount [LabelState] []) (
  register (mkDecl Gauge OrphanedLVMLogicalVolumeSnapshotUsedBytes
              [LabelName; LabelLVMLogicalVolume; LabelState; LabelReason] []) (
  register (mkDecl Gauge AwaitingAgentCount [LabelKind] []) (
  register (mkDecl Counter CSIFinalizerRemovalsTotal [LabelKind; LabelResult] []) (
  mret None)))))))))))).

(** ** The picture of one sweep *)

Record OrphanedLVMLogicalVolume := mkOrphan {
  o_Name : string;
  o_LVMVolumeGroup : string;
  o_Type : string;
  o_State : string;
  o_Reason : string;
  o_AllocatedBytes : float64;
}.

Record OrphanedLVMLogicalVolumeSnapshot := mkOrphanSnap {
  os_Name : string;
  os_LVMLogicalVolume : string;
  os_State : string;
  os_Reason : string;
  os_UsedBytes : float64;
}.

(** The key of the cluster-wide counts: phase, then type. *)
Abbreviation PhaseAndType := (string * string)%type.

Record LVMLogicalVolumeSweep := mkSweep {
  CountBy : gmap PhaseAndType Z;
  AllocatedBytesBy : gmap PhaseAndType float64;
  Orphans : list OrphanedLVMLogicalVolume;
  OrphanedSnapshots : list OrphanedLVMLogicalVolumeSnapshot;
  AwaitingAgentByKind : gmap string Z;
}.

(** ** Operations on the metrics storage *)

Inductive metric_op :=
| ExpireGroupMetrics (group : string)
| ExpireGroupMetricByName (group name : string)
| GaugeSet (group name : string) (value : float64) (labels : strmap)
| CounterAdd (name : string) (value : float64) (labels : strmap)
| HistogramObserve (name : string) (duration : Z) (labels : strmap) (buckets : list float64).

(** [Recorder]; the zero value has no storage and records nothing. *)
Record Recorder := mkRecorder { r_st : bool }.

(** NewRecorder, on a storage that is there or is nil *)
Definition NewRecorder (st : bool) : Recorder := mkRecorder st.

Definition recorded (r : Recorder) (ops : list metric_op) : list metric_op :=
  if r_st r then ops else [].

(** [reconcile.Result]: [Requeue] and [RequeueAfter]. *)
Record Result := mkResult { Requeue : bool; RequeueAfter : Z }.

(** An error wins over a requeue. *)
Definition reconcileResult {E} (res : Result) (err : option E) : string :=
  match err with
  | Some _ => ResultError
  | None => if Requeue res || (0 <? RequeueAfter res)%Z then ResultRequeue else ResultSuccess
  end.

Definition ObserveReconcile {E} (r : Recorder) (controller : string) (since : Z)
    (res : Result) (err : option E) : list metric_op :=
  recorded r [
    HistogramObserve ReconcileDurationSeconds since {[ LabelController := controller ]}
      reconcileDurationBuckets;
    CounterAdd ReconcilesTotal (float64_of_int 1)
      {[ LabelController := controller; LabelResult := reconcileResult res err ]} ].

Definition localStorageClassGroup (name : string) : string :=
  "local-storage-class/" +:+ name.

Definition SetLocalStorageClassPhase (r : Recorder) (name phase : string) : list metric_op :=
  recorded r [
    ExpireGroupMetricByName (localStorageClassGroup name) LocalStorageClassPhase;
    GaugeSet (localStorageClassGroup name) LocalStorageClassPhase (float64_of_int 1)
      {[ LabelName := name; LabelPhase := phase ]} ].

Definition SetLocalStorageClassReady (r : Recorder) (name : string) (ready : bool)
    : list metric_op :=
  recorded r [
    GaugeSet (localStorageClassGroup name) LocalStorageClassReady
      (if ready then float64_of_int 1 else float64_zero) {[ LabelName := name ]} ].

Definition ForgetLocalStorageClass (r : Recorder) (name : string) : list metric_op :=
  recorded r [ ExpireGroupMetrics (localStorageClassGroup name) ].

Definition lvmLogicalVolumeSweepGroup := "lvm-logical-volume-sweep".

(** [m[k]++] and [m[k] += v] on a Go map. *)
Definition map_incr {K} `{Countable K} (k : K) (m : gmap K Z) : gmap K Z :=
  <[k := (default 0 (m !! k) + 1)%Z]> m.

Definition map_addf {K} `{Countable K} (k : K) (v : float64) (m : gmap K float64)
    : gmap K float64 :=
  <[k := float64_add (default float64_zero (m !! k)) v]> m.

Definition sweep_gauge := GaugeSet lvmLogicalVolumeSweepGroup.

Definition orphan_series (o : OrphanedLVMLogicalVolume) : metric_op :=
  sweep_gauge OrphanedLVMLogicalVolumeAllocatedBytes (o_AllocatedBytes o)
    {[ LabelName := o_Name o; LabelLVMVolumeGroup := o_LVMVolumeGroup o;
       LabelLVMType := o_Type o; LabelState := o_State o; LabelReason := o_Reason o ]}.

Definition orphan_snapshot_series (s : OrphanedLVMLogicalVolumeSnapshot) : metric_op :=
  sweep_gauge OrphanedLVMLogicalVolumeSnapshotUsedBytes (os_UsedBytes s)
    {[ LabelName := os_Name s; LabelLVMLogicalVolume := os_LVMLogicalVolume s;
       LabelState := os_State s; LabelReason := os_Reason s ]}.

Definition zero_counts (states : list string) : gmap string Z :=
  list_to_map (map (λ s, (s, 0%Z)) states).

Section recorder.
Context `{MapRange}.

Definition SetLVMLogicalVolumeSweep (r : Recorder) (sweep : LVMLogicalVolumeSweep)
    : list metric_op :=
  let orphansByState :=
    foldl (λ m o, map_incr (o_State o) m)
      (zero_counts [OrphanStateActive; OrphanStateRetained; OrphanStateTerminating;
                    OrphanStateBlocked]) (Orphans sweep) in
  let snapshotsByState :=
    foldl (λ m s, map_incr (os_State s) m)
      (zero_counts [OrphanStateTerminating; OrphanStateBlocked])
      (OrphanedSnapshots sweep) in
  recorded r (
    [ExpireGroupMetrics lvmLogicalVolumeSweepGroup] ++
    map (λ '((phase, ty), count),
          sweep_gauge LVMLogicalVolumeCount (float64_of_int count)
            {[ LabelPhase := phase; LabelLVMType := ty ]}) (range (CountBy sweep)) ++
    map (λ '((phase, ty), bytes),
          sweep_gauge LVMLogicalVolumeAllocatedBytes bytes
            {[ LabelPhase := phase; LabelLVMType := ty ]})
      (range (AllocatedBytesBy sweep)) ++
    map orphan_series (Orphans sweep) ++
    map (λ '(state, count),
          sweep_gauge OrphanedLVMLogicalVolumeCount (float64_of_int count)
            {[ LabelState := state ]}) (range orphansByState) ++
    map orphan_snapshot_series (OrphanedSnapshots sweep) ++
    map (λ '(state, count),
          sweep_gauge OrphanedLVMLogicalVolumeSnapshotCount (float64_of_int count)
            {[ LabelState := state ]}) (range snapshotsByState) ++
    map (λ kind,
          sweep_gauge AwaitingAgentCount
            (float64_of_int (default 0%Z (AwaitingAgentByKind sweep !! kind)))
            {[ LabelKind := kind ]})
      [KindLVMLogicalVolume; KindLVMLogicalVolumeSnapshot]).
End recorder.

Definition ObserveCSIFinalizerRemoval (r : Recorder) (kind result : string)
    : list metric_op :=
  recorded r [
    CounterAdd CSIFinalizerRemovalsTotal (float64_of_int 1)
      {[ LabelKind := kind; LabelResult := result ]} ].

(** ** Counting with a Go map *)

Definition count {A} (f : A → bool) (l : list A) : Z := Z.of_nat (length (List.filter f l)).

Lemma count_nil {A} (f : A → bool) : count f [] = 0%Z.
Proof. done. Qed.

Lemma count_cons {A} (f : A → bool) x l : count f (x :: l) = (Z.b2z (f x) + count f l)%Z.
Proof. unfold count. simpl. destruct (f x); cbn [length Z.b2z]; lia. Qed.

Lemma count_nonneg {A} (f : A → bool) l : (0 ≤ count f l)%Z.
Proof. unfold count. lia. Qed.

(** Incrementing the key of every element of a list counts them per key. *)
Lemma map_incr_count {A K} `{Countable K} (key : A → K) (l : list A) (m : gmap K Z) k :
  default 0%Z (foldl (λ m x, map_incr (key x) m) m l !! k) =
  (default 0%Z (m !! k) + count (λ x, bool_decide (key x = k)) l)%Z.
Proof.
  revert m. induction l as [|x l IH]; intros m; simpl; [rewrite count_nil; lia|].
  rewrite IH, count_cons. unfold map_incr. destruct (decide (key x = k)) as [->|Hk].
  - rewrite lookup_insert_eq, bool_decide_true by done. simpl. lia.
  - rewrite lookup_insert_ne, bool_decide_false by done. simpl. lia.
Qed.

(** A key that was never incremented and was not there is still not there. *)
Lemma map_incr_is_Some {A K} `{Countable K} (key : A → K) (l : list A) (m : gmap K Z) k :
  is_Some (foldl (λ m x, map_incr (key x) m) m l !! k) ↔
  is_Some (m !! k) ∨ k ∈ map key l.
Proof.
  revert m. induction l as [|x l IH]; intros m; simpl; [set_solver|].
  rewrite IH. unfold map_incr. rewrite lookup_insert_is_Some. set_unfold.
  destruct (decide (key x = k)); naive_solver.
Qed.
