(* ===== verification/Flags.v ===== *)
(** * Command lines

    The package flag of Go's standard library, for the flags the programs
    declare: flags that take a string, in a set that exits on an error. *)

From S2P Require Import Prelude.

Local Open Scope string_scope.

(** ** One argument *)

(** The name and the value of [name=value]; the sign cannot come first. *)
Fixpoint split_value (s : string) : string * option string :=
  match s with
  | EmptyString => ("", None)
  | String c s =>
      if bool_decide (String c "" = "=") then ("", Some s)
      else let '(name, value) := split_value s in (String c name, value)
  end.

(** The first byte of [s] is [c]. *)
Definition starts_with (c s : string) : bool :=
  match s with String b _ => bool_decide (String b "" = c) | EmptyString => false end.

(** An argument that is a flag: what follows its dashes; [None] ends the
    flags. *)
Definition flag_text (s : string) : option string :=
  if (String.length s <? 2)%nat || negb (starts_with "-" s) then None
  else match s with
       | String _ rest =>
           if starts_with "-" rest
           then match rest with
                | String _ EmptyString => None
                | String _ name => Some name
                | EmptyString => None
                end
           else Some rest
       | EmptyString => None
       end.

(** ** Parsing *)

(** How Parse ends: with the values, or with the exit status of the process. *)
Inductive parsed :=
| Parsed (values : gmap string string)
| Exits (status : Z).

Definition bad_syntax (name : string) : bool :=
  bool_decide (name = "") || starts_with "-" name || starts_with "=" name.

(** Parse of a flag.FlagSet with the flags [formal], under flag.ExitOnError: 0
    after the help, 2 after an error.  An argument, of which there are
    [length args], is taken in every step. *)
Fixpoint Parse (fuel : nat) (formal : list string) (args : list string)
    (values : gmap string string) : parsed :=
  match fuel, args with
  | O, _ | _, [] => Parsed values
  | S fuel, s :: args =>
      match flag_text s with
      | None => Parsed values
      | Some text =>
          if bad_syntax text then Exits 2
          else
            let '(name, value) := split_value text in
            if negb (contains formal name)
            then if contains ["help"; "h"] name then Exits 0 else Exits 2
            else match value, args with
                 | Some v, _ => Parse fuel formal args (<[name := v]> values)
                 | None, v :: args => Parse fuel formal args (<[name := v]> values)
                 | None, [] => Exits 2
                 end
      end
  end.

Definition parse_flags (defaults : list (string * string)) (args : list string) : parsed :=
  Parse (length args) (map fst defaults) args (list_to_map defaults).

Example parse_flags_examples :
  let flags := [("a", "x"); ("b", "y")] in
  let shown p := match p with
                 | Parsed values => inl (values !! "a", values !! "b")
                 | Exits status => inr status
                 end in
  map (λ args, shown (parse_flags flags args))
    [[]; ["-a"; "1"; "--b=2"]; ["-a=1=2"; "rest"; "-b"; "3"]; ["--"; "-a"; "1"]; ["-a"; "--"];
     ["-a"]; ["-c"; "1"]; ["--=1"]; ["-h"]; ["---a"]; ["-a="; "-a"; "-b"; "-"]] =
  [inl (Some "x", Some "y"); inl (Some "1", Some "2"); inl (Some "1=2", Some "y");
   inl (Some "x", Some "y"); inl (Some "--", Some "y"); inr 2%Z; inr 2%Z; inr 2%Z; inr 0%Z;
   inr 2%Z; inl (Some "-b", Some "y")].
Proof. vm_compute. reflexivity. Qed.

(** ** What an argument list means *)

(** Flags as a deployment writes them. *)
Definition render (f : string * string) : string := "--" +:+ fst f +:+ "=" +:+ snd f.

(** A name that can be declared and given: no dash or sign at its start, no
    sign in it. *)
Fixpoint no_sign (s : string) : bool :=
  match s with
  | EmptyString => true
  | String c s => negb (bool_decide (String c "" = "=")) && no_sign s
  end.

Definition plain (name : string) : bool :=
  negb (bool_decide (name = "")) && negb (starts_with "-" name) && no_sign name.

Lemma split_value_render name value :
  no_sign name = true → split_value (name +:+ "=" +:+ value) = (name, Some value).
Proof.
  induction name as [|c name IH]; [done|]. simpl. rewrite andb_true_iff.
  intros [->%negb_true_iff Hn]. by rewrite IH.
Qed.

Lemma flag_text_render f : plain (fst f) = true → flag_text (render f) = Some (fst f +:+ "=" +:+ snd f).
Proof.
  destruct f as [name value]. unfold plain, render. simpl.
  rewrite !andb_true_iff. intros [[Hn Hd] _].
  destruct name as [|c name]; [done|]. by destruct name.
Qed.

Lemma plain_syntax name rest :
  plain name = true → bad_syntax (name +:+ "=" +:+ rest) = false.
Proof.
  unfold plain, bad_syntax. rewrite !andb_true_iff. intros [[Hn Hd%negb_true_iff] Hs].
  destruct name as [|c name]; [done|].
  change (String c name +:+ "=" +:+ rest) with (String c (name +:+ "=" +:+ rest)).
  cbn [starts_with no_sign] in *.
  apply andb_true_iff in Hs as [Hs%negb_true_iff _].
  rewrite bool_decide_false by done. by rewrite Hd, Hs.
Qed.

(** Each flag given is set, the last occurrence wins, and the others keep what
    they had. *)
Lemma Parse_render fuel formal flags values :
  (length flags ≤ fuel)%nat →
  Forall (λ f, plain (fst f) = true ∧ fst f ∈ formal) flags →
  Parse fuel formal (map render flags) values =
    Parsed (foldl (λ m f, <[fst f := snd f]> m) values flags).
Proof.
  revert fuel values. induction flags as [|f flags IH]; intros fuel values Hl Hf.
  - by destruct fuel.
  - destruct fuel as [|fuel]; [simpl in Hl; lia|].
    apply Forall_cons in Hf as [[Hp Hin] Hf]. cbn [map Parse].
    rewrite flag_text_render, plain_syntax, split_value_render by
      (done || by apply andb_true_iff in Hp as [_ Hp]).
    apply contains_true in Hin. rewrite Hin. cbn [negb foldl]. apply IH; [simpl in Hl; lia|done].
Qed.
