(* ===== verification/Manager.v ===== *)
(** * What the controllers use of controller-runtime

    A manager to which a controller, its watches and runnables are added, the
    events a watch delivers and the predicates they go through, and the
    requests that end up in the work queue.  The manager is third-party: a
    registration is an operation it answers with an error or none. *)

From S2P Require Import Prelude Effects.

(** [reconcile.Request]: namespace and name. *)
Abbreviation request := (string * string)%type.

(** ** Events *)

Inductive watch_event (T : Type) :=
| CreateEvent (o : T)
| DeleteEvent (o : T)
| GenericEvent (o : T)
| UpdateEvent (ObjectOld ObjectNew : T).
Arguments CreateEvent {T} o.
Arguments DeleteEvent {T} o.
Arguments GenericEvent {T} o.
Arguments UpdateEvent {T} ObjectOld ObjectNew.

(** [predicate.TypedFuncs] *)
Record TypedFuncs (T : Type) := mkFuncs {
  CreateFunc : T → bool;
  DeleteFunc : T → bool;
  GenericFunc : T → bool;
  UpdateFunc : T → T → bool;
}.
Arguments mkFuncs {T}.
Arguments CreateFunc {T}.
Arguments DeleteFunc {T}.
Arguments GenericFunc {T}.
Arguments UpdateFunc {T}.

(** Whether an event gets through. *)
Definition admits {T} (p : TypedFuncs T) (e : watch_event T) : bool :=
  match e with
  | CreateEvent o => CreateFunc p o
  | DeleteEvent o => DeleteFunc p o
  | GenericEvent o => GenericFunc p o
  | UpdateEvent old new => UpdateFunc p old new
  end.

(** ** Registration *)

Inductive watched :=
| WatchLSC | WatchSecret | WatchLVG     (* the LocalStorageClass controller *)
| WatchNodeSecret                       (* the node watcher *)
| WatchLLV | WatchPV | WatchLLVS.       (* the garbage collector *)

#[export] Instance watched_eq_dec : EqDecision watched.
Proof. solve_decision. Defined.

Inductive setup_op :=
| NewController (name : string)
| Watch (w : watched)
| AddRunnable.

#[export] Instance setup_op_eq_dec : EqDecision setup_op.
Proof. solve_decision. Defined.

(** Each answers with the text of its error. *)
Definition setupSig : sig := Sig setup_op (λ _, option string).

(** [if err != nil { return nil, err }] after a registration. *)
Definition set_up {A} (o : setup_op) (rest : prog setupSig (A + string))
    : prog setupSig (A + string) :=
  err ← call (S := setupSig) o;
  match err with
  | Some err => mret (inr err)
  | None => rest
  end.

Definition set_up_all {A} (os : list setup_op) (a : A) : prog setupSig (A + string) :=
  foldr set_up (mret (inl a)) os.

(** A registration that succeeds performed every operation, in order and
    without an error; one that fails stopped at the first error and returns it. *)
Definition set_up_by {S : sig} {A} (f : event S → option string) (os : list (op S)) (a : A)
    (r : A + string) (h : history S) : Prop :=
  match r with
  | inl a' => a' = a ∧ map ev_op h = reverse os ∧ Forall (λ e, f e = None) h
  | inr err => ∃ e past, h = e :: past ∧ f e = Some err ∧ Forall (λ e, f e = None) past ∧
                 ∃ rest, os = (reverse (map ev_op h) ++ rest)%list
  end.
