(* ===== verification/LSC.v ===== *)
(** * LocalStorageClass: the resource and the pure part of its controller

    api/v1alpha1/local_storage_class.go and, of images/controller/pkg/controller,
    the functions of local_storage_class_watcher_func.go that compute without
    talking to the API server. *)

From S2P Require Import Prelude Effects Kube.

Local Open Scope string_scope.

(** ** Constants *)

Definition LocalStorageClassCtrlName := "local-storage-class-controller".
Definition LVMThinType := "Thin".
Definition LVMThickType := "Thick".
Definition LocalStorageClassLvmType := "lvm".
Definition StorageClassKind := "StorageClass".
Definition StorageClassAPIVersion := "storage.k8s.io/v1".
Definition LocalStorageClassProvisioner := "local.csi.storage.deckhouse.io".
Definition TypeParamKey := LocalStorageClassProvisioner ++ "/type".
Definition LVMTypeParamKey := LocalStorageClassProvisioner ++ "/lvm-type".
Definition LVMVolumeBindingModeParamKey :=
  LocalStorageClassProvisioner ++ "/volume-binding-mode".
Definition LVMVolumeGroupsParamKey := LocalStorageClassProvisioner ++ "/lvm-volume-groups".
Definition LVMThickContiguousParamKey :=
  LocalStorageClassProvisioner ++ "/lvm-thick-contiguous".
Definition LVMVolumeCleanupParamKey := LocalStorageClassProvisioner ++ "/lvm-volume-cleanup".
Definition FSTypeParamKey := "csi.storage.k8s.io/fstype".
Definition DefaultFSType := "ext4".
Definition LocalStorageClassFinalizerName :=
  "storage.deckhouse.io/local-storage-class-controller".
Definition LocalStorageClassFinalizerNameOld := "localstorageclass.storage.deckhouse.io".
Definition AllowVolumeExpansionDefaultValue := true.
Definition FailedStatusPhase := "Failed".
Definition CreatedStatusPhase := "Created".

Definition SLVStorageClassCtrlName := "d8-sds-local-volume-storage-class-controller".
Definition SLVStorageClassVolumeSnapshotClassAnnotationKey :=
  "storage.deckhouse.io/volumesnapshotclass".
Definition SLVStorageClassVolumeSnapshotClassAnnotationValue :=
  "sds-local-volume-snapshot-class".
Definition SLVStorageManagedLabelKey := "storage.deckhouse.io/managed-by".

Definition ConditionTypeReady := "Ready".
Definition ConditionTrue := "True".
Definition ConditionFalse := "False".

Inductive reconcileType := CreateReconcile | UpdateReconcile | DeleteReconcile | NoneReconcile.

#[export] Instance reconcileType_eq_dec : EqDecision reconcileType.
Proof. solve_decision. Defined.

(** ** Third-party interfaces *)

(** Label selectors of k8s.io/apimachinery. *)
Class LabelSelectors := {
  LabelSelector : Type;
  LabelSelector_eq_dec :: EqDecision LabelSelector;
  Selector : Type;
  LabelSelectorAsSelector : LabelSelector → result string Selector;
  Matches : Selector → option strmap → bool;
}.

(** [metav1.Condition], less its transition time, which the source never reads. *)
Record Condition := mkCondition {
  c_Type : string;
  c_Status : string;
  c_Reason : string;
  c_Message : string;
  c_ObservedGeneration : Z;
}.

(** The conditions package of sds-common-lib.  Documented behaviour: [Set]
    stores the condition under its type, [IsTrue] tests the status of the one
    stored under a type, and a condition that carries the generation asked
    about is not stale. *)
Class Conditions := {
  ReasonReconciled : string;
  ReasonReconcileFailed : string;
  ReasonDeleting : string;
  TruncateMessage : string → string;
  IsTrue : list Condition → string → bool;
  IsStale : list Condition → string → Z → bool;
  SetCondition : list Condition → Condition → list Condition;
  IsTrue_SetCondition : ∀ cs c,
    IsTrue (SetCondition cs c) (c_Type c) = bool_decide (c_Status c = ConditionTrue);
  IsStale_SetCondition : ∀ cs c,
    IsStale (SetCondition cs c) (c_Type c) (c_ObservedGeneration c) = false;
}.

(** ** The resource *)

Record LocalStorageClassLVMThinPoolSpec := mkThinPool { PoolName : string }.
Record LocalStorageClassLVMThickSpec := mkThick { Contiguous : option bool }.

#[export] Instance thin_eq_dec : EqDecision LocalStorageClassLVMThinPoolSpec.
Proof. solve_decision. Defined.
#[export] Instance thick_eq_dec : EqDecision LocalStorageClassLVMThickSpec.
Proof. solve_decision. Defined.

Section lsc.
Context `{LabelSelectors}.

Record LocalStorageClassLVG := mkLVG {
  lvg_Name : string;
  lvg_LabelSelector : option LabelSelector;
  lvg_Thin : option LocalStorageClassLVMThinPoolSpec;
}.

Record LocalStorageClassLVMSpec := mkLVM {
  lvm_Type : string;
  lvm_Thick : option LocalStorageClassLVMThickSpec;
  lvm_VolumeCleanup : string;
  lvm_LVMVolumeGroups : list LocalStorageClassLVG;
}.

Record LocalStorageClassSpec := mkLSCSpec {
  lsc_ReclaimPolicy : string;
  lsc_VolumeBindingMode : string;
  lsc_LVM : option LocalStorageClassLVMSpec;
  lsc_FSType : string;
}.

Record LocalStorageClassStatus := mkLSCStatus {
  lsc_Phase : string;
  lsc_Reason : string;
  lsc_ObservedGeneration : Z;
  lsc_Conditions : list Condition;
}.

Record LocalStorageClass := mkLSC {
  lsc_meta : ObjectMeta;
  lsc_Spec : LocalStorageClassSpec;
  lsc_Status : option LocalStorageClassStatus;
}.

#[global, program] Instance lsc_object : Object LocalStorageClass := {
  meta_of := lsc_meta;
  with_meta f l := mkLSC (f (lsc_meta l)) (lsc_Spec l) (lsc_Status l);
}.
Next Obligation. done. Qed.

#[global] Instance LocalStorageClassLVG_eq_dec : EqDecision LocalStorageClassLVG.
Proof. solve_decision. Defined.
#[global] Instance LocalStorageClassLVMSpec_eq_dec : EqDecision LocalStorageClassLVMSpec.
Proof. solve_decision. Defined.
#[global] Instance LocalStorageClassSpec_eq_dec : EqDecision LocalStorageClassSpec.
Proof. solve_decision. Defined.

(** sigs.k8s.io/yaml on a list of volume groups.  Documented behaviour: what
    was marshalled is unmarshalled to the same value. *)
Class YamlLVGs := {
  yaml_Marshal : list LocalStorageClassLVG → result string string;
  yaml_Unmarshal : string → result string (list LocalStorageClassLVG);
  yaml_roundtrip : ∀ lvgs s, yaml_Marshal lvgs = inl s → yaml_Unmarshal s = inl lvgs;
}.

(** ** The effective volume groups *)

Context `{ApiMachinery}.

(** lscUsesLabelSelector *)
Definition lscUsesLabelSelector (lsc : LocalStorageClass) : bool :=
  match lsc_LVM (lsc_Spec lsc) with
  | None => false
  | Some lvm =>
      existsb (λ entry, bool_decide (is_Some (lvg_LabelSelector entry)))
        (lvm_LVMVolumeGroups lvm)
  end.

(** sameThinPool; a pointer is only equal to nil when it is nil. *)
Definition sameThinPool (a b : option LocalStorageClassLVMThinPoolSpec) : bool :=
  match a, b with
  | None, None => true
  | Some a, Some b => bool_decide (PoolName a = PoolName b)
  | _, _ => false
  end.

(** thinPoolName *)
Definition thinPoolName (t : option LocalStorageClassLVMThinPoolSpec) : string :=
  match t with None => "" | Some t => PoolName t end.

(** The variables the closure appendEntry captures. *)
Record resolving := mkResolving {
  rs_resolved : list LocalStorageClassLVG;
  rs_seen : gmap string (option LocalStorageClassLVMThinPoolSpec);
}.

(** appendEntry, the closure of resolveEffectiveLVGs. *)
Definition appendEntry (name : string) (thin : option LocalStorageClassLVMThinPoolSpec)
    (allowCollapse : bool) (s : resolving) : result string resolving :=
  match rs_seen s !! name with
  | Some prev =>
      if negb allowCollapse
      then inr ("LVMVolumeGroup " ++ quote name
                ++ " is listed more than once in lvmVolumeGroups")
      else if negb (sameThinPool prev thin)
      then inr ("LVMVolumeGroup " ++ quote name ++ " is selected by more than one "
                ++ "lvmVolumeGroups entry with different thin pools ("
                ++ quote (thinPoolName prev) ++ " vs " ++ quote (thinPoolName thin) ++ ")")
      else inl s
  | None =>
      inl (mkResolving (rs_resolved s ++ [mkLVG name None thin])%list
             (<[name := thin]> (rs_seen s)))
  end.

(** The body of the inner loop, over the volume groups of the cluster. *)
Definition append_matching (selector : Selector)
    (thin : option LocalStorageClassLVMThinPoolSpec) (s : resolving) (lvg : LVMVolumeGroup)
    : result string resolving :=
  if negb (Matches selector (om_Labels (vg_meta lvg))) then inl s
  else appendEntry (vg_Name lvg) thin true s.

(** The body of the outer loop, over the entries of the spec. *)
Definition resolve_entry (lvgList : list LVMVolumeGroup) (s : resolving)
    (entry : LocalStorageClassLVG) : result string resolving :=
  match lvg_LabelSelector entry with
  | None => appendEntry (lvg_Name entry) (lvg_Thin entry) false s
  | Some ls =>
      match LabelSelectorAsSelector ls with
      | inr err => inr ("invalid labelSelector: " ++ err)
      | inl selector =>
          foldM (M := result string) (append_matching selector (lvg_Thin entry)) s lvgList
      end
  end.

(** The order of sort.Slice: names compared bytewise. *)
Definition by_name (a b : LocalStorageClassLVG) : Prop :=
  String.leb (lvg_Name a) (lvg_Name b) = true.

#[global] Instance by_name_dec a b : Decision (by_name a b).
Proof. unfold by_name. apply _. Defined.

(** resolveEffectiveLVGs *)
Definition resolveEffectiveLVGs (lsc : LocalStorageClass) (lvgList : list LVMVolumeGroup)
    : result string (list LocalStorageClassLVG) :=
  match lsc_LVM (lsc_Spec lsc) with
  | None => inl []
  | Some lvm =>
      match foldM (M := result string) (resolve_entry lvgList) (mkResolving [] ∅)
              (lvm_LVMVolumeGroups lvm) with
      | inr err => inr err
      | inl s => inl (merge_sort by_name (rs_resolved s))
      end
  end.

(** ** Labels *)

(** isIgnoredLabelKey *)
Fixpoint isIgnoredLabelKey (key : string) (ignoredLabelPrefixes : list string) : bool :=
  match ignoredLabelPrefixes with
  | [] => false
  | prefix :: rest =>
      if bool_decide (prefix = "") then isIgnoredLabelKey key rest
      else if HasPrefix key prefix then true
      else isIgnoredLabelKey key rest
  end.

(** filterLabelsForStorageClass *)
Definition filterLabelsForStorageClass (lscLabels : option strmap)
    (ignoredLabelPrefixes : list string) : option strmap :=
  match lscLabels with
  | None => None
  | Some labels =>
      if bool_decide (labels = ∅) then None
      else Some (filter (λ kv, isIgnoredLabelKey kv.1 ignoredLabelPrefixes = false) labels)
  end.

(** labelsMatchLSC *)
Definition labelsMatchLSC (scLabels lscLabels : option strmap)
    (ignoredLabelPrefixes : list string) : bool :=
  let filtered := filterLabelsForStorageClass lscLabels ignoredLabelPrefixes in
  let expected := <[SLVStorageManagedLabelKey := SLVStorageClassCtrlName]>
                    (default ∅ filtered) in
  bool_decide (scLabels = Some expected).

(** ** The difference between a StorageClass and a LocalStorageClass *)

Context `{YamlLVGs}.

(** getLVGFromSCParams *)
Definition getLVGFromSCParams (sc : StorageClass) : result string (list LocalStorageClassLVG) :=
  yaml_Unmarshal (map_get (sc_Parameters sc) LVMVolumeGroupsParamKey).

Definition effective_by_name (effectiveLVGs : list LocalStorageClassLVG)
    : gmap string (option LocalStorageClassLVMThinPoolSpec) :=
  foldl (λ m lvg, <[lvg_Name lvg := lvg_Thin lvg]> m) ∅ effectiveLVGs.

(** The last loop of hasSCDiff. *)
Fixpoint lvgs_differ (lscName lvmType : string)
    (effectiveByName : gmap string (option LocalStorageClassLVMThinPoolSpec))
    (currentLVGs : list LocalStorageClassLVG) : result string bool :=
  match currentLVGs with
  | [] => inl false
  | cur :: rest =>
      match effectiveByName !! lvg_Name cur with
      | None => inl true
      | Some effThin =>
          if bool_decide (lvmType = LVMThinType)
          then match lvg_Thin cur, effThin with
               | None, None =>
                   inr ("LocalStorageClass type=" ++ quote lvmType
                        ++ ": unable to identify the Thin pool differences for the "
                        ++ "LocalStorageClass " ++ quote lscName
                        ++ ". The current LVMVolumeGroup " ++ quote (lvg_Name cur)
                        ++ " does not have a Thin pool configured in either the "
                        ++ "StorageClass or the LocalStorageClass")
               | Some curThin, Some effThin =>
                   if negb (bool_decide (PoolName curThin = PoolName effThin)) then inl true
                   else lvgs_differ lscName lvmType effectiveByName rest
               | _, _ => inl true
               end
          else lvgs_differ lscName lvmType effectiveByName rest
      end
  end.

(** hasSCDiff; [None] is the panic of dereferencing a nil spec.lvm. *)
Definition hasSCDiff (sc : StorageClass) (lsc : LocalStorageClass)
    (effectiveLVGs : list LocalStorageClassLVG) (ignoredLabelPrefixes : list string)
    : option (result string bool) :=
  match getLVGFromSCParams sc with
  | inr err => Some (inr err)
  | inl currentLVGs =>
      match lsc_LVM (lsc_Spec lsc) with
      | None => None
      | Some lvm =>
          if negb (bool_decide (lvm_VolumeCleanup lvm =
                                map_get (sc_Parameters sc) LVMVolumeCleanupParamKey))
          then Some (inl true)
          else if negb (labelsMatchLSC (om_Labels (sc_meta sc)) (om_Labels (lsc_meta lsc))
                          ignoredLabelPrefixes)
          then Some (inl true)
          else if negb (bool_decide (length currentLVGs = length effectiveLVGs))
          then Some (inl true)
          else Some (lvgs_differ (GetName lsc) (lvm_Type lvm)
                       (effective_by_name effectiveLVGs) currentLVGs)
      end
  end.

(** ** What to do about a LocalStorageClass *)

Context `{Conditions}.

(** shouldReconcileByDeleteFunc *)
Definition shouldReconcileByDeleteFunc (lsc : LocalStorageClass) : bool :=
  bool_decide (is_Some (om_DeletionTimestamp (lsc_meta lsc))).

(** The first StorageClass with the name, the loop of four functions. *)
Definition find_sc (scList : list StorageClass) (name : string) : option StorageClass :=
  List.find (λ sc, bool_decide (GetName sc = name)) scList.

(** shouldReconcileByCreateFunc *)
Definition shouldReconcileByCreateFunc (scList : list StorageClass) (lsc : LocalStorageClass)
    : bool :=
  if bool_decide (is_Some (om_DeletionTimestamp (lsc_meta lsc))) then false
  else match find_sc scList (GetName lsc) with Some _ => false | None => true end.

(** The Ready condition is missing, about another generation, or not True. *)
Definition needs_verdict (lsc : LocalStorageClass) : bool :=
  match lsc_Status lsc with
  | None => true
  | Some st =>
      IsStale (lsc_Conditions st) ConditionTypeReady (om_Generation (lsc_meta lsc))
      || negb (IsTrue (lsc_Conditions st) ConditionTypeReady)
  end.

(** shouldReconcileByUpdateFunc *)
Definition shouldReconcileByUpdateFunc (scList : list StorageClass) (lsc : LocalStorageClass)
    (effectiveLVGs : list LocalStorageClassLVG) (ignoredLabelPrefixes : list string)
    : option (result string bool) :=
  if bool_decide (is_Some (om_DeletionTimestamp (lsc_meta lsc))) then Some (inl false)
  else match find_sc scList (GetName lsc) with
       | Some sc =>
           if bool_decide (sc_Provisioner sc = LocalStorageClassProvisioner)
           then match hasSCDiff sc lsc effectiveLVGs ignoredLabelPrefixes with
                | None => None
                | Some (inr err) => Some (inr err)
                | Some (inl true) => Some (inl true)
                | Some (inl false) => Some (inl (needs_verdict lsc))
                end
           else Some (inr ("a storage class " ++ GetName sc
                           ++ " already exists and does not belong to "
                           ++ LocalStorageClassProvisioner ++ " provisioner"))
       | None => Some (inr ("a storage class " ++ GetName lsc ++ " does not exist"))
       end.

(** identifyReconcileFunc *)
Definition identifyReconcileFunc (scList : list StorageClass) (lsc : LocalStorageClass)
    (effectiveLVGs : list LocalStorageClassLVG) (ignoredLabelPrefixes : list string)
    : option (result string reconcileType) :=
  if shouldReconcileByDeleteFunc lsc then Some (inl DeleteReconcile)
  else if shouldReconcileByCreateFunc scList lsc then Some (inl CreateReconcile)
  else match shouldReconcileByUpdateFunc scList lsc effectiveLVGs ignoredLabelPrefixes with
       | None => None
       | Some (inr err) => Some (inr err)
       | Some (inl true) => Some (inl UpdateReconcile)
       | Some (inl false) => Some (inl NoneReconcile)
       end.

(** ** The StorageClass of a LocalStorageClass *)

Definition storage_class_params (lsc : LocalStorageClass) (lvm : LocalStorageClassLVMSpec)
    (lvgsParam : string) : strmap :=
  let fsType := if bool_decide (lsc_FSType (lsc_Spec lsc) = "") then DefaultFSType
                else lsc_FSType (lsc_Spec lsc) in
  let params : strmap :=
    {[ TypeParamKey := LocalStorageClassLvmType;
       LVMTypeParamKey := lvm_Type lvm;
       LVMVolumeBindingModeParamKey := lsc_VolumeBindingMode (lsc_Spec lsc);
       LVMVolumeGroupsParamKey := lvgsParam;
       FSTypeParamKey := fsType ]} in
  let params :=
    match lvm_Thick lvm with
    | Some (mkThick (Some true)) => <[LVMThickContiguousParamKey := "true"]> params
    | _ => params
    end in
  if bool_decide (lvm_VolumeCleanup lvm = "") then params
  else <[LVMVolumeCleanupParamKey := lvm_VolumeCleanup lvm]> params.

(** configureStorageClass *)
Definition configureStorageClass (lsc : LocalStorageClass)
    (effectiveLVGs : list LocalStorageClassLVG) (ignoredLabelPrefixes : list string)
    : result string StorageClass :=
  match lsc_LVM (lsc_Spec lsc) with
  | None => inr "unable to identify the LocalStorageClass type"
  | Some lvm =>
      match yaml_Marshal effectiveLVGs with
      | inr err => inr err
      | inl lvgsParam =>
          let filteredLabels :=
            filterLabelsForStorageClass (om_Labels (lsc_meta lsc)) ignoredLabelPrefixes in
          let labels :=
            match filteredLabels with
            | Some l => if bool_decide (l = ∅)
                        then {[ SLVStorageManagedLabelKey := SLVStorageClassCtrlName ]}
                        else <[SLVStorageManagedLabelKey := SLVStorageClassCtrlName]> l
            | None => {[ SLVStorageManagedLabelKey := SLVStorageClassCtrlName ]}
            end in
          let annotations : strmap :=
            {[ SLVStorageClassVolumeSnapshotClassAnnotationKey :=
                 SLVStorageClassVolumeSnapshotClassAnnotationValue ]} in
          inl (mkSC StorageClassKind StorageClassAPIVersion
                 (mkMeta (GetName lsc) (om_Namespace (lsc_meta lsc)) "" "" 0 None
                    [LocalStorageClassFinalizerName] (Some labels) (Some annotations) [])
                 LocalStorageClassProvisioner
                 (Some (storage_class_params lsc lvm lvgsParam))
                 (Some (lsc_ReclaimPolicy (lsc_Spec lsc)))
                 (Some AllowVolumeExpansionDefaultValue)
                 (Some (lsc_VolumeBindingMode (lsc_Spec lsc))))
      end
  end.

(** updateStorageClass: the annotations of the old StorageClass are carried over,
    the new ones win. *)
Definition updateStorageClass (lsc : LocalStorageClass) (oldSC : StorageClass)
    (effectiveLVGs : list LocalStorageClassLVG) (ignoredLabelPrefixes : list string)
    : result string StorageClass :=
  match configureStorageClass lsc effectiveLVGs ignoredLabelPrefixes with
  | inr err => inr err
  | inl newSC =>
      match om_Annotations (sc_meta oldSC) with
      | None => inl newSC
      | Some old =>
          inl (with_meta (λ m,
                 mkMeta (om_Name m) (om_Namespace m) (om_UID m) (om_ResourceVersion m)
                   (om_Generation m) (om_DeletionTimestamp m) (om_Finalizers m) (om_Labels m)
                   (Some (default ∅ (om_Annotations m) ∪ old)) (om_ManagedFields m)) newSC)
      end
  end.
End lsc.
