(* ===== verification/DeepCopy.v ===== *)
(** * Deep copies of the API types

    api/v1alpha1/zz_generated.deepcopy.go, which is maintained by hand.  What
    has to be right about it is memory: a copy must be equal to the original
    and share nothing with it.  Go's memory is a heap of cells, one per
    allocation: a struct behind a pointer, or the array behind a slice (whole
    slices only).  A struct is a value whose pointers and slices are locations;
    a [DeepCopyInto] takes the value of its receiver and returns the value it
    writes to [out].  [view_*] read an object back from the heap as a value of
    LSC.v, together with the shape (which pointers and slices are nil) and the
    locations read.  The deep copies of metav1 are third-party. *)

From stdpp Require Import fin_maps fin_map_dom.
From S2P Require Import Prelude Kube LSC.

Local Open Scope string_scope.

Abbreviation loc := positive.

(** ** Heaps *)

Section heap.
Context {cell : Type}.

Abbreviation heap := (gmap loc cell).

(** A computation on the heap; [None] is a dereference that goes wrong. *)
Definition mem (A : Type) : Type := heap → option (A * heap).

#[global] Instance mem_ret : MRet mem := λ A a h, Some (a, h).
#[global] Instance mem_bind : MBind mem := λ A B f m h,
  match m h with Some (a, h') => f a h' | None => None end.

(** A reading of the heap: a value, the shape met and the locations read. *)
Definition view (A : Type) : Type := heap → option (A * list bool * gset loc).

#[global] Instance view_ret : MRet view := λ A a h, Some (a, [], ∅).
#[global] Instance view_bind : MBind view := λ A B f v h,
  match v h with
  | Some (a, s, fp) =>
      match f a h with
      | Some (b, s', fp') => Some (b, (s ++ s')%list, fp ∪ fp')
      | None => None
      end
  | None => None
  end.

(** The cells that hold a value of a type. *)
Class Storable (A : Type) := {
  inj : A → cell;
  proj : cell → option A;
  proj_inj : ∀ a, proj (inj a) = Some a;
}.

Definition alloc {A} `{Storable A} (a : A) : mem loc :=
  λ h, let l := fresh (dom h) in Some (l, <[l := inj a]> h).

Definition load {A} `{Storable A} (l : loc) : mem A :=
  λ h, match h !! l ≫= proj with Some a => Some (a, h) | None => None end.

(** A write through a pointer to an allocated cell. *)
Definition store {A} `{Storable A} (l : loc) (a : A) : mem unit :=
  λ h, match h !! l with Some _ => Some (tt, <[l := inj a]> h) | None => None end.

Definition vload {A} `{Storable A} (l : loc) : view A :=
  λ h, match h !! l ≫= proj with Some a => Some (a, [], {[l]}) | None => None end.

Definition vshape (b : bool) : view unit := λ h, Some (tt, [b], ∅).

(** ** Pointers and slices *)

(** [if in != nil { *out = new (T); ( *in).DeepCopyInto ( *out) }]; the receiver
    of a [DeepCopy] is such a pointer. *)
Definition copy_ptr {A} `{Storable A} (zero : A) (DeepCopyInto : A → mem A) (p : option loc)
    : mem (option loc) :=
  match p with
  | None => mret None
  | Some l =>
      out ← alloc zero;
      v ← load l;
      v ← DeepCopyInto v;
      _ ← store out v;
      mret (Some out)
  end.

Fixpoint copy_each {A} (DeepCopyInto : A → mem A) (vs : list A) : mem (list A) :=
  match vs with
  | [] => mret []
  | v :: vs =>
      v ← DeepCopyInto v;
      vs ← copy_each DeepCopyInto vs;
      mret (v :: vs)
  end.

(** [if in != nil { *out = make ([]T, len ( *in)); for i ... }] *)
Definition copy_slice {A} `{Storable (list A)} (zero : A) (DeepCopyInto : A → mem A)
    (p : option loc) : mem (option loc) :=
  match p with
  | None => mret None
  | Some l =>
      vs ← load l;
      out ← alloc (replicate (length vs) zero);
      vs ← copy_each DeepCopyInto vs;
      _ ← store out vs;
      mret (Some out)
  end.

Definition view_ptr {A V} `{Storable A} (vw : A → view V) (p : option loc) : view (option V) :=
  match p with
  | None => _ ← vshape true; mret None
  | Some l => _ ← vshape false; a ← vload l; v ← vw a; mret (Some v)
  end.

Fixpoint view_each {A V} (vw : A → view V) (vs : list A) : view (list V) :=
  match vs with
  | [] => mret []
  | v :: vs => v ← vw v; vs ← view_each vw vs; mret (v :: vs)
  end.

(** A nil slice is an empty list of the other shape. *)
Definition view_slice {A V} `{Storable (list A)} (vw : A → view V) (p : option loc)
    : view (list V) :=
  match p with
  | None => _ ← vshape true; mret []
  | Some l => _ ← vshape false; vs ← vload l; view_each vw vs
  end.

(** ** Locality *)

(** A reading depends on the locations it reads and on nothing else. *)
Definition local {V} (vw : view V) : Prop := ∀ h v s fp, vw h = Some (v, s, fp) →
  fp ⊆ dom h ∧
  ∀ h', (∀ l, l ∈ fp → h' !! l = h !! l) → vw h' = Some (v, s, fp).

Lemma local_ret {V} (v : V) : local (mret v).
Proof. intros h ??? [= <- <- <-]. split; [set_solver|]. done. Qed.

Lemma local_bind {V W} (vw : view V) (f : V → view W) :
  local vw → (∀ v, local (f v)) → local (vw ≫= f).
Proof.
  intros Hv Hf h w s fp. unfold mbind, view_bind.
  destruct (vw h) as [[[v s1] fp1]|] eqn:E1; [|done].
  destruct (f v h) as [[[w' s2] fp2]|] eqn:E2; [|done]. intros [= <- <- <-].
  destruct (Hv _ _ _ _ E1) as [Hd1 H1], (Hf _ _ _ _ _ E2) as [Hd2 H2].
  split; [set_solver|]. intros h' Hh'.
  rewrite (H1 h'), (H2 h'); [done|..]; intros l Hl; apply Hh'; set_solver.
Qed.

Lemma local_vload {A} `{Storable A} l : local (vload (A := A) l).
Proof.
  intros h v s fp. unfold vload. destruct (h !! l ≫= proj) as [a|] eqn:E; [|done].
  intros [= <- <- <-]. split.
  - apply singleton_subseteq_l, elem_of_dom. destruct (h !! l); [eauto|done].
  - intros h' Hh'. rewrite Hh', E by set_solver. done.
Qed.

Lemma local_vshape b : local (vshape b).
Proof. intros h ??? [= <- <- <-]. split; [set_solver|]. done. Qed.

Lemma local_ptr {A V} `{Storable A} (vw : A → view V) p :
  (∀ a, local (vw a)) → local (view_ptr vw p).
Proof.
  intros Hv. destruct p as [l|]; simpl; apply local_bind; try apply local_vshape; intros _;
    [|apply local_ret].
  apply local_bind; [apply local_vload|]. intros a. apply local_bind; [done|]. intros v. apply local_ret.
Qed.

Lemma local_each {A V} (vw : A → view V) vs : (∀ a, local (vw a)) → local (view_each vw vs).
Proof.
  intros Hv. induction vs as [|v vs IH]; simpl; [apply local_ret|].
  apply local_bind; [done|]. intros w. apply local_bind; [done|]. intros ws. apply local_ret.
Qed.

Lemma local_slice {A V} `{Storable (list A)} (vw : A → view V) p :
  (∀ a, local (vw a)) → local (view_slice vw p).
Proof.
  intros Hv. destruct p as [l|]; simpl; apply local_bind; try apply local_vshape; intros _;
    [|apply local_ret].
  apply local_bind; [apply local_vload|]. intros vs. by apply local_each.
Qed.

(** What holds in a heap holds in any heap that extends it. *)
Lemma local_extends {V} (vw : view V) h h' v s fp :
  local vw → h ⊆ h' → vw h = Some (v, s, fp) → vw h' = Some (v, s, fp).
Proof.
  intros Hl Hh Hv. destruct (Hl _ _ _ _ Hv) as [Hd Hs]. apply Hs. intros l Hin.
  apply Hd, elem_of_dom in Hin as [c Hc]. by rewrite Hc, (lookup_weaken _ _ _ _ Hc Hh).
Qed.

(** A write outside what is read is not seen. *)
Lemma local_insert {V} (vw : view V) h l c v s fp :
  local vw → l ∉ fp → vw h = Some (v, s, fp) → vw (<[l := c]> h) = Some (v, s, fp).
Proof.
  intros Hl Hn Hv. destruct (Hl _ _ _ _ Hv) as [_ Hs]. apply Hs. intros l' Hin.
  rewrite lookup_insert_ne; [done|]. set_solver.
Qed.

(** ** Copying *)

(** The program makes a copy of what [vw] reads: it writes only to memory it
    allocates, and reading the result gives the same value and shape, all of
    it in new memory. *)
Definition copied {A V} (vw : view V) (m : mem A) (vw' : A → view V) : Prop :=
  ∀ h v s fp, vw h = Some (v, s, fp) →
    ∃ a h' fp', m h = Some (a, h') ∧ h ⊆ h' ∧ vw' a h' = Some (v, s, fp') ∧ fp' ## dom h.

Definition copies {A V} (vw : A → view V) (dci : A → mem A) : Prop :=
  ∀ a, copied (vw a) (dci a) vw.

Lemma copied_ret {A V} (a : A) (v : V) (vw' : A → view V) :
  vw' a = mret v → copied (mret v) (mret a) vw'.
Proof.
  intros Ha h ??? [= <- <- <-]. exists a, h, ∅. rewrite Ha.
  split_and!; [done|done|done|set_solver].
Qed.

(** A struct with one field to copy, with two, with three. *)
Lemma copied_map {A B V W} (vw : view V) m (vw' : A → view V) (f : V → W) (c : A → B) vwB :
  copied vw m vw' → (∀ a, vwB (c a) = (x ← vw' a; mret (f x))) →
  copied (x ← vw; mret (f x)) (a ← m; mret (c a)) vwB.
Proof.
  intros Hc Hb h w s fp. unfold mbind at 1, view_bind at 1.
  destruct (vw h) as [[[v s1] fp1]|] eqn:E; [|done]. intros [= <- <- <-].
  destruct (Hc _ _ _ _ E) as (a & h' & fp' & Hm & Hh & Hv & Hd).
  exists (c a), h', (fp' ∪ ∅). unfold mbind at 1, mem_bind at 1. rewrite Hm, Hb.
  split_and!; [done|done| |set_solver]. unfold mbind, view_bind. by rewrite Hv.
Qed.

Lemma copied_pair {A1 A2 B V1 V2 W} (v1 : view V1) (v2 : view V2) m1 m2
    (v1' : A1 → view V1) (v2' : A2 → view V2) (f : V1 → V2 → W) (c : A1 → A2 → B) vwB :
  copied v1 m1 v1' → copied v2 m2 v2' → local v2 → (∀ a, local (v1' a)) →
  (∀ a b, vwB (c a b) = (x ← v1' a; y ← v2' b; mret (f x y))) →
  copied (x ← v1; y ← v2; mret (f x y)) (a ← m1; b ← m2; mret (c a b)) vwB.
Proof.
  intros Hc1 Hc2 Hl2 Hl1 Hb h w s fp. unfold mbind at 1 2, view_bind at 1 2.
  destruct (v1 h) as [[[x s1] fp1]|] eqn:E1; [|done].
  destruct (v2 h) as [[[y s2] fp2]|] eqn:E2; [|done]. intros [= <- <- <-].
  destruct (Hc1 _ _ _ _ E1) as (a & h1 & fp1' & Hm1 & Hh1 & Hv1 & Hd1).
  destruct (Hc2 _ _ _ _ (local_extends _ _ _ _ _ _ Hl2 Hh1 E2))
    as (b & h2 & fp2' & Hm2 & Hh2 & Hv2 & Hd2).
  apply subseteq_dom in Hh1 as Hdom.
  exists (c a b), h2, (fp1' ∪ (fp2' ∪ ∅)). unfold mbind at 1 2, mem_bind at 1 2. rewrite Hm1, Hm2, Hb.
  split_and!; [done|by etrans| |set_solver].
  unfold mbind, view_bind. by rewrite (local_extends _ _ _ _ _ _ (Hl1 a) Hh2 Hv1), Hv2.
Qed.

Lemma copied_triple {A1 A2 A3 B V1 V2 V3 W} (v1 : view V1) (v2 : view V2) (v3 : view V3) m1 m2 m3
    (v1' : A1 → view V1) (v2' : A2 → view V2) (v3' : A3 → view V3)
    (f : V1 → V2 → V3 → W) (c : A1 → A2 → A3 → B) vwB :
  copied v1 m1 v1' → copied v2 m2 v2' → copied v3 m3 v3' → local v2 → local v3 →
  (∀ a, local (v1' a)) → (∀ a, local (v2' a)) →
  (∀ a b d, vwB (c a b d) = (x ← v1' a; y ← v2' b; z ← v3' d; mret (f x y z))) →
  copied (x ← v1; y ← v2; z ← v3; mret (f x y z))
         (a ← m1; b ← m2; d ← m3; mret (c a b d)) vwB.
Proof.
  intros Hc1 Hc2 Hc3 Hl2 Hl3 Hl1' Hl2' Hb h w s fp. unfold mbind at 1 2 3, view_bind at 1 2 3.
  destruct (v1 h) as [[[x s1] fp1]|] eqn:E1; [|done].
  destruct (v2 h) as [[[y s2] fp2]|] eqn:E2; [|done].
  destruct (v3 h) as [[[z s3] fp3]|] eqn:E3; [|done]. intros [= <- <- <-].
  destruct (Hc1 _ _ _ _ E1) as (a & h1 & fp1' & Hm1 & Hh1 & Hv1 & Hd1).
  destruct (Hc2 _ _ _ _ (local_extends _ _ _ _ _ _ Hl2 Hh1 E2))
    as (b & h2 & fp2' & Hm2 & Hh2 & Hv2 & Hd2).
  assert (Hh02 : h ⊆ h2) by by etrans.
  destruct (Hc3 _ _ _ _ (local_extends _ _ _ _ _ _ Hl3 Hh02 E3))
    as (d & h3 & fp3' & Hm3 & Hh3 & Hv3 & Hd3).
  apply subseteq_dom in Hh1 as Hdom1. apply subseteq_dom in Hh02 as Hdom2.
  assert (Hh13 : h1 ⊆ h3) by by etrans.
  exists (c a b d), h3, (fp1' ∪ (fp2' ∪ (fp3' ∪ ∅))).
  unfold mbind at 1 2 3, mem_bind at 1 2 3. rewrite Hm1, Hm2, Hm3, Hb.
  split_and!; [done|by etrans| |set_solver]. unfold mbind, view_bind.
  by rewrite (local_extends _ _ _ _ _ _ (Hl1' a) Hh13 Hv1),
    (local_extends _ _ _ _ _ _ (Hl2' b) Hh3 Hv2), Hv3.
Qed.

(** A new cell that is written once its content has been copied. *)
Lemma alloc_store {A} `{Storable A} (c : cell) (a : A) (h h2 : heap) :
  let l := fresh (dom h) in
  subseteq (<[l := c]> h) h2 →
  (l ∉ dom h) ∧ store l a h2 = Some (tt, (<[l := inj a]> h2)) ∧ h ⊆ (<[l := inj a]> h2).
Proof.
  intros l Hh. assert (Hl : l ∉ dom h) by apply is_fresh. split; [done|].
  apply not_elem_of_dom in Hl. unfold store.
  assert (h2 !! l = Some c) as -> by (eapply lookup_weaken; [apply lookup_insert_eq|done]).
  split; [done|]. apply insert_subseteq_r; [done|]. etrans; [|done]. by apply insert_subseteq.
Qed.

Lemma vload_eq {A} `{Storable A} l (a : A) (h : heap) :
  vload l (<[l := inj a]> h) = Some (a, [], {[l]}).
Proof. unfold vload. rewrite lookup_insert_eq. simpl. by rewrite proj_inj. Qed.

Lemma copied_ptr {A V} `{Storable A} (vw : A → view V) dci zero p :
  copies vw dci → (∀ a, local (vw a)) →
  copied (view_ptr vw p) (copy_ptr zero dci p) (view_ptr vw).
Proof.
  intros Hc Hl. destruct p as [l|].
  2:{ intros h ??? [= <- <- <-]. exists None, h, (∅ ∪ ∅). split_and!; [done|done|done|set_solver]. }
  intros h w s fp. unfold view_ptr, mbind, view_bind at 1. simpl. unfold view_bind at 1, vload at 1.
  destruct (h !! l ≫= proj) as [a|] eqn:Hload; [|done]. unfold view_bind at 1.
  destruct (vw a h) as [[[v s1] fp1]|] eqn:Hv; [|done]. intros [= <- <- <-].
  set (out := fresh (dom h)). set (h1 := <[out := inj zero]> h).
  assert (Hn : out ∉ dom h) by apply is_fresh.
  assert (Hh1 : h ⊆ h1) by (apply insert_subseteq; by apply not_elem_of_dom).
  destruct (Hc a h1 _ _ _ (local_extends _ _ _ _ _ _ (Hl a) Hh1 Hv))
    as (a' & h2 & fp' & Hm & Hh2 & Hv' & Hd).
  destruct (alloc_store (inj zero) a' h h2 Hh2) as (_ & Hst & Hh3). fold out in Hst, Hh3.
  assert (Hout : out ∉ fp').
  { unfold h1 in Hd. rewrite dom_insert_L in Hd. set_solver. }
  exists (Some out), (<[out := inj a']> h2), ((∅ : gset loc) ∪ ({[out]} ∪ (fp' ∪ ∅))).
  split_and!.
  - unfold copy_ptr, mbind, mem_bind, alloc at 1. fold out h1.
    unfold load. assert (h1 !! l = h !! l) as ->.
    { unfold h1. rewrite lookup_insert_ne; [done|]. intros <-. apply Hn, elem_of_dom.
      by destruct (h !! out). }
    rewrite Hload, Hm, Hst. done.
  - done.
  - unfold view_ptr, mbind, view_bind at 1. simpl. unfold view_bind at 1. rewrite vload_eq.
    unfold view_bind at 1. by rewrite (local_insert _ _ _ _ _ _ _ (Hl a') Hout Hv').
  - apply subseteq_dom in Hh1. set_solver.
Qed.

Lemma copied_each {A V} (vw : A → view V) dci vs :
  copies vw dci → (∀ a, local (vw a)) →
  copied (view_each vw vs) (copy_each dci vs) (view_each vw).
Proof.
  intros Hc Hl. induction vs as [|a vs IH]; [by apply copied_ret|].
  apply (copied_pair _ _ _ _ vw (view_each vw) _ cons); try done.
  by apply local_each.
Qed.

Lemma copied_slice {A V} `{Storable (list A)} (vw : A → view V) dci zero p :
  copies vw dci → (∀ a, local (vw a)) →
  copied (view_slice vw p) (copy_slice zero dci p) (view_slice vw).
Proof.
  intros Hc Hl. destruct p as [l|].
  2:{ intros h ??? [= <- <- <-]. exists None, h, (∅ ∪ ∅). split_and!; [done|done|done|set_solver]. }
  intros h w s fp. unfold view_slice, mbind, view_bind at 1. simpl. unfold view_bind at 1, vload at 1.
  destruct (h !! l ≫= proj) as [vs|] eqn:Hload; [|done].
  destruct (view_each vw vs h) as [[[v s1] fp1]|] eqn:Hv; [|done]. intros [= <- <- <-].
  set (out := fresh (dom h)). set (h1 := <[out := inj (replicate (length vs) zero)]> h).
  assert (Hn : out ∉ dom h) by apply is_fresh.
  assert (Hh1 : h ⊆ h1) by (apply insert_subseteq; by apply not_elem_of_dom).
  assert (Hle : ∀ vs, local (view_each vw vs)) by (intros; by apply local_each).
  destruct (copied_each vw dci vs Hc Hl h1 _ _ _ (local_extends _ _ _ _ _ _ (Hle vs) Hh1 Hv))
    as (vs' & h2 & fp' & Hm & Hh2 & Hv' & Hd).
  destruct (alloc_store (inj (replicate (length vs) zero)) vs' h h2 Hh2) as (_ & Hst & Hh3).
  fold out in Hst, Hh3.
  assert (Hout : out ∉ fp').
  { unfold h1 in Hd. rewrite dom_insert_L in Hd. set_solver. }
  exists (Some out), (<[out := inj vs']> h2), ((∅ : gset loc) ∪ ({[out]} ∪ fp')).
  split_and!.
  - unfold copy_slice, mbind, mem_bind, load at 1. rewrite Hload. unfold alloc at 1. fold out h1.
    rewrite Hm, Hst. done.
  - done.
  - unfold view_slice, mbind, view_bind at 1. simpl. unfold view_bind at 1. rewrite vload_eq.
    by rewrite (local_insert _ _ _ _ _ _ _ (Hle vs') Hout Hv').
  - apply subseteq_dom in Hh1. set_solver.
Qed.
End heap.

(** ** The types in memory

    The structs of local_storage_class.go with their pointers and slices. *)

(** The structs of metav1, and the cells their own pointers lead to. *)
Class Metav1 := {
  go_ObjectMeta : Type;
  go_ListMeta : Type;
  go_LabelSelector : Type;
  go_Condition : Type;
  foreign : Type;
  zero_ObjectMeta : go_ObjectMeta;
  zero_ListMeta : go_ListMeta;
  zero_LabelSelector : go_LabelSelector;
  zero_Condition : go_Condition;
}.

Section types.
Context `{Metav1}.

Record go_LocalStorageClassLVG := go_LVG {
  go_Name : string;
  go_LabelSelectorPtr : option loc;
  go_Thin : option loc;
}.

Record go_LocalStorageClassLVMSpec := go_LVM {
  go_Type : string;
  go_Thick : option loc;
  go_VolumeCleanup : string;
  go_LVMVolumeGroups : option loc;
}.

Record go_LocalStorageClassSpec := go_Spec {
  go_ReclaimPolicy : string;
  go_VolumeBindingMode : string;
  go_LVMPtr : option loc;
  go_FSType : string;
}.

Record go_LocalStorageClassStatus := go_Status {
  go_Phase : string;
  go_Reason : string;
  go_ObservedGeneration : Z;
  go_Conditions : option loc;
}.

Record go_LocalStorageClass := go_LSC {
  go_TypeMeta : string * string;
  go_Meta : go_ObjectMeta;
  go_SpecField : go_LocalStorageClassSpec;
  go_StatusPtr : option loc;
}.

Record go_LocalStorageClassList := go_List {
  go_ListTypeMeta : string * string;
  go_ListMetaField : go_ListMeta;
  go_Items : option loc;
}.

Inductive cell :=
| CBool (b : bool)
| CThin (s : LocalStorageClassLVMThinPoolSpec)
| CThick (Contiguous : option loc)
| CLVG (s : go_LocalStorageClassLVG)
| CLVGs (l : list go_LocalStorageClassLVG)
| CLVM (s : go_LocalStorageClassLVMSpec)
| CSpec (s : go_LocalStorageClassSpec)
| CStatus (s : go_LocalStorageClassStatus)
| CConditions (l : list go_Condition)
| CSelector (s : go_LabelSelector)
| CLSC (s : go_LocalStorageClass)
| CItems (l : list go_LocalStorageClass)
| CList (s : go_LocalStorageClassList)
| CForeign (f : foreign).

#[export] Instance bool_storable : Storable (cell := cell) bool.
Proof. by refine {| inj := CBool; proj c := match c with CBool b => Some b | _ => None end |}. Defined.
#[export] Instance thin_storable : Storable (cell := cell) LocalStorageClassLVMThinPoolSpec.
Proof. by refine {| inj := CThin; proj c := match c with CThin b => Some b | _ => None end |}. Defined.

(** The struct LocalStorageClassLVMThickSpec is its one pointer. *)
Record go_LocalStorageClassLVMThickSpec := go_ThickSpec { go_Contiguous : option loc }.

#[export] Instance thick_storable : Storable (cell := cell) go_LocalStorageClassLVMThickSpec.
Proof.
  refine {| inj t := CThick (go_Contiguous t);
            proj c := match c with CThick b => Some (go_ThickSpec b) | _ => None end |}.
  by intros [].
Defined.
#[export] Instance lvg_storable : Storable (cell := cell) go_LocalStorageClassLVG.
Proof. by refine {| inj := CLVG; proj c := match c with CLVG b => Some b | _ => None end |}. Defined.
#[export] Instance lvgs_storable : Storable (cell := cell) (list go_LocalStorageClassLVG).
Proof. by refine {| inj := CLVGs; proj c := match c with CLVGs b => Some b | _ => None end |}. Defined.
#[export] Instance lvm_storable : Storable (cell := cell) go_LocalStorageClassLVMSpec.
Proof. by refine {| inj := CLVM; proj c := match c with CLVM b => Some b | _ => None end |}. Defined.
#[export] Instance spec_storable : Storable (cell := cell) go_LocalStorageClassSpec.
Proof. by refine {| inj := CSpec; proj c := match c with CSpec b => Some b | _ => None end |}. Defined.
#[export] Instance status_storable : Storable (cell := cell) go_LocalStorageClassStatus.
Proof. by refine {| inj := CStatus; proj c := match c with CStatus b => Some b | _ => None end |}. Defined.
#[export] Instance conditions_storable : Storable (cell := cell) (list go_Condition).
Proof. by refine {| inj := CConditions; proj c := match c with CConditions b => Some b | _ => None end |}. Defined.
#[export] Instance selector_storable : Storable (cell := cell) go_LabelSelector.
Proof. by refine {| inj := CSelector; proj c := match c with CSelector b => Some b | _ => None end |}. Defined.
#[export] Instance lsc_storable : Storable (cell := cell) go_LocalStorageClass.
Proof. by refine {| inj := CLSC; proj c := match c with CLSC b => Some b | _ => None end |}. Defined.
#[export] Instance items_storable : Storable (cell := cell) (list go_LocalStorageClass).
Proof. by refine {| inj := CItems; proj c := match c with CItems b => Some b | _ => None end |}. Defined.
#[export] Instance list_storable : Storable (cell := cell) go_LocalStorageClassList.
Proof. by refine {| inj := CList; proj c := match c with CList b => Some b | _ => None end |}. Defined.
End types.

(** ** The copies *)

Abbreviation go A := (mem (cell := cell) A).
Abbreviation reads A := (view (cell := cell) A).

(** DeepCopyInto of metav1, with how its types are read back.  Documented
    behaviour: it makes a deep copy. *)
Class Metav1Copies `{LabelSelectors, Metav1} := {
  ListMeta : Type;
  view_ObjectMeta : go_ObjectMeta → reads ObjectMeta;
  view_ListMeta : go_ListMeta → reads ListMeta;
  view_LabelSelector : go_LabelSelector → reads LabelSelector;
  view_Condition : go_Condition → reads Condition;
  ObjectMeta_DeepCopyInto : go_ObjectMeta → go go_ObjectMeta;
  ListMeta_DeepCopyInto : go_ListMeta → go go_ListMeta;
  LabelSelector_DeepCopyInto : go_LabelSelector → go go_LabelSelector;
  Condition_DeepCopyInto : go_Condition → go go_Condition;
  ObjectMeta_local : ∀ m, local (view_ObjectMeta m);
  ListMeta_local : ∀ m, local (view_ListMeta m);
  LabelSelector_local : ∀ m, local (view_LabelSelector m);
  Condition_local : ∀ m, local (view_Condition m);
  ObjectMeta_copies : copies view_ObjectMeta ObjectMeta_DeepCopyInto;
  ListMeta_copies : copies view_ListMeta ListMeta_DeepCopyInto;
  LabelSelector_copies : copies view_LabelSelector LabelSelector_DeepCopyInto;
  Condition_copies : copies view_Condition Condition_DeepCopyInto;
}.

Section copies.
Context `{Metav1Copies}.

(** Zero values, what [new] and [make] put into a cell. *)
Definition zero_LVG : go_LocalStorageClassLVG := go_LVG "" None None.
Definition zero_LVM : go_LocalStorageClassLVMSpec := go_LVM "" None "" None.
Definition zero_Spec : go_LocalStorageClassSpec := go_Spec "" "" None "".
Definition zero_Status : go_LocalStorageClassStatus := go_Status "" "" 0 None.
Definition zero_LSC : go_LocalStorageClass := go_LSC ("", "") zero_ObjectMeta zero_Spec None.
Definition zero_List : go_LocalStorageClassList := go_List ("", "") zero_ListMeta None.

Definition LocalStorageClassLVMThinPoolSpec_DeepCopyInto
    (s : LocalStorageClassLVMThinPoolSpec) : go LocalStorageClassLVMThinPoolSpec := mret s.

Definition LocalStorageClassLVMThickSpec_DeepCopyInto (s : go_LocalStorageClassLVMThickSpec)
    : go go_LocalStorageClassLVMThickSpec :=
  c ← copy_ptr false mret (go_Contiguous s);
  mret (go_ThickSpec c).

Definition LocalStorageClassLVG_DeepCopyInto (s : go_LocalStorageClassLVG)
    : go go_LocalStorageClassLVG :=
  sel ← copy_ptr zero_LabelSelector LabelSelector_DeepCopyInto (go_LabelSelectorPtr s);
  thin ← copy_ptr (mkThinPool "") mret (go_Thin s);
  mret (go_LVG (go_Name s) sel thin).

Definition LocalStorageClassLVMSpec_DeepCopyInto (s : go_LocalStorageClassLVMSpec)
    : go go_LocalStorageClassLVMSpec :=
  thick ← copy_ptr (go_ThickSpec None) LocalStorageClassLVMThickSpec_DeepCopyInto (go_Thick s);
  groups ← copy_slice zero_LVG LocalStorageClassLVG_DeepCopyInto (go_LVMVolumeGroups s);
  mret (go_LVM (go_Type s) thick (go_VolumeCleanup s) groups).

Definition LocalStorageClassSpec_DeepCopyInto (s : go_LocalStorageClassSpec)
    : go go_LocalStorageClassSpec :=
  lvm ← copy_ptr zero_LVM LocalStorageClassLVMSpec_DeepCopyInto (go_LVMPtr s);
  mret (go_Spec (go_ReclaimPolicy s) (go_VolumeBindingMode s) lvm (go_FSType s)).

Definition LocalStorageClassStatus_DeepCopyInto (s : go_LocalStorageClassStatus)
    : go go_LocalStorageClassStatus :=
  conds ← copy_slice zero_Condition Condition_DeepCopyInto (go_Conditions s);
  mret (go_Status (go_Phase s) (go_Reason s) (go_ObservedGeneration s) conds).

Definition LocalStorageClass_DeepCopyInto (s : go_LocalStorageClass) : go go_LocalStorageClass :=
  meta ← ObjectMeta_DeepCopyInto (go_Meta s);
  spec ← LocalStorageClassSpec_DeepCopyInto (go_SpecField s);
  status ← copy_ptr zero_Status LocalStorageClassStatus_DeepCopyInto (go_StatusPtr s);
  mret (go_LSC (go_TypeMeta s) meta spec status).

Definition LocalStorageClassList_DeepCopyInto (s : go_LocalStorageClassList)
    : go go_LocalStorageClassList :=
  meta ← ListMeta_DeepCopyInto (go_ListMetaField s);
  items ← copy_slice zero_LSC LocalStorageClass_DeepCopyInto (go_Items s);
  mret (go_List (go_ListTypeMeta s) meta items).

(** The DeepCopy methods, on a receiver that may be nil. *)
Definition LocalStorageClassSpec_DeepCopy : option loc → go (option loc) :=
  copy_ptr zero_Spec LocalStorageClassSpec_DeepCopyInto.
Definition LocalStorageClassLVMSpec_DeepCopy : option loc → go (option loc) :=
  copy_ptr zero_LVM LocalStorageClassLVMSpec_DeepCopyInto.
Definition LocalStorageClassLVG_DeepCopy : option loc → go (option loc) :=
  copy_ptr zero_LVG LocalStorageClassLVG_DeepCopyInto.
Definition LocalStorageClassLVMThickSpec_DeepCopy : option loc → go (option loc) :=
  copy_ptr (go_ThickSpec None) LocalStorageClassLVMThickSpec_DeepCopyInto.
Definition LocalStorageClassLVMThinPoolSpec_DeepCopy : option loc → go (option loc) :=
  copy_ptr (mkThinPool "") LocalStorageClassLVMThinPoolSpec_DeepCopyInto.
Definition LocalStorageClassStatus_DeepCopy : option loc → go (option loc) :=
  copy_ptr zero_Status LocalStorageClassStatus_DeepCopyInto.
Definition LocalStorageClass_DeepCopy : option loc → go (option loc) :=
  copy_ptr zero_LSC LocalStorageClass_DeepCopyInto.
Definition LocalStorageClassList_DeepCopy : option loc → go (option loc) :=
  copy_ptr zero_List LocalStorageClassList_DeepCopyInto.

(** DeepCopyObject: the nil interface when DeepCopy returns nil. *)
Definition LocalStorageClass_DeepCopyObject (in_ : option loc) : go (option loc) :=
  c ← LocalStorageClass_DeepCopy in_;
  match c with Some c => mret (Some c) | None => mret None end.
Definition LocalStorageClassList_DeepCopyObject (in_ : option loc) : go (option loc) :=
  c ← LocalStorageClassList_DeepCopy in_;
  match c with Some c => mret (Some c) | None => mret None end.

(** ** The values *)

Definition view_bool (b : bool) : reads bool := mret b.
Definition view_Thin (s : LocalStorageClassLVMThinPoolSpec)
    : reads LocalStorageClassLVMThinPoolSpec := mret s.

Definition view_Thick (s : go_LocalStorageClassLVMThickSpec)
    : reads LocalStorageClassLVMThickSpec :=
  c ← view_ptr view_bool (go_Contiguous s); mret (mkThick c).

Definition view_LVG (s : go_LocalStorageClassLVG) : reads LocalStorageClassLVG :=
  sel ← view_ptr view_LabelSelector (go_LabelSelectorPtr s);
  thin ← view_ptr view_Thin (go_Thin s);
  mret (mkLVG (go_Name s) sel thin).

Definition view_LVM (s : go_LocalStorageClassLVMSpec) : reads LocalStorageClassLVMSpec :=
  thick ← view_ptr view_Thick (go_Thick s);
  groups ← view_slice view_LVG (go_LVMVolumeGroups s);
  mret (mkLVM (go_Type s) thick (go_VolumeCleanup s) groups).

Definition view_Spec (s : go_LocalStorageClassSpec) : reads LocalStorageClassSpec :=
  lvm ← view_ptr view_LVM (go_LVMPtr s);
  mret (mkLSCSpec (go_ReclaimPolicy s) (go_VolumeBindingMode s) lvm (go_FSType s)).

Definition view_Status (s : go_LocalStorageClassStatus) : reads LocalStorageClassStatus :=
  conds ← view_slice view_Condition (go_Conditions s);
  mret (mkLSCStatus (go_Phase s) (go_Reason s) (go_ObservedGeneration s) conds).

Definition view_LSC (s : go_LocalStorageClass) : reads ((string * string) * LocalStorageClass) :=
  meta ← view_ObjectMeta (go_Meta s);
  spec ← view_Spec (go_SpecField s);
  status ← view_ptr view_Status (go_StatusPtr s);
  mret (go_TypeMeta s, mkLSC meta spec status).

Definition view_List (s : go_LocalStorageClassList)
    : reads ((string * string) * ListMeta * list ((string * string) * LocalStorageClass)) :=
  meta ← view_ListMeta (go_ListMetaField s);
  items ← view_slice view_LSC (go_Items s);
  mret (go_ListTypeMeta s, meta, items).

(** ** Every DeepCopyInto copies *)

Hint Resolve local_ret ObjectMeta_local ListMeta_local LabelSelector_local Condition_local : core.

Ltac local_tac :=
  intros; repeat first
    [ apply local_ret | apply local_bind; [|intros ?] | apply local_ptr; intros ?
    | apply local_slice; intros ? ]; auto.

Lemma local_Thick s : local (view_Thick s). Proof. unfold view_Thick, view_bool. local_tac. Qed.
Lemma local_LVG s : local (view_LVG s). Proof. unfold view_LVG, view_Thin. local_tac. Qed.
Hint Resolve local_Thick local_LVG : core.
Lemma local_LVM s : local (view_LVM s). Proof. unfold view_LVM. local_tac. Qed.
Hint Resolve local_LVM : core.
Lemma local_Spec s : local (view_Spec s). Proof. unfold view_Spec. local_tac. Qed.
Lemma local_Status s : local (view_Status s). Proof. unfold view_Status. local_tac. Qed.
Hint Resolve local_Spec local_Status : core.
Lemma local_LSC s : local (view_LSC s). Proof. unfold view_LSC. local_tac. Qed.
Hint Resolve local_LSC : core.
Lemma local_List s : local (view_List s). Proof. unfold view_List. local_tac. Qed.
Hint Resolve local_List : core.

Lemma copies_bool : copies view_bool mret.
Proof. intros b. by apply copied_ret. Qed.

Lemma copies_Thin : copies view_Thin LocalStorageClassLVMThinPoolSpec_DeepCopyInto.
Proof. intros s. by apply copied_ret. Qed.

Lemma copies_Thick : copies view_Thick LocalStorageClassLVMThickSpec_DeepCopyInto.
Proof.
  intros s. apply (copied_map _ _ (view_ptr view_bool) _ go_ThickSpec); [|done].
  apply copied_ptr; [apply copies_bool|]. unfold view_bool. auto.
Qed.

Lemma copies_LVG : copies view_LVG LocalStorageClassLVG_DeepCopyInto.
Proof.
  intros s. apply (copied_pair _ _ _ _ (view_ptr view_LabelSelector) (view_ptr view_Thin)
    _ (go_LVG (go_Name s))); [| |unfold view_Thin; local_tac..|done].
  - by apply copied_ptr; [apply LabelSelector_copies|].
  - apply copied_ptr; [apply copies_Thin|]. unfold view_Thin. auto.
Qed.

Lemma copies_LVM : copies view_LVM LocalStorageClassLVMSpec_DeepCopyInto.
Proof.
  intros s. apply (copied_pair _ _ _ _ (view_ptr view_Thick) (view_slice view_LVG)
    _ (λ t g, go_LVM (go_Type s) t (go_VolumeCleanup s) g)); [| |local_tac..|done].
  - by apply copied_ptr; [apply copies_Thick|].
  - by apply copied_slice; [apply copies_LVG|].
Qed.

Lemma copies_Spec : copies view_Spec LocalStorageClassSpec_DeepCopyInto.
Proof.
  intros s. apply (copied_map _ _ (view_ptr view_LVM) _
    (λ l, go_Spec (go_ReclaimPolicy s) (go_VolumeBindingMode s) l (go_FSType s))); [|done].
  by apply copied_ptr; [apply copies_LVM|].
Qed.

Lemma copies_Status : copies view_Status LocalStorageClassStatus_DeepCopyInto.
Proof.
  intros s. apply (copied_map _ _ (view_slice view_Condition) _
    (go_Status (go_Phase s) (go_Reason s) (go_ObservedGeneration s))); [|done].
  by apply copied_slice; [apply Condition_copies|].
Qed.

Lemma copies_LSC : copies view_LSC LocalStorageClass_DeepCopyInto.
Proof.
  intros s. apply (copied_triple _ _ _ _ _ _ view_ObjectMeta view_Spec (view_ptr view_Status)
    (λ m sp st, (go_TypeMeta s, mkLSC m sp st)) (go_LSC (go_TypeMeta s)));
    [apply ObjectMeta_copies|apply copies_Spec| |local_tac..|done].
  by apply copied_ptr; [apply copies_Status|].
Qed.

Lemma copies_List : copies view_List LocalStorageClassList_DeepCopyInto.
Proof.
  intros s. apply (copied_pair _ _ _ _ view_ListMeta (view_slice view_LSC)
    (λ m items, (go_ListTypeMeta s, m, items)) (go_List (go_ListTypeMeta s)));
    [apply ListMeta_copies| |local_tac..|done].
  by apply copied_slice; [apply copies_LSC|].
Qed.

(** ** Independence *)

(** What the contract of DeepCopyObject asks of a copy: an equal object of
    the same shape, made without a write to memory that was there before, that
    shares no memory with the original, so that no write through one of them
    is seen through the other. *)
Definition deep_copy_of {A V} `{Storable (cell := cell) A} (vw : A → reads V)
    (copy : option loc → go (option loc)) : Prop :=
  ∀ p h v shape fp, view_ptr vw p h = Some (v, shape, fp) →
    ∃ out h' fp', copy p h = Some (out, h') ∧ h ⊆ h' ∧
      view_ptr vw out h' = Some (v, shape, fp') ∧ fp ## fp' ∧
      (∀ l c, l ∈ fp' → view_ptr vw p (<[l := c]> h') = Some (v, shape, fp)) ∧
      (∀ l c, l ∈ fp → view_ptr vw out (<[l := c]> h') = Some (v, shape, fp')).

Lemma copied_deep_copy {A V} `{Storable (cell := cell) A} (vw : A → reads V) zero dci :
  copies vw dci → (∀ a, local (vw a)) → deep_copy_of vw (copy_ptr zero dci).
Proof.
  intros Hc Hl p h v shape fp Hv.
  assert (Hp : ∀ p, local (view_ptr vw p)) by (intros; by apply local_ptr).
  destruct (copied_ptr vw dci zero p Hc Hl h v shape fp Hv) as (out & h' & fp' & Hm & Hh & Hv' & Hd).
  assert (Hdisj : fp ## fp'). { destruct (Hp _ _ _ _ _ Hv) as [Hdom _]. set_solver. }
  exists out, h', fp'. split_and!; [done..| |].
  - intros l c Hin. apply local_insert; [done|set_solver|]. by eapply local_extends.
  - intros l c Hin. apply local_insert; [done|set_solver|done].
Qed.

Lemma DeepCopyObject_DeepCopy {A V} `{Storable (cell := cell) A} (vw : A → reads V) copy :
  deep_copy_of vw copy →
  deep_copy_of vw (λ p, c ← copy p; match c with Some c => mret (Some c) | None => mret None end).
Proof.
  intros Hc p h v shape fp Hv. destruct (Hc p h v shape fp Hv) as (out & h' & fp' & Hm & Hrest).
  exists out, h', fp'. split; [|done]. unfold mbind, mem_bind. rewrite Hm. by destruct out.
Qed.

(** C21: copies are deep.  DeepCopyObject of a LocalStorageClass and of a list
    of them, and DeepCopy of every type below, return for an object that can
    be read an equal one with the same nil pointers and slices; they write
    only to memory they allocate, and original and copy share none, so that no
    write through one is seen through the other.  The copy of nil is nil. *)
Theorem copies_are_independent :
  deep_copy_of view_LSC LocalStorageClass_DeepCopyObject ∧
  deep_copy_of view_List LocalStorageClassList_DeepCopyObject ∧
  deep_copy_of view_LSC LocalStorageClass_DeepCopy ∧
  deep_copy_of view_List LocalStorageClassList_DeepCopy ∧
  deep_copy_of view_Spec LocalStorageClassSpec_DeepCopy ∧
  deep_copy_of view_LVM LocalStorageClassLVMSpec_DeepCopy ∧
  deep_copy_of view_LVG LocalStorageClassLVG_DeepCopy ∧
  deep_copy_of view_Thick LocalStorageClassLVMThickSpec_DeepCopy ∧
  deep_copy_of view_Thin LocalStorageClassLVMThinPoolSpec_DeepCopy ∧
  deep_copy_of view_Status LocalStorageClassStatus_DeepCopy.
Proof.
  assert (Hlsc : deep_copy_of view_LSC LocalStorageClass_DeepCopy)
    by (by apply copied_deep_copy; [apply copies_LSC|]).
  assert (Hlist : deep_copy_of view_List LocalStorageClassList_DeepCopy)
    by (by apply copied_deep_copy; [apply copies_List|]).
  split_and!; try done; try (by apply DeepCopyObject_DeepCopy); apply copied_deep_copy;
    auto using copies_Spec, copies_LVM, copies_LVG, copies_Thick, copies_Thin, copies_Status.
Qed.
End copies.
