(* ===== verification/LSCValidate.v ===== *)
(** * Validation of a LocalStorageClass

    validateLocalStorageClass and its helpers, of
    images/controller/pkg/controller/local_storage_class_watcher_func.go, and the
    theorem that says what the verdict means. *)

From S2P Require Import Prelude Effects Kube LSC.

Local Open Scope string_scope.

Section validate.
Context `{LabelSelectors, ApiMachinery, MapRange}.

(** findUnmanagedDuplicatedSC *)
Definition findUnmanagedDuplicatedSC (scList : list StorageClass) (lsc : LocalStorageClass)
    : string :=
  match List.find (λ sc, bool_decide (GetName sc = GetName lsc)
                         && negb (bool_decide (sc_Provisioner sc =
                                               LocalStorageClassProvisioner))) scList with
  | Some sc => GetName sc
  | None => ""
  end.

(** findAnyThinPool *)
Definition findAnyThinPool (effectiveLVGs : list LocalStorageClassLVG) : list string :=
  map lvg_Name (List.filter (λ l, bool_decide (is_Some (lvg_Thin l))) effectiveLVGs).

(** The map by name the searches build; a later group replaces an earlier one. *)
Definition lvgs_by_name (lvgList : list LVMVolumeGroup) : gmap string LVMVolumeGroup :=
  foldl (λ m lvg, <[vg_Name lvg := lvg]> m) ∅ lvgList.

(** The body of the loop of findNonexistentThinPools; a missing group reads as
    the zero value, which has no thin pools. *)
Definition has_thin_pool (lvgs : gmap string LVMVolumeGroup) (lscLvg : LocalStorageClassLVG)
    : bool :=
  match lvg_Thin lscLvg with
  | None => false
  | Some thin =>
      let pools := match lvgs !! lvg_Name lscLvg with
                   | Some lvg => vg_ThinPools (vg_Status lvg)
                   | None => []
                   end in
      existsb (λ tp, bool_decide (tp_Name tp = PoolName thin)) pools
  end.

(** findNonexistentThinPools *)
Definition findNonexistentThinPools (lvgList : list LVMVolumeGroup)
    (effectiveLVGs : list LocalStorageClassLVG) : list string :=
  let lvgs := lvgs_by_name lvgList in
  map lvg_Name (List.filter (λ l, negb (has_thin_pool lvgs l)) effectiveLVGs).

(** countLVGsMatchingSelector *)
Definition countLVGsMatchingSelector (lvgList : list LVMVolumeGroup)
    (labelSelector : LabelSelector) : nat :=
  match LabelSelectorAsSelector labelSelector with
  | inr _ => 0
  | inl selector =>
      length (List.filter (λ lvg, Matches selector (om_Labels (vg_meta lvg))) lvgList)
  end.

(** findNonexistentLVGs *)
Definition findNonexistentLVGs (lvgList : list LVMVolumeGroup)
    (effectiveLVGs : list LocalStorageClassLVG) : list string :=
  let lvgs : gset string := list_to_set (map vg_Name lvgList) in
  map lvg_Name (List.filter (λ l, negb (bool_decide (lvg_Name l ∈ lvgs))) effectiveLVGs).

(** [nodesWithLVGs[node] = append (nodesWithLVGs[node], lvgName)] for every node. *)
Definition add_nodes (nodesWithLVGs : gmap string (list string)) (lvg : LVMVolumeGroup)
    : gmap string (list string) :=
  foldl (λ m node, <[node := (default [] (m !! node) ++ [vg_Name lvg])%list]> m)
    nodesWithLVGs (vg_Nodes (vg_Status lvg)).

Definition nodes_with_lvgs (lvgList : list LVMVolumeGroup)
    (effectiveLVGs : list LocalStorageClassLVG) : gmap string (list string) :=
  let usedLVGs : gset string := list_to_set (map lvg_Name effectiveLVGs) in
  foldl (λ m lvg, if bool_decide (vg_Name lvg ∈ usedLVGs) then add_nodes m lvg else m)
    ∅ lvgList.

(** findLVMVolumeGroupsOnTheSameNode *)
Definition findLVMVolumeGroupsOnTheSameNode (lvgList : list LVMVolumeGroup)
    (effectiveLVGs : list LocalStorageClassLVG) : list string :=
  map (λ '(nodeName, lvgs),
        "|" ++ nodeName ++ ": " ++ String.concat "" (map (λ l, l ++ ",") lvgs))
    (List.filter (λ '(_, lvgs), (1 <? length lvgs)%nat)
       (range (nodes_with_lvgs lvgList effectiveLVGs))).

(** The verdict and the message built so far; every failure appends a line. *)
Definition verdict : Type := bool * string.

Definition fail (msg : string) (v : verdict) : verdict := (false, snd v ++ msg).

Definition fail_if (b : bool) (msg : string) (v : verdict) : verdict :=
  if b then fail msg v else v.

(** The body of the loop over the entries: the verdict and the two counters. *)
Definition validate_entry (lvgList : list LVMVolumeGroup) (lvmType : string) (i : nat)
    (entry : LocalStorageClassLVG) (v : verdict) : verdict :=
  let hasName := negb (bool_decide (lvg_Name entry = "")) in
  let hasSelector := bool_decide (is_Some (lvg_LabelSelector entry)) in
  let v :=
    if Bool.eqb hasName hasSelector
    then fail ("Each spec.lvm.lvmVolumeGroups entry must set exactly one of name or "
               ++ "labelSelector (entry #" ++ pretty i ++ ")" ++ newline) v
    else match lvg_LabelSelector entry with
         | Some ls =>
             match LabelSelectorAsSelector ls with
             | inr err =>
                 fail ("Invalid labelSelector in spec.lvm.lvmVolumeGroups entry #"
                       ++ pretty i ++ ": " ++ err ++ newline) v
             | inl _ =>
                 fail_if (bool_decide (countLVGsMatchingSelector lvgList ls = 0))
                   ("labelSelector in spec.lvm.lvmVolumeGroups entry #" ++ pretty i
                    ++ " matched no LVMVolumeGroups" ++ newline) v
             end
         | None => v
         end in
  if bool_decide (lvmType = LVMThinType)
  then fail_if match lvg_Thin entry with
               | None => true
               | Some thin => bool_decide (PoolName thin = "")
               end
         ("Field thin.poolName is required for spec.lvm.lvmVolumeGroups entry #" ++ pretty i
          ++ " when type is Thin" ++ newline) v
  else fail_if (bool_decide (is_Some (lvg_Thin entry)))
         ("Field thin must not be specified for spec.lvm.lvmVolumeGroups entry #" ++ pretty i
          ++ " when type is Thick" ++ newline) v.

Fixpoint validate_entries (lvgList : list LVMVolumeGroup) (lvmType : string) (i : nat)
    (entries : list LocalStorageClassLVG) (v : verdict) : verdict :=
  match entries with
  | [] => v
  | entry :: entries =>
      validate_entries lvgList lvmType (S i) entries
        (validate_entry lvgList lvmType i entry v)
  end.

(** validateLocalStorageClass *)
Definition validateLocalStorageClass (scList : list StorageClass) (lsc : LocalStorageClass)
    (lvgList : list LVMVolumeGroup) (effectiveLVGs : list LocalStorageClassLVG) : verdict :=
  let unmanagedScName := findUnmanagedDuplicatedSC scList lsc in
  let v := fail_if (negb (bool_decide (unmanagedScName = "")))
             ("There already is a storage class with the same name: " ++ unmanagedScName
              ++ " but it is not managed by the LocalStorageClass controller" ++ newline)
             (true, "") in
  match lsc_LVM (lsc_Spec lsc) with
  | None => fail ("Unable to identify a type of LocalStorageClass " ++ GetName lsc) v
  | Some lvm =>
      let entries := lvm_LVMVolumeGroups lvm in
      let v := fail_if (bool_decide (length entries = 0))
                 ("Field spec.lvm.lvmVolumeGroups must not be empty" ++ newline) v in
      let v := validate_entries lvgList (lvm_Type lvm) 0 entries v in
      let nameEntries :=
        length (List.filter (λ e, negb (bool_decide (lvg_Name e = ""))) entries) in
      let selectorEntries :=
        length (List.filter (λ e, bool_decide (is_Some (lvg_LabelSelector e))) entries) in
      let v := fail_if ((0 <? nameEntries)%nat && (0 <? selectorEntries)%nat)
                 ("spec.lvm.lvmVolumeGroups must use either name entries or labelSelector "
                  ++ "entries, not a mix" ++ newline) v in
      let LVGsFromTheSameNode := findLVMVolumeGroupsOnTheSameNode lvgList effectiveLVGs in
      let v := fail_if (negb (bool_decide (length LVGsFromTheSameNode = 0)))
                 ("Some LVMVolumeGroups use the same node (|node: LVG names): "
                  ++ strings_Join LVGsFromTheSameNode "" ++ newline) v in
      let nonexistentLVGs := findNonexistentLVGs lvgList effectiveLVGs in
      let v := fail_if (negb (bool_decide (length nonexistentLVGs = 0)))
                 ("Some of selected LVMVolumeGroups are nonexistent, LVG names: "
                  ++ strings_Join nonexistentLVGs "," ++ newline) v in
      if bool_decide (lvm_Type lvm = LVMThinType)
      then
        let bad := findNonexistentThinPools lvgList effectiveLVGs in
        fail_if (negb (bool_decide (length bad = 0)))
          ("Some LVMVolumeGroups use nonexistent thin pools, LVG names: "
           ++ strings_Join bad "," ++ newline) v
      else
        let bad := findAnyThinPool effectiveLVGs in
        fail_if (negb (bool_decide (length bad = 0)))
          ("Some LVMVolumeGroups use thin pools though device type is Thick, LVG names: "
           ++ strings_Join bad "," ++ newline) v
  end.

(** ** What the verdict means *)

Definition valid_entry (lvgList : list LVMVolumeGroup) (lvmType : string)
    (entry : LocalStorageClassLVG) : Prop :=
  match lvg_LabelSelector entry with
  | None => lvg_Name entry ≠ ""
  | Some ls =>
      lvg_Name entry = "" ∧
      ∃ selector lvg, LabelSelectorAsSelector ls = inl selector ∧ lvg ∈ lvgList ∧
        Matches selector (om_Labels (vg_meta lvg)) = true
  end ∧
  if decide (lvmType = LVMThinType)
  then ∃ thin, lvg_Thin entry = Some thin ∧ PoolName thin ≠ ""
  else lvg_Thin entry = None.

(** The groups a LocalStorageClass uses, and the nodes they are on, with
    repetitions. *)
Definition used_nodes (lvgList : list LVMVolumeGroup)
    (effectiveLVGs : list LocalStorageClassLVG) : list string :=
  concat (map (λ lvg, vg_Nodes (vg_Status lvg))
    (List.filter (λ lvg, bool_decide (vg_Name lvg ∈ map lvg_Name effectiveLVGs)) lvgList)).

Record valid_class (scList : list StorageClass) (lsc : LocalStorageClass)
    (lvgList : list LVMVolumeGroup) (effectiveLVGs : list LocalStorageClassLVG)
    (lvm : LocalStorageClassLVMSpec) : Prop := {
  vc_managed : ∀ sc, sc ∈ scList → GetName sc = GetName lsc → GetName lsc ≠ "" →
    sc_Provisioner sc = LocalStorageClassProvisioner;
  vc_nonempty : lvm_LVMVolumeGroups lvm ≠ [];
  vc_entries : ∀ e, e ∈ lvm_LVMVolumeGroups lvm → valid_entry lvgList (lvm_Type lvm) e;
  vc_homogeneous :
    (∀ e, e ∈ lvm_LVMVolumeGroups lvm → lvg_LabelSelector e = None) ∨
    (∀ e, e ∈ lvm_LVMVolumeGroups lvm → lvg_LabelSelector e ≠ None);
  vc_one_per_node : NoDup (used_nodes lvgList effectiveLVGs);
  vc_exist : ∀ l, l ∈ effectiveLVGs → lvg_Name l ∈ map vg_Name lvgList;
  vc_thin : ∀ l, l ∈ effectiveLVGs →
    if decide (lvm_Type lvm = LVMThinType)
    then has_thin_pool (lvgs_by_name lvgList) l = true
    else lvg_Thin l = None;
}.

Lemma fail_if_true b msg v : fst (fail_if b msg v) = true ↔ b = false ∧ fst v = true.
Proof. destruct b; simpl; split; try done; by intros [??]. Qed.

Lemma length_filter_zero {A} (f : A → bool) l :
  length (List.filter f l) = 0 ↔ ∀ x, x ∈ l → f x = false.
Proof.
  rewrite <-Forall_forall. induction l as [|x l IH]; simpl; [done|].
  rewrite Forall_cons, <-IH. destruct (f x); simpl; [by split; [|intros [? _]]|tauto].
Qed.

Lemma none_selected {A} (f : A → bool) (g : A → string) l :
  negb (bool_decide (length (map g (List.filter f l)) = 0)) = false ↔
  ∀ x, x ∈ l → f x = false.
Proof.
  rewrite negb_false_iff, bool_decide_eq_true, length_map. apply length_filter_zero.
Qed.

Lemma find_none {A} (f : A → bool) l : List.find f l = None ↔ ∀ x, x ∈ l → f x = false.
Proof.
  rewrite <-Forall_forall. induction l as [|x l IH]; simpl; [done|].
  rewrite Forall_cons, <-IH. destruct (f x); [by split; [|intros [? _]]|tauto].
Qed.

Lemma unmanaged_spec scList lsc :
  negb (bool_decide (findUnmanagedDuplicatedSC scList lsc = "")) = false ↔
  ∀ sc, sc ∈ scList → GetName sc = GetName lsc → GetName lsc ≠ "" →
    sc_Provisioner sc = LocalStorageClassProvisioner.
Proof.
  rewrite negb_false_iff, bool_decide_eq_true. unfold findUnmanagedDuplicatedSC.
  destruct (List.find _ scList) as [sc|] eqn:E.
  - apply find_some in E as [Hin E]. bool_simpl. split.
    + intros E1. congruence.
    + intros Hall. destruct (decide (GetName lsc = "")); [congruence|].
      apply list_elem_of_In in Hin. exfalso. eauto.
  - split; [|done]. intros _ sc Hsc Hn _. pose proof (proj1 (find_none _ _) E _ Hsc) as Hf.
    cbv beta in Hf. rewrite bool_decide_true in Hf by done. simpl in Hf. by bool_simpl.
Qed.

Lemma count_matching_spec lvgList ls :
  bool_decide (countLVGsMatchingSelector lvgList ls = 0) = false ↔
  ∃ selector lvg, LabelSelectorAsSelector ls = inl selector ∧ lvg ∈ lvgList ∧
    Matches selector (om_Labels (vg_meta lvg)) = true.
Proof.
  rewrite bool_decide_eq_false. unfold countLVGsMatchingSelector.
  destruct (LabelSelectorAsSelector ls) as [sel|err].
  - rewrite length_filter_zero. split.
    + intros Hn. destruct (List.find (λ lvg, Matches sel (om_Labels (vg_meta lvg))) lvgList)
        as [lvg|] eqn:E.
      * apply find_some in E as [Hin E]. apply list_elem_of_In in Hin. eauto.
      * exfalso. apply Hn. by apply find_none.
    + intros (? & lvg & [= <-] & Hin & Hm) Hall. specialize (Hall _ Hin). congruence.
  - split; [done|]. intros (? & ? & ? & _). done.
Qed.

Lemma validate_entry_spec lvgList lvmType i e v :
  fst (validate_entry lvgList lvmType i e v) = true ↔
  valid_entry lvgList lvmType e ∧ fst v = true.
Proof.
  unfold validate_entry, valid_entry. cbv zeta.
  set (thin := if decide _ then _ else _).
  set (v' := if Bool.eqb _ _ then _ else _).
  trans (thin ∧ fst v' = true).
  { subst thin. rewrite bool_decide_decide. destruct (decide (lvmType = LVMThinType)).
    - rewrite fail_if_true. destruct (lvg_Thin e) as [t|]; [|naive_solver].
      rewrite bool_decide_eq_false. naive_solver.
    - rewrite fail_if_true, bool_decide_eq_false. destruct (lvg_Thin e); naive_solver. }
  assert (fst v' = true ↔ (match lvg_LabelSelector e with
    | None => lvg_Name e ≠ ""
    | Some ls => lvg_Name e = "" ∧ ∃ selector lvg, LabelSelectorAsSelector ls = inl selector ∧
        lvg ∈ lvgList ∧ Matches selector (om_Labels (vg_meta lvg)) = true end) ∧ fst v = true)
    as ->; [|tauto].
  subst v'. destruct (lvg_LabelSelector e) as [ls|]; simpl;
    destruct (decide (lvg_Name e = "")) as [Hn|Hn];
    rewrite ?(bool_decide_true (lvg_Name e = "")), ?(bool_decide_false (lvg_Name e = ""))
      by done; simpl.
  - destruct (LabelSelectorAsSelector ls) as [sel|err] eqn:E.
    + rewrite fail_if_true, count_matching_spec, E. tauto.
    + simpl. split; [done|]. by intros [(_ & ? & ? & ? & _) _].
  - by split; [|intros [[? _] _]].
  - by split; [|intros [? _]].
  - tauto.
Qed.

Lemma validate_entries_spec lvgList lvmType i entries v :
  fst (validate_entries lvgList lvmType i entries v) = true ↔
  (∀ e, e ∈ entries → valid_entry lvgList lvmType e) ∧ fst v = true.
Proof.
  revert i v. induction entries as [|e entries IH]; intros i v; simpl; [set_solver|].
  rewrite IH, validate_entry_spec. set_solver.
Qed.

(** ** One group per node *)

Abbreviation occurrences := (count_occ String.string_dec).

Lemma add_nodes_length m lvg node :
  length (default [] (add_nodes m lvg !! node)) =
  length (default [] (m !! node)) + occurrences (vg_Nodes (vg_Status lvg)) node.
Proof.
  unfold add_nodes. generalize (vg_Nodes (vg_Status lvg)) as nodes. intros nodes.
  revert m. induction nodes as [|n nodes IH]; intros m; simpl; [lia|].
  rewrite IH. destruct (String.string_dec n node) as [->|Hn].
  - rewrite lookup_insert_eq. simpl. rewrite length_app. simpl. lia.
  - by rewrite lookup_insert_ne.
Qed.

Lemma nodes_with_lvgs_length lvgList effectiveLVGs node :
  length (default [] (nodes_with_lvgs lvgList effectiveLVGs !! node)) =
  occurrences (used_nodes lvgList effectiveLVGs) node.
Proof.
  unfold nodes_with_lvgs, used_nodes.
  trans (length (default [] ((∅ : gmap string (list string)) !! node)) +
         occurrences (concat (map (λ lvg, vg_Nodes (vg_Status lvg))
           (List.filter (λ lvg, bool_decide (vg_Name lvg ∈ map lvg_Name effectiveLVGs))
              lvgList))) node); [|done].
  generalize (∅ : gmap string (list string)) as m.
  induction lvgList as [|lvg lvgs IH]; intros m; simpl; [lia|]. rewrite IH.
  rewrite (bool_decide_ext (vg_Name lvg ∈ list_to_set (C:=gset string) _) _
             (elem_of_list_to_set _ _)).
  case_bool_decide; simpl; [|done].
  rewrite add_nodes_length, count_occ_app. lia.
Qed.

Lemma same_node_spec lvgList effectiveLVGs :
  negb (bool_decide (length (findLVMVolumeGroupsOnTheSameNode lvgList effectiveLVGs) = 0))
    = false ↔ NoDup (used_nodes lvgList effectiveLVGs).
Proof.
  rewrite negb_false_iff, bool_decide_eq_true. unfold findLVMVolumeGroupsOnTheSameNode.
  rewrite length_map, length_filter_zero, NoDup_ListNoDup, (NoDup_count_occ String.string_dec).
  split; intros Hall.
  - intros node. rewrite <-nodes_with_lvgs_length.
    destruct (nodes_with_lvgs _ _ !! node) as [l|] eqn:E; simpl; [|lia].
    specialize (Hall (node, l)). rewrite range_perm, elem_of_map_to_list in Hall.
    specialize (Hall E). by apply Nat.ltb_ge in Hall.
  - intros [node l]. rewrite range_perm, elem_of_map_to_list. intros E.
    apply Nat.ltb_ge. specialize (Hall node). rewrite <-nodes_with_lvgs_length, E in Hall. done.
Qed.

Lemma homogeneous_spec (entries : list LocalStorageClassLVG) :
  (∀ e, e ∈ entries → (lvg_Name e = "" ↔ lvg_LabelSelector e ≠ None)) →
  (0 <? length (List.filter (λ e, negb (bool_decide (lvg_Name e = ""))) entries))%nat
  && (0 <? length (List.filter (λ e, bool_decide (is_Some (lvg_LabelSelector e))) entries))%nat
    = false ↔
  (∀ e, e ∈ entries → lvg_LabelSelector e = None) ∨
  (∀ e, e ∈ entries → lvg_LabelSelector e ≠ None).
Proof.
  intros Hex. rewrite andb_false_iff, !Nat.ltb_ge, !Nat.le_0_r, !length_filter_zero.
  rewrite Logic.or_comm. f_equiv; (split; intros Hall e He; specialize (Hall e He)).
  - bool_simpl. apply eq_None_not_Some. done.
  - apply bool_decide_eq_false, eq_None_not_Some. done.
  - bool_simpl. by apply Hex.
  - apply negb_false_iff, bool_decide_eq_true. by apply Hex.
Qed.

Lemma validate_true scList lsc lvgList effectiveLVGs :
  fst (validateLocalStorageClass scList lsc lvgList effectiveLVGs) = true ↔
  ∃ lvm, lsc_LVM (lsc_Spec lsc) = Some lvm ∧
         valid_class scList lsc lvgList effectiveLVGs lvm.
Proof.
  unfold validateLocalStorageClass. cbv zeta.
  destruct (lsc_LVM (lsc_Spec lsc)) as [lvm|]; [|split; [done|by intros (? & ? & _)]].
  set (v := fail_if _ _ (validate_entries _ _ _ _ _)).
  trans (fst (fail_if (negb (bool_decide
    (length (findNonexistentLVGs lvgList effectiveLVGs) = 0))) "" (fail_if (negb (bool_decide
    (length (findLVMVolumeGroupsOnTheSameNode lvgList effectiveLVGs) = 0))) "" v)) = true ∧
    ∀ l, l ∈ effectiveLVGs →
      if decide (lvm_Type lvm = LVMThinType)
      then has_thin_pool (lvgs_by_name lvgList) l = true else lvg_Thin l = None).
  { rewrite bool_decide_decide. destruct (decide (lvm_Type lvm = LVMThinType));
      rewrite !fail_if_true; unfold findNonexistentThinPools, findAnyThinPool;
      rewrite none_selected.
    - setoid_rewrite negb_false_iff. tauto.
    - setoid_rewrite bool_decide_eq_false. setoid_rewrite <-eq_None_not_Some. tauto. }
  subst v. rewrite !fail_if_true, same_node_spec. unfold findNonexistentLVGs.
  rewrite none_selected, validate_entries_spec, !fail_if_true, unmanaged_spec.
  setoid_rewrite negb_false_iff. setoid_rewrite bool_decide_eq_true.
  setoid_rewrite elem_of_list_to_set. rewrite bool_decide_eq_false, length_zero_iff_nil.
  split.
  - intros [(Hexist & Hnode & Hmix & Hentries & Hne & Hmanaged & _) Hthin].
    exists lvm. split; [done|]. split; try done.
    apply homogeneous_spec; [|done]. intros e He. destruct (Hentries e He) as [Hs _].
    destruct (lvg_LabelSelector e); naive_solver.
  - intros (? & [= <-] & [Hmanaged Hne Hentries Hhom Hnode Hexist Hthin]).
    split_and!; try done. apply homogeneous_spec; [|done].
    intros e He. destruct (Hentries e He) as [Hs _]. destruct (lvg_LabelSelector e); naive_solver.
Qed.
(** C19: the verdict of validateLocalStorageClass is true exactly for the classes
    the controller can serve: every StorageClass of that name is this module's;
    the list of entries is not empty, each entry is either a name or a selector
    that is valid and matches some volume group, not a mix of both kinds, with a
    thin pool exactly when the type is Thin; no two of the effective volume
    groups sit on the same node; and every effective group exists, with the
    thin pool it names when the type is Thin. *)
Theorem validate_verdict scList lsc lvgList effectiveLVGs :
  fst (validateLocalStorageClass scList lsc lvgList effectiveLVGs) = true ↔
  ∃ lvm, lsc_LVM (lsc_Spec lsc) = Some lvm ∧
         valid_class scList lsc lvgList effectiveLVGs lvm.
Proof. apply validate_true. Qed.
End validate.
