(* ===== verification/LSCResolve.v ===== *)
(** * The effective volume groups of a LocalStorageClass

    What resolveEffectiveLVGs returns, and that it does not depend on the order
    in which the API server lists the volume groups. *)

From S2P Require Import Prelude Effects Kube LSC.

(** ** The order of names *)

Lemma ascii_compare_trans a b c o :
  Ascii.compare a b = o → Ascii.compare b c = o → Ascii.compare a c = o.
Proof.
  unfold Ascii.compare. destruct o; rewrite ?N.compare_eq_iff, ?N.compare_lt_iff,
    ?N.compare_gt_iff; lia.
Qed.

Lemma ascii_compare_eq a b : Ascii.compare a b = Eq → a = b.
Proof. apply Ascii.compare_eq_iff. Qed.

Lemma string_compare_trans_lt s t u :
  String.compare s t ≠ Gt → String.compare t u ≠ Gt → String.compare s u ≠ Gt.
Proof.
  revert t u. induction s as [|a s IH]; intros [|b t] [|c u]; simpl; try done.
  destruct (Ascii.compare a b) eqn:E1; destruct (Ascii.compare b c) eqn:E2; try done.
  - apply ascii_compare_eq in E1 as ->. rewrite E2. apply IH.
  - apply ascii_compare_eq in E1 as ->. by rewrite E2.
  - apply ascii_compare_eq in E2 as ->. by rewrite E1.
  - by rewrite (ascii_compare_trans a b c Lt).
Qed.

Lemma string_leb_compare s t : String.leb s t = true ↔ String.compare s t ≠ Gt.
Proof. unfold String.leb. by destruct (String.compare s t). Qed.

Lemma string_leb_antisym s t : String.leb s t = true → String.leb t s = true → s = t.
Proof.
  rewrite !string_leb_compare. rewrite (String.compare_antisym t s).
  destruct (String.compare s t) eqn:E; simpl; intros ??.
  - by apply String.compare_eq_iff.
  - done.
  - done.
Qed.

Lemma string_leb_total s t : String.leb s t = true ∨ String.leb t s = true.
Proof.
  rewrite !string_leb_compare, (String.compare_antisym s t).
  destruct (String.compare t s); simpl; [by right|by right|by left].
Qed.

Section resolve.
Context `{LabelSelectors, ApiMachinery}.

#[global] Instance by_name_total : Total by_name.
Proof. intros a b. apply string_leb_total. Qed.

#[global] Instance by_name_trans : Transitive by_name.
Proof.
  intros a b c. unfold by_name. rewrite !string_leb_compare. apply string_compare_trans_lt.
Qed.

(** ** The entries that select a group *)

(** The entry selects the group of this name, with this thin pool. *)
Definition selects (lvgList : list LVMVolumeGroup) (entry : LocalStorageClassLVG)
    (name : string) (thin : option LocalStorageClassLVMThinPoolSpec) : Prop :=
  thin = lvg_Thin entry ∧
  match lvg_LabelSelector entry with
  | None => name = lvg_Name entry
  | Some ls => ∃ selector lvg, LabelSelectorAsSelector ls = inl selector ∧ lvg ∈ lvgList ∧
      Matches selector (om_Labels (vg_meta lvg)) = true ∧ name = vg_Name lvg
  end.

Lemma sameThinPool_eq a b : sameThinPool a b = true ↔ a = b.
Proof.
  destruct a as [[a]|], b as [[b]|]; simpl; try done.
  rewrite bool_decide_eq_true. split; congruence.
Qed.

(** The two captured variables agree, and hold exactly the pairs of [P]. *)
Record resolves (P : string → option LocalStorageClassLVMThinPoolSpec → Prop)
    (s : resolving) : Prop := {
  rs_nodup : NoDup (map lvg_Name (rs_resolved s));
  rs_same : ∀ l, l ∈ rs_resolved s ↔
    lvg_LabelSelector l = None ∧ rs_seen s !! lvg_Name l = Some (lvg_Thin l);
  rs_exact : ∀ name thin, rs_seen s !! name = Some thin ↔ P name thin;
}.

Lemma resolves_empty : resolves (λ _ _, False) (mkResolving [] ∅).
Proof.
  split; simpl.
  - constructor.
  - intros l. rewrite lookup_empty, elem_of_nil. naive_solver.
  - intros name thin. by rewrite lookup_empty.
Qed.

Lemma resolves_ext P Q s :
  (∀ name thin, P name thin ↔ Q name thin) → resolves P s → resolves Q s.
Proof. intros HPQ [? ? He]. split; [done..|]. intros name thin. by rewrite He. Qed.

Lemma resolves_append P name thin collapse s s' :
  resolves P s → appendEntry name thin collapse s = inl s' →
  resolves (λ n t, P n t ∨ (n = name ∧ t = thin)) s'.
Proof.
  intros [Hnd Hs He]. unfold appendEntry. destruct (rs_seen s !! name) as [prev|] eqn:E.
  - destruct collapse; simpl; [|done]. destruct (sameThinPool prev thin) eqn:Ht; [|done].
    simpl. intros [= <-]. apply sameThinPool_eq in Ht as ->. split; [done..|].
    intros n t. rewrite He. split; [by left|]. intros [?|[-> ->]]; [done|]. by apply He.
  - intros [= <-]. split; simpl.
    + rewrite map_app. apply NoDup_app. split_and!; [done| |apply NoDup_singleton].
      simpl. intros n Hn. rewrite list_elem_of_singleton. intros ->.
      apply list_elem_of_fmap in Hn as (l & Hl & Hin). apply Hs in Hin as [_ Hin]. congruence.
    + intros l. rewrite elem_of_app, list_elem_of_singleton, Hs, lookup_insert_Some.
      destruct l as [ln ls lt]; simpl. split.
      * intros [[-> Hl]|[= -> -> ->]]; [|naive_solver]. split; [done|]. right.
        split; [|done]. congruence.
      * intros [-> [[-> ->]|[? ?]]]; [by right|by left].
    + intros n t. rewrite lookup_insert_Some, He. destruct (decide (n = name)) as [->|];
        [|naive_solver]. specialize (He name). rewrite E in He. naive_solver.
Qed.

Lemma resolves_matching P selector thin lvgList s s' :
  resolves P s → foldM (M := result string) (append_matching selector thin) s lvgList = inl s' →
  resolves (λ n t, P n t ∨ (t = thin ∧ ∃ lvg, lvg ∈ lvgList ∧
    Matches selector (om_Labels (vg_meta lvg)) = true ∧ n = vg_Name lvg)) s'.
Proof.
  revert P s. induction lvgList as [|lvg lvgs IH]; intros P s Hs; simpl.
  - intros [= <-]. eapply resolves_ext; [|done]. intros n t. set_solver.
  - unfold mbind, result_bind. destruct (append_matching selector thin s lvg) as [s1|] eqn:E; [|done].
    intros Hf. unfold append_matching in E.
    destruct (Matches selector (om_Labels (vg_meta lvg))) eqn:Hm; simpl in E.
    + eapply resolves_ext; [|eapply IH; [by eapply resolves_append|done]].
      intros n t. set_solver.
    + injection E as <-. eapply resolves_ext; [|by eapply IH]. intros n t.
      cbv beta. apply or_iff_compat_l. split.
      * intros [-> (x & Hx & ?)]. split; [done|]. exists x. split; [by right|done].
      * intros [-> (x & [->|Hx]%elem_of_cons & Hmx & Hn)]; [congruence|]. eauto.
Qed.

Lemma resolves_entry P lvgList entry s s' :
  resolves P s → resolve_entry lvgList s entry = inl s' →
  resolves (λ n t, P n t ∨ selects lvgList entry n t) s'.
Proof.
  intros Hs. unfold resolve_entry, selects.
  destruct (lvg_LabelSelector entry) as [ls|]; [|intros E; eapply resolves_ext;
    [|by eapply resolves_append]; naive_solver].
  destruct (LabelSelectorAsSelector ls) as [selector|err] eqn:Hls; [|done]. intros E.
  eapply resolves_ext; [|by eapply resolves_matching]. intros n t. naive_solver.
Qed.

Lemma resolves_entries P lvgList entries s s' :
  resolves P s → foldM (M := result string) (resolve_entry lvgList) s entries = inl s' →
  resolves (λ n t, P n t ∨ ∃ e, e ∈ entries ∧ selects lvgList e n t) s'.
Proof.
  revert P s. induction entries as [|e entries IH]; intros P s Hs; simpl.
  - intros [= <-]. eapply resolves_ext; [|done]. set_solver.
  - unfold mbind, result_bind. destruct (resolve_entry lvgList s e) as [s1|] eqn:E; [|done].
    intros Hf. eapply resolves_ext; [|eapply IH; [by eapply resolves_entry|done]].
    intros n t. set_solver.
Qed.

(** What a successful resolution gives its callers. *)
Record effective (lsc : LocalStorageClass) (lvgList : list LVMVolumeGroup)
    (l : list LocalStorageClassLVG) : Prop := {
  ef_sorted : StronglySorted by_name l;
  ef_nodup : NoDup (map lvg_Name l);
  ef_named : ∀ x, x ∈ l → lvg_LabelSelector x = None;
  ef_exact : ∀ name thin, mkLVG name None thin ∈ l ↔
    ∃ lvm e, lsc_LVM (lsc_Spec lsc) = Some lvm ∧ e ∈ lvm_LVMVolumeGroups lvm ∧
      selects lvgList e name thin;
}.

Lemma resolve_effective lsc lvgList l :
  resolveEffectiveLVGs lsc lvgList = inl l → effective lsc lvgList l.
Proof.
  unfold resolveEffectiveLVGs. destruct (lsc_LVM (lsc_Spec lsc)) as [lvm|] eqn:Hlvm.
  2:{ intros [= <-]. split; [constructor|constructor|set_solver|]. intros name thin.
      rewrite elem_of_nil. split; [done|]. intros (? & ? & ? & _). congruence. }
  destruct (foldM _ _ _) as [s|] eqn:E; [|done]. intros [= <-].
  destruct (resolves_entries _ _ _ _ _ resolves_empty E) as [Hnd Hs He].
  pose proof (merge_sort_Permutation by_name (rs_resolved s)) as Hp.
  split.
  - apply StronglySorted_merge_sort; apply _.
  - by rewrite Hp.
  - intros x. rewrite Hp, Hs. tauto.
  - intros name thin. rewrite Hp, Hs. simpl. rewrite He. rewrite Hlvm. naive_solver.
Qed.

(** ** Why a resolution fails *)

(** The entry [e] cannot be resolved after the entries [pre]: its name is
    already there, its selector is invalid, or it selects a group an earlier
    entry selects with another thin pool. *)
Definition blocks (lvgList : list LVMVolumeGroup) (pre : list LocalStorageClassLVG)
    (e : LocalStorageClassLVG) : Prop :=
  match lvg_LabelSelector e with
  | None => ∃ e' thin, e' ∈ pre ∧ selects lvgList e' (lvg_Name e) thin
  | Some ls =>
      (∃ err, LabelSelectorAsSelector ls = inr err) ∨
      ∃ name thin e', selects lvgList e name (lvg_Thin e) ∧ e' ∈ pre ∧
        selects lvgList e' name thin ∧ thin ≠ lvg_Thin e
  end.

Definition unresolvable (lsc : LocalStorageClass) (lvgList : list LVMVolumeGroup) : Prop :=
  ∃ lvm pre e post, lsc_LVM (lsc_Spec lsc) = Some lvm ∧
    lvm_LVMVolumeGroups lvm = pre ++ e :: post ∧ blocks lvgList pre e.

Definition selected_by (lvgList : list LVMVolumeGroup) (pre : list LocalStorageClassLVG)
    (name : string) (thin : option LocalStorageClassLVMThinPoolSpec) : Prop :=
  ∃ e, e ∈ pre ∧ selects lvgList e name thin.

Definition failed {E A} (r : result E A) : Prop := ∃ err, r = inr err.

Lemma append_collapse name thin s :
  match appendEntry name thin true s with
  | inr _ => ∃ prev, rs_seen s !! name = Some prev ∧ prev ≠ thin
  | inl s' => (∀ prev, rs_seen s !! name = Some prev → prev = thin) ∧
              rs_seen s' = <[name := thin]> (rs_seen s)
  end.
Proof.
  unfold appendEntry. destruct (rs_seen s !! name) as [prev|] eqn:E; simpl; [|done].
  destruct (sameThinPool prev thin) eqn:Ht; simpl.
  - apply sameThinPool_eq in Ht as ->. split; [congruence|]. by rewrite insert_id.
  - exists prev. split; [done|]. intros ->.
    rewrite (proj2 (sameThinPool_eq thin thin)) in Ht; done.
Qed.

Lemma matching_fails selector thin lvgList s :
  failed (foldM (M := result string) (append_matching selector thin) s lvgList) ↔
  ∃ lvg prev, lvg ∈ lvgList ∧ Matches selector (om_Labels (vg_meta lvg)) = true ∧
    rs_seen s !! vg_Name lvg = Some prev ∧ prev ≠ thin.
Proof.
  revert s. induction lvgList as [|lvg lvgs IH]; intros s; simpl.
  { split; [by intros [? ?]|]. by intros (? & ? & ?%elem_of_nil & _). }
  unfold mbind, result_bind, append_matching at 1.
  destruct (Matches selector (om_Labels (vg_meta lvg))) eqn:Hm; simpl.
  2:{ rewrite IH. split; intros (x & prev & Hx & Hmx & Hr); exists x, prev.
      - split; [by right|done].
      - apply elem_of_cons in Hx as [->|Hx]; [congruence|done]. }
  pose proof (append_collapse (vg_Name lvg) thin s) as Ha.
  destruct (appendEntry (vg_Name lvg) thin true s) as [s1|err].
  - destruct Ha as [Hsame Hseen]. rewrite IH, Hseen. split.
    + intros (x & prev & Hx & ? & Hp & ?).
      apply lookup_insert_Some in Hp as [[_ ->]|[_ ?]]; [done|].
      exists x, prev. split; [by right|done].
    + intros (x & prev & [->|Hx]%elem_of_cons & ? & Hp & Hne); [naive_solver|].
      exists x, prev. split_and!; [done..| |done].
      destruct (decide (vg_Name lvg = vg_Name x)) as [Heq|]; [|by rewrite lookup_insert_ne].
      rewrite <-Heq in Hp. naive_solver.
  - destruct Ha as (prev & ? & ?). split; [intros _|by eexists].
    exists lvg, prev. split; [by left|done].
Qed.

Lemma entry_fails lvgList pre e s :
  resolves (selected_by lvgList pre) s →
  failed (resolve_entry lvgList s e) ↔ blocks lvgList pre e.
Proof.
  intros [_ _ He]. unfold resolve_entry, blocks.
  destruct (lvg_LabelSelector e) as [ls|] eqn:Hls.
  - destruct (LabelSelectorAsSelector ls) as [selector|err] eqn:Hsel.
    + rewrite matching_fails. setoid_rewrite He. unfold selected_by, selects. rewrite Hls.
      split.
      * intros (lvg & prev & ? & ? & (e' & ? & ?) & ?). right.
        exists (vg_Name lvg), prev, e'. split; [split; [done|by exists selector, lvg]|done].
      * intros [[? ?]|(name & thin & e' & (_ & sel & lvg & Hs & ? & ? & ->) & ? & ? & ?)];
          [congruence|].
        exists lvg, thin. split_and!; [done|congruence|by exists e'|done].
    + split; [by left; eexists|by eexists].
  - unfold appendEntry. destruct (rs_seen s !! lvg_Name e) as [prev|] eqn:E; simpl.
    + split; [intros _|by eexists]. apply He in E as (e' & ? & ?). eauto.
    + split; [by intros [? ?]|]. intros (e' & thin & ? & ?).
      assert (rs_seen s !! lvg_Name e = Some thin) by (apply He; by exists e'). congruence.
Qed.

Lemma entries_fail lvgList done_ entries s :
  resolves (selected_by lvgList done_) s →
  failed (foldM (M := result string) (resolve_entry lvgList) s entries) ↔
  ∃ pre e post, entries = pre ++ e :: post ∧ blocks lvgList (done_ ++ pre) e.
Proof.
  revert done_ s. induction entries as [|e entries IH]; intros done_ s Hs; simpl.
  { split; [by intros [? ?]|]. intros ([|??] & ? & ? & ? & _); done. }
  pose proof (entry_fails _ _ e _ Hs) as Hf. unfold mbind, result_bind.
  destruct (resolve_entry lvgList s e) as [s1|err] eqn:E.
  - rewrite (IH (done_ ++ [e])).
    + setoid_rewrite <-app_assoc. simpl. split.
      * intros (pre & x & post & -> & ?). by exists (e :: pre), x, post.
      * intros ([|y pre] & x & post & [= -> ->] & Hb); [|by exists pre, x, post].
        rewrite app_nil_r in Hb. by apply Hf in Hb as [? ?].
    + eapply resolves_ext; [|by eapply resolves_entry]. intros n t. unfold selected_by.
      setoid_rewrite elem_of_app. setoid_rewrite list_elem_of_singleton. naive_solver.
  - split; [intros _|by eexists]. exists [], e, entries. rewrite app_nil_r. split; [done|].
    apply Hf. by eexists.
Qed.

Lemma resolve_spec_aux lsc lvgList :
  match resolveEffectiveLVGs lsc lvgList with
  | inl l => effective lsc lvgList l ∧ ¬ unresolvable lsc lvgList
  | inr _ => unresolvable lsc lvgList
  end.
Proof.
  assert (Hf : failed (resolveEffectiveLVGs lsc lvgList) ↔ unresolvable lsc lvgList).
  { unfold resolveEffectiveLVGs, unresolvable.
    destruct (lsc_LVM (lsc_Spec lsc)) as [lvm|].
    2:{ split; [by intros [? ?]|by intros (? & ? & ? & ? & ? & _)]. }
    trans (failed (foldM (M := result string) (resolve_entry lvgList) (mkResolving [] ∅)
      (lvm_LVMVolumeGroups lvm))).
    { destruct (foldM _ _ _); split; intros [? ?]; try done; by eexists. }
    rewrite (entries_fail _ []).
    - naive_solver.
    - eapply resolves_ext; [|apply resolves_empty]. intros n t. unfold selected_by.
      set_solver. }
  destruct (resolveEffectiveLVGs lsc lvgList) as [l|err] eqn:E.
  - split; [by apply resolve_effective|]. intros [? ?]%Hf. done.
  - apply Hf. by eexists.
Qed.

(** C18: resolveEffectiveLVGs fails exactly when an entry cannot be resolved
    after the ones before it: a name listed more than once or already
    selected, an invalid selector, or a group selected with two thin pools.
    Otherwise its result is sorted by name, names no group twice, holds no
    selector, and holds exactly the groups some entry selects, each with the
    thin pool of that entry. *)
Theorem resolve_spec lsc lvgList :
  match resolveEffectiveLVGs lsc lvgList with
  | inl l => effective lsc lvgList l ∧ ¬ unresolvable lsc lvgList
  | inr _ => unresolvable lsc lvgList
  end.
Proof. apply resolve_spec_aux. Qed.

(** ** The order of the list does not matter *)

Lemma selects_same_groups l l' e name thin :
  (∀ lvg, lvg ∈ l ↔ lvg ∈ l') → selects l e name thin → selects l' e name thin.
Proof.
  unfold selects. intros Hl. destruct (lvg_LabelSelector e); [|done].
  intros (? & sel & lvg & ? & ?%Hl & ?). eauto 10.
Qed.

Lemma unresolvable_same_groups lsc l l' :
  (∀ lvg, lvg ∈ l ↔ lvg ∈ l') → unresolvable lsc l → unresolvable lsc l'.
Proof.
  intros Hl (lvm & pre & e & post & ? & ? & Hb). exists lvm, pre, e, post. split_and!; try done.
  unfold blocks in *. destruct (lvg_LabelSelector e).
  - destruct Hb as [?|(n & t & e' & ? & ? & ? & ?)]; [by left|right].
    exists n, t, e'. split_and!; eauto using selects_same_groups.
  - destruct Hb as (e' & t & ? & ?). eauto using selects_same_groups.
Qed.

Lemma effective_unique lsc l l' r r' :
  (∀ lvg, lvg ∈ l ↔ lvg ∈ l') → effective lsc l r → effective lsc l' r' → r = r'.
Proof.
  intros Hl [Hs Hnd Hn He] [Hs' Hnd' Hn' He'].
  assert (Hin : ∀ x, x ∈ r ↔ x ∈ r').
  { intros [n [ls|] t]; [split; [intros H1%Hn|intros H1%Hn']; done|].
    rewrite He, He'. split; intros (lvm & e & ? & ? & ?); exists lvm, e; split_and!; try done;
      (eapply selects_same_groups; [|done]); done. }
  assert (Hp : r ≡ₚ r').
  { apply NoDup_Permutation; [by eapply NoDup_fmap_1|by eapply NoDup_fmap_1|done]. }
  eapply (StronglySorted_unique_strong by_name); [|done..].
  intros x y Hx Hy Hxy Hyx.
  assert (Hxy' : lvg_Name x = lvg_Name y) by by apply string_leb_antisym.
  apply Hin in Hx. by apply (NoDup_map_inj lvg_Name r').
Qed.

(** The order in which the API server lists the volume groups, and groups
    listed more than once, change neither whether the resolution succeeds nor
    its result. *)
Theorem resolve_order_independent lsc l l' (Hl : ∀ lvg, lvg ∈ l ↔ lvg ∈ l') :
  match resolveEffectiveLVGs lsc l, resolveEffectiveLVGs lsc l' with
  | inl r, inl r' => r = r'
  | inr _, inr _ => True
  | _, _ => False
  end.
Proof.
  pose proof (resolve_spec_aux lsc l) as H1. pose proof (resolve_spec_aux lsc l') as H2.
  destruct (resolveEffectiveLVGs lsc l) as [r|], (resolveEffectiveLVGs lsc l') as [r'|];
    try done.
  - eapply effective_unique; [done|apply H1|apply H2].
  - destruct H1 as [_ H1]. apply H1.
    apply (unresolvable_same_groups _ l'); [by intros lvg; symmetry|done].
  - destruct H2 as [_ H2]. apply H2. by apply (unresolvable_same_groups _ l).
Qed.
End resolve.
