(* ===== verification/LSCReconcile.v ===== *)
(** * The LocalStorageClass controller

    images/controller/pkg/controller/local_storage_class_watcher.go and the
    functions of local_storage_class_watcher_func.go that talk to the API
    server.  An error is its text, the only thing the callers use of it; where a
    caller tests the API status the error is still the API's.  The object Go
    passes by pointer and updates in place is returned next to the result.
    Log lines are left out. *)

From S2P Require Import Prelude Effects Kube Monitoring Manager LSC LSCValidate.

Local Open Scope string_scope.

(** [SdsLocalVolumeConfig]: sigs.k8s.io/yaml on the controller's config. *)
Class ConfigYaml := {
  UnmarshalConfig : string → result string (list string);
}.

Section controller.
Context `{LabelSelectors, ApiMachinery, MapRange, RetryOnError, Conditions, !YamlLVGs,
          ConfigYaml}.

(** ** Effects *)

(** The Go types removeControllerFinalizers is called with. *)
Inductive lkind := KLSC | KSC.

Definition lobj (k : lkind) : Type :=
  match k with KLSC => LocalStorageClass | KSC => StorageClass end.

#[global] Instance lobj_object k : Object (lobj k) :=
  match k with KLSC => lsc_object | KSC => sc_object end.

Inductive lsc_op :=
| GetObj (k : lkind) (namespace name : string)
| UpdateObj (k : lkind) (o : lobj k)
| ListSC
| ListLVG
| ListLSC
| CreateSC (sc : StorageClass)
| DeleteSC (sc : StorageClass)
| GetSecret (namespace name : string)
| UpdateStatus (lsc : LocalStorageClass) (cond : Condition) (phase reason : string)
| LNow
| LMetric (m : metric_op).

(** An update and a creation answer with the object the server stored. *)
Definition lsc_res (o : lsc_op) : Type :=
  match o with
  | GetObj k _ _ => lobj k + api_error
  | UpdateObj k _ => lobj k + api_error
  | ListSC => list StorageClass + api_error
  | ListLVG => list LVMVolumeGroup + api_error
  | ListLSC => list LocalStorageClass + api_error
  | CreateSC _ => StorageClass + api_error
  | DeleteSC _ => option api_error
  | GetSecret _ _ => strmap + api_error
  | UpdateStatus _ _ _ _ => option api_error
  | LNow => Z
  | LMetric _ => unit
  end.

Definition lscSig : sig := Sig lsc_op lsc_res.

Definition lsc_call (o : lsc_op) : prog lscSig (lsc_res o) := call (S := lscSig) o.

Fixpoint lsc_emit (ops : list metric_op) : prog lscSig unit :=
  match ops with
  | [] => mret tt
  | m :: ops => _ ← lsc_call (LMetric m); lsc_emit ops
  end.

(** ** Finalizers *)

Definition localStorageClassFinalizers : list string :=
  [LocalStorageClassFinalizerName; LocalStorageClassFinalizerNameOld].

(** The closure removeControllerFinalizers retries: whether a finalizer was
    there, and the caller's object. *)
Definition removeControllerFinalizers_once (k : lkind) (obj : lobj k)
    : prog lscSig (bool * lobj k + api_error) :=
  got ← lsc_call (GetObj k (om_Namespace (meta_of obj)) (GetName obj));
  match got with
  | inr err => if IsNotFound err then mret (inl (false, obj)) else mret (inr err)
  | inl fresh =>
      let kept := List.filter (λ f, negb (contains localStorageClassFinalizers f))
                    (GetFinalizers fresh) in
      let removed := existsb (contains localStorageClassFinalizers) (GetFinalizers fresh) in
      if negb removed then mret (inl (false, obj))
      else
        updated ← lsc_call (UpdateObj k (with_meta (SetFinalizers kept) fresh));
        match updated with
        | inr err => mret (inr err)
        | inl fresh =>
            mret (inl (true, with_meta (λ m, SetResourceVersion
                               (om_ResourceVersion (meta_of fresh)) (SetFinalizers kept m)) obj))
        end
  end.

(** removeControllerFinalizers; RetryOnConflict is OnError on conflicts. *)
Definition removeControllerFinalizers (k : lkind) (obj : lobj k)
    : prog lscSig (bool * lobj k + api_error) :=
  OnError IsConflict (removeControllerFinalizers_once k obj).

(** The closure ensureFinalizer retries. *)
Definition ensureFinalizer_once (lsc : LocalStorageClass)
    : prog lscSig (LocalStorageClass + api_error) :=
  got ← lsc_call (GetObj KLSC (om_Namespace (lsc_meta lsc)) (GetName lsc));
  match got with
  | inr err => mret (inr err)
  | inl fresh =>
      let fresh : LocalStorageClass := fresh in
      if bool_decide (is_Some (om_DeletionTimestamp (lsc_meta fresh)))
         || contains (GetFinalizers fresh) LocalStorageClassFinalizerName
      then mret (inl lsc)
      else
        updated ← lsc_call (UpdateObj KLSC (with_meta (SetFinalizers
                    (GetFinalizers fresh ++ [LocalStorageClassFinalizerName])%list) fresh));
        match updated with
        | inr err => mret (inr err)
        | inl fresh =>
            let fresh : LocalStorageClass := fresh in
            mret (inl (with_meta (λ m, SetResourceVersion
                         (om_ResourceVersion (lsc_meta fresh))
                         (SetFinalizers (GetFinalizers fresh) m)) lsc))
        end
  end.

(** ensureFinalizer *)
Definition ensureFinalizer (lsc : LocalStorageClass)
    : prog lscSig (LocalStorageClass * option api_error) :=
  if bool_decide (is_Some (om_DeletionTimestamp (lsc_meta lsc)))
     || contains (GetFinalizers lsc) LocalStorageClassFinalizerName
  then mret (lsc, None)
  else
    r ← OnError IsConflict (ensureFinalizer_once lsc);
    match r with
    | inl lsc => mret (lsc, None)
    | inr err => mret (lsc, Some err)
    end.

(** addFinalizerIfNotExistsForSC *)
Definition addFinalizerIfNotExistsForSC (sc : StorageClass)
    : prog lscSig (bool + api_error) :=
  if contains (GetFinalizers sc) LocalStorageClassFinalizerName then mret (inl false)
  else
    updated ← lsc_call (UpdateObj KSC (with_meta (SetFinalizers
                (GetFinalizers sc ++ [LocalStorageClassFinalizerName])%list) sc));
    match updated with
    | inr err => mret (inr err)
    | inl _ => mret (inl true)
    end.

(** ** The status *)

(** The closure [apply] of publishLocalStorageClassStatus. *)
Definition apply_status (cond : Condition) (phase reason : string) (lsc : LocalStorageClass)
    : LocalStorageClass :=
  let st := default (mkLSCStatus "" "" 0 []) (lsc_Status lsc) in
  let conds := SetCondition (lsc_Conditions st) cond in
  mkLSC (lsc_meta lsc) (lsc_Spec lsc)
    (Some (if bool_decide (phase = "")
           then mkLSCStatus (lsc_Phase st) (lsc_Reason st) (c_ObservedGeneration cond) conds
           else mkLSCStatus phase reason (c_ObservedGeneration cond) conds)).

(** publishLocalStorageClassStatus *)
Definition publishLocalStorageClassStatus (lsc : LocalStorageClass) (cond : Condition)
    (phase reason : string) : prog lscSig (LocalStorageClass * option api_error) :=
  let cond := mkCondition (c_Type cond) (c_Status cond) (c_Reason cond)
                (TruncateMessage (c_Message cond)) (c_ObservedGeneration cond) in
  err ← lsc_call (UpdateStatus lsc cond phase reason);
  match err with
  | Some err => mret (lsc, Some err)
  | None => mret (apply_status cond phase reason lsc, None)
  end.

(** The condition updateLocalStorageClassPhase publishes. *)
Definition phase_condition (lsc : LocalStorageClass) (phase reason : string) : Condition :=
  let created := bool_decide (phase = CreatedStatusPhase) in
  mkCondition ConditionTypeReady
    (if created then ConditionTrue else ConditionFalse)
    (if created then ReasonReconciled else ReasonReconcileFailed)
    (if bool_decide (reason = "")
     then "the LocalStorageClass is in the " ++ phase ++ " phase" else reason)
    (om_Generation (lsc_meta lsc)).

(** updateLocalStorageClassPhase *)
Definition updateLocalStorageClassPhase (lsc : LocalStorageClass) (phase reason : string)
    : prog lscSig (LocalStorageClass * option api_error) :=
  r ← ensureFinalizer lsc;
  let '(lsc, err) := r in
  match err with
  | Some err => mret (lsc, Some err)
  | None => publishLocalStorageClassStatus lsc (phase_condition lsc phase reason) phase reason
  end.

(** setLocalStorageClassDeleting *)
Definition setLocalStorageClassDeleting (lsc : LocalStorageClass)
    : prog lscSig (LocalStorageClass * option api_error) :=
  publishLocalStorageClassStatus lsc
    (mkCondition ConditionTypeReady ConditionFalse ReasonDeleting
       "the LocalStorageClass is being deleted" (om_Generation (lsc_meta lsc))) "" "".

(** ** The StorageClass *)

(** createStorageClassIfNotExists: whether it was created, and the object the
    server stored. *)
Definition createStorageClassIfNotExists (scList : list StorageClass) (sc : StorageClass)
    : prog lscSig (bool * StorageClass + api_error) :=
  match find_sc scList (GetName sc) with
  | Some _ => mret (inl (false, sc))
  | None =>
      created ← lsc_call (CreateSC sc);
      match created with
      | inr err => mret (inr err)
      | inl sc => mret (inl (true, sc))
      end
  end.

(** deleteStorageClass *)
Definition deleteStorageClass (sc : StorageClass) : prog lscSig (option string) :=
  if negb (bool_decide (sc_Provisioner sc = LocalStorageClassProvisioner))
  then mret (Some ("a storage class " ++ GetName sc ++ " does not belong to "
                   ++ LocalStorageClassProvisioner ++ " provisioner"))
  else
    r ← removeControllerFinalizers KSC sc;
    match r with
    | inr err => mret (Some (error_text err))
    | inl (_, sc) =>
        err ← lsc_call (DeleteSC sc);
        mret (error_text <$> err)
    end.

(** recreateStorageClass *)
Definition recreateStorageClass (oldSC newSC : StorageClass) : prog lscSig (option string) :=
  err ← deleteStorageClass oldSC;
  match err with
  | Some err => mret (Some ("[recreateStorageClass] unable to delete a storage class "
                            ++ GetName oldSC ++ ": " ++ err))
  | None =>
      created ← lsc_call (CreateSC newSC);
      match created with
      | inr err => mret (Some ("[recreateStorageClass] unable to create a storage class "
                               ++ GetName newSC ++ ": " ++ error_text err))
      | inl _ => mret None
      end
  end.

(** ** The three reconciles *)

(** Whether to requeue, the error, and the LocalStorageClass as it was left. *)
Definition outcome : Type := bool * option string * LocalStorageClass.

(** Publish a failed phase on the way out; a failure to publish is logged. *)
Definition fail_phase (lsc : LocalStorageClass) (reason : string) (requeue : bool)
    (err : string) : prog lscSig outcome :=
  r ← updateLocalStorageClassPhase lsc FailedStatusPhase reason;
  mret (requeue, Some err, fst r).

(** The same, where a failure to publish is what is returned. *)
Definition fail_phase_or_publish (lsc : LocalStorageClass) (requeue : bool) (err : string)
    : prog lscSig outcome :=
  r ← updateLocalStorageClassPhase lsc FailedStatusPhase err;
  match snd r with
  | Some upErr => mret (true, Some (error_text upErr), fst r)
  | None => mret (requeue, Some err, fst r)
  end.

(** Publish the created phase, the end of a successful pass. *)
Definition succeed (lsc : LocalStorageClass) : prog lscSig outcome :=
  r ← updateLocalStorageClassPhase lsc CreatedStatusPhase "";
  match snd r with
  | Some err => mret (true, Some (error_text err), fst r)
  | None => mret (false, None, fst r)
  end.

(** The part of reconcileLSCDeleteFunc that lets the LocalStorageClass go. *)
Definition release_lsc (lsc : LocalStorageClass) : prog lscSig outcome :=
  r ← removeControllerFinalizers KLSC lsc;
  match r with
  | inr err => fail_phase lsc ("Unable to remove a finalizer, err: " ++ error_text err) true
                 (error_text err)
  | inl (_, lsc) =>
      d ← setLocalStorageClassDeleting lsc;
      mret (false, None, fst d)
  end.

(** reconcileLSCDeleteFunc *)
Definition reconcileLSCDeleteFunc (scList : list StorageClass) (lsc : LocalStorageClass)
    : prog lscSig outcome :=
  match find_sc scList (GetName lsc) with
  | Some sc =>
      if bool_decide (sc_Provisioner sc = LocalStorageClassProvisioner)
      then
        err ← deleteStorageClass sc;
        match err with
        | Some err => fail_phase lsc ("Unable to delete a storage class, err: " ++ err) true err
        | None => release_lsc lsc
        end
      else release_lsc lsc
  | None => release_lsc lsc
  end.

(** reconcileLSCUpdateFunc; [None] is the panic of hasSCDiff. *)
Definition reconcileLSCUpdateFunc (scList : list StorageClass) (lsc : LocalStorageClass)
    (lvgList : list LVMVolumeGroup) (effectiveLVGs : list LocalStorageClassLVG)
    (ignoredLabelPrefixes : list string) : prog lscSig (option outcome) :=
  let '(valid, msg) := validateLocalStorageClass scList lsc lvgList effectiveLVGs in
  if negb valid
  then Some <$> fail_phase lsc msg true ("validation failed: " ++ msg)
  else
    match find_sc scList (GetName lsc) with
    | None =>
        let err := "a storage class " ++ GetName lsc ++ " does not exist" in
        Some <$> fail_phase lsc err true err
    | Some oldSC =>
        match hasSCDiff oldSC lsc effectiveLVGs ignoredLabelPrefixes with
        | None => mret None
        | Some (inr err) => Some <$> fail_phase lsc err true err
        | Some (inl false) => Some <$> succeed lsc
        | Some (inl true) =>
            match updateStorageClass lsc oldSC effectiveLVGs ignoredLabelPrefixes with
            | inr err => Some <$> fail_phase_or_publish lsc false err
            | inl newSC =>
                err ← recreateStorageClass oldSC newSC;
                match err with
                | Some err => Some <$> fail_phase lsc err true err
                | None => Some <$> succeed lsc
                end
            end
        end
    end.

(** The part of reconcileLSCCreateFunc after a successful validation. *)
Definition create_valid (scList : list StorageClass) (lsc : LocalStorageClass)
    (effectiveLVGs : list LocalStorageClassLVG) (ignoredLabelPrefixes : list string)
    : prog lscSig outcome :=
  match configureStorageClass lsc effectiveLVGs ignoredLabelPrefixes with
  | inr err => fail_phase_or_publish lsc false err
  | inl sc =>
      created ← createStorageClassIfNotExists scList sc;
      match created with
      | inr err => fail_phase_or_publish lsc true (error_text err)
      | inl (false, _) => mret (true, None, lsc)
      | inl (true, sc) =>
          added ← addFinalizerIfNotExistsForSC sc;
          match added with
          | inr err => mret (true, Some (error_text err), lsc)
          | inl _ => succeed lsc
          end
      end
  end.

(** reconcileLSCCreateFunc *)
Definition reconcileLSCCreateFunc (scList : list StorageClass) (lsc : LocalStorageClass)
    (lvgList : list LVMVolumeGroup) (effectiveLVGs : list LocalStorageClassLVG)
    (ignoredLabelPrefixes : list string) : prog lscSig outcome :=
  r ← ensureFinalizer lsc;
  let '(lsc, err) := r in
  match err with
  | Some err => mret (true, Some (error_text err), lsc)
  | None =>
      let '(valid, msg) := validateLocalStorageClass scList lsc lvgList effectiveLVGs in
      if negb valid
      then fail_phase lsc msg true ("validation failed: " ++ msg)
      else create_valid scList lsc effectiveLVGs ignoredLabelPrefixes
  end.

(** An error of RunEventReconcile, joined with a failure to publish it. *)
Definition run_failed (lsc : LocalStorageClass) (err : string) : prog lscSig outcome :=
  r ← updateLocalStorageClassPhase lsc FailedStatusPhase err;
  match snd r with
  | Some upErr =>
      mret (true, Some (err ++ newline
        ++ "[runEventReconcile] unable to update the LocalStorageClass "
        ++ GetName lsc ++ " status: " ++ error_text upErr), fst r)
  | None => mret (true, Some err, fst r)
  end.

(** RunEventReconcile after the volume groups were listed. *)
Definition dispatch (scList : list StorageClass) (lsc : LocalStorageClass)
    (lvgList : list LVMVolumeGroup) (ignoredLabelPrefixes : list string)
    : prog lscSig (option outcome) :=
  let resolved := resolveEffectiveLVGs lsc lvgList in
  let deleting := bool_decide (is_Some (om_DeletionTimestamp (lsc_meta lsc))) in
  match resolved, deleting with
  | inr err, false => Some <$> run_failed lsc err
  | _, _ =>
      let effectiveLVGs := match resolved with inl l => l | inr _ => [] end in
      match identifyReconcileFunc scList lsc effectiveLVGs ignoredLabelPrefixes with
      | None => mret None
      | Some (inr err) => Some <$> run_failed lsc err
      | Some (inl CreateReconcile) =>
          Some <$> reconcileLSCCreateFunc scList lsc lvgList effectiveLVGs ignoredLabelPrefixes
      | Some (inl UpdateReconcile) =>
          reconcileLSCUpdateFunc scList lsc lvgList effectiveLVGs ignoredLabelPrefixes
      | Some (inl DeleteReconcile) => Some <$> reconcileLSCDeleteFunc scList lsc
      | Some (inl NoneReconcile) => mret (Some (false, None, lsc))
      end
  end.

(** RunEventReconcile *)
Definition RunEventReconcile (scList : list StorageClass) (lsc : LocalStorageClass)
    (ignoredLabelPrefixes : list string) : prog lscSig (option outcome) :=
  if bool_decide (is_Some (om_DeletionTimestamp (lsc_meta lsc)))
  then dispatch scList lsc [] ignoredLabelPrefixes
  else
    lvgList ← lsc_call ListLVG;
    match lvgList with
    | inr err => Some <$> run_failed lsc (error_text err)
    | inl lvgList => dispatch scList lsc lvgList ignoredLabelPrefixes
    end.

(** ** The reconciler *)

(** getStorageClassLabelIgnoredPrefixes *)
Definition getStorageClassLabelIgnoredPrefixes (namespace name : string)
    : prog lscSig (result string (list string)) :=
  if bool_decide (namespace = "") || bool_decide (name = "") then mret (inl [])
  else
    secret ← lsc_call (GetSecret namespace name);
    match secret with
    | inr err => if IsNotFound err then mret (inl []) else mret (inr (error_text err))
    | inl data =>
        match data !! "config" with
        | None => mret (inl [])
        | Some raw =>
            if bool_decide (raw = "") then mret (inl [])
            else match UnmarshalConfig raw with
                 | inr err => mret (inr ("unable to parse config from secret " ++ namespace
                                         ++ "/" ++ name ++ ": " ++ err))
                 | inl prefixes => mret (inl prefixes)
                 end
        end
    end.

(** The options of the controller the reconciler reads. *)
Record Options := mkOptions {
  cfg_ControllerNamespace : string;
  cfg_ConfigSecretName : string;
  cfg_RequeueStorageClassInterval : Z;
}.

Definition requeue_after (cfg : Options) : Result :=
  mkResult false (i64 (cfg_RequeueStorageClassInterval cfg * Second)).

(** Whether the Ready condition of the object is True. *)
Definition is_ready (lsc : LocalStorageClass) : bool :=
  match lsc_Status lsc with
  | Some st => IsTrue (lsc_Conditions st) ConditionTypeReady
  | None => false
  end.

(** The part of the reconciler that runs once the object is known to exist. *)
Definition reconcile_existing (cfg : Options) (metrics : Recorder) (lsc : LocalStorageClass)
    : prog lscSig (option (Result * option string)) :=
  scList ← lsc_call ListSC;
  match scList with
  | inr err => mret (Some (mkResult false 0, Some (error_text err)))
  | inl scList =>
      prefixes ← getStorageClassLabelIgnoredPrefixes (cfg_ControllerNamespace cfg)
                   (cfg_ConfigSecretName cfg);
      match prefixes with
      | inr _ => mret (Some (requeue_after cfg, None))
      | inl ignoredLabelPrefixes =>
          ran ← RunEventReconcile scList lsc ignoredLabelPrefixes;
          match ran with
          | None => mret None
          | Some (shouldRequeue, _, lsc) =>
              let phase := match lsc_Status lsc with Some st => lsc_Phase st | None => "" end in
              _ ← (if bool_decide (phase = "") then mret tt
                   else lsc_emit (SetLocalStorageClassPhase metrics (GetName lsc) phase));
              _ ← lsc_emit (SetLocalStorageClassReady metrics (GetName lsc) (is_ready lsc));
              mret (Some (if shouldRequeue : bool then requeue_after cfg else mkResult false 0,
                          None))
          end
      end
  end.

(** The reconciler of RunLocalStorageClassWatcherController, without the
    deferred observation of its outcome. *)
Definition reconcile_lsc (cfg : Options) (metrics : Recorder) (namespace name : string)
    : prog lscSig (option (Result * option string)) :=
  got ← lsc_call (GetObj KLSC namespace name);
  match got with
  | inr err =>
      if negb (IsNotFound err) then mret (Some (mkResult false 0, Some (error_text err)))
      else _ ← lsc_emit (ForgetLocalStorageClass metrics name);
           mret (Some (mkResult false 0, None))
  | inl lsc =>
      let lsc : LocalStorageClass := lsc in
      if bool_decide (GetName lsc = "")
      then _ ← lsc_emit (ForgetLocalStorageClass metrics name);
           mret (Some (mkResult false 0, None))
      else reconcile_existing cfg metrics lsc
  end.

(** The reconciler with its deferred call. *)
Definition Reconcile (cfg : Options) (metrics : Recorder) (namespace name : string)
    : prog lscSig (option (Result * option string)) :=
  start ← lsc_call LNow;
  out ← reconcile_lsc cfg metrics namespace name;
  let '(res, err) := default (mkResult false 0, None) out in
  now ← lsc_call LNow;
  _ ← lsc_emit (ObserveReconcile metrics LocalStorageClassCtrlName (time_Sub now start)
                  res err);
  mret out.

(** ** Events *)

Definition request_of (lsc : LocalStorageClass) : request :=
  (om_Namespace (lsc_meta lsc), GetName lsc).

(** The UpdateFunc of localStorageClassEventHandler *)
Definition enqueue_update (oldLsc newLsc : LocalStorageClass) : list request :=
  if bool_decide (lsc_Spec oldLsc = lsc_Spec newLsc)
     && bool_decide (om_Labels (lsc_meta oldLsc) = om_Labels (lsc_meta newLsc))
     && negb (bool_decide (is_Some (om_DeletionTimestamp (lsc_meta newLsc))))
  then []
  else [request_of newLsc].

(** localStorageClassEventHandler; a deletion is delivered so that the series
    of the class are dropped, and there is no GenericFunc. *)
Definition localStorageClassEventHandler (e : watch_event LocalStorageClass) : list request :=
  match e with
  | CreateEvent lsc => [request_of lsc]
  | UpdateEvent oldLsc newLsc => enqueue_update oldLsc newLsc
  | DeleteEvent lsc => [request_of lsc]
  | GenericEvent _ => []
  end.

(** The map function of the Secret watch; a failed list enqueues nothing. *)
Definition secret_requests (cfg : Options) (namespace name : string)
    : prog lscSig (list request) :=
  if negb (bool_decide (namespace = cfg_ControllerNamespace cfg))
     || negb (bool_decide (name = cfg_ConfigSecretName cfg))
  then mret []
  else
    l ← lsc_call ListLSC;
    match l with
    | inr _ => mret []
    | inl lscs => mret (map request_of lscs)
    end.

(** The map function of the LVMVolumeGroup watch. *)
Definition lvg_requests : prog lscSig (list request) :=
  l ← lsc_call ListLSC;
  match l with
  | inr _ => mret []
  | inl lscs => mret (map request_of (List.filter lscUsesLabelSelector lscs))
  end.

(** The UpdateFunc predicate of the LVMVolumeGroup watch. *)
Definition lvg_update_passes (old new : LVMVolumeGroup) : bool :=
  negb (bool_decide (om_Labels (vg_meta old) = om_Labels (vg_meta new))).

(** The predicates of the LVMVolumeGroup watch. *)
Definition lvg_predicates : TypedFuncs LVMVolumeGroup :=
  mkFuncs (λ _, true) (λ _, true) (λ _, false) lvg_update_passes.
End controller.

Definition RunLocalStorageClassWatcherController : prog setupSig (unit + string) :=
  set_up (NewController LocalStorageClassCtrlName) (
  set_up (Watch WatchLSC) (
  set_up (Watch WatchSecret) (
  set_up (Watch WatchLVG) (
  mret (inl tt))))).
