(* ===== verification/LSCConverge.v ===== *)
(** * The LocalStorageClass controller reaches a fixed point

    A pass that succeeds leaves a LocalStorageClass for which the next pass has
    nothing to do: the StorageClass it wrote is the one hasSCDiff accepts, and
    the status it published is the one shouldReconcileByUpdateFunc asks for. *)

From S2P Require Import Prelude Effects Kube Monitoring LSC LSCValidate LSCResolve.
From S2P Require Import LSCReconcile.

Local Open Scope string_scope.

Section diff.
Context `{LabelSelectors, ApiMachinery, !YamlLVGs}.

(** ** hasSCDiff on the StorageClass configureStorageClass builds *)

Lemma effective_by_name_lookup eff (m : gmap string (option LocalStorageClassLVMThinPoolSpec)) l :
  NoDup (map lvg_Name eff) → l ∈ eff →
  foldl (λ m lvg, <[lvg_Name lvg := lvg_Thin lvg]> m) m eff !! lvg_Name l = Some (lvg_Thin l).
Proof.
  revert m. induction eff as [|x eff IH]; intros m; simpl; [by intros _ ?%elem_of_nil|].
  intros [Hx Hnd]%NoDup_cons [->|Hl]%elem_of_cons; [|by apply IH].
  clear IH Hnd. revert m. induction eff as [|y eff IH]; intros m; simpl.
  - apply lookup_insert_eq.
  - apply not_elem_of_cons in Hx as [Hne Hx]. rewrite insert_insert_ne by done. by apply IH.
Qed.

(** A list does not differ from the effective groups it is part of. *)
Lemma lvgs_differ_part name ty eff cur :
  NoDup (map lvg_Name eff) →
  (∀ l, l ∈ cur → l ∈ eff ∧ (ty = LVMThinType → lvg_Thin l ≠ None)) →
  lvgs_differ name ty (effective_by_name eff) cur = inl false.
Proof.
  intros Hnd. induction cur as [|l cur IH]; intros Hcur; simpl; [done|].
  destruct (Hcur l) as [Hl Hthin]; [by left|].
  unfold effective_by_name. rewrite effective_by_name_lookup by done.
  assert (Hrest : lvgs_differ name ty (effective_by_name eff) cur = inl false).
  { apply IH. intros x Hx. apply Hcur. by right. }
  unfold effective_by_name in Hrest. case_bool_decide; [|done].
  destruct (lvg_Thin l) as [thin|]; [|by destruct Hthin]. by rewrite bool_decide_true.
Qed.

Lemma labels_configured (lsc : LocalStorageClass) eff ignored sc :
  configureStorageClass lsc eff ignored = inl sc →
  labelsMatchLSC (om_Labels (sc_meta sc)) (om_Labels (lsc_meta lsc)) ignored = true.
Proof.
  unfold configureStorageClass, labelsMatchLSC.
  destruct (lsc_LVM (lsc_Spec lsc)); [|done]. destruct (yaml_Marshal eff); [|done].
  intros [= <-]. simpl. apply bool_decide_eq_true. f_equal.
  destruct (filterLabelsForStorageClass _ _) as [fl|]; simpl; [|done].
  case_bool_decide; [|done]. by subst fl.
Qed.

Lemma params_configured lsc lvm param :
  map_get (Some (storage_class_params lsc lvm param)) LVMVolumeGroupsParamKey = param ∧
  map_get (Some (storage_class_params lsc lvm param)) LVMVolumeCleanupParamKey =
    lvm_VolumeCleanup lvm.
Proof.
  unfold map_get, storage_class_params. simpl.
  destruct (lvm_Thick lvm) as [[[[]|]]|]; case_bool_decide as Hc;
    repeat (rewrite lookup_insert_ne by done || rewrite lookup_insert_eq
            || rewrite lookup_singleton_ne by done); by rewrite ?Hc.
Qed.

Lemma diff_configured (lsc : LocalStorageClass) eff ignored sc lvm :
  lsc_LVM (lsc_Spec lsc) = Some lvm → NoDup (map lvg_Name eff) →
  (lvm_Type lvm = LVMThinType → ∀ l, l ∈ eff → lvg_Thin l ≠ None) →
  configureStorageClass lsc eff ignored = inl sc →
  hasSCDiff sc lsc eff ignored = Some (inl false).
Proof.
  intros Hlvm Hnd Hthin Hsc. pose proof (labels_configured _ _ _ _ Hsc) as Hlabels.
  unfold hasSCDiff, getLVGFromSCParams. unfold configureStorageClass in Hsc.
  rewrite Hlvm in *. destruct (yaml_Marshal eff) as [param|] eqn:Hm; [|done].
  injection Hsc as <-. cbn [sc_Parameters sc_meta om_Labels] in *.
  destruct (params_configured lsc lvm param) as [-> ->].
  rewrite (yaml_roundtrip _ _ Hm), Hlabels, !bool_decide_true by done. simpl.
  rewrite lvgs_differ_part; [done..|]. auto.
Qed.

(** Carrying over the old annotations does not matter. *)
Lemma diff_updated (lsc : LocalStorageClass) oldSC eff ignored sc lvm :
  lsc_LVM (lsc_Spec lsc) = Some lvm → NoDup (map lvg_Name eff) →
  (lvm_Type lvm = LVMThinType → ∀ l, l ∈ eff → lvg_Thin l ≠ None) →
  updateStorageClass lsc oldSC eff ignored = inl sc →
  hasSCDiff sc lsc eff ignored = Some (inl false).
Proof.
  unfold updateStorageClass. intros Hlvm Hnd Hthin.
  destruct (configureStorageClass lsc eff ignored) as [newSC|] eqn:E; [|done].
  apply (diff_configured _ _ _ _ lvm) in E; [|done..].
  destruct (om_Annotations (sc_meta oldSC)) as [old|]; intros [= <-]; [|done].
  rewrite <-E. done.
Qed.

(** ** hasSCDiff in general *)

Lemma effective_by_name_none eff (m : gmap string (option LocalStorageClassLVMThinPoolSpec)) n :
  n ∉ map lvg_Name eff →
  foldl (λ m lvg, <[lvg_Name lvg := lvg_Thin lvg]> m) m eff !! n = m !! n.
Proof.
  revert m. induction eff as [|x eff IH]; intros m; simpl; [done|].
  intros [Hne Hn]%not_elem_of_cons. rewrite IH by done. by apply lookup_insert_ne.
Qed.

(** The two lists give the group the same thin pool. *)
Definition same_pool (cur eff : list LocalStorageClassLVG) : Prop :=
  ∀ c e, c ∈ cur → e ∈ eff → lvg_Name c = lvg_Name e →
    ∃ p, lvg_Thin c = Some p ∧ lvg_Thin e = Some p.

Lemma lvgs_differ_spec name ty eff cur :
  NoDup (map lvg_Name eff) →
  lvgs_differ name ty (effective_by_name eff) cur = inl false ↔
  (∀ n, n ∈ map lvg_Name cur → n ∈ map lvg_Name eff) ∧ (ty = LVMThinType → same_pool cur eff).
Proof.
  intros Hnd. induction cur as [|c cur IH]; simpl.
  { split; [|done]. intros _. split; [by intros ? ?%elem_of_nil|]. by intros _ ? ? ?%elem_of_nil. }
  destruct (decide (lvg_Name c ∈ map lvg_Name eff)) as [Hin|Hout].
  2:{ unfold effective_by_name. rewrite effective_by_name_none, lookup_empty by done.
      split; [done|]. intros [Hsub _]. destruct Hout. apply Hsub. by left. }
  apply list_elem_of_fmap in Hin as (e & Hn & He).
  assert (Hl : effective_by_name eff !! lvg_Name c = Some (lvg_Thin e)).
  { rewrite Hn. by apply effective_by_name_lookup. }
  assert (Huniq : ∀ e', e' ∈ eff → lvg_Name c = lvg_Name e' → e' = e).
  { intros e' He' Hn'. apply (NoDup_map_inj lvg_Name eff); congruence. }
  assert (Hsub : (∀ n, n ∈ lvg_Name c :: map lvg_Name cur → n ∈ map lvg_Name eff) ↔
                 (∀ n, n ∈ map lvg_Name cur → n ∈ map lvg_Name eff)).
  { split; intros Hs n; [intros ?; apply Hs; by right|].
    intros [->|?]%elem_of_cons; [|by apply Hs]. rewrite Hn. apply list_elem_of_fmap. eauto. }
  rewrite Hsub, Hl. case_bool_decide as Hty; [|rewrite IH; tauto].
  assert (Hsame : same_pool (c :: cur) eff ↔
    (∃ p, lvg_Thin c = Some p ∧ lvg_Thin e = Some p) ∧ same_pool cur eff).
  { split.
    - intros Hs. split; [apply Hs; [by left|done..]|]. intros x y Hx. apply Hs. by right.
    - intros [Hp Hs] x y [->|Hx]%elem_of_cons Hy Hxy; [by rewrite (Huniq y)|by apply Hs]. }
  rewrite Hsame. destruct (lvg_Thin c) as [[p]|], (lvg_Thin e) as [[q]|]; simpl.
  - case_bool_decide as Hpq; simpl.
    + subst q. rewrite IH. split; [intros [? ?]; split; [done|]; intros _; split; [by exists (mkThinPool p)|auto]|].
      intros [? Hs]. split; [done|]. intros _. by apply Hs.
    + split; [done|]. intros [_ Hs]. destruct (Hs Hty) as [(? & ? & ?) _]. congruence.
  - split; [done|]. intros [_ Hs]. by destruct (Hs Hty) as [(? & ? & ?) _].
  - split; [done|]. intros [_ Hs]. by destruct (Hs Hty) as [(? & ? & ?) _].
  - split; [done|]. intros [_ Hs]. by destruct (Hs Hty) as [(? & ? & ?) _].
Qed.

(** C17: hasSCDiff finds no difference exactly when the StorageClass has the
    cleanup mode and the labels the LocalStorageClass asks for and lists the
    same set of volume groups, in any order, each with the same thin pool when
    the type is Thin. *)
Theorem hasSCDiff_exact sc (lsc : LocalStorageClass) eff ignored lvm cur
    (Hlvm : lsc_LVM (lsc_Spec lsc) = Some lvm)
    (Hcur : getLVGFromSCParams sc = inl cur)
    (Hnd : NoDup (map lvg_Name cur)) (Hne : NoDup (map lvg_Name eff)) :
  hasSCDiff sc lsc eff ignored = Some (inl false) ↔
  lvm_VolumeCleanup lvm = map_get (sc_Parameters sc) LVMVolumeCleanupParamKey ∧
  labelsMatchLSC (om_Labels (sc_meta sc)) (om_Labels (lsc_meta lsc)) ignored = true ∧
  map lvg_Name cur ≡ₚ map lvg_Name eff ∧
  (lvm_Type lvm = LVMThinType → same_pool cur eff).
Proof.
  unfold hasSCDiff. rewrite Hcur, Hlvm.
  case_bool_decide; simpl; [|split; [done|tauto]].
  destruct (labelsMatchLSC _ _ _); simpl; [|split; [done|by intros (_ & ? & _)]].
  case_bool_decide as Hlen; simpl.
  - trans (lvgs_differ (GetName lsc) (lvm_Type lvm) (effective_by_name eff) cur = inl false).
    { split; [by intros [=]|by intros ->]. }
    rewrite lvgs_differ_spec by done.
    assert ((∀ n, n ∈ map lvg_Name cur → n ∈ map lvg_Name eff) ↔
            map lvg_Name cur ≡ₚ map lvg_Name eff) as ->; [|tauto].
    split; [|by intros Hp n; rewrite Hp].
    intros Hsub. apply submseteq_length_Permutation; [by apply NoDup_submseteq|].
    rewrite !length_map. lia.
  - split; [done|]. intros (_ & _ & Hp & _). apply Permutation_length in Hp.
    rewrite !length_map in Hp. done.
Qed.

(** ** Labels *)

Lemma isIgnored_spec key prefixes :
  isIgnoredLabelKey key prefixes = false ↔
  ∀ p, p ∈ prefixes → p ≠ "" → HasPrefix key p = false.
Proof.
  induction prefixes as [|p ps IH]; simpl; [by split; [intros _ ? ?%elem_of_nil|]|].
  case_bool_decide as Hp.
  - rewrite IH. split; intros Hall q.
    + intros [->|Hq]%elem_of_cons; [done|by apply Hall].
    + intros Hq. apply Hall. by right.
  - destruct (HasPrefix key p) eqn:Hpre.
    + split; [done|]. intros Hall. rewrite <-Hpre. apply Hall; [by left|done].
    + rewrite IH. split; intros Hall q.
      * intros [->|Hq]%elem_of_cons; [done|by apply Hall].
      * intros Hq. apply Hall. by right.
Qed.

(** The labels of the StorageClass are those of the LocalStorageClass whose
    keys start with none of the (non-empty) ignored prefixes, plus the label
    that marks it as managed, which always wins. *)
Theorem labels_propagated (lsc : LocalStorageClass) eff ignored sc
    (Hsc : configureStorageClass lsc eff ignored = inl sc) :
  ∃ labels, om_Labels (sc_meta sc) = Some labels ∧
    labels !! SLVStorageManagedLabelKey = Some SLVStorageClassCtrlName ∧
    ∀ k v, k ≠ SLVStorageManagedLabelKey →
      labels !! k = Some v ↔
      (om_Labels (lsc_meta lsc) ≫= lookup k) = Some v ∧
      ∀ p, p ∈ ignored → p ≠ "" → HasPrefix k p = false.
Proof.
  pose proof (labels_configured _ _ _ _ Hsc) as Hl. unfold labelsMatchLSC in Hl.
  apply bool_decide_eq_true in Hl. eexists. split; [done|].
  split; [by rewrite lookup_insert_eq|]. intros k v Hk. rewrite lookup_insert_ne by done.
  unfold filterLabelsForStorageClass.
  destruct (om_Labels (lsc_meta lsc)) as [labels|]; simpl.
  - case_bool_decide as He; simpl; [subst labels; rewrite lookup_empty; by split; [|intros [? _]]|].
    rewrite map_lookup_filter_Some. simpl. by rewrite isIgnored_spec.
  - rewrite lookup_empty. by split; [|intros [? _]].
Qed.
End diff.

Section converge.
Context `{LabelSelectors, ApiMachinery, MapRange, RetryOnError, Conditions, !YamlLVGs,
          ConfigYaml}.

Abbreviation hist := (history lscSig).
Abbreviation lev := (Ev (S := lscSig)).

(** ** The StorageClasses a run leaves *)

Definition without (name : string) (scs : list StorageClass) : list StorageClass :=
  List.filter (λ sc, negb (bool_decide (GetName sc = name))) scs.

(** What one write does to the StorageClasses of the cluster. *)
Definition sc_write (o : lsc_op) : lsc_res o → list StorageClass → list StorageClass :=
  match o with
  | CreateSC sc => λ r scs,
      match r with inl _ => sc :: without (GetName sc) scs | inr _ => scs end
  | DeleteSC sc => λ r scs,
      match r with None => without (GetName sc) scs | Some _ => scs end
  | _ => λ _ scs, scs
  end.

(** The listed StorageClasses as the writes of the history left them. *)
Fixpoint sc_after (h : hist) (scList : list StorageClass) : list StorageClass :=
  match h with
  | [] => scList
  | e :: past => sc_write (ev_op e) (ev_res e) (sc_after past scList)
  end.

(** An event that neither creates nor deletes a StorageClass. *)
Definition keeps_scs (e : event lscSig) : Prop :=
  match ev_op e with CreateSC _ | DeleteSC _ => False | _ => True end.

Lemma sc_after_keeps new (h : hist) scList :
  Forall keeps_scs new → sc_after (new ++ h)%list scList = sc_after h scList.
Proof.
  induction 1 as [|[o r] new He _ IH]; simpl; [done|]. rewrite IH.
  by destruct o.
Qed.

Lemma find_sc_created sc scs : find_sc (sc :: scs) (GetName sc) = Some sc.
Proof. unfold find_sc. simpl. by rewrite bool_decide_true. Qed.

(** ** The object along a run *)

(** The same resource up to its finalizers and resource version. *)
Record same_lsc (l l' : LocalStorageClass) : Prop := {
  sl_spec : lsc_Spec l' = lsc_Spec l;
  sl_name : GetName l' = GetName l;
  sl_labels : om_Labels (lsc_meta l') = om_Labels (lsc_meta l);
  sl_generation : om_Generation (lsc_meta l') = om_Generation (lsc_meta l);
  sl_deletion : om_DeletionTimestamp (lsc_meta l') = om_DeletionTimestamp (lsc_meta l);
}.

#[global] Instance same_lsc_refl : Reflexive same_lsc.
Proof. by split. Qed.

#[global] Instance same_lsc_trans : Transitive same_lsc.
Proof. intros a b c [????] [????]. split; congruence. Qed.

Lemma same_lsc_diff sc l l' eff ignored :
  same_lsc l l' → hasSCDiff sc l' eff ignored = hasSCDiff sc l eff ignored.
Proof. intros [Hs Hn Hl _ _]. unfold hasSCDiff. by rewrite Hs, Hn, Hl. Qed.

Lemma same_lsc_resolve lvgs l l' :
  same_lsc l l' → resolveEffectiveLVGs l' lvgs = resolveEffectiveLVGs l lvgs.
Proof. intros [Hs _ _ _ _]. unfold resolveEffectiveLVGs. by rewrite Hs. Qed.

(** The run only grew the history, by events that leave StorageClasses alone. *)
Definition quiet (h h' : hist) : Prop := ∃ new, h' = (new ++ h)%list ∧ Forall keeps_scs new.

Lemma quiet_refl h : quiet h h.
Proof. by exists []. Qed.

Lemma quiet_cons h h' e : quiet h h' → keeps_scs e → quiet h (e :: h').
Proof. intros (n & -> & ?) ?. exists (e :: n). split; [done|by constructor]. Qed.

Lemma quiet_trans h1 h2 h3 : quiet h1 h2 → quiet h2 h3 → quiet h1 h3.
Proof.
  intros (n & -> & ?) (n' & -> & ?). exists (n' ++ n)%list. rewrite <-app_assoc.
  split; [done|by apply Forall_app].
Qed.

Lemma quiet_after h h' scList : quiet h h' → sc_after h' scList = sc_after h scList.
Proof. intros (n & -> & ?). by apply sc_after_keeps. Qed.

Hint Resolve quiet_refl : core.

Lemma wp_ensureFinalizer lsc h :
  wp (ensureFinalizer lsc) h (λ r h', quiet h h' ∧ same_lsc lsc (fst r)).
Proof.
  unfold ensureFinalizer. wp_step; [by apply wp_ret|]. apply wp_bind.
  apply (wp_mono _ _ (λ r h', quiet h h' ∧ ∀ l, r = inl l → same_lsc lsc l)).
  2:{ intros [l|err] h' [Hq Hl]; apply wp_ret; (split; [done|]);
        [by apply Hl|reflexivity]. }
  apply (wp_OnError _ _ (quiet h)); [done|]. intros h1 Hq. unfold ensureFinalizer_once.
  apply wp_call_bind. intros [fresh|err].
  2:{ apply wp_ret. split; [split; [by apply quiet_cons|done]|]. intros _ _. by apply quiet_cons. }
  cbv zeta. wp_step.
  { apply wp_ret. split; [|done]. split; [by apply quiet_cons|]. by intros ? [= <-]. }
  apply wp_call_bind. intros [fresh'|err].
  - apply wp_ret. split; [|done]. split; [by do 2 (apply quiet_cons; [|done])|].
    intros ? [= <-]. by split.
  - apply wp_ret. assert (Hq2 : ∀ e1 e2, keeps_scs e1 → keeps_scs e2 →
      quiet h (e1 :: e2 :: h1)) by auto using quiet_cons.
    split; [split; [by apply Hq2|done]|]. intros _ _. by apply Hq2.
Qed.

Lemma wp_updatePhase lsc phase reason h :
  wp (updateLocalStorageClassPhase lsc phase reason) h (λ r h', quiet h h' ∧
    same_lsc lsc (fst r) ∧ (snd r = None → ∃ st, lsc_Status (fst r) = Some st ∧
      ∃ cs msg, lsc_Conditions st = SetCondition cs (mkCondition ConditionTypeReady
        (c_Status (phase_condition lsc phase reason))
        (c_Reason (phase_condition lsc phase reason)) msg (om_Generation (lsc_meta lsc))))).
Proof.
  unfold updateLocalStorageClassPhase. apply wp_bind.
  eapply wp_mono; [apply wp_ensureFinalizer|]. intros [l err] h1 [Hq Hs]. simpl in Hs.
  destruct err as [err|]; [by apply wp_ret|]. unfold publishLocalStorageClassStatus.
  apply wp_call_bind. intros err. assert (Hq' : ∀ e, keeps_scs e → quiet h (e :: h1))
    by auto using quiet_cons.
  destruct err as [err|]; apply wp_ret; [by split_and!; [apply Hq'| |]|].
  split; [by apply Hq'|]. simpl. split.
  - etrans; [done|]. by split.
  - intros _. eexists. split; [done|]. destruct Hs as [_ _ _ Hg _]. rewrite <-Hg.
    case_bool_decide; simpl; eauto.
Qed.

(** ** Success *)

(** The next pass has nothing to do. *)
Definition settled (scs : list StorageClass) (lvgs : list LVMVolumeGroup)
    (ignored : list string) (lsc : LocalStorageClass) : Prop :=
  ∃ eff, resolveEffectiveLVGs lsc lvgs = inl eff ∧
         identifyReconcileFunc scs lsc eff ignored = Some (inl NoneReconcile).

Definition succeeds (scList : list StorageClass) (lvgs : list LVMVolumeGroup)
    (ignored : list string) (out : outcome) (h : hist) : Prop :=
  ∀ lsc', out = (false, None, lsc') → settled (sc_after h scList) lvgs ignored lsc'.

Lemma wp_fail_phase lsc reason b err h Q :
  (∀ l h', Q (b, Some err, l) h') → wp (fail_phase lsc reason b err) h Q.
Proof. intros HQ. apply wp_bind. intros r h' _. by apply wp_ret. Qed.

Lemma wp_fail_phase_or_publish lsc b err h Q :
  (∀ c e l h', Q (c, Some e, l) h') → wp (fail_phase_or_publish lsc b err) h Q.
Proof. intros HQ. apply wp_bind. intros r h' _. destruct (snd r); by apply wp_ret. Qed.

Lemma wp_run_failed lsc err h Q :
  (∀ c e l h', Q (c, Some e, l) h') → wp (run_failed lsc err) h Q.
Proof. intros HQ. apply wp_bind. intros r h' _. destruct (snd r); by apply wp_ret. Qed.

(** A class that is not deleted, has an accepted StorageClass and an up to date
    Ready condition is settled. *)
Lemma identify_none scs (lsc : LocalStorageClass) sc eff ignored :
  om_DeletionTimestamp (lsc_meta lsc) = None → find_sc scs (GetName lsc) = Some sc →
  sc_Provisioner sc = LocalStorageClassProvisioner →
  hasSCDiff sc lsc eff ignored = Some (inl false) → needs_verdict lsc = false →
  identifyReconcileFunc scs lsc eff ignored = Some (inl NoneReconcile).
Proof.
  intros Hd Hf Hp Hdiff Hv. unfold identifyReconcileFunc, shouldReconcileByDeleteFunc,
    shouldReconcileByCreateFunc, shouldReconcileByUpdateFunc.
  by rewrite Hd, Hf, !bool_decide_false, bool_decide_true, Hdiff, Hv by (done || by intros [? ?]).
Qed.

Lemma wp_succeed scList lvgs ignored lsc eff sc h :
  resolveEffectiveLVGs lsc lvgs = inl eff →
  om_DeletionTimestamp (lsc_meta lsc) = None →
  find_sc (sc_after h scList) (GetName lsc) = Some sc →
  sc_Provisioner sc = LocalStorageClassProvisioner →
  hasSCDiff sc lsc eff ignored = Some (inl false) →
  wp (succeed lsc) h (succeeds scList lvgs ignored).
Proof.
  intros Hr Hd Hf Hp Hdiff. apply wp_bind. eapply wp_mono; [apply wp_updatePhase|].
  intros [l err] h' (Hq & Hs & Hst). simpl in *. destruct err as [err|]; apply wp_ret.
  { intros ? [=]. }
  intros ? [= <-]. exists eff. rewrite (same_lsc_resolve _ lsc) by done. split; [done|].
  rewrite (quiet_after h) by done. pose proof Hs as [_ Hn _ Hg Hdel].
  apply (identify_none _ _ sc).
  - by rewrite Hdel.
  - by rewrite Hn.
  - done.
  - by rewrite (same_lsc_diff _ lsc).
  - destruct (Hst eq_refl) as (st & Hsome & cs & msg & Hcs). unfold needs_verdict.
    rewrite Hsome, Hcs. set (c := mkCondition _ _ _ _ _).
    change ConditionTypeReady with (c_Type c). rewrite IsTrue_SetCondition, Hg.
    change (om_Generation (lsc_meta lsc)) with (c_ObservedGeneration c).
    rewrite IsStale_SetCondition. done.
Qed.

(** What a valid verdict gives the comparison of volume groups. *)
Lemma valid_effective scList (lsc : LocalStorageClass) lvgs eff :
  resolveEffectiveLVGs lsc lvgs = inl eff →
  fst (validateLocalStorageClass scList lsc lvgs eff) = true →
  ∃ lvm, lsc_LVM (lsc_Spec lsc) = Some lvm ∧ NoDup (map lvg_Name eff) ∧
    (lvm_Type lvm = LVMThinType → ∀ l, l ∈ eff → lvg_Thin l ≠ None) ∧
    (∀ sc, sc ∈ scList → GetName sc = GetName lsc → GetName lsc ≠ "" →
      sc_Provisioner sc = LocalStorageClassProvisioner).
Proof.
  intros Hr (lvm & Hlvm & [Hm _ _ _ _ _ Hthin])%validate_true. exists lvm.
  split_and!; [done|by apply resolve_effective in Hr as []| |done].
  intros Hty l Hl. specialize (Hthin l Hl). rewrite decide_True in Hthin by done.
  unfold has_thin_pool in Hthin. by destruct (lvg_Thin l).
Qed.

Lemma configured_facts lsc eff ignored sc :
  configureStorageClass lsc eff ignored = inl sc →
  GetName sc = GetName lsc ∧ sc_Provisioner sc = LocalStorageClassProvisioner.
Proof.
  unfold configureStorageClass. destruct (lsc_LVM _); [|done].
  destruct (yaml_Marshal eff); [|done]. by intros [= <-].
Qed.

Lemma updated_facts lsc oldSC eff ignored sc :
  updateStorageClass lsc oldSC eff ignored = inl sc →
  GetName sc = GetName lsc ∧ sc_Provisioner sc = LocalStorageClassProvisioner.
Proof.
  unfold updateStorageClass. destruct (configureStorageClass _ _ _) as [new|] eqn:E; [|done].
  apply configured_facts in E. destruct (om_Annotations (sc_meta oldSC)); by intros [= <-].
Qed.

Lemma wp_addFinalizer sc h :
  wp (addFinalizerIfNotExistsForSC sc) h (λ _ h', quiet h h').
Proof.
  unfold addFinalizerIfNotExistsForSC. wp_step; [by apply wp_ret|].
  apply wp_call_bind. intros [?|?]; apply wp_ret; by apply quiet_cons.
Qed.

Lemma wp_create_valid scList lvgs ignored lsc eff h :
  resolveEffectiveLVGs lsc lvgs = inl eff →
  om_DeletionTimestamp (lsc_meta lsc) = None →
  fst (validateLocalStorageClass scList lsc lvgs eff) = true →
  wp (create_valid scList lsc eff ignored) h (succeeds scList lvgs ignored).
Proof.
  intros Hr Hd Hv. destruct (valid_effective _ _ _ _ Hr Hv) as (lvm & Hlvm & Hnd & Hthin & _).
  unfold create_valid. destruct (configureStorageClass lsc eff ignored) as [sc|err] eqn:Hsc.
  2:{ apply wp_fail_phase_or_publish. by intros ????? [=]. }
  destruct (configured_facts _ _ _ _ Hsc) as [Hname Hprov].
  unfold createStorageClassIfNotExists. destruct (find_sc scList (GetName sc)) as [?|].
  { apply wp_bind, wp_ret, wp_ret. by intros ? [=]. }
  apply wp_bind, wp_call_bind. intros [stored|err]; apply wp_ret.
  2:{ apply wp_fail_phase_or_publish. by intros ????? [=]. }
  apply wp_bind. eapply wp_mono; [apply wp_addFinalizer|].
  intros [added|err] h' Hq; [|by apply wp_ret; intros ? [=]].
  apply (wp_succeed _ _ _ _ eff sc); [done..| |done|by eapply diff_configured].
  rewrite (quiet_after _ _ _ Hq). simpl. rewrite <-Hname. apply find_sc_created.
Qed.

Lemma wp_create scList lvgs ignored lsc eff h :
  resolveEffectiveLVGs lsc lvgs = inl eff →
  om_DeletionTimestamp (lsc_meta lsc) = None →
  wp (reconcileLSCCreateFunc scList lsc lvgs eff ignored) h (succeeds scList lvgs ignored).
Proof.
  intros Hr Hd. apply wp_bind. eapply wp_mono; [apply wp_ensureFinalizer|].
  intros [l err] h' [_ Hs]. simpl in Hs. destruct err as [err|].
  { apply wp_ret. by intros ? [=]. }
  destruct (validateLocalStorageClass scList l lvgs eff) as [valid msg] eqn:E.
  destruct valid; simpl negb; cbv iota.
  2:{ apply wp_fail_phase. by intros ??? [=]. }
  destruct Hs as [Hspec _ _ _ Hdel]. apply wp_create_valid.
  - unfold resolveEffectiveLVGs. by rewrite Hspec.
  - by rewrite Hdel.
  - by rewrite E.
Qed.

Lemma wp_recreate scList oldSC newSC h :
  wp (recreateStorageClass oldSC newSC) h (λ err h', err = None →
    find_sc (sc_after h' scList) (GetName newSC) = Some newSC).
Proof.
  apply wp_bind. eapply wp_mono; [apply (wp_extends (deleteStorageClass oldSC))|].
  intros [err|] h1 _; [by apply wp_ret|]. apply wp_call_bind. intros [stored|err]; apply wp_ret;
    [|by intros [=]]. intros _. apply find_sc_created.
Qed.

Lemma find_sc_some scs name sc : find_sc scs name = Some sc → sc ∈ scs ∧ GetName sc = name.
Proof. intros [Hin Hn]%find_some. bool_simpl. by apply list_elem_of_In in Hin. Qed.

Definition succeeds' (scList : list StorageClass) (lvgs : list LVMVolumeGroup)
    (ignored : list string) (out : option outcome) (h : hist) : Prop :=
  ∀ o, out = Some o → succeeds scList lvgs ignored o h.

Lemma wp_some (p : prog lscSig outcome) scList lvgs ignored h :
  wp p h (succeeds scList lvgs ignored) →
  wp (Some <$> p) h (succeeds' scList lvgs ignored).
Proof. intros Hp. apply wp_fmap. eapply wp_mono; [done|]. by intros o h' Ho ? [= <-]. Qed.

Lemma wp_update scList lvgs ignored lsc eff h :
  resolveEffectiveLVGs lsc lvgs = inl eff → GetName lsc ≠ "" →
  om_DeletionTimestamp (lsc_meta lsc) = None → sc_after h scList = scList →
  wp (reconcileLSCUpdateFunc scList lsc lvgs eff ignored) h (succeeds' scList lvgs ignored).
Proof.
  intros Hr Hne Hd Hh. unfold reconcileLSCUpdateFunc.
  destruct (validateLocalStorageClass scList lsc lvgs eff) as [valid msg] eqn:E.
  destruct valid; simpl negb; cbv iota.
  2:{ apply wp_some, wp_fail_phase. by intros ??? [=]. }
  assert (Hv : fst (validateLocalStorageClass scList lsc lvgs eff) = true) by by rewrite E.
  destruct (valid_effective _ _ _ _ Hr Hv) as (lvm & Hlvm & Hnd & Hthin & Hprov).
  destruct (find_sc scList (GetName lsc)) as [oldSC|] eqn:Hf.
  2:{ apply wp_some, wp_fail_phase. by intros ??? [=]. }
  destruct (find_sc_some _ _ _ Hf) as [Hin Hold].
  destruct (hasSCDiff oldSC lsc eff ignored) as [[[]|err]|] eqn:Hdiff.
  - destruct (updateStorageClass lsc oldSC eff ignored) as [newSC|err] eqn:Hsc.
    2:{ apply wp_some, wp_fail_phase_or_publish. by intros ????? [=]. }
    destruct (updated_facts _ _ _ _ _ Hsc) as [Hname Hp].
    apply wp_bind. eapply wp_mono; [apply (wp_recreate scList)|].
    intros [err|] h' Hfind; apply wp_some; [apply wp_fail_phase; by intros ??? [=]|].
    apply (wp_succeed _ _ _ _ eff newSC); [done..| |done|by eapply diff_updated].
    rewrite <-Hname. by apply Hfind.
  - apply wp_some, (wp_succeed _ _ _ _ eff oldSC); [done..| | |done]; [by rewrite Hh|eauto].
  - apply wp_some, wp_fail_phase. by intros ??? [=].
  - apply wp_ret. by intros ? [=].
Qed.

(** C8: the controller converges.  For a LocalStorageClass that is not being
    deleted, a pass that ends without an error and without a requeue leaves
    StorageClasses and an object for which, on the volume groups it listed,
    the next pass identifies nothing to do. *)
Theorem RunEventReconcile_converges scList lsc ignored :
  wp (RunEventReconcile scList lsc ignored) [] (λ out h, ∀ lsc',
    out = Some (false, None, lsc') → GetName lsc ≠ "" →
    om_DeletionTimestamp (lsc_meta lsc) = None →
    ∃ lvgs, lev ListLVG (inl lvgs) ∈ h ∧
            settled (sc_after h scList) lvgs ignored lsc').
Proof.
  unfold RunEventReconcile. destruct (om_DeletionTimestamp (lsc_meta lsc)) as [d|] eqn:Hd.
  { by intros out h _ ? _ _. }
  rewrite bool_decide_false by (by intros [? ?]).
  apply wp_call_bind. intros [lvgs|err].
  2:{ apply wp_fmap, wp_run_failed. by intros ????? [=]. }
  destruct (decide (GetName lsc = "")) as [Hempty|Hne].
  { by intros out h _ ? _ Hne _. }
  set (h1 := [lev ListLVG (inl lvgs)]).
  eapply (wp_mono _ _ (λ out h, (∃ new, h = (new ++ h1)%list) ∧
                                succeeds' scList lvgs ignored out h)).
  2:{ intros out h [[new ->] Ho] lsc' -> _ _. exists lvgs.
      split; [by apply elem_of_app; right; left|]. by eapply Ho. }
  apply wp_and; [apply wp_extends|]. unfold dispatch. rewrite Hd. cbv zeta.
  rewrite bool_decide_false by (by intros [? ?]).
  destruct (resolveEffectiveLVGs lsc lvgs) as [eff|err] eqn:Hr.
  2:{ apply wp_some, wp_run_failed. by intros ????? [=]. }
  destruct (identifyReconcileFunc scList lsc eff ignored) as [[[]|err]|] eqn:Hid.
  - by apply wp_some, wp_create.
  - by apply wp_update.
  - unfold identifyReconcileFunc, shouldReconcileByDeleteFunc in Hid. rewrite Hd in Hid.
    simpl in Hid. repeat case_match; simplify_eq.
  - apply wp_ret. intros ? [= <-] ? [= <-]. by exists eff.
  - apply wp_some, wp_run_failed. by intros ????? [=].
  - apply wp_ret. by intros ? [=].
Qed.
End converge.
