(* ===== verification/LSCEvents.v ===== *)
(** * What wakes the LocalStorageClass controller

    A change of a LocalStorageClass or of the volume groups that the watches do
    not turn into a request cannot unsettle a class: what the next pass would find
    to do is the same before and after it.  StorageClasses are not watched. *)

From S2P Require Import Prelude Effects Kube Monitoring Manager LSC LSCValidate LSCResolve.
From S2P Require Import LSCReconcile LSCConverge.

Local Open Scope string_scope.

Section events.
Context `{LabelSelectors, ApiMachinery, MapRange, RetryOnError, Conditions, !YamlLVGs,
          ConfigYaml}.

Abbreviation lev := (Ev (S := lscSig)).

(** ** Volume groups *)

(** Two versions of one volume group whose labels agree. *)
Definition same_labels (old new : LVMVolumeGroup) : Prop :=
  vg_Name old = vg_Name new ∧ om_Labels (vg_meta old) = om_Labels (vg_meta new).

Lemma append_all_labels selector thin lvgs lvgs' s :
  Forall2 same_labels lvgs lvgs' →
  foldM (M := result string) (append_matching selector thin) s lvgs =
  foldM (M := result string) (append_matching selector thin) s lvgs'.
Proof.
  intros Hl. revert s. induction Hl as [|old new lvgs lvgs' [Hn Hla] _ IH]; intros s; [done|].
  simpl. assert (append_matching selector thin s old = append_matching selector thin s new) as ->.
  { unfold append_matching. by rewrite Hn, Hla. }
  destruct (append_matching selector thin s new); [apply IH|done].
Qed.

Lemma resolve_entries_labels entries lvgs lvgs' s :
  Forall2 same_labels lvgs lvgs' →
  foldM (M := result string) (resolve_entry lvgs) s entries =
  foldM (M := result string) (resolve_entry lvgs') s entries.
Proof.
  intros Hl. revert s. induction entries as [|entry entries IH]; intros s; [done|]. simpl.
  assert (resolve_entry lvgs s entry = resolve_entry lvgs' s entry) as ->.
  { unfold resolve_entry. destruct (lvg_LabelSelector entry); [|done].
    destruct (LabelSelectorAsSelector _); [|done]. by apply append_all_labels. }
  destruct (resolve_entry lvgs' s entry); [apply IH|done].
Qed.

Lemma resolve_labels (lsc : LocalStorageClass) lvgs lvgs' :
  Forall2 same_labels lvgs lvgs' →
  resolveEffectiveLVGs lsc lvgs = resolveEffectiveLVGs lsc lvgs'.
Proof.
  intros Hl. unfold resolveEffectiveLVGs. destruct (lsc_LVM (lsc_Spec lsc)); [|done].
  by rewrite (resolve_entries_labels _ _ lvgs').
Qed.

(** A class that names its volume groups does not depend on the cluster's. *)
Lemma resolve_explicit (lsc : LocalStorageClass) lvgs lvgs' :
  lscUsesLabelSelector lsc = false →
  resolveEffectiveLVGs lsc lvgs = resolveEffectiveLVGs lsc lvgs'.
Proof.
  unfold lscUsesLabelSelector, resolveEffectiveLVGs. destruct (lsc_LVM (lsc_Spec lsc)) as [lvm|]; [|done].
  intros Hn.
  assert (Hs : ∀ s, foldM (M := result string) (resolve_entry lvgs) s (lvm_LVMVolumeGroups lvm) =
                    foldM (M := result string) (resolve_entry lvgs') s (lvm_LVMVolumeGroups lvm)).
  2:{ by rewrite Hs. }
  induction (lvm_LVMVolumeGroups lvm) as [|entry entries IH]; intros s; [done|]. simpl in *.
  apply orb_false_iff in Hn as [He Hn].
  assert (resolve_entry lvgs s entry = resolve_entry lvgs' s entry) as ->.
  { unfold resolve_entry. by destruct (lvg_LabelSelector entry). }
  destruct (resolve_entry lvgs' s entry); [by apply IH|done].
Qed.

(** ** Classes *)

(** What the next pass finds to do, on the StorageClasses and volume groups of
    the cluster. *)
Definition next_verdict (scs : list StorageClass) (lvgs : list LVMVolumeGroup)
    (ignored : list string) (lsc : LocalStorageClass)
    : result string (option (result string reconcileType)) :=
  match resolveEffectiveLVGs lsc lvgs with
  | inl eff => inl (identifyReconcileFunc scs lsc eff ignored)
  | inr err => inr err
  end.

(** An update of one class: a deletion once requested stays requested, and the
    status, which only this controller writes, gives the same verdict. *)
Definition class_update (old new : LocalStorageClass) : Prop :=
  GetName old = GetName new ∧ needs_verdict old = needs_verdict new ∧
  (om_DeletionTimestamp (lsc_meta old) ≠ None → om_DeletionTimestamp (lsc_meta new) ≠ None).

Lemma class_update_verdict old new scs lvgs ignored :
  class_update old new → localStorageClassEventHandler (UpdateEvent old new) = [] →
  next_verdict scs lvgs ignored old = next_verdict scs lvgs ignored new.
Proof.
  intros (Hn & Hv & Hd) Hdrop. simpl in Hdrop. unfold enqueue_update in Hdrop.
  case_match eqn:E; [|done]. rewrite !andb_true_iff in E. destruct E as [[Hs Hl] Hnew].
  apply bool_decide_eq_true in Hs, Hl. apply negb_true_iff, bool_decide_eq_false in Hnew.
  apply eq_None_not_Some in Hnew.
  assert (Hold : om_DeletionTimestamp (lsc_meta old) = None).
  { destruct (om_DeletionTimestamp (lsc_meta old)); [|done]. by destruct (Hd ltac:(done)). }
  unfold next_verdict, resolveEffectiveLVGs, identifyReconcileFunc, shouldReconcileByDeleteFunc,
    shouldReconcileByCreateFunc, shouldReconcileByUpdateFunc, hasSCDiff.
  by rewrite Hold, Hnew, Hn, Hv, Hs, Hl.
Qed.

(** Two versions of a volume group, between which no event gets through. *)
Definition group_dropped (old new : LVMVolumeGroup) : Prop :=
  vg_Name old = vg_Name new ∧ admits lvg_predicates (UpdateEvent old new) = false.

(** The classes a list answered with. *)
Definition listed_classes (e : event lscSig) : option (list LocalStorageClass) :=
  match ev_op e as o return lsc_res o → option (list LocalStorageClass) with
  | ListLSC => λ r, match r with inl l => Some l | inr _ => None end
  | _ => λ _, None
  end (ev_res e).

End events.
