(* ===== verification/LSCSafety.v ===== *)
(** * Safety of the LocalStorageClass controller

    Every write of a pass is justified by what the pass read before it: foreign
    StorageClasses are never deleted, finalizers are added and removed on the
    object just read, and a LocalStorageClass is only let go of once its
    StorageClass is gone. *)

From S2P Require Import Prelude Effects Kube Monitoring LSC LSCValidate LSCResolve.
From S2P Require Import LSCReconcile.

Local Open Scope string_scope.

Section safety.
Context `{LabelSelectors, ApiMachinery, MapRange, RetryOnError, Conditions, !YamlLVGs,
          ConfigYaml}.
Context (scList : list StorageClass) (lsc : LocalStorageClass).

Abbreviation hist := (history lscSig).
Abbreviation lev := (Ev (S := lscSig)).

(** ** What justifies a write *)

(** The listed StorageClass of this name is this module's. *)
Definition owned : Prop :=
  ∃ sc, find_sc scList (GetName lsc) = Some sc ∧
        sc_Provisioner sc = LocalStorageClassProvisioner.

(** If this module has a StorageClass of this name, the pass has deleted it. *)
Definition released (past : hist) : Prop :=
  owned → ∃ o, lev (DeleteSC o) None ∈ past ∧ GetName o = GetName lsc.

(** The LocalStorageClass carries the finalizer, or did when it was last read or
    written, or was found to be on its way out. *)
Definition secured (past : hist) : Prop :=
  LocalStorageClassFinalizerName ∈ GetFinalizers lsc ∨
  (∃ ns (fresh : LocalStorageClass),
    lev (GetObj KLSC ns (GetName lsc)) (inl fresh) ∈ past ∧
    (LocalStorageClassFinalizerName ∈ GetFinalizers fresh ∨
     om_DeletionTimestamp (lsc_meta fresh) ≠ None)) ∨
  (∃ o r : LocalStorageClass, lev (UpdateObj KLSC o) (inl r) ∈ past ∧
    LocalStorageClassFinalizerName ∈ GetFinalizers o).

Definition without_finalizers {k} (o : lobj k) : lobj k :=
  with_meta (SetFinalizers (List.filter (λ f, negb (contains localStorageClassFinalizers f))
                              (GetFinalizers o))) o.

Definition with_finalizer {k} (o : lobj k) : lobj k :=
  with_meta (SetFinalizers (GetFinalizers o ++ [LocalStorageClassFinalizerName])%list) o.

(** The StorageClass this module creates. *)
Definition managed (sc : StorageClass) : Prop :=
  GetName sc = GetName lsc ∧
  sc_Provisioner sc = LocalStorageClassProvisioner ∧
  GetFinalizers sc = [LocalStorageClassFinalizerName] ∧
  map_get (om_Labels (sc_meta sc)) SLVStorageManagedLabelKey = SLVStorageClassCtrlName.

Definition lsc_justified (e : event lscSig) (past : hist) : Prop :=
  match ev_op e with
  | CreateSC sc =>
      managed sc ∧ om_DeletionTimestamp (lsc_meta lsc) = None ∧ released past ∧
      (owned ∨ find_sc scList (GetName lsc) = None ∧ secured past)
  | DeleteSC o => owned ∧ GetName o = GetName lsc
  | UpdateObj KSC o =>
      (∃ ns (fresh : StorageClass) past',
        past = (lev (GetObj KSC ns (GetName lsc)) (inl fresh) :: past') ∧
        o = without_finalizers (k:=KSC) fresh ∧ owned) ∨
      (∃ sc (stored : StorageClass) past',
        past = (lev (CreateSC sc) (inl stored) :: past') ∧
        o = with_finalizer (k:=KSC) stored)
  | UpdateObj KLSC o =>
      ∃ ns (fresh : LocalStorageClass) past',
        past = (lev (GetObj KLSC ns (GetName lsc)) (inl fresh) :: past') ∧
        ((o = with_finalizer (k:=KLSC) fresh ∧ om_DeletionTimestamp (lsc_meta fresh) = None ∧
          om_DeletionTimestamp (lsc_meta lsc) = None) ∨
         (o = without_finalizers (k:=KLSC) fresh ∧ om_DeletionTimestamp (lsc_meta lsc) ≠ None ∧
          released past'))
  | _ => True
  end.

Abbreviation justified := (always lsc_justified).

(** The writes so far are justified and the history only grew. *)
Definition good (h h' : hist) : Prop := justified h' ∧ ∃ new, h' = (new ++ h)%list.

Lemma good_refl h : justified h → good h h.
Proof. intros ?. split; [done|by exists []]. Qed.

Lemma good_trans h1 h2 h3 : good h1 h2 → good h2 h3 → good h1 h3.
Proof.
  intros [_ [n ->]] [? [n' ->]]. split; [done|]. exists (n' ++ n)%list. by rewrite app_assoc.
Qed.

Lemma good_cons h h' e : good h h' → lsc_justified e h' → good h (e :: h').
Proof. intros [? [n ->]] ?. split; [done|by exists (e :: n)]. Qed.

Lemma released_mono h h' : good h h' → released h → released h'.
Proof.
  intros [_ [n ->]] Hr Ho. destruct (Hr Ho) as (o & ? & ?). exists o.
  split; [apply elem_of_app; by right|done].
Qed.

Lemma secured_mono h h' : good h h' → secured h → secured h'.
Proof.
  intros [_ [n ->]] [?|[(ns & f & ? & ?)|(o & r & ? & ?)]]; [by left|right; left|right; right].
  - exists ns, f. split; [apply elem_of_app; by right|done].
  - exists o, r. split; [apply elem_of_app; by right|done].
Qed.

(** ** Finalizers *)

(** An object of the pass: the LocalStorageClass it was asked about, up to what
    the finalizer writes change. *)
Definition ours (l : LocalStorageClass) : Prop :=
  GetName l = GetName lsc ∧ om_DeletionTimestamp (lsc_meta l) = om_DeletionTimestamp (lsc_meta lsc).

Definition may_remove (k : lkind) (h : hist) : Prop :=
  match k with
  | KSC => owned
  | KLSC => om_DeletionTimestamp (lsc_meta lsc) ≠ None ∧ released h
  end.

Lemma may_remove_mono k h h' : good h h' → may_remove k h → may_remove k h'.
Proof. destruct k; [intros ? [??]; split; eauto using released_mono|done]. Qed.

Lemma removal_justified k ns (fresh : lobj k) past r :
  may_remove k past →
  lsc_justified (lev (UpdateObj k (without_finalizers fresh)) r)
    (lev (GetObj k ns (GetName lsc)) (inl fresh) :: past).
Proof.
  destruct k; simpl.
  - intros [??]. unfold lsc_justified. simpl. exists ns, fresh, past. split; [done|]. by right.
  - intros ?. left. by exists ns, fresh, past.
Qed.

Lemma read_justified k ns n r past : lsc_justified (lev (GetObj k ns n) r) past.
Proof. done. Qed.

Lemma wp_remove k (o : lobj k) h :
  justified h → GetName o = GetName lsc → may_remove k h →
  wp (removeControllerFinalizers k o) h (λ r h', good h h' ∧
    ∀ b o', r = inl (b, o') → GetName o' = GetName o ∧
      om_DeletionTimestamp (meta_of o') = om_DeletionTimestamp (meta_of o)).
Proof.
  intros HJ Hn Hm. apply (wp_OnError _ _ (good h)); [by apply good_refl|]. intros h1 Hg.
  unfold removeControllerFinalizers_once. apply wp_call_bind. intros got. rewrite Hn.
  assert (Hg1 : good h (lev (GetObj k (om_Namespace (meta_of o)) (GetName lsc)) got :: h1))
    by (apply good_cons; [done|apply read_justified]).
  destruct got as [fresh|err].
  2:{ wp_step; apply wp_ret; (split; [split; [done|]|done]); [by intros ?? [= _ <-]|done]. }
  cbv zeta. wp_step.
  { apply wp_ret. split; [split; [done|by intros ?? [= _ <-]]|done]. }
  apply wp_call_bind. intros updated.
  set (e := lev _ updated). assert (Hg2 : good h (e :: lev (GetObj k (om_Namespace (meta_of o))
    (GetName lsc)) (inl fresh) :: h1)).
  { apply good_cons; [done|]. apply removal_justified. by eapply may_remove_mono. }
  destruct updated as [fresh'|err]; apply wp_ret; (split; [split; [done|]|done]); [|done].
  intros b o' [= <- <-]. unfold GetName. by rewrite meta_with_meta.
Qed.

Lemma wp_ensure l h :
  justified h → ours l →
  wp (ensureFinalizer l) h (λ r h', good h h' ∧ ours (fst r) ∧
    (l = lsc → snd r = None → om_DeletionTimestamp (lsc_meta lsc) = None → secured h')).
Proof.
  intros HJ [Hn Hd]. unfold ensureFinalizer. wp_step.
  { apply wp_ret. split_and!; [by apply good_refl|done|]. intros -> _ Hdel. simpl in *.
    rewrite Hdel in Heqb. rewrite bool_decide_false in Heqb by (by intros [? ?]).
    simpl in Heqb. left. by bool_simpl. }
  apply orb_false_elim in Heqb as [Hl _]. rewrite Hd in Hl.
  assert (Hdel : om_DeletionTimestamp (lsc_meta lsc) = None) by (by bool_simpl; apply eq_None_not_Some).
  apply wp_bind. apply (wp_mono _ _ (λ r h', good h h' ∧ ∀ l', r = inl l' → ours l' ∧ secured h')).
  2:{ intros [l'|err] h' [Hg Hl']; apply wp_ret; simpl; [|done].
      destruct (Hl' l' eq_refl). by split_and!. }
  apply (wp_OnError _ _ (good h)); [by apply good_refl|]. intros h1 Hg.
  unfold ensureFinalizer_once. apply wp_call_bind. intros got. rewrite Hn.
  assert (Hg1 : good h (lev (GetObj KLSC (om_Namespace (lsc_meta l)) (GetName lsc)) got :: h1))
    by (apply good_cons; [done|apply read_justified]).
  destruct got as [fresh|err]; [|apply wp_ret; by split; [split|]]. cbv zeta. wp_step.
  { apply wp_ret. split; [split; [done|]|done]. intros l' [= <-]. split; [done|].
    right. left. eexists _, fresh. split; [by left|].
    apply orb_prop in Heqb as [Hf|Hf]; bool_simpl; [right|by left]. by destruct Hf as [? ->]. }
  apply orb_false_elim in Heqb as [Hf _].
  apply wp_call_bind. intros updated. match goal with |- context [UpdateObj KLSC ?x] => set (o := x) end.
  set (e1 := lev (GetObj _ _ _) _).
  assert (Hg2 : good h (lev (UpdateObj KLSC o) updated :: e1 :: h1)).
  { apply good_cons; [done|]. exists (om_Namespace (lsc_meta l)), fresh, h1. split; [done|].
    left. split_and!; [done| |done]. by bool_simpl; apply eq_None_not_Some. }
  destruct updated as [fresh'|err]; apply wp_ret; (split; [split; [done|]|done]); [|done].
  intros l' [= <-]. split; [by split|]. right. right. exists o, fresh'. split; [by left|].
  unfold o, GetFinalizers. rewrite meta_with_meta. simpl. apply elem_of_app. right. by left.
Qed.

Lemma wp_updatePhase_good l phase reason h :
  justified h → ours l →
  wp (updateLocalStorageClassPhase l phase reason) h (λ _ h', good h h').
Proof.
  intros HJ Hl. apply wp_bind. eapply wp_mono; [by apply wp_ensure|].
  intros [l' err] h1 (Hg & _). destruct err; [by apply wp_ret|].
  apply wp_call_bind. intros err. destruct err; apply wp_ret; by apply good_cons.
Qed.

Lemma wp_publish_good l h0 h cond phase reason :
  good h0 h → wp (publishLocalStorageClassStatus l cond phase reason) h (λ _ h', good h0 h').
Proof.
  intros Hg. apply wp_call_bind. intros []; apply wp_ret; by apply good_cons.
Qed.

(** The ways a pass ends by publishing a verdict. *)
Lemma wp_fail_phase_good l reason b err h :
  justified h → ours l → wp (fail_phase l reason b err) h (λ _ h', good h h').
Proof.
  intros HJ Hl. apply wp_bind. eapply wp_mono; [by apply wp_updatePhase_good|].
  intros r h' Hg. by apply wp_ret.
Qed.

Lemma wp_fail_or_publish_good l b err h :
  justified h → ours l → wp (fail_phase_or_publish l b err) h (λ _ h', good h h').
Proof.
  intros HJ Hl. apply wp_bind. eapply wp_mono; [by apply wp_updatePhase_good|].
  intros r h' Hg. destruct (snd r); by apply wp_ret.
Qed.

Lemma wp_run_failed_good l err h :
  justified h → ours l → wp (run_failed l err) h (λ _ h', good h h').
Proof.
  intros HJ Hl. apply wp_bind. eapply wp_mono; [by apply wp_updatePhase_good|].
  intros r h' Hg. destruct (snd r); by apply wp_ret.
Qed.

Lemma wp_succeed_good l h :
  justified h → ours l → wp (succeed l) h (λ _ h', good h h').
Proof.
  intros HJ Hl. apply wp_bind. eapply wp_mono; [by apply wp_updatePhase_good|].
  intros r h' Hg. destruct (snd r); by apply wp_ret.
Qed.

(** From one point of the run to a later one. *)
Lemma wp_good {A} (p : prog lscSig A) h0 h (Q : A → hist → Prop) :
  good h0 h → wp p h (λ a h', good h h' ∧ Q a h') →
  wp p h (λ a h', good h0 h' ∧ Q a h').
Proof. intros Hg Hp. eapply wp_mono; [done|]. intros a h' [? ?]. eauto using good_trans. Qed.

Lemma wp_good_only {A} (p : prog lscSig A) h0 h :
  good h0 h → wp p h (λ _ h', good h h') → wp p h (λ _ h', good h0 h').
Proof. intros Hg Hp. eapply wp_mono; [done|]. intros a h' ?. by eapply good_trans. Qed.

(** ** Deleting *)

Lemma find_sc_name (scs : list StorageClass) name sc : find_sc scs name = Some sc → GetName sc = name.
Proof. intros [_ Hn]%find_some. by bool_simpl. Qed.

Lemma wp_deleteStorageClass sc h :
  justified h → find_sc scList (GetName lsc) = Some sc →
  wp (deleteStorageClass sc) h (λ err h', good h h' ∧ (err = None → owned ∧ released h')).
Proof.
  intros HJ Hf. unfold deleteStorageClass. wp_step.
  { apply wp_ret. split; [by apply good_refl|done]. }
  bool_simpl. assert (Hown : owned) by by exists sc.
  pose proof (find_sc_name _ _ _ Hf) as Hn.
  apply wp_bind. eapply wp_mono; [by apply (wp_remove KSC sc)|].
  intros [[b o]|err] h1 [Hg Ho]; [|by apply wp_ret].
  destruct (Ho b o eq_refl) as [Ho' _]. simpl in Ho'. rewrite Hn in Ho'.
  apply wp_call_bind. intros err.
  assert (Hj : lsc_justified (lev (DeleteSC o) err) h1) by done.
  apply wp_ret. split; [by apply good_cons|]. destruct err; [done|]. intros _.
  split; [done|]. intros _. exists o. by split; [left|].
Qed.

Lemma wp_release h l :
  justified h → ours l → om_DeletionTimestamp (lsc_meta lsc) ≠ None → released h →
  wp (release_lsc l) h (λ _ h', good h h').
Proof.
  intros HJ [Hn Hd] Hdel Hr. apply wp_bind.
  eapply wp_mono; [by apply (wp_remove KLSC l)|].
  intros [[b l']|err] h1 [Hg Hl'].
  - destruct (Hl' b l' eq_refl) as [Hn' Hd']. apply wp_bind.
    eapply wp_mono; [by apply (wp_publish_good _ h)|].
    intros r h2 Hg2. by apply wp_ret.
  - eapply wp_good_only; [done|]. apply wp_fail_phase_good; [apply Hg|done].
Qed.

Lemma wp_delete_good h :
  justified h → om_DeletionTimestamp (lsc_meta lsc) ≠ None →
  wp (reconcileLSCDeleteFunc scList lsc) h (λ _ h', good h h').
Proof.
  intros HJ Hdel. unfold reconcileLSCDeleteFunc.
  destruct (find_sc scList (GetName lsc)) as [sc|] eqn:Hf.
  2:{ apply wp_release; try done. intros (sc & ? & _). congruence. }
  wp_step.
  2:{ apply wp_release; try done. bool_simpl. intros (sc' & ? & ?). congruence. }
  apply wp_bind. eapply wp_mono; [by apply wp_deleteStorageClass|].
  intros [err|] h1 [Hg Hr]; (eapply wp_good_only; [done|]).
  - apply wp_fail_phase_good; [apply Hg|done].
  - apply wp_release; try done; [apply Hg|by apply Hr].
Qed.

(** ** Creating and updating *)

Lemma managed_configured (l : LocalStorageClass) eff ignored sc :
  GetName l = GetName lsc → configureStorageClass l eff ignored = inl sc → managed sc.
Proof.
  intros Hn. unfold configureStorageClass. destruct (lsc_LVM _); [|done].
  destruct (yaml_Marshal eff); [|done]. intros [= <-]. split_and!; try done. unfold map_get. simpl.
  destruct (filterLabelsForStorageClass _ _); [case_bool_decide|];
    by rewrite ?lookup_insert_eq, ?lookup_singleton_eq.
Qed.

Lemma managed_updated (l : LocalStorageClass) oldSC eff ignored sc :
  GetName l = GetName lsc → updateStorageClass l oldSC eff ignored = inl sc → managed sc.
Proof.
  intros Hn. unfold updateStorageClass.
  destruct (configureStorageClass l eff ignored) as [new|] eqn:E; [|done].
  apply managed_configured in E; [|done].
  destruct (om_Annotations (sc_meta oldSC)); by intros [= <-].
Qed.

Lemma wp_create_valid_good l eff ignored h :
  justified h → ours l → om_DeletionTimestamp (lsc_meta lsc) = None → secured h →
  wp (create_valid scList l eff ignored) h (λ _ h', good h h').
Proof.
  intros HJ Hl Hdel Hs. unfold create_valid.
  destruct (configureStorageClass l eff ignored) as [sc|err] eqn:Hsc.
  2:{ by apply wp_fail_or_publish_good. }
  pose proof (managed_configured _ _ _ _ (proj1 Hl) Hsc) as Hm.
  unfold createStorageClassIfNotExists. destruct (find_sc scList (GetName sc)) as [?|] eqn:Hf.
  { apply wp_bind, wp_ret, wp_ret. by apply good_refl. }
  assert (Hnone : find_sc scList (GetName lsc) = None) by (by rewrite <-(proj1 Hm)).
  apply wp_bind, wp_call_bind. intros created.
  assert (Hj : lsc_justified (lev (CreateSC sc) created) h).
  { split_and!; [apply Hm..|done| |by right]. intros (? & ? & _). congruence. }
  assert (Hg : good h (lev (CreateSC sc) created :: h)) by (apply good_cons; [by apply good_refl|done]).
  destruct created as [stored|err]; apply wp_ret.
  2:{ eapply wp_good_only; [done|]. apply wp_fail_or_publish_good; [apply Hg|done]. }
  apply wp_bind. unfold addFinalizerIfNotExistsForSC. wp_step.
  { apply wp_ret. eapply wp_good_only; [done|]. apply wp_succeed_good; [apply Hg|done]. }
  apply wp_call_bind. intros added. set (e := lev (UpdateObj _ _) added).
  assert (Hg2 : good h (e :: lev (CreateSC sc) (inl stored) :: h)).
  { apply good_cons; [done|]. right. by exists sc, stored, h. }
  destruct added; apply wp_ret; [|by apply wp_ret].
  eapply wp_good_only; [done|]. apply wp_succeed_good; [apply Hg2|done].
Qed.

Lemma wp_create_good lvgs eff ignored h :
  justified h → om_DeletionTimestamp (lsc_meta lsc) = None →
  wp (reconcileLSCCreateFunc scList lsc lvgs eff ignored) h (λ _ h', good h h').
Proof.
  intros HJ Hdel. apply wp_bind. eapply wp_mono; [by apply (wp_ensure lsc)|].
  intros [l err] h1 (Hg & Hl & Hs). simpl in *. destruct err; [by apply wp_ret|].
  destruct (validateLocalStorageClass _ _ _ _) as [valid msg].
  eapply wp_good_only; [done|].
  destruct valid; simpl; [apply wp_create_valid_good|apply wp_fail_phase_good];
    try done; try apply Hg. by apply Hs.
Qed.

Lemma wp_update_good lvgs eff ignored h :
  justified h → om_DeletionTimestamp (lsc_meta lsc) = None →
  wp (reconcileLSCUpdateFunc scList lsc lvgs eff ignored) h (λ _ h', good h h').
Proof.
  intros HJ Hdel. unfold reconcileLSCUpdateFunc.
  destruct (validateLocalStorageClass _ _ _ _) as [valid msg].
  destruct valid; simpl; [|by apply wp_fmap, wp_fail_phase_good].
  destruct (find_sc scList (GetName lsc)) as [oldSC|] eqn:Hf; [|by apply wp_fmap, wp_fail_phase_good].
  destruct (hasSCDiff _ _ _ _) as [[[]|err]|].
  - destruct (updateStorageClass _ _ _ _) as [newSC|err] eqn:Hsc;
      [|by apply wp_fmap, wp_fail_or_publish_good].
    pose proof (managed_updated _ _ _ _ _ eq_refl Hsc) as Hm.
    apply wp_bind. unfold recreateStorageClass. apply wp_bind.
    eapply wp_mono; [by apply wp_deleteStorageClass|]. intros [err|] h1 [Hg Hr].
    { apply wp_ret, wp_fmap. eapply wp_good_only; [done|].
      apply wp_fail_phase_good; [apply Hg|done]. }
    apply wp_call_bind. intros created.
    assert (Hg2 : good h (lev (CreateSC newSC) created :: h1)).
    { apply good_cons; [done|]. split_and!; [apply Hm..|done|by apply Hr|left; by apply Hr]. }
    destruct created; apply wp_ret, wp_fmap; (eapply wp_good_only; [done|]);
      [apply wp_succeed_good|apply wp_fail_phase_good]; try done; apply Hg2.
  - by apply wp_fmap, wp_succeed_good.
  - by apply wp_fmap, wp_fail_phase_good.
  - apply wp_ret. by apply good_refl.
Qed.

Lemma identify_type eff ignored ty :
  identifyReconcileFunc scList lsc eff ignored = Some (inl ty) →
  if decide (ty = DeleteReconcile) then om_DeletionTimestamp (lsc_meta lsc) ≠ None
  else om_DeletionTimestamp (lsc_meta lsc) = None.
Proof.
  unfold identifyReconcileFunc, shouldReconcileByDeleteFunc.
  destruct (om_DeletionTimestamp (lsc_meta lsc)); simpl.
  - intros [= <-]. by rewrite decide_True.
  - intros Hid. repeat case_match; simplify_eq; done.
Qed.

Lemma wp_dispatch_good lvgs ignored h :
  justified h → wp (dispatch scList lsc lvgs ignored) h (λ _ h', good h h').
Proof.
  intros HJ. unfold dispatch. cbv zeta.
  set (eff := match resolveEffectiveLVGs lsc lvgs with inl l => l | inr _ => [] end).
  assert (Hd : wp match identifyReconcileFunc scList lsc eff ignored with
     | None => mret None
     | Some (inr err) => Some <$> run_failed lsc err
     | Some (inl CreateReconcile) => Some <$> reconcileLSCCreateFunc scList lsc lvgs eff ignored
     | Some (inl UpdateReconcile) => reconcileLSCUpdateFunc scList lsc lvgs eff ignored
     | Some (inl DeleteReconcile) => Some <$> reconcileLSCDeleteFunc scList lsc
     | Some (inl NoneReconcile) => mret (Some (false, None, lsc))
     end h (λ _ h', good h h')).
  { destruct (identifyReconcileFunc scList lsc eff ignored) as [[ty|err]|] eqn:Hid.
    - apply identify_type in Hid. destruct ty; simpl in Hid.
      + by apply wp_fmap, wp_create_good.
      + by apply wp_update_good.
      + by apply wp_fmap, wp_delete_good.
      + apply wp_ret. by apply good_refl.
    - by apply wp_fmap, wp_run_failed_good.
    - apply wp_ret. by apply good_refl. }
  destruct (resolveEffectiveLVGs lsc lvgs) as [l|err]; [done|].
  case_bool_decide; [done|]. by apply wp_fmap, wp_run_failed_good.
Qed.

Lemma wp_RunEventReconcile_justified ignored :
  wp (RunEventReconcile scList lsc ignored) [] (λ _ h, always lsc_justified h).
Proof.
  unfold RunEventReconcile. wp_step.
  { eapply wp_mono; [by apply wp_dispatch_good|]. by intros a h' [? _]. }
  apply wp_call_bind. intros got.
  assert (HJ : justified [lev ListLVG got]) by done.
  destruct got as [lvgs|err].
  - eapply wp_mono; [by apply wp_dispatch_good|]. by intros a h' [? _].
  - apply wp_fmap. eapply wp_mono; [by apply wp_run_failed_good|]. by intros a h' [? _].
Qed.

(** C5: every write of a pass over a LocalStorageClass is justified, whatever
    the API server answers.  A StorageClass is only deleted when the listed one
    of that name is this module's; one is only created, with this module's
    provisioner, finalizer and label, for a class that is not being deleted,
    after the finalizer of the class was secured, and after the old one was
    deleted; a finalizer is written on the very object just read, changing
    nothing else; and the finalizer of the LocalStorageClass is only removed
    when its deletion was requested and its StorageClass is gone. *)
Theorem RunEventReconcile_writes_are_justified ignored :
  wp (RunEventReconcile scList lsc ignored) [] (λ _ h, always lsc_justified h).
Proof. apply wp_RunEventReconcile_justified. Qed.

(** ** The nil dereference of hasSCDiff *)

(** Dereferencing spec.lvm panics only when it is nil. *)
Lemma identify_panics eff ignored :
  identifyReconcileFunc scList lsc eff ignored = None →
  lsc_LVM (lsc_Spec lsc) = None ∧ om_DeletionTimestamp (lsc_meta lsc) = None ∧ owned.
Proof.
  unfold identifyReconcileFunc, shouldReconcileByDeleteFunc, shouldReconcileByCreateFunc,
    shouldReconcileByUpdateFunc, hasSCDiff.
  destruct (om_DeletionTimestamp (lsc_meta lsc)); simpl; [done|].
  destruct (find_sc scList (GetName lsc)) as [sc|] eqn:Hf; [|done].
  case_bool_decide; [|done]. intros Hp. split_and!; [|done|by exists sc].
  repeat case_match; simplify_eq; done.
Qed.

Lemma wp_update_no_panic lvgs eff ignored h :
  wp (reconcileLSCUpdateFunc scList lsc lvgs eff ignored) h (λ out _, out ≠ None).
Proof.
  unfold reconcileLSCUpdateFunc.
  destruct (validateLocalStorageClass _ _ _ _) as [valid msg] eqn:Hv.
  destruct valid; simpl; [|by apply wp_fmap].
  assert (Hv' : fst (validateLocalStorageClass scList lsc lvgs eff) = true) by by rewrite Hv.
  apply validate_true in Hv' as (lvm & Hlvm & _).
  destruct (find_sc _ _) as [oldSC|]; [|by apply wp_fmap].
  destruct (hasSCDiff _ _ _ _) as [[[]|err]|] eqn:Hd; try by apply wp_fmap.
  - destruct (updateStorageClass _ _ _ _); [|by apply wp_fmap].
    apply wp_bind. intros [err|] h' _; by apply wp_fmap.
  - unfold hasSCDiff in Hd. rewrite Hlvm in Hd. repeat case_match; simplify_eq.
Qed.

(** A pass panics only in one situation: hasSCDiff dereferences a nil
    spec.lvm, for a class that is not being deleted and whose StorageClass
    exists and is this module's. *)
Lemma RunEventReconcile_panics_only_without_lvm ignored :
  wp (RunEventReconcile scList lsc ignored) [] (λ out _, out = None →
    lsc_LVM (lsc_Spec lsc) = None ∧ om_DeletionTimestamp (lsc_meta lsc) = None ∧ owned).
Proof.
  assert (Hdis : ∀ lvgs h, wp (dispatch scList lsc lvgs ignored) h (λ out _, out = None →
    lsc_LVM (lsc_Spec lsc) = None ∧ om_DeletionTimestamp (lsc_meta lsc) = None ∧ owned)).
  { intros lvgs h. unfold dispatch. cbv zeta.
    destruct (resolveEffectiveLVGs lsc lvgs) as [l|err]; [|case_bool_decide; [|by apply wp_fmap]];
      (destruct (identifyReconcileFunc _ _ _ _) as [[[]|err']|] eqn:Hid; try by apply wp_fmap);
      try (by apply wp_ret); try (apply wp_ret; intros _; by eapply identify_panics);
      (eapply wp_mono; [apply wp_update_no_panic|done]). }
  unfold RunEventReconcile. wp_step; [done|].
  apply wp_call_bind. intros [lvgs|err]; [done|]. by apply wp_fmap.
Qed.
End safety.
