(* ===== verification/LSCLifecycle.v ===== *)
(** * The lifecycle a LocalStorageClass is promised

    An abstract specification of the LocalStorageClass controller, and the
    refinement theorem that a pass implements it.  The specification knows of a
    class only whether it exists, is guarded by the finalizer of this module and
    is being deleted, and whether its StorageClass is provisioned; its point is
    that a provisioned StorageClass always has a guarded class, so none outlives
    its class.  The concrete side is a pass of [RunEventReconcile] against a
    store that behaves as the API server is documented to, interleaved with
    whatever everybody else does, and read through a cache that lags behind it
    by any number of versions. *)

From S2P Require Import Prelude Effects Kube Monitoring LSC LSCValidate LSCReconcile LSCSafety.

Local Open Scope string_scope.

(** ** The specification *)

(** A class: guarded, and being deleted. *)
Abbreviation view := (option (bool * bool)).

Record life := mkLife {
  alive : view;
  provisioned : bool;
}.

Definition guarded_view (v : view) : Prop := ∃ deleting, v = Some (true, deleting).
Definition guarded (a : life) : Prop := guarded_view (alive a).
Definition sound (a : life) : Prop := provisioned a = true → guarded a.

Inductive action := Guard | Release | Provision | Withdraw | Internal
| Stray | Overlook | Redundant.

(** What the controller may do: guard a class that is not being deleted,
    provision a StorageClass for a guarded class, withdraw one, and let go of
    a class that is being deleted and has none.  A class without the guard may
    still carry the finalizer of older releases.  The last three are what it
    should not do and has a name for: provision a StorageClass for a class that
    nothing guards, let a class go that has a StorageClass, and withdraw one
    that is not there any more. *)
Inductive promised : action → life → life → Prop :=
| promised_guard g sc :
    promised Guard (mkLife (Some (g, false)) sc) (mkLife (Some (true, false)) sc)
| promised_provision deleting :
    promised Provision (mkLife (Some (true, deleting)) false)
                       (mkLife (Some (true, deleting)) true)
| promised_withdraw c : promised Withdraw (mkLife c true) (mkLife c false)
| promised_release c : c = None ∨ c = Some (false, true) →
    promised Release (mkLife (Some (true, true)) false) (mkLife c false)
| promised_release_old d sc c : c = None ∧ d = true ∨ c = Some (false, d) →
    promised Release (mkLife (Some (false, d)) sc) (mkLife c sc)
| promised_internal a : promised Internal a a
| promised_stray c : ¬ guarded_view c → promised Stray (mkLife c false) (mkLife c true)
| promised_overlook c : c = None ∨ c = Some (false, true) →
    promised Overlook (mkLife (Some (true, true)) true) (mkLife c true)
| promised_redundant c : promised Redundant (mkLife c false) (mkLife c false).

(** What is asked of the API server. *)
Definition asked (act : action) : action :=
  match act with Stray => Provision | Overlook => Release | Redundant => Withdraw | _ => act end.

(** What everybody else may do: anything but put the finalizer of this module
    on a class or take it off, and create a StorageClass of this module.  A
    guarded class stays, and stays asked to be deleted. *)
Definition others_may (a a' : life) : Prop :=
  (provisioned a' = true → provisioned a = true) ∧
  match alive a, alive a' with
  | Some (true, d), Some (true, d') => d = true → d' = true
  | Some (true, _), _ => False
  | _, Some (true, _) => False
  | _, _ => True
  end.

(** The lives of a class, with the actions of the controller, the latest first. *)
Inductive lifecycle (a0 : life) : list action → life → Prop :=
| life_start : lifecycle a0 [] a0
| life_world acts a a' : lifecycle a0 acts a → others_may a a' → lifecycle a0 acts a'
| life_step act acts a a' :
    lifecycle a0 acts a → promised act a a' → lifecycle a0 (act :: acts) a'.

Lemma others_keep_guard a a' : others_may a a' → guarded a → guarded a'.
Proof.
  intros [_ Hc] [d Ha]. rewrite Ha in Hc. unfold guarded.
  destruct (alive a') as [[[] d']|]; [by eexists|done..].
Qed.

Lemma promised_sound act a a' : promised act a a' → sound a → act ≠ Stray → act ≠ Overlook → sound a'.
Proof.
  destruct 1; unfold sound, guarded, guarded_view; simpl; intros Hs ?? Hp; try done;
    try (destruct (Hs Hp) as [d' Hd]; simplify_eq); eauto.
Qed.

Lemma promised_unprovisioned act a a' :
  promised act a a' → asked act ≠ Provision → provisioned a = false → provisioned a' = false.
Proof. by destruct 1. Qed.

Lemma promised_withdrawn act a a' : promised act a a' → asked act = Withdraw → provisioned a' = false.
Proof. by destruct 1. Qed.

Lemma world_sound a a' : others_may a a' → sound a → sound a'.
Proof. intros Ho Hs Hp. eapply others_keep_guard; [done|]. apply Hs. by apply Ho. Qed.

(** Without a stray creation or an overlooked StorageClass none of the module is
    ever without a guarded class. *)
Lemma lifecycle_sound a0 acts a :
  lifecycle a0 acts a → sound a0 → sound a ∨ Stray ∈ acts ∨ Overlook ∈ acts.
Proof.
  induction 1 as [|acts a a' _ IH Hw|act acts a a' _ IH Hp]; intros Hs; [by left| |].
  - destruct (IH Hs) as [?|?]; [left; by eapply world_sound|by right].
  - rewrite !elem_of_cons. destruct (IH Hs) as [Ha|[?|?]]; [|by auto..].
    destruct act; try (left; by eapply promised_sound); auto.
Qed.

(** ** Versions of a class *)

(** What is known of the versions from the cached one on.  While the cache shows
    a class that is not being deleted, the guard has not been taken off since;
    once it shows one that is, the guard has not been put on since. *)
Record steady (pos : nat) (vs : list view) : Prop := {
  sd_guarded : ∀ k j i g v, (pos ≤ k)%nat → (k ≤ j)%nat → (j ≤ i)%nat → vs !! k = Some (Some (g, false)) →
    (∃ d, vs !! j = Some (Some (true, d))) → vs !! i = Some v → guarded_view v;
  sd_deleting : ∀ k i g, (pos ≤ k)%nat → (k ≤ i)%nat → vs !! k = Some (Some (g, true)) →
    vs !! i ≠ Some (Some (true, false));
}.

Lemma steady_advance pos pos' vs : (pos ≤ pos')%nat → steady pos vs → steady pos' vs.
Proof.
  intros Hle [Hg Hd]. split.
  - intros k j i g v Hk. apply (Hg k j i g v). lia.
  - intros k i g Hk. apply (Hd k i g). lia.
Qed.

(** Versions in sync with the cache. *)
Lemma steady_synced pos vs : (length vs ≤ S pos)%nat → steady pos vs.
Proof.
  intros Hlen. split.
  - intros k j i g v Hk Hkj Hji _ [d Hj] Hi. pose proof (lookup_lt_Some _ _ _ Hi).
    assert (i = j) as -> by lia. exists d. congruence.
  - intros k i g Hk Hki Hv Hi. pose proof (lookup_lt_Some _ _ _ Hi). assert (i = k) as -> by lia. by rewrite Hv in Hi.
Qed.

Lemma lookup_snoc_cases {A} (l : list A) x i y :
  (l ++ [x])%list !! i = Some y → (i < length l)%nat ∧ l !! i = Some y ∨ i = length l ∧ y = x.
Proof.
  intros Hi. destruct (decide (i < length l)%nat) as [Hlt|Hge].
  - left. by rewrite lookup_app_l in Hi.
  - right. pose proof (lookup_lt_Some _ _ _ Hi) as Hl. rewrite length_app in Hl. simpl in Hl.
    assert (i = length l) as -> by lia. rewrite list_lookup_middle in Hi; [|done]. by injection Hi.
Qed.

Lemma last_index {A} (l : list A) x : last l = Some x → l !! pred (length l) = Some x ∧ (0 < length l)%nat.
Proof.
  intros Hl. split; [by rewrite <-last_lookup|]. destruct l; [done|]. simpl. lia.
Qed.

(** A version that neither gains nor loses the guard. *)
Lemma steady_keep pos vs u v :
  last vs = Some u → (guarded_view u → guarded_view v) →
  (v = Some (true, false) → u = Some (true, false)) → steady pos vs → steady pos (vs ++ [v])%list.
Proof.
  intros [Hu Hlen]%last_index Hg Hn [Hsg Hsd]. split.
  - intros k j i g w Hk Hkj Hji Hvk [d Hvj] Hi.
    apply lookup_snoc_cases in Hi as [[Hlt Hi]|[-> ->]].
    + rewrite lookup_app_l in Hvk, Hvj by lia. eauto.
    + apply lookup_snoc_cases in Hvj as [[Hltj Hvj]|[-> <-]]; [|by exists d].
      rewrite lookup_app_l in Hvk by lia. apply Hg.
      eapply (Hsg k j (pred (length vs))); [done|done|lia|done|by exists d|done].
  - intros k i g Hk Hki Hvk Hi. apply lookup_snoc_cases in Hi as [[Hlt Hi]|[-> Hv]].
    + rewrite lookup_app_l in Hvk by lia. by eapply Hsd.
    + apply lookup_snoc_cases in Hvk as [[Hltk Hvk]|[-> <-]]; [|done].
      eapply (Hsd k (pred (length vs)) g); [done|lia|done|]. rewrite Hu. f_equal. by apply Hn.
Qed.

(** A write on the version that was read. *)
Lemma steady_write pos vs u v :
  last vs = Some u → (length vs ≤ S pos)%nat → (u = Some (true, false) → guarded_view v) →
  (∀ g, u = Some (g, true) → v ≠ Some (true, false)) → steady pos (vs ++ [v])%list.
Proof.
  intros [Hu Hlen]%last_index Hpos Hg Hd. split.
  - intros k j i g w Hk Hkj Hji Hvk [d Hvj] Hi.
    apply lookup_snoc_cases in Hi as [[Hlt Hi]|[-> ->]].
    + rewrite lookup_app_l in Hvj by lia. assert (i = j) as -> by lia. exists d. congruence.
    + apply lookup_snoc_cases in Hvj as [[Hltj Hvj]|[-> <-]]; [|by exists d].
      rewrite lookup_app_l in Hvk by lia. assert (k = pred (length vs)) as -> by lia.
      assert (j = pred (length vs)) as -> by lia. apply Hg. congruence.
  - intros k i g Hk Hki Hvk Hi. apply lookup_snoc_cases in Hi as [[Hlt Hi]|[-> Hv]].
    + rewrite lookup_app_l in Hvk by lia. assert (i = k) as -> by lia. by rewrite Hvk in Hi.
    + apply lookup_snoc_cases in Hvk as [[Hltk Hvk]|[-> <-]]; [|done].
      assert (k = pred (length vs)) as -> by lia. eapply (Hd g); [congruence|done].
Qed.

Section refinement.
Context `{LabelSelectors, ApiMachinery, MapRange, RetryOnError, Conditions, !YamlLVGs,
          ConfigYaml}.

Abbreviation hist := (history lscSig).
Abbreviation lev := (Ev (S := lscSig)).

(** ** The store *)

(** The objects of one name: every version of the class the API server has had,
    [None] where there was none, the last of them the one it has; the version
    the cache of the controller shows; and the StorageClass. *)
Record store := mkStore {
  st_log : list (option LocalStorageClass);
  st_pos : nat;
  st_sc : option StorageClass;
}.

Definition st_class (s : store) : option LocalStorageClass := default None (last (st_log s)).
Definition st_cached (s : store) : option LocalStorageClass := default None (st_log s !! st_pos s).

Definition requested {T} `{Object T} (t : T) : bool :=
  bool_decide (is_Some (GetDeletionTimestamp t)).

Definition view_of (v : option LocalStorageClass) : view :=
  (λ l, (contains (GetFinalizers l) LocalStorageClassFinalizerName, requested l)) <$> v.
Definition views (s : store) : list view := view_of <$> st_log s.

Definition life_of (s : store) : life := mkLife (view_of (st_class s))
  match st_sc s with
  | Some sc => bool_decide (sc_Provisioner sc = LocalStorageClassProvisioner)
               && negb (requested sc)
  | None => false
  end.

Definition version_of (l : LocalStorageClass) : string := om_ResourceVersion (lsc_meta l).

(** Every version has a ResourceVersion of its own. *)
Definition fresh_version (v : option LocalStorageClass) (log : list (option LocalStorageClass)) : Prop :=
  ∀ l l', v = Some l → Some l' ∈ log → version_of l' ≠ version_of l.

Definition with_version (s : store) (v : option LocalStorageClass) : store :=
  mkStore (st_log s ++ [v]) (st_pos s) (st_sc s).

(** What an update stores: the finalizers it asks for, none of them new on an
    object that is being deleted, and the deletion timestamp of the server. *)
Definition stored_over {T} `{Object T} (cur o stored : T) : Prop :=
  GetDeletionTimestamp stored = GetDeletionTimestamp cur ∧
  GetFinalizers stored = GetFinalizers o ∧
  (requested cur = true → ∀ f, f ∈ GetFinalizers o → f ∈ GetFinalizers cur).

(** An object that is being deleted goes away with its last finalizer. *)
Definition kept {T} `{Object T} (t : T) : option T :=
  if requested t && bool_decide (GetFinalizers t = []) then None else Some t.

(** Documented behaviour of the API server and of the cache, on the requests of
    a pass about the name: a class is read as the cache shows it, an update is
    refused unless it carries the ResourceVersion the server has, a failed write
    changes nothing, and whether one fails is open. *)
Definition serves (name : string) (s : store) (e : event lscSig) (s' : store) : Prop :=
  match ev_op e as o return lsc_res o → Prop with
  | GetObj KLSC _ n => λ r, s' = s ∧ ∀ l, r = inl l → n = name → st_cached s = Some l
  | UpdateObj KLSC o => λ r,
      match r with
      | inl stored => ∃ cur, st_class s = Some cur ∧ version_of o = version_of cur ∧
          stored_over (T := LocalStorageClass) cur o stored ∧
          fresh_version (kept (T := LocalStorageClass) stored) (st_log s) ∧
          s' = with_version s (kept (T := LocalStorageClass) stored)
      | inr _ => s' = s
      end
  | UpdateObj KSC o => λ r,
      match r with
      | inl stored => ∃ cur, st_sc s = Some cur ∧
          stored_over (T := StorageClass) cur o stored ∧
          sc_Provisioner stored = sc_Provisioner cur ∧
          s' = mkStore (st_log s) (st_pos s) (kept (T := StorageClass) stored)
      | inr _ => s' = s
      end
  | CreateSC sc => λ r,
      match r with
      | inl stored => st_sc s = None ∧ sc_Provisioner stored = sc_Provisioner sc ∧
          requested stored = false ∧ s' = mkStore (st_log s) (st_pos s) (Some stored)
      | inr _ => s' = s
      end
  | DeleteSC _ => λ r,
      match r with
      | None => st_log s' = st_log s ∧ st_pos s' = st_pos s ∧
                ∀ sc, st_sc s' = Some sc → requested sc = true
      | Some _ => s' = s
      end
  | UpdateStatus _ _ _ _ => λ _, s' = s ∨
      ∃ cur new, st_class s = Some cur ∧ GetFinalizers new = GetFinalizers cur ∧
        GetDeletionTimestamp new = GetDeletionTimestamp cur ∧
        fresh_version (Some new) (st_log s) ∧ s' = with_version s (Some new)
  | _ => λ _, s' = s
  end (ev_res e).

(** Everybody else: a version of the class, something of the StorageClass, or
    the cache catches up. *)
Definition world_may (s s' : store) : Prop :=
  others_may (life_of s) (life_of s') ∧ (st_pos s ≤ st_pos s')%nat ∧
  (st_log s' = st_log s ∨
   ∃ v, fresh_version v (st_log s) ∧ st_log s' = (st_log s ++ [v])%list).

(** A pass against the store, interleaved with everybody else. *)
Inductive system (name : string) (s0 : store) : hist → store → Prop :=
| system_start : system name s0 [] s0
| system_world h s s' : system name s0 h s → world_may s s' → system name s0 h s'
| system_event h s e s' :
    system name s0 h s → serves name s e s' → system name s0 (e :: h) s'.

(** What passes leave behind, and the next one relies on: the versions of the
    class can be told apart, and are as the cache lets expect. *)
Record consistent (s : store) : Prop := {
  con_versions : ∀ i j l l', st_log s !! i = Some (Some l) → st_log s !! j = Some (Some l') →
    version_of l = version_of l' → i = j;
  con_steady : steady (st_pos s) (views s);
}.

(** The action a request amounts to. *)
Definition action_of (e : event lscSig) : action :=
  match ev_op e as o return lsc_res o → action with
  | UpdateObj KLSC o => λ r,
      match r with
      | inl _ => if contains (GetFinalizers (T := LocalStorageClass) o) LocalStorageClassFinalizerName
                 then Guard else Release
      | inr _ => Internal
      end
  | CreateSC _ => λ r, match r with inl _ => Provision | inr _ => Internal end
  | DeleteSC _ => λ r, match r with None => Withdraw | Some _ => Internal end
  | _ => λ _, Internal
  end (ev_res e).

(** A cache that shows the last version, of a log of one. *)
Lemma consistent_synced c sc : consistent (mkStore [c] 0 sc).
Proof.
  split; [|by apply steady_synced].
  intros i j l l' Hi%lookup_lt_Some Hj%lookup_lt_Some _. simpl in *. lia.
Qed.

Lemma views_snoc s s' v : st_log s' = (st_log s ++ [v])%list → views s' = (views s ++ [view_of v])%list.
Proof. intros Hl. unfold views. by rewrite Hl, fmap_app. Qed.

Lemma last_view s : (0 < length (st_log s))%nat → last (views s) = Some (alive (life_of s)).
Proof.
  intros Hlen. unfold views, life_of, st_class. cbn [alive]. rewrite fmap_last.
  destruct (last (st_log s)) eqn:E; [done|]. apply last_None in E. rewrite E in Hlen. simpl in Hlen. lia.
Qed.

Lemma alive_snoc s s' v : st_log s' = (st_log s ++ [v])%list → alive (life_of s') = view_of v.
Proof. intros Hl. unfold life_of, st_class. simpl. by rewrite Hl, last_snoc. Qed.

Lemma versions_snoc s s' v :
  st_log s' = (st_log s ++ [v])%list → fresh_version v (st_log s) →
  (∀ i j l l', st_log s !! i = Some (Some l) → st_log s !! j = Some (Some l') →
    version_of l = version_of l' → i = j) →
  ∀ i j l l', st_log s' !! i = Some (Some l) → st_log s' !! j = Some (Some l') →
    version_of l = version_of l' → i = j.
Proof.
  intros -> Hf Hd i j l l' Hi Hj Hv.
  apply lookup_snoc_cases in Hi as [[Hli Hi]|[-> Hi]], Hj as [[Hlj Hj]|[-> Hj]]; [by eapply Hd| | |done].
  - destruct (Hf l' l (eq_sym Hj)); [by eapply list_elem_of_lookup_2|done].
  - destruct (Hf l l' (eq_sym Hi)); [by eapply list_elem_of_lookup_2|done].
Qed.

(** ** The versions, in a pass *)

Context (scList : list StorageClass) (lsc : LocalStorageClass).

Abbreviation owned := (owned scList lsc).
Abbreviation released := (released scList lsc).
Abbreviation secured := (secured lsc).

Lemma requested_true {T} `{Object T} (t : T) : requested t = true ↔ GetDeletionTimestamp t ≠ None.
Proof.
  unfold requested. rewrite bool_decide_eq_true.
  destruct (GetDeletionTimestamp t); split; try done; eauto.
Qed.

Lemma requested_false (t : LocalStorageClass) :
  requested t = false ↔ om_DeletionTimestamp (lsc_meta t) = None.
Proof. unfold requested. by rewrite bool_decide_eq_false, <-eq_None_not_Some. Qed.

(** The pass is given the class the cache shows, of any age, and any list of
    StorageClasses. *)
Definition starts (s0 : store) : Prop := st_cached s0 = Some lsc.

(** A read of the class in a pass that saw it without a deletion request finds
    it being deleted, and without the guard. *)
Definition slipped (h : hist) : Prop :=
  requested lsc = false ∧
  ∃ ns (fresh : LocalStorageClass), lev (GetObj KLSC ns (GetName lsc)) (inl fresh) ∈ h ∧
    requested fresh = true ∧ LocalStorageClassFinalizerName ∉ GetFinalizers fresh.

Section versions.
Context (p0 : nat).

(** A version as new as the one the pass started from had the guard. *)
Definition seen_guarded (s : store) : Prop :=
  ∃ j, (p0 ≤ j)%nat ∧ ∃ d, views s !! j = Some (Some (true, d)).

(** What a pass knows of the versions of the class. *)
Record located (h : hist) (s : store) : Prop := {
  lo_consistent : consistent s;
  lo_start : st_log s !! p0 = Some (Some lsc) ∧ (p0 ≤ st_pos s)%nat;
  lo_read : ∀ ns (fresh : LocalStorageClass),
    lev (GetObj KLSC ns (GetName lsc)) (inl fresh) ∈ h →
    ∃ p, (p0 ≤ p)%nat ∧ (p ≤ st_pos s)%nat ∧ st_log s !! p = Some (Some fresh);
  lo_written : ∀ o r : LocalStorageClass, lev (UpdateObj KLSC o) (inl r) ∈ h →
    LocalStorageClassFinalizerName ∈ GetFinalizers o → seen_guarded s;
  lo_guarded : requested lsc = false → seen_guarded s → guarded (life_of s);
  lo_deleting : requested lsc = true → ∀ i, (p0 ≤ i)%nat → views s !! i ≠ Some (Some (true, false));
}.

Lemma view_at s i l : st_log s !! i = Some (Some l) →
  views s !! i = Some (Some (contains (GetFinalizers l) LocalStorageClassFinalizerName, requested l)).
Proof. intros Hl. unfold views. by rewrite list_lookup_fmap, Hl. Qed.

Lemma cached_at s l : st_cached s = Some l → st_log s !! st_pos s = Some (Some l).
Proof. unfold st_cached. by destruct (st_log s !! st_pos s) as [v|]; simpl; [intros ->|]. Qed.

Lemma class_at s l : st_class s = Some l → st_log s !! pred (length (st_log s)) = Some (Some l).
Proof. unfold st_class. rewrite <-last_lookup. by destruct (last (st_log s)) as [v|]; simpl; [intros ->|]. Qed.

Lemma seen_guarded_grows s s' v :
  (st_log s' = st_log s ∨ st_log s' = (st_log s ++ [v])%list) → seen_guarded s → seen_guarded s'.
Proof.
  intros Hl (j & Hj & d & Hv). exists j. split; [done|]. exists d. destruct Hl as [Hl|Hl].
  - unfold views. by rewrite Hl.
  - rewrite (views_snoc _ _ _ Hl). by apply lookup_app_l_Some.
Qed.

(** A step that leaves the versions alone. *)
Lemma located_same h s s' :
  st_log s' = st_log s → (st_pos s ≤ st_pos s')%nat → alive (life_of s') = alive (life_of s) →
  located h s → located h s'.
Proof.
  intros Hl Hp Ha [[Hv Hs] [Hst Hp0] Hr Hw Hg Hd].
  assert (Hvs : views s' = views s) by (unfold views; by rewrite Hl).
  split; [split| | | | |]; unfold seen_guarded, guarded in *; rewrite ?Hl, ?Hvs, ?Ha; try done.
  - by eapply steady_advance.
  - split; [done|lia].
  - intros ns fresh Hin. destruct (Hr ns fresh Hin) as (p & ? & ? & ?). exists p. split_and!; [done|lia|done].
Qed.

(** A step that adds a version. *)
Lemma located_snoc h s s' v :
  st_log s' = (st_log s ++ [v])%list → (st_pos s ≤ st_pos s')%nat → fresh_version v (st_log s) →
  steady (st_pos s) (views s ++ [view_of v])%list →
  (requested lsc = false → guarded (life_of s) → guarded_view (view_of v)) →
  (requested lsc = true → view_of v = Some (true, false) → alive (life_of s) = Some (true, false)) →
  located h s → located h s'.
Proof.
  intros Hl Hp Hf Hsd Hgv Hdv [[Hv Hs] [Hst Hp0] Hr Hw Hg Hd].
  pose proof (views_snoc _ _ _ Hl) as Hvs. pose proof (alive_snoc _ _ _ Hl) as Ha.
  assert (Hlen : (p0 < length (st_log s))%nat) by by eapply lookup_lt_Some. split.
  - split; [by eapply versions_snoc|]. rewrite Hvs. by eapply steady_advance.
  - rewrite Hl. split; [by apply lookup_app_l_Some|lia].
  - intros ns fresh Hin. destruct (Hr ns fresh Hin) as (p & ? & ? & ?). exists p. rewrite Hl.
    split_and!; [done|lia|by apply lookup_app_l_Some].
  - intros o r Hin Ho. eapply seen_guarded_grows; [by right|]. by eapply Hw.
  - intros Hreq (j & Hj & d & Hvj). unfold guarded. rewrite Ha. rewrite Hvs in Hvj.
    apply lookup_snoc_cases in Hvj as [[_ Hvj]|[_ <-]]; [|by exists d].
    apply Hgv; [done|]. apply Hg; [done|]. by exists j; eauto.
  - intros Hreq i Hi Hvi. rewrite Hvs in Hvi.
    apply lookup_snoc_cases in Hvi as [[_ Hvi]|[_ Hvi]]; [by eapply Hd|].
    pose proof (last_view s ltac:(lia)) as Hlast. apply last_index in Hlast as [Hlast _].
    apply (Hd Hreq (pred (length (views s)))).
    + unfold views. rewrite length_fmap. lia.
    + rewrite Hlast. f_equal. by apply Hdv.
Qed.

Lemma located_world h s s' : world_may s s' → located h s → located h s'.
Proof.
  intros (Ho & Hp & [Hl|(v & Hf & Hl)]) Hlo.
  - apply (located_same h s); try done. unfold life_of, st_class. simpl. by rewrite Hl.
  - assert (Ha := alive_snoc _ _ _ Hl). destruct Ho as [Hsc Hal]. rewrite Ha in Hal.
    assert (Hk : guarded (life_of s) → guarded_view (view_of v)).
    { intros [d Hd]. rewrite Hd in Hal. destruct (view_of v) as [[[] d']|]; [by eexists|done..]. }
    assert (Hn : view_of v = Some (true, false) → alive (life_of s) = Some (true, false)).
    { intros Hv. rewrite Hv in Hal. destruct (alive (life_of s)) as [[[] []]|]; try done.
      by specialize (Hal eq_refl). }
    eapply located_snoc; eauto. eapply steady_keep; [|done|done|apply Hlo].
    apply last_view. destruct (lo_start _ _ Hlo) as [Hst _]. apply lookup_lt_Some in Hst. lia.
Qed.
End versions.

Lemma located_start s0 : starts s0 → consistent s0 → located (st_pos s0) [] s0.
Proof.
  intros Hst%cached_at Hc. pose proof (view_at _ _ _ Hst) as Hv. destruct (con_steady _ Hc) as [Hg Hd].
  assert (Hlen : (st_pos s0 < length (st_log s0))%nat) by by eapply lookup_lt_Some.
  split; [done|split; [exact Hst|apply Nat.le_refl]|by intros ?? []%elem_of_nil|by intros ?? []%elem_of_nil| |].
  - intros Hreq (j & Hj & d & Hvj). rewrite Hreq in Hv. unfold guarded.
    pose proof (last_view s0 ltac:(lia)) as Hlast. apply last_index in Hlast as [Hlast _].
    pose proof (lookup_lt_Some _ _ _ Hvj).
    apply (Hg (st_pos s0) j (pred (length (views s0))) (contains (GetFinalizers lsc)
      LocalStorageClassFinalizerName)); [lia|done|lia|done|by exists d|done].
  - intros Hreq i Hi. rewrite Hreq in Hv. eapply Hd; [|done|done]. lia.
Qed.


(** ** The requests *)

(** What an event adds to what a pass knows. *)
Lemma located_event p0 h e s s' :
  located p0 h s' →
  (∀ ns (fresh : LocalStorageClass), e = lev (GetObj KLSC ns (GetName lsc)) (inl fresh) →
    s' = s ∧ st_cached s = Some fresh) →
  (∀ o r : LocalStorageClass, e = lev (UpdateObj KLSC o) (inl r) →
    LocalStorageClassFinalizerName ∈ GetFinalizers o → seen_guarded p0 s') →
  located p0 (e :: h) s'.
Proof.
  intros [Hc Hst Hr Hw Hg Hd] Hread Hwrite. split; try done.
  - intros ns fresh [Heq|Hin]%elem_of_cons; [|by eapply Hr].
    destruct (Hread ns fresh (eq_sym Heq)) as [-> Hcached%cached_at].
    exists (st_pos s). split_and!; [apply Hst|lia|done].
  - intros o r [Heq|Hin]%elem_of_cons; [by eapply Hwrite|by eapply Hw].
Qed.

(** What is written on is what was read, and the cache is up to date. *)
Lemma written_on_read p0 ns (fresh cur : LocalStorageClass) past s :
  located p0 (lev (GetObj KLSC ns (GetName lsc)) (inl fresh) :: past) s →
  st_class s = Some cur → version_of fresh = version_of cur →
  cur = fresh ∧ (length (views s) ≤ S (st_pos s))%nat ∧ (p0 < length (st_log s))%nat.
Proof.
  intros Hlo Hcur%class_at Hv.
  destruct (lo_read _ _ _ Hlo ns fresh ltac:(by left)) as (p & Hp0 & Hp & Hf).
  pose proof (con_versions _ (lo_consistent _ _ _ Hlo) _ _ _ _ Hf Hcur Hv) as ->.
  pose proof (lookup_lt_Some _ _ _ Hf). rewrite Hcur in Hf. unfold views. rewrite length_fmap.
  split_and!; [congruence|lia|lia].
Qed.

Lemma without_no_guard (o : LocalStorageClass) :
  LocalStorageClassFinalizerName ∉ GetFinalizers (without_finalizers (k := KLSC) o).
Proof.
  unfold without_finalizers, GetFinalizers. rewrite meta_with_meta. simpl.
  rewrite list_elem_of_In, filter_In. intros [_ Hx]. apply negb_true_iff, contains_false in Hx.
  apply Hx. unfold localStorageClassFinalizers. by left.
Qed.

Lemma with_guard (o : LocalStorageClass) :
  LocalStorageClassFinalizerName ∈ GetFinalizers (with_finalizer (k := KLSC) o).
Proof.
  unfold with_finalizer, GetFinalizers. rewrite meta_with_meta. simpl.
  apply elem_of_app. right. by left.
Qed.

Lemma view_stored_guarded (cur o stored : LocalStorageClass) :
  stored_over cur o stored → LocalStorageClassFinalizerName ∈ GetFinalizers o →
  view_of (kept stored) = Some (true, requested cur).
Proof.
  intros (Hd & Hf & _) Hin. unfold kept. rewrite bool_decide_false, andb_false_r.
  - unfold view_of. simpl. apply contains_true in Hin. by rewrite Hf, Hin; unfold requested; rewrite Hd.
  - rewrite Hf. intros Hnil. rewrite Hnil in Hin. by apply elem_of_nil in Hin.
Qed.

Lemma view_stored_free (cur o stored : LocalStorageClass) :
  stored_over cur o stored → LocalStorageClassFinalizerName ∉ GetFinalizers o →
  view_of (kept stored) = None ∧ requested cur = true ∨
  view_of (kept stored) = Some (false, requested cur).
Proof.
  intros (Hd & Hf & _) Hin.
  assert (Hr : requested stored = requested cur) by (unfold requested; by rewrite Hd).
  unfold kept. rewrite Hr, Hf. destruct (requested cur && _) eqn:E; [left; by apply andb_prop in E as [? _]|].
  right. unfold view_of. simpl. apply contains_false in Hin. by rewrite Hf, Hin, Hr.
Qed.

Lemma view_class s cur : st_class s = Some cur →
  alive (life_of s) = Some (contains (GetFinalizers cur) LocalStorageClassFinalizerName, requested cur).
Proof. intros Hc. unfold life_of. simpl. by rewrite Hc. Qed.

Lemma life_eta a : a = mkLife (alive a) (provisioned a).
Proof. by destruct a. Qed.

Lemma life_with_version s v : life_of (with_version s v) = mkLife (view_of v) (provisioned (life_of s)).
Proof. rewrite (life_eta (life_of _)). by rewrite (alive_snoc s _ v). Qed.

(** The finalizer is put on. *)
Lemma guard_step p0 ns (fresh r : LocalStorageClass) past s s' :
  let h := lev (GetObj KLSC ns (GetName lsc)) (inl fresh) :: past in
  let e := lev (UpdateObj KLSC (with_finalizer (k := KLSC) fresh)) (inl r) in
  located p0 h s → requested lsc = false → requested fresh = false → serves (GetName lsc) s e s' →
  promised Guard (life_of s) (life_of s') ∧ located p0 (e :: h) s' ∧ guarded (life_of s').
Proof.
  intros h e Hlo Hreq Hnd (cur & Hcur & Hv & Hst & Hf & ->).
  destruct (written_on_read _ _ _ _ _ _ Hlo Hcur Hv) as (-> & Hlen & Hp0).
  pose proof (view_stored_guarded _ _ _ Hst (with_guard fresh)) as Hview. rewrite Hnd in Hview.
  pose proof (view_class _ _ Hcur) as Ha. rewrite Hnd in Ha.
  assert (Ha' : alive (life_of (with_version s (kept r))) = Some (true, false))
    by (by rewrite (alive_snoc s _ (kept r))).
  assert (Hlast : last (views s) = Some (alive (life_of s))) by (apply last_view; lia).
  assert (Hlo' : located p0 h (with_version s (kept r))).
  { eapply (located_snoc p0 h s _ (kept r)); try done; rewrite Hview; [|by eexists|congruence].
    eapply steady_write; [done|done|by eexists|]. rewrite Ha. by intros g [=]. }
  split_and!.
  - rewrite life_with_version, Hview, (life_eta (life_of s)), Ha. constructor.
  - apply (located_event p0 h e s); [done|by intros|]. intros o r' _ _.
    exists (length (st_log s)). split; [lia|]. exists false. rewrite (views_snoc s _ (kept r)) by done.
    rewrite <-(length_fmap view_of). rewrite list_lookup_middle by done. by rewrite Hview.
  - by exists false.
Qed.

(** The finalizers are taken off. *)
Lemma release_step p0 ns (fresh r : LocalStorageClass) past s s' :
  let h := lev (GetObj KLSC ns (GetName lsc)) (inl fresh) :: past in
  let e := lev (UpdateObj KLSC (without_finalizers (k := KLSC) fresh)) (inl r) in
  located p0 h s → requested lsc = true → serves (GetName lsc) s e s' →
  (promised Release (life_of s) (life_of s') ∨
   provisioned (life_of s) = true ∧ promised Overlook (life_of s) (life_of s')) ∧
  located p0 (e :: h) s'.
Proof.
  intros h e Hlo Hreq (cur & Hcur & Hv & Hst & Hf & ->).
  destruct (written_on_read _ _ _ _ _ _ Hlo Hcur Hv) as (-> & Hlen & Hp0).
  pose proof (view_stored_free _ _ _ Hst (without_no_guard fresh)) as Hview.
  pose proof (view_class _ _ Hcur) as Ha.
  assert (Hlast : last (views s) = Some (alive (life_of s))) by (apply last_view; lia).
  assert (Hfree : ∀ d, view_of (kept r) ≠ Some (true, d)) by (by destruct Hview as [[-> _]| ->]; intros ? [=]).
  assert (Hold : alive (life_of s) ≠ Some (true, false)).
  { pose proof (last_index _ _ Hlast) as [Hi _]. intros Heq. rewrite Heq in Hi.
    eapply (lo_deleting _ _ _ Hlo Hreq); [|exact Hi]. unfold views. rewrite length_fmap. lia. }
  assert (Hlo' : located p0 h (with_version s (kept r))).
  { eapply (located_snoc p0 h s _ (kept r)); try done; [|congruence|by intros _ ?%Hfree].
    eapply steady_write; [done..|]. by intros g _ ?%Hfree. }
  split; [|apply (located_event p0 h e s); [done|by intros|]].
  - rewrite life_with_version. clear -Ha Hold Hview. destruct (life_of s) as [al sc].
    cbn [alive provisioned] in *. subst al. destruct (contains _ _), (requested fresh); [|done|..].
    + destruct sc; [right; split; [done|]|left]; constructor; tauto.
    + left. constructor. tauto.
    + left. constructor. right. by destruct Hview as [[_ ?]|?].
  - intros o r' Heq Ho. exfalso.
    apply (f_equal (λ e : event lscSig, match ev_op e with UpdateObj KLSC o => o | _ => lsc end)) in Heq. simpl in Heq.
    subst o. by apply without_no_guard in Ho.
Qed.

(** ** The refinement *)

Record established (p0 : nat) (a0 : life) (h : hist) (acts : list action) (s : store) : Prop := {
  es_located : located p0 h s;
  es_run : lifecycle a0 acts (life_of s);
  es_asked : map asked acts = map action_of h;
  es_withdrawn : sound a0 → Withdraw ∈ map action_of h →
    seen_guarded p0 s ∨ Redundant ∈ acts ∨ Stray ∈ acts ∨ Overlook ∈ acts;
  es_released : requested lsc = true → Withdraw ∈ map action_of h → provisioned (life_of s) = false;
  es_stray : sound a0 → Stray ∈ acts → slipped h ∨ Redundant ∈ acts;
  es_overlook : Overlook ∈ acts → requested lsc = true ∧ ¬ owned;
}.

(** When an action is one of this pass. *)
Definition excused (a0 : life) (h : hist) (acts : list action) (act : action) : Prop :=
  match act with
  | Provision => requested lsc = false
  | Stray => requested lsc = false ∧ (sound a0 → slipped h ∨ Redundant ∈ acts)
  | Overlook => requested lsc = true ∧ ¬ owned
  | _ => True
  end.

Lemma guarded_is_seen p0 h s : located p0 h s → guarded (life_of s) → seen_guarded p0 s.
Proof.
  intros Hlo [d Hg]. destruct (lo_start _ _ _ Hlo) as [Hst%lookup_lt_Some _].
  pose proof (last_view s ltac:(lia)) as [Hlast _]%last_index. rewrite Hg in Hlast.
  exists (pred (length (views s))). split; [unfold views; rewrite length_fmap; lia|by exists d].
Qed.

Lemma slipped_cons h e : slipped h → slipped (e :: h).
Proof.
  intros (Hr & ns & f & Hin & Hrest). split; [done|]. exists ns, f.
  split; [apply elem_of_cons; by right|done].
Qed.

Lemma established_start s0 : starts s0 → consistent s0 → established (st_pos s0) (life_of s0) [] [] s0.
Proof.
  intros Hst Hc. split; try (by intros ??%elem_of_nil) || (by intros ?%elem_of_nil); try done;
    [by apply located_start|constructor].
Qed.

Lemma established_world p0 a0 h acts s s' :
  world_may s s' → established p0 a0 h acts s → established p0 a0 h acts s'.
Proof.
  intros Hw [Hlo Hrun Has Hwi Hre Hst Hov]. assert (Hw' := Hw). destruct Hw' as (Ho & _ & Hl).
  split; try done.
  - by eapply located_world.
  - by eapply life_world.
  - intros Hs0 Hin. destruct (Hwi Hs0 Hin) as [Hseen|?]; [left|by right].
    destruct Hl as [Hl|(v & _ & Hl)]; eapply (seen_guarded_grows p0 s s'); eauto.
  - intros Hreq Hin. specialize (Hre Hreq Hin). destruct (provisioned (life_of s')) eqn:E; [|done].
    by rewrite (proj1 Ho E) in Hre.
  Unshelve. exact None.
Qed.

Lemma established_step p0 a0 h acts s e s' act :
  established p0 a0 h acts s → located p0 (e :: h) s' →
  promised act (life_of s) (life_of s') → asked act = action_of e → excused a0 h acts act →
  (∃ v, st_log s' = st_log s ∨ st_log s' = (st_log s ++ [v])%list) →
  established p0 a0 (e :: h) (act :: acts) s'.
Proof.
  intros [Hlo Hrun Has Hwi Hre Hst Hov] Hlo' Hp Hask Hex [v Hl].
  assert (Hgrow : seen_guarded p0 s → seen_guarded p0 s') by (by apply (seen_guarded_grows p0 s s' v)).
  split; simpl; [done|by eapply life_step|by rewrite Has, Hask| | | |].
  - intros Hs0. rewrite !elem_of_cons. intros [Hw|Hin].
    + rewrite <-Hw in Hask. destruct (lifecycle_sound _ _ _ Hrun Hs0) as [Hs|?]; [|tauto].
      destruct act; try done; [left|tauto]. apply Hgrow. eapply guarded_is_seen; [done|]. apply Hs.
      by inversion Hp.
    + destruct (Hwi Hs0 Hin) as [?|[?|?]]; tauto.
  - intros Hreq. rewrite elem_of_cons. intros [Hw|Hin].
    + rewrite <-Hw in Hask. by destruct act; try done; apply (promised_withdrawn _ _ _ Hp).
    + specialize (Hre Hreq Hin). refine (promised_unprovisioned _ _ _ Hp _ Hre).
      destruct act; simpl in Hex; try done; [congruence|by destruct Hex; congruence].
  - intros Hs0. rewrite !elem_of_cons. intros [<-|Hin].
    + destruct Hex as [_ Hex]. destruct (Hex Hs0); [left; by apply slipped_cons|tauto].
    + destruct (Hst Hs0 Hin); [left; by apply slipped_cons|tauto].
  - rewrite elem_of_cons. intros [<-|Hin]; [done|by apply Hov].
Qed.

(** One request: an action that is promised, and one of this pass. *)
Definition accounted (p0 : nat) (a0 : life) (h : hist) (acts : list action) (s : store)
    (e : event lscSig) (s' : store) (act : action) : Prop :=
  promised act (life_of s) (life_of s') ∧ asked act = action_of e ∧ excused a0 h acts act ∧
  located p0 (e :: h) s' ∧ ∃ v, st_log s' = st_log s ∨ st_log s' = (st_log s ++ [v])%list.

Definition writes_class (e : event lscSig) : bool :=
  match ev_op e with GetObj KLSC _ _ | UpdateObj KLSC _ => true | _ => false end.

Lemma located_elsewhere p0 h e s' :
  writes_class e = false → located p0 h s' → located p0 (e :: h) s'.
Proof.
  intros He Hlo. apply (located_event p0 h e s'); [done|..].
  - intros ns fresh ->. done.
  - intros o r ->. done.
Qed.

Lemma accounted_internal p0 a0 h acts s e s' :
  action_of e = Internal → life_of s' = life_of s → located p0 (e :: h) s' →
  (∃ v, st_log s' = st_log s ∨ st_log s' = (st_log s ++ [v])%list) →
  accounted p0 a0 h acts s e s' Internal.
Proof. intros Ha Hl Hlo Hg. split; [rewrite Hl; constructor|by rewrite Ha]. Qed.

(** A request that changes nothing. *)
Lemma accounted_nothing p0 a0 h acts s e :
  action_of e = Internal → established p0 a0 h acts s →
  (∀ ns (fresh : LocalStorageClass), e = lev (GetObj KLSC ns (GetName lsc)) (inl fresh) →
    st_cached s = Some fresh) →
  (∀ o r : LocalStorageClass, e ≠ lev (UpdateObj KLSC o) (inl r)) →
  accounted p0 a0 h acts s e s Internal.
Proof.
  intros Ha Hest Hr Hw. apply accounted_internal; [done..| |exists None; by left].
  apply (located_event p0 h e s); [apply Hest| |by intros o r ?%Hw]. intros ns fresh He. split; [done|by eapply Hr].
Qed.

(** An update of the StorageClass leaves it as provisioned as it was. *)
Lemma life_update_sc log pos (cur o stored : StorageClass) :
  stored_over cur o stored → sc_Provisioner stored = sc_Provisioner cur →
  life_of (mkStore log pos (kept stored)) = life_of (mkStore log pos (Some cur)).
Proof.
  intros (Hd & _ & _) Hp. unfold life_of, kept, requested. simpl. f_equal. rewrite Hd.
  destruct (GetDeletionTimestamp cur) as [d|] eqn:E; simpl.
  - rewrite andb_false_r. case_bool_decide; [done|]. by rewrite Hd, andb_false_r.
  - by rewrite Hp, Hd.
Qed.

Lemma located_sc p0 h s s' :
  st_log s' = st_log s → st_pos s' = st_pos s → located p0 h s → located p0 h s'.
Proof.
  intros Hl Hp. apply located_same; [done|lia|]. unfold life_of, st_class. simpl. by rewrite Hl.
Qed.

(** The StorageClass is provisioned. *)
Lemma accounted_create p0 a0 h acts s sc (stored : StorageClass) s' :
  let e := lev (CreateSC sc) (inl stored) in
  established p0 a0 h acts s → lsc_justified scList lsc e h → serves (GetName lsc) s e s' →
  ∃ act, accounted p0 a0 h acts s e s' act.
Proof.
  intros e Hest ((_ & Hours & _) & Hdel & Hrel & Hev) (Hnone & Hp & Hnew & ->).
  assert (Hreq : requested lsc = false) by (by apply requested_false).
  pose proof (es_located _ _ _ _ _ Hest) as Hlo.
  assert (Hlo' : located p0 (e :: h) (mkStore (st_log s) (st_pos s) (Some stored)))
    by (apply (located_elsewhere p0 h e); [done|by apply (located_sc p0 h s)]).
  assert (Ha : life_of s = mkLife (alive (life_of s)) false) by (unfold life_of; by rewrite Hnone).
  assert (Ha' : life_of (mkStore (st_log s) (st_pos s) (Some stored)) = mkLife (alive (life_of s)) true).
  { unfold life_of. simpl. by rewrite Hp, Hours, Hnew, bool_decide_true. }
  assert (Hgrow : ∃ v, st_log (mkStore (st_log s) (st_pos s) (Some stored)) = st_log s ∨
                       st_log (mkStore (st_log s) (st_pos s) (Some stored)) = (st_log s ++ [v])%list)
    by (exists None; by left).
  destruct (decide (∃ d, alive (life_of s) = Some (true, d))) as [[d Hg]|Hg].
  { exists Provision. split; [rewrite Ha', Ha, Hg; constructor|]. by split_and!. }
  exists Stray. split; [rewrite Ha', Ha; by constructor|]. split; [done|]. split; [|done]. split; [done|].
  intros Hs0. pose proof (lo_guarded _ _ _ Hlo Hreq) as Hseen.
  destruct Hev as [Ho|[_ [Hf|[(ns & fresh & Hin & Hf)|(o & r & Hin & Hf)]]]].
  - destruct (Hrel Ho) as (o & Hin & _).
    assert (Hw : Withdraw ∈ map action_of h) by (by apply (list_elem_of_fmap_2 action_of) in Hin).
    destruct (es_withdrawn _ _ _ _ _ Hest Hs0 Hw) as [?|[?|[?|[? _]%(es_overlook _ _ _ _ _ Hest)]]];
      [by destruct Hg; apply Hseen|by right|by apply (es_stray _ _ _ _ _ Hest)|congruence].
  - destruct Hg. apply Hseen. exists p0. split; [lia|]. destruct (lo_start _ _ _ Hlo) as [Hst _].
    exists (requested lsc). rewrite (view_at _ _ _ Hst). apply contains_true in Hf. by rewrite Hf.
  - destruct (decide (LocalStorageClassFinalizerName ∈ GetFinalizers fresh)) as [Hy|Hn].
    + destruct Hg. apply Hseen. destruct (lo_read _ _ _ Hlo _ _ Hin) as (p & Hp0 & _ & Hat).
      exists p. split; [done|]. exists (requested fresh). rewrite (view_at _ _ _ Hat).
      apply contains_true in Hy. by rewrite Hy.
    + left. split; [done|]. exists ns, fresh. split_and!; [done| |done].
      destruct Hf as [?|Hd]; [done|]. by apply requested_true.
  - destruct Hg. by apply Hseen, (lo_written _ _ _ Hlo o r).
Qed.

(** A write on the class. *)
Lemma accounted_class p0 a0 h acts s (o r : LocalStorageClass) s' :
  let e := lev (UpdateObj KLSC o) (inl r) in
  established p0 a0 h acts s → lsc_justified scList lsc e h → serves (GetName lsc) s e s' →
  ∃ act, accounted p0 a0 h acts s e s' act.
Proof.
  intros e Hest (ns & fresh & past & -> & Hj) Hs. pose proof (es_located _ _ _ _ _ Hest) as Hlo.
  assert (Hgrow : ∃ v, st_log s' = st_log s ∨ st_log s' = (st_log s ++ [v])%list).
  { destruct Hs as (cur & _ & _ & _ & _ & ->). eexists. by right. }
  unfold accounted. destruct Hj as [(-> & Hnd & Hdel)|(-> & Hdel & Hrel)].
  - destruct (guard_step p0 ns fresh r past s s' Hlo) as (Hp & Hlo' & _);
      [by apply requested_false..|done|].
    exists Guard. split_and!; try done. unfold action_of, e. simpl.
    pose proof (with_guard fresh) as Hw%contains_true. simpl in Hw. by rewrite Hw.
  - assert (Hreq : requested lsc = true) by (by apply requested_true).
    destruct (release_step p0 ns fresh r past s s' Hlo Hreq Hs) as [Hp Hlo'].
    assert (Ha : action_of e = Release).
    { unfold action_of, e. simpl. pose proof (without_no_guard fresh) as Hw%contains_false.
      simpl in Hw. by rewrite Hw. }
    destruct Hp as [Hp|[Hprov Hp]]; [exists Release; by rewrite Ha|exists Overlook; rewrite Ha].
    split_and!; try done. split; [done|]. intros Ho. destruct (Hrel Ho) as (d & Hin & _).
    assert (Hw : Withdraw ∈ map action_of (lev (GetObj KLSC ns (GetName lsc)) (inl fresh) :: past)).
    { apply elem_of_cons. right. by apply (list_elem_of_fmap_2 action_of) in Hin. }
    rewrite (es_released _ _ _ _ _ Hest Hreq Hw) in Hprov. done.
Qed.

(** The StorageClass is deleted. *)
Lemma accounted_delete p0 a0 h acts s sc s' :
  let e := lev (DeleteSC sc) None in
  established p0 a0 h acts s → serves (GetName lsc) s e s' →
  ∃ act, accounted p0 a0 h acts s e s' act.
Proof.
  intros e Hest (Hl & Hp & Hsc). pose proof (es_located _ _ _ _ _ Hest) as Hlo.
  assert (Ha' : life_of s' = mkLife (alive (life_of s)) false).
  { unfold life_of, st_class. simpl. rewrite Hl. f_equal. destruct (st_sc s') as [sc'|]; [|done].
    by rewrite (Hsc sc' eq_refl), andb_false_r. }
  assert (Hlo' : located p0 (e :: h) s') by (apply (located_elsewhere p0 h e); [done|by apply (located_sc p0 h s)]).
  assert (Hgrow : ∃ v, st_log s' = st_log s ∨ st_log s' = (st_log s ++ [v])%list) by (exists None; by left).
  unfold accounted. rewrite Ha', (life_eta (life_of s)).
  destruct (provisioned (life_of s)); [exists Withdraw|exists Redundant];
    (split; [constructor|by split_and!]).
Qed.

(** The status is published. *)
Lemma accounted_status p0 a0 h acts s l c ph re r s' :
  let e := lev (UpdateStatus l c ph re) r in
  established p0 a0 h acts s → serves (GetName lsc) s e s' →
  ∃ act, accounted p0 a0 h acts s e s' act.
Proof.
  intros e Hest [->|(cur & new & Hcur & Hf & Hd & Hfv & ->)]; exists Internal.
  { by apply accounted_nothing. }
  pose proof (es_located _ _ _ _ _ Hest) as Hlo.
  assert (Hview : view_of (Some new) = alive (life_of s)).
  { rewrite (view_class _ _ Hcur). unfold view_of, requested. simpl. by rewrite Hf, Hd. }
  assert (Hlife : life_of (with_version s (Some new)) = life_of s)
    by (rewrite life_with_version, Hview; symmetry; apply life_eta).
  apply accounted_internal; [done|done| |eexists; by right].
  apply (located_elsewhere p0 h e); [done|].
  assert (Hlen : (0 < length (st_log s))%nat)
    by (destruct (lo_start _ _ _ Hlo) as [Hst%lookup_lt_Some _]; lia).
  apply (located_snoc p0 h s _ (Some new)); try done; rewrite Hview; try done.
  eapply steady_keep; [by apply last_view|done|done|apply Hlo].
Qed.

(** The class a read shows, the name that was asked for, and whether an update
    was refused. *)
Definition answer_of (e : event lscSig) : option LocalStorageClass :=
  match ev_op e as o return lsc_res o → option LocalStorageClass with
  | GetObj KLSC _ _ => λ r, match r with inl l => Some l | inr _ => None end
  | _ => λ _, None
  end (ev_res e).
Definition refused (e : event lscSig) : bool :=
  match ev_op e as o return lsc_res o → bool with
  | UpdateObj _ _ => λ r, match r with inl _ => false | inr _ => true end
  | _ => λ _, false
  end (ev_res e).
Definition name_of (e : event lscSig) : string :=
  match ev_op e with GetObj _ _ n => n | _ => "" end.

Lemma accounted_event p0 a0 h acts s e s' :
  established p0 a0 h acts s → lsc_justified scList lsc e h → serves (GetName lsc) s e s' →
  ∃ act, accounted p0 a0 h acts s e s' act.
Proof.
  intros Hest Hj Hs. destruct e as [o r].
  assert (Hnothing : s' = s → action_of (lev o r) = Internal → writes_class (lev o r) = false →
    ∃ act, accounted p0 a0 h acts s (lev o r) s' act).
  { intros -> Ha Hw. exists Internal. apply accounted_nothing; [done|done|by intros ?? He; rewrite He in Hw|].
    intros ?? He. by rewrite He in Hw. }
  destruct o as [k ns n|k o| | | |sc|o|ns n|l c ph re| |m]; try (by apply Hnothing).
  - destruct k; [|by apply Hnothing]. destruct Hs as [-> Hr]. exists Internal.
    apply accounted_nothing; [done|done| |by intros ?? [=]].
    intros ns' fresh He. apply Hr; [|by apply (f_equal name_of) in He].
    apply (f_equal answer_of) in He. destruct r as [l|err]; [|done]. by injection He as ->.
  - destruct k.
    + destruct r as [stored|err]; [by eapply accounted_class|].
      exists Internal. unfold serves in Hs. simpl in Hs. subst s'. apply accounted_nothing; [done|done|by intros ?? [=]|].
      by intros o' r' He%(f_equal refused).
    + destruct r as [stored|err]; [|by apply Hnothing].
      destruct Hs as (cur & Hcur & Hst & Hp & ->). exists Internal.
      apply accounted_internal; [done| | |exists None; by left].
      * rewrite (life_update_sc _ _ cur o stored Hst Hp). by destruct s; simpl in Hcur; subst.
      * apply located_elsewhere; [done|]. by apply (located_sc p0 h s); [..|apply Hest].
  - destruct r as [stored|err]; [by eapply accounted_create|by apply Hnothing].
  - destruct r as [err|]; [by apply Hnothing|by eapply accounted_delete].
  - by eapply accounted_status.
Qed.

Lemma system_refines s0 h s :
  starts s0 → consistent s0 → system (GetName lsc) s0 h s → always (lsc_justified scList lsc) h →
  ∃ acts, established (st_pos s0) (life_of s0) h acts s.
Proof.
  intros Hst Hc. induction 1 as [|h s s' _ IH Hw|h s e s' _ IH Hs]; simpl.
  - exists []. by apply established_start.
  - intros Hj. destruct (IH Hj) as [acts He]. exists acts. by eapply established_world.
  - intros [Hj Hall]. destruct (IH Hall) as [acts He].
    destruct (accounted_event _ _ _ _ _ _ _ He Hj Hs) as (act & Hp & Ha & Hex & Hlo & Hg).
    exists (act :: acts). by eapply established_step.
Qed.

End refinement.
