(* ===== verification/GC.v ===== *)
(** * The LVMLogicalVolume garbage collector

    images/controller/pkg/controller/lvm_logical_volume_gc.go: the operations
    of one sweep, from the pure classification helpers up to the reconciler.
    Log lines are left out; everything else the code does to the world is an
    operation of [gc_op], in the order of the source. *)

From S2P Require Import Prelude Effects Kube Monitoring LSC.

Local Open Scope string_scope.

Definition LVMLogicalVolumeGCCtrlName := "lvm-logical-volume-gc-controller".
Definition SDSLocalVolumeCSIFinalizer := "storage.deckhouse.io/sds-local-volume-csi".
Definition SDSNodeConfiguratorFinalizer := "storage.deckhouse.io/sds-node-configurator".
Definition RetainAcknowledgedAnnotation := "storage.deckhouse.io/retain-acknowledged".

Definition minSweepInterval : Z := 5 * Second.
Definition maxReclaimsPerSweep : Z := 50.
Definition reclaimBacklogRequeue : Z := Second.
Definition sweepTimeout : Z := 2 * Minute.
Definition liveConfirmationMaxAge : Z := Second.

(** ** Configuration and mutable state *)

(** The immutable fields of [llvGarbageCollector]. *)
Record llvGarbageCollector := mkGC {
  gc_metrics : Recorder;
  gc_gracePeriod : Z;
  gc_minInterval : Z;
  gc_maxReclaims : Z;
}.

Record pvReference := mkPVRef { pvr_Name : string; pvr_Driver : string }.

Record reclaimBudget := mkBudget {
  b_remaining : Z;
  b_deferred : Z;
  b_exhausted : bool;
}.

Record liveConfirmation := mkLive {
  lc_readAt : Z;
  lc_referenced : gmap string pvReference;
  lc_snapshotted : gset string;
  lc_snapshotContents : gset string;
}.

Section gc.
Context `{ApiMachinery}.

(** ** Reading one object *)

(** retainAcknowledged *)
Definition retainAcknowledged (llv : LVMLogicalVolume) : bool :=
  bool_decide (map_get (om_Annotations (llv_meta llv)) RetainAcknowledgedAnnotation = "true").

(** llvPhase *)
Definition llvPhase (llv : LVMLogicalVolume) : string :=
  match llv_Status llv with
  | None => PhaseUnknown
  | Some st => if bool_decide (llv_Phase st = "") then PhaseUnknown else llv_Phase st
  end.

(** llvType *)
Definition llvType (llv : LVMLogicalVolume) : string :=
  if bool_decide (llv_Type (llv_Spec llv) = "") then TypeUnknown
  else llv_Type (llv_Spec llv).

(** llvAllocatedBytes *)
Definition llvAllocatedBytes (llv : LVMLogicalVolume) : float64 :=
  match llv_Status llv with
  | None => float64_zero
  | Some st => float64_of_int (Value (llv_ActualSize st))
  end.

(** llvsUsedBytes *)
Definition llvsUsedBytes (s : LVMLogicalVolumeSnapshot) : float64 :=
  match llvs_Status s with
  | None => float64_zero
  | Some st => float64_of_int (Value (llvs_UsedSize st))
  end.

(** soonest *)
Definition soonest (a b : Z) : Z :=
  if (a <=? 0)%Z then b else if (b <=? 0)%Z then a else Z.min a b.

(** ** The event filters *)

Definition is_nil {A} (o : option A) : bool :=
  match o with None => true | Some _ => false end.

(** llvSweepInputChanged *)
Definition llvSweepInputChanged (oldLLV newLLV : LVMLogicalVolume) : bool :=
  if negb (Bool.eqb (is_nil (om_DeletionTimestamp (llv_meta oldLLV)))
                    (is_nil (om_DeletionTimestamp (llv_meta newLLV)))) then true
  else if negb (bool_decide (om_Finalizers (llv_meta oldLLV) =
                             om_Finalizers (llv_meta newLLV))) then true
  else if negb (Bool.eqb (retainAcknowledged oldLLV) (retainAcknowledged newLLV)) then true
  else if negb (bool_decide (llv_LVMVolumeGroupName (llv_Spec oldLLV) =
                             llv_LVMVolumeGroupName (llv_Spec newLLV)))
          || negb (bool_decide (llv_Type (llv_Spec oldLLV) = llv_Type (llv_Spec newLLV)))
       then true
  else negb (bool_decide (llvPhase oldLLV = llvPhase newLLV))
       || float64_neq (llvAllocatedBytes oldLLV) (llvAllocatedBytes newLLV).

(** llvsSweepInputChanged *)
Definition llvsSweepInputChanged (oldLLVS newLLVS : LVMLogicalVolumeSnapshot) : bool :=
  if negb (Bool.eqb (is_nil (om_DeletionTimestamp (llvs_meta oldLLVS)))
                    (is_nil (om_DeletionTimestamp (llvs_meta newLLVS)))) then true
  else if negb (bool_decide (om_Finalizers (llvs_meta oldLLVS) =
                             om_Finalizers (llvs_meta newLLVS))) then true
  else negb (bool_decide (llvs_LVMLogicalVolumeName (llvs_Spec oldLLVS) =
                          llvs_LVMLogicalVolumeName (llvs_Spec newLLVS)))
       || float64_neq (llvsUsedBytes oldLLVS) (llvsUsedBytes newLLVS).

(** ** References to a volume or a snapshot *)

(** The closure [keep] of referencingPersistentVolumes: the first referrer
    found for a key is kept. *)
Definition keep (key : string) (ref : pvReference) (referenced : gmap string pvReference)
    : gmap string pvReference :=
  match referenced !! key with
  | Some _ => referenced
  | None => <[key := ref]> referenced
  end.

(** The body of the loop of referencingPersistentVolumes. *)
Definition keep_pv (referenced : gmap string pvReference) (pv : PersistentVolume)
    : gmap string pvReference :=
  let ref := mkPVRef (om_Name (pv_meta pv))
               match pv_CSI (pv_Spec pv) with
               | Some c => csi_Driver c
               | None => ""
               end in
  let referenced := keep (om_Name (pv_meta pv)) ref referenced in
  match pv_CSI (pv_Spec pv) with
  | Some c =>
      if bool_decide (csi_Driver c = LocalStorageClassProvisioner)
         && negb (bool_decide (csi_VolumeHandle c = ""))
      then keep (csi_VolumeHandle c) ref referenced
      else referenced
  | None => referenced
  end.

Definition referenced_by (pvs : list PersistentVolume) : gmap string pvReference :=
  foldl keep_pv ∅ pvs.

(** snapshottedVolumeNames *)
Definition snapshottedVolumeNames (snapshots : list LVMLogicalVolumeSnapshot) : gset string :=
  foldl (λ acc s,
      let name := llvs_LVMLogicalVolumeName (llvs_Spec s) in
      if bool_decide (name = "") then acc else {[name]} ∪ acc) ∅ snapshots.

(** The body of the inner loop of snapshotContentHandles. *)
Definition add_handle (content : unstructured) (handles : gset string) (path : list string)
    : gset string :=
  let '(handle, found) := NestedString content path in
  if found && negb (bool_decide (handle = "")) then {[handle]} ∪ handles else handles.

(** The body of the outer loop of snapshotContentHandles. *)
Definition content_handles (handles : gset string) (content : unstructured) : gset string :=
  let '(driver, _) := NestedString content ["spec"; "driver"] in
  if negb (bool_decide (driver = LocalStorageClassProvisioner)) then handles
  else foldl (add_handle content) handles
         [["status"; "snapshotHandle"]; ["spec"; "source"; "snapshotHandle"]].

Definition handles_of (contents : list unstructured) : gset string :=
  foldl content_handles ∅ contents.

(** StripPersistentVolume, on a PersistentVolume; anything else is passed
    through untouched. *)
Definition StripPersistentVolume (obj : PersistentVolume + unstructured)
    : PersistentVolume + unstructured :=
  match obj with
  | inr other => inr other
  | inl pv =>
      let stripped :=
        mkPVSpec ""
          match pv_CSI (pv_Spec pv) with
          | Some c => Some (mkCSISource (csi_Driver c) (csi_VolumeHandle c) "" None)
          | None => None
          end in
      let m := pv_meta pv in
      inl (mkPV (mkMeta (om_Name m) (om_Namespace m) (om_UID m) (om_ResourceVersion m)
                   (om_Generation m) (om_DeletionTimestamp m) (om_Finalizers m)
                   None None [])
             stripped "")
  end.

(** spend *)
Definition spend (b : reclaimBudget) : bool * reclaimBudget :=
  if (b_remaining b <=? 0)%Z
  then (false, mkBudget (b_remaining b) (b_deferred b + 1) true)
  else (true, mkBudget (b_remaining b - 1) (b_deferred b) (b_exhausted b)).

(** ** Effects *)

(** The Go types removeCSIFinalizer is instantiated with. *)
Inductive okind := OLLV | OLLVS.

Definition kobj (k : okind) : Type :=
  match k with OLLV => LVMLogicalVolume | OLLVS => LVMLogicalVolumeSnapshot end.

#[global] Instance kobj_object k : Object (kobj k) :=
  match k with OLLV => llv_object | OLLVS => llvs_object end.

Definition kind_label (k : okind) : string :=
  match k with OLLV => KindLVMLogicalVolume | OLLVS => KindLVMLogicalVolumeSnapshot end.

(** Which reader serves a read: the manager's cache or the API server. *)
Inductive reader := Cached | Live.

Inductive gc_op :=
| ListLLV
| ListLLVS (r : reader)
| ListPV (r : reader)
| ListVSC
| GetLive (k : okind) (name : string)
| Patch (k : okind) (base live : kobj k)
| Now
| CtxErr
| Metric (m : metric_op).

Definition gc_res (o : gc_op) : Type :=
  match o with
  | ListLLV => list LVMLogicalVolume + api_error
  | ListLLVS _ => list LVMLogicalVolumeSnapshot + api_error
  | ListPV _ => list PersistentVolume + api_error
  | ListVSC => list unstructured + api_error
  | GetLive k _ => kobj k + api_error
  | Patch _ _ _ => option api_error
  | Now => Z
  | CtxErr => bool
  | Metric _ => unit
  end.

Definition gcSig : sig := Sig gc_op gc_res.

Definition gc_call (o : gc_op) : prog gcSig (gc_res o) := call (S := gcSig) o.

(** The operations of a recording helper, performed in order. *)
Fixpoint emit (ops : list metric_op) : prog gcSig unit :=
  match ops with
  | [] => mret tt
  | m :: ops => _ ← gc_call (Metric m); emit ops
  end.

(** referencingPersistentVolumes *)
Definition referencingPersistentVolumes (r : reader)
    : prog gcSig (gmap string pvReference + api_error) :=
  l ← gc_call (ListPV r);
  match l with
  | inr err => mret (inr err)
  | inl pvs => mret (inl (referenced_by pvs))
  end.

(** snapshotContentHandles *)
Definition snapshotContentHandles : prog gcSig (gset string + api_error) :=
  l ← gc_call ListVSC;
  match l with
  | inr err =>
      if IsNoMatchError err || IsNotFound err then mret (inl ∅) else mret (inr err)
  | inl contents => mret (inl (handles_of contents))
  end.

(** load *)
Definition load (c : liveConfirmation) : prog gcSig (option api_error * liveConfirmation) :=
  fresh ← (if time_IsZero (lc_readAt c) then mret false
           else now ← gc_call Now;
                mret (time_Sub now (lc_readAt c) <? liveConfirmationMaxAge)%Z);
  if fresh : bool then mret (None, c) else
  referenced ← referencingPersistentVolumes Live;
  match referenced with
  | inr err => mret (Some err, c)
  | inl referenced =>
      llvsList ← gc_call (ListLLVS Live);
      match llvsList with
      | inr err => mret (Some err, c)
      | inl llvss =>
          contents ← snapshotContentHandles;
          match contents with
          | inr err => mret (Some err, c)
          | inl contents =>
              now ← gc_call Now;
              mret (None, mkLive now referenced (snapshottedVolumeNames llvss) contents)
          end
      end
  end.

(** ** The finalizer write *)

Inductive gc_error :=
| ErrAPI (e : api_error)
| ErrAgentFinalizerAbsent
| ErrLiveObjectIsASuccessor
| ErrNotBeingDeleted.

(** retriableWrite; the refusals of this module are not API statuses. *)
Definition retriableWrite (err : gc_error) : bool :=
  match err with
  | ErrAPI e =>
      IsConflict e || IsTooManyRequests e || IsServerTimeout e || IsInternalError e
      || IsTimeout e
  | _ => false
  end.

(** The closure removeCSIFinalizer retries. *)
Definition removeCSIFinalizer_once (k : okind) (cached : kobj k)
    : prog gcSig (bool + gc_error) :=
  got ← gc_call (GetLive k (GetName cached));
  match got with
  | inr err => if IsNotFound err then mret (inl false) else mret (inr (ErrAPI err))
  | inl live =>
      if negb (bool_decide (GetUID live = GetUID cached))
      then mret (inr ErrLiveObjectIsASuccessor)
      else if is_nil (GetDeletionTimestamp live)
      then mret (inr ErrNotBeingDeleted)
      else if negb (contains (GetFinalizers live) SDSLocalVolumeCSIFinalizer)
      then mret (inl false)
      else if negb (contains (GetFinalizers live) SDSNodeConfiguratorFinalizer)
      then mret (inr ErrAgentFinalizerAbsent)
      else
        let base := live in
        let live := with_meta
                      (SetFinalizers (delete_all SDSLocalVolumeCSIFinalizer
                                        (GetFinalizers live))) live in
        err ← gc_call (Patch k base live);
        match err with
        | Some err => mret (inr (ErrAPI err))
        | None => mret (inl true)
        end
  end.

(** removeCSIFinalizer *)
Definition removeCSIFinalizer `{RetryOnError} (k : okind) (cached : kobj k)
    : prog gcSig (bool + gc_error) :=
  OnError retriableWrite (removeCSIFinalizer_once k cached).
End gc.
