(* ===== verification/CSI.v ===== *)
(** * The CSI driver: what the controller service is built from

    images/sds-local-volume-csi: internal/const.go, pkg/utils/func.go,
    pkg/utils/type.go, and lib/go/common/pkg/feature.  A gRPC error is its code,
    any other error only says whether it came from the API server or the
    context; the texts are not modelled, nor are log lines. *)

From S2P Require Import Prelude Effects Kube GC LSC.

Local Open Scope string_scope.

(** ** Constants *)

Definition TypeKey := "local.csi.storage.deckhouse.io/type".
Definition Lvm := "lvm".
Definition LvmTypeKey := "local.csi.storage.deckhouse.io/lvm-type".
Definition BindingModeKey := "local.csi.storage.deckhouse.io/volume-binding-mode".
Definition LVMVolumeGroupKey := "local.csi.storage.deckhouse.io/lvm-volume-groups".
Definition LVMVThickContiguousParamKey := "local.csi.storage.deckhouse.io/lvm-thick-contiguous".
Definition ActualNameOnTheNodeKey := "local.csi.storage.deckhouse.io/actualNameOnTheNode".
Definition CSIVolumeCleanupParamKey := "local.csi.storage.deckhouse.io/lvm-volume-cleanup".
Definition TopologyKey := "topology.sds-local-volume-csi/node".
Definition SubPath := "subPath".
Definition VGNameKey := "vgname".
Definition ThinPoolNameKey := "thinPoolName".
Definition LVMTypeThin := "Thin".
Definition LVMTypeThick := "Thick".
Definition LLVStatusCreated := "Created".
Definition LLVSStatusCreated := "Created".
Definition LLVStatusFailed := "Failed".
Definition LLVSStatusFailed := "Failed".
Definition BindingModeWFFC := "WaitForFirstConsumer".
Definition BindingModeI := "Immediate".
Definition KubernetesAPIRequestLimit : nat := 3.
Definition KubernetesAPIRequestTimeout : Z := 1.
Definition sourceVolumeKindSnapshot := "LVMLogicalVolumeSnapshot".
Definition sourceVolumeKindVolume := "LVMLogicalVolume".

(** ** Editions: lib/go/common/pkg/feature *)

Inductive edition := CE | SE | SEPlus | EE | CSEPro.

(** SnapshotsEnabled *)
Definition SnapshotsEnabled (e : edition) : bool :=
  match e with CE => false | _ => true end.

(** VolumeCleanupEnabled *)
Definition VolumeCleanupEnabled (e : edition) : bool :=
  match e with EE | CSEPro => true | CE | SE | SEPlus => false end.

(** ** Third-party interfaces *)

(** [resource.Quantity] beyond its value.  Documented behaviour: a value
    is an int64, a quantity built from an int64 has that value, and is read back
    from its text. *)
Class Quantities `{ApiMachinery} := {
  NewQuantity : Z → Quantity;
  zeroQuantity : Quantity;
  QuantitySub : Quantity → Quantity → Quantity;
  QuantityString : Quantity → string;
  ParseQuantity : string → option Quantity;
  MustParse : string → Quantity;
  Value_in_int64 : ∀ q, in_int64 (Value q);
  Value_NewQuantity : ∀ n, in_int64 n → Value (NewQuantity n) = n;
  Value_zeroQuantity : Value zeroQuantity = 0%Z;
  Value_4Mi : Value (MustParse "4Mi") = 4194304%Z;
  ParseQuantity_String : ∀ n, in_int64 n →
    ∃ q, ParseQuantity (QuantityString (NewQuantity n)) = Some q ∧ Value q = n;
}.

(** [VolumeGroup] of pkg/utils/type.go. *)
Record VolumeGroup := mkVolumeGroup { vgr_Name : string; vgr_Thin_PoolName : string }.

(** gopkg.in/yaml.v2 on [LVMVolumeGroups]. *)
Class VolumeGroupsYaml := {
  UnmarshalVolumeGroups : string → option (list VolumeGroup);
}.

(** ** gRPC requests *)

Record MountVolume := mkMount { mv_FsType : string; mv_MountFlags : list string }.

(** The oneof of a capability; the inner pointer of [Mount] may be nil. *)
Inductive AccessType := AccessBlock | AccessMount (m : option MountVolume).

Record VolumeCapability := mkCap { cap_AccessType : option AccessType }.

Definition GetBlock (c : VolumeCapability) : bool :=
  match cap_AccessType c with Some AccessBlock => true | _ => false end.

Definition GetMount (c : VolumeCapability) : option MountVolume :=
  match cap_AccessType c with Some (AccessMount m) => m | _ => None end.

Inductive ContentSource := SourceSnapshot (id : string) | SourceVolume (id : string).

Record CreateVolumeRequest := mkCreate {
  cr_Name : string;
  cr_Parameters : option strmap;
  cr_VolumeCapabilities : option (list VolumeCapability);
  cr_RequiredBytes : option Z;                        (* CapacityRange *)
  cr_VolumeContentSource : option (option ContentSource);
  cr_Preferred : option (list (option strmap));       (* AccessibilityRequirements *)
}.

Record CreateVolumeResponse := mkCreated {
  vol_CapacityBytes : Z;
  vol_VolumeId : string;
  vol_VolumeContext : strmap;
  vol_ContentSource : option (option ContentSource);
  vol_Topology : strmap;
}.

(** ** Outcomes *)

Inductive code :=
| InvalidArgument | Internal | NotFound | FailedPrecondition | OutOfRange | Aborted.

Section csi.
Context `{ApiMachinery, !Quantities, VolumeGroupsYaml, LabelSelectors}.

Inductive csi_error :=
| Status (c : code)
| API (e : api_error)     (* an API error, possibly wrapped *)
| ContextDone             (* ctx.Err () *)
| Plain.                  (* any other error *)

(** A call returns a value or an error, or panics, or is still waiting after
    as many polls as the model allows it. *)
Inductive outcome (A : Type) :=
| Done (a : A)
| Fails (e : csi_error)
| Panics
| StillWaiting.
#[global] Arguments Done {A} a.
#[global] Arguments Fails {A} e.
#[global] Arguments Panics {A}.
#[global] Arguments StillWaiting {A}.

(** ** Effects *)

Inductive csi_op :=
| CGet (k : okind) (name namespace : string)
| CCreate (k : okind) (o : kobj k)
| CUpdate (k : okind) (o : kobj k)
| CDelete (k : okind) (o : kobj k)
| CListVG
| CGetVG (name : string)
| CGetPV (name : string)
| CGetLSC (name : string)
| CtxDone
| Sleep (d : Z)
| UnixNow.

Definition csi_res (o : csi_op) : Type :=
  match o with
  | CGet k _ _ => kobj k + api_error
  | CCreate k _ => kobj k + api_error
  | CUpdate k _ => kobj k + api_error
  | CDelete _ _ => option api_error
  | CListVG => list LVMVolumeGroup + api_error
  | CGetVG _ => LVMVolumeGroup + api_error
  | CGetPV _ => PersistentVolume + api_error
  | CGetLSC _ => LocalStorageClass + api_error
  | CtxDone => bool
  | Sleep _ => unit
  | UnixNow => Z
  end.

Definition csiSig : sig := Sig csi_op csi_res.

Definition csi_call (o : csi_op) : prog csiSig (csi_res o) := call (S := csiSig) o.

(** GetLVMLogicalVolume, GetLVMLogicalVolumeSnapshot, GetLVMVolumeGroup and
    GetLVGList. *)
Definition GetLVMLogicalVolume (lvmLogicalVolumeName namespace : string)
    : prog csiSig (LVMLogicalVolume + api_error) := csi_call (CGet OLLV lvmLogicalVolumeName namespace).
Definition GetLVMLogicalVolumeSnapshot (lvmLogicalVolumeSnapshotName namespace : string)
    : prog csiSig (LVMLogicalVolumeSnapshot + api_error) :=
  csi_call (CGet OLLVS lvmLogicalVolumeSnapshotName namespace).
Definition GetLVMVolumeGroup (lvgName : string) : prog csiSig (LVMVolumeGroup + api_error) :=
  csi_call (CGetVG lvgName).
Definition GetLVGList : prog csiSig (list LVMVolumeGroup + api_error) := csi_call CListVG.

(** A program that may end early. *)
Abbreviation csi A := (prog csiSig (outcome A)).

Definition andThen {A B} (p : csi A) (f : A → csi B) : csi B :=
  r ← p;
  match r with
  | Done a => f a
  | Fails e => mret (Fails e)
  | Panics => mret Panics
  | StillWaiting => mret StillWaiting
  end.

(** An API call whose error is returned as it is. *)
Definition orAPI {A} (r : A + api_error) : outcome A :=
  match r with inl a => Done a | inr e => Fails (API e) end.

(** An API call whose error becomes a gRPC status. *)
Definition orStatus {A} (c : code) (r : A + api_error) : outcome A :=
  match r with inl a => Done a | inr _ => Fails (Status c) end.

(** ** Sizes *)

(** AlignSizeToExtent *)
Definition AlignSizeToExtent (size extentSize : Quantity) : outcome Quantity :=
  let sizeBytes := Value size in
  let extentBytes := Value extentSize in
  if (extentBytes <=? 0)%Z then Fails Plain
  else
    let aligned := i64 (i64_quot (i64 (i64 (sizeBytes + extentBytes) - 1)) extentBytes
                        * extentBytes) in
    Done (NewQuantity aligned).

Definition lvmDefaultExtentSize : Quantity := MustParse "4Mi".

(** SafeExtentSize *)
Definition SafeExtentSize (extentSize : Quantity) : Quantity :=
  if (0 <? Value extentSize)%Z then extentSize else lvmDefaultExtentSize.

(** GetLVMVolumeGroupFreeSpace *)
Definition GetLVMVolumeGroupFreeSpace (lvg : LVMVolumeGroup) : Quantity :=
  QuantitySub (vg_VGSize (vg_Status lvg)) (vg_AllocatedSize (vg_Status lvg)).

(** GetLVMThinPoolFreeSpace *)
Definition GetLVMThinPoolFreeSpace (lvg : LVMVolumeGroup) (thinPoolName : string)
    : outcome Quantity :=
  match List.find (λ tp, bool_decide (tp_Name tp = thinPoolName))
          (vg_ThinPools (vg_Status lvg)) with
  | None => Fails Plain
  | Some tp => Done (tp_AvailableSpace tp)
  end.

(** The switch on the LVM type of GetNodeWithMaxFreeSpace. *)
Definition node_free_space (params : strmap) (lvmType : string) (lvg : LVMVolumeGroup)
    : outcome Quantity :=
  if bool_decide (lvmType = LVMTypeThick) then Done (vg_VGFree (vg_Status lvg))
  else if bool_decide (lvmType = LVMTypeThin)
  then match params !! vg_Name lvg with
       | None => Fails Plain
       | Some thinPoolName => GetLVMThinPoolFreeSpace lvg thinPoolName
       end
  else Done zeroQuantity.

(** The loop of GetNodeWithMaxFreeSpace; indexing an empty list of nodes
    panics. *)
Fixpoint max_free_space (params : strmap) (lvmType : string) (lvgs : list LVMVolumeGroup)
    (nodeName : string) (maxFreeSpace : Z) : outcome (string * Z) :=
  match lvgs with
  | [] => Done (nodeName, maxFreeSpace)
  | lvg :: lvgs =>
      match node_free_space params lvmType lvg with
      | Done freeSpace =>
          if (maxFreeSpace <? Value freeSpace)%Z
          then match vg_Nodes (vg_Status lvg) with
               | [] => Panics
               | node :: _ => max_free_space params lvmType lvgs node (Value freeSpace)
               end
          else max_free_space params lvmType lvgs nodeName maxFreeSpace
      | Fails e => Fails e
      | Panics => Panics
      | StillWaiting => StillWaiting
      end
  end.

(** GetNodeWithMaxFreeSpace *)
Definition GetNodeWithMaxFreeSpace (lvgs : list LVMVolumeGroup) (params : strmap)
    (lvmType : string) : outcome (string * Quantity) :=
  match max_free_space params lvmType lvgs "" 0 with
  | Done (nodeName, maxFreeSpace) => Done (nodeName, NewQuantity maxFreeSpace)
  | Fails e => Fails e
  | Panics => Panics
  | StillWaiting => StillWaiting
  end.

(** ** Choosing a volume group *)

(** SelectLVG *)
Definition SelectLVG (lvgs : list LVMVolumeGroup) (nodeName : string)
    : option LVMVolumeGroup :=
  List.find (λ lvg, match vg_Nodes (vg_Status lvg) with
                    | [] => false
                    | node :: _ => bool_decide (node = nodeName)
                    end) lvgs.

(** SelectLVGByName *)
Definition SelectLVGByName (lvgs : list LVMVolumeGroup) (name : string)
    : option LVMVolumeGroup :=
  List.find (λ lvg, bool_decide (vg_Name lvg = name)) lvgs.

(** SelectLVGByActualNameOnTheNode *)
Definition SelectLVGByActualNameOnTheNode (lvgs : list LVMVolumeGroup)
    (nodeName actualNameOnTheNode : string) : option LVMVolumeGroup :=
  List.find (λ lvg, bool_decide (vg_Local_NodeName (vg_Spec lvg) = nodeName)
                    && bool_decide (vg_ActualVGNameOnTheNode (vg_Spec lvg) =
                                    actualNameOnTheNode)) lvgs.

(** The map the parameters of the storage class are read into; a name listed
    twice keeps its last thin pool. *)
Definition lvg_parameters (groups : list VolumeGroup) : strmap :=
  foldl (λ m v, <[vgr_Name v := vgr_Thin_PoolName v]> m) ∅ groups.

(** GetStorageClassLVGsAndParameters *)
Definition GetStorageClassLVGsAndParameters (param : string)
    : csi (list LVMVolumeGroup * strmap) :=
  match UnmarshalVolumeGroups param with
  | None => mret (Fails Plain)
  | Some groups =>
      let params := lvg_parameters groups in
      lvgs ← GetLVGList;
      match lvgs with
      | inr e => mret (Fails (API e))
      | inl lvgs =>
          mret (Done (List.filter (λ lvg, bool_decide (is_Some (params !! vg_Name lvg))) lvgs,
                      params))
      end
  end.

(** IsContiguous *)
Definition IsContiguous (params : option strmap) (lvmType : string) : bool :=
  if bool_decide (lvmType = LVMTypeThin) then false
  else bool_decide (params ≫= lookup LVMVThickContiguousParamKey = Some "true").

(** GetLLVSpec *)
Definition GetLLVSpec (lvName : string) (selectedLVG : LVMVolumeGroup) (params : strmap)
    (lvmType : string) (llvSize : Quantity) (contiguous : bool)
    (source : option (string * string)) (volumeCleanup : string) : LVMLogicalVolumeSpec :=
  mkLLVSpec lvName lvmType (QuantityString llvSize) (vg_Name selectedLVG) source
    (if bool_decide (lvmType = LVMTypeThin)
     then Some (default "" (params !! vg_Name selectedLVG)) else None)
    (if bool_decide (lvmType = LVMTypeThick) && contiguous then Some (Some contiguous) else None)
    (if bool_decide (volumeCleanup = "") then None else Some volumeCleanup).

(** ** Volumes and snapshots *)

Definition new_meta (name : string) : ObjectMeta :=
  mkMeta name "" "" "" 0 None [SDSLocalVolumeCSIFinalizer] None None [].

(** CreateLVMLogicalVolume *)
Definition CreateLVMLogicalVolume (name : string) (spec : LVMLogicalVolumeSpec)
    : prog csiSig (LVMLogicalVolume + api_error) :=
  csi_call (CCreate OLLV (mkLLV (new_meta name) spec None)).

(** CreateLVMLogicalVolumeSnapshot *)
Definition CreateLVMLogicalVolumeSnapshot (name : string)
    (spec : LVMLogicalVolumeSnapshotSpec) : prog csiSig (LVMLogicalVolumeSnapshot + api_error) :=
  csi_call (CCreate OLLVS (mkLLVS (new_meta name) spec None)).

(** [slices.Delete] of the first occurrence, and whether there was one. *)
Fixpoint delete_first (x : string) (l : list string) : list string * bool :=
  match l with
  | [] => ([], false)
  | y :: l =>
      if bool_decide (y = x) then (l, true)
      else let '(l', removed) := delete_first x l in (y :: l', removed)
  end.

(** The loop of removeLLVFinalizerIfExist and removeLLVSFinalizerIfExist, with
    the number of attempts left; the object is updated in place. *)
Fixpoint remove_attempts (k : okind) (finalizer : string) (tries : nat) (o : kobj k)
    : csi (bool * kobj k) :=
  match tries with
  | O => mret (Fails Plain)
  | S tries =>
      let '(finalizers, removed) := delete_first finalizer (GetFinalizers o) in
      if negb removed then mret (Done (false, o))
      else
        updated ← csi_call (CUpdate k (with_meta (SetFinalizers finalizers) o));
        match updated with
        | inl o => mret (Done (true, o))
        | inr e =>
            if negb (IsConflict e) then mret (Fails (API e))
            else match tries with
                 | O => mret (Fails Plain)
                 | S _ =>
                     cancelled ← csi_call CtxDone;
                     if cancelled : bool then mret (Fails ContextDone)
                     else
                       _ ← csi_call (Sleep (i64 (KubernetesAPIRequestTimeout * Second)));
                       fresh ← csi_call (CGet k (GetName o) "");
                       match fresh with
                       | inr e => mret (Fails (API e))
                       | inl fresh => remove_attempts k finalizer tries fresh
                       end
                 end
        end
  end.

(** removeLLVFinalizerIfExist *)
Definition removeLLVFinalizerIfExist (llv : LVMLogicalVolume) (finalizer : string)
    : csi (bool * LVMLogicalVolume) :=
  remove_attempts OLLV finalizer KubernetesAPIRequestLimit llv.

(** removeLLVSFinalizerIfExist *)
Definition removeLLVSFinalizerIfExist (llvs : LVMLogicalVolumeSnapshot) (finalizer : string)
    : csi (bool * LVMLogicalVolumeSnapshot) :=
  remove_attempts OLLVS finalizer KubernetesAPIRequestLimit llvs.

Definition set_cleanup (volumeCleanup : string) (llv : LVMLogicalVolume) : LVMLogicalVolume :=
  let s := llv_Spec llv in
  mkLLV (llv_meta llv)
    (mkLLVSpec (llv_ActualLVNameOnTheNode s) (llv_Type s) (llv_Size s)
       (llv_LVMVolumeGroupName s) (llv_Source s) (llv_Thin s) (llv_Thick s)
       (if bool_decide (volumeCleanup = "") then None else Some volumeCleanup))
    (llv_Status llv).

Definition set_size (newSize : string) (llv : LVMLogicalVolume) : LVMLogicalVolume :=
  let s := llv_Spec llv in
  mkLLV (llv_meta llv)
    (mkLLVSpec (llv_ActualLVNameOnTheNode s) (llv_Type s) newSize
       (llv_LVMVolumeGroupName s) (llv_Source s) (llv_Thin s) (llv_Thick s)
       (llv_VolumeCleanup s))
    (llv_Status llv).

Definition orDeleted (r : option api_error) : outcome unit :=
  match r with None => Done tt | Some e => Fails (API e) end.

(** DeleteLVMLogicalVolume *)
Definition DeleteLVMLogicalVolume (name volumeCleanup : string) : csi unit :=
  andThen (orAPI <$> GetLVMLogicalVolume name "") (λ llv : LVMLogicalVolume,
  andThen (orAPI <$> csi_call (CUpdate OLLV (set_cleanup volumeCleanup llv)))
    (λ llv : LVMLogicalVolume,
  andThen (removeLLVFinalizerIfExist llv SDSLocalVolumeCSIFinalizer) (λ r,
  orDeleted <$> csi_call (CDelete OLLV (snd r))))).

(** DeleteLVMLogicalVolumeSnapshot *)
Definition DeleteLVMLogicalVolumeSnapshot (name : string) : csi unit :=
  andThen (orAPI <$> GetLVMLogicalVolumeSnapshot name "") (λ llvs : LVMLogicalVolumeSnapshot,
  andThen (removeLLVSFinalizerIfExist llvs SDSLocalVolumeCSIFinalizer) (λ r,
  orDeleted <$> csi_call (CDelete OLLVS (snd r)))).

(** ExpandLVMLogicalVolume *)
Definition ExpandLVMLogicalVolume (llv : LVMLogicalVolume) (newSize : string)
    : prog csiSig (LVMLogicalVolume + api_error) :=
  csi_call (CUpdate OLLV (set_size newSize llv)).

(** ** Waiting *)

Definition poll_interval : Z := 500000000.

(** What one poll of WaitForStatusUpdate decides; [None] is to poll again. *)
Definition llv_poll (alignedSize : Quantity) (llv : LVMLogicalVolume)
    : option (outcome LVMLogicalVolume) :=
  match llv_Status llv with
  | None => None
  | Some st =>
      if negb (is_nil (om_DeletionTimestamp (llv_meta llv))) then Some (Fails Plain)
      else if bool_decide (llv_Phase st = LLVStatusFailed) then Some (Fails Plain)
      else if bool_decide (llv_Phase st = LLVStatusCreated)
      then if (Value alignedSize <=? Value (llv_ActualSize st))%Z then Some (Done llv) else None
      else None
  end.

(** The same for WaitForLLVSStatusUpdate. *)
Definition llvs_poll (llvs : LVMLogicalVolumeSnapshot)
    : option (outcome LVMLogicalVolumeSnapshot) :=
  match llvs_Status llvs with
  | None => None
  | Some st =>
      if negb (is_nil (om_DeletionTimestamp (llvs_meta llvs))) then Some (Fails Plain)
      else if bool_decide (llvs_Phase st = LLVSStatusFailed) then Some (Fails Plain)
      else if bool_decide (llvs_Phase st = LLVSStatusCreated) then Some (Done llvs) else None
  end.

(** The loop both functions run, for at most [fuel] polls. *)
Fixpoint poll_loop (k : okind) (poll : kobj k → option (outcome (kobj k)))
    (name namespace : string) (fuel : nat) : csi (kobj k) :=
  match fuel with
  | O => mret StillWaiting
  | S fuel =>
      cancelled ← csi_call CtxDone;
      if cancelled : bool then mret (Fails ContextDone)
      else
        _ ← csi_call (Sleep poll_interval);
        got ← csi_call (CGet k name namespace);
        match got with
        | inr e => mret (Fails (API e))
        | inl o => match poll o with
                   | Some r => mret r
                   | None => poll_loop k poll name namespace fuel
                   end
        end
  end.

(** WaitForStatusUpdate *)
Definition WaitForStatusUpdate (fuel : nat) (name namespace : string)
    (llvSize extentSize : Quantity) : csi LVMLogicalVolume :=
  match AlignSizeToExtent llvSize extentSize with
  | Done alignedSize => poll_loop OLLV (llv_poll alignedSize) name namespace fuel
  | _ => mret (Fails Plain)
  end.

(** WaitForLLVSStatusUpdate *)
Definition WaitForLLVSStatusUpdate (fuel : nat) (name : string) : csi LVMLogicalVolumeSnapshot :=
  poll_loop OLLVS llvs_poll name "" fuel.

(** ** The LocalStorageClass of a volume *)

(** GetLSCBeforeLLVDelete; the inner [None] is the zero LocalStorageClass
    returned when there is none of that name. *)
Definition GetLSCBeforeLLVDelete (volumeID : string) : csi (option LocalStorageClass) :=
  pv ← csi_call (CGetPV volumeID);
  match pv with
  | inr e => mret (Fails (Status (if IsNotFound e then NotFound else Internal)))
  | inl pv =>
      let storageClassName := pv_StorageClassName (pv_Spec pv) in
      if bool_decide (storageClassName = "") then mret (Fails (Status InvalidArgument))
      else
        lsc ← csi_call (CGetLSC storageClassName);
        match lsc with
        | inl lsc => mret (Done (Some lsc))
        | inr e => if IsNotFound e then mret (Done None) else mret (Fails (Status Internal))
        end
  end.
End csi.

