(* ===== verification/CSIController.v ===== *)
(** * The CSI driver: the controller service

    images/sds-local-volume-csi/driver/controller.go and
    controller_snapshots_ee.go.  A dereference of a nil pointer, and an index
    into an empty list, end a call with [Panics]. *)

From S2P Require Import Prelude Effects Kube GC LSC CSI.

Local Open Scope string_scope.

Record CreateSnapshotRequest := mkCreateSnapshot {
  csr_SourceVolumeId : string;
  csr_Name : string;
  csr_Parameters : option strmap;
}.

Record Snapshot := mkSnapshot {
  snap_SnapshotId : string;
  snap_SourceVolumeId : string;
  snap_SizeBytes : Z;
  snap_CreationTime : Z;
  snap_ReadyToUse : bool;
}.

Record ControllerExpandVolumeRequest := mkExpand {
  ex_VolumeId : string;
  ex_RequiredBytes : option Z;              (* CapacityRange *)
  ex_VolumeCapability : option VolumeCapability;
}.

Record ControllerExpandVolumeResponse := mkExpanded {
  ex_CapacityBytes : Z;
  ex_NodeExpansionRequired : bool;
}.

Inductive ControllerCapability :=
| CREATE_DELETE_VOLUME | CLONE_VOLUME | GET_CAPACITY | EXPAND_VOLUME
| PUBLISH_UNPUBLISH_VOLUME | CREATE_DELETE_SNAPSHOT.

Section controller.
Context `{ApiMachinery, !Quantities, VolumeGroupsYaml, LabelSelectors}.

Abbreviation csi A := (prog csiSig (outcome A)).

(** ** Helpers *)

(** alignToLVGExtentOrStatusErr *)
Definition alignToLVGExtentOrStatusErr (size : Quantity) (lvg : LVMVolumeGroup)
    : outcome Quantity :=
  match AlignSizeToExtent size (SafeExtentSize (vg_ExtentSize (vg_Status lvg))) with
  | Done aligned => Done aligned
  | _ => Fails (Status Internal)
  end.

(** fitsFreeSpace *)
Definition fitsFreeSpace (bindingMode lvmType : string) (alignedSize freeSpace : Quantity)
    : bool :=
  if negb (bool_decide (bindingMode = BindingModeI))
     || negb (bool_decide (lvmType = LVMTypeThick)) then true
  else (Value alignedSize <=? Value freeSpace)%Z.

(** resolveCapacityBytes *)
Definition resolveCapacityBytes (llv : option LVMLogicalVolume) (fallback : Quantity)
    : Z * bool :=
  match llv ≫= llv_Status with
  | Some st => (Value (llv_ActualSize st), true)
  | None => (Value fallback, false)
  end.

(** ** CreateVolume *)

(** Where a volume goes: the group, the node for the topology, and its size. *)
Record placement := mkPlacement {
  pl_LVG : LVMVolumeGroup;
  pl_Node : string;
  pl_Size : Quantity;
}.

(** The size of a volume made from a source of the given size. *)
Definition size_from_source (llvSize sourceSize : Quantity) (lvg : LVMVolumeGroup)
    : outcome Quantity :=
  if (Value llvSize =? 0)%Z then Done sourceSize
  else match alignToLVGExtentOrStatusErr llvSize lvg with
       | Done aligned =>
           if (Value aligned <? Value sourceSize)%Z then Fails (Status OutOfRange)
           else Done aligned
       | r => r
       end.

(** The branch of CreateVolume that restores a snapshot. *)
Definition place_restored (lvgs : list LVMVolumeGroup) (params : strmap) (snapshotId : string)
    (llvSize : Quantity) : csi placement :=
  andThen (orStatus NotFound <$> GetLVMLogicalVolumeSnapshot snapshotId "")
    (λ sourceVol : LVMLogicalVolumeSnapshot,
  mret match llvs_Status sourceVol with
       | None => Fails (Status FailedPrecondition)
       | Some st =>
           if negb (bool_decide (llvs_Phase st = LLVSStatusCreated))
           then Fails (Status FailedPrecondition)
           else match SelectLVGByActualNameOnTheNode lvgs (llvs_NodeName st)
                        (llvs_ActualVGNameOnTheNode st) with
                | None => Fails (Status FailedPrecondition)
                | Some lvg =>
                    if negb (bool_decide (is_Some (params !! vg_Name lvg)))
                    then Fails (Status InvalidArgument)
                    else match size_from_source llvSize (llvs_Size st) lvg with
                         | Done size => Done (mkPlacement lvg (llvs_NodeName st) size)
                         | Fails e => Fails e
                         | Panics => Panics
                         | StillWaiting => StillWaiting
                         end
                end
       end).

(** The branch of CreateVolume that clones a volume. *)
Definition place_cloned (lvgs : list LVMVolumeGroup) (params : strmap) (volumeId : string)
    (llvSize : Quantity) : csi placement :=
  andThen (orStatus NotFound <$> GetLVMLogicalVolume volumeId "")
    (λ sourceVol : LVMLogicalVolume,
  mret (if negb (bool_decide (llv_Type (llv_Spec sourceVol) = LVMTypeThin))
        then Fails (Status InvalidArgument)
        else match ParseQuantity (llv_Size (llv_Spec sourceVol)) with
             | None => Fails (Status Internal)
             | Some sourceSize =>
                 match SelectLVGByName lvgs (llv_LVMVolumeGroupName (llv_Spec sourceVol)) with
                 | None => Fails (Status Internal)
                 | Some lvg =>
                     if negb (bool_decide (is_Some (params !! vg_Name lvg)))
                     then Fails (Status InvalidArgument)
                     else match size_from_source llvSize sourceSize lvg with
                          | Done size =>
                              Done (mkPlacement lvg (vg_Local_NodeName (vg_Spec lvg)) size)
                          | Fails e => Fails e
                          | Panics => Panics
                          | StillWaiting => StillWaiting
                          end
                 end
             end)).

(** The node of the plain branch, and the free space found on it. *)
Definition preferred_node (request : CreateVolumeRequest) (lvgs : list LVMVolumeGroup)
    (params : strmap) (bindingMode lvmType : string) : outcome (string * Quantity) :=
  if bool_decide (bindingMode = BindingModeI)
  then match GetNodeWithMaxFreeSpace lvgs params lvmType with
       | Fails _ => Fails (Status Internal)
       | r => r
       end
  else if bool_decide (bindingMode = BindingModeWFFC)
  then match cr_Preferred request with
       | None => Panics
       | Some [] => Done ("", zeroQuantity)
       | Some (segments :: _) => Done (map_get segments TopologyKey, zeroQuantity)
       end
  else Done ("", zeroQuantity).

(** The branch of CreateVolume without a content source. *)
Definition place_plain (request : CreateVolumeRequest) (lvgs : list LVMVolumeGroup)
    (params : strmap) (bindingMode lvmType : string) (llvSize : Quantity) : outcome placement :=
  match preferred_node request lvgs params bindingMode lvmType with
  | Done (node, maxFreeSpace) =>
      match SelectLVG lvgs node with
      | None => Fails (Status Internal)
      | Some lvg =>
          match alignToLVGExtentOrStatusErr llvSize lvg with
          | Done aligned =>
              if negb (fitsFreeSpace bindingMode lvmType aligned maxFreeSpace)
              then Fails (Status Internal)
              else Done (mkPlacement lvg node aligned)
          | Fails e => Fails e
          | Panics => Panics
          | StillWaiting => StillWaiting
          end
      end
  | Fails e => Fails e
  | Panics => Panics
  | StillWaiting => StillWaiting
  end.

(** Kind and name of the source, as the LVMLogicalVolume records it. *)
Definition source_of (request : CreateVolumeRequest) : option (string * string) :=
  match cr_VolumeContentSource request with
  | Some (Some (SourceSnapshot id)) => Some (sourceVolumeKindSnapshot, id)
  | Some (Some (SourceVolume id)) => Some (sourceVolumeKindVolume, id)
  | Some None => Some ("", "")
  | None => None
  end.

(** The check of the edition. *)
Definition cleanup_unsupported (e : edition) (request : CreateVolumeRequest) : bool :=
  negb (VolumeCleanupEnabled e)
  && negb (bool_decide (map_get (cr_Parameters request) CSIVolumeCleanupParamKey = "")).

(** The three ways CreateVolume chooses a volume group; an unknown type of
    source leaves the group nil, which is dereferenced right after the check of
    the edition. *)
Definition place (e : edition) (request : CreateVolumeRequest) (lvgs : list LVMVolumeGroup)
    (params : strmap) (bindingMode lvmType : string) (llvSize : Quantity) : csi placement :=
  match cr_VolumeContentSource request with
  | Some source =>
      if negb (bool_decide (lvmType = LVMTypeThin)) then mret (Fails (Status InvalidArgument))
      else match source with
           | Some (SourceSnapshot id) => place_restored lvgs params id llvSize
           | Some (SourceVolume id) => place_cloned lvgs params id llvSize
           | None => mret (if cleanup_unsupported e request then Fails Plain else Panics)
           end
  | None => mret (place_plain request lvgs params bindingMode lvmType llvSize)
  end.

(** The response to a successful CreateVolume. *)
Definition created_response (request : CreateVolumeRequest) (pl : placement)
    (llvSpec : LVMLogicalVolumeSpec) (llv : LVMLogicalVolume) : CreateVolumeResponse :=
  let volumeCtx : strmap := default ∅ (cr_Parameters request) in
  let volumeCtx := <[SubPath := cr_Name request]> volumeCtx in
  let volumeCtx := <[VGNameKey := vg_ActualVGNameOnTheNode (vg_Spec (pl_LVG pl))]> volumeCtx in
  let volumeCtx :=
    <[ThinPoolNameKey := if bool_decide (llv_Type llvSpec = LVMTypeThin)
                         then default "" (llv_Thin llvSpec) else ""]> volumeCtx in
  mkCreated (fst (resolveCapacityBytes (Some llv) (pl_Size pl))) (cr_Name request) volumeCtx
    (cr_VolumeContentSource request) {[ TopologyKey := pl_Node pl ]}.

(** CreateVolume once the volume has a place. *)
Definition create_placed (e : edition) (fuel : nat) (request : CreateVolumeRequest)
    (params : strmap) (lvmType : string) (pl : placement) : csi CreateVolumeResponse :=
  let volumeCleanup := map_get (cr_Parameters request) CSIVolumeCleanupParamKey in
  if cleanup_unsupported e request then mret (Fails Plain)
  else
    let llvSpec := GetLLVSpec (cr_Name request) (pl_LVG pl) params lvmType (pl_Size pl)
                     (IsContiguous (cr_Parameters request) lvmType) (source_of request)
                     volumeCleanup in
    created ← CreateLVMLogicalVolume (cr_Name request) llvSpec;
    match match created with
          | inl _ => None
          | inr err => if IsAlreadyExists err then None else Some err
          end with
    | Some err => mret (Fails (API err))
    | None =>
        waited ← WaitForStatusUpdate fuel (cr_Name request) "" (pl_Size pl)
                   (SafeExtentSize (vg_ExtentSize (vg_Status (pl_LVG pl))));
        match waited with
        | Done llv => mret (Done (created_response request pl llvSpec llv))
        | Fails err =>
            _ ← DeleteLVMLogicalVolume (cr_Name request) volumeCleanup;
            mret (Fails err)
        | Panics => mret Panics
        | StillWaiting => mret StillWaiting
        end
    end.

(** CreateVolume *)
Definition CreateVolume (e : edition) (fuel : nat) (request : CreateVolumeRequest)
    : csi CreateVolumeResponse :=
  if negb (bool_decide (map_get (cr_Parameters request) TypeKey = Lvm))
  then mret (Fails (Status InvalidArgument))
  else if bool_decide (cr_Name request = "") then mret (Fails (Status InvalidArgument))
  else if is_nil (cr_VolumeCapabilities request) then mret (Fails (Status InvalidArgument))
  else
    let bindingMode := map_get (cr_Parameters request) BindingModeKey in
    let lvmType := map_get (cr_Parameters request) LvmTypeKey in
    let lvgParam := map_get (cr_Parameters request) LVMVolumeGroupKey in
    if bool_decide (lvgParam = "") then mret (Fails (Status InvalidArgument))
    else
      groups ← GetStorageClassLVGsAndParameters lvgParam;
      match groups with
      | Done (lvgs, params) =>
          let llvSize := NewQuantity (default 0%Z (cr_RequiredBytes request)) in
          andThen (place e request lvgs params bindingMode lvmType llvSize)
            (create_placed e fuel request params lvmType)
      | _ => mret (Fails (Status Internal))
      end.

(** ** DeleteVolume *)

(** DeleteVolume *)
Definition DeleteVolume (e : edition) (volumeId : string) : csi unit :=
  if bool_decide (volumeId = "") then mret (Fails (Status InvalidArgument))
  else
    found ← GetLSCBeforeLLVDelete volumeId;
    let volumeCleanup :=
      match found with
      | Done (Some lsc) => match lsc_LVM (lsc_Spec lsc) with
                           | Some lvm => lvm_VolumeCleanup lvm
                           | None => ""
                           end
      | _ => ""
      end in
    if negb (bool_decide (volumeCleanup = "")) && negb (VolumeCleanupEnabled e)
    then mret (Fails Plain)
    else DeleteLVMLogicalVolume volumeId volumeCleanup.

(** ** ControllerExpandVolume *)

(** The resize itself, once it was found to be needed and to fit. *)
Definition expand_to (fuel : nat) (llv : LVMLogicalVolume) (lvg : LVMVolumeGroup)
    (requestCapacity alignedRequestCapacity : Quantity) (nodeExpansionRequired : bool)
    : csi ControllerExpandVolumeResponse :=
  andThen (orStatus Internal <$>
             ExpandLVMLogicalVolume llv (QuantityString requestCapacity))
    (λ llv : LVMLogicalVolume,
  andThen (WaitForStatusUpdate fuel (GetName llv) (om_Namespace (llv_meta llv)) requestCapacity
             (SafeExtentSize (vg_ExtentSize (vg_Status lvg)))) (λ updated,
  mret (Done (mkExpanded (fst (resolveCapacityBytes (Some updated) alignedRequestCapacity))
                nodeExpansionRequired)))).

(** ControllerExpandVolume; the status of the volume is dereferenced unchecked. *)
Definition ControllerExpandVolume (fuel : nat) (request : ControllerExpandVolumeRequest)
    : csi ControllerExpandVolumeResponse :=
  if bool_decide (ex_VolumeId request = "") then mret (Fails (Status InvalidArgument))
  else
    andThen (orStatus Internal <$> GetLVMLogicalVolume (ex_VolumeId request) "")
      (λ llv : LVMLogicalVolume,
    andThen (orStatus Internal <$> GetLVMVolumeGroup (llv_LVMVolumeGroupName (llv_Spec llv)))
      (λ lvg,
    let requestCapacity := NewQuantity (default 0%Z (ex_RequiredBytes request)) in
    andThen (mret (alignToLVGExtentOrStatusErr requestCapacity lvg)) (λ aligned,
    let nodeExpansionRequired :=
      match ex_VolumeCapability request with Some c => negb (GetBlock c) | None => true end in
    match llv_Status llv with
    | None => mret Panics
    | Some st =>
        if (Value aligned <=? Value (llv_ActualSize st))%Z
        then mret (Done (mkExpanded (Value (llv_ActualSize st)) nodeExpansionRequired))
        else if bool_decide (llv_Type (llv_Spec llv) = LVMTypeThick)
                && (Value (GetLVMVolumeGroupFreeSpace lvg) <?
                      i64 (Value aligned - Value (llv_ActualSize st)))%Z
        then mret (Fails (Status Internal))
        else expand_to fuel llv lvg requestCapacity aligned nodeExpansionRequired
    end))).

(** ** Snapshots *)

(** What CreateSnapshot requires of the source and of its thin pool: the size
    of the snapshot. *)
Definition snapshot_size (llv : LVMLogicalVolume) : csi Z :=
  if negb (bool_decide (llv_Type (llv_Spec llv) = LVMTypeThin))
  then mret (Fails (Status InvalidArgument))
  else match llv_Status llv with
       | None => mret (Fails (Status FailedPrecondition))
       | Some st =>
           if (Value (llv_ActualSize st) =? 0)%Z then mret (Fails (Status FailedPrecondition))
           else
             andThen (orStatus Internal <$>
                        GetLVMVolumeGroup (llv_LVMVolumeGroupName (llv_Spec llv))) (λ lvg,
             mret match llv_Thin (llv_Spec llv) with
                  | None => Panics
                  | Some poolName =>
                      match GetLVMThinPoolFreeSpace lvg poolName with
                      | Done freeSpace =>
                          if (Value freeSpace <? Value (llv_ActualSize st))%Z
                          then Fails (Status FailedPrecondition)
                          else Done (Value (llv_ActualSize st))
                      | _ => Fails (Status Internal)
                      end
                  end)
       end.

(** CreateSnapshot once the source was accepted. *)
Definition create_snapshot (fuel : nat) (request : CreateSnapshotRequest)
    (llv : LVMLogicalVolume) (sizeBytes : Z) : csi Snapshot :=
  let name := csr_Name request in
  let actual := map_get (csr_Parameters request) ActualNameOnTheNodeKey in
  let actual := if bool_decide (actual = "") then name else actual in
  created ← CreateLVMLogicalVolumeSnapshot name (mkLLVSSpec actual (GetName llv));
  match match created with
        | inl _ => None
        | inr err => if IsAlreadyExists err then None else Some err
        end with
  | Some err => mret (Fails (API err))
  | None =>
      waited ← WaitForLLVSStatusUpdate fuel name;
      match waited with
      | Done _ =>
          now ← csi_call UnixNow;
          mret (Done (mkSnapshot name (csr_SourceVolumeId request) sizeBytes now true))
      | Fails err =>
          _ ← DeleteLVMLogicalVolumeSnapshot (csr_Name request);
          mret (Fails err)
      | Panics => mret Panics
      | StillWaiting => mret StillWaiting
      end
  end.

(** CreateSnapshot *)
Definition CreateSnapshot (fuel : nat) (request : CreateSnapshotRequest) : csi Snapshot :=
  andThen (orStatus Internal <$> GetLVMLogicalVolume (csr_SourceVolumeId request) "")
    (λ llv : LVMLogicalVolume,
  andThen (snapshot_size llv) (create_snapshot fuel request llv)).

(** DeleteSnapshot: the error of the deletion is logged, not returned. *)
Definition DeleteSnapshot (snapshotId : string) : csi unit :=
  if bool_decide (snapshotId = "") then mret (Fails (Status InvalidArgument))
  else
    _ ← DeleteLVMLogicalVolumeSnapshot snapshotId;
    mret (Done tt).

(** ** The calls without effects *)

(** ControllerPublishVolume *)
Definition ControllerPublishVolume (publishInfoVolumeName volumeId : string) : strmap :=
  {[ publishInfoVolumeName := volumeId ]}.

(** ControllerGetCapabilities *)
Definition ControllerGetCapabilities (e : edition) : list ControllerCapability :=
  [CREATE_DELETE_VOLUME; CLONE_VOLUME; GET_CAPACITY; EXPAND_VOLUME; PUBLISH_UNPUBLISH_VOLUME]
  ++ (if SnapshotsEnabled e then [CREATE_DELETE_SNAPSHOT] else []).

(** GetCapacity *)
Definition GetCapacity : Z := 1000000.

(** The calls that do nothing answer an empty response, or a nil one; none fails. *)
Inductive csi_response := EmptyResponse | NilResponse.

Definition ControllerUnpublishVolume : csi_response := EmptyResponse.
Definition ValidateVolumeCapabilities : csi_response := NilResponse.
Definition ListVolumes : csi_response := NilResponse.
Definition ControllerGetVolume : csi_response := EmptyResponse.
Definition ControllerModifyVolume : csi_response := EmptyResponse.
End controller.
