(* ===== verification/CSISizes.v ===== *)
(** * Sizes and placement in the CSI controller

    Extent alignment with its overflow, and the choice of the node with the most
    free space. *)

From S2P Require Import Prelude Effects Kube GC LSC CSI CSIController.

Section sizes.
Context `{ApiMachinery, !Quantities, VolumeGroupsYaml, LabelSelectors}.

(** ** Alignment *)

(** The least multiple of the extent that covers the size. *)
Definition rounded_up (size extent a : Z) : Prop :=
  (a mod extent = 0 ∧ size ≤ a < size + extent)%Z.

Lemma rounded_up_unique size extent a b :
  (0 < extent)%Z → rounded_up size extent a → rounded_up size extent b → a = b.
Proof.
  intros He [Ha ?] [Hb ?]. apply Z.mod_divide in Ha as [x ->], Hb as [y ->]; [|lia..].
  assert (x = y) as ->; [nia|done].
Qed.

Lemma align_value size extentSize :
  (0 ≤ Value size)%Z → (0 < Value extentSize)%Z →
  (Value size + Value extentSize ≤ int64_max)%Z →
  ∃ q, AlignSizeToExtent size extentSize = Done q ∧
       rounded_up (Value size) (Value extentSize) (Value q).
Proof.
  intros Hs He Hsum. unfold AlignSizeToExtent.
  set (s := Value size) in *. set (e := Value extentSize) in *.
  rewrite (proj2 (Z.leb_gt e 0)) by done. eexists. split; [done|].
  unfold int64_max in *.
  assert (Hq : (0 ≤ Z.quot (s + e - 1) e)%Z) by (apply Z.quot_pos; lia).
  assert (Hqe : (Z.quot (s + e - 1) e * e ≤ s + e - 1)%Z).
  { rewrite Z.mul_comm. apply Z.mul_quot_le; lia. }
  rewrite (i64_id (s + e)), (i64_id (s + e - 1)) by (unfold in_int64, int64_min, int64_max; lia).
  unfold i64_quot. rewrite (i64_id (Z.quot _ _)) by
    (unfold in_int64, int64_min, int64_max; nia).
  rewrite (i64_id (Z.quot _ _ * e)) by (unfold in_int64, int64_min, int64_max; nia).
  rewrite Value_NewQuantity by (unfold in_int64, int64_min, int64_max; nia).
  split; [apply Z.mod_mul; lia|].
  pose proof (Z.quot_rem (s + e - 1) e ltac:(lia)).
  pose proof (Z.rem_bound_pos (s + e - 1) e ltac:(lia) ltac:(lia)). lia.
Qed.

(** For a size and an extent whose sum does not overflow, AlignSizeToExtent
    returns the least multiple of the extent that covers the size, and aligning
    the result again changes nothing. *)
Theorem AlignSizeToExtent_rounds_up size extentSize
    (Hs : (0 ≤ Value size)%Z) (He : (0 < Value extentSize)%Z)
    (Hsum : (Value size + 2 * Value extentSize ≤ int64_max)%Z) :
  ∃ q, AlignSizeToExtent size extentSize = Done q ∧
       rounded_up (Value size) (Value extentSize) (Value q) ∧
       ∃ q', AlignSizeToExtent q extentSize = Done q' ∧ Value q' = Value q.
Proof.
  destruct (align_value size extentSize) as (q & Hq & Hr); [done..|lia|].
  exists q. split_and!; [done..|]. destruct Hr as [Hm Hr].
  destruct (align_value q extentSize) as (q' & Hq' & Hr'); [lia..|].
  exists q'. split; [done|]. eapply (rounded_up_unique (Value q)); [done..|].
  split; [done|lia].
Qed.

(** Past that bound the int64 arithmetic wraps around: the aligned size is
    not positive, and the check of the free space accepts it. *)
Lemma AlignSizeToExtent_overflows size extentSize bindingMode lvmType freeSpace
    (Hs : (Value size ≤ int64_max)%Z) (He : (0 < Value extentSize ≤ int64_max)%Z)
    (Hsum : (int64_max < Value size + Value extentSize - 1)%Z)
    (Hfree : (0 ≤ Value freeSpace)%Z) :
  ∃ q, AlignSizeToExtent size extentSize = Done q ∧ (Value q ≤ 0)%Z ∧
       fitsFreeSpace bindingMode lvmType q freeSpace = true.
Proof.
  unfold AlignSizeToExtent. set (s := Value size) in *. set (e := Value extentSize) in *.
  rewrite (proj2 (Z.leb_gt e 0)) by lia. eexists. split; [done|].
  unfold int64_max in *. rewrite (i64_above (s + e)) by (unfold int64_max; lia).
  set (n := (s + e - 18446744073709551616 - 1)%Z).
  rewrite (i64_id n) by (unfold in_int64, int64_min, int64_max; lia).
  assert (Hq : (Z.quot n e = - Z.quot (- n) e)%Z).
  { rewrite <-Z.quot_opp_l by lia. by rewrite Z.opp_involutive. }
  assert (Hp : (0 ≤ Z.quot (- n) e)%Z) by (apply Z.quot_pos; lia).
  assert (Hqe : (n ≤ Z.quot n e * e ≤ 0)%Z).
  { pose proof (Z.mul_quot_le (- n) e ltac:(lia) ltac:(lia)). rewrite Hq. nia. }
  unfold i64_quot. rewrite (i64_id (Z.quot _ _)) by (unfold in_int64, int64_min, int64_max; nia).
  rewrite (i64_id (Z.quot _ _ * e)) by (unfold in_int64, int64_min, int64_max; lia).
  rewrite Value_NewQuantity by (unfold in_int64, int64_min, int64_max; lia).
  split; [lia|]. unfold fitsFreeSpace. case_match; [done|]. apply Z.leb_le.
  rewrite Value_NewQuantity by (unfold in_int64, int64_min, int64_max; lia). lia.
Qed.

(** ** The node with the most free space *)

(** The group has this much space for a volume of the type. *)
Definition has_free (params : strmap) (lvmType : string) (lvg : LVMVolumeGroup) (n : Z) : Prop :=
  ∃ f, node_free_space params lvmType lvg = Done f ∧ Value f = n.

Definition on_node (lvg : LVMVolumeGroup) (node : string) : Prop :=
  ∃ rest, vg_Nodes (vg_Status lvg) = node :: rest.

Lemma node_free_space_done params lvmType lvg :
  node_free_space params lvmType lvg ≠ Panics ∧
  node_free_space params lvmType lvg ≠ StillWaiting.
Proof.
  unfold node_free_space, GetLVMThinPoolFreeSpace. by repeat case_match.
Qed.

Lemma max_free_space_spec params lvmType lvgs node0 max0 :
  match max_free_space params lvmType lvgs node0 max0 with
  | Done (node, n) =>
      (max0 ≤ n)%Z ∧
      (∀ lvg, lvg ∈ lvgs → ∃ m, has_free params lvmType lvg m ∧ (m ≤ n)%Z) ∧
      ((node = node0 ∧ n = max0) ∨
       ∃ lvg, lvg ∈ lvgs ∧ has_free params lvmType lvg n ∧ on_node lvg node ∧ (max0 < n)%Z)
  | Fails _ => ∃ lvg e, lvg ∈ lvgs ∧ node_free_space params lvmType lvg = Fails e
  | Panics => ∃ lvg m, lvg ∈ lvgs ∧ has_free params lvmType lvg m ∧ (max0 < m)%Z ∧
                       vg_Nodes (vg_Status lvg) = []
  | StillWaiting => False
  end.
Proof.
  revert node0 max0. induction lvgs as [|lvg lvgs IH]; intros node0 max0; simpl.
  { split; [lia|]. split; [by intros ? ?%elem_of_nil|by left]. }
  destruct (node_free_space_done params lvmType lvg) as [HP HW].
  destruct (node_free_space params lvmType lvg) as [f|e| |] eqn:Hf; [| |done|done].
  2:{ exists lvg, e. split; [by left|done]. }
  assert (Hfree : has_free params lvmType lvg (Value f)) by by exists f.
  destruct (Z.ltb_spec max0 (Value f)) as [Hlt|Hge].
  - destruct (vg_Nodes (vg_Status lvg)) as [|node rest] eqn:Hn.
    { exists lvg, (Value f). split_and!; [by left|done..]. }
    specialize (IH node (Value f)). destruct (max_free_space _ _ _ _ _) as [[node' n]|e| |].
    + destruct IH as (Hle & Hall & Hwho). split; [lia|]. split.
      * intros x [->|Hx]%elem_of_cons; [by exists (Value f)|by apply Hall].
      * right. destruct Hwho as [[-> ->]|(x & ? & ? & ? & ?)].
        -- exists lvg. split_and!; [by left|done|by exists rest|done].
        -- exists x. split_and!; [by right|done..|lia].
    + destruct IH as (x & e' & ? & ?). exists x, e'. split; [by right|done].
    + destruct IH as (x & m & ? & ? & ? & ?). exists x, m. split_and!; [by right|done|lia|done].
    + done.
  - specialize (IH node0 max0). destruct (max_free_space _ _ _ _ _) as [[node' n]|e| |].
    + destruct IH as (Hle & Hall & Hwho). split; [lia|]. split.
      * intros x [->|Hx]%elem_of_cons; [exists (Value f); split; [done|lia]|by apply Hall].
      * destruct Hwho as [?|(x & ? & ?)]; [by left|right]. exists x. split; [by right|done].
    + destruct IH as (x & e' & ? & ?). exists x, e'. split; [by right|done].
    + destruct IH as (x & m & ? & ?). exists x, m. split; [by right|done].
    + done.
Qed.

Lemma has_free_in_int64 params lvmType lvg n : has_free params lvmType lvg n → in_int64 n.
Proof. intros (f & _ & <-). apply Value_in_int64. Qed.

Lemma max_node_spec lvgs params lvmType :
  match GetNodeWithMaxFreeSpace lvgs params lvmType with
  | Done (node, q) =>
      (∀ lvg, lvg ∈ lvgs → ∃ m, has_free params lvmType lvg m ∧ (m ≤ Value q)%Z) ∧
      ((node = "" ∧ Value q = 0%Z) ∨
       ∃ lvg, lvg ∈ lvgs ∧ has_free params lvmType lvg (Value q) ∧ on_node lvg node ∧
              (0 < Value q)%Z)
  | Fails _ => ∃ lvg e, lvg ∈ lvgs ∧ node_free_space params lvmType lvg = Fails e
  | Panics => ∃ lvg m, lvg ∈ lvgs ∧ has_free params lvmType lvg m ∧ (0 < m)%Z ∧
                       vg_Nodes (vg_Status lvg) = []
  | StillWaiting => False
  end.
Proof.
  unfold GetNodeWithMaxFreeSpace. pose proof (max_free_space_spec params lvmType lvgs "" 0) as Hm.
  destruct (max_free_space _ _ _ _ _) as [[node n]|e| |]; try done.
  destruct Hm as (Hle & Hall & Hwho).
  assert (Hn : in_int64 n).
  { destruct Hwho as [[_ ->]|(lvg & _ & Hf & _)]; [|by eapply has_free_in_int64].
    unfold in_int64, int64_min, int64_max. lia. }
  rewrite Value_NewQuantity by done. done.
Qed.

(** GetNodeWithMaxFreeSpace returns the largest free space of the groups
    and a node that has it, or no node when there is no free space at all; it
    fails exactly on a group whose space cannot be told, and panics exactly on
    a group that has space but reports no node. *)
Lemma GetNodeWithMaxFreeSpace_spec lvgs params lvmType :
  match GetNodeWithMaxFreeSpace lvgs params lvmType with
  | Done (node, q) =>
      (∀ lvg, lvg ∈ lvgs → ∃ m, has_free params lvmType lvg m ∧ (m ≤ Value q)%Z) ∧
      ((node = "" ∧ Value q = 0%Z) ∨
       ∃ lvg, lvg ∈ lvgs ∧ has_free params lvmType lvg (Value q) ∧ on_node lvg node ∧
              (0 < Value q)%Z)
  | Fails _ => ∃ lvg e, lvg ∈ lvgs ∧ node_free_space params lvmType lvg = Fails e
  | Panics => ∃ lvg m, lvg ∈ lvgs ∧ has_free params lvmType lvg m ∧ (0 < m)%Z ∧
                       vg_Nodes (vg_Status lvg) = []
  | StillWaiting => False
  end.
Proof. apply max_node_spec. Qed.

Lemma SelectLVG_some lvgs node lvg :
  SelectLVG lvgs node = Some lvg → lvg ∈ lvgs ∧ on_node lvg node.
Proof.
  intros [Hin Hn]%find_some. apply list_elem_of_In in Hin. split; [done|].
  unfold on_node. destruct (vg_Nodes (vg_Status lvg)) as [|n rest]; [done|].
  bool_simpl. subst n. by exists rest.
Qed.

Lemma one_group_per_node (lvgs : list LVMVolumeGroup) l1 l2 node :
  NoDup (concat (map (λ lvg, vg_Nodes (vg_Status lvg)) lvgs)) →
  l1 ∈ lvgs → l2 ∈ lvgs → on_node l1 node → on_node l2 node → l1 = l2.
Proof.
  intros Hnd Hin1 Hin2 [r1 Hr1] [r2 Hr2].
  assert (Hocc : ∀ l lvgs, l ∈ lvgs → on_node l node →
    node ∈ concat (map (λ lvg, vg_Nodes (vg_Status lvg)) lvgs)).
  { intros l gs Hl [r Hr]. induction gs as [|g gs IH]; [by apply elem_of_nil in Hl|].
    simpl. apply elem_of_app. apply elem_of_cons in Hl as [->|Hl]; [left|right; auto].
    rewrite Hr. by left. }
  induction lvgs as [|g gs IH]; [by apply elem_of_nil in Hin1|].
  simpl in Hnd. apply NoDup_app in Hnd as (_ & Hdisj & Hnd).
  apply elem_of_cons in Hin1 as [->|Hin1]; apply elem_of_cons in Hin2 as [->|Hin2]; auto.
  - destruct (Hdisj node); [rewrite Hr1; by left|]. apply (Hocc l2); [done|by exists r2].
  - destruct (Hdisj node); [rewrite Hr2; by left|]. apply (Hocc l1); [done|by exists r1].
Qed.

(** With Immediate binding the volume goes to the group with the most free
    space: when no two groups of the class share a node, which the validation
    of the LocalStorageClass guarantees, the group selected on the node found
    has exactly the free space found. *)
Lemma immediate_binding_picks_the_largest lvgs params lvmType node q lvg
    (Hnd : NoDup (concat (map (λ lvg, vg_Nodes (vg_Status lvg)) lvgs)))
    (Hmax : GetNodeWithMaxFreeSpace lvgs params lvmType = Done (node, q))
    (Hpos : (0 < Value q)%Z) (Hsel : SelectLVG lvgs node = Some lvg) :
  has_free params lvmType lvg (Value q) ∧
  ∀ other, other ∈ lvgs → ∃ m, has_free params lvmType other m ∧ (m ≤ Value q)%Z.
Proof.
  pose proof (max_node_spec lvgs params lvmType) as Hspec. rewrite Hmax in Hspec.
  destruct Hspec as [Hall [[_ ?]|(best & Hin & Hfree & Hon & _)]]; [lia|].
  split; [|done]. apply SelectLVG_some in Hsel as [Hin' Hon'].
  by rewrite (one_group_per_node lvgs lvg best node).
Qed.
End sizes.
