(* ===== verification/CSIVolumes.v ===== *)
(** * What the calls of the CSI controller guarantee

    The polling loops and their termination, the finalizer removal, and the
    functional behaviour of CreateVolume over every behaviour of the API
    server. *)

From S2P Require Import Prelude Effects Kube GC LSC CSI CSIController CSISizes.

Local Open Scope string_scope.

Section volumes.
Context `{ApiMachinery, !Quantities, VolumeGroupsYaml, LabelSelectors}.

Abbreviation csi A := (prog csiSig (outcome A)).
Abbreviation hist := (history csiSig).
Abbreviation cev := (Ev (S := csiSig)).

(** ** Rules *)

(** A postcondition about successful outcomes only. *)
Definition ok {A} (Q : A → hist → Prop) (r : outcome A) (h : hist) : Prop :=
  match r with Done a => Q a h | _ => True end.

Lemma wp_andThen {A B} (p : csi A) (f : A → csi B) h (P : A → hist → Prop) Q :
  wp p h (ok P) → (∀ a h', P a h' → wp (f a) h' (ok Q)) →
  wp (andThen p f) h (ok Q).
Proof.
  intros Hp Hf. apply wp_bind. eapply wp_mono; [done|].
  intros [a|e| |] h' Ha; [by apply Hf|by apply wp_ret..].
Qed.

Lemma wp_status {A} c (o : csi_op) (g : csi_res o → A + api_error) h (Q : A → hist → Prop) :
  (∀ r a, g r = inl a → Q a (cev o r :: h)) →
  wp ((λ r, orStatus c (g r)) <$> csi_call o) h (ok Q).
Proof.
  intros HQ. apply wp_fmap. intros r h' [r' [-> ->]]. unfold orStatus.
  destruct (g r') eqn:E; simpl; auto.
Qed.

Lemma wp_call (o : csi_op) h (Q : csi_res o → hist → Prop) :
  (∀ r, Q r (cev o r :: h)) → wp (csi_call o) h Q.
Proof. intros HQ r h' [r' [-> ->]]. apply HQ. Qed.

(** ** Polling *)

(** One poll: the context was found alive, half a second was slept, the object
    was read. *)
Abbreviation poll_events k name ns got :=
  [cev (CGet k name ns) got; cev (Sleep poll_interval) tt; cev CtxDone false].

(** A wait after [n] polls, all of which left it [undecided]. *)
Inductive waiting (k : okind) (undecided : kobj k → Prop) (name ns : string) (h0 : hist)
    : nat → hist → Prop :=
| waiting_start : waiting k undecided name ns h0 0 h0
| waiting_poll n h o :
    waiting k undecided name ns h0 n h → undecided o →
    waiting k undecided name ns h0 (S n) (poll_events k name ns (inl o) ++ h)%list.

Lemma waiting_first k (undecided : kobj k → Prop) name ns o h n h' :
  undecided o → waiting k undecided name ns (poll_events k name ns (inl o) ++ h)%list n h' →
  waiting k undecided name ns h (S n) h'.
Proof. intros Ho. induction 1; repeat constructor; done. Qed.

Lemma waiting_mono k (P Q : kobj k → Prop) name ns h0 n h :
  (∀ o, P o → Q o) → waiting k P name ns h0 n h → waiting k Q name ns h0 n h.
Proof. intros HPQ. induction 1; constructor; auto. Qed.

(** How a loop ends after some polls [h] that did not decide it. *)
Inductive poll_ends (k : okind) (poll : kobj k → option (outcome (kobj k))) (name ns : string)
    (h : hist) : outcome (kobj k) → hist → Prop :=
| ends_context : poll_ends k poll name ns h (Fails ContextDone) (cev CtxDone true :: h)
| ends_error e :
    poll_ends k poll name ns h (Fails (API e)) (poll_events k name ns (inr e) ++ h)%list
| ends_decided o r : poll o = Some r →
    poll_ends k poll name ns h r (poll_events k name ns (inl o) ++ h)%list.

Lemma wp_poll_loop k poll name ns fuel h :
  wp (poll_loop k poll name ns fuel) h (λ r h', ∃ n h1,
    waiting k (λ o, poll o = None) name ns h n h1 ∧
    (r = StillWaiting ∧ n = fuel ∧ h' = h1 ∨ n < fuel ∧ poll_ends k poll name ns h1 r h')).
Proof.
  revert h. induction fuel as [|fuel IH]; intros h; simpl.
  { apply wp_ret. exists 0, h. split; [constructor|by left]. }
  assert (Hfirst : ∀ r h', poll_ends k poll name ns h r h' → ∃ n h1,
    waiting k (λ o, poll o = None) name ns h n h1 ∧
    (r = StillWaiting ∧ n = S fuel ∧ h' = h1 ∨ n < S fuel ∧ poll_ends k poll name ns h1 r h')).
  { intros r h' He. exists 0, h. split; [constructor|right]. split; [lia|done]. }
  apply wp_call_bind. intros []; [apply wp_ret, Hfirst, ends_context|].
  apply wp_call_bind. intros [].
  apply wp_call_bind. intros [o|e]; [|apply wp_ret, Hfirst, ends_error].
  destruct (poll o) as [r|] eqn:Hp; [by apply wp_ret, Hfirst, (ends_decided _ _ _ _ _ o)|].
  eapply wp_mono; [apply IH|]. intros r h' (n & h1 & Hw & He). exists (S n), h1.
  split; [by apply (waiting_first _ _ _ _ o)|].
  destruct He as [(-> & -> & ->)|[Hn He]]; [by left|right]. split; [lia|done].
Qed.

Lemma wp_poll_loop_done k poll name ns fuel h :
  wp (poll_loop k poll name ns fuel) h (λ r h', ∀ o, r = Done o →
    ∃ o' past, h' = cev (CGet k name ns) (inl o') :: past ∧ poll o' = Some (Done o)).
Proof.
  eapply wp_mono; [apply wp_poll_loop|]. intros r h' (n & h1 & _ & He) o ->.
  destruct He as [[? _]|[_ He]]; [done|]. inversion He; subst. eauto.
Qed.

(** The volume the node agent has finished, of at least the size. *)
Definition ready (size : Z) (llv : LVMLogicalVolume) : Prop :=
  om_DeletionTimestamp (llv_meta llv) = None ∧
  ∃ st, llv_Status llv = Some st ∧ llv_Phase st = LLVStatusCreated ∧
        (size ≤ Value (llv_ActualSize st))%Z.

(** The volume the node agent reported about that is being deleted, or that it
    gave up on. *)
Definition gave_up (llv : LVMLogicalVolume) : Prop :=
  ∃ st, llv_Status llv = Some st ∧
        (om_DeletionTimestamp (llv_meta llv) ≠ None ∨ llv_Phase st = LLVStatusFailed).

Lemma llv_poll_spec aligned llv :
  match llv_poll aligned llv with
  | Some (Done llv') => llv' = llv ∧ ready (Value aligned) llv
  | Some (Fails Plain) => gave_up llv
  | Some _ => False
  | None => ¬ ready (Value aligned) llv ∧ ¬ gave_up llv
  end.
Proof.
  unfold llv_poll, ready, gave_up. destruct (llv_Status llv) as [st|]; [|naive_solver].
  destruct (om_DeletionTimestamp (llv_meta llv)) as [d|]; simpl; [naive_solver|].
  case_bool_decide as Hf; [naive_solver|].
  case_bool_decide as Hc; [|naive_solver].
  destruct (Z.leb_spec (Value aligned) (Value (llv_ActualSize st))); [naive_solver|].
  split; [|naive_solver]. intros [_ (? & [= <-] & _ & ?)]. lia.
Qed.

(** How a wait for a volume ends: it was found ready, or given up; or it could
    not be read, or the context was done. *)
Definition wait_ended (size : Z) (name ns : string) (r : outcome LVMLogicalVolume)
    (h h' : hist) : Prop :=
  match r with
  | Done llv => h' = (poll_events OLLV name ns (inl llv) ++ h)%list ∧ ready size llv
  | Fails Plain => ∃ llv, h' = (poll_events OLLV name ns (inl llv) ++ h)%list ∧ gave_up llv
  | Fails (API err) => h' = (poll_events OLLV name ns (inr err) ++ h)%list
  | Fails ContextDone => h' = cev CtxDone true :: h
  | _ => False
  end.

Lemma wp_wait_polls fuel name ns llvSize extentSize h :
  wp (WaitForStatusUpdate fuel name ns llvSize extentSize) h (λ r h',
    match AlignSizeToExtent llvSize extentSize with
    | Done aligned => ∃ n h1,
        waiting OLLV (λ llv, ¬ ready (Value aligned) llv ∧ ¬ gave_up llv) name ns h n h1 ∧
        (r = StillWaiting ∧ n = fuel ∧ h' = h1 ∨
         n < fuel ∧ wait_ended (Value aligned) name ns r h1 h')
    | _ => r = Fails Plain ∧ h' = h
    end).
Proof.
  unfold WaitForStatusUpdate. destruct (AlignSizeToExtent _ _) as [aligned|e| |];
    try by apply wp_ret.
  eapply wp_mono; [apply (wp_poll_loop OLLV)|]. intros r h' (n & h1 & Hw & He). exists n, h1.
  split.
  { eapply waiting_mono; [|done]. intros llv Hp. pose proof (llv_poll_spec aligned llv) as Hs.
    by rewrite Hp in Hs. }
  destruct He as [?|[Hn He]]; [by left|right]. split; [done|].
  destruct He as [| |llv r Hp]; [done..|]. pose proof (llv_poll_spec aligned llv) as Hs.
  rewrite Hp in Hs. destruct r as [llv'|[]| |]; try done; [by destruct Hs as [-> ?]|by exists llv].
Qed.

Lemma wp_wait fuel name ns llvSize extentSize h :
  wp (WaitForStatusUpdate fuel name ns llvSize extentSize) h (ok (λ llv h',
    ∃ aligned past, AlignSizeToExtent llvSize extentSize = Done aligned ∧
      h' = cev (CGet OLLV name ns) (inl llv) :: past ∧ ready (Value aligned) llv)).
Proof.
  eapply wp_mono; [apply wp_wait_polls|]. intros [llv|e| |] h' Hr; try done. simpl in *.
  destruct (AlignSizeToExtent _ _) as [aligned|e| |]; try by destruct Hr.
  destruct Hr as (n & h1 & _ & [[? _]|(_ & -> & ?)]); [done|]. exists aligned. eauto.
Qed.

Lemma wp_wait_no_panics fuel name ns llvSize extentSize h :
  wp (WaitForStatusUpdate fuel name ns llvSize extentSize) h (λ r _, r ≠ Panics).
Proof.
  eapply wp_mono; [apply wp_wait_polls|]. intros r h' Hr ->.
  destruct (AlignSizeToExtent _ _) as [aligned|e| |]; try by destruct Hr.
  by destruct Hr as (n & h1 & _ & [[? _]|[_ ?]]).
Qed.

(** C38: WaitForStatusUpdate terminates.  It is a number of polls, no more than
    it was given, each after the context was found alive and half a second was
    slept, and each but the last showing a volume that is neither ready nor
    given up; and it ends in one of four ways: with the volume the last poll
    found ready, at least of the aligned size; with an error because the last
    poll found it being deleted or failed; with the error of that poll; or with
    the context's, which is then not polled once more.  Only when all its polls
    found the context alive and the volume undecided is it still waiting: a
    number of polls that covers the deadline of the context, one every half
    second, is never used up. *)
Theorem WaitForStatusUpdate_terminates fuel name ns llvSize extentSize :
  wp (WaitForStatusUpdate fuel name ns llvSize extentSize) [] (λ r h,
    match AlignSizeToExtent llvSize extentSize with
    | Done aligned => ∃ n h1,
        waiting OLLV (λ llv, ¬ ready (Value aligned) llv ∧ ¬ gave_up llv) name ns [] n h1 ∧
        (r = StillWaiting ∧ n = fuel ∧ h = h1 ∨
         n < fuel ∧ wait_ended (Value aligned) name ns r h1 h)
    | _ => r = Fails Plain ∧ h = []
    end).
Proof. apply wp_wait_polls. Qed.

(** ** CreateVolume *)

Lemma SafeExtentSize_pos q : (0 < Value (SafeExtentSize q))%Z.
Proof.
  unfold SafeExtentSize. destruct (Z.ltb_spec 0 (Value q)); [done|].
  unfold lvmDefaultExtentSize. by rewrite Value_4Mi.
Qed.

Abbreviation extent_of lvg := (Value (SafeExtentSize (vg_ExtentSize (vg_Status lvg)))).

(** The size asked for is positive and its alignment does not overflow. *)
Definition fits_int64 (required : Z) (lvg : LVMVolumeGroup) : Prop :=
  (0 < required ∧ required + 2 * extent_of lvg ≤ int64_max)%Z.

(** A place that satisfies the request: a group of the class, a size that is
    the request rounded up to its extent, a content source only for Thin. *)
Definition well_placed (request : CreateVolumeRequest) (lvgs : list LVMVolumeGroup)
    (lvmType : string) (pl : placement) : Prop :=
  pl_LVG pl ∈ lvgs ∧
  (∀ required, cr_RequiredBytes request = Some required → fits_int64 required (pl_LVG pl) →
    rounded_up required (extent_of (pl_LVG pl)) (Value (pl_Size pl))) ∧
  (cr_VolumeContentSource request ≠ None → lvmType = LVMTypeThin).

Lemma aligned_for required lvg q :
  fits_int64 required lvg →
  alignToLVGExtentOrStatusErr (NewQuantity required) lvg = Done q →
  rounded_up required (extent_of lvg) (Value q).
Proof.
  intros [Hpos Hfit] Ha. pose proof (SafeExtentSize_pos (vg_ExtentSize (vg_Status lvg))) as He.
  assert (Hv : Value (NewQuantity required) = required).
  { apply Value_NewQuantity. unfold in_int64, int64_min, int64_max in *. lia. }
  unfold alignToLVGExtentOrStatusErr in Ha.
  destruct (align_value (NewQuantity required) (SafeExtentSize (vg_ExtentSize (vg_Status lvg))))
    as (q' & Hq & Hr); [lia|done|lia|]. rewrite Hq in Ha. injection Ha as <-.
  by rewrite Hv in Hr.
Qed.

Lemma sized_for request required lvg sourceSize size :
  cr_RequiredBytes request = Some required → fits_int64 required lvg →
  size_from_source (NewQuantity (default 0%Z (cr_RequiredBytes request))) sourceSize lvg
    = Done size →
  rounded_up required (extent_of lvg) (Value size).
Proof.
  intros -> Hfit. simpl. unfold size_from_source.
  rewrite Value_NewQuantity by (unfold in_int64, int64_min, int64_max; destruct Hfit;
    pose proof (SafeExtentSize_pos (vg_ExtentSize (vg_Status lvg))); unfold int64_max in *; lia).
  rewrite (proj2 (Z.eqb_neq required 0)) by (destruct Hfit; lia).
  destruct (alignToLVGExtentOrStatusErr _ lvg) as [q|e| |] eqn:Ha; try done.
  destruct (_ <? _)%Z; [done|]. intros [= <-]. by apply aligned_for.
Qed.

Lemma wp_place e request lvgs params bindingMode lvmType h :
  wp (place e request lvgs params bindingMode lvmType
        (NewQuantity (default 0%Z (cr_RequiredBytes request)))) h
     (ok (λ pl h', (∃ new, h' = (new ++ h)%list) ∧ well_placed request lvgs lvmType pl)).
Proof.
  unfold place. destruct (cr_VolumeContentSource request) as [source|] eqn:Hsrc.
  - case_bool_decide as Hthin; simpl; [|by apply wp_ret].
    destruct source as [[id|id]|]; [| |by apply wp_ret; destruct (cleanup_unsupported _ _)].
    + apply (wp_andThen _ _ _ (λ _ h', ∃ new, h' = (new ++ h)%list)).
      { apply wp_status. intros r a _. by exists [cev (CGet OLLVS id "") r]. }
      intros sourceVol h' Hnew. apply wp_ret.
      destruct (llvs_Status sourceVol) as [st|]; simpl; [|done].
      case_bool_decide; simpl; [|done].
      destruct (SelectLVGByActualNameOnTheNode _ _ _) as [lvg|] eqn:Hsel; simpl; [|done].
      case_bool_decide; simpl; [|done].
      destruct (size_from_source _ _ lvg) as [size|err| |] eqn:Hsize; simpl; try done.
      split; [done|]. apply find_some in Hsel as [Hin _]. apply list_elem_of_In in Hin.
      split_and!; [done| |done]. intros required Hr Hfit. by eapply sized_for.
    + apply (wp_andThen _ _ _ (λ _ h', ∃ new, h' = (new ++ h)%list)).
      { apply wp_status. intros r a _. by exists [cev (CGet OLLV id "") r]. }
      intros sourceVol h' Hnew. apply wp_ret. case_bool_decide; simpl; [|done].
      destruct (ParseQuantity _) as [sourceSize|]; simpl; [|done].
      destruct (SelectLVGByName _ _) as [lvg|] eqn:Hsel; simpl; [|done].
      case_bool_decide; simpl; [|done].
      destruct (size_from_source _ _ lvg) as [size|err| |] eqn:Hsize; simpl; try done.
      split; [done|]. apply find_some in Hsel as [Hin _]. apply list_elem_of_In in Hin.
      split_and!; [done| |done]. intros required Hr Hfit. by eapply sized_for.
  - apply wp_ret. unfold place_plain.
    destruct (preferred_node _ _ _ _ _) as [[node free]|err| |]; simpl; try done.
    destruct (SelectLVG lvgs node) as [lvg|] eqn:Hsel; simpl; [|done].
    destruct (alignToLVGExtentOrStatusErr _ lvg) as [q|err| |] eqn:Ha; simpl; try done.
    destruct (negb _); simpl; [done|]. split; [by exists []|].
    apply SelectLVG_some in Hsel as [Hin _]. split_and!; [done| |by intros ?].
    intros required Hr Hfit. rewrite Hr in Ha. by apply aligned_for.
Qed.

(** The LVMLogicalVolume CreateVolume asks for. *)
Definition volume_for (request : CreateVolumeRequest) (params : strmap) (lvmType : string)
    (pl : placement) : LVMLogicalVolume :=
  mkLLV (new_meta (cr_Name request))
    (GetLLVSpec (cr_Name request) (pl_LVG pl) params lvmType (pl_Size pl)
       (IsContiguous (cr_Parameters request) lvmType) (source_of request)
       (map_get (cr_Parameters request) CSIVolumeCleanupParamKey)) None.

(** A creation that was done, or had been. *)
Definition created_or_exists (r : LVMLogicalVolume + api_error) : Prop :=
  match r with inl _ => True | inr err => IsAlreadyExists err = true end.

Lemma wp_create_placed e fuel request params lvmType pl h :
  wp (create_placed e fuel request params lvmType pl) h (ok (λ resp h', ∃ r llv aligned past,
    h' = cev (CGet OLLV (cr_Name request) "") (inl llv) :: past ∧
    cev (CCreate OLLV (volume_for request params lvmType pl)) r ∈ h' ∧ created_or_exists r ∧
    (∃ new, h' = (new ++ h)%list) ∧
    AlignSizeToExtent (pl_Size pl) (SafeExtentSize (vg_ExtentSize (vg_Status (pl_LVG pl))))
      = Done aligned ∧ ready (Value aligned) llv ∧
    resp = created_response request pl (llv_Spec (volume_for request params lvmType pl)) llv)).
Proof.
  unfold create_placed. cbv zeta. wp_step; [by apply wp_ret|].
  unfold CreateLVMLogicalVolume. apply wp_call_bind. intros r. set (ec := cev _ r).
  simpl in r.
  assert (Hfail : ∀ err hh, wp (mret (Fails err) : csi CreateVolumeResponse) hh (ok (λ _ _, False)))
    by (intros; by apply wp_ret).
  destruct (match r with inl _ => None | inr err => _ end) as [err|] eqn:Hr.
  { eapply wp_mono; [apply Hfail|]. by intros []. }
  assert (Hc : created_or_exists r).
  { destruct r as [?|err]; simpl in *; [done|]. by destruct (IsAlreadyExists err). }
  apply wp_bind. eapply wp_mono; [apply wp_and; [apply wp_wait|apply wp_extends]|].
  intros [llv|err| |] h' [Hw [new ->]]; try by apply wp_ret.
  - destruct Hw as (aligned & past & Ha & Hh & Hready). apply wp_ret.
    exists r, llv, aligned, past. split_and!; try done.
    + apply elem_of_app. right. by left.
    + exists (new ++ [ec])%list. by rewrite <-app_assoc.
  - apply wp_bind. intros d h2 _. by apply wp_ret.
Qed.

Lemma wp_CreateVolume e fuel request :
  wp (CreateVolume e fuel request) [] (ok (λ resp h, ∃ groups lvgs pl r llv past,
    let lvmType := map_get (cr_Parameters request) LvmTypeKey in
    let params := lvg_parameters groups in
    UnmarshalVolumeGroups (map_get (cr_Parameters request) LVMVolumeGroupKey) = Some groups ∧
    cev CListVG (inl lvgs) ∈ h ∧
    well_placed request lvgs lvmType pl ∧ is_Some (params !! vg_Name (pl_LVG pl)) ∧
    cev (CCreate OLLV (volume_for request params lvmType pl)) r ∈ h ∧ created_or_exists r ∧
    h = cev (CGet OLLV (cr_Name request) "") (inl llv) :: past ∧
    resp = created_response request pl (llv_Spec (volume_for request params lvmType pl)) llv ∧
    (∀ required, cr_RequiredBytes request = Some required → fits_int64 required (pl_LVG pl) →
      ready required llv ∧ (required ≤ vol_CapacityBytes resp)%Z))).
Proof.
  unfold CreateVolume. do 3 (wp_step; [by apply wp_ret|]). cbv zeta.
  wp_step; [by apply wp_ret|]. apply wp_bind. unfold GetStorageClassLVGsAndParameters.
  destruct (UnmarshalVolumeGroups _) as [groups|] eqn:Hg; [|by apply wp_ret, wp_ret].
  apply wp_call_bind. intros [lvgs|err]; [|by apply wp_ret, wp_ret]. apply wp_ret.
  set (h1 := [cev CListVG (inl lvgs)]).
  eapply wp_andThen; [apply wp_place|]. intros pl h2 [[n2 ->] (Hin & Hsize & Hthin)].
  eapply wp_mono; [apply wp_create_placed|].
  intros [resp|err| |] h3 Hok; try done. simpl in *.
  destruct Hok as (r & llv & aligned & past & Hh3 & Hcr & Hc & [n3 Hn3] & Ha & Hready & Hresp).
  rewrite list_elem_of_In, filter_In, <-list_elem_of_In in Hin. destruct Hin as [Hin Hp].
  exists groups, lvgs, pl, r, llv, past. split_and!; try done.
  - rewrite Hn3. rewrite !elem_of_app. right. right. by left.
  - by bool_simpl.
  - intros required Hreq Hfit. specialize (Hsize required Hreq Hfit) as [Hm Hle].
    pose proof (SafeExtentSize_pos (vg_ExtentSize (vg_Status (pl_LVG pl)))) as He.
    destruct Hfit as [Hpos Hfit].
    destruct (align_value (pl_Size pl) (SafeExtentSize (vg_ExtentSize (vg_Status (pl_LVG pl)))))
      as (q & Hq & _ & Hqr); [lia..|]. rewrite Ha in Hq. injection Hq as <-.
    destruct Hready as [Hdel (st & Hst & Hph & Hsz)].
    split; [split; [done|]; exists st; split_and!; [done..|lia]|].
    subst resp. unfold created_response, resolveCapacityBytes. simpl. rewrite Hst. simpl. lia.
Qed.

(** C9: a CreateVolume that succeeds has done what was asked.  The volume sits
    in a group the API server listed and the storage class names; the
    LVMLogicalVolume was created with exactly the specification of the
    request, or had been; the last thing read is that volume, not being
    deleted, Created by the node agent, with an actual size of at least the
    (aligned) size asked for; the response describes it, with that actual size
    as its capacity, which covers the bytes required; and a content source was
    only accepted for a Thin class. *)
Theorem CreateVolume_success e fuel request :
  wp (CreateVolume e fuel request) [] (ok (λ resp h, ∃ groups lvgs pl r llv past,
    let lvmType := map_get (cr_Parameters request) LvmTypeKey in
    let params := lvg_parameters groups in
    UnmarshalVolumeGroups (map_get (cr_Parameters request) LVMVolumeGroupKey) = Some groups ∧
    cev CListVG (inl lvgs) ∈ h ∧
    well_placed request lvgs lvmType pl ∧ is_Some (params !! vg_Name (pl_LVG pl)) ∧
    cev (CCreate OLLV (volume_for request params lvmType pl)) r ∈ h ∧ created_or_exists r ∧
    h = cev (CGet OLLV (cr_Name request) "") (inl llv) :: past ∧
    resp = created_response request pl (llv_Spec (volume_for request params lvmType pl)) llv ∧
    (∀ required, cr_RequiredBytes request = Some required → fits_int64 required (pl_LVG pl) →
      ready required llv ∧ (required ≤ vol_CapacityBytes resp)%Z))).
Proof. apply wp_CreateVolume. Qed.
End volumes.

(** An API call whose response is mapped: bring the response into the context. *)
Ltac api_call r :=
  match goal with
  | |- wp (_ <$> csi_call ?o) _ _ => apply wp_fmap, (wp_call o); intros r
  | |- wp (_ <$> GetLVMLogicalVolume ?n ?ns) _ _ => apply wp_fmap, (wp_call (CGet OLLV n ns)); intros r
  | |- wp (_ <$> GetLVMLogicalVolumeSnapshot ?n ?ns) _ _ =>
      apply wp_fmap, (wp_call (CGet OLLVS n ns)); intros r
  | |- wp (_ <$> GetLVMVolumeGroup ?n) _ _ => apply wp_fmap, (wp_call (CGetVG n)); intros r
  end.
