(* ===== verification/CSIDelete.v ===== *)
(** * Deleting, expanding and taking snapshots

    What the remaining calls of the CSI controller guarantee, where they can
    panic, and where they report success without having succeeded. *)

From S2P Require Import Prelude Effects Kube GC LSC CSI CSIController CSISizes CSIVolumes.

Local Open Scope string_scope.

Section deletes.
Context `{ApiMachinery, !Quantities, VolumeGroupsYaml, LabelSelectors}.

Abbreviation csi A := (prog csiSig (outcome A)).
Abbreviation hist := (history csiSig).
Abbreviation cev := (Ev (S := csiSig)).

(** ** Removing the finalizer *)

Lemma delete_first_spec x l l' removed :
  delete_first x l = (l', removed) →
  if removed then ∃ l1 l2, l = (l1 ++ x :: l2)%list ∧ l' = (l1 ++ l2)%list ∧ x ∉ l1
  else l' = l ∧ x ∉ l.
Proof.
  revert l' removed. induction l as [|y l IH]; intros l' removed; simpl.
  { intros [= <- <-]. split; [done|apply not_elem_of_nil]. }
  case_bool_decide as Hy.
  - intros [= <- <-]. subst y. exists [], l. split_and!; [done..|apply not_elem_of_nil].
  - destruct (delete_first x l) as [l0 r] eqn:E. intros [= <- <-]. specialize (IH _ _ eq_refl).
    destruct r.
    + destruct IH as (l1 & l2 & -> & -> & ?). exists (y :: l1), l2. split_and!; [done..|].
      apply not_elem_of_cons. by split.
    + destruct IH as [-> ?]. split; [done|]. apply not_elem_of_cons. by split.
Qed.

(** The object without one occurrence of the finalizer. *)
Definition stripped {k} (finalizer : string) (o : kobj k) : kobj k :=
  with_meta (SetFinalizers (fst (delete_first finalizer (GetFinalizers o)))) o.

Definition is_update (e : event csiSig) : bool :=
  match ev_op e with CUpdate _ _ => true | _ => false end.

Definition updates (h : hist) : nat := length (List.filter is_update h).

(** How a removal that reports success ends: with the finalizer not there, or
    with the update that took it off. *)
Definition removed_ok (k : okind) (finalizer : string) (r : bool * kobj k) (h : hist) : Prop :=
  if fst r then ∃ o past, h = cev (CUpdate k (stripped finalizer o)) (inl (snd r)) :: past ∧
                          finalizer ∈ GetFinalizers o
  else finalizer ∉ GetFinalizers (snd r).

Lemma wp_remove_attempts k finalizer n (o : kobj k) h :
  wp (remove_attempts k finalizer n o) h (λ r h', ∃ new, h' = (new ++ h)%list ∧
    (updates new ≤ n)%nat ∧ ok (removed_ok k finalizer) r h').
Proof.
  revert o h. induction n as [|n IH]; intros o h; simpl.
  { apply wp_ret. exists []. split_and!; [done|unfold updates; simpl; lia|done]. }
  destruct (delete_first finalizer (GetFinalizers o)) as [fs removed] eqn:Hd.
  pose proof (delete_first_spec _ _ _ _ Hd) as Hs. destruct removed; simpl.
  2:{ apply wp_ret. exists []. split_and!; [done|unfold updates; simpl; lia|apply Hs]. }
  assert (Hin : finalizer ∈ GetFinalizers o).
  { destruct Hs as (l1 & l2 & -> & _). apply elem_of_app. right. by left. }
  assert (Ho : with_meta (SetFinalizers fs) o = stripped finalizer o).
  { unfold stripped. by rewrite Hd. }
  rewrite Ho. apply wp_call_bind. intros [o'|e].
  { apply wp_ret. eexists [_]. split_and!; [done|unfold updates; simpl; lia|].
    exists o, h. by split. }
  wp_step; [|destruct n as [|n]].
  - apply wp_ret. eexists [_]. split_and!; [done|unfold updates; simpl; lia|done].
  - apply wp_ret. eexists [_]. split_and!; [done|unfold updates; simpl; lia|done].
  - apply wp_call_bind. intros []; [apply wp_ret; eexists [_; _]; split_and!;
      [done|unfold updates; simpl; lia|done]|].
    apply wp_call_bind. intros []. apply wp_call_bind. intros [fresh|e'].
    + eapply wp_mono; [apply IH|]. intros r h' (new & -> & Hn & Hok).
      eexists (new ++ [_; _; _; _])%list. rewrite <-app_assoc. split_and!; [done| |done].
      unfold updates. rewrite List.filter_app, length_app. simpl. fold (updates new). lia.
    + apply wp_ret. eexists [_; _; _; _]. split_and!; [done|unfold updates; simpl; lia|done].
Qed.

(** ** Which object is written *)

(** The API server answers about the object it is asked for. *)
Definition truthful (h : hist) : Prop :=
  ∀ e, e ∈ h → match ev_op e as o return csi_res o → Prop with
    | CGet k n _ => λ r, ∀ o : kobj k, r = inl o → GetName o = n
    | CUpdate k o => λ r, ∀ o' : kobj k, r = inl o' → GetName o' = GetName o
    | _ => λ _, True
    end (ev_res e).

Lemma truthful_app new h : truthful (new ++ h)%list → truthful h.
Proof. intros Ht e He. apply Ht, elem_of_app. by right. Qed.

(** What a deletion of the volume [name] may do after the operations before
    it: write the mode to the volume just read; take the finalizer off; and,
    once the mode was written and the finalizer is off, delete.  Every write is
    to the volume of that name. *)
Definition deletion_step (name cleanup : string) (e : event csiSig) (past : hist) : Prop :=
  match ev_op e with
  | CUpdate OLLV o =>
      (truthful past → GetName (T := LVMLogicalVolume) o = name) ∧
      ((∃ llv p, past = cev (CGet OLLV name "") (inl llv) :: p ∧ o = set_cleanup cleanup llv) ∨
       ∃ llv, o = stripped (k := OLLV) SDSLocalVolumeCSIFinalizer llv ∧
              SDSLocalVolumeCSIFinalizer ∈ GetFinalizers (T := LVMLogicalVolume) llv)
  | CDelete OLLV o =>
      (truthful past → GetName (T := LVMLogicalVolume) o = name) ∧
      (∃ llv r, cev (CUpdate OLLV (set_cleanup cleanup llv)) (inl r) ∈ past) ∧
      ∃ removed, removed_ok OLLV SDSLocalVolumeCSIFinalizer (removed, o) past
  | CCreate _ _ | CUpdate _ _ | CDelete _ _ => False
  | _ => True
  end.

(** The end of a deletion that succeeds. *)
Definition deleted (name cleanup : string) (h : hist) : Prop :=
  ∃ llv0 llv1 llv2 removed past,
    h = cev (CDelete OLLV llv2) None :: past ∧
    (truthful past → GetName llv0 = name ∧ GetName llv1 = name ∧ GetName llv2 = name) ∧
    removed_ok OLLV SDSLocalVolumeCSIFinalizer (removed, llv2) past ∧
    cev (CUpdate OLLV (set_cleanup cleanup llv0)) (inl llv1) ∈ past ∧
    cev (CGet OLLV name "") (inl llv0) ∈ past.

Section deletion.
Context (name cleanup : string) (J : event csiSig → hist → Prop) (base : hist).
Hypothesis HJ : ∀ e past, base `suffix_of` past → deletion_step name cleanup e past → J e past.

Lemma read_event e past :
  base `suffix_of` past → deletion_step name cleanup e past → always J past →
  base `suffix_of` (e :: past) ∧ always J (e :: past).
Proof using HJ. intros Hb He Ha. split; [by apply suffix_cons_r|]. split; [by apply HJ|done]. Qed.

Lemma wp_remove_attempts_aimed n (o : LVMLogicalVolume) h :
  base `suffix_of` h → (truthful h → GetName o = name) → always J h →
  wp (remove_attempts OLLV SDSLocalVolumeCSIFinalizer n o) h (λ r h', always J h' ∧
    ok (λ r h', truthful h' → GetName (T := LVMLogicalVolume) (snd r) = name) r h').
Proof using HJ.
  revert o h. induction n as [|n IH]; intros o h Hb Ho Ha; simpl; [by apply wp_ret|].
  destruct (delete_first SDSLocalVolumeCSIFinalizer (GetFinalizers o)) as [fs removed] eqn:Hd.
  pose proof (delete_first_spec _ _ _ _ Hd) as Hs. destruct removed; simpl; [|by apply wp_ret].
  match goal with |- context [CUpdate OLLV ?x] =>
    replace x with (stripped (k := OLLV) SDSLocalVolumeCSIFinalizer o)
      by (unfold stripped; simpl; by rewrite Hd)
  end.
  apply wp_call_bind. intros r.
  assert (Ha' : always J
    (cev (CUpdate OLLV (stripped (k := OLLV) SDSLocalVolumeCSIFinalizer o)) r :: h)).
  { split; [|done]. apply HJ; [done|]. split; [intros Ht; exact (Ho Ht)|]. right. exists o.
    split; [done|]. destruct Hs as (l1 & l2 & -> & _). apply elem_of_app. right. by left. }
  destruct r as [o'|e].
  { apply wp_ret. split; [done|]. intros Ht. simpl.
    transitivity (GetName (stripped (k := OLLV) SDSLocalVolumeCSIFinalizer o)).
    - exact (Ht _ (list_elem_of_here _ _) o' eq_refl).
    - exact (Ho (truthful_app [_] _ Ht)). }
  assert (Hb' := suffix_cons_r _ _ (cev (CUpdate OLLV
    (stripped (k := OLLV) SDSLocalVolumeCSIFinalizer o)) (inr e)) Hb).
  wp_step; [by apply wp_ret|]. destruct n as [|n]; [by apply wp_ret|].
  apply wp_call_bind. intros stop. destruct (read_event (cev CtxDone stop) _ Hb' I Ha') as [Hb1 Ha1].
  destruct stop; [by apply wp_ret|]. apply wp_call_bind. intros [].
  destruct (read_event (cev (Sleep (i64 (KubernetesAPIRequestTimeout * Second))) tt) _ Hb1 I Ha1) as [Hb2 Ha2].
  apply wp_call_bind. intros got.
  destruct (read_event (cev (CGet OLLV (GetName o) "") got) _ Hb2 I Ha2) as [Hb3 Ha3].
  destruct got as [fresh|e']; [|by apply wp_ret]. apply IH; [done| |done].
  intros Ht.
  transitivity (GetName o).
  - exact (Ht _ (list_elem_of_here _ _) fresh eq_refl).
  - exact (Ho (truthful_app [_; _; _; _] _ Ht)).
Qed.

Lemma wp_DeleteLVMLogicalVolume h :
  base `suffix_of` h → always J h →
  wp (DeleteLVMLogicalVolume name cleanup) h (λ r h',
    always J h' ∧ ok (λ _, deleted name cleanup) r h').
Proof using HJ.
  intros Hb Ha. unfold DeleteLVMLogicalVolume, andThen. apply wp_bind. api_call r.
  assert (Ha1 : always J (cev (CGet OLLV name "") r :: h)) by (split; [by apply HJ|done]).
  destruct r as [llv0|err]; unfold orAPI at 1; cbv beta iota; [|by apply wp_ret].
  set (h1 := cev (CGet OLLV name "") (inl llv0) :: h).
  assert (Hn0 : truthful h1 → GetName llv0 = name).
  { intros Ht. by apply (Ht (cev (CGet OLLV name "") (inl llv0))); [left|]. }
  apply wp_bind. api_call r.
  assert (Hb1 : base `suffix_of` h1) by by apply suffix_cons_r.
  assert (Ha2 : always J (cev (CUpdate OLLV (set_cleanup cleanup llv0)) r :: h1)).
  { split; [|done]. apply HJ; [done|]. split; [done|]. left. by exists llv0, h. }
  destruct r as [llv1|err]; unfold orAPI at 1; cbv beta iota; [|by apply wp_ret].
  set (h2 := cev (CUpdate OLLV (set_cleanup cleanup llv0)) (inl llv1) :: h1).
  assert (Hn1 : truthful h2 → GetName llv1 = name).
  { intros Ht. transitivity (GetName (set_cleanup cleanup llv0)).
    - exact (Ht _ (list_elem_of_here _ _) llv1 eq_refl).
    - exact (Hn0 (truthful_app [_] _ Ht)). }
  apply wp_bind. eapply wp_mono.
  { apply wp_and; [apply wp_remove_attempts_aimed; [by apply suffix_cons_r|done..]
                  |apply (wp_remove_attempts OLLV)]. }
  intros [[removed llv2]|err| |] h3 [[Ha3 Hn2] (new & -> & _ & Hr)]; try by apply wp_ret.
  simpl in Hn2, Hr.
  assert (Hu : cev (CUpdate OLLV (set_cleanup cleanup llv0)) (inl llv1) ∈ (new ++ h2)%list)
    by (apply elem_of_app; right; by left).
  api_call r. split.
  - split; [|done]. apply HJ; [by apply suffix_app_r, suffix_cons_r|].
    split; [done|]. split; [by exists llv0, llv1|]. by exists removed.
  - destruct r as [err|]; [done|]. exists llv0, llv1, llv2, removed, (new ++ h2)%list.
    split_and!; [done| |done|done|apply elem_of_app; right; right; by left].
    intros Ht. split_and!; [|by apply Hn1, (truthful_app new)|by apply Hn2].
    apply Hn0. eapply (truthful_app [_]). exact (truthful_app new _ Ht).
Qed.

End deletion.

(** ** DeleteVolume *)

(** The cleanup mode of a class. *)
Definition class_mode (lsc : LocalStorageClass) : string :=
  match lsc_LVM (lsc_Spec lsc) with Some lvm => lvm_VolumeCleanup lvm | None => "" end.

(** How the mode was found: that of the LocalStorageClass that the
    PersistentVolume of the volume names, and none where one of the two could
    not be read or there is no name. *)
Inductive mode_found (volumeId : string) : string → hist → Prop :=
| no_volume err : mode_found volumeId "" [cev (CGetPV volumeId) (inr err)]
| no_class_name pv : pv_StorageClassName (pv_Spec pv) = "" →
    mode_found volumeId "" [cev (CGetPV volumeId) (inl pv)]
| no_class pv err : pv_StorageClassName (pv_Spec pv) ≠ "" →
    mode_found volumeId "" [cev (CGetLSC (pv_StorageClassName (pv_Spec pv))) (inr err);
                            cev (CGetPV volumeId) (inl pv)]
| class_read pv lsc : pv_StorageClassName (pv_Spec pv) ≠ "" →
    mode_found volumeId (class_mode lsc)
      [cev (CGetLSC (pv_StorageClassName (pv_Spec pv))) (inl lsc); cev (CGetPV volumeId) (inl pv)].

Lemma wp_GetLSC volumeId :
  wp (GetLSCBeforeLLVDelete volumeId) [] (λ r h, mode_found volumeId
    match r with Done (Some lsc) => class_mode lsc | _ => "" end h).
Proof.
  apply wp_call_bind. intros [pv|err]; [|apply wp_ret, no_volume]. cbv zeta.
  case_bool_decide; [by apply wp_ret, no_class_name|].
  apply wp_call_bind. intros [lsc|err]; [by apply wp_ret, class_read|].
  destruct (IsNotFound err); by apply wp_ret, no_class.
Qed.

Lemma mode_found_reads volumeId cleanup h name mode :
  mode_found volumeId cleanup h → always (deletion_step name mode) h.
Proof. by destruct 1. Qed.

(** C24: DeleteVolume deletes the volume it is asked to, in the mode of its
    class.  It looks the cleanup mode up in the LocalStorageClass that the
    PersistentVolume of the volume names, none where one of the two cannot be
    read; a mode in an edition without volume cleanup is an error, before
    anything is written.  Whatever happens after that, it writes only to the
    LVMLogicalVolume of that name, and in this order: the mode, then the
    volume without the CSI finalizer, then the deletion.  When it succeeds, the
    mode was written and accepted, the finalizer was taken off or was not
    there, and the last operation is the accepted deletion. *)
Theorem DeleteVolume_success e volumeId :
  wp (DeleteVolume e volumeId) [] (λ r h,
    (volumeId = "" ∧ r = Fails (Status InvalidArgument) ∧ h = []) ∨
    ∃ cleanup new h0, h = (new ++ h0)%list ∧ mode_found volumeId cleanup h0 ∧
      if negb (bool_decide (cleanup = "")) && negb (VolumeCleanupEnabled e)
      then r = Fails Plain ∧ new = []
      else always (deletion_step volumeId cleanup) h ∧
           ok (λ _, deleted volumeId cleanup) r h).
Proof.
  unfold DeleteVolume. case_bool_decide as Hid; [apply wp_ret; by left|].
  apply wp_bind. eapply wp_mono; [apply wp_GetLSC|]. intros found h0 Hm. cbv zeta.
  set (cleanup := match found with Done _ => _ | _ => _ end).
  assert (mode_found volumeId cleanup h0) as Hc by (by destruct found as [[lsc|]| | |]).
  clearbody cleanup. clear Hm found.
  destruct (_ && _) eqn:E.
  { apply wp_ret. right. exists cleanup, [], h0. by rewrite E. }
  eapply wp_mono.
  { apply wp_and; [|apply wp_extends].
    by apply (wp_DeleteLVMLogicalVolume volumeId cleanup (deletion_step volumeId cleanup) []);
      [|apply suffix_nil|eapply mode_found_reads]. }
  intros r h [[Ha Hok] [new ->]]. right. exists cleanup, new, h0. by rewrite E.
Qed.

(** Removing the CSI finalizer makes at most three updates, and when it
    reports success the finalizer was either not there or taken off, one
    occurrence, by the last update. *)
Lemma removeLLVFinalizerIfExist_bounded (llv : LVMLogicalVolume) :
  wp (removeLLVFinalizerIfExist llv SDSLocalVolumeCSIFinalizer) [] (λ r h,
    (updates h ≤ 3)%nat ∧ ok (removed_ok OLLV SDSLocalVolumeCSIFinalizer) r h).
Proof.
  eapply wp_mono; [apply (wp_remove_attempts OLLV)|].
  intros r h (new & -> & Hn & Hok). rewrite app_nil_r in *. done.
Qed.

(** DeleteSnapshot reports success for every snapshot ID but the empty one,
    whatever the deletion of the LVMLogicalVolumeSnapshot ended with. *)
Lemma DeleteSnapshot_always_succeeds snapshotId :
  wp (DeleteSnapshot snapshotId) [] (λ r _,
    r = if decide (snapshotId = "") then Fails (Status InvalidArgument) else Done tt).
Proof.
  unfold DeleteSnapshot. rewrite bool_decide_decide. destruct (decide (snapshotId = "")).
  - by apply wp_ret.
  - apply wp_bind. intros r h _. by apply wp_ret.
Qed.

(** ** ControllerExpandVolume *)

Lemma capacity_covers required lvg aligned (llv : LVMLogicalVolume) fallback :
  fits_int64 required lvg →
  alignToLVGExtentOrStatusErr (NewQuantity required) lvg = Done aligned →
  ready (Value aligned) llv →
  (required ≤ fst (resolveCapacityBytes (Some llv) fallback))%Z.
Proof.
  intros Hfit Ha [_ (st & Hst & _ & Hsz)]. destruct (aligned_for _ _ _ Hfit Ha) as [_ Hr].
  unfold resolveCapacityBytes. simpl. rewrite Hst. simpl. lia.
Qed.

(** C25: a ControllerExpandVolume that succeeds reports a capacity that covers
    the bytes required; it writes the volume only when its actual size is
    below the aligned size asked for, and then asks for the size of the
    request as it came, not the aligned one. *)
Theorem ControllerExpandVolume_success fuel request :
  wp (ControllerExpandVolume fuel request) [] (ok (λ resp h, ∃ llv lvg st aligned,
    let required := default 0%Z (ex_RequiredBytes request) in
    cev (CGet OLLV (ex_VolumeId request) "") (inl llv) ∈ h ∧
    cev (CGetVG (llv_LVMVolumeGroupName (llv_Spec llv))) (inl lvg) ∈ h ∧
    llv_Status llv = Some st ∧
    alignToLVGExtentOrStatusErr (NewQuantity required) lvg = Done aligned ∧
    (fits_int64 required lvg → (required ≤ ex_CapacityBytes resp)%Z) ∧
    if (Value aligned <=? Value (llv_ActualSize st))%Z
    then updates h = 0 ∧ ex_CapacityBytes resp = Value (llv_ActualSize st)
    else ∃ llv', cev (CUpdate OLLV (set_size (QuantityString (NewQuantity required)) llv))
                   (inl llv') ∈ h)).
Proof.
  unfold ControllerExpandVolume. wp_step; [by apply wp_ret|].
  set (id := ex_VolumeId request). set (required := default 0%Z (ex_RequiredBytes request)).
  apply (wp_andThen _ _ _ (λ llv h, h = [cev (CGet OLLV id "") (inl llv)])).
  { api_call r. by destruct r. }
  intros llv h1 ->.
  apply (wp_andThen _ _ _ (λ lvg h, h = [cev (CGetVG (llv_LVMVolumeGroupName (llv_Spec llv)))
    (inl lvg); cev (CGet OLLV id "") (inl llv)])).
  { api_call r. by destruct r. }
  intros lvg h2 Hh2. cbv zeta.
  apply (wp_andThen _ _ _ (λ aligned h, h = h2 ∧
    alignToLVGExtentOrStatusErr (NewQuantity required) lvg = Done aligned)).
  { apply wp_ret. destruct (alignToLVGExtentOrStatusErr _ lvg); by simpl. }
  intros aligned h3 [-> Ha].
  assert (Hread : cev (CGet OLLV id "") (inl llv) ∈ h2 ∧
    cev (CGetVG (llv_LVMVolumeGroupName (llv_Spec llv))) (inl lvg) ∈ h2).
  { rewrite Hh2. split; [right; by left|by left]. }
  destruct (llv_Status llv) as [st|] eqn:Hst; [|by apply wp_ret].
  destruct (Value aligned <=? Value (llv_ActualSize st))%Z eqn:Hle.
  { apply wp_ret. exists llv, lvg, st, aligned. rewrite Hle. split_and!; try done; try apply Hread.
    - intros Hfit. destruct (aligned_for _ _ _ Hfit Ha) as [_ Hr]. bool_simpl. simpl. lia.
    - by rewrite Hh2. }
  wp_step; [by apply wp_ret|]. unfold expand_to, ExpandLVMLogicalVolume.
  apply (wp_andThen _ _ _ (λ llv' h, h =
    cev (CUpdate OLLV (set_size (QuantityString (NewQuantity required)) llv)) (inl llv') :: h2)).
  { api_call r. by destruct r. }
  intros llv' h4 ->.
  eapply (wp_andThen _ _ _ (λ u h, (∃ aligned' past,
    AlignSizeToExtent (NewQuantity required) (SafeExtentSize (vg_ExtentSize (vg_Status lvg)))
      = Done aligned' ∧
    h = cev (CGet OLLV (GetName llv') (om_Namespace (llv_meta llv'))) (inl u) :: past ∧
    ready (Value aligned') u) ∧ ∃ new, h = (new ++ cev (CUpdate OLLV
      (set_size (QuantityString (NewQuantity required)) llv)) (inl llv') :: h2)%list)).
  { eapply wp_mono; [apply wp_and; [apply wp_wait|apply wp_extends]|].
    intros [u|err| |] h' Hu; try done; exact Hu. }
  intros u h5 [(aligned' & past & Ha' & _ & Hready) [new ->]]. apply wp_ret.
  exists llv, lvg, st, aligned. rewrite Hle.
  assert (aligned' = aligned) as ->.
  { unfold alignToLVGExtentOrStatusErr in Ha. rewrite Ha' in Ha. congruence. }
  split_and!; try done; try (apply elem_of_app; right; right; apply Hread).
  - intros Hfit. by eapply capacity_covers.
  - exists llv'. apply elem_of_app. right. by left.
Qed.
End deletes.
