(* ===== verification/CSISafety.v ===== *)
(** * What the calls of the CSI controller may do, and when they panic

    The writes of CreateVolume, the panics of CreateVolume and
    ControllerExpandVolume, and the functional behaviour of CreateSnapshot. *)

From S2P Require Import Prelude Effects Kube GC LSC CSI CSIController CSISizes CSIVolumes.
From S2P Require Import CSIDelete.

Local Open Scope string_scope.

(** An API call whose response is mapped, by cases on the response. *)
Ltac api_cases a e :=
  let r := fresh in api_call r; revert r; intros [a|e]; unfold orStatus; cbv beta iota.

Section safety.
Context `{ApiMachinery, !Quantities, VolumeGroupsYaml, LabelSelectors}.

Abbreviation csi A := (prog csiSig (outcome A)).
Abbreviation hist := (history csiSig).
Abbreviation cev := (Ev (S := csiSig)).

(** ** Reads and writes *)

Inductive effect := Read | Creation | Write.

Definition effect_of (e : event csiSig) : effect :=
  match ev_op e with
  | CCreate _ _ => Creation
  | CUpdate _ _ | CDelete _ _ => Write
  | _ => Read
  end.

Abbreviation only_reads := (emits (λ e, effect_of e = Read)).

Ltac csi_emits :=
  repeat (match goal with
          | |- emits _ (csi_call ?o) => refine (emits_call (S := csiSig) _ o _); intros ?
          | |- emits _ (GetLVMLogicalVolume _ _) => unfold GetLVMLogicalVolume
          | |- emits _ (GetLVMLogicalVolumeSnapshot _ _) => unfold GetLVMLogicalVolumeSnapshot
          | |- emits _ (GetLVMVolumeGroup _) => unfold GetLVMVolumeGroup
          | |- emits _ GetLVGList => unfold GetLVGList
          | |- _ => emits_step
          end; try done).

Lemma poll_loop_reads k poll name ns fuel : only_reads (poll_loop k poll name ns fuel).
Proof. induction fuel as [|fuel IH]; simpl; csi_emits; apply IH. Qed.

Lemma wait_reads fuel name ns size extent :
  only_reads (WaitForStatusUpdate fuel name ns size extent).
Proof. unfold WaitForStatusUpdate. emits_step; try apply emits_ret. apply (poll_loop_reads OLLV). Qed.

Lemma place_reads e request lvgs params bindingMode lvmType size :
  only_reads (place e request lvgs params bindingMode lvmType size).
Proof.
  unfold place, place_restored, place_cloned, andThen. csi_emits.
Qed.

(** ** The writes of CreateVolume *)

(** A wait for the volume of the request that failed, after its creation was
    done or had been: it was polled while it was neither ready nor given up,
    and then it was given up, could not be read, or the context was done. *)
Definition wait_failed (request : CreateVolumeRequest) (h : hist) : Prop :=
  ∃ params lvmType pl size r past n h1 err, created_or_exists r ∧
    AlignSizeToExtent (pl_Size pl) (SafeExtentSize (vg_ExtentSize (vg_Status (pl_LVG pl))))
      = Done size ∧
    waiting OLLV (λ llv, ¬ ready (Value size) llv ∧ ¬ gave_up llv) (cr_Name request) ""
      (cev (CCreate OLLV (volume_for request params lvmType pl)) r :: past) n h1 ∧
    wait_ended (Value size) (cr_Name request) "" (Fails err) h1 h.

(** What allows an operation of CreateVolume after the operations before it. *)
Definition create_justified (e : edition) (request : CreateVolumeRequest)
    (ev : event csiSig) (past : hist) : Prop :=
  match ev_op ev with
  | CCreate k o =>
      Forall (λ e, effect_of e = Read) past ∧ cleanup_unsupported e request = false ∧
      ∃ groups lvgs pl,
        let lvmType := map_get (cr_Parameters request) LvmTypeKey in
        let params := lvg_parameters groups in
        UnmarshalVolumeGroups (map_get (cr_Parameters request) LVMVolumeGroupKey) = Some groups ∧
        cev CListVG (inl lvgs) ∈ past ∧ well_placed request lvgs lvmType pl ∧
        is_Some (params !! vg_Name (pl_LVG pl)) ∧
        existT k o = existT OLLV (volume_for request params lvmType pl)
  | CUpdate _ _ | CDelete _ _ =>
      deletion_step (cr_Name request)
        (map_get (cr_Parameters request) CSIVolumeCleanupParamKey) ev past ∧
      ∃ new waited, past = (new ++ waited)%list ∧ wait_failed request waited
  | _ => True
  end.

Lemma aligned_done size lvg :
  ∃ q, AlignSizeToExtent size (SafeExtentSize (vg_ExtentSize (vg_Status lvg))) = Done q.
Proof.
  unfold AlignSizeToExtent. rewrite (proj2 (Z.leb_gt _ 0)) by apply SafeExtentSize_pos. eauto.
Qed.

Lemma reads_justified e request ev past : effect_of ev = Read → create_justified e request ev past.
Proof. unfold effect_of, create_justified. by destruct (ev_op ev). Qed.

(** The clean-up after a wait that failed. *)
Lemma wp_cleanup e request h :
  wait_failed request h → always (create_justified e request) h →
  wp (DeleteLVMLogicalVolume (cr_Name request)
        (map_get (cr_Parameters request) CSIVolumeCleanupParamKey)) h
    (λ _ h', always (create_justified e request) h').
Proof.
  intros Hw Hh. eapply wp_mono; [apply (wp_DeleteLVMLogicalVolume _ _ (create_justified e request) h)|by intros ? ? []].
  - intros ev past [new ->] Hd. unfold create_justified. pose proof Hd as Hd'.
    unfold deletion_step in Hd'. destruct (ev_op ev); try done.
    all: split; [done|]; by exists new, h.
  - done.
  - done.
Qed.

Lemma wp_create_placed_writes e fuel request params lvmType pl h :
  Forall (λ ev, effect_of ev = Read) h →
  always (create_justified e request) h →
  (∀ r, cleanup_unsupported e request = false →
    create_justified e request (cev (CCreate OLLV (volume_for request params lvmType pl)) r) h) →
  wp (create_placed e fuel request params lvmType pl) h (λ r h',
    always (create_justified e request) h' ∧
    ok (λ _ h', Forall (λ ev, effect_of ev ≠ Write) h') r h').
Proof.
  intros Hreads Hh Hj. unfold create_placed. cbv zeta.
  wp_step; [by apply wp_ret|]. specialize (λ r, Hj r eq_refl).
  unfold CreateLVMLogicalVolume. apply wp_call_bind. intros r. set (h1 := Ev _ r :: h).
  assert (Hh1 : always (create_justified e request) h1) by by split. simpl in r.
  destruct (match r with inl _ => None | inr err => _ end) as [err|] eqn:Hr; [by apply wp_ret|].
  assert (Hc : created_or_exists r).
  { destruct r as [?|err]; simpl in *; [done|]. by destruct (IsAlreadyExists err). }
  apply wp_bind. eapply wp_mono; [apply wp_and; [apply wait_reads|apply wp_wait_polls]|].
  intros waited h2 [(new & -> & Hnew) Hw].
  assert (Hh2 : always (create_justified e request) (new ++ h1)%list).
  { eapply always_emitted; [|exact Hnew|done]. intros ev l. apply reads_justified. }
  destruct waited as [llv|err| |]; try by apply wp_ret.
  - apply wp_ret. split; [done|]. apply Forall_app. split; [|constructor; [done|]].
    + eapply Forall_impl; [exact Hnew|]. by intros ? ->.
    + eapply Forall_impl; [exact Hreads|]. by intros ? ->.
  - destruct (aligned_done (pl_Size pl) (pl_LVG pl)) as [size Ha]. rewrite Ha in Hw.
    destruct Hw as (n & hw & Hp & [[? _]|[_ He]]); [done|].
    apply wp_bind. eapply wp_mono; [apply wp_cleanup; [|done]|].
    + by exists params, lvmType, pl, size, r, h, n, hw, err.
    + intros d h3 Hd. by apply wp_ret.
Qed.

(** C23: a CreateVolume writes nothing before the creation of the volume, which
    it asks for at most once, with the name of the request, in a volume group
    of the class, with the thin pool the class names for it, the specification
    the request and the place call for, and a cleanup mode only in an edition
    that has one.  It updates or deletes only after a wait for that volume,
    created or found, that failed: then only that volume, in the order of a
    deletion with the cleanup mode of the request.  A CreateVolume that succeeds
    makes no other write than the creation. *)
Theorem CreateVolume_writes e fuel request :
  wp (CreateVolume e fuel request) [] (λ r h,
    always (create_justified e request) h ∧
    ok (λ _ h, Forall (λ ev, effect_of ev ≠ Write) h) r h).
Proof.
  unfold CreateVolume. do 3 (wp_step; [by apply wp_ret|]). cbv zeta.
  wp_step; [by apply wp_ret|]. apply wp_bind. unfold GetStorageClassLVGsAndParameters.
  destruct (UnmarshalVolumeGroups _) as [groups|] eqn:Hg; [|by apply wp_ret, wp_ret].
  apply wp_call_bind. intros [lvgs|err]; [|by apply wp_ret, wp_ret]. apply wp_ret.
  apply wp_bind. eapply wp_mono; [apply wp_and; [apply wp_place|apply place_reads]|].
  set (h1 := [cev CListVG (inl lvgs)]).
  intros placed h2 [Hok (new & -> & Hnew)].
  assert (Hreads : Forall (λ ev, effect_of ev = Read) (new ++ h1)%list).
  { apply Forall_app. split; [done|]. by repeat constructor. }
  assert (Hh2 : always (create_justified e request) (new ++ h1)%list).
  { eapply always_emitted; [|exact Hnew|by split]. intros ev l. apply reads_justified. }
  destruct placed as [pl|err| |]; try by apply wp_ret.
  destruct Hok as [_ (Hin & Hsize & Hthin)].
  apply list_elem_of_In, filter_In in Hin as [Hin Hclass]. apply list_elem_of_In in Hin.
  apply bool_decide_eq_true in Hclass.
  apply wp_create_placed_writes; [done..|]. intros r Hed. split_and!; [done..|].
  exists groups, lvgs, pl. split_and!; [done|apply elem_of_app; right; by left| |done|done].
  by split_and!.
Qed.

(** ** Panics *)

Lemma wp_then {A B} (p : csi A) (f : A → csi B) h Q :
  wp p h (λ r h', match r with
                  | Done a => wp (f a) h' Q
                  | Fails e => Q (Fails e) h'
                  | Panics => Q Panics h'
                  | StillWaiting => Q StillWaiting h'
                  end) →
  wp (andThen p f) h Q.
Proof.
  intros Hp. apply wp_bind. eapply wp_mono; [apply Hp|].
  intros [a|err| |] h' HQ; [done|by apply wp_ret..].
Qed.

(** The situations in which CreateVolume dereferences a nil pointer or indexes
    an empty list. *)
Definition create_panics (request : CreateVolumeRequest) (h : hist) : Prop :=
  let bindingMode := map_get (cr_Parameters request) BindingModeKey in
  let lvmType := map_get (cr_Parameters request) LvmTypeKey in
  match cr_VolumeContentSource request with
  | Some source => source = None
  | None =>
      bindingMode = BindingModeWFFC ∧ cr_Preferred request = None ∨
      bindingMode = BindingModeI ∧ ∃ lvgs groups lvg m,
        cev CListVG (inl lvgs) ∈ h ∧ lvg ∈ lvgs ∧
        has_free (lvg_parameters groups) lvmType lvg m ∧ (0 < m)%Z ∧
        vg_Nodes (vg_Status lvg) = []
  end.

Lemma align_no_panics size lvg : alignToLVGExtentOrStatusErr size lvg ≠ Panics.
Proof. unfold alignToLVGExtentOrStatusErr. by destruct (AlignSizeToExtent _ _). Qed.

Lemma size_from_source_no_panics size sourceSize lvg :
  size_from_source size sourceSize lvg ≠ Panics.
Proof.
  unfold size_from_source. case_match; [done|]. pose proof (align_no_panics size lvg).
  destruct (alignToLVGExtentOrStatusErr size lvg); try done. by case_match.
Qed.

Lemma place_plain_panics request lvgs params bindingMode lvmType size :
  place_plain request lvgs params bindingMode lvmType size = Panics →
  bindingMode = BindingModeWFFC ∧ cr_Preferred request = None ∨
  bindingMode = BindingModeI ∧ ∃ lvg m, lvg ∈ lvgs ∧ has_free params lvmType lvg m ∧
    (0 < m)%Z ∧ vg_Nodes (vg_Status lvg) = [].
Proof.
  unfold place_plain. destruct (preferred_node _ _ _ _ _) as [[node free]|err| |] eqn:Hn; try done.
  - destruct (SelectLVG _ _) as [lvg|]; [|done]. pose proof (align_no_panics size lvg).
    destruct (alignToLVGExtentOrStatusErr size lvg); try done. by case_match.
  - intros _. unfold preferred_node in Hn. case_bool_decide; [|case_bool_decide; [|done]].
    + right. split; [done|]. pose proof (max_node_spec lvgs params lvmType) as Hspec.
      by destruct (GetNodeWithMaxFreeSpace lvgs params lvmType).
    + left. split; [done|]. by destruct (cr_Preferred request) as [[]|].
Qed.

Lemma wp_place_panics e request lvgs params bindingMode lvmType size h :
  wp (place e request lvgs params bindingMode lvmType size) h (λ r _, r = Panics →
    match cr_VolumeContentSource request with
    | Some source => source = None
    | None => place_plain request lvgs params bindingMode lvmType size = Panics
    end).
Proof.
  unfold place. destruct (cr_VolumeContentSource request) as [source|]; [|by apply wp_ret].
  wp_step; [by apply wp_ret|]. destruct source as [[id|id]|]; [| |by apply wp_ret].
  all: unfold place_restored, place_cloned; apply wp_then; api_cases o err; [|done].
  all: apply wp_ret.
  - destruct (llvs_Status o) as [st|]; [|done]. case_match; [done|].
    destruct (SelectLVGByActualNameOnTheNode _ _ _) as [lvg|]; [|done]. case_match; [done|].
    pose proof (size_from_source_no_panics size (llvs_Size st) lvg).
    by destruct (size_from_source _ _ _).
  - case_match; [done|]. destruct (ParseQuantity _) as [q|]; [|done].
    destruct (SelectLVGByName _ _) as [lvg|]; [|done]. case_match; [done|].
    pose proof (size_from_source_no_panics size q lvg). by destruct (size_from_source _ _ _).
Qed.

Lemma wp_create_placed_no_panics e fuel request params lvmType pl h :
  wp (create_placed e fuel request params lvmType pl) h (λ r _, r ≠ Panics).
Proof.
  unfold create_placed. cbv zeta. wp_step; [by apply wp_ret|].
  unfold CreateLVMLogicalVolume. apply wp_call_bind. intros r. simpl in r.
  destruct (match r with inl _ => None | inr err => _ end); [by apply wp_ret|].
  apply wp_bind. eapply wp_mono; [apply wp_wait_no_panics|].
  intros [llv|err| |] h' Hr; try by apply wp_ret. apply wp_bind. intros d h2 _. by apply wp_ret.
Qed.

(** CreateVolume panics in three situations only: a content source of no
    type, which leaves the volume group nil; WaitForFirstConsumer without
    AccessibilityRequirements; and Immediate binding with a listed volume group
    that has free space and reports no node. *)
Lemma CreateVolume_panics e fuel request :
  wp (CreateVolume e fuel request) [] (λ r h, r = Panics → create_panics request h).
Proof.
  unfold CreateVolume. do 3 (wp_step; [by apply wp_ret|]). cbv zeta.
  wp_step; [by apply wp_ret|]. apply wp_bind. unfold GetStorageClassLVGsAndParameters.
  destruct (UnmarshalVolumeGroups _) as [groups|] eqn:Hg; [|by apply wp_ret, wp_ret].
  apply wp_call_bind. intros [lvgs|err]; [|by apply wp_ret, wp_ret]. apply wp_ret.
  apply wp_bind. eapply wp_mono; [apply wp_and; [apply wp_place_panics|apply wp_extends]|].
  intros placed h2 [Hp [new ->]]. destruct placed as [pl|err| |]; try by apply wp_ret.
  { eapply wp_mono; [apply wp_create_placed_no_panics|]. done. }
  apply wp_ret. intros _. specialize (Hp eq_refl). unfold create_panics.
  destruct (cr_VolumeContentSource request); [done|].
  apply place_plain_panics in Hp as [?|[? (lvg & m & Hin & ?)]]; [by left|right].
  split; [done|]. exists lvgs, groups, lvg, m. split; [apply elem_of_app; right; by left|].
  split; [|done]. apply list_elem_of_In, filter_In in Hin as [Hin _]. by apply list_elem_of_In.
Qed.

(** ControllerExpandVolume panics only for a volume the API server returned
    without a status, which it dereferences unchecked. *)
Lemma ControllerExpandVolume_panics fuel request :
  wp (ControllerExpandVolume fuel request) [] (λ r h, r = Panics →
    ∃ llv, cev (CGet OLLV (ex_VolumeId request) "") (inl llv) ∈ h ∧ llv_Status llv = None).
Proof.
  unfold ControllerExpandVolume. wp_step; [by apply wp_ret|].
  apply wp_then. api_cases llv err; [|done].
  apply wp_then. api_cases lvg err; [|done].
  apply wp_then, wp_ret. pose proof (align_no_panics (NewQuantity (default 0%Z
    (ex_RequiredBytes request))) lvg).
  destruct (alignToLVGExtentOrStatusErr _ lvg) as [aligned|err| |]; try done.
  destruct (llv_Status llv) as [st|] eqn:Hst.
  2:{ apply wp_ret. intros _. exists llv. split; [right; by left|done]. }
  wp_step; [by apply wp_ret|]. wp_step; [by apply wp_ret|].
  unfold expand_to, ExpandLVMLogicalVolume.
  apply wp_then. api_cases llv' err; [|done].
  apply wp_then. eapply wp_mono; [apply wp_wait_no_panics|].
  intros [u|err| |] h' Hr; [by apply wp_ret|done..].
Qed.

(** ** CreateSnapshot *)

(** C37: a CreateSnapshot that succeeds took a snapshot of a Thin volume: its
    size is the actual size of the source, which is known and no larger than
    the free space of the thin pool; the snapshot was created with the name of
    the request, or had been; and the last object read is that snapshot, not
    being deleted and Created by the node agent. *)
Theorem CreateSnapshot_success fuel request :
  wp (CreateSnapshot fuel request) [] (ok (λ snap h, ∃ llv st lvg poolName free r llvs now past,
    cev (CGet OLLV (csr_SourceVolumeId request) "") (inl llv) ∈ past ∧
    llv_Type (llv_Spec llv) = LVMTypeThin ∧ llv_Status llv = Some st ∧
    cev (CGetVG (llv_LVMVolumeGroupName (llv_Spec llv))) (inl lvg) ∈ past ∧
    llv_Thin (llv_Spec llv) = Some poolName ∧
    GetLVMThinPoolFreeSpace lvg poolName = Done free ∧
    (Value (llv_ActualSize st) ≠ 0 ∧ Value (llv_ActualSize st) ≤ Value free)%Z ∧
    (∃ spec, llvs_LVMLogicalVolumeName spec = GetName llv ∧
      cev (CCreate OLLVS (mkLLVS (new_meta (csr_Name request)) spec None)) r ∈ past ∧
      match r with inl _ => True | inr err => IsAlreadyExists err = true end) ∧
    h = cev UnixNow now :: cev (CGet OLLVS (csr_Name request) "") (inl llvs) :: past ∧
    om_DeletionTimestamp (llvs_meta llvs) = None ∧
    (∃ s, llvs_Status llvs = Some s ∧ llvs_Phase s = LLVSStatusCreated) ∧
    snap = mkSnapshot (csr_Name request) (csr_SourceVolumeId request)
             (Value (llv_ActualSize st)) now true)).
Proof.
  unfold CreateSnapshot. apply wp_then. api_cases llv err; [|done].
  apply wp_then. unfold snapshot_size. case_bool_decide as Hthin; cbn [negb]; [|by apply wp_ret].
  destruct (llv_Status llv) as [st|] eqn:Hst; [|by apply wp_ret].
  destruct (_ =? 0)%Z eqn:Hz; [by apply wp_ret|].
  apply wp_then. api_cases lvg err; [|done].
  apply wp_ret. destruct (llv_Thin _) as [poolName|] eqn:Hpool; [|done].
  destruct (GetLVMThinPoolFreeSpace lvg poolName) as [free|err| |] eqn:Hfree; try done.
  destruct (_ <? _)%Z eqn:Hfit; [done|].
  unfold create_snapshot, CreateLVMLogicalVolumeSnapshot. apply wp_call_bind. intros r.
  set (ec := Ev _ r). simpl in r. cbv zeta.
  destruct (match r with inl _ => None | inr err => _ end) as [err|] eqn:Hr; [by apply wp_ret|].
  apply wp_bind. unfold WaitForLLVSStatusUpdate.
  eapply wp_mono; [apply wp_and; [apply (wp_poll_loop_done OLLVS)|apply wp_extends]|].
  intros [o|err| |] h' [Hw [new Hnew]]; try by apply wp_ret.
  2:{ apply wp_bind. intros d h2 _. by apply wp_ret. }
  destruct (Hw o eq_refl) as (llvs & past & Hh' & Hp). clear Hw.
  apply wp_call_bind. intros now. apply wp_ret. bool_simpl.
  rewrite Hh' in Hnew. destruct new as [|ev new].
  { by apply (f_equal (λ l, ev_op <$> head l)) in Hnew. }
  apply (f_equal tail) in Hnew. simpl in Hnew. subst past.
  unfold llvs_poll in Hp. destruct (llvs_Status llvs) as [s|] eqn:Hs; [|done].
  destruct (om_DeletionTimestamp (llvs_meta llvs)) eqn:Hdel; simpl in Hp; [done|].
  repeat case_bool_decide; try done.
  set (h3 := [ec; _; _]) in Hh'. set (past := (new ++ h3)%list) in Hh'.
  assert (Hpast : ∀ ev, ev ∈ h3 → ev ∈ past).
  { intros ev' Hev. apply elem_of_app. by right. }
  exists llv, st, lvg, poolName, free, r, llvs, now, past. split_and!; try done.
  - apply Hpast. right. right. by left.
  - apply Hpast. right. by left.
  - eexists. split; [|split; [apply Hpast; by left|]]; [done|].
    destruct r as [?|err]; [done|]. by destruct (IsAlreadyExists err).
  - rewrite Hh'. done.
  - by exists s.
Qed.
End safety.
