(* ===== verification/CSIRelease.v ===== *)
(** * What the CSI driver may let go

    Which LVMLogicalVolumes and LVMLogicalVolumeSnapshots each call of the
    controller service updates: the guarantee the driver gives to whoever shares
    the API server with it.  A call to create or to delete a volume writes to no
    other volume, and a call about a snapshot to no other snapshot; whatever else
    a call updates keeps its metadata, and so its finalizers, as they were read. *)

From S2P Require Import Prelude Effects Kube GC LSC CSI CSIController CSISizes CSIVolumes.

Local Open Scope string_scope.

Section release.
Context `{ApiMachinery, !Quantities, VolumeGroupsYaml, LabelSelectors}.

Abbreviation csi A := (prog csiSig (outcome A)).
Abbreviation hist := (history csiSig).
Abbreviation cev := (Ev (S := csiSig)).

(** The calls that write. *)
Inductive csi_request :=
| RCreateVolume (e : edition) (fuel : nat) (request : CreateVolumeRequest)
| RDeleteVolume (e : edition) (volumeId : string)
| RExpandVolume (fuel : nat) (request : ControllerExpandVolumeRequest)
| RCreateSnapshot (fuel : nat) (request : CreateSnapshotRequest)
| RDeleteSnapshot (snapshotId : string).

Definition serve_request (r : csi_request) : prog csiSig unit :=
  match r with
  | RCreateVolume e fuel request => _ ← CreateVolume e fuel request; mret tt
  | RDeleteVolume e volumeId => _ ← DeleteVolume e volumeId; mret tt
  | RExpandVolume fuel request => _ ← ControllerExpandVolume fuel request; mret tt
  | RCreateSnapshot fuel request => _ ← CreateSnapshot fuel request; mret tt
  | RDeleteSnapshot snapshotId => _ ← DeleteSnapshot snapshotId; mret tt
  end.

(** The object of a kind a call may let go: the one it is asked to delete, and
    the one it is asked to create, when it does not become ready. *)
Definition may_release (k : okind) (r : csi_request) : option string :=
  match k, r with
  | OLLV, RCreateVolume _ _ request => Some (cr_Name request)
  | OLLV, RDeleteVolume _ volumeId => Some volumeId
  | OLLVS, RCreateSnapshot _ request => Some (csr_Name request)
  | OLLVS, RDeleteSnapshot snapshotId => Some snapshotId
  | _, _ => None
  end.

(** An object, if it is of the kind. *)
Definition as_kind (k : okind) {k'} : kobj k' → option (kobj k) :=
  match k', k with
  | OLLV, OLLV => Some | OLLVS, OLLVS => Some | _, _ => λ _, None
  end.

Lemma as_kind_same k (o : kobj k) : as_kind k o = Some o.
Proof. by destruct k. Qed.

(** Documented behaviour of the API server: an object is answered under the name
    it was asked for. *)
Definition named (e : event csiSig) : Prop :=
  match ev_op e as o return csi_res o → Prop with
  | CGet k n _ => λ r, ∀ o, r = inl o → GetName o = n
  | CUpdate k o => λ r, ∀ o', r = inl o' → GetName o' = GetName o
  | _ => λ _, True
  end (ev_res e).

Section justified.
Context (k : okind).

(** The object of the kind an event updates. *)
Definition updated_object (e : event csiSig) : option (kobj k) :=
  match ev_op e with CUpdate k' o => as_kind k o | _ => None end.

(** An update is of the object the call is about, or it has the metadata of one
    that was read. *)
Definition update_justified (target : option string) (e : event csiSig) (past : hist) : Prop :=
  ∀ o, updated_object e = Some o →
    (Forall named past → target = Some (GetName o)) ∨
    ∃ n ns (base : kobj k), cev (CGet k n ns) (inl base) ∈ past ∧ meta_of o = meta_of base.

Definition no_update (e : event csiSig) : Prop := updated_object e = None.

Lemma no_update_justified target e past : no_update e → update_justified target e past.
Proof. intros He o Ho. unfold no_update in He. congruence. Qed.

Definition justified_for (target : option string) (h : hist) : Prop :=
  always (update_justified target) h.

Lemma justified_cons target e h : no_update e → justified_for target h → justified_for target (e :: h).
Proof. split; [by apply no_update_justified|done]. Qed.

(** A part that updates no object of the kind. *)
Lemma wp_no_update {A} target (p : prog csiSig A) h :
  emits no_update p → justified_for target h →
  wp p h (λ _ h', justified_for target h' ∧ ∃ new, h' = (new ++ h)%list).
Proof.
  intros Hp Hj. eapply wp_mono; [apply Hp|]. intros a h' (new & -> & Hn).
  split; [|by exists new]. eapply always_emitted; [|done|done].
  intros e l. apply no_update_justified.
Qed.

Lemma named_cons e (h : hist) : Forall named (e :: h) → named e ∧ Forall named h.
Proof. by rewrite Forall_cons. Qed.

(** The loop that removes a finalizer writes to the object it was given. *)
Lemma remove_attempts_about target finalizer tries (o : kobj k) h :
  justified_for target h → (Forall named h → target = Some (GetName o)) →
  wp (remove_attempts k finalizer tries o) h (λ _ h', justified_for target h').
Proof.
  revert o h. induction tries as [|tries IH]; intros o h Hj Hn; simpl; [by apply wp_ret|].
  destruct (delete_first _ _) as [fs removed]. destruct removed; simpl; [|by apply wp_ret].
  assert (Hu : ∀ r, justified_for target
    (cev (CUpdate k (with_meta (SetFinalizers fs) o)) r :: h)).
  { intros r. split; [|done]. intros v Hv. unfold updated_object in Hv. cbn [ev_op] in Hv.
    rewrite as_kind_same in Hv. injection Hv as <-. left. intros Hall. rewrite (Hn Hall).
    unfold GetName. by rewrite meta_with_meta. }
  apply wp_call_bind. intros [o'|err]; [by apply wp_ret|].
  destruct (IsConflict err); simpl; [|by apply wp_ret]. destruct tries as [|tries]; [by apply wp_ret|].
  apply wp_call_bind. intros [|]; [by apply wp_ret, justified_cons|].
  apply wp_call_bind. intros u. apply wp_call_bind. intros [fresh|err'].
  - apply IH; [by do 3 (apply justified_cons; [done|])|].
    intros (Hf & (_ & (_ & (_ & Hall)%named_cons)%named_cons)%named_cons)%named_cons.
    etrans; [exact (Hn Hall)|]. f_equal. symmetry. exact (Hf fresh eq_refl).
  - apply wp_ret. by do 3 (apply justified_cons; [done|]).
Qed.
End justified.

Lemma DeleteLVMLogicalVolume_about name cleanup h :
  justified_for OLLV (Some name) h →
  wp (DeleteLVMLogicalVolume name cleanup) h (λ _ h', justified_for OLLV (Some name) h').
Proof.
  intros Hj. unfold DeleteLVMLogicalVolume, andThen.
  apply wp_bind; api_call r; revert r; intros [llv|err]; cbn [orAPI orStatus];
    [|by apply wp_ret, justified_cons].
  assert (Hu : ∀ r, justified_for OLLV (Some name)
    (cev (CUpdate OLLV (set_cleanup cleanup llv)) r :: cev (CGet OLLV name "") (inl llv) :: h)).
  { intros r. split; [|by apply justified_cons]. intros v [= <-]. left.
    intros (Hf & _)%named_cons. f_equal. symmetry. exact (Hf llv eq_refl). }
  apply wp_bind; api_call r; revert r; intros [llv'|err]; cbn [orAPI orStatus]; [|by apply wp_ret].
  apply wp_bind. eapply wp_mono.
  - apply (remove_attempts_about OLLV); [apply Hu|]. intros (Hf & (Hf' & _)%named_cons)%named_cons.
    f_equal. etrans; [symmetry; exact (Hf' llv eq_refl)|]. symmetry. exact (Hf llv' eq_refl).
  - intros [r|err| |] h' Hh; try by apply wp_ret.
    cbn [snd]. api_call d. by apply justified_cons.
Qed.

(** ** The calls *)

Ltac reads :=
  repeat first
    [ emits_step
    | match goal with
      | |- emits ?P (csi_call ?o) => refine (emits_call (S := csiSig) P o _); by intros ?
      | |- emits _ (GetLVMLogicalVolume _ _) => unfold GetLVMLogicalVolume
      | |- emits _ (GetLVMLogicalVolumeSnapshot _ _) => unfold GetLVMLogicalVolumeSnapshot
      | |- emits _ (GetLVMVolumeGroup _) => unfold GetLVMVolumeGroup
      | |- emits _ GetLVGList => unfold GetLVGList
      | |- emits _ (andThen _ _) => unfold andThen
      end
    | progress cbv zeta
    | progress intros ].

Lemma poll_loop_no_update k k' poll name namespace fuel :
  emits (no_update k) (poll_loop k' poll name namespace fuel).
Proof. induction fuel as [|fuel IH]; cbn [poll_loop]; reads; apply IH. Qed.

Lemma WaitForStatusUpdate_no_update k fuel name namespace size extent :
  emits (no_update k) (WaitForStatusUpdate fuel name namespace size extent).
Proof.
  unfold WaitForStatusUpdate. destruct (AlignSizeToExtent _ _); try apply emits_ret.
  apply (poll_loop_no_update k OLLV).
Qed.

Lemma WaitForLLVSStatusUpdate_no_update k fuel name :
  emits (no_update k) (WaitForLLVSStatusUpdate fuel name).
Proof. apply (poll_loop_no_update k OLLVS). Qed.

Lemma remove_attempts_other k k' finalizer tries (o : kobj k') :
  k' ≠ k → emits (no_update k) (remove_attempts k' finalizer tries o).
Proof.
  intros Hk. revert o. induction tries as [|tries IH]; intros o; cbn [remove_attempts]; [apply emits_ret|].
  assert (Hu : ∀ o r, no_update k (cev (CUpdate k' o) r)) by (by destruct k, k').
  reads; apply IH.
Qed.

Ltac quiet :=
  reads; first
    [ by apply (remove_attempts_other OLLVS OLLV) | by apply (remove_attempts_other OLLV OLLVS)
    | apply poll_loop_no_update | apply WaitForStatusUpdate_no_update | apply WaitForLLVSStatusUpdate_no_update ].

(** ** Volumes *)

Lemma DeleteLVMLogicalVolume_no_snapshot name cleanup :
  emits (no_update OLLVS) (DeleteLVMLogicalVolume name cleanup).
Proof. unfold DeleteLVMLogicalVolume, removeLLVFinalizerIfExist. quiet. Qed.

Lemma place_no_update k e request lvgs params bindingMode lvmType size :
  emits (no_update k) (place e request lvgs params bindingMode lvmType size).
Proof. unfold place, place_restored, place_cloned. reads. Qed.

Lemma groups_no_update k param : emits (no_update k) (GetStorageClassLVGsAndParameters param).
Proof. unfold GetStorageClassLVGsAndParameters. reads. Qed.

Lemma CreateVolume_about k e fuel request :
  wp (CreateVolume e fuel request) []
    (λ _ h, justified_for k (may_release k (RCreateVolume e fuel request)) h).
Proof.
  set (target := may_release k _).
  unfold CreateVolume. do 3 (wp_step; [by apply wp_ret|]). cbv zeta. wp_step; [by apply wp_ret|].
  apply wp_bind. eapply wp_mono; [by apply (wp_no_update k target _ _ (groups_no_update _ _))|].
  intros [[lvgs params]|err| |] h1 [Hj1 _]; try by apply wp_ret.
  apply wp_bind. eapply wp_mono; [apply (wp_no_update k _ _ _ (place_no_update _ _ _ _ _ _ _ _) Hj1)|].
  intros [pl|err| |] h2 [Hj2 _]; try by apply wp_ret.
  unfold create_placed. cbv zeta. wp_step; [by apply wp_ret|].
  apply wp_call_bind. intros created. destruct (match created with inl _ => _ | inr _ => _ end);
    [by apply wp_ret, justified_cons|].
  apply wp_bind. eapply wp_mono.
  { eapply wp_no_update; [apply WaitForStatusUpdate_no_update|by apply justified_cons]. }
  intros [llv|err| |] h3 [Hj3 _]; try by apply wp_ret.
  apply wp_bind. apply (wp_mono _ _ (λ _ h, justified_for k target h)).
  - destruct k; [by apply DeleteLVMLogicalVolume_about|].
    eapply wp_mono; [by apply (wp_no_update OLLVS target _ _ (DeleteLVMLogicalVolume_no_snapshot _ _))|].
    by intros ? ? [].
  - intros r h4 Hj4. by apply wp_ret.
Qed.

Lemma DeleteVolume_about k e volumeId :
  wp (DeleteVolume e volumeId) [] (λ _ h, justified_for k (may_release k (RDeleteVolume e volumeId)) h).
Proof.
  set (target := may_release k _).
  unfold DeleteVolume. wp_step; [by apply wp_ret|]. apply wp_bind. eapply wp_mono.
  { apply (wp_no_update k target); [|done]. unfold GetLSCBeforeLLVDelete. reads. }
  intros found h1 [Hj _]. cbv zeta. wp_step; [by apply wp_ret|].
  destruct k; [by apply DeleteLVMLogicalVolume_about|].
  eapply wp_mono; [by apply (wp_no_update OLLVS target _ _ (DeleteLVMLogicalVolume_no_snapshot _ _))|].
  by intros ? ? [].
Qed.

(** Growing a volume writes its size, nothing else. *)
Lemma ControllerExpandVolume_about fuel request :
  wp (ControllerExpandVolume fuel request) [] (λ _ h, justified_for OLLV None h).
Proof.
  unfold ControllerExpandVolume. wp_step; [by apply wp_ret|].
  apply wp_bind; api_call r; revert r; intros [llv|err]; cbn [orAPI orStatus]; [|by apply wp_ret].
  apply wp_bind; api_call r; revert r; intros [lvg|err]; cbn [orAPI orStatus]; [|by apply wp_ret].
  apply wp_bind, wp_ret. destruct (alignToLVGExtentOrStatusErr _ _) as [aligned|err| |]; try by apply wp_ret.
  destruct (llv_Status llv) as [st|]; [|by apply wp_ret].
  do 2 (wp_step; [by apply wp_ret|]).
  unfold expand_to, ExpandLVMLogicalVolume. apply wp_bind; api_call r.
  assert (Hu : justified_for OLLV None (cev (CUpdate OLLV (set_size (QuantityString
      (NewQuantity (default 0%Z (ex_RequiredBytes request)))) llv)) r ::
    cev (CGetVG (llv_LVMVolumeGroupName (llv_Spec llv))) (inl lvg) ::
    [cev (CGet OLLV (ex_VolumeId request) "") (inl llv)])).
  { split; [|by repeat (apply justified_cons; [done|])]. intros v [= <-]. right.
    eexists _, _, llv. split; [by right; left|done]. }
  destruct r as [llv'|err]; cbn [orStatus]; [|by apply wp_ret].
  apply wp_bind. eapply wp_mono; [by eapply wp_no_update; [apply WaitForStatusUpdate_no_update|]|].
  intros [u|err| |] h [Hj _]; by apply wp_ret.
Qed.

Lemma ControllerExpandVolume_no_snapshot fuel request :
  emits (no_update OLLVS) (ControllerExpandVolume fuel request).
Proof. unfold ControllerExpandVolume, expand_to, ExpandLVMLogicalVolume. quiet. Qed.

(** ** Snapshots *)

Lemma DeleteLVMLogicalVolumeSnapshot_about name h :
  justified_for OLLVS (Some name) h →
  wp (DeleteLVMLogicalVolumeSnapshot name) h (λ _ h', justified_for OLLVS (Some name) h').
Proof.
  intros Hj. unfold DeleteLVMLogicalVolumeSnapshot, andThen.
  apply wp_bind; api_call r; revert r; intros [llvs|err]; cbn [orAPI orStatus];
    [|by apply wp_ret, justified_cons].
  apply wp_bind. eapply wp_mono.
  - apply (remove_attempts_about OLLVS); [by apply justified_cons|]. intros (Hf & _)%named_cons.
    f_equal. symmetry. exact (Hf llvs eq_refl).
  - intros [r|err| |] h' Hh; try by apply wp_ret.
    cbn [snd]. api_call d. by apply justified_cons.
Qed.

Lemma DeleteLVMLogicalVolumeSnapshot_no_volume name :
  emits (no_update OLLV) (DeleteLVMLogicalVolumeSnapshot name).
Proof. unfold DeleteLVMLogicalVolumeSnapshot, removeLLVSFinalizerIfExist. quiet. Qed.

(** Deleting a snapshot, as part of a call about it. *)
Lemma delete_snapshot_about k name h :
  let target := match k with OLLV => None | OLLVS => Some name end in
  justified_for k target h →
  wp (DeleteLVMLogicalVolumeSnapshot name) h (λ _ h', justified_for k target h').
Proof.
  destruct k; cbv zeta; intros Hj; [|by apply DeleteLVMLogicalVolumeSnapshot_about].
  eapply wp_mono; [by apply (wp_no_update OLLV None _ _ (DeleteLVMLogicalVolumeSnapshot_no_volume _))|].
  by intros ? ? [].
Qed.

Lemma snapshot_size_no_update k llv : emits (no_update k) (snapshot_size llv).
Proof. unfold snapshot_size. reads. Qed.

Lemma CreateSnapshot_about k fuel request :
  wp (CreateSnapshot fuel request) []
    (λ _ h, justified_for k (may_release k (RCreateSnapshot fuel request)) h).
Proof.
  assert (may_release k (RCreateSnapshot fuel request) =
    match k with OLLV => None | OLLVS => Some (csr_Name request) end) as -> by (by destruct k).
  set (target := match k with OLLV => _ | OLLVS => _ end). unfold CreateSnapshot.
  apply wp_bind; api_call r; revert r; intros [llv|err]; cbn [orAPI orStatus];
    [|by apply wp_ret, justified_cons].
  apply wp_bind. eapply wp_mono.
  { apply (wp_no_update k target _ _ (snapshot_size_no_update _ _)). by apply justified_cons. }
  intros [size|err| |] h1 [Hj1 _]; try by apply wp_ret.
  unfold create_snapshot, CreateLVMLogicalVolumeSnapshot. cbv zeta.
  apply wp_call_bind. intros created. destruct (match created with inl _ => _ | inr _ => _ end);
    [by apply wp_ret, justified_cons|].
  apply wp_bind. eapply wp_mono.
  { eapply wp_no_update; [apply WaitForLLVSStatusUpdate_no_update|by apply justified_cons]. }
  intros [llvs|err| |] h2 [Hj2 _]; try by apply wp_ret.
  - apply wp_call_bind. intros now. by apply wp_ret, justified_cons.
  - apply wp_bind. eapply wp_mono; [by apply (delete_snapshot_about k (csr_Name request))|].
    intros r h3 Hj3. by apply wp_ret.
Qed.

(** Every call, and all of it: whatever it updates is the object it may let go,
    or keeps the metadata it was read with. *)
Lemma serve_about k r : wp (serve_request r) [] (λ _ h, justified_for k (may_release k r) h).
Proof.
  destruct r as [e fuel request|e volumeId|fuel request|fuel request|snapshotId]; cbn [serve_request]; apply wp_bind.
  - eapply wp_mono; [apply (CreateVolume_about k)|]. intros ? ? ?. by apply wp_ret.
  - eapply wp_mono; [apply (DeleteVolume_about k)|]. intros ? ? ?. by apply wp_ret.
  - destruct k.
    + eapply wp_mono; [apply ControllerExpandVolume_about|]. intros ? ? ?. by apply wp_ret.
    + eapply wp_mono; [by apply (wp_no_update OLLVS None _ _ (ControllerExpandVolume_no_snapshot _ _))|].
      intros ? ? [? _]. by apply wp_ret.
  - eapply wp_mono; [apply (CreateSnapshot_about k)|]. intros ? ? ?. by apply wp_ret.
  - assert (may_release k (RDeleteSnapshot snapshotId) =
      match k with OLLV => None | OLLVS => Some snapshotId end) as -> by (by destruct k).
    unfold DeleteSnapshot. wp_step; [apply wp_ret; by apply wp_ret|]. apply wp_bind.
    eapply wp_mono; [by apply (delete_snapshot_about k snapshotId)|]. intros ? ? ?. by apply wp_ret, wp_ret.
Qed.
End release.
