(* ===== verification/CSINode.v ===== *)
(** * The CSI driver: the node service

    images/sds-local-volume-csi/driver/node.go, pkg/utils/node_store_manager.go
    and internal/inflight.go.  The operating system, k8s.io/mount-utils and the
    table of the volumes in flight are effects; the table itself is the state
    machine of CSIInFlight.  Wrapping an error changes its text only, so a
    wrapped error is the error; log lines are left out. *)

From S2P Require Import Prelude Effects Kube CSI.

Local Open Scope string_scope.

(** ** Constants *)

Definition FSTypeExt4 := "ext4".
Definition FSTypeXfs := "xfs".
Definition defaultFsType := FSTypeExt4.
Definition ValidFSTypes : list string := [FSTypeExt4; FSTypeXfs].

Inductive NodeCapability := STAGE_UNSTAGE_VOLUME | EXPAND_NODE_VOLUME | GET_VOLUME_STATS.

Definition nodeCaps : list NodeCapability :=
  [STAGE_UNSTAGE_VOLUME; EXPAND_NODE_VOLUME; GET_VOLUME_STATS].

(** A capability in the wrapper of its RPC. *)
Record NodeServiceCapability := mkNodeServiceCapability { nsc_Rpc_Type : NodeCapability }.

(** NodeGetCapabilities *)
Definition NodeGetCapabilities : list NodeServiceCapability := map mkNodeServiceCapability nodeCaps.

(** [os.ModeDevice], and [S_IFMT], [S_IFBLK] of stat (2). *)
Definition ModeDevice : Z := Z.shiftl 1 26.
Definition S_IFMT : Z := 61440.
Definition S_IFBLK : Z := 24576.

(** ** Strings *)

(** [strings.ToLower] on ASCII letters; other characters cannot make a string
    one of ValidFSTypes. *)
Definition lower_byte (c : Ascii.ascii) : Ascii.ascii :=
  let n := Ascii.nat_of_ascii c in
  if bool_decide (65 ≤ n)%nat && bool_decide (n ≤ 90)%nat then Ascii.ascii_of_nat (n + 32)%nat else c.

Fixpoint ToLower (s : string) : string :=
  match s with
  | EmptyString => ""
  | String c s => String (lower_byte c) (ToLower s)
  end.

(** [strings.ReplaceAll] of a one-byte string. *)
Fixpoint ReplaceAll (s : string) (old : Ascii.ascii) (new : string) : string :=
  match s with
  | EmptyString => ""
  | String c s =>
      if bool_decide (c = old) then (new +:+ ReplaceAll s old new)%string
      else String c (ReplaceAll s old new)
  end.

(** [s[n:]]. *)
Fixpoint string_drop (n : nat) (s : string) : string :=
  match n, s with
  | S n, String _ s => string_drop n s
  | _, _ => s
  end.

(** [strings.TrimPrefix]. *)
Definition TrimPrefix (s prefix : string) : string :=
  if HasPrefix s prefix then string_drop (String.length prefix) s else s.

(** [strings.Contains]. *)
Fixpoint strings_Contains (s substr : string) : bool :=
  HasPrefix s substr
  || match s with EmptyString => false | String _ s => strings_Contains s substr end.

(** [strings.SplitN (s, sep, n)] for a one-byte separator and [1 ≤ n]. *)
Fixpoint SplitN (s : string) (sep : Ascii.ascii) (n : nat) : list string :=
  match n with
  | O => []
  | S O => [s]
  | S n =>
      (fix split (s : string) (part : string) : list string :=
         match s with
         | EmptyString => [part]
         | String c s =>
             if bool_decide (c = sep) then part :: SplitN s sep n
             else split s (part +:+ String c "")
         end) s ""
  end.

Definition digit_value (c : Ascii.ascii) : option Z :=
  let n := Ascii.nat_of_ascii c in
  if bool_decide (48 ≤ n)%nat && bool_decide (n ≤ 57)%nat then Some (Z.of_nat n - 48)%Z else None.

Fixpoint digits (s : string) (acc : Z) : option Z :=
  match s with
  | EmptyString => Some acc
  | String c s => d ← digit_value c; digits s (acc * 10 + d)%Z
  end.

(** [strconv.Atoi]: an optional sign, at least one digit, in the range of int. *)
Definition Atoi (s : string) : option Z :=
  let '(sign, rest) :=
    match s with
    | String c s' => if bool_decide (String c "" = "-") then ((-1)%Z, s')
                     else if bool_decide (String c "" = "+") then (1%Z, s') else (1%Z, s)
    | EmptyString => (1%Z, "")
    end in
  if bool_decide (rest = "") then None
  else n ← digits rest 0;
       let n := (sign * n)%Z in
       if (int64_min <=? n)%Z && (n <=? int64_max)%Z then Some n else None.

(** readCString; a byte of the result is the int8 modulo 256. *)
Fixpoint readCString (arr : list Z) : string :=
  match arr with
  | [] => ""
  | v :: arr =>
      if (v =? 0)%Z then ""
      else String (Ascii.ascii_of_nat (Z.to_nat (v mod 256))) (readCString arr)
  end.

(** toMapperPath *)
Definition toMapperPath (devPath : string) : string :=
  if negb (HasPrefix devPath "/dev/") then ""
  else
    let shortPath := TrimPrefix devPath "/dev/" in
    let mapperPath := ReplaceAll shortPath (Ascii.ascii_of_nat 45) "--" in
    let mapperPath := ReplaceAll mapperPath (Ascii.ascii_of_nat 47) "-" in
    "/dev/mapper/" +:+ mapperPath.

(** The device of a volume. *)
Definition devPath_of (vgName volumeId : string) : string :=
  "/dev/" +:+ vgName +:+ "/" +:+ volumeId.

(** ** Mount options *)

(** The loop of collectMountOptions. *)
Definition add_option (mountOptions : list string) (opt : string) : list string :=
  if contains mountOptions opt then mountOptions else (mountOptions ++ [opt])%list.

(** collectMountOptions *)
Definition collectMountOptions (fsType : string) (mountFlags mountOptions : list string)
    : list string :=
  let mountOptions := foldl add_option mountOptions mountFlags in
  if bool_decide (fsType = FSTypeXfs) then add_option mountOptions "nouuid" else mountOptions.

(** ** Effects *)

(** An error of the operating system, of mount-utils or of a command. *)
Record os_error := mkOSError {
  oe_text : string;
  oe_IsExist : bool;
  oe_IsNotExist : bool;
}.

(** [mountutils.MountPoint]. *)
Record MountPoint := mkMountPoint {
  mp_Device : string;
  mp_Path : string;
  mp_Opts : list string;
}.

(** [syscall.Statfs_t]; the counts are uint64, the block size an int64. *)
Record Statfs_t := mkStatfs {
  sf_Bsize : Z;
  sf_Blocks : Z;
  sf_Bfree : Z;
  sf_Bavail : Z;
  sf_Files : Z;
  sf_Ffree : Z;
}.

Inductive node_op :=
| InFlightInsert (key : string)
| InFlightDelete (key : string)
| Uname
| OsStat (path : string)                               (* the mode *)
| UnixStat (path : string)                             (* the mode *)
| PathExists (path : string)
| MkdirAll (path : string)
| OpenCreate (path : string)
| OpenRead (path : string)
| IoctlBlkGetSize64 (path : string)
| CloseFile (path : string)
| Statfs (path : string)
| IsMountPoint (path : string)
| GetDeviceNameFromMount (path : string)
| FormatAndMount (source target fsType : string) (options formatOptions : list string)
| Mount (source target fsType : string) (options : list string)
| ListMounts
| CleanupMountPoint (path : string)
| ResizeFs_Resize (device path : string)
| ResizeFs_NeedResize (device path : string).

Definition node_res (o : node_op) : Type :=
  match o with
  | InFlightInsert _ => bool
  | InFlightDelete _ => unit
  | Uname => list Z + os_error
  | OsStat _ | UnixStat _ => Z + os_error
  | PathExists _ => bool + os_error
  | MkdirAll _ | OpenCreate _ | OpenRead _ => option os_error
  | IoctlBlkGetSize64 _ => Z + os_error
  | CloseFile _ => unit
  | Statfs _ => Statfs_t + os_error
  | IsMountPoint _ => bool + os_error
  | GetDeviceNameFromMount _ => string + os_error
  | FormatAndMount _ _ _ _ _ | Mount _ _ _ _ | CleanupMountPoint _ => option os_error
  | ListMounts => list MountPoint + os_error
  | ResizeFs_Resize _ _ => bool + os_error
  | ResizeFs_NeedResize _ _ => bool + os_error
  end.

Definition nodeSig : sig := Sig node_op node_res.

Definition node_call (o : node_op) : prog nodeSig (node_res o) := call (S := nodeSig) o.

(** ** The store *)

(** What a function of the store fails with. *)
Inductive store_error :=
| OSError (e : os_error)
| NotADevice
| MountedElsewhere
| NotReadOnly
| MountNotFound.

Abbreviation store A := (prog nodeSig (A + store_error)).

Definition andAlso {A B} (p : store A) (f : A → store B) : store B :=
  r ← p; match r with inl a => f a | inr e => mret (inr e) end.

Definition fails {A} (e : store_error) : store A := mret (inr e).

(** An operation whose error is returned. *)
Definition orFail {A} (r : A + os_error) : A + store_error :=
  match r with inl a => inl a | inr e => inr (OSError e) end.

(** The same for an operation that returns only an error. *)
Definition orError (r : option os_error) : unit + store_error :=
  match r with None => inl tt | Some e => inr (OSError e) end.

(** The check that the source is a device. *)
Definition require_device (source : string) : store unit :=
  andAlso (orFail <$> node_call (OsStat source)) (λ mode : Z,
    if bool_decide (Z.land mode ModeDevice = ModeDevice) then mret (inl tt)
    else fails NotADevice).

(** NodeStageVolumeFS *)
Definition NodeStageVolumeFS (source target fsType : string)
    (mountOpts formatOpts : list string) : store unit :=
  andAlso (require_device source) (λ _,
  andAlso (orFail <$> node_call (PathExists target)) (λ exists_,
  andAlso (if exists_ : bool then mret (inl tt)
           else orError <$> node_call (MkdirAll target)) (λ _,
  andAlso (orFail <$> node_call (IsMountPoint target)) (λ isMountPoint,
  if isMountPoint : bool
  then
    andAlso (orFail <$> node_call (GetDeviceNameFromMount target)) (λ mountedDevicePath,
      if negb (bool_decide (mountedDevicePath = source))
         && negb (bool_decide (mountedDevicePath = toMapperPath source))
      then fails MountedElsewhere else mret (inl tt))
  else orError <$> node_call (FormatAndMount source target fsType mountOpts formatOpts))))).

(** NodePublishVolumeBlock *)
Definition NodePublishVolumeBlock (source target : string) (mountOpts : list string)
    : store unit :=
  andAlso (require_device source) (λ _,
  opened ← node_call (OpenCreate target);
  match opened with
  | Some err =>
      if negb (oe_IsExist err) then fails (OSError err)
      else orError <$> node_call (Mount source target "" mountOpts)
  | None =>
      _ ← node_call (CloseFile target);
      orError <$> node_call (Mount source target "" mountOpts)
  end).

(** checkMount *)
Definition checkMount (devPath target : string) (mountOpts : list string) : store unit :=
  andAlso (orFail <$> node_call ListMounts) (λ mntInfo : list MountPoint,
  mret match List.find (λ m, bool_decide (mp_Path m = target)) mntInfo with
       | None => inr MountNotFound
       | Some m =>
           if negb (bool_decide (mp_Device m = devPath))
              && negb (bool_decide (mp_Device m = toMapperPath devPath))
           then inr MountedElsewhere
           else if contains mountOpts "ro" && negb (contains (mp_Opts m) "ro")
           then inr NotReadOnly
           else inl tt
       end).

(** NodePublishVolumeFS *)
Definition NodePublishVolumeFS (source devPath target fsType : string)
    (mountOpts : list string) : store unit :=
  andAlso (orFail <$> node_call (PathExists target)) (λ exists_,
  andAlso (if exists_ : bool then orFail <$> node_call (IsMountPoint target)
           else made ← node_call (MkdirAll target);
                match made with
                | Some err => fails (OSError err)
                | None => mret (inl false)
                end) (λ isMountPoint,
  if isMountPoint : bool then checkMount devPath target mountOpts
  else orError <$> node_call (Mount source target fsType mountOpts))).

(** Unstage; an error that says "not mounted" is the desired state. *)
Definition Unstage (target : string) : store unit :=
  err ← node_call (CleanupMountPoint target);
  match err with
  | None => mret (inl tt)
  | Some err =>
      if strings_Contains (oe_text err) "not mounted" then mret (inl tt)
      else fails (OSError err)
  end.

(** Unpublish *)
Definition Unpublish (target : string) : store unit := Unstage target.

(** IsNotMountPoint *)
Definition IsNotMountPoint (target : string) : store bool :=
  notMounted ← node_call (IsMountPoint target);
  match notMounted with
  | inr err => if oe_IsNotExist err then mret (inl true) else fails (OSError err)
  | inl notMounted => mret (inl notMounted)
  end.

(** ResizeFS *)
Definition ResizeFS (mountTarget : string) : store unit :=
  andAlso (orFail <$> node_call (GetDeviceNameFromMount mountTarget)) (λ devicePath,
  andAlso (orFail <$> node_call (ResizeFs_Resize devicePath mountTarget)) (λ _ : bool,
  mret (inl tt))).

(** NeedResize *)
Definition NeedResize (devicePath deviceMountPath : string) : store bool :=
  orFail <$> node_call (ResizeFs_NeedResize devicePath deviceMountPath).

(** ** The calls *)

(** How a call ends: a gRPC status, or an error that is not one. *)
Inductive node_error := NStatus (c : code) | NPlain.

Abbreviation node A := (prog nodeSig (A + node_error)).

Definition refuse {A} (c : code) : node A := mret (inr (NStatus c)).

(** A function of the store whose error becomes Internal. *)
Definition orInternal {A B} (p : store A) (f : A → node B) : node B :=
  r ← p; match r with inl a => f a | inr _ => refuse Internal end.

(** The part of a call between Insert and the deferred Delete. *)
Definition in_flight {A} (volumeID : string) (body : node A) : node A :=
  inserted ← node_call (InFlightInsert volumeID);
  if negb inserted then refuse Aborted
  else
    r ← body;
    _ ← node_call (InFlightDelete volumeID);
    mret r.

(** needLegacyXFSSupport *)
Definition needLegacyXFSSupport : node bool :=
  release ← node_call Uname;
  match release with
  | inr _ => mret (inr NPlain)
  | inl release =>
      match SplitN (readCString release) (Ascii.ascii_of_nat 46) 3 with
      | major :: minor :: _ :: _ =>
          match Atoi major with
          | None => mret (inr NPlain)
          | Some major =>
              match Atoi minor with
              | None => mret (inr NPlain)
              | Some minor =>
                  mret (inl ((major <? 5)%Z || ((major =? 5)%Z && (minor <=? 15)%Z)))
              end
          end
      | _ => mret (inr NPlain)
      end
  end.

Record NodeStageVolumeRequest := mkStage {
  ns_VolumeId : string;
  ns_StagingTargetPath : string;
  ns_VolumeCapability : option VolumeCapability;
  ns_VolumeContext : option strmap;
}.

Record NodePublishVolumeRequest := mkPublish {
  np_VolumeId : string;
  np_StagingTargetPath : string;
  np_TargetPath : string;
  np_VolumeCapability : option VolumeCapability;
  np_Readonly : bool;
  np_VolumeContext : option strmap;
}.

(** The file system of a mount, the default one when it names none. *)
Definition fs_type_of (m : MountVolume) : string :=
  if bool_decide (mv_FsType m = "") then defaultFsType else mv_FsType m.

Definition legacy_format_options : list string :=
  ["-m"; "bigtime=0,inobtcount=0,reflink=0"; "-i"; "nrext64=0"].

(** NodeStageVolume between Insert and Delete. *)
Definition stage (devPath target fsType : string) (mountOptions formatOptions : list string)
    : node unit :=
  orInternal (orFail <$> node_call (PathExists devPath)) (λ exists_,
  if negb exists_ then refuse NotFound
  else
    orInternal (NodeStageVolumeFS devPath target fsType mountOptions formatOptions) (λ _,
    orInternal (NeedResize devPath target) (λ needResize,
    if needResize : bool then orInternal (ResizeFS target) (λ _, mret (inl tt))
    else mret (inl tt)))).

(** NodeStageVolume *)
Definition NodeStageVolume (request : NodeStageVolumeRequest) : node unit :=
  let volumeID := ns_VolumeId request in
  let target := ns_StagingTargetPath request in
  if bool_decide (volumeID = "") then refuse InvalidArgument
  else if bool_decide (target = "") then refuse InvalidArgument
  else match ns_VolumeCapability request with
  | None => refuse InvalidArgument
  | Some volCap =>
  match ns_VolumeContext request ≫= lookup VGNameKey with
  | None => refuse InvalidArgument
  | Some vgName =>
  if GetBlock volCap then mret (inl tt)
  else match GetMount volCap with
  | None => refuse InvalidArgument
  | Some mountVolume =>
      let fsType := fs_type_of mountVolume in
      if negb (contains ValidFSTypes (ToLower fsType)) then refuse InvalidArgument
      else
        legacy ← needLegacyXFSSupport;
        match legacy with
        | inr err => mret (inr err)
        | inl needLegacySupport =>
            let formatOptions := if bool_decide (fsType = FSTypeXfs) && needLegacySupport
                                 then legacy_format_options else [] in
            let mountOptions := collectMountOptions fsType (mv_MountFlags mountVolume) [] in
            in_flight volumeID
              (stage (devPath_of vgName volumeID) target fsType mountOptions formatOptions)
        end
  end
  end
  end.

(** NodeUnstageVolume *)
Definition NodeUnstageVolume (volumeID target : string) : node unit :=
  if bool_decide (volumeID = "") then refuse InvalidArgument
  else if bool_decide (target = "") then refuse InvalidArgument
  else in_flight volumeID (orInternal (Unstage target) (λ _, mret (inl tt))).

(** NodePublishVolume between Insert and Delete; a capability of no type is
    neither of the cases of the switch. *)
Definition publish (devPath source target : string) (volCap : VolumeCapability)
    (mountOptions : list string) : node unit :=
  match cap_AccessType volCap with
  | Some AccessBlock =>
      orInternal (NodePublishVolumeBlock devPath target mountOptions) (λ _, mret (inl tt))
  | Some (AccessMount mount) =>
      match mount with
      | None => refuse InvalidArgument
      | Some mountVolume =>
          let fsType := fs_type_of mountVolume in
          if negb (contains ValidFSTypes (ToLower fsType)) then refuse InvalidArgument
          else
            orInternal
              (NodePublishVolumeFS source devPath target fsType
                 (collectMountOptions fsType (mv_MountFlags mountVolume) mountOptions))
              (λ _, mret (inl tt))
      end
  | None => mret (inl tt)
  end.

(** NodePublishVolume *)
Definition NodePublishVolume (request : NodePublishVolumeRequest) : node unit :=
  let volumeID := np_VolumeId request in
  let source := np_StagingTargetPath request in
  let target := np_TargetPath request in
  if bool_decide (volumeID = "") then refuse InvalidArgument
  else if bool_decide (source = "") then refuse InvalidArgument
  else if bool_decide (target = "") then refuse InvalidArgument
  else match np_VolumeCapability request with
  | None => refuse InvalidArgument
  | Some volCap =>
      let mountOptions := if np_Readonly request then ["bind"; "ro"] else ["bind"] in
      match np_VolumeContext request ≫= lookup VGNameKey with
      | None => refuse InvalidArgument
      | Some vgName =>
          let devPath := devPath_of vgName volumeID in
          orInternal (orFail <$> node_call (PathExists devPath)) (λ exists_,
          if negb exists_ then refuse NotFound
          else in_flight volumeID (publish devPath source target volCap mountOptions))
      end
  end.

(** NodeUnpublishVolume *)
Definition NodeUnpublishVolume (volumeID target : string) : node unit :=
  if bool_decide (volumeID = "") then refuse InvalidArgument
  else if bool_decide (target = "") then refuse InvalidArgument
  else in_flight volumeID (orInternal (Unpublish target) (λ _, mret (inl tt))).

(** NodeExpandVolume *)
Definition NodeExpandVolume (volumeID volumePath : string) : node unit :=
  if bool_decide (volumeID = "") then refuse InvalidArgument
  else if bool_decide (volumePath = "") then refuse InvalidArgument
  else orInternal (ResizeFS volumePath) (λ _, mret (inl tt)).

(** IsBlockDevice *)
Definition IsBlockDevice (fullPath : string) : prog nodeSig (bool + os_error) :=
  st ← node_call (UnixStat fullPath);
  mret match st with
       | inr err => inr err
       | inl mode => inl (bool_decide (Z.land mode S_IFMT = S_IFBLK))
       end.

(** getBlockSizeBytes *)
Definition getBlockSizeBytes (devicePath : string) : prog nodeSig (Z + os_error) :=
  opened ← node_call (OpenRead devicePath);
  match opened with
  | Some err => mret (inr err)
  | None =>
      size ← node_call (IoctlBlkGetSize64 devicePath);
      _ ← node_call (CloseFile devicePath);
      mret size
  end.

Inductive VolumeUsage_Unit := BYTES | INODES.

Record VolumeUsage := mkUsage {
  vu_Available : Z;
  vu_Total : Z;
  vu_Used : Z;
  vu_Unit : VolumeUsage_Unit;
}.

(** The usage of a file system, in int64. *)
Definition fs_usage (fsStat : Statfs_t) : list VolumeUsage :=
  let available := i64 (i64 (sf_Bavail fsStat) * sf_Bsize fsStat) in
  let total := i64 (i64 (sf_Blocks fsStat) * sf_Bsize fsStat) in
  let used := i64 (i64 (i64 (sf_Blocks fsStat) - i64 (sf_Bfree fsStat)) * sf_Bsize fsStat) in
  let inodes := i64 (sf_Files fsStat) in
  let inodesFree := i64 (sf_Ffree fsStat) in
  [mkUsage available total used BYTES;
   mkUsage inodesFree inodes (i64 (inodes - inodesFree)) INODES].

(** NodeGetVolumeStats *)
Definition NodeGetVolumeStats (volumePath : string) : node (list VolumeUsage) :=
  isBlock ← IsBlockDevice volumePath;
  match isBlock with
  | inr _ => refuse Internal
  | inl true =>
      bcap ← getBlockSizeBytes volumePath;
      match bcap with
      | inr _ => refuse Internal
      | inl bcap => mret (inl [mkUsage 0 (i64 bcap) 0 BYTES])
      end
  | inl false =>
      fsStat ← node_call (Statfs volumePath);
      match fsStat with
      | inr _ => refuse Internal
      | inl fsStat => mret (inl (fs_usage fsStat))
      end
  end.

(** NodeGetInfo *)
Definition NodeGetInfo (hostID : string) : string * strmap := (hostID, {[ TopologyKey := hostID ]}).
