(* ===== verification/CSIInFlight.v ===== *)
(** * The volumes in flight

    internal/inflight.go as a state, and the calls of the node service as
    threads that interleave at every operation: what the table protects and
    that it leaks nothing. *)

From S2P Require Import Prelude Effects Kube CSI CSINode.

Local Open Scope string_scope.

(** ** The table *)

(** InFlight; the mutex makes each operation one step. *)
Record InFlight := mkInFlight { inFlight : gmap string bool }.

Definition NewInFlight : InFlight := mkInFlight ∅.

(** Insert *)
Definition Insert (key : string) (db : InFlight) : bool * InFlight :=
  match inFlight db !! key with
  | Some _ => (false, db)
  | None => (true, mkInFlight (<[key := true]> (inFlight db)))
  end.

(** Delete *)
Definition Delete (key : string) (db : InFlight) : InFlight :=
  mkInFlight (delete key (inFlight db)).

(** ** The calls *)

Inductive node_request :=
| RStage (request : NodeStageVolumeRequest)
| RUnstage (volumeID target : string)
| RPublish (request : NodePublishVolumeRequest)
| RUnpublish (volumeID target : string)
| RExpand (volumeID volumePath : string)
| RStats (volumePath : string).

Definition forget {A} (r : A + node_error) : unit + node_error :=
  match r with inl _ => inl tt | inr e => inr e end.

Definition serve (q : node_request) : node unit :=
  match q with
  | RStage request => NodeStageVolume request
  | RUnstage volumeID target => NodeUnstageVolume volumeID target
  | RPublish request => NodePublishVolume request
  | RUnpublish volumeID target => NodeUnpublishVolume volumeID target
  | RExpand volumeID volumePath => NodeExpandVolume volumeID volumePath
  | RStats volumePath => forget <$> NodeGetVolumeStats volumePath
  end.

(** The volume a call is about. *)
Definition volume_of (q : node_request) : string :=
  match q with
  | RStage request => ns_VolumeId request
  | RPublish request => np_VolumeId request
  | RUnstage volumeID _ | RUnpublish volumeID _ | RExpand volumeID _ => volumeID
  | RStats _ => ""
  end.

(** ** Interleaving *)

Record system := mkSystem {
  sys_db : InFlight;
  sys_calls : gmap nat (node_request * node unit);
}.

Inductive step : system → system → Prop :=
| step_arrive db calls t q :
    calls !! t = None →
    step (mkSystem db calls) (mkSystem db (<[t := (q, serve q)]> calls))
| step_insert db calls t q key k :
    calls !! t = Some (q, Do (S := nodeSig) (InFlightInsert key) k) →
    step (mkSystem db calls)
      (mkSystem (snd (Insert key db)) (<[t := (q, k (fst (Insert key db)))]> calls))
| step_delete db calls t q key k :
    calls !! t = Some (q, Do (S := nodeSig) (InFlightDelete key) k) →
    step (mkSystem db calls) (mkSystem (Delete key db) (<[t := (q, k tt)]> calls))
| step_operate db calls t q (o : node_op) (k : node_res o → node unit) r :
    calls !! t = Some (q, Do (S := nodeSig) o k) →
    (∀ key, o ≠ InFlightInsert key ∧ o ≠ InFlightDelete key) →
    step (mkSystem db calls) (mkSystem db (<[t := (q, k r)]> calls))
| step_return db calls t q a :
    calls !! t = Some (q, Ret a) →
    step (mkSystem db calls) (mkSystem db (delete t calls)).

Definition reachable (s : system) : Prop := rtc step (mkSystem NewInFlight ∅) s.

(** ** The discipline of a call *)

(** The operations that change what is mounted. *)
Definition changes_mounts (o : node_op) : bool :=
  match o with
  | FormatAndMount _ _ _ _ _ | Mount _ _ _ _ | CleanupMountPoint _
  | MkdirAll _ | OpenCreate _ => true
  | _ => false
  end.

(** A call on volume [id], which holds its entry of the table or not, inserts
    at most its own entry, removes it before it returns, and changes mounts
    only while it holds it. *)
Fixpoint disciplined {A} (id : string) (held : bool) (p : prog nodeSig A) : Prop :=
  match p with
  | Ret _ => held = false
  | Do o k =>
      match o as o0 return (node_res o0 → prog nodeSig A) → Prop with
      | InFlightInsert key => λ k,
          held = false ∧ key = id ∧ disciplined id true (k true) ∧ disciplined id false (k false)
      | InFlightDelete key => λ k, held = true ∧ key = id ∧ disciplined id false (k tt)
      | o0 => λ k,
          (changes_mounts o0 = true → held = true) ∧ ∀ r, disciplined id held (k r)
      end k
  end.

(** A program that leaves the table alone. *)
Definition allowed (held : bool) (o : node_op) : bool :=
  match o with
  | InFlightInsert _ | InFlightDelete _ => false
  | _ => negb (changes_mounts o) || held
  end.

Fixpoint plain {A} (held : bool) (p : prog nodeSig A) : Prop :=
  match p with
  | Ret _ => True
  | Do o k => allowed held o = true ∧ ∀ r, plain held (k r)
  end.

Lemma plain_bind {A B} held (p : prog nodeSig A) (f : A → prog nodeSig B) :
  plain held p → (∀ a, plain held (f a)) → plain held (p ≫= f).
Proof.
  intros Hp Hf. induction p as [a|o k IH]; [apply Hf|].
  destruct Hp as [Ho Hk]. split; [done|]. intros r. by apply IH.
Qed.

Lemma plain_fmap {A B} held (f : A → B) (p : prog nodeSig A) :
  plain held p → plain held (f <$> p).
Proof. intros Hp. by apply plain_bind. Qed.

Lemma plain_call held o : allowed held o = true → plain held (node_call o).
Proof. by intros Ho. Qed.

Lemma disciplined_bind {A B} id held (p : prog nodeSig A) (f : A → prog nodeSig B) :
  plain held p → (∀ a, disciplined id held (f a)) → disciplined id held (p ≫= f).
Proof.
  intros Hp Hf. induction p as [a|o k IH]; [apply Hf|]. destruct Hp as [Ho Hk].
  assert (Hrest : ∀ r, disciplined id held (k r ≫= f)) by (intros r; by apply IH).
  destruct o; try done; (split; [|exact Hrest]); destruct held; done.
Qed.

Lemma disciplined_in_flight {A} id (body : node A) :
  plain true body → disciplined id false (in_flight id body).
Proof.
  intros Hbody. simpl. split_and!; try done.
  apply disciplined_bind; [done|]. by intros r.
Qed.

Lemma disciplined_orInternal {A B} id held (p : store A) (f : A → node B) :
  plain held p → (∀ a, disciplined id held (f a)) → disciplined id held (refuse (A := B) Internal) →
  disciplined id held (orInternal p f).
Proof. intros Hp Hf Hr. apply disciplined_bind; [done|]. by intros [a|e]. Qed.

Ltac plain_steps :=
  repeat match goal with
  | |- plain _ (_ <$> _) => apply plain_fmap
  | |- plain _ (node_call _) => by apply plain_call
  | |- plain _ (orInternal _ _) => apply plain_bind; [|intros ?]
  | |- plain _ (andAlso _ _) => apply plain_bind; [|intros ?]
  | |- plain _ (_ ≫= _) => apply plain_bind; [|intros ?]
  | |- plain _ (if ?b then _ else _) => destruct b
  | |- plain _ (match ?x with _ => _ end) => destruct x
  | |- plain _ _ => done
  end.

Lemma plain_Unstage target : plain true (Unstage target).
Proof. unfold Unstage. plain_steps. Qed.

Lemma plain_ResizeFS held target : plain held (ResizeFS target).
Proof. unfold ResizeFS. plain_steps. Qed.

Lemma plain_require_device held source : plain held (require_device source).
Proof. unfold require_device. plain_steps. Qed.
#[local] Hint Resolve plain_Unstage plain_ResizeFS plain_require_device : core.

Lemma plain_stage devPath target fsType mountOptions formatOptions :
  plain true (stage devPath target fsType mountOptions formatOptions).
Proof. unfold stage, NodeStageVolumeFS, NeedResize. plain_steps. Qed.

Lemma plain_publish devPath source target volCap mountOptions :
  plain true (publish devPath source target volCap mountOptions).
Proof. unfold publish, NodePublishVolumeBlock, NodePublishVolumeFS, checkMount. plain_steps. Qed.

Lemma plain_needLegacyXFSSupport : plain false needLegacyXFSSupport.
Proof. unfold needLegacyXFSSupport. plain_steps. Qed.

Lemma serve_disciplined q : disciplined (volume_of q) false (serve q).
Proof.
  destruct q as [request|id target|request|id target|id path|path]; cbn [volume_of serve].
  - unfold NodeStageVolume. repeat case_match; try done.
    apply disciplined_bind; [apply plain_needLegacyXFSSupport|]. intros [legacy|e]; [|done].
    apply disciplined_in_flight, plain_stage.
  - unfold NodeUnstageVolume. repeat case_match; try done.
    apply disciplined_in_flight. plain_steps.
  - unfold NodePublishVolume. repeat case_match; try done.
    all: apply disciplined_orInternal; [done| |done]; intros exists_; case_match; [done|].
    all: apply disciplined_in_flight, plain_publish.
  - unfold NodeUnpublishVolume, Unpublish. repeat case_match; try done.
    apply disciplined_in_flight. plain_steps.
  - unfold NodeExpandVolume. repeat case_match; try done.
    by apply disciplined_orInternal.
  - unfold NodeGetVolumeStats, IsBlockDevice, getBlockSizeBytes.
    apply disciplined_bind; [|done]. plain_steps.
Qed.

(** ** The invariant *)

(** The calls that hold an entry: every call is disciplined about it, and the
    entries of the table are those of the calls that hold one, one each. *)
Record consistent (held : gset nat) (s : system) : Prop := {
  each_disciplined : ∀ t q p, sys_calls s !! t = Some (q, p) →
    disciplined (volume_of q) (bool_decide (t ∈ held)) p;
  holders_live : ∀ t, t ∈ held → ∃ q p, sys_calls s !! t = Some (q, p);
  entries_held : ∀ key, is_Some (inFlight (sys_db s) !! key) ↔
    ∃ t q p, t ∈ held ∧ sys_calls s !! t = Some (q, p) ∧ volume_of q = key;
  held_once : ∀ t1 t2 q1 q2 p1 p2, t1 ∈ held → t2 ∈ held →
    sys_calls s !! t1 = Some (q1, p1) → sys_calls s !! t2 = Some (q2, p2) →
    volume_of q1 = volume_of q2 → t1 = t2;
}.

Section consistency.
Context (db : InFlight) (calls : gmap nat (node_request * node unit)) (t : nat)
  (q : node_request).
Implicit Types (held : gset nat) (p : node unit).

(** The request of a call does not change when the call moves. *)
Lemma moved_call p p' t' :
  calls !! t = Some (q, p) →
  ∀ q', (∃ p0, <[t := (q, p')]> calls !! t' = Some (q', p0)) ↔ (∃ p0, calls !! t' = Some (q', p0)).
Proof.
  intros Ht q'. destruct (decide (t' = t)) as [->|Hne].
  - rewrite lookup_insert_eq, Ht. split; intros [? [= <- <-]]; eauto.
  - by rewrite lookup_insert_ne.
Qed.

Lemma disciplined_others held held' p' :
  (∀ t', t' ≠ t → t' ∈ held' ↔ t' ∈ held) →
  disciplined (volume_of q) (bool_decide (t ∈ held')) p' →
  (∀ t' q' p0, calls !! t' = Some (q', p0) →
     disciplined (volume_of q') (bool_decide (t' ∈ held)) p0) →
  ∀ t' q' p0, <[t := (q, p')]> calls !! t' = Some (q', p0) →
    disciplined (volume_of q') (bool_decide (t' ∈ held')) p0.
Proof.
  intros Hheld Hp' Hall t' q' p0. destruct (decide (t' = t)) as [->|Hne].
  - rewrite lookup_insert_eq. by intros [= <- <-].
  - rewrite lookup_insert_ne by done. intros Ht'.
    rewrite (bool_decide_ext _ _ (Hheld t' Hne)). by apply Hall.
Qed.

(** A call moves without a change to what it holds. *)
Lemma consistent_move held p p' :
  calls !! t = Some (q, p) →
  disciplined (volume_of q) (bool_decide (t ∈ held)) p' →
  consistent held (mkSystem db calls) → consistent held (mkSystem db (<[t := (q, p')]> calls)).
Proof.
  intros Ht Hp' [Hdis Hlive Hentries Honce]. split; simpl in *.
  - by apply (disciplined_others held).
  - intros t' [q' Hex]%Hlive. apply (moved_call p p' t' Ht) in Hex as [p0 ?]. eauto.
  - intros key. rewrite Hentries. split; intros (t' & q' & p0 & Hin & Hc & Hv).
    + destruct (proj2 (moved_call p p' t' Ht q')) as [p1 ?]; eauto 10.
    + destruct (proj1 (moved_call p p' t' Ht q')) as [p1 ?]; eauto 10.
  - intros t1 t2 q1 q2 p1 p2 H1 H2 Hc1 Hc2 Hv.
    destruct (proj1 (moved_call p p' t1 Ht q1)) as [? ?]; [eauto|].
    destruct (proj1 (moved_call p p' t2 Ht q2)) as [? ?]; [eauto|]. by eapply Honce.
Qed.

(** A call inserts its entry. *)
Lemma consistent_insert held p p' :
  calls !! t = Some (q, p) → t ∉ held →
  inFlight db !! volume_of q = None →
  disciplined (volume_of q) true p' →
  consistent held (mkSystem db calls) →
  consistent ({[t]} ∪ held)
    (mkSystem (mkInFlight (<[volume_of q := true]> (inFlight db))) (<[t := (q, p')]> calls)).
Proof.
  intros Ht Hnot Hnone Hp' [Hdis Hlive Hentries Honce].
  assert (Hfree : ∀ t' q' p0, t' ∈ held → calls !! t' = Some (q', p0) →
    volume_of q' ≠ volume_of q).
  { intros t' q' p0 Hin Hc Hv. destruct (proj2 (Hentries (volume_of q))) as [? ?].
    - by exists t', q', p0.
    - simpl in *. congruence. }
  split; simpl in *.
  - apply (disciplined_others held); [set_solver| |done]. rewrite bool_decide_true by set_solver.
    done.
  - intros t' [->%elem_of_singleton|Hin]%elem_of_union; [rewrite lookup_insert_eq; eauto|].
    destruct (Hlive t' Hin) as [q' Hex]. apply (moved_call p p' t' Ht) in Hex as [p0 ?]. eauto.
  - intros key. destruct (decide (key = volume_of q)) as [->|Hne].
    + rewrite lookup_insert_eq. split; [|by eexists]. intros _. exists t, q, p'.
      rewrite lookup_insert_eq. split; [set_solver|done].
    + rewrite lookup_insert_ne by done. rewrite Hentries.
      split; intros (t' & q' & p0 & Hin & Hc & Hv).
      * destruct (proj2 (moved_call p p' t' Ht q')) as [p1 ?]; [eauto|].
        exists t', q', p1. split; [set_solver|done].
      * apply elem_of_union in Hin as [->%elem_of_singleton|Hin].
        { rewrite lookup_insert_eq in Hc. congruence. }
        destruct (proj1 (moved_call p p' t' Ht q')) as [p1 ?]; eauto 10.
  - intros t1 t2 q1 q2 p1 p2 H1 H2 Hc1 Hc2 Hv.
    destruct (proj1 (moved_call p p' t1 Ht q1)) as [? Hx1]; [eauto|].
    destruct (proj1 (moved_call p p' t2 Ht q2)) as [? Hx2]; [eauto|].
    apply elem_of_union in H1 as [->%elem_of_singleton|H1];
      apply elem_of_union in H2 as [->%elem_of_singleton|H2]; [done| | |by eapply Honce].
    + assert (q1 = q) by congruence. subst q1. by destruct (Hfree t2 q2 _ H2 Hx2).
    + assert (q2 = q) by congruence. subst q2. by destruct (Hfree t1 q1 _ H1 Hx1).
Qed.

(** A call removes its entry. *)
Lemma consistent_delete held p p' :
  calls !! t = Some (q, p) → t ∈ held →
  disciplined (volume_of q) false p' →
  consistent held (mkSystem db calls) →
  consistent (held ∖ {[t]})
    (mkSystem (mkInFlight (delete (volume_of q) (inFlight db))) (<[t := (q, p')]> calls)).
Proof.
  intros Ht Hin_t Hp' [Hdis Hlive Hentries Honce]. split; simpl in *.
  - apply (disciplined_others held); [set_solver| |done].
    rewrite bool_decide_false by set_solver. done.
  - intros t' [Hin _]%elem_of_difference. destruct (Hlive t' Hin) as [q' Hex].
    apply (moved_call p p' t' Ht) in Hex as [p0 ?]. eauto.
  - intros key. destruct (decide (key = volume_of q)) as [->|Hne].
    + rewrite lookup_delete_eq. split; [by intros [? ?]|].
      intros (t' & q' & p0 & [Hin Hnt]%elem_of_difference & Hc & Hv).
      destruct (proj1 (moved_call p p' t' Ht q')) as [p1 Hx]; [eauto|].
      destruct Hnt. apply elem_of_singleton. by eapply Honce.
    + rewrite lookup_delete_ne by done. rewrite Hentries.
      split; intros (t' & q' & p0 & Hin & Hc & Hv).
      * destruct (proj2 (moved_call p p' t' Ht q')) as [p1 ?]; [eauto|].
        exists t', q', p1. split_and!; [|done..]. apply elem_of_difference. split; [done|].
        intros ->%elem_of_singleton. congruence.
      * apply elem_of_difference in Hin as [Hin _].
        destruct (proj1 (moved_call p p' t' Ht q')) as [p1 ?]; eauto 10.
  - intros t1 t2 q1 q2 p1 p2 [H1 _]%elem_of_difference [H2 _]%elem_of_difference Hc1 Hc2 Hv.
    destruct (proj1 (moved_call p p' t1 Ht q1)) as [? ?]; [eauto|].
    destruct (proj1 (moved_call p p' t2 Ht q2)) as [? ?]; [eauto|]. by eapply Honce.
Qed.
End consistency.

(** A call that arrives, and one that returns, hold nothing. *)
Lemma consistent_arrive held db calls t q :
  calls !! t = None → consistent held (mkSystem db calls) →
  consistent held (mkSystem db (<[t := (q, serve q)]> calls)).
Proof.
  intros Hnone [Hdis Hlive Hentries Honce]. simpl in *.
  assert (Hnot : t ∉ held) by (intros [? [? ?]]%Hlive; congruence).
  assert (Hkeep : ∀ t' q' p', t' ∈ held →
    <[t := (q, serve q)]> calls !! t' = Some (q', p') ↔ calls !! t' = Some (q', p')).
  { intros t' q' p' Hin. rewrite lookup_insert_ne; [done|]. by intros ->. }
  split; simpl.
  - apply (disciplined_others _ _ _ held); [done| |done].
    rewrite bool_decide_false by done. apply serve_disciplined.
  - intros t' Hin. destruct (Hlive t' Hin) as (q' & p' & ?). exists q', p'. by apply Hkeep.
  - intros key. rewrite Hentries. split; intros (t' & q' & p' & Hin & Hc & Hv);
      exists t', q', p'; split_and!; try done; by apply Hkeep.
  - intros t1 t2 q1 q2 p1 p2 H1 H2 Hc1 Hc2.
    apply Hkeep in Hc1; [|done]. apply Hkeep in Hc2; [|done]. by eapply Honce.
Qed.

Lemma consistent_return held db calls t q a :
  calls !! t = Some (q, Ret a) → consistent held (mkSystem db calls) →
  consistent held (mkSystem db (delete t calls)).
Proof.
  intros Ht [Hdis Hlive Hentries Honce]. simpl in *.
  assert (Hnot : t ∉ held).
  { specialize (Hdis t q _ Ht). simpl in Hdis. by apply bool_decide_eq_false in Hdis. }
  assert (Hkeep : ∀ t' q' p', t' ∈ held →
    delete t calls !! t' = Some (q', p') ↔ calls !! t' = Some (q', p')).
  { intros t' q' p' Hin. rewrite lookup_delete_ne; [done|]. by intros ->. }
  split; simpl.
  - intros t' q' p'. rewrite lookup_delete_Some. intros [_ ?]. by apply Hdis.
  - intros t' Hin. destruct (Hlive t' Hin) as (q' & p' & ?). exists q', p'. by apply Hkeep.
  - intros key. rewrite Hentries. split; intros (t' & q' & p' & Hin & Hc & Hv);
      exists t', q', p'; split_and!; try done; by apply Hkeep.
  - intros t1 t2 q1 q2 p1 p2 H1 H2 Hc1 Hc2.
    apply Hkeep in Hc1; [|done]. apply Hkeep in Hc2; [|done]. by eapply Honce.
Qed.

Lemma disciplined_operate {A} id held (o : node_op) (k : node_res o → prog nodeSig A) r :
  (∀ key, o ≠ InFlightInsert key ∧ o ≠ InFlightDelete key) →
  disciplined id held (Do (S := nodeSig) o k) → disciplined id held (k r).
Proof.
  intros Ho Hd. destruct o; try (by destruct Hd); exfalso; by destruct (Ho key).
Qed.

Lemma step_consistent s s' held : step s s' → consistent held s → ∃ held', consistent held' s'.
Proof.
  destruct 1 as [db calls t q Hnone|db calls t q key k Ht|db calls t q key k Ht
    |db calls t q o k r Ht Ho|db calls t q a Ht]; intros Hc.
  - exists held. by apply consistent_arrive.
  - destruct (each_disciplined _ _ Hc t _ _ Ht) as (Hheld & -> & Htrue & Hfalse).
    unfold Insert. destruct (inFlight db !! volume_of q) as [b|] eqn:Hdb; simpl.
    + exists held. eapply consistent_move; [done| |done]. by rewrite Hheld.
    + exists ({[t]} ∪ held). apply bool_decide_eq_false in Hheld. by eapply consistent_insert.
  - destruct (each_disciplined _ _ Hc t _ _ Ht) as (Hheld & -> & Hrest).
    exists (held ∖ {[t]}). apply bool_decide_eq_true in Hheld. by eapply consistent_delete.
  - exists held. eapply consistent_move; [done| |done].
    exact (disciplined_operate _ _ o k r Ho (each_disciplined _ _ Hc t _ _ Ht)).
  - exists held. by eapply consistent_return.
Qed.

Lemma reachable_consistent s : reachable s → ∃ held, consistent held s.
Proof.
  revert s. apply rtc_ind_r.
  - exists ∅. split; simpl; try by intros.
    intros key. rewrite lookup_empty. split; [by intros [? ?]|].
    intros (t & q & p & Hin & _). by apply elem_of_empty in Hin.
  - intros s s' _ Hstep [held Hc]. by eapply step_consistent.
Qed.

(** C10: mutual exclusion.  However any number of calls of the node service
    interleave, operation by operation, two calls that are about to format,
    mount, unmount or create a mount target at the same time are about
    different volumes. *)
Theorem one_mount_change_per_volume s (Hs : reachable s) t1 t2 q1 q2
    (o1 o2 : node_op) (k1 : node_res o1 → node unit) (k2 : node_res o2 → node unit)
    (Ht1 : sys_calls s !! t1 = Some (q1, Do (S := nodeSig) o1 k1))
    (Ht2 : sys_calls s !! t2 = Some (q2, Do (S := nodeSig) o2 k2))
    (Ho1 : changes_mounts o1 = true) (Ho2 : changes_mounts o2 = true)
    (Hv : volume_of q1 = volume_of q2) : t1 = t2.
Proof.
  destruct (reachable_consistent s Hs) as [held Hc].
  assert (Hheld : ∀ t q o (k : node_res o → node unit),
    sys_calls s !! t = Some (q, Do (S := nodeSig) o k) → changes_mounts o = true → t ∈ held).
  { intros t q o k Ht Ho. apply (bool_decide_eq_true (t ∈ held)).
    pose proof (each_disciplined _ _ Hc t _ _ Ht) as Hd. destruct o; try done; by apply Hd. }
  eapply (held_once _ _ Hc); eauto.
Qed.

(** C28: nothing leaks.  In every reachable state the volumes in the table are
    volumes of calls that are still running: once every call has returned,
    whatever it ran into, the table is empty and no volume stays locked. *)
Theorem no_entry_leaks s (Hs : reachable s) :
  (∀ key, is_Some (inFlight (sys_db s) !! key) →
    ∃ t q p, sys_calls s !! t = Some (q, p) ∧ volume_of q = key) ∧
  (sys_calls s = ∅ → sys_db s = NewInFlight).
Proof.
  destruct (reachable_consistent s Hs) as [held Hc].
  assert (Hlive : ∀ key, is_Some (inFlight (sys_db s) !! key) →
    ∃ t q p, sys_calls s !! t = Some (q, p) ∧ volume_of q = key).
  { intros key (t & q & p & _ & Ht & Hv)%(entries_held _ _ Hc). eauto. }
  split; [done|]. intros Hempty. destruct s as [[entries] calls]. unfold NewInFlight.
  simpl in *. f_equal. apply map_eq. intros key. rewrite lookup_empty.
  destruct (entries !! key) as [b|] eqn:E; [|done].
  destruct (Hlive key) as (t & q & p & Ht & _); [by rewrite E|]. by rewrite Hempty in Ht.
Qed.
