(* ===== verification/CSINodeSpec.v ===== *)
(** * What the calls of the node service guarantee

    The mounts of NodeStageVolume and NodePublishVolume, and what is formatted. *)

From S2P Require Import Prelude Effects Kube CSI CSINode.

Local Open Scope string_scope.

Abbreviation nev := (Ev (S := nodeSig)).
Abbreviation nhist := (history nodeSig).

(** ** Rules *)

Lemma wp_node_call o h (Q : node_res o → nhist → Prop) :
  (∀ r, Q r (nev o r :: h)) → wp (node_call o) h Q.
Proof. intros HQ r h' [r' [-> ->]]. apply HQ. Qed.

Lemma wp_andAlso {A B} (p : store A) (f : A → store B) h Q :
  wp p h (λ r h', match r with inl a => wp (f a) h' Q | inr e => Q (inr e) h' end) →
  wp (andAlso p f) h Q.
Proof.
  intros Hp. apply wp_bind. eapply wp_mono; [apply Hp|].
  intros [a|e] h' HQ; [done|by apply wp_ret].
Qed.

Lemma wp_orInternal {A B} (p : store A) (f : A → node B) h Q :
  wp p h (λ r h', match r with
                  | inl a => wp (f a) h' Q
                  | inr _ => Q (inr (NStatus Internal)) h'
                  end) →
  wp (orInternal p f) h Q.
Proof.
  intros Hp. apply wp_bind. eapply wp_mono; [apply Hp|].
  intros [a|e] h' HQ; [done|by apply wp_ret].
Qed.

(** The calls have no loops: symbolic execution explores all their paths. *)
Ltac node_steps :=
  repeat (cbv beta iota; match goal with
  | |- wp (andAlso _ _) _ _ => apply wp_andAlso
  | |- wp (orInternal _ _) _ _ => apply wp_orInternal
  | |- wp (_ <$> node_call ?o) _ _ =>
      let r := fresh "r" in
      apply wp_fmap, (wp_node_call o); intros r; cbn in r; destruct r; cbn [orFail orError]
  | |- wp (node_call _ ≫= _) _ _ => apply wp_call_bind; intros ?
  | |- wp (mret _) _ _ => apply wp_ret
  | |- wp (fails _) _ _ => apply wp_ret
  | |- wp (refuse _) _ _ => apply wp_ret
  | |- wp (if ?b then _ else _) _ _ => destruct b eqn:?
  | |- wp (match ?x with _ => _ end) _ _ => destruct x eqn:?
  end).

(** An event is in a history that starts with known events. *)
Ltac in_history :=
  solve [repeat first [apply list_elem_of_here | apply list_elem_of_further]].

(** ** NodeStageVolume *)

(** The device is mounted at the target, by this call or before it. *)
Definition mounted (dev target fsType : string) (options : list string) (h : nhist) : Prop :=
  (∃ formatOptions, nev (FormatAndMount dev target fsType options formatOptions) None ∈ h) ∨
  (nev (IsMountPoint target) (inl true) ∈ h ∧
   ∃ d, (d = dev ∨ d = toMapperPath dev) ∧ nev (GetDeviceNameFromMount target) (inl d) ∈ h).

(** The file system covers the device, or was resized. *)
Definition resized (dev target : string) (h : nhist) : Prop :=
  nev (ResizeFs_NeedResize dev target) (inl false) ∈ h ∨
  ∃ d b, nev (ResizeFs_Resize d target) (inl b) ∈ h.

Lemma same_device (d dev mapper : string) :
  negb (bool_decide (d = dev)) && negb (bool_decide (d = mapper)) = false →
  d = dev ∨ d = mapper.
Proof. intros [Hd|Hd]%andb_false_iff; bool_simpl; auto. Qed.

Ltac node_success :=
  intros _; bool_simpl; subst; repeat match goal with
  | H : _ && _ = false |- _ => apply same_device in H
  end.

Lemma wp_stage dev target fsType options formatOptions h :
  wp (stage dev target fsType options formatOptions) h (λ r h', r = inl tt →
    nev (PathExists dev) (inl true) ∈ h' ∧ mounted dev target fsType options h' ∧
    resized dev target h').
Proof.
  unfold stage, NodeStageVolumeFS, require_device, NeedResize, ResizeFS.
  node_steps; try by intros [=].
  all: node_success; (split; [in_history|]); (split;
    [first [left; eexists; in_history|right; split; [in_history|eexists; split; [done|in_history]]]|]).
  all: first [left; in_history|right; do 2 eexists; in_history].
Qed.

Lemma wp_NodeStageVolume request :
  wp (NodeStageVolume request) [] (λ r h, r = inl tt → ∃ volCap vgName,
    ns_VolumeCapability request = Some volCap ∧
    ns_VolumeContext request ≫= lookup VGNameKey = Some vgName ∧
    let dev := devPath_of vgName (ns_VolumeId request) in
    let target := ns_StagingTargetPath request in
    if GetBlock volCap then h = []
    else ∃ m past, GetMount volCap = Some m ∧
      h = nev (InFlightDelete (ns_VolumeId request)) tt :: past ∧
      contains ValidFSTypes (ToLower (fs_type_of m)) = true ∧
      nev (PathExists dev) (inl true) ∈ past ∧
      mounted dev target (fs_type_of m)
        (collectMountOptions (fs_type_of m) (mv_MountFlags m) []) past ∧
      resized dev target past).
Proof.
  unfold NodeStageVolume. do 2 (wp_step; [by apply wp_ret|]).
  destruct (ns_VolumeCapability request) as [volCap|]; [|by apply wp_ret].
  destruct (ns_VolumeContext request ≫= _) as [vgName|] eqn:Hvg; [|by apply wp_ret].
  destruct (GetBlock volCap) eqn:Hb.
  { apply wp_ret. intros _. exists volCap, vgName. by rewrite Hb. }
  destruct (GetMount volCap) as [m|] eqn:Hm; [|by apply wp_ret]. cbv zeta.
  destruct (negb _) eqn:Hfs; [by apply wp_ret|]. apply wp_bind. intros [legacy|e] h0 _; [|by apply wp_ret].
  unfold in_flight. apply wp_call_bind. intros []; simpl negb; cbv iota; [|by apply wp_ret].
  apply wp_bind. eapply wp_mono; [apply wp_stage|]. intros r h1 Hr.
  apply wp_call_bind. intros []. apply wp_ret. intros ->. destruct (Hr eq_refl) as (? & ? & ?).
  exists volCap, vgName. rewrite Hb. split_and!; try done. exists m, h1. bool_simpl.
  split_and!; try done. by apply contains_true.
Qed.

(** C26: a NodeStageVolume that succeeds on a volume with a file system leaves
    the device of the volume mounted at the staging path, formatted and mounted
    by this call with the options of the request or found mounted there, under
    its own path or that of the device mapper; the file system covers the
    device or was resized; and the volume is no longer in flight.  For a raw
    block volume it does nothing. *)
Theorem NodeStageVolume_success request :
  wp (NodeStageVolume request) [] (λ r h, r = inl tt → ∃ volCap vgName,
    ns_VolumeCapability request = Some volCap ∧
    ns_VolumeContext request ≫= lookup VGNameKey = Some vgName ∧
    let dev := devPath_of vgName (ns_VolumeId request) in
    let target := ns_StagingTargetPath request in
    if GetBlock volCap then h = []
    else ∃ m past, GetMount volCap = Some m ∧
      h = nev (InFlightDelete (ns_VolumeId request)) tt :: past ∧
      contains ValidFSTypes (ToLower (fs_type_of m)) = true ∧
      nev (PathExists dev) (inl true) ∈ past ∧
      mounted dev target (fs_type_of m)
        (collectMountOptions (fs_type_of m) (mv_MountFlags m) []) past ∧
      resized dev target past).
Proof. apply wp_NodeStageVolume. Qed.

(** ** What a call never does *)

(** Formatting is only asked for a device that was found to be one, on a target
    that was just found not to be a mount point. *)
Definition format_justified (e : event nodeSig) (past : nhist) : Prop :=
  match ev_op e with
  | FormatAndMount source target _ _ _ =>
      head past = Some (nev (IsMountPoint target) (inl false)) ∧
      ∃ mode, nev (OsStat source) (inl mode) ∈ past ∧ Z.land mode ModeDevice = ModeDevice
  | _ => True
  end.

Lemma needLegacy_reads : emits (S := nodeSig) (λ e, ev_op e = Uname) needLegacyXFSSupport.
Proof.
  unfold needLegacyXFSSupport. emits_step.
  - by refine (emits_call (S := nodeSig) _ Uname _).
  - repeat emits_step.
Qed.

Lemma always_stage dev target fsType options formatOptions h :
  always format_justified h →
  wp (stage dev target fsType options formatOptions) h (λ _ h', always format_justified h').
Proof.
  intros Hh. unfold stage, NodeStageVolumeFS, require_device, NeedResize, ResizeFS.
  node_steps; bool_simpl; subst; cbn [always]; repeat split; try done.
  all: eexists; split; [in_history|done].
Qed.

(** C11: NodeStageVolume never formats what is in use: the device is formatted
    only after it was found to be a device, and right after the target was
    found not to be a mount point. *)
Theorem NodeStageVolume_formats_safely request :
  wp (NodeStageVolume request) [] (λ _ h, always format_justified h).
Proof.
  unfold NodeStageVolume. repeat (wp_step; try by apply wp_ret). cbv zeta.
  eapply wp_mono; [apply needLegacy_reads|]. intros legacy h0 (new & -> & Hnew).
  assert (Hh : always format_justified (new ++ [])%list).
  { eapply always_emitted; [|exact Hnew|done]. intros ev l Hev. unfold format_justified.
    by rewrite Hev. }
  destruct legacy as [legacy|err]; [|by apply wp_ret].
  unfold in_flight. apply wp_call_bind. intros []; simpl negb; cbv iota; [|by apply wp_ret].
  apply wp_bind. eapply wp_mono; [apply always_stage; by split|]. intros r h1 Hh1.
  apply wp_call_bind. intros []. apply wp_ret. by split.
Qed.

(** ** NodePublishVolume *)

(** The staged file system is mounted at the target, by this call or before
    it, and read-only when that was asked for. *)
Definition published (dev source target fsType : string) (options : list string) (h : nhist)
    : Prop :=
  nev (Mount source target fsType options) None ∈ h ∨
  ∃ mounts m, nev ListMounts (inl mounts) ∈ h ∧
    List.find (λ m, bool_decide (mp_Path m = target)) mounts = Some m ∧
    (mp_Device m = dev ∨ mp_Device m = toMapperPath dev) ∧
    ("ro" ∈ options → "ro" ∈ mp_Opts m).

Lemma wp_publish_fs source dev target fsType options h :
  wp (NodePublishVolumeFS source dev target fsType options) h (λ r h', r = inl tt →
    published dev source target fsType options h').
Proof.
  unfold NodePublishVolumeFS, checkMount, fails. node_steps; try by intros [=].
  - cbn in *. destruct (List.find _ _) as [m|] eqn:Hm; [|done].
    destruct (negb _ && negb _) eqn:Hdev; [done|]. destruct (contains options "ro" && _) eqn:Hro; [done|].
    intros _. right. eexists _, m. split; [in_history|]. split_and!; [done|by apply same_device|].
    intros Hin. apply andb_false_iff in Hro as [Hro|Hro]; by bool_simpl.
  - intros _. left. in_history.
  - intros _. left. in_history.
Qed.

Lemma wp_publish_block dev target options h :
  wp (NodePublishVolumeBlock dev target options) h (λ r h', r = inl tt →
    nev (Mount dev target "" options) None ∈ h').
Proof.
  unfold NodePublishVolumeBlock, require_device. node_steps; try by intros [=].
  all: intros _; in_history.
Qed.

(** C27: a NodePublishVolume that succeeds has done what the capability asks
    for: a raw block volume is bind-mounted from its device; a file system from
    the staging path, or was found mounted from the device of the volume, and
    read-only if that was asked for.  A capability of no type succeeds without
    any mount. *)
Theorem NodePublishVolume_success request :
  wp (NodePublishVolume request) [] (λ r h, r = inl tt → ∃ volCap vgName,
    np_VolumeCapability request = Some volCap ∧
    np_VolumeContext request ≫= lookup VGNameKey = Some vgName ∧
    let dev := devPath_of vgName (np_VolumeId request) in
    let target := np_TargetPath request in
    let options := if np_Readonly request then ["bind"; "ro"] else ["bind"] in
    nev (PathExists dev) (inl true) ∈ h ∧
    match cap_AccessType volCap with
    | Some AccessBlock => nev (Mount dev target "" options) None ∈ h
    | Some (AccessMount m) => ∃ m', m = Some m' ∧
        contains ValidFSTypes (ToLower (fs_type_of m')) = true ∧
        published dev (np_StagingTargetPath request) target (fs_type_of m')
          (collectMountOptions (fs_type_of m') (mv_MountFlags m') options) h
    | None => length h = 3
    end).
Proof.
  unfold NodePublishVolume. do 3 (wp_step; [by apply wp_ret|]).
  destruct (np_VolumeCapability request) as [volCap|]; [|by apply wp_ret]. cbv zeta.
  destruct (np_VolumeContext request ≫= _) as [vgName|] eqn:Hvg; [|by apply wp_ret].
  set (options := if np_Readonly request then _ else _).
  set (dev := devPath_of _ _). node_steps; try by intros [=]. bool_simpl. subst.
  unfold in_flight. apply wp_call_bind. intros []; simpl negb; cbv iota; [|by apply wp_ret].
  apply wp_bind. unfold publish.
  destruct (cap_AccessType volCap) as [[|[m|]]|] eqn:Hcap.
  - apply wp_orInternal. eapply wp_mono; [apply wp_and; [apply wp_publish_block|apply wp_extends]|].
    intros [[]|e] h [Hm [new ->]]; [|by apply wp_call_bind; intros []; apply wp_ret].
    apply wp_ret, wp_call_bind. intros []. apply wp_ret. intros _. exists volCap, vgName.
    rewrite Hcap. split_and!; try done; right; [|by apply Hm].
    apply elem_of_app. right. in_history.
  - wp_step; [by apply wp_ret, wp_call_bind; intros []; apply wp_ret|].
    apply wp_orInternal. eapply wp_mono; [apply wp_and; [apply wp_publish_fs|apply wp_extends]|].
    intros [[]|e] h [Hm [new ->]]; [|by apply wp_call_bind; intros []; apply wp_ret].
    apply wp_ret, wp_call_bind. intros []. apply wp_ret. intros _. exists volCap, vgName.
    rewrite Hcap. split_and!; try done; [right; apply elem_of_app; right; in_history|].
    exists m. bool_simpl. split_and!; [done|by apply contains_true|].
    destruct (Hm eq_refl) as [?|(mounts & mp & Hl & ?)]; [left; by right|right].
    exists mounts, mp. split; [by right|done].
  - by apply wp_ret, wp_call_bind; intros []; apply wp_ret.
  - apply wp_ret, wp_call_bind. intros []. apply wp_ret. intros _. exists volCap, vgName.
    rewrite Hcap. split_and!; try done. in_history.
Qed.
