(* ===== verification/CSINodePaths.v ===== *)
(** * Paths, mount options and statistics of the node service

    The pure functions of node.go and node_store_manager.go: the path the device
    mapper gives a volume, the mount options, and the usage of a file system. *)

From S2P Require Import Prelude Effects Kube CSI CSINode.

Local Open Scope string_scope.

(** ** Mount options *)

Lemma add_option_spec options o :
  (∃ added, add_option options o = (options ++ added)%list) ∧
  (∀ x, x ∈ add_option options o ↔ x ∈ options ∨ x = o) ∧
  (NoDup options → NoDup (add_option options o)).
Proof.
  unfold add_option. destruct (contains options o) eqn:Hc; bool_simpl.
  - split_and!; [by exists []; rewrite app_nil_r| |done].
    intros x. split; [by left|]. by intros [?| ->].
  - split_and!; [by eexists| |].
    + intros x. rewrite elem_of_app, list_elem_of_singleton. done.
    + intros Hnd. apply NoDup_app. split_and!; [done| |apply NoDup_singleton].
      intros x Hx ->%list_elem_of_singleton. done.
Qed.

Lemma add_options_spec flags options :
  let r := foldl add_option options flags in
  (∃ added, r = (options ++ added)%list) ∧ (∀ x, x ∈ r ↔ x ∈ options ∨ x ∈ flags) ∧
  (NoDup options → NoDup r).
Proof.
  revert options. induction flags as [|f flags IH]; intros options; simpl.
  - split_and!; [by exists []; rewrite app_nil_r| |done].
    intros x. rewrite elem_of_nil. tauto.
  - destruct (IH (add_option options f)) as ([a Ha] & Hin & Hnd).
    destruct (add_option_spec options f) as ([b Hb] & Hin' & Hnd'). split_and!; [| |auto].
    + exists (b ++ a)%list. by rewrite Ha, Hb, <-app_assoc.
    + intros x. rewrite Hin, Hin', elem_of_cons. tauto.
Qed.

(** The mount options are those given, in their order, followed by the
    flags of the capability that are not among them and, for xfs, nouuid; no
    option is repeated if none was. *)
Lemma collectMountOptions_spec fsType mountFlags mountOptions :
  let r := collectMountOptions fsType mountFlags mountOptions in
  (∃ added, r = (mountOptions ++ added)%list) ∧
  (∀ o, o ∈ r ↔ o ∈ mountOptions ∨ o ∈ mountFlags ∨ (fsType = FSTypeXfs ∧ o = "nouuid")) ∧
  (NoDup mountOptions → NoDup r).
Proof.
  unfold collectMountOptions. destruct (add_options_spec mountFlags mountOptions)
    as ([a Ha] & Hin & Hnd). case_bool_decide as Hxfs; cbv zeta.
  - destruct (add_option_spec (foldl add_option mountOptions mountFlags) "nouuid")
      as ([b Hb] & Hin' & Hnd'). split_and!; [| |auto].
    + exists (a ++ b)%list. by rewrite Hb, Ha, <-app_assoc.
    + intros o. rewrite Hin', Hin. tauto.
  - split_and!; [by eexists| |done]. intros o. rewrite Hin. tauto.
Qed.

(** ** The path of a mapped device *)

Definition hyphen : Ascii.ascii := Ascii.ascii_of_nat 45.
Definition slash : Ascii.ascii := Ascii.ascii_of_nat 47.

(** The two replacements of toMapperPath, and how to read them back. *)
Definition mapper_name (s : string) : string :=
  ReplaceAll (ReplaceAll s hyphen "--") slash "-".

Fixpoint read_mapper_name (s : string) : string :=
  match s with
  | EmptyString => ""
  | String c rest =>
      if decide (c = hyphen)
      then match rest with
           | EmptyString => String slash ""
           | String d rest' =>
               if decide (d = hyphen) then String hyphen (read_mapper_name rest')
               else String slash (read_mapper_name rest)
           end
      else String c (read_mapper_name rest)
  end.

Lemma mapper_name_hyphen s :
  mapper_name (String hyphen s) = String hyphen (String hyphen (mapper_name s)).
Proof. reflexivity. Qed.

Lemma mapper_name_slash s : mapper_name (String slash s) = String hyphen (mapper_name s).
Proof. reflexivity. Qed.

Lemma mapper_name_other c s :
  c ≠ hyphen → c ≠ slash → mapper_name (String c s) = String c (mapper_name s).
Proof.
  intros Hh Hs. unfold mapper_name. simpl. rewrite bool_decide_false by done. simpl.
  by rewrite bool_decide_false.
Qed.

Definition starts_with (c : Ascii.ascii) (s : string) : Prop :=
  match s with EmptyString => False | String d _ => d = c end.

Lemma mapper_name_starts s : ¬ starts_with hyphen s → ¬ starts_with slash s →
  ¬ starts_with hyphen (mapper_name s).
Proof.
  destruct s as [|c s]; [done|]. simpl. intros Hh Hs. by rewrite mapper_name_other.
Qed.

(** No slash is followed by a hyphen or a slash, or ends the name. *)
Fixpoint readable (s : string) : Prop :=
  match s with
  | EmptyString => True
  | String c rest =>
      (c = slash → rest ≠ "" ∧ ¬ starts_with hyphen rest ∧ ¬ starts_with slash rest) ∧
      readable rest
  end.

Lemma read_mapper_name_spec s : readable s → read_mapper_name (mapper_name s) = s.
Proof.
  induction s as [|c s IH]; [done|]. intros [Hc Hs]. specialize (IH Hs).
  destruct (decide (c = hyphen)) as [->|Hh]; [rewrite mapper_name_hyphen; simpl; by rewrite IH|].
  destruct (decide (c = slash)) as [->|Hsl].
  - rewrite mapper_name_slash. destruct (Hc eq_refl) as (Hne & H1 & H2).
    pose proof (mapper_name_starts s H1 H2) as Hstart. simpl.
    destruct (mapper_name s) as [|d r] eqn:Hm; [by rewrite <-IH in Hne|].
    simpl in Hstart. rewrite decide_False by done. by rewrite IH.
  - rewrite mapper_name_other by done. simpl. rewrite decide_False by done. by rewrite IH.
Qed.

(** A string without the character. *)
Fixpoint lacks (c : Ascii.ascii) (s : string) : Prop :=
  match s with EmptyString => True | String d s => d ≠ c ∧ lacks c s end.

(** A name LVM accepts: not empty, without a slash, not starting with a
    hyphen. *)
Definition lvm_name (s : string) : Prop :=
  s ≠ "" ∧ lacks slash s ∧ ¬ starts_with hyphen s.

Lemma readable_lacks s : lacks slash s → readable s.
Proof. induction s as [|c s IH]; simpl; [done|]. intros [Hc Hs]. split; [done|auto]. Qed.

Lemma append_nil t : "" +:+ t = t.
Proof. reflexivity. Qed.

Lemma append_String c s t : String c s +:+ t = String c (s +:+ t).
Proof. reflexivity. Qed.

Lemma readable_path vg lv : lvm_name vg → lvm_name lv → readable (vg +:+ String slash lv).
Proof.
  intros (_ & Hvg & _) (Hne & Hlv & Hstart). induction vg as [|c vg IH];
    rewrite ?append_nil, ?append_String; simpl.
  - split; [|by apply readable_lacks]. intros _. split_and!; [done|done|].
    destruct lv as [|d lv]; [done|]. simpl. by destruct Hlv.
  - destruct Hvg as [Hc Hvg]. split; [done|auto].
Qed.

Lemma split_at_slash vg lv vg' lv' :
  lacks slash vg → lacks slash vg' →
  vg +:+ String slash lv = vg' +:+ String slash lv' → vg = vg' ∧ lv = lv'.
Proof.
  revert vg'. induction vg as [|c vg IH]; intros [|c' vg'];
    rewrite ?append_nil, ?append_String; simpl.
  - by intros _ _ [= ->].
  - intros _ [Hc _] Heq. injection Heq as Hc' _. by destruct Hc.
  - intros [Hc _] _ Heq. injection Heq as Hc' _. by destruct Hc.
  - intros [_ Hvg] [_ Hvg'] [= -> Heq]. destruct (IH vg' Hvg Hvg' Heq) as [-> ->]. done.
Qed.

Lemma HasPrefix_app p s : HasPrefix (p +:+ s) p = true.
Proof.
  induction p as [|c p IH]; [by destruct s|]. rewrite append_String. unfold HasPrefix. simpl.
  destruct (Ascii.ascii_dec c c); [apply IH|done].
Qed.

Lemma TrimPrefix_app p s : TrimPrefix (p +:+ s) p = s.
Proof.
  unfold TrimPrefix. rewrite HasPrefix_app. induction p as [|c p IH]; [done|].
  rewrite append_String. apply IH.
Qed.

Lemma toMapperPath_devPath vg lv :
  toMapperPath (devPath_of vg lv) = "/dev/mapper/" +:+ mapper_name (vg +:+ String slash lv).
Proof. unfold toMapperPath, devPath_of. by rewrite HasPrefix_app, TrimPrefix_app. Qed.

(** The mapped paths of two volumes with names LVM accepts differ: a
    device found mounted under the mapped path of a volume is the device of
    that volume and of no other. *)
Lemma toMapperPath_injective vg lv vg' lv'
    (Hvg : lvm_name vg) (Hlv : lvm_name lv) (Hvg' : lvm_name vg') (Hlv' : lvm_name lv')
    (Heq : toMapperPath (devPath_of vg lv) = toMapperPath (devPath_of vg' lv')) :
  vg = vg' ∧ lv = lv'.
Proof.
  rewrite !toMapperPath_devPath in Heq. apply (inj _) in Heq.
  apply (f_equal read_mapper_name) in Heq.
  rewrite !read_mapper_name_spec in Heq by by apply readable_path.
  apply split_at_slash in Heq; [done|apply Hvg|apply Hvg'].
Qed.

(** Outside the names LVM accepts two devices can share a mapped path. *)
Example toMapperPath_collision :
  toMapperPath (devPath_of "a-" "b") = toMapperPath (devPath_of "a" "-b").
Proof. reflexivity. Qed.

(** ** Statistics *)

(** A report of statfs (2) whose totals fit an int64. *)
Record plausible (s : Statfs_t) : Prop := {
  pl_bsize : (0 < sf_Bsize s)%Z;
  pl_avail : (0 ≤ sf_Bavail s ≤ sf_Bfree s)%Z;
  pl_free : (sf_Bfree s ≤ sf_Blocks s)%Z;
  pl_total : (sf_Blocks s * sf_Bsize s ≤ int64_max)%Z;
  pl_files : (0 ≤ sf_Ffree s ≤ sf_Files s ∧ sf_Files s ≤ int64_max)%Z;
}.

Lemma i64_small z : (0 ≤ z ≤ int64_max)%Z → i64 z = z.
Proof. intros ?. apply i64_id. unfold in_int64, int64_min, int64_max in *. lia. Qed.

(** The usage reported for a file system adds up: in bytes, what is used
    and what is available are within the total, and in inodes what is used and
    what is free are exactly the total; none of them is negative. *)
Lemma fs_usage_adds_up fsStat (Hs : plausible fsStat) :
  match fs_usage fsStat with
  | [bytes; inodes] =>
      vu_Unit bytes = BYTES ∧ vu_Unit inodes = INODES ∧
      (0 ≤ vu_Available bytes ∧ 0 ≤ vu_Used bytes ∧
       vu_Available bytes + vu_Used bytes ≤ vu_Total bytes ∧
       vu_Total bytes = sf_Blocks fsStat * sf_Bsize fsStat ∧
       0 ≤ vu_Available inodes ∧ 0 ≤ vu_Used inodes ∧
       vu_Available inodes + vu_Used inodes = vu_Total inodes)%Z
  | _ => False
  end.
Proof.
  destruct Hs as [Hb Ha Hf Ht Hi]. destruct fsStat as [b n f a fs ff]. simpl in *.
  assert (Hn : (n ≤ int64_max)%Z) by nia.
  assert (Hab : (0 ≤ a * b ≤ n * b)%Z) by nia.
  assert (Hub : (0 ≤ (n - f) * b ≤ n * b)%Z) by nia.
  rewrite !(i64_small n), !(i64_small f), !(i64_small a), !(i64_small fs), !(i64_small ff) by lia.
  rewrite !(i64_small (n - f)), !(i64_small (fs - ff)), !(i64_small (a * b)),
    !(i64_small (n * b)), !(i64_small ((n - f) * b)) by lia.
  split_and!; nia || done.
Qed.

(** ** IsNotMountPoint *)

(** IsNotMountPoint answers true for a mount point, and false for a directory
    that is not one. *)
Lemma IsNotMountPoint_inverted target b h :
  exec (IsNotMountPoint target) [] (inl b) h →
  h = [Ev (S := nodeSig) (IsMountPoint target) (inl b)] ∨
  b = true ∧ ∃ err, oe_IsNotExist err = true ∧
    h = [Ev (S := nodeSig) (IsMountPoint target) (inr err)].
Proof.
  intros ([b'|err] & He); simpl in He.
  - destruct He as [[= ->] ->]. by left.
  - destruct (oe_IsNotExist err) eqn:E; destruct He as [[= ->] ->]. right. eauto.
Qed.
