(* ===== verification/Provisioning.v ===== *)
(** * From a LocalStorageClass to a mounted volume

    The contract between the controller, which writes the parameters of a
    StorageClass, the driver, which reads them when it creates a volume, and the
    node, which reads the volume context the driver answered with.  The three are
    separate programs that agree on the names of the parameters and on a YAML
    document; here they are put one after the other. *)

From S2P Require Import Prelude Effects Kube LSC LSCResolve GC CSI CSIController CSISizes CSIVolumes.
From S2P Require Import CSIDelete CSISafety CSINode CSINodeSpec.

Local Open Scope string_scope.

(** The driver reads, with gopkg.in/yaml.v2, the names and the thin pools of the
    list the controller wrote with sigs.k8s.io/yaml: [name] and [thin.poolName]
    are the fields of both types. *)
Definition read_group `{LabelSelectors} (l : LocalStorageClassLVG) : VolumeGroup :=
  mkVolumeGroup (lvg_Name l) (from_option PoolName "" (lvg_Thin l)).

Class YamlAgrees `{LabelSelectors, !YamlLVGs, VolumeGroupsYaml} : Prop := {
  yaml_read_back : ∀ lvgs s, yaml_Marshal lvgs = inl s →
    UnmarshalVolumeGroups s = Some (map read_group lvgs);
  yaml_not_empty : ∀ lvgs s, yaml_Marshal lvgs = inl s → s ≠ "";
}.

Section provisioning.
Context `{LabelSelectors, ApiMachinery, !YamlLVGs, !Quantities, VolumeGroupsYaml, !YamlAgrees}.

Abbreviation csi A := (prog csiSig (outcome A)).
Abbreviation hist := (history csiSig).
Abbreviation cev := (Ev (S := csiSig)).

(** ** What the controller writes *)

(** A StorageClass the controller created or updated for the class. *)
Definition written_for (lsc : LocalStorageClass) (effectiveLVGs : list LocalStorageClassLVG)
    (sc : StorageClass) : Prop :=
  ∃ ignored, configureStorageClass lsc effectiveLVGs ignored = inl sc ∨
    ∃ old, updateStorageClass lsc old effectiveLVGs ignored = inl sc.

Lemma written_parameters lsc lvgs sc :
  written_for lsc lvgs sc → ∃ lvm s, lsc_LVM (lsc_Spec lsc) = Some lvm ∧ yaml_Marshal lvgs = inl s ∧
    sc_Parameters sc = Some (storage_class_params lsc lvm s).
Proof.
  assert (Hc : ∀ ignored sc, configureStorageClass lsc lvgs ignored = inl sc →
    ∃ lvm s, lsc_LVM (lsc_Spec lsc) = Some lvm ∧ yaml_Marshal lvgs = inl s ∧
      sc_Parameters sc = Some (storage_class_params lsc lvm s)).
  { unfold configureStorageClass. intros ignored sc'. destruct (lsc_LVM _) as [lvm|]; [|done].
    destruct (yaml_Marshal lvgs) as [s|]; [|done]. intros [= <-]. by exists lvm, s. }
  intros (ignored & [Hs|(old & Hs)]); [by eapply Hc|]. unfold updateStorageClass in Hs.
  destruct (configureStorageClass _ _ _) as [new|] eqn:E; [|done].
  apply Hc in E as (lvm & s & ? & ? & Hp). exists lvm, s. split_and!; try done.
  destruct (om_Annotations _); by injection Hs as <-.
Qed.

(** ** What the driver is handed *)

Definition own_keys : list string :=
  [TypeKey; LvmTypeKey; BindingModeKey; LVMVolumeGroupKey; LVMVThickContiguousParamKey;
   CSIVolumeCleanupParamKey].

(** A request for a volume of the StorageClass; what others add to the parameters
    has other names. *)
Definition passes (sc : StorageClass) (request : CreateVolumeRequest) : Prop :=
  ∀ k, k ∈ own_keys →
    cr_Parameters request ≫= lookup (M := strmap) k = sc_Parameters sc ≫= lookup (M := strmap) k.

Definition contiguous (lvm : LocalStorageClassLVMSpec) : bool :=
  match lvm_Thick lvm with Some (mkThick (Some b)) => b | _ => false end.

(** The keys of the two programs are the same strings. *)
Lemma parameters_read lsc lvm s :
  let p : strmap := storage_class_params lsc lvm s in
  p !! TypeKey = Some Lvm ∧ p !! LvmTypeKey = Some (lvm_Type lvm) ∧
  p !! BindingModeKey = Some (lsc_VolumeBindingMode (lsc_Spec lsc)) ∧
  p !! LVMVolumeGroupKey = Some s ∧
  p !! LVMVThickContiguousParamKey = (if contiguous lvm then Some "true" else None) ∧
  p !! CSIVolumeCleanupParamKey =
    (if bool_decide (lvm_VolumeCleanup lvm = "") then None else Some (lvm_VolumeCleanup lvm)) ∧
  p !! FSTypeParamKey = Some (if bool_decide (lsc_FSType (lsc_Spec lsc) = "") then DefaultFSType
                              else lsc_FSType (lsc_Spec lsc)).
Proof.
  cbv zeta. unfold storage_class_params, contiguous.
  destruct (lvm_Thick lvm) as [[[[]|]]|]; case_bool_decide; split_and!; reflexivity.
Qed.

Lemma passed_parameters lsc lvgs sc request :
  written_for lsc lvgs sc → passes sc request → ∃ lvm s,
    lsc_LVM (lsc_Spec lsc) = Some lvm ∧ yaml_Marshal lvgs = inl s ∧
    map_get (cr_Parameters request) TypeKey = Lvm ∧
    map_get (cr_Parameters request) LvmTypeKey = lvm_Type lvm ∧
    map_get (cr_Parameters request) LVMVolumeGroupKey = s ∧
    map_get (cr_Parameters request) CSIVolumeCleanupParamKey = lvm_VolumeCleanup lvm ∧
    IsContiguous (cr_Parameters request) (lvm_Type lvm) =
      negb (bool_decide (lvm_Type lvm = LVMTypeThin)) && contiguous lvm.
Proof.
  intros (lvm & s & Hlvm & Hs & Hp)%written_parameters Hpass. exists lvm, s.
  pose proof (parameters_read lsc lvm s) as Hread. cbv zeta in Hread.
  destruct Hread as (Htype & Hlvm' & _ & Hgroups & Hcont & Hclean & _).
  assert (Hk : ∀ k, k ∈ own_keys →
    cr_Parameters request ≫= lookup (M := strmap) k = storage_class_params lsc lvm s !! k).
  { intros k Hk. by rewrite (Hpass k Hk), Hp. }
  assert (Hg : ∀ k, k ∈ own_keys →
    map_get (cr_Parameters request) k = default "" (storage_class_params lsc lvm s !! k)).
  { intros k Hin. rewrite <-(Hk k Hin). unfold map_get. by destruct (cr_Parameters request). }
  assert (Hall : Forall (λ k, k ∈ own_keys) own_keys) by (apply Forall_forall; done).
  unfold own_keys at 2 in Hall. rewrite !Forall_cons in Hall. destruct Hall as (? & ? & ? & ? & ? & ? & _).
  rewrite !Hg by done.
  rewrite Htype, Hlvm', Hgroups, Hclean. split_and!; try done.
  - case_bool_decide as Hc; [by rewrite Hc|done].
  - unfold IsContiguous. rewrite Hk by done. rewrite Hcont.
    destruct (bool_decide (lvm_Type lvm = LVMTypeThin)); [done|].
    destruct (contiguous lvm); [by apply bool_decide_true|by apply bool_decide_false].
Qed.

(** Every group the driver finds in the document is one of the list. *)
Lemma lvg_parameters_read l name pool :
  lvg_parameters (map read_group l) !! name = Some pool →
  ∃ x, x ∈ l ∧ lvg_Name x = name ∧ pool = from_option PoolName "" (lvg_Thin x).
Proof.
  unfold lvg_parameters. induction l as [|x l IH] using rev_ind; simpl; [by intros ?%lookup_empty_Some|].
  rewrite map_app, foldl_app. simpl. intros [[Hn Hp]|[_ Hl]]%lookup_insert_Some.
  - exists x. split; [apply elem_of_app; right; by left|]. by split.
  - destruct (IH Hl) as (y & Hy & ?). exists y. split; [apply elem_of_app; by left|done].
Qed.

(** ** CreateVolume *)

(** What the volume of a class is made of: a group some entry of the class
    selects, with the pool of that entry. *)
Record as_the_class_says (lvgList : list LVMVolumeGroup) (lvm : LocalStorageClassLVMSpec)
    (spec : LVMLogicalVolumeSpec) : Prop := {
  cs_type : llv_Type spec = lvm_Type lvm;
  cs_group : ∃ entry thin, entry ∈ lvm_LVMVolumeGroups lvm ∧
    selects lvgList entry (llv_LVMVolumeGroupName spec) thin ∧
    llv_Thin spec = if bool_decide (lvm_Type lvm = LVMThinType)
                    then Some (from_option PoolName "" thin) else None;
  cs_thick : llv_Thick spec = if bool_decide (lvm_Type lvm = LVMThickType) && contiguous lvm
                              then Some (Some true) else None;
  cs_cleanup : llv_VolumeCleanup spec = if bool_decide (lvm_VolumeCleanup lvm = "") then None
                                        else Some (lvm_VolumeCleanup lvm);
}.

Lemma placed_as_the_class_says lsc lvgList lvgs lvm request pl size lvg :
  resolveEffectiveLVGs lsc lvgList = inl lvgs → lsc_LVM (lsc_Spec lsc) = Some lvm →
  IsContiguous (cr_Parameters request) (lvm_Type lvm) =
    negb (bool_decide (lvm_Type lvm = LVMTypeThin)) && contiguous lvm →
  lvg_parameters (map read_group lvgs) !! vg_Name lvg = Some pl →
  as_the_class_says lvgList lvm
    (GetLLVSpec (cr_Name request) lvg (lvg_parameters (map read_group lvgs)) (lvm_Type lvm) size
       (IsContiguous (cr_Parameters request) (lvm_Type lvm)) (source_of request)
       (lvm_VolumeCleanup lvm)).
Proof.
  intros Hr%resolve_effective Hlvm Hcont Hin.
  destruct (lvg_parameters_read _ _ _ Hin) as (x & Hx & Hname & Hpool).
  assert (Hx' : mkLVG (vg_Name lvg) None (lvg_Thin x) ∈ lvgs).
  { pose proof (ef_named _ _ _ Hr x Hx). destruct x; simpl in *; by subst. }
  apply (ef_exact _ _ _ Hr) in Hx' as (lvm' & entry & Hlvm' & Hentry & Hsel).
  assert (lvm' = lvm) as -> by congruence. split; try done.
  - exists entry, (lvg_Thin x). split_and!; [done|done|]. simpl. by rewrite Hin, Hpool.
  - simpl. rewrite Hcont. unfold LVMTypeThick, LVMTypeThin, LVMThickType.
    destruct (decide (lvm_Type lvm = "Thick")) as [Ht|Ht].
    + rewrite Ht. simpl. by destruct (contiguous lvm).
    + by rewrite bool_decide_false.
Qed.

(** ** Refusals *)

Lemma wp_wait_no_status fuel name ns size extent h :
  wp (WaitForStatusUpdate fuel name ns size extent) h (λ r _, ∀ c, r ≠ Fails (Status c)).
Proof.
  unfold WaitForStatusUpdate. destruct (AlignSizeToExtent _ _) as [a|err| |]; try by apply wp_ret.
  revert h. induction fuel as [|fuel IH]; intros h; cbn [poll_loop]; [by apply wp_ret|].
  apply wp_call_bind. intros [|]; [by apply wp_ret|]. apply wp_call_bind. intros [].
  apply wp_call_bind. intros [llv|err]; [|by apply wp_ret].
  destruct (llv_poll a llv) as [r|] eqn:E; [|apply IH]. apply wp_ret. intros c ->.
  unfold llv_poll in E. destruct (llv_Status llv); [|done]. by repeat case_match.
Qed.

Lemma wp_create_placed_no_status e fuel request params lvmType pl h :
  wp (create_placed e fuel request params lvmType pl) h (λ r _, ∀ c, r ≠ Fails (Status c)).
Proof.
  unfold create_placed. cbv zeta. wp_step; [by apply wp_ret|].
  apply wp_call_bind. intros created. destruct (match created with inl _ => _ | inr _ => _ end);
    [by apply wp_ret|].
  apply wp_bind. eapply wp_mono; [apply wp_wait_no_status|].
  intros [llv|err| |] h1 Hs; try by apply wp_ret.
  apply wp_bind. intros d h2 _. apply wp_ret. intros c [= ->]. by destruct (Hs c).
Qed.

Lemma place_plain_not_invalid request lvgs params bindingMode lvmType size :
  place_plain request lvgs params bindingMode lvmType size ≠ Fails (Status InvalidArgument).
Proof.
  unfold place_plain. destruct (preferred_node _ _ _ _ _) as [[node free]|err| |] eqn:E; try done.
  - destruct (SelectLVG lvgs node) as [lvg|]; [|done].
    unfold alignToLVGExtentOrStatusErr. destruct (AlignSizeToExtent _ _); [by destruct (negb _)|done..].
  - intros [= ->]. unfold preferred_node in E. destruct (bool_decide _).
    { by destruct (GetNodeWithMaxFreeSpace _ _ _). }
    destruct (bool_decide _); [|done]. by destruct (cr_Preferred request) as [[|]|].
Qed.

(** A request without a source, of a StorageClass the controller wrote, is not
    refused for its parameters. *)
Lemma CreateVolume_not_refused e fuel lsc lvgs sc request :
  written_for lsc lvgs sc → passes sc request →
  wp (CreateVolume e fuel request) [] (λ r _, r = Fails (Status InvalidArgument) →
    cr_Name request = "" ∨ cr_VolumeCapabilities request = None ∨ cr_VolumeContentSource request ≠ None).
Proof using Type*.
  intros Hw Hp. destruct (passed_parameters _ _ _ _ Hw Hp) as (lvm & s & _ & Hs & Ht & _ & Hg & _).
  unfold CreateVolume. rewrite Ht, Hg. rewrite bool_decide_true by done. cbn [negb].
  case_bool_decide; [apply wp_ret; by left|].
  destruct (cr_VolumeCapabilities request) as [caps|]; cbn [is_nil]; [|apply wp_ret; by right; left].
  rewrite bool_decide_false by (by eapply yaml_not_empty). cbv zeta.
  apply wp_bind. intros groups h1 _. destruct groups as [[gs params]|err| |]; try by apply wp_ret.
  unfold andThen, place. destruct (cr_VolumeContentSource request) as [source|].
  { eapply wp_mono; [apply wp_extends|]. intros; by right; right. }
  apply wp_bind, wp_ret.
  pose proof (place_plain_not_invalid request gs params
    (map_get (cr_Parameters request) BindingModeKey) (map_get (cr_Parameters request) LvmTypeKey)
    (NewQuantity (default 0%Z (cr_RequiredBytes request)))) as Hn.
  destruct (place_plain _ _ _ _ _ _) as [pl|err| |]; try by apply wp_ret.
  - eapply wp_mono; [apply wp_create_placed_no_status|]. intros r h Hr Heq. by destruct (Hr _ Heq).
  - apply wp_ret. intros [= ->]. done.
Qed.

(** ** The whole way *)

(** The request of the kubelet for a volume the driver answered with. *)
Record stages (resp : CreateVolumeResponse) (fsType : string) (request : NodeStageVolumeRequest) : Prop := {
  sg_id : ns_VolumeId request = vol_VolumeId resp;
  sg_context : ns_VolumeContext request = Some (vol_VolumeContext resp);
  sg_mount : ∀ volCap, ns_VolumeCapability request = Some volCap →
    ∃ flags, cap_AccessType volCap = Some (AccessMount (Some (mkMount fsType flags)));
}.

(** The file system of a StorageClass. *)
Definition file_system (sc : StorageClass) : string := map_get (sc_Parameters sc) FSTypeParamKey.

Definition device_mounted (vg lv fsType target : string) (h : history nodeSig) : Prop :=
  ∃ options, mounted (devPath_of vg lv) target fsType options h.

Lemma mounted_later dev target fsType options e (h : history nodeSig) :
  mounted dev target fsType options h → mounted dev target fsType options (e :: h).
Proof.
  intros [(f & Hin)|(Hin & d & Hd & Hin')].
  - left. exists f. by right.
  - right. split; [by right|]. exists d. split; [done|by right].
Qed.

(** What the driver answers for the volume is what the node looks the device up
    by. *)
Lemma context_names_the_group request pl spec llv :
  vol_VolumeContext (created_response request pl spec llv) !! VGNameKey =
    Some (vg_ActualVGNameOnTheNode (vg_Spec (pl_LVG pl))).
Proof.
  unfold created_response. cbn [vol_VolumeContext].
  rewrite lookup_insert_ne by done. apply lookup_insert_eq.
Qed.

Lemma written_file_system lsc lvgs sc m flags :
  written_for lsc lvgs sc → m = mkMount (file_system sc) flags →
  fs_type_of m = if bool_decide (lsc_FSType (lsc_Spec lsc) = "") then DefaultFSType
                 else lsc_FSType (lsc_Spec lsc).
Proof.
  intros (lvm & s & _ & _ & Hp)%written_parameters ->.
  destruct (parameters_read lsc lvm s) as (_ & _ & _ & _ & _ & _ & Hfs).
  unfold fs_type_of, file_system, map_get. cbn [mv_FsType]. rewrite Hp. simpl. rewrite Hfs. simpl.
  by repeat case_bool_decide.
Qed.

(** In an edition without volume cleanup nothing is created for a class that
    asks for it. *)
Lemma no_cleanup_no_creation e fuel lsc lvgs sc request lvm :
  written_for lsc lvgs sc → passes sc request →
  lsc_LVM (lsc_Spec lsc) = Some lvm → lvm_VolumeCleanup lvm ≠ "" → VolumeCleanupEnabled e = false →
  wp (CreateVolume e fuel request) [] (λ r h, ∀ k o a, cev (CCreate k o) a ∉ h).
Proof using Type*.
  intros Hw Hp Hlvm Hc He.
  destruct (passed_parameters _ _ _ _ Hw Hp) as (lvm' & s & Hlvm' & _ & _ & _ & _ & Hcl & _).
  assert (lvm' = lvm) as -> by congruence.
  eapply wp_mono; [apply CreateVolume_writes|]. intros r h [Ha _] k o a Hin. clear r.
  induction h as [|ev h IH]; [by apply elem_of_nil in Hin|]. destruct Ha as [Hj Ha].
  apply elem_of_cons in Hin as [<-|Hin]; [|by apply IH].
  destruct Hj as (_ & Hu & _). unfold cleanup_unsupported in Hu. rewrite Hcl, He in Hu.
  by rewrite bool_decide_false in Hu.
Qed.

(** C7: a class becomes a volume and a mount.  For the StorageClass the controller
    wrote for a LocalStorageClass, a CreateVolume with its parameters is refused
    as invalid only for what is not in the parameters, the name, the
    capabilities and the source; in an edition without volume cleanup it creates
    nothing, and does not succeed, for a class that asks for it; and when it
    succeeds it has asked for the volume the class describes: of its type, in a listed group that an entry of
    the class selects, with the pool of that entry, contiguous and cleaned up
    as the class says.  With the answer in hand, a node that stages the volume
    has the very logical volume that was asked for mounted, with the file system
    of the class. *)
Theorem a_class_becomes_a_mount e fuel lsc lvgList lvgs sc request :
  resolveEffectiveLVGs lsc lvgList = inl lvgs → written_for lsc lvgs sc → passes sc request →
  wp (CreateVolume e fuel request) [] (λ r h,
    ((r = Fails (Status InvalidArgument) →
       cr_Name request = "" ∨ cr_VolumeCapabilities request = None ∨
       cr_VolumeContentSource request ≠ None) ∧
     (∀ lvm, lsc_LVM (lsc_Spec lsc) = Some lvm → lvm_VolumeCleanup lvm ≠ "" →
       VolumeCleanupEnabled e = false →
       (∀ resp, r ≠ Done resp) ∧ ∀ k o a, cev (CCreate k o) a ∉ h)) ∧
    ∀ resp, r = Done resp → ∃ lvm spec created listed lvg,
      lsc_LVM (lsc_Spec lsc) = Some lvm ∧ as_the_class_says lvgList lvm spec ∧
      cev (CCreate OLLV (mkLLV (new_meta (cr_Name request)) spec None)) created ∈ h ∧
      cev CListVG (inl listed) ∈ h ∧ lvg ∈ listed ∧ vg_Name lvg = llv_LVMVolumeGroupName spec ∧
      ∀ stage, stages resp (file_system sc) stage →
        wp (NodeStageVolume stage) [] (λ staged past, staged = inl tt →
          device_mounted (vg_ActualVGNameOnTheNode (vg_Spec lvg)) (llv_ActualLVNameOnTheNode spec)
            (if bool_decide (lsc_FSType (lsc_Spec lsc) = "") then DefaultFSType
             else lsc_FSType (lsc_Spec lsc)) (ns_StagingTargetPath stage) past)).
Proof using Type*.
  intros Hr Hw Hp. destruct (passed_parameters _ _ _ _ Hw Hp) as (lvm & s & Hlvm & Hs & _ & Ht & Hg & Hcl & Hcont).
  destruct (written_parameters _ _ _ Hw) as (lvm' & s' & _ & _ & Hpar).
  intros r h Hrun. pose proof (wp_CreateVolume _ _ _ _ _ Hrun) as Hdone. split; [split|].
  { revert Hrun. by eapply CreateVolume_not_refused. }
  { intros lvm0 Hl0 Hc He. pose proof (no_cleanup_no_creation _ fuel _ _ _ _ _ Hw Hp Hl0 Hc He _ _ Hrun)
      as Hnone. split; [|done]. intros resp ->.
    destruct Hdone as (? & ? & ? & ? & ? & ? & _ & _ & _ & _ & Hin & _). by eapply Hnone. }
  clear Hrun. intros resp ->. cbn [ok] in Hdone.
  destruct Hdone as (groups & listed & pl & created & llv & past & Hgr & Hlist & Hpl & [pool Hpool] & Hcr & _ & _ & Hresp & _).
  rewrite Hg, (yaml_read_back _ _ Hs) in Hgr. injection Hgr as <-.
  exists lvm, (llv_Spec (volume_for request (lvg_parameters (map read_group lvgs))
    (map_get (cr_Parameters request) LvmTypeKey) pl)), created, listed, (pl_LVG pl).
  rewrite Ht in *. split_and!; try done.
  - unfold volume_for. cbn [llv_Spec]. rewrite Hcl. by eapply placed_as_the_class_says.
  - apply Hpl.
  - intros stage [Hid Hctx Hmount].
    eapply wp_mono; [apply wp_NodeStageVolume|]. intros staged past' Hstaged Hok.
    destruct (Hstaged Hok) as (volCap & vgName & Hcap & Hvg & Hrest).
    destruct (Hmount _ Hcap) as (flags & Hacc). unfold GetBlock, GetMount in Hrest. rewrite Hacc in Hrest.
    destruct Hrest as (m & past'' & [= <-] & -> & _ & _ & Hm & _).
    rewrite Hctx, Hresp in Hvg.
    pose proof (context_names_the_group request pl (llv_Spec (volume_for request
      (lvg_parameters (map read_group lvgs)) (lvm_Type lvm) pl)) llv) as Hname.
    assert (vgName = vg_ActualVGNameOnTheNode (vg_Spec (pl_LVG pl))) as -> by (cbn in Hvg; cbn in Hname; congruence).
    rewrite Hid, Hresp in Hm. cbn [vol_VolumeId created_response] in Hm.
    rewrite (written_file_system _ _ _ _ _ Hw eq_refl) in Hm. eexists.
    eapply mounted_later. exact Hm.
Qed.
End provisioning.
