(* ===== verification/GCSweep.v ===== *)
(** * One pass of the garbage collector

    images/controller/pkg/controller/lvm_logical_volume_gc.go, from [reclaim] to
    the reconciler.  The objects Go passes by pointer and mutates, the live
    picture, the reclaim budget and the published sweep, are threaded
    explicitly. *)

From S2P Require Import Prelude Effects Kube Monitoring GC.

Local Open Scope string_scope.

(** What reclaim decides: the state, the block reason, the requeue delay. *)
Abbreviation verdict := (string * string * Z)%type.

Section sweep.
Context `{ApiMachinery, RetryOnError, MapRange}.
Context (g : llvGarbageCollector).

(** The switch on the outcome of removeCSIFinalizer that closes reclaim and
    reclaimSnapshot. *)
Definition settle (k : okind) (r : bool + gc_error) : prog gcSig verdict :=
  match r with
  | inr ErrAgentFinalizerAbsent =>
      mret (OrphanStateBlocked, BlockReasonAgentFinalizerAbsent, 0%Z)
  | inr ErrLiveObjectIsASuccessor =>
      mret (OrphanStateBlocked, BlockReasonSuccessorInPlace, 0%Z)
  | inr _ =>
      cancelled ← gc_call CtxErr;
      if cancelled : bool then mret (OrphanStateTerminating, "", 0%Z)
      else
        _ ← emit (ObserveCSIFinalizerRemoval (gc_metrics g) (kind_label k) ResultError);
        mret (OrphanStateBlocked, BlockReasonRemovalFailed, 0%Z)
  | inl removed =>
      _ ← emit (ObserveCSIFinalizerRemoval (gc_metrics g) (kind_label k)
                  (if removed then ResultSuccess else ResultNoop));
      mret (OrphanStateTerminating, "", 0%Z)
  end.

(** reclaim *)
Definition reclaim (llv : LVMLogicalVolume) (snapshotted : gset string)
    (live : liveConfirmation) (budget : reclaimBudget)
    : prog gcSig (verdict * liveConfirmation * reclaimBudget) :=
  match GetDeletionTimestamp llv with
  | None =>
      if retainAcknowledged llv
      then mret ((OrphanStateRetained, "", 0%Z), live, budget)
      else mret ((OrphanStateActive, "", 0%Z), live, budget)
  | Some deletion =>
      if bool_decide (GetName llv ∈ snapshotted)
      then mret ((OrphanStateBlocked, BlockReasonSnapshotsPresent, 0%Z), live, budget)
      else if negb (contains (GetFinalizers llv) SDSNodeConfiguratorFinalizer)
      then mret ((OrphanStateBlocked, BlockReasonAgentFinalizerAbsent, 0%Z), live, budget)
      else
        now ← gc_call Now;
        let waited := time_Sub now deletion in
        if (waited <? gc_gracePeriod g)%Z
        then mret ((OrphanStateTerminating, "", i64 (gc_gracePeriod g - waited)), live, budget)
        else
          let '(spent, budget) := spend budget in
          if negb spent
          then mret ((OrphanStateTerminating, "", reclaimBacklogRequeue), live, budget)
          else
            loaded ← load live;
            let '(err, live) := loaded in
            match err with
            | Some _ =>
                mret ((OrphanStateBlocked, BlockReasonAPIError, 0%Z), live, budget)
            | None =>
                if bool_decide (is_Some (lc_referenced live !! GetName llv))
                then mret ((OrphanStateBlocked, BlockReasonPersistentVolumeExists, 0%Z),
                           live, budget)
                else if bool_decide (GetName llv ∈ lc_snapshotted live)
                then mret ((OrphanStateBlocked, BlockReasonSnapshotsPresent, 0%Z),
                           live, budget)
                else
                  removed ← removeCSIFinalizer OLLV llv;
                  v ← settle OLLV removed;
                  mret (v, live, budget)
            end
  end.

(** reclaimSnapshot; its caller has checked that the deletion timestamp is
    set, and the dereference of a nil one is the [None] of the result. *)
Definition reclaimSnapshot (llvs : LVMLogicalVolumeSnapshot)
    (live : liveConfirmation) (budget : reclaimBudget)
    : prog gcSig (option (verdict * liveConfirmation * reclaimBudget)) :=
  if negb (contains (GetFinalizers llvs) SDSNodeConfiguratorFinalizer)
  then mret (Some ((OrphanStateBlocked, BlockReasonAgentFinalizerAbsent, 0%Z), live, budget))
  else
    now ← gc_call Now;
    match GetDeletionTimestamp llvs with
    | None => mret None
    | Some deletion =>
        let waited := time_Sub now deletion in
        if (waited <? gc_gracePeriod g)%Z
        then mret (Some ((OrphanStateTerminating, "", i64 (gc_gracePeriod g - waited)),
                         live, budget))
        else
          let '(spent, budget) := spend budget in
          if negb spent
          then mret (Some ((OrphanStateTerminating, "", reclaimBacklogRequeue), live, budget))
          else
            loaded ← load live;
            let '(err, live) := loaded in
            match err with
            | Some _ =>
                mret (Some ((OrphanStateBlocked, BlockReasonAPIError, 0%Z), live, budget))
            | None =>
                if bool_decide (GetName llvs ∈ lc_snapshotContents live)
                then mret (Some ((OrphanStateBlocked, BlockReasonVolumeSnapshotContentExists,
                                  0%Z), live, budget))
                else
                  removed ← removeCSIFinalizer OLLVS llvs;
                  v ← settle OLLVS removed;
                  mret (Some (v, live, budget))
            end
    end.

(** ** The two halves of a pass *)

(** The loop state: the requeue wanted so far, the live picture, the budget
    and the picture to publish. *)
Record pass := mkPass {
  p_next : Z;
  p_live : liveConfirmation;
  p_budget : reclaimBudget;
  p_sweep : LVMLogicalVolumeSweep;
}.

Definition count_awaiting (kind : string) (s : LVMLogicalVolumeSweep) : LVMLogicalVolumeSweep :=
  mkSweep (CountBy s) (AllocatedBytesBy s) (Orphans s) (OrphanedSnapshots s)
    (map_incr kind (AwaitingAgentByKind s)).

Definition count_volume (llv : LVMLogicalVolume) (s : LVMLogicalVolumeSweep)
    : LVMLogicalVolumeSweep :=
  let key := (llvPhase llv, llvType llv) in
  mkSweep (map_incr key (CountBy s))
    (map_addf key (llvAllocatedBytes llv) (AllocatedBytesBy s))
    (Orphans s) (OrphanedSnapshots s) (AwaitingAgentByKind s).

Definition add_orphan (o : OrphanedLVMLogicalVolume) (s : LVMLogicalVolumeSweep)
    : LVMLogicalVolumeSweep :=
  mkSweep (CountBy s) (AllocatedBytesBy s) (Orphans s ++ [o]) (OrphanedSnapshots s)
    (AwaitingAgentByKind s).

Definition add_orphan_snapshot (o : OrphanedLVMLogicalVolumeSnapshot)
    (s : LVMLogicalVolumeSweep) : LVMLogicalVolumeSweep :=
  mkSweep (CountBy s) (AllocatedBytesBy s) (Orphans s) (OrphanedSnapshots s ++ [o])
    (AwaitingAgentByKind s).

Definition with_sweep (f : LVMLogicalVolumeSweep → LVMLogicalVolumeSweep) (p : pass) : pass :=
  mkPass (p_next p) (p_live p) (p_budget p) (f (p_sweep p)).

(** [DeletionTimestamp != nil && Contains (Finalizers, agent's)], the test both
    halves apply to an object this module has let go of. *)
Definition awaits_agent (m : ObjectMeta) : bool :=
  negb (is_nil (om_DeletionTimestamp m))
  && contains (om_Finalizers m) SDSNodeConfiguratorFinalizer.

(** The body of the loop of sweepVolumes. *)
Definition sweep_volume (snapshotted : gset string) (referenced : gmap string pvReference)
    (llv : LVMLogicalVolume) (p : pass) : prog gcSig pass :=
  let p := with_sweep (count_volume llv) p in
  if negb (contains (GetFinalizers llv) SDSLocalVolumeCSIFinalizer)
  then mret (if awaits_agent (llv_meta llv)
             then with_sweep (count_awaiting KindLVMLogicalVolume) p else p)
  else if bool_decide (is_Some (referenced !! GetName llv))
  then mret p
  else
    r ← reclaim llv snapshotted (p_live p) (p_budget p);
    let '((state, reason, requeueAfter), live, budget) := r in
    mret (mkPass (soonest (p_next p) requeueAfter) live budget
            (add_orphan (mkOrphan (GetName llv) (llv_LVMVolumeGroupName (llv_Spec llv))
                           (llvType llv) state reason (llvAllocatedBytes llv))
               (p_sweep p))).

Fixpoint sweep_volumes (snapshotted : gset string) (referenced : gmap string pvReference)
    (llvs : list LVMLogicalVolume) (p : pass) : prog gcSig pass :=
  match llvs with
  | [] => mret p
  | llv :: llvs =>
      p ← sweep_volume snapshotted referenced llv p;
      sweep_volumes snapshotted referenced llvs p
  end.

(** sweepVolumes *)
Definition sweepVolumes (llvs : list LVMLogicalVolume)
    (snapshots : list LVMLogicalVolumeSnapshot) (referenced : gmap string pvReference)
    (live : liveConfirmation) (budget : reclaimBudget) (s : LVMLogicalVolumeSweep)
    : prog gcSig pass :=
  sweep_volumes (snapshottedVolumeNames snapshots) referenced llvs
    (mkPass 0 live budget s).

(** The body of the loop of sweepSnapshots; [None] is the nil dereference
    reclaimSnapshot would panic with. *)
Definition sweep_snapshot (llvs : LVMLogicalVolumeSnapshot) (p : pass)
    : prog gcSig (option pass) :=
  if negb (contains (GetFinalizers llvs) SDSLocalVolumeCSIFinalizer)
  then mret (Some (if awaits_agent (llvs_meta llvs)
                   then with_sweep (count_awaiting KindLVMLogicalVolumeSnapshot) p else p))
  else if is_nil (GetDeletionTimestamp llvs)
  then mret (Some p)
  else
    r ← reclaimSnapshot llvs (p_live p) (p_budget p);
    match r with
    | None => mret None
    | Some ((state, reason, requeueAfter), live, budget) =>
        mret (Some (mkPass (soonest (p_next p) requeueAfter) live budget
                (add_orphan_snapshot
                   (mkOrphanSnap (GetName llvs) (llvs_LVMLogicalVolumeName (llvs_Spec llvs))
                      state reason (llvsUsedBytes llvs)) (p_sweep p))))
    end.

Fixpoint sweep_snapshots (snapshots : list LVMLogicalVolumeSnapshot) (p : pass)
    : prog gcSig (option pass) :=
  match snapshots with
  | [] => mret (Some p)
  | s :: snapshots =>
      r ← sweep_snapshot s p;
      match r with
      | None => mret None
      | Some p => sweep_snapshots snapshots p
      end
  end.

(** sweepSnapshots *)
Definition sweepSnapshots (snapshots : list LVMLogicalVolumeSnapshot)
    (live : liveConfirmation) (budget : reclaimBudget) (s : LVMLogicalVolumeSweep)
    : prog gcSig (option pass) :=
  sweep_snapshots snapshots (mkPass 0 live budget s).

(** ** The pass *)

Inductive sweep_error :=
| ErrSweepThrottled
| ErrList (e : api_error)
| NilDereference.

Definition empty_sweep : LVMLogicalVolumeSweep := mkSweep ∅ ∅ [] [] ∅.

(** The outcome of sweep: the picture, the requeue delay, the error, and the
    new value of the field lastSweep. *)
Record sweep_outcome := mkOutcome {
  so_sweep : LVMLogicalVolumeSweep;
  so_next : Z;
  so_err : option sweep_error;
  so_lastSweep : Z;
}.

Definition sweep_failed (lastSweep : Z) (err : sweep_error) : sweep_outcome :=
  mkOutcome empty_sweep 0 (Some err) lastSweep.

(** The part of sweep that runs once the three cached lists are read. *)
Definition sweep_lists (lastSweep : Z) (llvs : list LVMLogicalVolume)
    (snapshots : list LVMLogicalVolumeSnapshot) (referenced : gmap string pvReference)
    : prog gcSig sweep_outcome :=
  let live := mkLive 0 ∅ ∅ ∅ in
  let budget := mkBudget (gc_maxReclaims g) 0 false in
  r ← sweepSnapshots snapshots live budget empty_sweep;
  match r with
  | None => mret (sweep_failed lastSweep NilDereference)
  | Some ps =>
      pv ← sweepVolumes llvs snapshots referenced (p_live ps) (p_budget ps) (p_sweep ps);
      _ ← emit (SetLVMLogicalVolumeSweep (gc_metrics g) (p_sweep pv));
      now ← gc_call Now;
      let nextSweep := soonest (p_next pv) (p_next ps) in
      let nextSweep :=
        if b_exhausted (p_budget pv) then soonest nextSweep reclaimBacklogRequeue
        else nextSweep in
      mret (mkOutcome (p_sweep pv) nextSweep None now)
  end.

(** sweep, called with the mutex held. *)
Definition sweep (lastSweep : Z) : prog gcSig sweep_outcome :=
  throttled ←
    (if time_IsZero lastSweep then mret None
     else now ← gc_call Now;
          let since := time_Sub now lastSweep in
          mret (if (since <? gc_minInterval g)%Z
                then Some (i64 (gc_minInterval g - since)) else None));
  match throttled with
  | Some wait => mret (mkOutcome empty_sweep wait (Some ErrSweepThrottled) lastSweep)
  | None =>
      llvs ← gc_call ListLLV;
      match llvs with
      | inr err => mret (sweep_failed lastSweep (ErrList err))
      | inl llvs =>
          snapshots ← gc_call (ListLLVS Cached);
          match snapshots with
          | inr err => mret (sweep_failed lastSweep (ErrList err))
          | inl snapshots =>
              referenced ← referencingPersistentVolumes Cached;
              match referenced with
              | inr err => mret (sweep_failed lastSweep (ErrList err))
              | inl referenced => sweep_lists lastSweep llvs snapshots referenced
              end
          end
      end
  end.

(** The reconciler of RunLVMLogicalVolumeGCController: the result, the error,
    whether the pass is observed in the reconcile metrics, and lastSweep. *)
Definition reconcile (sweepInterval lastSweep : Z)
    : prog gcSig (Result * option sweep_error * bool * Z) :=
  o ← sweep lastSweep;
  match so_err o with
  | Some ErrSweepThrottled => mret (mkResult false (so_next o), None, false, so_lastSweep o)
  | Some err => mret (mkResult false 0, Some err, true, so_lastSweep o)
  | None =>
      let requeueAfter := so_next o in
      let requeueAfter :=
        if (requeueAfter <=? 0)%Z || (sweepInterval <? requeueAfter)%Z
        then sweepInterval else requeueAfter in
      mret (mkResult false requeueAfter, None, true, so_lastSweep o)
  end.
End sweep.
