(* ===== verification/GCSafety.v ===== *)
(** * Safety of the garbage collector

    Every finalizer write of every pass is justified by what the pass read
    before it, whatever the API server, the cache and the clock answer. *)

From S2P Require Import Prelude Effects Kube Monitoring GC GCSweep.

Section safety.
Context `{ApiMachinery, RetryOnError, MapRange}.
Context (g : llvGarbageCollector).

Abbreviation hist := (history gcSig).
Abbreviation ev := (Ev (S := gcSig)).

(** ** What justifies a write *)

(** The live object may lose the finalizer: its deletion was requested and
    both finalizers are there, so the one removed is not the last. *)
Definition removable {k} (o : kobj k) : Prop :=
  GetDeletionTimestamp o ≠ None ∧
  SDSLocalVolumeCSIFinalizer ∈ GetFinalizers o ∧
  SDSNodeConfiguratorFinalizer ∈ GetFinalizers o.

(** The object the sweep classified came from the cached list. *)
Definition listed (k : okind) : kobj k → hist → Prop :=
  match k with
  | OLLV => λ o h, ∃ l, ev ListLLV (inl l) ∈ h ∧ o ∈ l
  | OLLVS => λ o h, ∃ l, ev (ListLLVS Cached) (inl l) ∈ h ∧ o ∈ l
  end.

(** Its deletion was requested at least the grace period before a clock reading. *)
Definition grace_elapsed {k} (o : kobj k) (h : hist) : Prop :=
  ∃ d t, GetDeletionTimestamp o = Some d ∧ ev Now t ∈ h ∧
         (gc_gracePeriod g ≤ time_Sub t d)%Z.

Definition contents_read (c : gset string) (e : event gcSig) : Prop :=
  (∃ l, e = ev ListVSC (inl l) ∧ c = handles_of l) ∨
  (∃ err, e = ev ListVSC (inr err) ∧ IsNoMatchError err || IsNotFound err = true ∧ c = ∅).

(** The last four events read the picture [l] from the API server. *)
Definition picture_read (l : liveConfirmation) (h : hist) : Prop :=
  ∃ pvs llvss contents past,
    h = ev Now (lc_readAt l) :: contents :: ev (ListLLVS Live) (inl llvss)
          :: ev (ListPV Live) (inl pvs) :: past ∧
    lc_referenced l = referenced_by pvs ∧
    lc_snapshotted l = snapshottedVolumeNames llvss ∧
    contents_read (lc_snapshotContents l) contents.

Definition picture_in (l : liveConfirmation) (h : hist) : Prop :=
  ∃ h', h' `suffix_of` h ∧ picture_read l h'.

(** An event of an attempt to write the finalizer of one object off. *)
Definition is_attempt (k : okind) (name : string) (e : event gcSig) : Prop :=
  match ev_op e with
  | GetLive k' name' => k' = k ∧ name' = name
  | Patch k' _ _ => k' = k
  | _ => False
  end.

(** A picture read less than [liveConfirmationMaxAge] before the clock reading
    [t] after which nothing but attempts on this very object happened. *)
Definition confirmed (k : okind) (name : string) (l : liveConfirmation) (h : hist) : Prop :=
  ∃ attempts t past,
    h = attempts ++ ev Now t :: past ∧
    Forall (is_attempt k name) attempts ∧
    picture_in l (ev Now t :: past) ∧
    (time_Sub t (lc_readAt l) < liveConfirmationMaxAge)%Z.

(** The picture holds nothing that refers to the object. *)
Definition unreferenced (k : okind) (name : string) (l : liveConfirmation) : Prop :=
  match k with
  | OLLV => lc_referenced l !! name = None ∧ name ∉ lc_snapshotted l
  | OLLVS => name ∉ lc_snapshotContents l
  end.

(** What reclaim has established when it starts the write. *)
Definition cleared (k : okind) (cached : kobj k) (h : hist) : Prop :=
  listed k cached h ∧ grace_elapsed cached h ∧
  ∃ l, confirmed k (GetName cached) l h ∧ unreferenced k (GetName cached) l.

Definition patch_justified (e : event gcSig) (past : hist) : Prop :=
  match ev_op e with
  | Patch k base new =>
      removable base ∧
      new = with_meta (SetFinalizers (delete_all SDSLocalVolumeCSIFinalizer
                                        (GetFinalizers base))) base ∧
      ∃ cached past',
        past = ev (GetLive k (GetName cached)) (inl base) :: past' ∧
        GetUID base = GetUID cached ∧ cleared k cached past'
  | _ => True
  end.

Abbreviation justified := (always patch_justified).

(** ** Monotonicity *)

Lemma listed_mono k (o : kobj k) h new : listed k o h → listed k o (new ++ h).
Proof. destruct k; intros (l & ? & ?); exists l; set_solver. Qed.

Lemma grace_elapsed_mono {k} (o : kobj k) h new :
  grace_elapsed o h → grace_elapsed o (new ++ h).
Proof. intros (d & t & ? & ? & ?). exists d, t. set_solver. Qed.

Lemma picture_in_mono l h new : picture_in l h → picture_in l (new ++ h).
Proof. intros (h' & ? & ?). exists h'. split; [by apply suffix_app_r|done]. Qed.

Lemma confirmed_attempts k name l h new :
  Forall (is_attempt k name) new → confirmed k name l h → confirmed k name l (new ++ h).
Proof.
  intros Hn (a & t & past & -> & ? & ? & ?). exists (new ++ a), t, past.
  rewrite <-app_assoc. split_and!; try done. by apply Forall_app.
Qed.

Lemma cleared_attempts k (cached : kobj k) h new :
  Forall (is_attempt k (GetName cached)) new →
  cleared k cached h → cleared k cached (new ++ h).
Proof.
  intros Hn (? & ? & l & ? & ?). split_and!;
    eauto using listed_mono, grace_elapsed_mono, confirmed_attempts.
Qed.

(** ** The write *)

Lemma wp_removeCSIFinalizer_once k (cached : kobj k) h :
  justified h → cleared k cached h →
  wp (removeCSIFinalizer_once k cached) h (λ _ h', justified h' ∧
    ∃ new, h' = new ++ h ∧ Forall (is_attempt k (GetName cached)) new).
Proof.
  intros HJ HC. unfold removeCSIFinalizer_once. apply wp_call_bind. intros got.
  assert (HJ' : justified (ev (GetLive k (GetName cached)) got :: h)) by done.
  assert (Hone : ∃ new, ev (GetLive k (GetName cached)) got :: h = new ++ h ∧
    Forall (is_attempt k (GetName cached)) new).
  { exists [ev (GetLive k (GetName cached)) got]. split; [done|]. by repeat constructor. }
  destruct got as [live|err]; [|by destruct (IsNotFound err); apply wp_ret].
  repeat case_match; try (by apply wp_ret). bool_simpl.
  apply wp_call_bind. intros err.
  set (new := with_meta _ live). set (e1 := ev (GetLive _ _) _).
  assert (HJ2 : justified (ev (Patch k live new) err :: e1 :: h)).
  { split; [|done]. split_and!; [|done|].
    - split; [|done]. by destruct (GetDeletionTimestamp live).
    - exists cached, h. done. }
  assert (∃ n, ev (Patch k live new) err :: e1 :: h = n ++ h ∧
               Forall (is_attempt k (GetName cached)) n).
  { exists [ev (Patch k live new) err; e1]. split; [done|]. by repeat constructor. }
  destruct err; by apply wp_ret.
Qed.

Lemma wp_removeCSIFinalizer k (cached : kobj k) h :
  justified h → cleared k cached h →
  wp (removeCSIFinalizer k cached) h (λ _ h', justified h' ∧
    ∃ new, h' = new ++ h ∧ Forall (is_attempt k (GetName cached)) new).
Proof.
  intros HJ HC.
  apply (wp_OnError _ _ (λ h', justified h' ∧
    ∃ new, h' = new ++ h ∧ Forall (is_attempt k (GetName cached)) new)).
  { split; [done|]. exists []. split; [done|constructor]. }
  intros h' (HJ' & new & -> & Hnew).
  eapply wp_mono; [apply wp_removeCSIFinalizer_once; eauto using cleared_attempts|].
  intros r h'' (HJ'' & new' & -> & Hnew').
  assert (∃ n, new' ++ new ++ h = n ++ h ∧ Forall (is_attempt k (GetName cached)) n).
  { exists (new' ++ new). rewrite <-app_assoc. split; [done|]. by apply Forall_app. }
  eauto.
Qed.

Definition is_metric (e : event gcSig) : Prop :=
  match ev_op e with Metric _ => True | _ => False end.

Lemma wp_emit ops h (Q : unit → hist → Prop) :
  (∀ new, Forall is_metric new → Q tt (new ++ h)) →
  wp (emit ops) h Q.
Proof.
  revert h. induction ops as [|m ops IH]; intros h HQ; simpl.
  - apply wp_ret. by apply (HQ []).
  - apply wp_call_bind. intros r. apply IH. intros new Hnew.
    specialize (HQ (new ++ [ev (Metric m) r])).
    rewrite <-app_assoc in HQ. apply HQ. apply Forall_app. split; [done|].
    by repeat constructor.
Qed.

Lemma justified_metrics h new :
  Forall is_metric new → justified h → justified (new ++ h).
Proof.
  intros Hn HJ. induction Hn as [|e new He ? IH]; [done|].
  split; [|done]. unfold patch_justified, is_metric in *. by destruct (ev_op e).
Qed.

Lemma wp_settle k r h :
  justified h → wp (settle g k r) h (λ _ h', justified h' ∧ ∃ new, h' = new ++ h).
Proof.
  intros HJ. unfold settle.
  assert (Hfin : ∀ ops (v : verdict) h, justified h →
    wp (_ ← emit ops; mret v) h (λ _ h', justified h' ∧ ∃ new, h' = new ++ h)).
  { intros ops v h0 HJ0. apply wp_bind, wp_emit. intros new Hn. apply wp_ret.
    split; [by apply justified_metrics|eauto]. }
  assert (∃ new, h = new ++ h) by (by exists []).
  destruct r as [removed|[e| | |]]; try (by apply wp_ret); [by apply Hfin| |];
    apply wp_call_bind; intros [];
    try (apply wp_ret; split; [done|by exists [ev CtxErr true]]);
    (eapply wp_mono; [by apply Hfin|]; intros _ h' [? [new ->]]; split; [done|];
     exists (new ++ [ev CtxErr false]); by rewrite <-app_assoc).
Qed.

(** ** The live picture *)

(** A picture that was ever read is in the history. *)
Definition live_ok (l : liveConfirmation) (h : hist) : Prop :=
  time_IsZero (lc_readAt l) = false → picture_in l h.

Lemma live_ok_mono l h new : live_ok l h → live_ok l (new ++ h).
Proof. intros Hl Hz. by apply picture_in_mono, Hl. Qed.

(** What is kept by every step of a pass: the writes so far are justified, the
    history only grew, and the live picture is backed by it. *)
Definition pass_ok (h0 : hist) (l : liveConfirmation) (h : hist) : Prop :=
  justified h ∧ live_ok l h ∧ ∃ new, h = new ++ h0.

Lemma pass_ok_refl l h : justified h → live_ok l h → pass_ok h l h.
Proof. intros ??. split_and!; [done..|by exists []]. Qed.

Lemma pass_ok_grow h0 l h new :
  pass_ok h0 l h → justified (new ++ h) → pass_ok h0 l (new ++ h).
Proof.
  intros (_ & ? & n & ->) ?. split_and!; [done|by apply live_ok_mono|].
  exists (new ++ n). by rewrite app_assoc.
Qed.

Lemma pass_ok_trans h0 h1 l l' h :
  pass_ok h0 l h1 → pass_ok h1 l' h → pass_ok h0 l' h.
Proof.
  intros (_ & _ & n & ->) (? & ? & n' & ->). split_and!; [done..|].
  exists (n' ++ n). by rewrite app_assoc.
Qed.

(** One more event that is not a finalizer write. *)
Definition no_patch (e : event gcSig) : Prop :=
  match ev_op e with Patch _ _ _ => False | _ => True end.

Lemma pass_ok_cons h0 l h e : no_patch e → pass_ok h0 l h → pass_ok h0 l (e :: h).
Proof.
  intros He Hh. apply (pass_ok_grow _ _ _ [e]); [done|].
  destruct Hh as [? _]. split; [|done]. unfold patch_justified, no_patch in *. by destruct (ev_op e).
Qed.

(** The picture in use is less than [liveConfirmationMaxAge] old at the last
    event, a reading of the clock. *)
Definition fresh (l : liveConfirmation) (h : hist) : Prop :=
  ∃ t past, h = ev Now t :: past ∧ picture_in l h ∧
            (time_Sub t (lc_readAt l) < liveConfirmationMaxAge)%Z.

Lemma wp_snapshotContentHandles h (Q : gset string + api_error → hist → Prop) :
  (∀ r (e : event gcSig), no_patch e → (∀ c, r = inl c → contents_read c e) → Q r (e :: h)) →
  wp snapshotContentHandles h Q.
Proof.
  intros HQ. unfold snapshotContentHandles. apply wp_call_bind. intros [l|err].
  - apply wp_ret, HQ; [done|]. intros c [= <-]. left. eauto.
  - destruct (_ || _) eqn:E; apply wp_ret, HQ; try done.
    intros c [= <-]. right. eauto.
Qed.

Lemma wp_load h0 l h :
  pass_ok h0 l h →
  wp (load l) h (λ r h', pass_ok h0 (snd r) h' ∧ (fst r = None → fresh (snd r) h')).
Proof.
  intros Hh. unfold load. apply wp_bind.
  eapply (wp_mono _ _ (λ b h', pass_ok h0 l h' ∧ (b = true → fresh l h'))).
  { destruct (time_IsZero (lc_readAt l)) eqn:Hz; [by apply wp_ret|].
    apply wp_call_bind. intros t. apply wp_ret.
    assert (Hh' : pass_ok h0 l (ev Now t :: h)) by by apply pass_ok_cons.
    split; [done|]. intros ?; bool_simpl. exists t, h. split_and!; [done| |done].
    by apply Hh'. }
  intros b h' [Hh' Hb]. destruct b; [by apply wp_ret; eauto|]. clear Hb.
  apply wp_bind, wp_call_bind. intros [pvs|err]; apply wp_ret; [|apply wp_ret].
  2:{ split; [by apply pass_ok_cons|done]. }
  apply wp_call_bind. intros [llvss|err].
  2:{ apply wp_ret. split; [by do 2 (apply pass_ok_cons; [done|])|done]. }
  apply wp_bind, wp_snapshotContentHandles. intros contents e He Hc.
  assert (Hh4 : pass_ok h0 l (e :: ev (ListLLVS Live) (inl llvss)
                                :: ev (ListPV Live) (inl pvs) :: h')).
  { apply pass_ok_cons; [done|]. by do 2 (apply pass_ok_cons; [done|]). }
  destruct contents as [contents|err]; [|by apply wp_ret].
  apply wp_call_bind. intros now. apply wp_ret. simpl.
  set (l' := mkLive now _ _ _). apply (pass_ok_cons _ _ _ (ev Now now)) in Hh4; [|done].
  assert (Hin : picture_in l' (ev Now now :: e :: ev (ListLLVS Live) (inl llvss)
                                 :: ev (ListPV Live) (inl pvs) :: h')).
  { eexists. split; [done|]. exists pvs, llvss, e, h'. split_and!; eauto. }
  destruct Hh4 as (? & _ & ?).
  split; [by split; [done|split; [by intros _|done]]|]. intros _.
  exists now. eexists. split_and!; [done..|]. simpl. by rewrite time_Sub_diag.
Qed.

(** ** The halves and the pass *)

Lemma fresh_confirmed k name l h : fresh l h → confirmed k name l h.
Proof. intros (t & past & -> & ? & ?). exists [], t, past. split_and!; auto. Qed.

(** The write itself, once everything is cleared. *)
Lemma wp_write {A} k (cached : kobj k) h0 l h (f : verdict → prog gcSig A) Q :
  pass_ok h0 l h → listed k cached h → grace_elapsed cached h → fresh l h →
  unreferenced k (GetName cached) l →
  (∀ v h', pass_ok h0 l h' → wp (f v) h' Q) →
  wp (r ← removeCSIFinalizer k cached; v ← settle g k r; f v) h Q.
Proof.
  intros Hh Hl Hg Hf Hu HQ. apply wp_bind. eapply wp_mono.
  { apply wp_removeCSIFinalizer; [apply Hh|]. split_and!; eauto using fresh_confirmed. }
  intros r h' [HJ (new & -> & _)]. apply wp_bind.
  eapply wp_mono; [by apply wp_settle|]. intros v h' [HJ' [new' ->]]. apply HQ.
  rewrite app_assoc in *. by apply pass_ok_grow.
Qed.

Lemma wp_reclaim (llv : LVMLogicalVolume) snapshotted live budget h0 h :
  pass_ok h0 live h → listed OLLV llv h →
  wp (reclaim g llv snapshotted live budget) h
     (λ r h', pass_ok h0 (snd (fst r)) h').
Proof.
  intros Hh Hl. unfold reclaim. destruct (GetDeletionTimestamp llv) as [d|] eqn:Hd.
  2:{ wp_step; by apply wp_ret. }
  do 2 (wp_step; [by apply wp_ret|]). apply wp_call_bind. intros t. cbv zeta.
  apply (pass_ok_cons _ _ _ (ev Now t)) in Hh; [|done].
  apply (listed_mono _ _ _ [ev Now t]) in Hl. simpl in Hl.
  wp_step; [by apply wp_ret|]. bool_simpl.
  assert (Hg : grace_elapsed (k:=OLLV) llv (ev Now t :: h)).
  { exists d, t. split_and!; [done|by left|done]. }
  destruct (spend budget) as [[] budget']; simpl; [|by apply wp_ret].
  apply wp_bind. eapply wp_mono; [apply wp_and; [by apply (wp_load h0)|apply wp_extends]|].
  intros [[err|] live'] h' [[Hh' Hf] [new ->]]; [by apply wp_ret|].
  simpl in Hh', Hf. do 2 (wp_step; [by apply wp_ret|]). bool_simpl.
  apply (wp_write OLLV llv h0 live'); eauto using listed_mono, grace_elapsed_mono.
  - split; [by apply eq_None_not_Some|done].
  - intros v h' ?. by apply wp_ret.
Qed.

Lemma wp_reclaimSnapshot (llvs : LVMLogicalVolumeSnapshot) live budget h0 h :
  pass_ok h0 live h → listed OLLVS llvs h → GetDeletionTimestamp llvs ≠ None →
  wp (reclaimSnapshot g llvs live budget) h
     (λ r h', ∃ v live' budget', r = Some (v, live', budget') ∧ pass_ok h0 live' h').
Proof.
  intros Hh Hl Hnil. unfold reclaimSnapshot.
  wp_step; [by apply wp_ret; eauto|]. apply wp_call_bind. intros t. cbv zeta.
  destruct (GetDeletionTimestamp llvs) as [d|] eqn:Hd; [|done].
  apply (pass_ok_cons _ _ _ (ev Now t)) in Hh; [|done].
  apply (listed_mono _ _ _ [ev Now t]) in Hl. simpl in Hl.
  wp_step; [by apply wp_ret; eauto|]. bool_simpl.
  assert (Hg : grace_elapsed (k:=OLLVS) llvs (ev Now t :: h)).
  { exists d, t. split_and!; [done|by left|done]. }
  destruct (spend budget) as [[] budget']; simpl; [|by apply wp_ret; eauto].
  apply wp_bind. eapply wp_mono; [apply wp_and; [by apply (wp_load h0)|apply wp_extends]|].
  intros [[err|] live'] h' [[Hh' Hf] [new ->]]; [by apply wp_ret; eauto|].
  simpl in Hh', Hf. wp_step; [by apply wp_ret; eauto|]. bool_simpl.
  apply (wp_write OLLVS llvs h0 live'); eauto using listed_mono, grace_elapsed_mono.
  intros v h' ?. apply wp_ret. eauto.
Qed.

Lemma wp_sweep_volumes snapshotted referenced (llvs : list LVMLogicalVolume) p h0 h :
  pass_ok h0 (p_live p) h → (∀ llv : LVMLogicalVolume, llv ∈ llvs → listed OLLV llv h) →
  wp (sweep_volumes g snapshotted referenced llvs p) h
     (λ p' h', pass_ok h0 (p_live p') h').
Proof.
  revert p h. induction llvs as [|llv llvs IH]; intros p h Hh Hl; simpl; [by apply wp_ret|].
  apply wp_bind. eapply (wp_mono _ _ (λ p' h', pass_ok h0 (p_live p') h' ∧ ∃ n, h' = n ++ h)).
  - apply wp_and; [|apply wp_extends]. unfold sweep_volume. cbv zeta.
    wp_step; [apply wp_ret; by case_match|]. wp_step; [by apply wp_ret|].
    apply wp_bind. eapply wp_mono; [apply (wp_reclaim _ _ _ _ h0); [done|apply Hl; by left]|].
    intros [[[[st re] rq] l'] b'] h' ?. by apply wp_ret.
  - intros p' h' [Hh' [n ->]]. apply IH; [done|]. intros x Hin.
    apply listed_mono, Hl. by right.
Qed.

Lemma wp_sweep_snapshots (snapshots : list LVMLogicalVolumeSnapshot) p h0 h :
  pass_ok h0 (p_live p) h → (∀ s : LVMLogicalVolumeSnapshot, s ∈ snapshots → listed OLLVS s h) →
  wp (sweep_snapshots g snapshots p) h
     (λ r h', ∃ p', r = Some p' ∧ pass_ok h0 (p_live p') h').
Proof.
  revert p h. induction snapshots as [|s snapshots IH]; intros p h Hh Hl; simpl;
    [by apply wp_ret; eauto|].
  apply wp_bind. eapply (wp_mono _ _ (λ r h',
    (∃ p', r = Some p' ∧ pass_ok h0 (p_live p') h') ∧ ∃ n, h' = n ++ h)).
  - apply wp_and; [|apply wp_extends]. unfold sweep_snapshot.
    wp_step; [apply wp_ret; case_match; eauto|].
    destruct (GetDeletionTimestamp s) eqn:Hd; simpl; [|by apply wp_ret; eauto].
    apply wp_bind. eapply wp_mono.
    { apply (wp_reclaimSnapshot _ _ _ h0); [done|apply Hl; by left|congruence]. }
    intros r h' ([[st re] rq] & l' & b' & -> & ?). apply wp_ret. eauto.
  - intros r h' [(p' & -> & Hh') [n ->]]. apply IH; [done|]. intros x Hin.
    apply listed_mono, Hl. by right.
Qed.

Lemma wp_sweep_lists lastSweep llvs snapshots referenced h :
  justified h → ev ListLLV (inl llvs) ∈ h → ev (ListLLVS Cached) (inl snapshots) ∈ h →
  wp (sweep_lists g lastSweep llvs snapshots referenced) h
     (λ o h', justified h' ∧ so_err o = None).
Proof.
  intros HJ Hl1 Hl2. unfold sweep_lists. cbv zeta. apply wp_bind.
  assert (Hh : pass_ok h (mkLive 0 ∅ ∅ ∅) h) by by apply pass_ok_refl.
  eapply wp_mono; [apply (wp_sweep_snapshots _ _ h); [exact Hh|by eexists]|].
  intros r h1 (ps & -> & Hps). apply wp_bind.
  assert (∃ n, h1 = n ++ h) as [n ->] by apply Hps.
  eapply wp_mono; [apply (wp_sweep_volumes _ _ _ _ h)|].
  { exact Hps. }
  { intros llv Hin. apply (listed_mono OLLV). by exists llvs. }
  intros pv h2 [HJ2 _]. apply wp_bind, wp_emit. intros new Hnew.
  apply wp_call_bind. intros now. apply wp_ret. split; [|done]. split; [done|].
  by apply justified_metrics.
Qed.

Lemma wp_sweep lastSweep :
  wp (sweep g lastSweep) []
     (λ o h, justified h ∧ so_err o ≠ Some NilDereference).
Proof.
  unfold sweep. apply wp_bind.
  eapply (wp_mono _ _ (λ _ h, justified h)).
  { wp_step; [by apply wp_ret|]. apply wp_call_bind. intros now. by apply wp_ret. }
  intros [wait|] h HJ; [by apply wp_ret|].
  apply wp_call_bind. intros [llvs|err]; [|by apply wp_ret].
  apply wp_call_bind. intros [snapshots|err]; [|by apply wp_ret].
  apply wp_bind, wp_call_bind. intros [pvs|err]; apply wp_ret; [|by apply wp_ret].
  eapply wp_mono; [apply wp_sweep_lists; [done|set_solver..]|].
  intros o h' [? ->]. done.
Qed.

Lemma wp_reconcile_justified sweepInterval lastSweep :
  wp (reconcile g sweepInterval lastSweep) [] (λ '(_, err, _, _) h,
    always patch_justified h ∧ err ≠ Some NilDereference).
Proof.
  apply wp_bind. eapply wp_mono; [apply wp_sweep|].
  intros o h [HJ Hnil]. destruct (so_err o) as [[]|]; apply wp_ret; by split.
Qed.

(** C1: a reconcile of the garbage collector only ever writes a finalizer off
    an object when the write is justified: the object was in the cached list
    of the pass, its deletion was requested and the grace period had elapsed;
    a picture read from the API server less than a second before holds
    nothing that refers to it; the live object read just before the write is
    the same one (by UID), is being deleted and still carries the agent's
    finalizer next to the one removed; and the write changes nothing but the
    list of finalizers, from which it removes only this module's.  Nor does the
    nil deletion timestamp that reclaimSnapshot would dereference ever reach
    it.  This holds for every behaviour of the API server, the cache and the
    clock. *)
Theorem reconcile_writes_are_justified sweepInterval lastSweep :
  wp (reconcile g sweepInterval lastSweep) [] (λ '(_, err, _, _) h,
    always patch_justified h ∧ err ≠ Some NilDereference).
Proof. apply wp_reconcile_justified. Qed.
End safety.
