(* ===== verification/GCLifecycle.v ===== *)
(** * What the garbage collector may let go

    An abstract specification of the life of one object, a volume or a snapshot,
    as the garbage collector may take part in it, and the refinement theorem
    that a reconcile implements it.  GCSafety says what a write is based on at
    the time it was read; here the object is in a store that behaves as the API
    server is documented to, everybody else goes on using it, and the theorem is
    about the moment of the write: nothing that is in use is ever let go, but
    what somebody started to use after its deletion had been requested. *)

From S2P Require Import Prelude Effects Kube Monitoring GC GCSweep GCSafety.

Local Open Scope string_scope.

(** ** The specification *)

(** Who can be using an object of some name. *)
Inductive use := ByVolume | BySnapshot | ByContent.

#[global] Instance use_eq_dec : EqDecision use.
Proof. solve_decision. Defined.

(** The object of the name, if there is one: its identity, whether this module
    guards it and whether the node agent does; the identities whose deletion has
    been requested so far; and who uses the name. *)
Record life := mkLife {
  alive : option (string * bool * bool);
  doomed : gset string;
  used : use → bool;
}.

#[global] Instance okind_eq_dec : EqDecision okind.
Proof. solve_decision. Defined.

(** The uses that keep an object of a kind. *)
Definition keeps (k : okind) : list use :=
  match k with OLLV => [ByVolume; BySnapshot] | OLLVS => [ByContent] end.

Inductive action := LetGo | Internal.

(** The uses of a doomed object that began when it was doomed. *)
Abbreviation late_uses := (list (string * use)).

(** What the collector may do: take the guard off an object that is asked to be
    deleted, that the agent still has to clean up, and that nobody uses who did
    not start to when the deletion had been requested. *)
Inductive promised (k : okind) (late : late_uses) : action → life → life → Prop :=
| promised_let_go u dead us :
    u ∈ dead → (∀ w, w ∈ keeps k → us w = false ∨ (u, w) ∈ late) →
    promised k late LetGo (mkLife (Some (u, true, true)) dead us)
      (mkLife (Some (u, false, true)) dead us)
| promised_internal a : promised k late Internal a a.

(** The identity of the object of the name. *)
Definition identity (a : life) : option string := fst ∘ fst <$> alive a.

(** What everybody else may do: anything but call off a deletion, or bring back
    an object that is gone, which the API server does not allow; what they start
    to use of an object whose deletion has been requested is noted. *)
Definition world_may (k : okind) (late : late_uses) (a a' : life) (late' : late_uses) : Prop :=
  doomed a ⊆ doomed a' ∧
  (∀ u, u ∈ doomed a → identity a' = Some u →
    identity a = Some u ∧
    ∀ w, w ∈ keeps k → used a' w = true → used a w = true ∨ (u, w) ∈ late') ∧
  ∃ new, late' = (new ++ late)%list ∧
    Forall (λ uw, uw.1 ∈ doomed a ∧ identity a' = Some uw.1 ∧
                  used a uw.2 = false ∧ used a' uw.2 = true) new.

(** What they may do when nobody starts to use such an object. *)
Definition others_may (k : okind) (a a' : life) : Prop :=
  doomed a ⊆ doomed a' ∧
  ∀ u, u ∈ doomed a → fst ∘ fst <$> alive a' = Some u →
    fst ∘ fst <$> alive a = Some u ∧ ∀ w, w ∈ keeps k → used a' w = true → used a w = true.

Lemma others_are_world k late a a' : others_may k a a' → world_may k late a a' late.
Proof.
  intros [Hd Hu]. split; [done|]. split; [|by exists []].
  intros u Hin Hi. destruct (Hu u Hin Hi) as [? Hw]. split; [done|]. auto.
Qed.

Inductive lifecycle (k : okind) (a0 : life) : list action → life → late_uses → Prop :=
| life_start : lifecycle k a0 [] a0 []
| life_world acts a late a' late' :
    lifecycle k a0 acts a late → world_may k late a a' late' → lifecycle k a0 acts a' late'
| life_step act acts a late a' :
    lifecycle k a0 acts a late → promised k late act a a' → lifecycle k a0 (act :: acts) a' late.

Section refinement.
Context `{ApiMachinery, RetryOnError, MapRange}.
Context (g : llvGarbageCollector) (k : okind) (name : string).

Abbreviation hist := (history gcSig).
Abbreviation ev := (Ev (S := gcSig)).

(** ** The store *)

(** What the API server has: the object of the name, every PersistentVolume,
    snapshot and VolumeSnapshotContent, where there is such a kind; and the
    identities of this name whose deletion was ever requested. *)
Record store := mkStore {
  st_obj : option (kobj k);
  st_doomed : gset string;
  st_pvs : list PersistentVolume;
  st_snapshots : list LVMLogicalVolumeSnapshot;
  st_contents : option (list unstructured);
}.

Definition used_in (s : store) (w : use) : bool :=
  match w with
  | ByVolume => bool_decide (is_Some (referenced_by (st_pvs s) !! name))
  | BySnapshot => bool_decide (name ∈ snapshottedVolumeNames (st_snapshots s))
  | ByContent => bool_decide (name ∈ from_option handles_of ∅ (st_contents s))
  end.

Definition life_of (s : store) : life := mkLife
  ((λ o, (GetUID o, contains (GetFinalizers o) SDSLocalVolumeCSIFinalizer,
          contains (GetFinalizers o) SDSNodeConfiguratorFinalizer)) <$> st_obj s)
  (st_doomed s) (used_in s).

(** A list of the cache is from the past: what it shows as being deleted has
    been asked to be. *)
Definition from_the_past {k'} (s : store) (l : list (kobj k')) : Prop :=
  k' = k → ∀ o, o ∈ l → GetName o = name → GetDeletionTimestamp o ≠ None →
    GetUID o ∈ st_doomed s.

(** An object with its kind. *)
Definition boxed {k'} (o : kobj k') : {k' : okind & kobj k'} := existT k' o.

(** Documented behaviour of the API server and of the cache.  A patch with an
    optimistic lock is accepted only on the very object it is based on. *)
Definition serves (s : store) (e : event gcSig) (s' : store) : Prop :=
  match ev_op e as o return gc_res o → Prop with
  | GetLive k' n => λ r, s' = s ∧ ∀ o : kobj k', r = inl o → GetName o = n
  | ListLLV => λ r, s' = s ∧ ∀ l, r = inl l → from_the_past (k' := OLLV) s l
  | ListLLVS Cached => λ r, s' = s ∧ ∀ l, r = inl l → from_the_past (k' := OLLVS) s l
  | ListLLVS Live => λ r, s' = s ∧ ∀ l, r = inl l → l = st_snapshots s
  | ListPV Live => λ r, s' = s ∧ ∀ l, r = inl l → l = st_pvs s
  | ListVSC => λ r, s' = s ∧
      match r with
      | inl l => st_contents s = Some l
      | inr err => IsNoMatchError err || IsNotFound err = true → st_contents s = None
      end
  | Patch k' base new => λ r,
      match r with
      | None =>
          if bool_decide (k' = k) && bool_decide (GetName base = name)
          then ∃ (cur stored : kobj k) version, boxed cur = boxed base ∧
                 boxed stored = boxed (with_meta (SetResourceVersion version) new) ∧
                 st_obj s = Some cur ∧
                 s' = mkStore (Some stored) (st_doomed s) (st_pvs s) (st_snapshots s) (st_contents s)
          else s' = s
      | Some _ => s' = s
      end
  | _ => λ _, s' = s
  end (ev_res e).

(** A reconcile against the store, interleaved with everybody else, and the late
    uses so far. *)
Inductive system (s0 : store) : hist → store → late_uses → Prop :=
| system_start : system s0 [] s0 []
| system_world h s late s' late' :
    system s0 h s late → world_may k late (life_of s) (life_of s') late' → system s0 h s' late'
| system_event h s late e s' : system s0 h s late → serves s e s' → system s0 (e :: h) s' late.

(** The action a request amounts to. *)
Definition action_of (e : event gcSig) : action :=
  match ev_op e as o return gc_res o → action with
  | Patch k' base _ => λ r,
      match r with
      | None => if bool_decide (k' = k) && bool_decide (GetName base = name) then LetGo else Internal
      | Some _ => Internal
      end
  | _ => λ _, Internal
  end (ev_res e).

(** ** The order of a pass *)

(** The cached lists of the objects come first, the live reads after them. *)
Definition is_listing (e : event gcSig) : Prop :=
  match ev_op e with ListLLV | ListLLVS Cached => True | _ => False end.

Definition is_live (e : event gcSig) : Prop :=
  match ev_op e with ListPV Live | ListLLVS Live | ListVSC => True | _ => False end.

Definition ordered (h : hist) : Prop :=
  ∃ new old, h = (new ++ old)%list ∧ Forall (λ e, ¬ is_listing e) new ∧ Forall (λ e, ¬ is_live e) old.

Ltac gc_emits :=
  repeat first
    [ emits_step
    | match goal with
      | |- emits _ (gc_call ?o) => refine (emits_call (S := gcSig) _ o _); intros ?
      end
    | progress intros ]; try (by intros []).

(** The lists a pass starts from. *)
Definition from_cache (e : event gcSig) : Prop :=
  match ev_op e with ListLLV | ListLLVS Cached | ListPV Cached => True | _ => False end.

Abbreviation silent := (emits (λ e : event gcSig, ¬ from_cache e)).

Lemma emit_silent ops : silent (emit ops).
Proof.
  induction ops as [|m ops IH]; cbn [emit]; [apply emits_ret|].
  apply emits_bind; [refine (emits_call (S := gcSig) _ (Metric m) _); by intros ? []|].
  by intros [].
Qed.

Lemma removeCSIFinalizer_silent k' (o : kobj k') : silent (removeCSIFinalizer k' o).
Proof. apply emits_OnError. unfold removeCSIFinalizer_once. gc_emits. Qed.

Lemma settle_silent k' r : silent (settle g k' r).
Proof. unfold settle. gc_emits; first [apply emit_silent|apply emits_ret]. Qed.

Lemma load_silent live : silent (load live).
Proof. unfold load, referencingPersistentVolumes, snapshotContentHandles. gc_emits. Qed.

Lemma reclaim_silent llv snapshotted live b : silent (reclaim g llv snapshotted live b).
Proof.
  unfold reclaim. cbv zeta. gc_emits;
    first [apply load_silent|apply (removeCSIFinalizer_silent OLLV)|apply settle_silent|apply emits_ret].
Qed.

Lemma reclaimSnapshot_silent s live b : silent (reclaimSnapshot g s live b).
Proof.
  unfold reclaimSnapshot. cbv zeta. gc_emits;
    first [apply load_silent|apply (removeCSIFinalizer_silent OLLVS)|apply settle_silent|apply emits_ret].
Qed.

Lemma sweep_lists_silent lastSweep llvs snaps refs :
  silent (sweep_lists g lastSweep llvs snaps refs).
Proof.
  assert (Hs : ∀ p, silent (sweep_snapshots g snaps p)).
  { induction snaps as [|s l IH]; intros p; cbn [sweep_snapshots]; [apply emits_ret|].
    apply emits_bind; [|intros [p'|]; [apply IH|apply emits_ret]].
    unfold sweep_snapshot. gc_emits; apply reclaimSnapshot_silent. }
  assert (Hv : ∀ snapped p, silent (sweep_volumes g snapped refs llvs p)).
  { intros snapped. induction llvs as [|v l IH]; intros p; cbn [sweep_volumes]; [apply emits_ret|].
    apply emits_bind; [|apply IH]. unfold sweep_volume. cbv zeta. gc_emits; apply reclaim_silent. }
  unfold sweep_lists, sweepSnapshots, sweepVolumes. cbv zeta.
  gc_emits; first [apply Hs|apply Hv|apply emit_silent|apply emits_ret].
Qed.

Ltac not_live := repeat (apply Forall_cons; split; [by intros []|]); done || by apply Forall_nil.

Lemma wp_reconcile_ordered sweepInterval lastSweep :
  wp (reconcile g sweepInterval lastSweep) [] (λ _ h, ordered h).
Proof.
  assert (Hold : ∀ h, Forall (λ e, ¬ is_live e) h → ordered h) by (intros h; by exists [], h).
  apply wp_bind. apply (wp_mono _ _ (λ _ h, ordered h)).
  2:{ intros o h Ho. destruct (so_err o) as [[]|]; by apply wp_ret. }
  unfold sweep. apply wp_bind. apply (wp_mono _ _ (λ _ h, Forall (λ e, ¬ is_live e) h)).
  { wp_step; [by apply wp_ret|]. apply wp_call_bind. intros now. apply wp_ret. not_live. }
  intros [wait|] h Hh; [by apply wp_ret, Hold|].
  apply wp_call_bind. intros [llvs|err]; [|apply wp_ret, Hold; not_live].
  apply wp_call_bind. intros [snapshots|err]; [|apply wp_ret, Hold; not_live].
  apply wp_bind, wp_call_bind. intros [pvs|err]; apply wp_ret;
    [|apply wp_ret, Hold; not_live].
  eapply wp_mono; [apply sweep_lists_silent|]. intros o h' (new & -> & Hn).
  exists new. eexists. split; [done|]. split; [|not_live].
  eapply Forall_impl; [exact Hn|]. intros e He Hl. apply He. unfold is_listing, from_cache in *.
  destruct (ev_op e) as [|rd|rd| | | | | |]; try done; by destruct rd.
Qed.

Lemma ordered_tail e h : ordered (e :: h) → ordered h.
Proof.
  intros (new & old & Heq & Hn & Ho). destruct new as [|e' new]; simpl in Heq.
  - subst old. apply Forall_cons in Ho as [_ Ho]. by exists [], h.
  - injection Heq as _ ->. apply Forall_cons in Hn as [_ Hn]. by exists new, old.
Qed.

(** What is listed at all is listed before every live read. *)
Lemma listed_before (o : kobj k) h1 e h2 :
  ordered (h1 ++ e :: h2)%list → is_live e → listed k o (h1 ++ e :: h2)%list → listed k o h2.
Proof.
  intros (new & old & Heq & Hn & Ho) He Hl.
  assert (Hold : ∀ x, x ∈ (h1 ++ e :: h2)%list → is_listing x → x ∈ h2).
  { intros x Hin Hx. rewrite Heq in Hin. apply elem_of_app in Hin as [Hin|Hin].
    { eapply Forall_forall in Hn; [|done]. done. }
    apply app_eq_inv in Heq as [(l & -> & Hr)|(l & -> & Hr)].
    - eapply (Forall_forall _ old) in Ho; [|rewrite Hr; apply elem_of_app; right; by left].
      done.
    - destruct l as [|e' l]; simpl in Hr.
      + subst old. apply Forall_cons in Ho as [Ho _]. done.
      + injection Hr as -> ->. apply elem_of_app. by right. }
  destruct k; destruct Hl as (l & Hin & Ho'); exists l; (split; [by apply Hold|done]).
Qed.

(** ** What a history says of the store *)

(** The event shows that the name is not used in this way. *)
Definition shows_free (w : use) (e : event gcSig) : Prop :=
  match w with
  | ByVolume => ∃ l, e = ev (ListPV Live) (inl l) ∧ referenced_by l !! name = None
  | BySnapshot => ∃ l, e = ev (ListLLVS Live) (inl l) ∧ name ∉ snapshottedVolumeNames l
  | ByContent => ∃ c, contents_read c e ∧ name ∉ c
  end.

Definition condemned (u : string) (h : hist) : Prop :=
  ∃ cached : kobj k, listed k cached h ∧ GetName cached = name ∧
    GetDeletionTimestamp cached ≠ None ∧ GetUID cached = u.

(** After it was listed as being deleted, the object was seen not to be used. *)
Definition checked (w : use) (u : string) (h : hist) : Prop :=
  ∃ h1 e h2, h = (h1 ++ e :: h2)%list ∧ shows_free w e ∧ condemned u h2.

Record backed (h : hist) (s : store) (late : late_uses) : Prop := {
  bk_condemned : ∀ u, condemned u h → u ∈ st_doomed s;
  bk_named : ∀ n (o : kobj k), ev (GetLive k n) (inl o) ∈ h → GetName o = n;
  bk_free : ∀ w u, w ∈ keeps k → checked w u h → identity (life_of s) = Some u →
    used_in s w = false ∨ (u, w) ∈ late;
}.

Lemma condemned_mono u h new : condemned u h → condemned u (new ++ h)%list.
Proof.
  intros (c & Hl & ?). exists c. split; [by apply listed_mono|done].
Qed.

Lemma backed_start s0 : backed [] s0 [].
Proof.
  split.
  - intros u (c & Hl & _). destruct k; destruct Hl as (l & []%elem_of_nil & _).
  - intros n o []%elem_of_nil.
  - intros w u _ (h1 & e & h2 & Heq & _). by destruct h1.
Qed.

Lemma backed_world h s late s' late' :
  world_may k late (life_of s) (life_of s') late' → backed h s late → backed h s' late'.
Proof.
  intros (Hd & Hu & new & -> & _) [Hc Hn Hf]. split; [set_solver|done|].
  intros w u Hk Hw Ha. destruct (Hu u) as [Ha0 Hused]; [|done|].
  - apply Hc. destruct Hw as (h1 & e & h2 & -> & _ & Hu2).
    rewrite cons_middle, app_assoc. by apply condemned_mono.
  - destruct (used_in s' w) eqn:E; [|by left]. right.
    destruct (Hused w Hk E) as [Hs|]; [|done]. apply elem_of_app. right.
    destruct (Hf w u Hk Hw Ha0) as [Hs'|]; [|done]. simpl in Hs. congruence.
Qed.

Lemma boxed_inj (a b : kobj k) : boxed a = boxed b → a = b.
Proof. apply Eqdep_dec.inj_pair2_eq_dec. intros x y. apply (decide (x = y)). Qed.

(** What an event does to the store: nothing, or one write. *)
Lemma serves_cases s e s' past :
  patch_justified g e past → serves s e s' →
  s' = s ∧ action_of e = Internal ∨
  action_of e = LetGo ∧ ∃ base : kobj k,
    e = ev (Patch k base (with_meta (SetFinalizers (delete_all SDSLocalVolumeCSIFinalizer
                                        (GetFinalizers base))) base)) None ∧
    GetName base = name ∧ st_obj s = Some base ∧ ∃ version,
    s' = mkStore (Some (with_meta (SetResourceVersion version)
                    (with_meta (SetFinalizers (delete_all SDSLocalVolumeCSIFinalizer
                                        (GetFinalizers base))) base)))
           (st_doomed s) (st_pvs s) (st_snapshots s) (st_contents s).
Proof.
  intros Hj Hs. destruct e as [o r]. unfold action_of, serves in *.
  destruct o as [|rd|rd| |k' n|k' base new| | |m]; cbn [ev_op ev_res] in Hs |- *;
    try (left; by (done || destruct Hs)); try (left; destruct rd; by (done || destruct Hs)).
  destruct r as [err|]; [left; done|].
  destruct (decide (k' = k)) as [->|Hk].
  2:{ rewrite (bool_decide_false (k' = k)) in Hs |- * by done. by left. }
  rewrite (bool_decide_true (k = k)) in Hs |- * by done. cbn [andb] in Hs |- *.
  destruct (decide (GetName base = name)) as [Hname|Hname].
  2:{ rewrite bool_decide_false in Hs by done. rewrite bool_decide_false by done. by left. }
  rewrite bool_decide_true in Hs by done. rewrite bool_decide_true by done.
  right. split; [done|].
  destruct Hs as (cur & stored & version & Hcur & Hst & Hobj & ->).
  apply boxed_inj in Hcur as ->, Hst as ->. destruct Hj as (_ & -> & _). exists base.
  split_and!; [done..|]. by exists version.
Qed.

Lemma life_after_write s (base : kobj k) version :
  st_obj s = Some base →
  life_of (mkStore (Some (with_meta (SetResourceVersion version)
                    (with_meta (SetFinalizers (delete_all SDSLocalVolumeCSIFinalizer
                                        (GetFinalizers base))) base)))
           (st_doomed s) (st_pvs s) (st_snapshots s) (st_contents s)) =
  mkLife (Some (GetUID base, false, contains (GetFinalizers base) SDSNodeConfiguratorFinalizer))
    (doomed (life_of s)) (used (life_of s)).
Proof.
  intros Hobj. unfold life_of. cbn [st_obj st_doomed fmap option_fmap option_map doomed used].
  unfold GetUID, GetFinalizers. rewrite !meta_with_meta.
  cbn [om_UID om_Finalizers SetFinalizers SetResourceVersion].
  assert (contains (delete_all SDSLocalVolumeCSIFinalizer (om_Finalizers (meta_of base)))
    SDSLocalVolumeCSIFinalizer = false) as -> by apply contains_false, delete_all_not_in.
  assert (contains (delete_all SDSLocalVolumeCSIFinalizer (om_Finalizers (meta_of base)))
    SDSNodeConfiguratorFinalizer = contains (om_Finalizers (meta_of base)) SDSNodeConfiguratorFinalizer)
    as ->; [|done].
  unfold contains. apply bool_decide_ext. rewrite elem_of_delete_all. naive_solver.
Qed.

(** A read that shows the name free is served by a store where it is. *)
Lemma shows_free_served s e s' w :
  serves s e s' → shows_free w e → used_in s' w = false.
Proof.
  intros Hs Hf. destruct w; simpl.
  - destruct Hf as (l & -> & Hr). destruct Hs as [-> Hl]. specialize (Hl l eq_refl). subst l.
    apply bool_decide_eq_false. rewrite Hr. by intros [].
  - destruct Hf as (l & -> & Hr). destruct Hs as [-> Hl]. specialize (Hl l eq_refl). subst l.
    by apply bool_decide_eq_false.
  - destruct Hf as (c & [(l & -> & ->)|(err & -> & Herr & ->)] & Hr); destruct Hs as [-> Hl];
      apply bool_decide_eq_false.
    + by rewrite Hl.
    + by rewrite Hl.
Qed.

Lemma condemned_served s late e s' u h :
  serves s e s' → backed h s late → condemned u (e :: h) → u ∈ st_doomed s.
Proof.
  intros Hs Hb (c & Hl & Hn & Hd & <-).
  assert (Hcase : listed k c h ∨ is_listing e ∧ listed k c [e]).
  { destruct k; destruct Hl as (l & [<-|Hin]%elem_of_cons & Hc).
    - right. split; [done|]. exists l. split; [by left|done].
    - left. by exists l.
    - right. split; [done|]. exists l. split; [by left|done].
    - left. by exists l. }
  destruct Hcase as [Hh|[_ He]].
  - apply (bk_condemned _ _ _ Hb). by exists c.
  - destruct k eqn:Hk; destruct He as (l & Hin & Hc);
      apply elem_of_cons in Hin as [<-|[]%elem_of_nil]; destruct Hs as [_ Hp];
      by apply (Hp l eq_refl).
Qed.

(** An event leaves the identities, what is condemned and what is used. *)
Lemma served_same s e s' past :
  patch_justified g e past → serves s e s' →
  st_doomed s' = st_doomed s ∧ used_in s' = used_in s ∧
  identity (life_of s') = identity (life_of s).
Proof.
  intros Hj Hs. destruct (serves_cases _ _ _ _ Hj Hs) as [[-> _]|(_ & base & _ & _ & Hobj & v & ->)];
    [done|].
  rewrite (life_after_write s base v Hobj). split_and!; [done..|]. unfold life_of. simpl. by rewrite Hobj.
Qed.

Lemma backed_event h s late e s' :
  patch_justified g e h → serves s e s' → backed h s late → backed (e :: h) s' late.
Proof.
  intros Hj Hs Hb. destruct (served_same _ _ _ _ Hj Hs) as (Hd & Hu & Ha). split.
  - intros u Hc. rewrite Hd. by eapply condemned_served.
  - intros n o [<-|Hin]%elem_of_cons; [|by eapply bk_named]. destruct Hs as [_ Hn]. by apply Hn.
  - intros w u Hk (h1 & e' & h2 & Heq & Hf & Hc). destruct h1 as [|e1 h1]; simpl in Heq.
    + injection Heq as <- <-. intros _. left. by eapply shows_free_served.
    + injection Heq as <- ->. rewrite Hu, Ha. apply (bk_free _ _ _ Hb); [done|]. by exists h1, e', h2.
Qed.

(** The writes of a pass find the object listed, then seen free. *)
Lemma cleared_checked (cached : kobj k) h :
  ordered h → cleared g k cached h → GetName cached = name →
  ∀ w, w ∈ keeps k → checked w (GetUID cached) h.
Proof.
  intros Ho (Hl & (d & t & Hd & _) & l & (a & t' & past & -> & _ & (h' & [n Hsuf] & Hp) & _) & Hun) Hname.
  destruct Hp as (pvs & llvss & contents & past' & -> & Hr & Hsn & Hc).
  assert (Hchk : ∀ w h1 e h2, (a ++ ev Now t' :: past)%list = (h1 ++ e :: h2)%list →
    is_live e → shows_free w e → checked w (GetUID cached) (a ++ ev Now t' :: past)%list).
  { intros w h1 e h2 Heq He Hf. rewrite Heq in *. exists h1, e, h2. split; [done|]. split; [done|].
    exists cached. split_and!; [by eapply listed_before|done|congruence|done]. }
  rewrite Hsuf in Hchk |- *. intros w Hw. unfold unreferenced in Hun. rewrite Hname in Hun.
  destruct k; simpl in Hw.
  - apply elem_of_cons in Hw as [->|[->|[]%elem_of_nil]%elem_of_cons]; destruct Hun as [Hun1 Hun2].
    + eapply (Hchk ByVolume (a ++ n ++ [_; _; _])%list); [by rewrite <-!app_assoc|done|].
      exists pvs. split; [done|]. by rewrite <-Hr.
    + eapply (Hchk BySnapshot (a ++ n ++ [_; _])%list); [by rewrite <-!app_assoc|done|].
      exists llvss. split; [done|]. by rewrite <-Hsn.
  - apply elem_of_cons in Hw as [->|[]%elem_of_nil].
    eapply (Hchk ByContent (a ++ n ++ [_])%list); [by rewrite <-!app_assoc| |by exists (lc_snapshotContents l)].
    by destruct Hc as [(? & -> & _)|(? & -> & _)].
Qed.

Lemma promised_event h s late e s' :
  patch_justified g e h → ordered h → backed h s late → serves s e s' →
  promised k late (action_of e) (life_of s) (life_of s').
Proof.
  intros Hj Ho Hb Hs.
  destruct (serves_cases _ _ _ _ Hj Hs) as [[-> ->]|(-> & base & -> & Hname & Hobj & v & ->)];
    [constructor|].
  destruct Hj as ((_ & Hguard & Hagent) & _ & cached & past' & -> & Huid & Hcl).
  assert (Hcn : GetName cached = name).
  { rewrite <-Hname. symmetry. eapply (bk_named _ _ _ Hb). by left. }
  assert (Hchk : ∀ w, w ∈ keeps k → used_in s w = false ∨ (GetUID base, w) ∈ late).
  { intros w Hw. rewrite Huid. eapply (bk_free _ _ _ Hb w (GetUID cached)); [done| |].
    - destruct (cleared_checked cached past') with w as (h1 & e & h2 & -> & ?); try done.
      + by apply ordered_tail in Ho.
      + by exists (ev (GetLive k (GetName cached)) (inl base) :: h1), e, h2.
    - unfold identity, life_of. simpl. rewrite Hobj. simpl. by rewrite Huid. }
  rewrite (life_after_write s base v Hobj). unfold life_of at 1. rewrite Hobj. simpl.
  apply contains_true in Hguard as ->. apply contains_true in Hagent as ->.
  constructor; [|done]. apply (bk_condemned _ _ _ Hb). exists cached.
  destruct Hcl as (Hl & (d & t & Hd & _) & _). split_and!; [|done|congruence|done].
  by apply (listed_mono k cached past' [_]).
Qed.

Lemma collector_refines s0 h s late :
  system s0 h s late → always (patch_justified g) h → ordered h →
  backed h s late ∧ lifecycle k (life_of s0) (map action_of h) (life_of s) late.
Proof.
  induction 1 as [|h s late s' late' _ IH Hw|h s late e s' _ IH Hs]; simpl.
  - intros _ _. split; [apply backed_start|constructor].
  - intros Hj Ho. destruct (IH Hj Ho) as [Hb Hl]. split; [by eapply backed_world|by eapply life_world].
  - intros [Hj Hall] Ho. destruct (IH Hall (ordered_tail _ _ Ho)) as [Hb Hl].
    split; [by eapply backed_event|]. eapply life_step; [done|].
    eapply promised_event; eauto using ordered_tail.
Qed.

(** C2: nothing in use is let go.  For any object of the API server, and
    whatever everybody else does to it in the meantime, a reconcile of the
    collector is a run of the specification: at the very moment its write is
    accepted, the object is the one whose deletion was requested, the node agent
    still guards it, and no PersistentVolume and no snapshot refers to it (for a
    snapshot, no VolumeSnapshotContent), except where somebody started to use it
    after its deletion had been requested, which nothing prevents: those uses
    are noted as they begin.  The caches may be arbitrarily old; of the API server
    it takes that a live read shows what there is, that a write with a stale
    version is refused, and that a deletion is not called off. *)
Theorem reconcile_refines_lifecycle sweepInterval lastSweep :
  wp (reconcile g sweepInterval lastSweep) [] (λ _ h, ∀ s0 s late,
    system s0 h s late → lifecycle k (life_of s0) (map action_of h) (life_of s) late).
Proof.
  eapply wp_mono; [apply wp_and; [apply wp_reconcile_justified|apply wp_reconcile_ordered]|].
  intros [[[res err] observe] last'] h [[Hj _] Ho] s0 s late Hs. by eapply collector_refines.
Qed.
End refinement.
