(* ===== verification/Cluster.v ===== *)
(** * The garbage collector and the driver on one API server

    The composition of the components that may destroy a volume, or a snapshot:
    the object followed here is the one of a kind and a name.  The API server
    is shared by any number of passes of the collector and of calls of the
    driver, by the node agent, which makes and removes the data, and by everybody
    else; a run interleaves their operations one at a time.  Each side guarantees
    what the other relies on: GCLifecycle gives what a pass needs of the others,
    CSIRelease what the calls of the driver write.  The theorem is about what
    neither of them can show alone: how the data of a volume can be lost. *)

From S2P Require Import Prelude Effects Kube Monitoring LSC GC GCSweep GCSafety GCLifecycle.
From S2P Require Import CSI CSIController CSISizes CSIVolumes CSIRelease.

Local Open Scope string_scope.

Section cluster.
Context `{ApiMachinery, !Quantities, VolumeGroupsYaml, LabelSelectors, RetryOnError, MapRange}.
Context (g : llvGarbageCollector) (k : okind) (name : string).

Abbreviation cev := (Ev (S := csiSig)).

(** ** What is shared *)

(** What GCLifecycle keeps for the object of this kind and name; every version of
    it there has been; and the objects, by UID, whose data is on a disk. *)
Record cluster := mkCluster {
  cl_store : store k;
  cl_versions : list (kobj k);
  cl_data : gset string;
}.

Definition object (c : cluster) : option (kobj k) := st_obj k (cl_store c).
Definition doomed_uids (c : cluster) : gset string := st_doomed k (cl_store c).
Definition life_in (c : cluster) : life := life_of k name (cl_store c).

Definition version_of (v : kobj k) : string := om_ResourceVersion (meta_of v).

Definition guarded (v : kobj k) : Prop := SDSLocalVolumeCSIFinalizer ∈ GetFinalizers v.

(** A version nobody has seen. *)
Definition fresh_version (c : cluster) (v : kobj k) : Prop :=
  ∀ v', v' ∈ cl_versions c →
    ¬ (GetUID v' = GetUID v ∧ version_of v' = version_of v).

(** The object is replaced by a new version. *)
Definition store_object (v : kobj k) (c : cluster) : cluster :=
  let s := cl_store c in
  mkCluster (mkStore k (Some v) (st_doomed k s) (st_pvs k s) (st_snapshots k s)
               (st_contents k s)) (v :: cl_versions c) (cl_data c).

Definition drop_object (c : cluster) : cluster :=
  let s := cl_store c in
  mkCluster (mkStore k None (st_doomed k s) (st_pvs k s) (st_snapshots k s)
               (st_contents k s)) (cl_versions c) (cl_data c).

Definition doom (u : string) (c : cluster) : cluster :=
  let s := cl_store c in
  mkCluster (mkStore k (st_obj k s) ({[u]} ∪ st_doomed k s) (st_pvs k s)
               (st_snapshots k s) (st_contents k s)) (cl_versions c) (cl_data c).

Definition set_snapshots (l : list LVMLogicalVolumeSnapshot) (c : cluster) : cluster :=
  let s := cl_store c in
  mkCluster (mkStore k (st_obj k s) (st_doomed k s) (st_pvs k s) l (st_contents k s))
    (cl_versions c) (cl_data c).

(** ** Documented behaviour of the API server *)

(** An object is created with a new UID. *)
Definition accepts_create (c : cluster) (sent v : kobj k) (c' : cluster) : Prop :=
  (object c = None) ∧ (GetName v = name) ∧ (GetFinalizers v = GetFinalizers sent) ∧
  (GetUID v ∉ doomed_uids c) ∧ (∀ v', v' ∈ cl_versions c → GetUID v' ≠ GetUID v) ∧
  c' = store_object v c.

(** An update is accepted for the version it was made from, and changes neither
    the UID nor the deletion; an object that is being deleted goes with its last
    finalizer. *)
Definition accepts_update (c : cluster) (sent v : kobj k) (c' : cluster) : Prop :=
  ∃ cur, object c = Some cur ∧ GetUID cur = GetUID sent ∧
    version_of cur = version_of sent ∧
    GetUID v = GetUID cur ∧ GetDeletionTimestamp v = GetDeletionTimestamp cur ∧
    GetFinalizers v = GetFinalizers sent ∧ fresh_version c v ∧
    c' = if bool_decide (GetDeletionTimestamp cur ≠ None) && bool_decide (GetFinalizers sent = [])
         then drop_object c else store_object v c.

(** A deletion takes effect at once without finalizers, and is a request with
    them. *)
Definition accepts_delete (c : cluster) (c' : cluster) : Prop :=
  ∃ cur, object c = Some cur ∧
    if bool_decide (GetFinalizers cur = []) then c' = drop_object (doom (GetUID cur) c)
    else c' = doom (GetUID cur) c ∨
      ∃ v, GetUID v = GetUID cur ∧ GetFinalizers v = GetFinalizers cur ∧ fresh_version c v ∧
        c' = store_object v (doom (GetUID cur) c).

(** The volume a snapshot is of, and the volume of which an operation creates a
    snapshot. *)
Definition source_of_snapshot {k'} (o : kobj k') : option string :=
  match k' as k' return kobj k' → option string with
  | OLLV => λ _, None
  | OLLVS => λ s, Some (llvs_LVMLogicalVolumeName (llvs_Spec s))
  end o.

Definition takes_snapshot_of (e : event csiSig) : option string :=
  match ev_op e as o return csi_res o → option string with
  | CCreate k' o => λ r, match r with inl _ => source_of_snapshot o | inr _ => None end
  | _ => λ _, None
  end (ev_res e).

(** The snapshots after an operation: those there were, or that it made, or less. *)
Definition snapshots_after (e : event csiSig) (c c' : cluster) : Prop :=
  ∃ l, c' = set_snapshots l c ∧ ∀ n, n ∈ snapshottedVolumeNames l →
    n ∈ snapshottedVolumeNames (st_snapshots k (cl_store c)) ∨ takes_snapshot_of e = Some n.

(** An operation on an object that may be the one of this kind and name. *)
Definition on_object {k'} (c c' : cluster) (o : kobj k') (accepts : kobj k → Prop) : Prop :=
  match as_kind k o with
  | Some v => if bool_decide (GetName v = name) then accepts v else c' = c
  | None => c' = c
  end.

(** An operation of the driver.  A snapshot is of the volume it was created for;
    writes to it do not change that. *)
Definition drives (c : cluster) (e : event csiSig) (c' : cluster) : Prop :=
  match ev_op e as o return csi_res o → Prop with
  | CGet k' n _ => λ r, c' = c ∧ ∀ o, r = inl o → GetName o = n ∧
      ∀ v, as_kind k o = Some v → n = name → v ∈ cl_versions c
  | CCreate k' o => λ r,
      match r with
      | inl o' => ∃ c1, snapshots_after e c1 c' ∧
          on_object c c1 o (λ sent, ∃ v, as_kind k o' = Some v ∧ accepts_create c sent v c1)
      | inr _ => c' = c
      end
  | CUpdate k' o => λ r,
      match r with
      | inl o' => GetName o' = GetName o ∧ ∃ c1, snapshots_after e c1 c' ∧
          on_object c c1 o (λ sent, ∃ v, as_kind k o' = Some v ∧ accepts_update c sent v c1)
      | inr _ => c' = c
      end
  | CDelete k' o => λ r,
      match r with
      | None => ∃ c1, snapshots_after e c1 c' ∧ on_object c c1 o (λ _, accepts_delete c c1)
      | Some _ => c' = c
      end
  | _ => λ _, c' = c
  end (ev_res e).

(** An operation of the collector, as in GCLifecycle; a write makes a version. *)
Definition collects (c : cluster) (e : event gcSig) (c' : cluster) : Prop :=
  serves k name (cl_store c) e (cl_store c') ∧ cl_data c' = cl_data c ∧
  (cl_store c' = cl_store c ∧ cl_versions c' = cl_versions c ∨
   ∃ v, object c' = Some v ∧ fresh_version c v ∧ cl_versions c' = v :: cl_versions c).

(** Everybody else: they do as in GCLifecycle, do not take the finalizer of the
    driver off, and the agent keeps the data of an object that carries it. *)
Definition others_do (c c' : cluster) : Prop :=
  others_may k (life_in c) (life_in c') ∧
  (∀ v, object c = Some v → guarded v →
     ∃ v', object c' = Some v' ∧ GetUID v' = GetUID v ∧ guarded v' ∧
           (GetUID v ∈ cl_data c → GetUID v ∈ cl_data c')) ∧
  ((object c' = object c ∨ object c' = None) ∧ cl_versions c' = cl_versions c ∨
   ∃ v, object c' = Some v ∧ fresh_version c v ∧ cl_versions c' = v :: cl_versions c).

(** ** Runs *)

(** Any number of passes and of calls. *)
Context (passes : nat → Z * Z) (calls : nat → csi_request).

Inductive step :=
| ByCollector (i : nat) (e : event gcSig) (a : life)    (* with the life it found *)
| ByDriver (j : nat) (e : event csiSig) (a : life)
| ByOthers.

Inductive joint (c0 : cluster) : list step → cluster → Prop :=
| joint_start : joint c0 [] c0
| joint_collector tr c i e c' :
    joint c0 tr c → collects c e c' → joint c0 (ByCollector i e (life_in c) :: tr) c'
| joint_driver tr c j e c' :
    joint c0 tr c → drives c e c' → joint c0 (ByDriver j e (life_in c) :: tr) c'
| joint_others tr c c' :
    joint c0 tr c → others_do c c' → joint c0 (ByOthers :: tr) c'.

Definition pass_history (i : nat) (tr : list step) : history gcSig :=
  omap (λ s, match s with ByCollector i' e _ => if bool_decide (i' = i) then Some e else None
             | _ => None end) tr.

Definition call_history (j : nat) (tr : list step) : history csiSig :=
  omap (λ s, match s with ByDriver j' e _ => if bool_decide (j' = j) then Some e else None
             | _ => None end) tr.

(** What every pass and every call did so far is the start of one of its
    executions. *)
Definition follows (tr : list step) : Prop :=
  (∀ i, ∃ a later, exec (reconcile g (fst (passes i)) (snd (passes i))) []
     a (later ++ pass_history i tr)%list) ∧
  (∀ j, ∃ later, exec (serve_request (calls j)) [] tt (later ++ call_history j tr)%list).

(** The versions are told apart. *)
Record coherent (c : cluster) : Prop := {
  co_known : ∀ v, object c = Some v → v ∈ cl_versions c;
  co_version : ∀ v v', v ∈ cl_versions c → v' ∈ cl_versions c → GetUID v = GetUID v' →
    version_of v = version_of v' → v = v';
}.

(** How an object was let go: by a pass of the collector, at a moment when it was
    being deleted, guarded by the agent too, and used by nobody; or by a call of
    the driver that was asked to delete it, or to create it. *)
Definition let_go (u : string) (tr : list step) : Prop :=
  (∃ i e a, ByCollector i e a ∈ tr ∧ action_of k name e = LetGo ∧
     GCLifecycle.alive a = Some (u, true, true) ∧ u ∈ doomed a ∧
     ∀ w, w ∈ keeps k → GCLifecycle.used a w = false) ∨
  (∃ j (v v' : kobj k) a, ByDriver j (cev (CUpdate k v) (inl v')) a ∈ tr ∧ GetUID v = u ∧
     may_release k (calls j) = Some name).

(** A snapshot was taken of a volume whose deletion had been requested. *)
Definition snapshotted_late (u : string) (tr : list step) : Prop :=
  BySnapshot ∈ keeps k ∧ ∃ j e a, ByDriver j e a ∈ tr ∧ takes_snapshot_of e = Some name ∧
    fst ∘ fst <$> GCLifecycle.alive a = Some u ∧ u ∈ doomed a.
End cluster.
