(* ===== verification/ClusterSafety.v ===== *)
(** * How a volume or a snapshot can be lost

    A run of Cluster.v seen from each side: for a pass of the collector the rest
    of the run is the others of GCLifecycle, for a call of the driver it is an API
    server that keeps its contract; and the theorem the two sides give together,
    for volumes and for snapshots. *)

From S2P Require Import Prelude Effects Kube Monitoring LSC GC GCSweep GCSafety GCLifecycle.
From S2P Require Import CSI CSIController CSISizes CSIVolumes CSIRelease Cluster.

Local Open Scope string_scope.

Section safety.
Context `{ApiMachinery, !Quantities, VolumeGroupsYaml, LabelSelectors, RetryOnError, MapRange}.
Context (g : llvGarbageCollector) (k : okind) (name : string).
Context (passes : nat → Z * Z) (calls : nat → csi_request).

Abbreviation cev := (Ev (S := csiSig)).
Abbreviation cluster := (cluster k).
Abbreviation step := Cluster.step.
Abbreviation drives := (drives k name).
Abbreviation collects := (collects k name).
Abbreviation others_do := (others_do k name).
Abbreviation life_in := (life_in k name).
Abbreviation joint := (joint k name).
Abbreviation object := (object k).
Abbreviation guarded := (guarded k).

(** ** What each step may do, seen by the collector *)

Lemma others_may_refl a : others_may k a a.
Proof. split; [done|]. tauto. Qed.

Lemma others_may_trans a a' a'' : others_may k a a' → others_may k a' a'' → others_may k a a''.
Proof.
  intros [Hd Hu] [Hd' Hu']. split; [by etrans|]. intros u Hin Ha.
  destruct (Hu' u) as [Ha' Hw']; [by apply Hd|done|]. destruct (Hu u Hin Ha') as [Ha0 Hw]. split; [done|]. auto.
Qed.

(** Everything stays but the object, which keeps its identity or goes away. *)
Lemma others_may_object (s s' : store k) :
  st_doomed k s ⊆ st_doomed k s' → st_pvs k s' = st_pvs k s →
  st_snapshots k s' = st_snapshots k s → st_contents k s' = st_contents k s →
  (∀ v, st_obj k s' = Some v → GetUID v ∈ st_doomed k s →
    ∃ cur, st_obj k s = Some cur ∧ GetUID cur = GetUID v) →
  others_may k (life_of k name s) (life_of k name s').
Proof.
  intros Hd Hp Hs Hc Ho. split; [done|]. intros u Hu Ha. simpl in Hu, Ha.
  destruct (st_obj k s') as [v|] eqn:E; [|done]. simpl in Ha. injection Ha as <-.
  destruct (Ho v eq_refl Hu) as (cur & Hcur & Huid).
  split; [simpl; rewrite Hcur; simpl; f_equal; exact Huid|].
  intros w. simpl. unfold used_in. by rewrite Hp, Hs, Hc.
Qed.

(** No snapshot is created, by this operation, of the volume of this name when
    its deletion has been requested. *)
Definition timely (c : cluster) (e : event csiSig) : Prop :=
  BySnapshot ∈ keeps k → takes_snapshot_of e = Some name →
  ∀ v, object c = Some v → GetUID v ∉ doomed_uids k c.

Lemma others_may_snapshots (c c' : cluster) e :
  timely c e → snapshots_after k e c c' → others_may k (life_in c) (life_in c').
Proof.
  intros Ht (l & -> & Hl). split; [done|]. intros u Hu Ha. split; [done|]. intros w Hk. simpl.
  destruct w; simpl; try done. rewrite !bool_decide_eq_true. intros Hn.
  destruct (Hl _ Hn) as [?|Hv]; [done|]. exfalso. specialize (Ht Hk Hv).
  simpl in Ha, Hu. unfold Cluster.object, doomed_uids in Ht.
  destruct (st_obj k (cl_store k c)) as [v|]; [|done]. simpl in Ha. injection Ha as <-.
  by apply (Ht v).
Qed.

(** What an operation of the driver does to the object of this name: nothing, or
    one of the writes. *)
Inductive object_effect (c : cluster) (e : event csiSig) : cluster → Prop :=
| effect_none : object_effect c e c
| effect_create sent v c' : accepts_create k name c sent v c' → object_effect c e c'
| effect_update sent v c' :
    e = cev (CUpdate k sent) (inl v) → GetName sent = name → accepts_update k c sent v c' →
    object_effect c e c'
| effect_delete c' : accepts_delete k c c' → object_effect c e c'.

Lemma snapshots_after_refl e (c : cluster) : snapshots_after k e c c.
Proof. exists (st_snapshots k (cl_store k c)). split; [by destruct c as [[]]|]. tauto. Qed.

Lemma on_object_intro (o : kobj k) c c' (accepts : kobj k → Prop) :
  GetName o = name → accepts o → on_object k name c c' o accepts.
Proof. intros Hn Ha. unfold on_object. by rewrite as_kind_same, bool_decide_true. Qed.

Lemma no_snapshot_of_kind {k'} (o o' : kobj k') (v : kobj k) :
  as_kind k o = Some v → BySnapshot ∈ keeps k → takes_snapshot_of (cev (CCreate k' o) (inl o')) = None.
Proof. destruct k', k; try done. intros _ Hin. by apply list_elem_of_singleton in Hin. Qed.

Lemma update_of_kind {k'} (o o' : kobj k') (sent v : kobj k) :
  as_kind k o = Some sent → as_kind k o' = Some v →
  cev (CUpdate k' o) (inl o') = cev (CUpdate k sent) (inl v).
Proof. destruct k', k; try done; by intros [= ->] [= ->]. Qed.

(** A snapshot is not taken by an operation on the volume itself. *)
Lemma drives_effect c e c' : drives c e c' → ∃ c1, object_effect c e c1 ∧ snapshots_after k e c1 c' ∧
  (BySnapshot ∈ keeps k → takes_snapshot_of e = None ∨ c1 = c).
Proof.
  assert (Hnone : ∃ c1, object_effect c e c1 ∧ snapshots_after k e c1 c ∧
    (BySnapshot ∈ keeps k → takes_snapshot_of e = None ∨ c1 = c)).
  { exists c. split; [constructor|]. split; [apply snapshots_after_refl|]. by right. }
  destruct e as [o r]. unfold Cluster.drives. destruct o as [k' n ns|k' o|k' o|k' o| | | | | | |];
    cbn [ev_op ev_res]; try (by intros ->).
  - by intros [-> _].
  - destruct r as [o'|]; [|by intros ->]. intros (c1 & Hs & Ho). exists c1. revert Ho. unfold on_object.
    destruct (as_kind k o) as [sent|] eqn:E; [case_bool_decide|]; [|intros ->; split_and!; [constructor|done|by right]..].
    intros (v & _ & Ha). split; [by eapply effect_create|]. split; [done|]. left.
    by eapply no_snapshot_of_kind.
  - destruct r as [o'|]; [|by intros ->]. intros (_ & c1 & Hs & Ho). exists c1. revert Ho. unfold on_object.
    destruct (as_kind k o) as [sent|] eqn:E; [case_bool_decide|]; [|intros ->; split_and!; [constructor|done|by left]..].
    intros (v & Hv & Ha). split; [|split; [done|by left]].
    eapply effect_update; [by eapply update_of_kind|done|done].
  - destruct r as [err|]; [by intros ->|]. intros (c1 & Hs & Ho). exists c1. revert Ho. unfold on_object.
    destruct (as_kind k o) as [sent|] eqn:E; [case_bool_decide|]; [|intros ->; split_and!; [constructor|done|by left]..].
    intros Ha. split; [by apply effect_delete|]. split; [done|by left].
Qed.

Lemma effect_is_an_other c e c' : object_effect c e c' → others_may k (life_in c) (life_in c').
Proof.
  intros [|sent v c1 Hc|sent v c1 _ _ Hu|c1 Hd].
  - apply others_may_refl.
  - destruct Hc as (Hn & _ & _ & Hf & _ & ->). apply others_may_object; simpl; try done.
    intros v' [= <-] Hin. by destruct Hf.
  - destruct Hu as (cur & Hcur & Huid & _ & Hv & _ & _ & _ & ->). destruct (_ && _).
    + by apply others_may_object.
    + apply others_may_object; simpl; try done. intros v' [= <-] _. by exists cur.
  - destruct Hd as (cur & Hcur & Hd). case_bool_decide; [subst|destruct Hd as [->|(v & Hv & _ & _ & ->)]].
    + apply others_may_object; simpl; try done. set_solver.
    + apply others_may_object; simpl; try done; [set_solver|]. intros v Hv _. by exists v.
    + apply others_may_object; simpl; try done; [set_solver|]. intros v' [= <-] _. by exists cur.
Qed.

Lemma driver_is_an_other c e c' : drives c e c' → timely c e → others_may k (life_in c) (life_in c').
Proof.
  intros (c1 & Ho & Hs & Hsame)%drives_effect Ht.
  eapply others_may_trans; [by eapply effect_is_an_other|]. eapply others_may_snapshots; [|done].
  intros Hk Htakes. destruct (Hsame Hk) as [Hno| ->]; [congruence|]. by apply Ht.
Qed.

Lemma promise_is_an_other act a a' : promised k [] act a a' → others_may k a a'.
Proof. intros [u dead us|]; [|apply others_may_refl]. split; [done|]. by intros u' _ [= <-]. Qed.

Lemma promised_let_go_at a a' :
  promised k [] LetGo a a' →
  ∃ u, GCLifecycle.alive a = Some (u, true, true) ∧ u ∈ doomed a ∧
       ∀ w, w ∈ keeps k → GCLifecycle.used a w = false.
Proof.
  inversion 1 as [u dead us Hu Hfree|]; subst. exists u. split_and!; [done..|].
  intros w Hw. by destruct (Hfree w Hw) as [|[]%elem_of_nil].
Qed.

(** ** Versions *)

Lemma coherent_store c v c' :
  coherent k c → object c' = Some v → fresh_version k c v → cl_versions k c' = v :: cl_versions k c →
  coherent k c'.
Proof.
  intros [Hk Hv] Hvol Hf Hvs. split; rewrite Hvs.
  - intros v' Hv'. assert (v' = v) as -> by congruence. left.
  - intros v1 v2 [->|Hin1]%elem_of_cons [->|Hin2]%elem_of_cons Hu Hr; [done| | |by apply Hv].
    + by destruct (Hf v2 Hin2).
    + by destruct (Hf v1 Hin1).
Qed.

Lemma coherent_keep c c' :
  coherent k c → (object c' = object c ∨ object c' = None) → cl_versions k c' = cl_versions k c →
  coherent k c'.
Proof.
  intros [Hk Hv] Hvol Hvs. split; rewrite Hvs; [|done].
  intros v Hc'. destruct Hvol as [Hvol|Hvol]; [apply Hk|]; congruence.
Qed.

Lemma fresh_uid_version c v :
  (∀ v', v' ∈ cl_versions k c → GetUID v' ≠ GetUID v) → fresh_version k c v.
Proof. intros Hf v' Hv' [Hu _]. by apply (Hf v'). Qed.

(** Every step keeps the versions apart, and forgets none. *)
Definition versions_grow (c c' : cluster) : Prop := ∀ v, v ∈ cl_versions k c → v ∈ cl_versions k c'.

Lemma effect_versions c e c' :
  object_effect c e c' → coherent k c → coherent k c' ∧ versions_grow c c'.
Proof.
  intros [|sent v c1 Hc|sent v c1 _ _ Hu|c1 Hd] Hco.
  - split; [done|by intros ?].
  - destruct Hc as (_ & _ & _ & _ & Hf & ->). split; [|intros ? ?; by right].
    eapply coherent_store; [done|done| |done]. by apply fresh_uid_version.
  - destruct Hu as (cur & _ & _ & _ & _ & _ & _ & Hf & ->). destruct (_ && _).
    + split; [|by intros ?]. eapply coherent_keep; [done|by right|done].
    + split; [|intros ? ?; by right]. by eapply coherent_store.
  - destruct Hd as (cur & Hcur & Hd). case_bool_decide; [subst|destruct Hd as [->|(v & _ & _ & Hf & ->)]].
    + split; [|by intros ?]. eapply coherent_keep; [done|by right|done].
    + split; [|by intros ?]. eapply coherent_keep; [done|by left|done].
    + split; [|intros ? ?; by right]. by eapply coherent_store.
Qed.

Lemma driver_versions c e c' :
  drives c e c' → coherent k c → coherent k c' ∧ versions_grow c c'.
Proof.
  intros (c1 & Ho & (l & -> & _) & _)%drives_effect Hco.
  destruct (effect_versions _ _ _ Ho Hco) as [Hc1 Hg]. split; [|exact Hg].
  eapply coherent_keep; [exact Hc1|by left|done].
Qed.

Lemma collector_versions c e c' :
  collects c e c' → coherent k c → coherent k c' ∧ versions_grow c c'.
Proof.
  intros (_ & _ & [[Hs Hv]|(v & Hvol & Hf & Hv)]) Hco.
  - split; [|intros ?; by rewrite Hv]. eapply coherent_keep; [done| |done]. left. unfold Cluster.object. by rewrite Hs.
  - split; [by eapply coherent_store|]. intros v' ?. rewrite Hv. by right.
Qed.

Lemma others_versions c c' : others_do c c' → coherent k c → coherent k c' ∧ versions_grow c c'.
Proof.
  intros (_ & _ & [[Hvol Hv]|(v & Hvol & Hf & Hv)]) Hco.
  - split; [by eapply coherent_keep|]. intros ?. by rewrite Hv.
  - split; [by eapply coherent_store|]. intros v' ?. rewrite Hv. by right.
Qed.

(** ** What each side has seen *)

Abbreviation follows := (follows g passes calls).

Lemma follows_tail st tr : follows (st :: tr) → follows tr.
Proof.
  intros [Hp Hc]. split.
  - intros i. destruct (Hp i) as (a & later & He). unfold pass_history in He. simpl in He.
    destruct (match st with ByCollector _ _ _ => _ | _ => _ end) as [e|]; [|by exists a, later].
    exists a, (later ++ [e])%list. by rewrite <-app_assoc.
  - intros j. destruct (Hc j) as (later & He). unfold call_history in He. simpl in He.
    destruct (match st with ByCollector _ _ _ => _ | _ => _ end) as [e|]; [|by exists later].
    exists (later ++ [e])%list. by rewrite <-app_assoc.
Qed.

(** What is shown of a whole pass, or of a whole call, holds of its start. *)
Lemma ordered_start later h : ordered (later ++ h)%list → ordered h.
Proof. induction later as [|e later IH]; simpl; [done|]. intros Ho%ordered_tail. by apply IH. Qed.

Lemma pass_so_far tr i :
  follows tr → always (patch_justified g) (pass_history i tr) ∧ ordered (pass_history i tr).
Proof.
  intros [Hp _]. destruct (Hp i) as (a & later & He). split.
  - pose proof (wp_reconcile_justified g (passes i).1 (passes i).2 a _ He) as Hj.
    destruct a as [[[res err] observe] last']. destruct Hj as [Hj _]. by eapply always_app_inv.
  - eapply ordered_start. exact (wp_reconcile_ordered g (passes i).1 (passes i).2 a _ He).
Qed.

Lemma call_so_far tr j : follows tr → justified_for k (may_release k (calls j)) (call_history j tr).
Proof.
  intros [_ Hc]. destruct (Hc j) as (later & He).
  eapply always_app_inv. exact (serve_about k (calls j) tt _ He).
Qed.

Lemma pass_history_cons i tr i' e a :
  pass_history i (ByCollector i' e a :: tr) = if bool_decide (i' = i) then e :: pass_history i tr
                                              else pass_history i tr.
Proof. unfold pass_history. simpl. by case_bool_decide. Qed.

Lemma call_history_cons j tr j' e a :
  call_history j (ByDriver j' e a :: tr) = if bool_decide (j' = j) then e :: call_history j tr
                                         else call_history j tr.
Proof. unfold call_history. simpl. by case_bool_decide. Qed.

(** For a pass the run is a store with others who may do as they do; a call was
    answered with versions there have been. *)
Record seen (c0 : cluster) (tr : list step) (c : cluster) : Prop := {
  sn_coherent : coherent k c;
  sn_pass : ∀ i, system k name (cl_store k c0) (pass_history i tr) (cl_store k c) [];
  sn_named : ∀ j, Forall CSIRelease.named (call_history j tr);
  sn_read : ∀ j ns base, cev (CGet k name ns) (inl base) ∈ call_history j tr → base ∈ cl_versions k c;
}.

Lemma drives_named c e c' : drives c e c' → CSIRelease.named e.
Proof.
  destruct e as [o r]. unfold Cluster.drives, CSIRelease.named. destruct o; cbn [ev_op ev_res]; try done.
  - intros [_ Hr] o Ho. by apply Hr.
  - destruct r as [o'|]; [|done]. intros [Hn _] o1 [= <-]. done.
Qed.

(** The write of a pass is one the specification promises. *)
Lemma collector_promise c0 tr c i e c' :
  seen c0 tr c → follows (ByCollector i e (life_in c) :: tr) → collects c e c' →
  patch_justified g e (pass_history i tr) ∧
  promised k [] (action_of k name e) (life_in c) (life_in c').
Proof.
  intros Hs Hf (Hserves & _). destruct (pass_so_far _ i Hf) as [Hj Ho].
  rewrite pass_history_cons, bool_decide_true in Hj, Ho by done. destruct Hj as [He Hj].
  split; [done|]. apply ordered_tail in Ho.
  destruct (collector_refines g k name _ _ _ _ (sn_pass _ _ _ Hs i) Hj Ho) as [Hb _].
  by eapply promised_event.
Qed.

Lemma seen_collector c0 tr c i e c' :
  seen c0 tr c → follows (ByCollector i e (life_in c) :: tr) → collects c e c' →
  seen c0 (ByCollector i e (life_in c) :: tr) c'.
Proof.
  intros Hs Hf Hc. destruct (collector_versions _ _ _ Hc (sn_coherent _ _ _ Hs)).
  split; [done| |apply Hs|intros; eauto using sn_read]. intros i'. rewrite pass_history_cons.
  case_bool_decide as Hi; [subst i'|].
  - eapply system_event; [apply Hs|apply Hc].
  - eapply system_world; [apply Hs|]. destruct (collector_promise _ _ _ _ _ _ Hs Hf Hc) as [_ Hp].
    by eapply others_are_world, promise_is_an_other.
Qed.

Lemma seen_driver c0 tr c j e c' :
  seen c0 tr c → drives c e c' → timely c e → seen c0 (ByDriver j e (life_in c) :: tr) c'.
Proof.
  intros Hs Hd Ht. destruct (driver_versions _ _ _ Hd (sn_coherent _ _ _ Hs)). split; [done| | |].
  - intros i. eapply system_world; [apply Hs|]. by eapply others_are_world, driver_is_an_other.
  - intros j'. rewrite call_history_cons. case_bool_decide; [|apply Hs].
    constructor; [by eapply drives_named|apply Hs].
  - intros j' ns base. rewrite call_history_cons. case_bool_decide; [|intros; eauto using sn_read].
    intros [Hev|?]%elem_of_cons; [|eauto using sn_read]. subst e. destruct Hd as [-> Hd].
    destruct (Hd base eq_refl) as [_ Hb]. by apply Hb; [apply as_kind_same|].
Qed.

Lemma seen_others c0 tr c c' : seen c0 tr c → others_do c c' → seen c0 (ByOthers :: tr) c'.
Proof.
  intros Hs Ho. destruct (others_versions _ _ Ho (sn_coherent _ _ _ Hs)).
  split; [done| |apply Hs|intros; eauto using sn_read].
  intros i. eapply system_world; [apply Hs|]. apply others_are_world, Ho.
Qed.

(** ** What a step does to a guarded object *)

(** The object with this UID is there and guarded, and so is its data if it was. *)
Definition kept (u : string) (data : Prop) (c : cluster) : Prop :=
  ∃ v, object c = Some v ∧ GetUID v = u ∧ guarded v ∧ (data → u ∈ cl_data k c).

Lemma guarded_not_nil v : guarded v → GetFinalizers v ≠ [].
Proof. unfold guarded. intros Hg Hnil. rewrite Hnil in Hg. by apply elem_of_nil in Hg. Qed.

Lemma collector_keeps c0 tr c i e c' u data :
  seen c0 tr c → follows (ByCollector i e (life_in c) :: tr) → collects c e c' → kept u data c →
  kept u data c' ∨ let_go k name calls u (ByCollector i e (life_in c) :: tr).
Proof.
  intros Hs Hf Hc (v & Hv & Hu & Hg & Hd).
  destruct (collector_promise _ _ _ _ _ _ Hs Hf Hc) as [Hj Hp].
  destruct Hc as (Hserves & Hdata & _).
  destruct (serves_cases g k name _ _ _ _ Hj Hserves) as [[Hsame _]|[Hact _]].
  - left. exists v. rewrite Hdata. unfold Cluster.object. by rewrite Hsame.
  - right. left. exists i, e, (life_in c). split; [by left|]. split; [done|]. rewrite Hact in Hp.
    destruct (promised_let_go_at _ _ Hp) as (u' & Ha & Hin & Hfree).
    assert (u' = u) as ->; [|done]. unfold Cluster.object in Hv.
    unfold Cluster.life_in, life_of in Ha. simpl in Ha. rewrite Hv in Ha. simpl in Ha. injection Ha as Hu' _ _.
    rewrite <-Hu'. exact Hu.
Qed.

Lemma kept_snapshots u data e c c' : snapshots_after k e c c' → kept u data c → kept u data c'.
Proof. by intros (l & -> & _). Qed.

(** An update keeps the finalizers, or is of the object the call is about. *)
Lemma update_keeps c0 tr c j (sent v' : kobj k) c' u data :
  let e := cev (CUpdate k sent) (inl v') in
  seen c0 tr c → follows (ByDriver j e (life_in c) :: tr) → GetName sent = name →
  accepts_update k c sent v' c' → kept u data c →
  kept u data c' ∨ let_go k name calls u (ByDriver j e (life_in c) :: tr).
Proof.
  intros e Hs Hf Hname (cur & Hcur & Hid & Hver & Huid & _ & Hfin & _ & ->) (v & Hv & Hu & Hg & Hd).
  pose proof (call_so_far _ j Hf) as Hj. rewrite call_history_cons, bool_decide_true in Hj by done.
  destruct Hj as [Hj _]. assert (cur = v) as -> by congruence.
  destruct (Hj sent (as_kind_same k sent)) as [Htarget|(n & ns & base & Hread & Hmeta)].
  - right. right. exists j, sent, v', (life_in c). split; [by left|]. split; [congruence|].
    rewrite <-Hname. apply Htarget, Hs.
  - left. pose proof (sn_named _ _ _ Hs j) as Hall. rewrite Forall_forall in Hall.
    assert (Hn : n = name).
    { specialize (Hall _ Hread base eq_refl). rewrite <-Hall, <-Hname. unfold GetName. by rewrite Hmeta. }
    subst n. apply (sn_read _ _ _ Hs) in Hread. destruct (sn_coherent _ _ _ Hs) as [Hk Hv1].
    assert (base = v) as ->.
    { apply Hv1; [done|by apply Hk| |].
      - rewrite Hid. unfold GetUID. by rewrite Hmeta.
      - rewrite Hver. unfold version_of. by rewrite Hmeta. }
    assert (Hsame : GetFinalizers sent = GetFinalizers v) by (unfold GetFinalizers; by rewrite Hmeta).
    rewrite (bool_decide_false (GetFinalizers sent = [])), andb_false_r
      by (rewrite Hsame; by apply guarded_not_nil).
    exists v'. split; [done|]. split; [congruence|]. split; [|done]. unfold Cluster.guarded.
    rewrite Hfin, Hsame. exact Hg.
Qed.

Lemma driver_keeps c0 tr c j e c' u data :
  seen c0 tr c → follows (ByDriver j e (life_in c) :: tr) → drives c e c' → kept u data c →
  kept u data c' ∨ let_go k name calls u (ByDriver j e (life_in c) :: tr).
Proof.
  intros Hs Hf (c1 & Ho & Hafter & _)%drives_effect Hkept.
  cut (kept u data c1 ∨ let_go k name calls u (ByDriver j e (life_in c) :: tr)).
  { intros [?|?]; [left; by eapply kept_snapshots|by right]. }
  destruct Ho as [|sent v' c1 Ha|sent v' c1 -> Hname Ha|c1 (cur & Hcur & Ha)].
  - by left.
  - destruct Ha as (Hno & _), Hkept as (v & Hv & _). congruence.
  - by eapply update_keeps.
  - left. destruct Hkept as (v & Hv & Hu & Hg & Hd). assert (cur = v) as -> by congruence.
    rewrite bool_decide_false in Ha by (by apply guarded_not_nil).
    destruct Ha as [->|(v' & Hu' & Hf' & _ & ->)]; [by exists v|].
    exists v'. split; [done|]. split; [congruence|]. split; [|done]. unfold Cluster.guarded. by rewrite Hf'.
Qed.

Definition lost (u : string) (tr : list step) : Prop :=
  let_go k name calls u tr ∨ snapshotted_late k name u tr.

Lemma lost_later u st tr : lost u tr → lost u (st :: tr).
Proof.
  intros [[(i & e & a & Hin & ?)|(j & v & v' & a & Hin & ?)]|(Hk & j & e & a & Hin & ?)].
  - left. left. exists i, e, a. split; [by right|done].
  - left. right. exists j, v, v', a. split; [by right|done].
  - right. split; [done|]. exists j, e, a. split; [by right|done].
Qed.

Lemma timely_or_late u data c j e tr :
  kept u data c → timely c e ∨ snapshotted_late k name u (ByDriver j e (life_in c) :: tr).
Proof.
  intros (v & Hv & Hu & _). destruct (decide (BySnapshot ∈ keeps k)) as [Hk|]; [|left; by intros ?].
  destruct (decide (takes_snapshot_of e = Some name)) as [Ht|]; [|left; by intros ??].
  destruct (decide (u ∈ doomed_uids k c)) as [Hd|Hd].
  - right. split; [done|]. exists j, e, (life_in c). split; [by left|]. split; [done|]. split; [|done].
    unfold Cluster.object in Hv. simpl. rewrite Hv. simpl. by f_equal.
  - left. intros _ _ v' Hv'. assert (v' = v) as -> by congruence. by rewrite Hu.
Qed.

Lemma kept_or_lost c0 tr c u data :
  joint c0 tr c → follows tr → coherent k c0 → kept u data c0 →
  (kept u data c ∧ seen c0 tr c) ∨ lost u tr.
Proof.
  intros Hr Hf Hc0 Hk0. induction Hr as [|tr c i e c' _ IH Hc|tr c j e c' _ IH Hd|tr c c' _ IH Ho];
    [|destruct (IH (follows_tail _ _ Hf)) as [[Hk Hs]|]; [|right; by apply lost_later]..].
  - left. split; [done|]. split; [done|intros i; constructor|intros j; constructor|].
    by intros j ns base ?%elem_of_nil.
  - destruct (collector_keeps _ _ _ _ _ _ _ _ Hs Hf Hc Hk); [|right; by left].
    left. split; [done|]. by eapply seen_collector.
  - destruct (timely_or_late u data c j e tr Hk); [|right; by right].
    destruct (driver_keeps _ _ _ _ _ _ _ _ Hs Hf Hd Hk); [|right; by left].
    left. split; [done|]. by eapply seen_driver.
  - left. split; [|by eapply seen_others]. destruct Hk as (v1 & Hv1 & Hu & Hg1 & Hd).
    destruct Ho as (_ & Hkeep & _). destruct (Hkeep v1 Hv1 Hg1) as (v' & Hv' & Hu' & Hg' & Hd').
    exists v'. split; [done|]. split; [by etrans|]. split; [done|]. intros Hdata. subst u. auto.
Qed.

(** C3: how a volume, or a snapshot, can be lost.  Any number of passes of the
    collector and of calls of the driver run at once, operation by operation,
    against one API server, together with the node agent and everybody else.  An
    object that carries the finalizer of the driver is still there, still
    carries it, and has its data, unless it was let go: by a pass, at a moment
    when its deletion had been requested, the agent guarded it and nothing
    referred to it; or by a call that was asked to delete, or to create, the
    object of this very name.  Other calls never let it go, however stale what
    they read.  There is one way around this, for volumes, and it is in the
    statement: a snapshot that was taken of the volume after its deletion had
    been requested, which CreateSnapshot does not check. *)
Theorem only_what_is_let_go_is_lost c0 tr c v :
  joint c0 tr c → follows tr → coherent k c0 → object c0 = Some v → guarded v →
  (∃ v', object c = Some v' ∧ GetUID v' = GetUID v ∧ guarded v' ∧
     (GetUID v ∈ cl_data k c0 → GetUID v ∈ cl_data k c)) ∨
  let_go k name calls (GetUID v) tr ∨ snapshotted_late k name (GetUID v) tr.
Proof.
  intros Hr Hf Hc0 Hv Hg.
  assert (Hk : kept (GetUID v) (GetUID v ∈ cl_data k c0) c0) by (by exists v).
  destruct (kept_or_lost _ _ _ _ _ Hr Hf Hc0 Hk) as [[? _]|Hl]; [by left|by right].
Qed.
End safety.
