(* ===== verification/GCAccounting.v ===== *)
(** * What one pass of the garbage collector may write, and what it counts

    The reclaim budget bounds the finalizer writes of a pass, and the removal
    counter reports exactly the writes that happened. *)

From S2P Require Import Prelude Effects Kube Monitoring GC GCSweep.

Section accounting.
Context `{ApiMachinery, RetryOnError, MapRange}.
Context (g : llvGarbageCollector).

Abbreviation hist := (history gcSig).
Abbreviation ev := (Ev (S := gcSig)).

(** ** Counting events *)

(** A finalizer write the API server accepted. *)
Definition written (e : event gcSig) : bool :=
  match e with
  | Ev o r =>
      match o as o' return gc_res o' → bool with
      | Patch _ _ _ => λ r, is_nil r
      | _ => λ _, false
      end r
  end.

(** An increment of the removal counter with the outcome "success". *)
Definition counted (e : event gcSig) : bool :=
  match ev_op e with
  | Metric (CounterAdd name _ labels) =>
      bool_decide (name = CSIFinalizerRemovalsTotal) &&
      bool_decide (labels !! LabelResult = Some ResultSuccess)
  | _ => false
  end.

Definition tally (f : event gcSig → bool) (h : hist) : Z :=
  Z.of_nat (length (List.filter f h)).

Arguments tally : simpl never.

Lemma tally_cons f e h : tally f (e :: h) = (Z.b2z (f e) + tally f h)%Z.
Proof. unfold tally. simpl. destruct (f e); cbn [length Z.b2z]; lia. Qed.

Lemma tally_app f h1 h2 : tally f (h1 ++ h2) = (tally f h1 + tally f h2)%Z.
Proof. unfold tally. rewrite List.filter_app, length_app. lia. Qed.

(** [after h w h']: since [h], [w] writes were accepted and, when a storage is
    wired up, counted. *)
Definition after (h : hist) (w c : Z) (h' : hist) : Prop :=
  tally written h' = (tally written h + w)%Z ∧
  tally counted h' = (tally counted h + c)%Z.

Lemma after_refl h : after h 0 0 h.
Proof. unfold after. lia. Qed.

Lemma after_quiet h w c h' e :
  written e = false → counted e = false → after h w c h' → after h w c (e :: h').
Proof. unfold after. rewrite !tally_cons. intros -> ->. cbn [Z.b2z]. lia. Qed.

Lemma after_write h w c h' e :
  written e = true → counted e = false → after h w c h' → after h (w + 1) c (e :: h').
Proof. unfold after. rewrite !tally_cons. intros -> ->. cbn [Z.b2z]. lia. Qed.

Lemma after_count h w c h' e :
  written e = false → counted e = true → after h w c h' → after h w (c + 1) (e :: h').
Proof. unfold after. rewrite !tally_cons. intros -> ->. cbn [Z.b2z]. lia. Qed.

Lemma after_trans h w c h1 w' c' h2 :
  after h w c h1 → after h1 w' c' h2 → after h (w + w') (c + c') h2.
Proof. unfold after. lia. Qed.

Lemma after_eq h w c w' c' h' : after h w c h' → w = w' → c = c' → after h w' c' h'.
Proof. by intros ? <- <-. Qed.

(** ** The write *)

Definition outcome_writes (r : bool + gc_error) : Z :=
  match r with inl true => 1 | _ => 0 end.

Lemma wp_once_writes k (cached : kobj k) h0 h :
  after h0 0 0 h →
  wp (removeCSIFinalizer_once k cached) h (λ r h', after h0 (outcome_writes r) 0 h').
Proof.
  intros Hh. unfold removeCSIFinalizer_once. apply wp_call_bind. intros got.
  apply (after_quiet _ _ _ _ (ev (GetLive k (GetName cached)) got)) in Hh; [|done..].
  destruct got as [live|err]; [|by case_match; apply wp_ret].
  do 4 (wp_step; [by apply wp_ret|]).
  apply wp_call_bind. intros [err|]; apply wp_ret; [by apply after_quiet|].
  by apply (after_write _ 0).
Qed.

Lemma wp_removeCSIFinalizer_writes k (cached : kobj k) h :
  wp (removeCSIFinalizer k cached) h (λ r h', after h (outcome_writes r) 0 h').
Proof.
  apply (wp_OnError _ _ (after h 0 0)); [apply after_refl|].
  intros h' Hh. eapply wp_mono; [by apply wp_once_writes|].
  intros r h'' Hr. split; [done|]. by intros e ->.
Qed.

Definition storage : Z := Z.b2z (r_st (gc_metrics g)).

Lemma wp_observe k result h (Q : unit → hist → Prop) :
  (∀ h', after h 0 (if decide (result = ResultSuccess) then storage else 0) h' → Q tt h') →
  wp (emit (ObserveCSIFinalizerRemoval (gc_metrics g) (kind_label k) result)) h Q.
Proof.
  intros HQ. unfold ObserveCSIFinalizerRemoval, recorded, storage in *.
  destruct (r_st (gc_metrics g)); simpl in *.
  2:{ apply wp_ret, HQ. case_decide; apply after_refl. }
  apply wp_call_bind. intros []. apply wp_ret, HQ. case_decide as Hr.
  - apply (after_count _ _ 0); [done| |apply after_refl].
    unfold counted. simpl. by rewrite Hr, lookup_insert_ne, lookup_singleton_eq, bool_decide_true.
  - apply after_quiet; [done| |apply after_refl].
    unfold counted. simpl. rewrite lookup_insert_ne, lookup_singleton_eq by done.
    apply bool_decide_false. congruence.
Qed.

Lemma wp_settle_counts k r h0 w h :
  after h0 w 0 h →
  wp (settle g k r) h (λ _ h', after h0 w (storage * outcome_writes r) h').
Proof.
  intros Hh. unfold settle.
  assert (Hobs : ∀ result (v : verdict) h c, after h0 w 0 h →
    (if decide (result = ResultSuccess) then storage else 0)%Z = c →
    wp (_ ← emit (ObserveCSIFinalizerRemoval (gc_metrics g) (kind_label k) result); mret v)
       h (λ _ h', after h0 w c h')).
  { intros result v h1 c Hh1 <-. apply wp_bind, wp_observe. intros h' Hh'. apply wp_ret.
    eapply after_eq; [by eapply after_trans| |]; lia. }
  destruct r as [[]|[e| | |]]; simpl; rewrite ?Z.mul_0_r, ?Z.mul_1_r;
    try (by apply wp_ret); try (by apply Hobs).
  all: apply wp_call_bind; intros [];
    [apply wp_ret; by apply after_quiet|apply Hobs; [by apply after_quiet|reflexivity]].
Qed.

(** ** The budget *)

(** Since [h0], every accepted write was counted and at most [limit] minus
    what is left of the budget were made. *)
Definition within (h0 : hist) (limit : Z) (b : reclaimBudget) (h : hist) : Prop :=
  ∃ w, after h0 w (storage * w) h ∧ (0 ≤ w)%Z ∧
       (w + Z.max 0 (b_remaining b) ≤ limit)%Z.

Definition quiet (e : event gcSig) : Prop := written e = false ∧ counted e = false.

Lemma within_quiet h0 limit b h e : quiet e → within h0 limit b h → within h0 limit b (e :: h).
Proof. intros [??] (w & ? & ?). exists w. split; [by apply after_quiet|done]. Qed.

Lemma wp_load_within h0 limit b l h :
  within h0 limit b h → wp (load l) h (λ _ h', within h0 limit b h').
Proof.
  intros Hh. unfold load. apply wp_bind. eapply (wp_mono _ _ (λ _ h', within h0 limit b h')).
  { wp_step; [by apply wp_ret|]. apply wp_call_bind. intros t. apply wp_ret.
    by apply within_quiet. }
  intros [] h1 Hh1; [by apply wp_ret|]. apply wp_bind, wp_call_bind. intros r.
  apply (within_quiet _ _ _ _ (ev (ListPV Live) r)) in Hh1; [|done].
  destruct r as [pvs|err]; apply wp_ret; [|by apply wp_ret].
  apply wp_call_bind. intros r.
  apply (within_quiet _ _ _ _ (ev (ListLLVS Live) r)) in Hh1; [|done].
  destruct r as [llvss|err]; [|by apply wp_ret]. apply wp_bind.
  apply wp_call_bind. intros r. apply (within_quiet _ _ _ _ (ev ListVSC r)) in Hh1; [|done].
  assert (Hend : ∀ c, wp (now ← gc_call Now;
    mret (None : option api_error, mkLive now (referenced_by pvs) (snapshottedVolumeNames llvss) c))
    (ev ListVSC r :: ev (ListLLVS Live) (inl llvss) :: ev (ListPV Live) (inl pvs) :: h1)
    (λ _ h', within h0 limit b h')).
  { intros c. apply wp_call_bind. intros now. apply wp_ret. by apply within_quiet. }
  destruct r as [l'|err]; [apply wp_ret, Hend|].
  destruct (_ || _); apply wp_ret; [apply Hend|by apply wp_ret].
Qed.

(** Spending allows one more write. *)
Lemma wp_spend_write {A} k (cached : kobj k) h0 limit b b' h (f : verdict → prog gcSig A) Q :
  spend b = (true, b') → within h0 limit b h →
  (∀ v h', within h0 limit b' h' → wp (f v) h' Q) →
  wp (r ← removeCSIFinalizer k cached; v ← settle g k r; f v) h Q.
Proof.
  unfold spend. destruct (b_remaining b <=? 0)%Z eqn:Hb; [done|]. intros [= <-].
  intros (w & Hw & Hpos & Hlim) HQ. bool_simpl. apply wp_bind.
  eapply wp_mono; [apply wp_removeCSIFinalizer_writes|]. intros r h1 Hh1.
  apply wp_bind. eapply wp_mono; [exact (wp_settle_counts _ _ _ _ _ Hh1)|].
  intros v h2 Hh2. cbv beta in *. apply HQ. exists (w + outcome_writes r)%Z. split_and!.
  - eapply after_eq; [eapply after_trans; eassumption| |]; lia.
  - destruct r as [[]|]; simpl; lia.
  - simpl. destruct r as [[]|]; simpl; lia.
Qed.

Lemma within_spent h0 limit b h : within h0 limit b h → within h0 limit (snd (spend b)) h.
Proof.
  intros (w & ? & ? & ?). exists w. split_and!; [done..|].
  unfold spend. case_match; simpl; lia.
Qed.

Lemma wp_reclaim_within (llv : LVMLogicalVolume) snapshotted live b h0 limit h :
  within h0 limit b h →
  wp (reclaim g llv snapshotted live b) h (λ r h', within h0 limit (snd r) h').
Proof.
  intros Hh. unfold reclaim. destruct (GetDeletionTimestamp llv) as [d|].
  2:{ wp_step; by apply wp_ret. }
  do 2 (wp_step; [by apply wp_ret|]). apply wp_call_bind. intros t. cbv zeta.
  apply (within_quiet _ _ _ _ (ev Now t)) in Hh; [|done].
  wp_step; [by apply wp_ret|].
  pose proof (within_spent _ _ _ _ Hh) as Hs.
  destruct (spend b) as [[] b'] eqn:Hb; simpl in *; [|by apply wp_ret].
  apply wp_bind. eapply wp_mono.
  { apply wp_and; [by apply (wp_load_within h0 limit b)|by apply (wp_load_within h0 limit b')]. }
  intros [[err|] live'] h' [Hb1 Hb2]; [by apply wp_ret|].
  do 2 (wp_step; [by apply wp_ret|]).
  eapply (wp_spend_write OLLV); [done..|]. intros v h2 ?. by apply wp_ret.
Qed.

Lemma wp_reclaimSnapshot_within (llvs : LVMLogicalVolumeSnapshot) live b h0 limit h :
  within h0 limit b h →
  wp (reclaimSnapshot g llvs live b) h
     (λ r h', within h0 limit (match r with Some (_, b') => b' | None => b end) h').
Proof.
  intros Hh. unfold reclaimSnapshot.
  wp_step; [by apply wp_ret|].
  apply wp_call_bind. intros t. cbv zeta.
  apply (within_quiet _ _ _ _ (ev Now t)) in Hh; [|done].
  destruct (GetDeletionTimestamp llvs); [|by apply wp_ret].
  wp_step; [by apply wp_ret|].
  pose proof (within_spent _ _ _ _ Hh) as Hs.
  destruct (spend b) as [[] b'] eqn:Hb; simpl in *;
    [|by apply wp_ret].
  apply wp_bind. eapply wp_mono.
  { apply wp_and; [by apply (wp_load_within h0 limit b)|by apply (wp_load_within h0 limit b')]. }
  intros [[err|] live'] h' [Hb1 Hb2]; [by apply wp_ret|].
  wp_step; [by apply wp_ret|].
  eapply (wp_spend_write OLLVS); [done..|]. intros v h2 ?. by apply wp_ret.
Qed.

(** ** The pass *)

Lemma wp_sweep_volumes_within snapshotted referenced (llvs : list LVMLogicalVolume) p h0 limit h :
  within h0 limit (p_budget p) h →
  wp (sweep_volumes g snapshotted referenced llvs p) h
     (λ p' h', within h0 limit (p_budget p') h').
Proof.
  revert p h. induction llvs as [|llv llvs IH]; intros p h Hh; simpl; [by apply wp_ret|].
  apply wp_bind. eapply (wp_mono _ _ (λ p' h', within h0 limit (p_budget p') h')); [|auto].
  unfold sweep_volume. cbv zeta.
  wp_step; [apply wp_ret; by case_match|]. wp_step; [by apply wp_ret|].
  apply wp_bind. eapply wp_mono; [by apply (wp_reclaim_within _ _ _ _ h0 limit)|].
  intros [[[[st re] rq] l'] b'] h' ?. by apply wp_ret.
Qed.

Lemma wp_sweep_snapshots_within (snapshots : list LVMLogicalVolumeSnapshot) p h0 limit h :
  within h0 limit (p_budget p) h →
  wp (sweep_snapshots g snapshots p) h
     (λ r h', ∃ b, within h0 limit b h' ∧ ∀ p', r = Some p' → p_budget p' = b).
Proof.
  revert p h. induction snapshots as [|s snapshots IH]; intros p h Hh; simpl.
  { apply wp_ret. exists (p_budget p). split; [done|]. by intros ? [= ->]. }
  apply wp_bind.
  eapply (wp_mono _ _ (λ r h', ∃ b, within h0 limit b h' ∧
                                    ∀ p', r = Some p' → p_budget p' = b)).
  - unfold sweep_snapshot.
    wp_step; [apply wp_ret; exists (p_budget p); split; [done|];
              intros ? [= <-]; by case_match|].
    wp_step; [apply wp_ret; exists (p_budget p); split; [done|]; by intros ? [= ->]|].
    apply wp_bind. eapply wp_mono; [by apply (wp_reclaimSnapshot_within _ _ _ h0 limit)|].
    intros [[[[[st re] rq] l'] b']|] h' ?; apply wp_ret; eexists; split; try done.
    by intros ? [= <-].
  - intros [p'|] h' (b & Hb & Heq); [|by apply wp_ret; exists b].
    apply IH. by rewrite (Heq p').
Qed.

(** Recording the picture of the sweep does not touch any counter. *)
Definition not_counter (m : metric_op) : Prop :=
  match m with CounterAdd _ _ _ => False | _ => True end.

Lemma Forall_map_gauge {A} (f : A → metric_op) l :
  (∀ x, not_counter (f x)) → Forall not_counter (map f l).
Proof. intros Hf. induction l; constructor; auto. Qed.

Lemma sweep_metrics_quiet s :
  Forall not_counter (SetLVMLogicalVolumeSweep (gc_metrics g) s).
Proof.
  unfold SetLVMLogicalVolumeSweep, recorded. destruct (r_st _); [|constructor].
  constructor; [done|].
  repeat first [apply Forall_app; split | apply Forall_map_gauge; by intros [[]]
               | apply Forall_map_gauge; by intros []].
Qed.

Lemma wp_emit_quiet ops h0 limit b h (Q : unit → hist → Prop) :
  Forall not_counter ops → within h0 limit b h →
  (∀ h', within h0 limit b h' → Q tt h') → wp (emit ops) h Q.
Proof.
  intros Hops. revert h. induction Hops as [|m ops Hm ? IH]; intros h Hh HQ; simpl.
  - by apply wp_ret, HQ.
  - apply wp_call_bind. intros []. apply IH; [|done]. apply within_quiet; [|done].
    split; [done|]. by destruct m.
Qed.

Lemma wp_sweep_lists_within lastSweep llvs snapshots referenced h0 h :
  within h0 (Z.max 0 (gc_maxReclaims g)) (mkBudget (gc_maxReclaims g) 0 false) h →
  wp (sweep_lists g lastSweep llvs snapshots referenced) h
     (λ _ h', ∃ b, within h0 (Z.max 0 (gc_maxReclaims g)) b h').
Proof.
  intros Hh. unfold sweep_lists. cbv zeta. apply wp_bind.
  eapply wp_mono; [by apply (wp_sweep_snapshots_within _ _ h0 (Z.max 0 (gc_maxReclaims g)))|].
  intros [ps|] h1 (b1 & Hb1 & Heq); [|by apply wp_ret; eauto].
  apply wp_bind. eapply wp_mono.
  { apply (wp_sweep_volumes_within _ _ _ _ h0 (Z.max 0 (gc_maxReclaims g))).
    simpl. by rewrite (Heq ps). }
  intros pv h2 Hh2. apply wp_bind. eapply wp_emit_quiet; [apply sweep_metrics_quiet|exact Hh2|].
  intros h3 Hh3. apply wp_call_bind. intros now. apply wp_ret.
  exists (p_budget pv). by apply within_quiet.
Qed.

(** C15: a pass makes at most [maxReclaims] finalizer writes, and the counter
    of successful removals is incremented exactly once per write the API
    server accepted, so it reports reclaims and not attempts. *)
Theorem reconcile_writes_bounded_and_counted sweepInterval lastSweep :
  wp (reconcile g sweepInterval lastSweep) [] (λ _ h,
    (tally written h ≤ Z.max 0 (gc_maxReclaims g))%Z ∧
    tally counted h = (if r_st (gc_metrics g) then tally written h else 0)%Z).
Proof.
  apply wp_bind. eapply (wp_mono _ _ (λ _ h, ∃ b,
    within [] (Z.max 0 (gc_maxReclaims g)) b h)).
  2:{ intros o h (b & w & [Hw Hc] & ? & ?).
      assert (Hgoal : (tally written h ≤ Z.max 0 (gc_maxReclaims g))%Z ∧
        tally counted h = (if r_st (gc_metrics g) then tally written h else 0)%Z).
      { change (tally written []) with 0%Z in Hw. change (tally counted []) with 0%Z in Hc.
        unfold storage in Hc. destruct (r_st _); simpl in *; lia. }
      destruct (so_err o) as [[]|]; by apply wp_ret. }
  assert (Hstart : ∀ h, Forall quiet h →
    within [] (Z.max 0 (gc_maxReclaims g)) (mkBudget (gc_maxReclaims g) 0 false) h).
  { intros h Hh. induction Hh; [|by apply within_quiet].
    exists 0%Z. rewrite Z.mul_0_r. split_and!; [apply after_refl|lia|simpl; lia]. }
  unfold sweep. apply wp_bind. eapply (wp_mono _ _ (λ _ h, Forall quiet h)).
  { wp_step; [by apply wp_ret|]. apply wp_call_bind. intros now. apply wp_ret.
    by repeat constructor. }
  intros [wait|] h Hq; [by apply wp_ret; eauto|].
  apply wp_call_bind. intros r1. assert (Forall quiet (ev ListLLV r1 :: h)) by by constructor.
  destruct r1 as [llvs|err]; [|by apply wp_ret; eauto].
  apply wp_call_bind. intros r2.
  assert (Forall quiet (ev (ListLLVS Cached) r2 :: ev ListLLV (inl llvs) :: h)) by by constructor.
  destruct r2 as [snaps|err]; [|by apply wp_ret; eauto].
  apply wp_bind, wp_call_bind. intros [pvs|err]; apply wp_ret.
  - apply wp_sweep_lists_within, Hstart. by constructor.
  - apply wp_ret. eexists. apply Hstart. by constructor.
Qed.
End accounting.
