(* ===== verification/GCPicture.v ===== *)
(** * What a pass of the garbage collector reports

    The published picture is complete and exact: every volume is counted, the
    orphans are the owned volumes without a referencing PersistentVolume, in
    the order of the list, and the state and reason reported for one agree with
    what was read about it. *)

From S2P Require Import Prelude Effects Kube Monitoring GC GCSweep.

Local Open Scope string_scope.

Section picture.
Context `{ApiMachinery, RetryOnError, MapRange}.
Context (g : llvGarbageCollector).

Abbreviation hist := (history gcSig).
Abbreviation ev := (Ev (S := gcSig)).

(** ** The specification *)

Definition is_orphan (referenced : gmap string pvReference) (llv : LVMLogicalVolume) : bool :=
  contains (om_Finalizers (llv_meta llv)) SDSLocalVolumeCSIFinalizer
  && negb (bool_decide (is_Some (referenced !! om_Name (llv_meta llv)))).

(** A snapshot whose deletion this module is holding up. *)
Definition is_held_up (s : LVMLogicalVolumeSnapshot) : bool :=
  contains (om_Finalizers (llvs_meta s)) SDSLocalVolumeCSIFinalizer
  && negb (is_nil (om_DeletionTimestamp (llvs_meta s))).

(** Let go of by this module, waiting for the agent. *)
Definition is_awaiting (m : ObjectMeta) : bool :=
  negb (contains (om_Finalizers m) SDSLocalVolumeCSIFinalizer) && awaits_agent m.

Definition block_reasons : list string :=
  [BlockReasonSnapshotsPresent; BlockReasonAgentFinalizerAbsent;
   BlockReasonPersistentVolumeExists; BlockReasonVolumeSnapshotContentExists;
   BlockReasonSuccessorInPlace; BlockReasonAPIError; BlockReasonRemovalFailed].

(** Terminating without a reason, or blocked with one. *)
Definition deleting_verdict (state reason : string) : Prop :=
  (state = OrphanStateTerminating ∧ reason = "") ∨
  (state = OrphanStateBlocked ∧ reason ∈ block_reasons).

Definition volume_verdict (llv : LVMLogicalVolume) (state reason : string) : Prop :=
  match om_DeletionTimestamp (llv_meta llv) with
  | None => reason = "" ∧
            state = if retainAcknowledged llv then OrphanStateRetained else OrphanStateActive
  | Some _ => deleting_verdict state reason
  end.

Definition reports_volume (llv : LVMLogicalVolume) (o : OrphanedLVMLogicalVolume) : Prop :=
  o_Name o = om_Name (llv_meta llv) ∧
  o_LVMVolumeGroup o = llv_LVMVolumeGroupName (llv_Spec llv) ∧
  o_Type o = llvType llv ∧
  o_AllocatedBytes o = llvAllocatedBytes llv ∧
  volume_verdict llv (o_State o) (o_Reason o).

Definition reports_snapshot (s : LVMLogicalVolumeSnapshot)
    (o : OrphanedLVMLogicalVolumeSnapshot) : Prop :=
  os_Name o = om_Name (llvs_meta s) ∧
  os_LVMLogicalVolume o = llvs_LVMLogicalVolumeName (llvs_Spec s) ∧
  os_UsedBytes o = llvsUsedBytes s ∧
  deleting_verdict (os_State o) (os_Reason o).

Definition volume_key (llv : LVMLogicalVolume) : PhaseAndType := (llvPhase llv, llvType llv).

Record picture_of (llvs : list LVMLogicalVolume) (snapshots : list LVMLogicalVolumeSnapshot)
    (referenced : gmap string pvReference) (s : LVMLogicalVolumeSweep) : Prop := {
  po_orphans :
    Forall2 reports_volume (List.filter (is_orphan referenced) llvs) (Orphans s);
  po_snapshots :
    Forall2 reports_snapshot (List.filter is_held_up snapshots) (OrphanedSnapshots s);
  po_counts : ∀ key,
    default 0%Z (CountBy s !! key) = count (λ llv, bool_decide (volume_key llv = key)) llvs;
  po_count_keys : ∀ key, is_Some (CountBy s !! key) ↔ key ∈ map volume_key llvs;
  po_bytes :
    AllocatedBytesBy s =
      foldl (λ m llv, map_addf (volume_key llv) (llvAllocatedBytes llv) m) ∅ llvs;
  po_awaiting_volumes :
    default 0%Z (AwaitingAgentByKind s !! KindLVMLogicalVolume) =
      count (λ llv, is_awaiting (llv_meta llv)) llvs;
  po_awaiting_snapshots :
    default 0%Z (AwaitingAgentByKind s !! KindLVMLogicalVolumeSnapshot) =
      count (λ s, is_awaiting (llvs_meta s)) snapshots;
}.

(** ** The verdicts *)

Lemma blocked reason : reason ∈ block_reasons → deleting_verdict OrphanStateBlocked reason.
Proof. by right. Qed.

Lemma terminating : deleting_verdict OrphanStateTerminating "".
Proof. by left. Qed.

Hint Resolve terminating : core.
Hint Extern 1 (deleting_verdict OrphanStateBlocked _) =>
  apply blocked; unfold block_reasons; set_solver : core.

Lemma wp_emit_any ops h (Q : unit → hist → Prop) : (∀ h', Q tt h') → wp (emit ops) h Q.
Proof.
  intros HQ. revert h. induction ops as [|m ops IH]; intros h; simpl; [by apply wp_ret|].
  apply wp_call_bind. intros r. apply IH.
Qed.

Lemma wp_settle_verdict k r h :
  wp (settle g k r) h (λ v _, deleting_verdict (fst (fst v)) (snd (fst v))).
Proof.
  unfold settle. destruct r as [removed|[e| | |]]; try (by apply wp_ret; simpl; auto).
  - apply wp_bind, wp_emit_any. intros h'. by apply wp_ret; simpl; auto.
  - apply wp_call_bind. intros []; [by apply wp_ret; simpl; auto|].
    apply wp_bind, wp_emit_any. intros h'. by apply wp_ret; simpl; auto.
  - apply wp_call_bind. intros []; [by apply wp_ret; simpl; auto|].
    apply wp_bind, wp_emit_any. intros h'. by apply wp_ret; simpl; auto.
Qed.

Lemma wp_any {A} (p : prog gcSig A) h : wp p h (λ _ _, True).
Proof. done. Qed.

Lemma wp_reclaim_verdict llv snapshotted live b h :
  wp (reclaim g llv snapshotted live b) h
     (λ r _, volume_verdict llv (fst (fst (fst (fst r)))) (snd (fst (fst (fst r))))).
Proof.
  unfold reclaim, volume_verdict, GetDeletionTimestamp. simpl.
  destruct (om_DeletionTimestamp (llv_meta llv)) as [d|].
  2:{ destruct (retainAcknowledged llv); by apply wp_ret. }
  do 2 (wp_step; [apply wp_ret; simpl; auto|]). apply wp_call_bind. intros t. cbv zeta.
  wp_step; [apply wp_ret; simpl; auto|].
  destruct (spend b) as [[] b']; simpl; [|apply wp_ret; simpl; auto].
  apply wp_bind. eapply wp_mono; [apply wp_any|].
  intros [[err|] live'] h' _; [apply wp_ret; simpl; auto|].
  do 2 (wp_step; [apply wp_ret; simpl; auto|]).
  apply wp_bind. eapply wp_mono; [apply wp_any|]. intros r h1 _.
  apply wp_bind. eapply wp_mono; [apply wp_settle_verdict|]. intros v h2 Hv. by apply wp_ret.
Qed.

Lemma wp_reclaimSnapshot_verdict llvs live b h :
  om_DeletionTimestamp (llvs_meta llvs) ≠ None →
  wp (reclaimSnapshot g llvs live b) h (λ r _, ∃ state reason d l b',
    r = Some ((state, reason, d), l, b') ∧ deleting_verdict state reason).
Proof.
  intros Hd. unfold reclaimSnapshot, GetDeletionTimestamp. simpl.
  assert (Hret : ∀ (v : verdict) (l : liveConfirmation) (b : reclaimBudget) h,
    deleting_verdict (fst (fst v)) (snd (fst v)) →
    wp (mret (Some (v, l, b)) : prog gcSig _) h (λ r _, ∃ state reason d l b',
      r = Some ((state, reason, d), l, b') ∧ deleting_verdict state reason)).
  { intros [[st re] q] l b0 h0 Hv. apply wp_ret. eauto 10. }
  wp_step; [apply Hret; simpl; auto|]. apply wp_call_bind. intros t. cbv zeta.
  destruct (om_DeletionTimestamp (llvs_meta llvs)) as [d|]; [|done].
  wp_step; [apply Hret; simpl; auto|].
  destruct (spend b) as [[] b']; simpl; [|apply Hret; simpl; auto].
  apply wp_bind. eapply wp_mono; [apply wp_any|].
  intros [[err|] live'] h' _; [apply Hret; simpl; auto|].
  wp_step; [apply Hret; simpl; auto|].
  apply wp_bind. eapply wp_mono; [apply wp_any|]. intros r h1 _.
  apply wp_bind. eapply wp_mono; [apply wp_settle_verdict|]. intros v h2 Hv. by apply Hret.
Qed.

(** ** The loops *)

(** What the volume half adds to the picture. *)
Record volumes_added referenced llvs (s s' : LVMLogicalVolumeSweep) : Prop := {
  va_orphans : ∃ os, Orphans s' = (Orphans s ++ os)%list ∧
    Forall2 reports_volume (List.filter (is_orphan referenced) llvs) os;
  va_snapshots : OrphanedSnapshots s' = OrphanedSnapshots s;
  va_counts : CountBy s' = foldl (λ m llv, map_incr (volume_key llv) m) (CountBy s) llvs;
  va_bytes : AllocatedBytesBy s' =
    foldl (λ m llv, map_addf (volume_key llv) (llvAllocatedBytes llv) m)
      (AllocatedBytesBy s) llvs;
  va_awaiting : ∀ kind, default 0%Z (AwaitingAgentByKind s' !! kind) =
    (default 0%Z (AwaitingAgentByKind s !! kind) +
     if decide (kind = KindLVMLogicalVolume)
     then count (λ llv, is_awaiting (llv_meta llv)) llvs else 0)%Z;
}.

Record snapshots_added snapshots (s s' : LVMLogicalVolumeSweep) : Prop := {
  sa_orphans : Orphans s' = Orphans s;
  sa_snapshots : ∃ os, OrphanedSnapshots s' = (OrphanedSnapshots s ++ os)%list ∧
    Forall2 reports_snapshot (List.filter is_held_up snapshots) os;
  sa_counts : CountBy s' = CountBy s;
  sa_bytes : AllocatedBytesBy s' = AllocatedBytesBy s;
  sa_awaiting : ∀ kind, default 0%Z (AwaitingAgentByKind s' !! kind) =
    (default 0%Z (AwaitingAgentByKind s !! kind) +
     if decide (kind = KindLVMLogicalVolumeSnapshot)
     then count (λ s, is_awaiting (llvs_meta s)) snapshots else 0)%Z;
}.

Lemma map_incr_lookup kind kind' (m : gmap string Z) :
  default 0%Z (map_incr kind' m !! kind) =
  (default 0%Z (m !! kind) + if decide (kind = kind') then 1 else 0)%Z.
Proof.
  unfold map_incr. destruct (decide (kind = kind')) as [->|].
  - by rewrite lookup_insert_eq.
  - rewrite lookup_insert_ne by done. lia.
Qed.

Lemma volumes_added_nil referenced s : volumes_added referenced [] s s.
Proof.
  split; [|done..|].
  - exists []. rewrite app_nil_r. by split; [|constructor].
  - intros kind. rewrite count_nil. case_decide; lia.
Qed.

Lemma volumes_added_trans referenced llv llvs s1 s2 s3 :
  volumes_added referenced [llv] s1 s2 → volumes_added referenced llvs s2 s3 →
  volumes_added referenced (llv :: llvs) s1 s3.
Proof.
  intros [(os1 & Ho1 & Hf1) Hs1 Hc1 Hb1 Ha1] [(os2 & Ho2 & Hf2) Hs2 Hc2 Hb2 Ha2]. split.
  - exists (os1 ++ os2)%list. rewrite Ho2, Ho1, <-app_assoc. split; [done|].
    change (llv :: llvs) with ([llv] ++ llvs)%list. rewrite List.filter_app.
    by apply Forall2_app.
  - congruence.
  - rewrite Hc2, Hc1. done.
  - rewrite Hb2, Hb1. done.
  - intros kind. rewrite Ha2, Ha1, !count_cons, count_nil. case_decide; lia.
Qed.

Lemma snapshots_added_nil s : snapshots_added [] s s.
Proof.
  split; [done| |done|done|].
  - exists []. rewrite app_nil_r. by split; [|constructor].
  - intros kind. rewrite count_nil. case_decide; lia.
Qed.

Lemma snapshots_added_trans x snapshots s1 s2 s3 :
  snapshots_added [x] s1 s2 → snapshots_added snapshots s2 s3 →
  snapshots_added (x :: snapshots) s1 s3.
Proof.
  intros [Ho1 (os1 & Hs1 & Hf1) Hc1 Hb1 Ha1] [Ho2 (os2 & Hs2 & Hf2) Hc2 Hb2 Ha2].
  split; try congruence.
  - exists (os1 ++ os2)%list. rewrite Hs2, Hs1, <-app_assoc. split; [done|].
    change (x :: snapshots) with ([x] ++ snapshots)%list. rewrite List.filter_app.
    by apply Forall2_app.
  - intros kind. rewrite Ha2, Ha1, !count_cons, count_nil. case_decide; lia.
Qed.

Lemma wp_sweep_volume_picture snapshotted referenced llv p h :
  wp (sweep_volume g snapshotted referenced llv p) h
     (λ p' _, volumes_added referenced [llv] (p_sweep p) (p_sweep p')).
Proof.
  unfold sweep_volume, GetFinalizers, GetName. simpl meta_of.
  destruct (contains _ SDSLocalVolumeCSIFinalizer) eqn:Hown; simpl negb; cbv iota.
  - wp_step.
    + apply wp_ret. split; try done.
      * exists []. rewrite app_nil_r. split; [done|].
        unfold is_orphan. simpl. rewrite Hown, Heqb. constructor.
      * intros kind. simpl. rewrite count_cons, count_nil. unfold is_awaiting.
        rewrite Hown. simpl. case_decide; lia.
    + apply wp_bind. eapply wp_mono; [apply wp_reclaim_verdict|].
      intros [[[[st re] rq] l'] b'] h' Hv. apply wp_ret. split; try done.
      * eexists. split; [done|]. unfold is_orphan. simpl. rewrite Hown, Heqb. simpl.
        repeat constructor; done.
      * intros kind. simpl. rewrite count_cons, count_nil. unfold is_awaiting.
        rewrite Hown. simpl. case_decide; lia.
  - apply wp_ret. split.
    + exists []. unfold is_orphan. simpl. rewrite Hown. simpl.
      split; [|constructor]. rewrite app_nil_r. by case_match.
    + by case_match.
    + by case_match.
    + by case_match.
    + intros kind. rewrite count_cons, count_nil. unfold is_awaiting. rewrite Hown. simpl.
      destruct (awaits_agent _); simpl; [rewrite map_incr_lookup|]; repeat case_decide;
        try congruence; lia.
Qed.

Lemma wp_sweep_volumes_picture snapshotted referenced llvs p h :
  wp (sweep_volumes g snapshotted referenced llvs p) h
     (λ p' _, volumes_added referenced llvs (p_sweep p) (p_sweep p')).
Proof.
  revert p h. induction llvs as [|llv llvs IH]; intros p h; simpl.
  - apply wp_ret, volumes_added_nil.
  - apply wp_bind. eapply wp_mono; [apply wp_sweep_volume_picture|].
    intros p1 h1 Hp1. eapply wp_mono; [apply IH|]. intros p2 h2 Hp2. cbv beta in *.
    eauto using volumes_added_trans.
Qed.

Lemma wp_sweep_snapshot_picture x p h :
  wp (sweep_snapshot g x p) h
     (λ r _, ∃ p', r = Some p' ∧ snapshots_added [x] (p_sweep p) (p_sweep p')).
Proof.
  unfold sweep_snapshot, GetFinalizers, GetName, GetDeletionTimestamp. simpl meta_of.
  destruct (contains _ SDSLocalVolumeCSIFinalizer) eqn:Hown; simpl negb; cbv iota.
  - destruct (om_DeletionTimestamp (llvs_meta x)) as [d|] eqn:Hd; simpl is_nil; cbv iota.
    + apply wp_bind. eapply wp_mono; [apply wp_reclaimSnapshot_verdict; congruence|].
      intros r h' (st & re & rq & l & b & -> & Hv). apply wp_ret. eexists. split; [done|].
      split; try done.
      * eexists. split; [done|]. unfold is_held_up. simpl. rewrite Hown, Hd. simpl.
        constructor; [|constructor]. done.
      * intros kind. simpl. rewrite count_cons, count_nil. unfold is_awaiting.
        rewrite Hown. simpl. case_decide; lia.
    + apply wp_ret. exists p. split; [done|]. split; try done.
      * exists []. rewrite app_nil_r. split; [done|]. unfold is_held_up. simpl.
        rewrite Hown, Hd. constructor.
      * intros kind. simpl. rewrite count_cons, count_nil. unfold is_awaiting.
        rewrite Hown. simpl. case_decide; lia.
  - apply wp_ret. eexists. split; [done|]. split.
    + by case_match.
    + exists []. unfold is_held_up. simpl. rewrite Hown. simpl.
      split; [|constructor]. rewrite app_nil_r. by case_match.
    + by case_match.
    + by case_match.
    + intros kind. rewrite count_cons, count_nil. unfold is_awaiting. rewrite Hown. simpl.
      destruct (awaits_agent _); simpl; [rewrite map_incr_lookup|]; repeat case_decide;
        try congruence; lia.
Qed.

Lemma wp_sweep_snapshots_picture snapshots p h :
  wp (sweep_snapshots g snapshots p) h
     (λ r _, ∃ p', r = Some p' ∧ snapshots_added snapshots (p_sweep p) (p_sweep p')).
Proof.
  revert p h. induction snapshots as [|x snapshots IH]; intros p h; simpl.
  - apply wp_ret. eauto using snapshots_added_nil.
  - apply wp_bind. eapply wp_mono; [apply wp_sweep_snapshot_picture|].
    intros r h1 (p1 & -> & Hp1). eapply wp_mono; [apply IH|]. intros r h2 (p2 & -> & Hp2).
    eauto using snapshots_added_trans.
Qed.

Lemma picture_complete llvs snapshots referenced s1 s2 :
  snapshots_added snapshots empty_sweep s1 → volumes_added referenced llvs s1 s2 →
  picture_of llvs snapshots referenced s2.
Proof.
  intros [Ho1 (os1 & Hs1 & Hf1) Hc1 Hb1 Ha1] [(os2 & Ho2 & Hf2) Hs2 Hc2 Hb2 Ha2].
  simpl in *. split.
  - by rewrite Ho2, Ho1.
  - by rewrite Hs2, Hs1.
  - intros key. rewrite Hc2, Hc1, map_incr_count, lookup_empty. done.
  - intros key. rewrite Hc2, Hc1, map_incr_is_Some, lookup_empty, is_Some_alt. tauto.
  - by rewrite Hb2, Hb1.
  - rewrite Ha2, Ha1, lookup_empty. simpl. done.
  - rewrite Ha2, Ha1, lookup_empty. simpl. lia.
Qed.

(** ** The published picture *)

Lemma wp_emit_exact ops h (Q : unit → hist → Prop) :
  Q tt (reverse (map (λ m, ev (Metric m) tt) ops) ++ h)%list → wp (emit ops) h Q.
Proof.
  revert h. induction ops as [|m ops IH]; intros h HQ; simpl; [by apply wp_ret|].
  apply wp_call_bind. intros []. apply IH. simpl in HQ.
  by rewrite reverse_cons, <-app_assoc in HQ.
Qed.

(** C12: a pass that does not fail publishes, as its last act before reading
    the clock, exactly the picture it returns; that picture is the one its
    cached lists describe: the orphans are the volumes carrying the CSI
    finalizer that no listed PersistentVolume refers to, each reported once,
    in order, with a state and reason that fit it; every volume is counted
    under its phase and type, and the ones this module has let go of are
    counted as awaiting the agent. *)
Theorem sweep_publishes_its_picture lastSweep :
  wp (sweep g lastSweep) [] (λ o h, so_err o = None →
    ∃ llvs snapshots pvs past,
      h = (ev Now (so_lastSweep o) ::
           reverse (map (λ m, ev (Metric m) tt)
                      (SetLVMLogicalVolumeSweep (gc_metrics g) (so_sweep o))) ++ past)%list ∧
      ev ListLLV (inl llvs) ∈ past ∧
      ev (ListLLVS Cached) (inl snapshots) ∈ past ∧
      ev (ListPV Cached) (inl pvs) ∈ past ∧
      picture_of llvs snapshots (referenced_by pvs) (so_sweep o)).
Proof.
  unfold sweep. apply wp_bind. eapply wp_mono; [apply wp_any|].
  intros [wait|] h0 _; [by apply wp_ret|].
  apply wp_call_bind. intros [llvs|err]; [|by apply wp_ret].
  apply wp_call_bind. intros [snapshots|err]; [|by apply wp_ret].
  apply wp_bind, wp_call_bind. intros [pvs|err]; apply wp_ret; [|by apply wp_ret].
  unfold sweep_lists. cbv zeta. apply wp_bind.
  set (h1 := _ :: _ :: _ :: h0).
  eapply wp_mono; [apply wp_and; [apply wp_sweep_snapshots_picture|apply wp_extends]|].
  intros r h2 [(ps & -> & Hps) [n2 ->]]. apply wp_bind.
  eapply wp_mono; [apply wp_and; [apply wp_sweep_volumes_picture|apply wp_extends]|].
  intros pv h3 [Hpv [n3 ->]]. apply wp_bind, wp_emit_exact.
  apply wp_call_bind. intros now. apply wp_ret. intros _.
  exists llvs, snapshots, pvs, (n3 ++ n2 ++ h1)%list. split; [done|].
  split_and!; try (subst h1; set_solver). simpl in *. by eapply picture_complete.
Qed.
End picture.
