(* ===== verification/GCProgress.v ===== *)
(** * What the garbage collector gets done

    GCSafety says that a pass writes nothing it may not; this file says that it
    writes everything it should: in a pass that does not fail, every volume and
    snapshot that is asked to be deleted, past its grace period and held by
    nothing but this module's finalizer loses it, as long as the API server
    answers about it and confirms it, and the budget of the pass was not spent on
    others that were due before it. *)

From S2P Require Import Prelude Effects Kube Monitoring GC GCSweep GCSafety GCPicture.

Local Open Scope string_scope.

Section progress.
Context `{ApiMachinery, RetryOnError, MapRange}.
Context (g : llvGarbageCollector).

Abbreviation hist := (history gcSig).
Abbreviation ev := (Ev (S := gcSig)).

(** ** What is asked of the world *)

(** The answers about one object: live reads succeed and hold nothing that
    refers to it, the live object is the one of the cache and carries both
    finalizers, and the write is accepted. *)
Definition answers (k : okind) (cached : kobj k) (e : event gcSig) : Prop :=
  match ev_op e as o return gc_res o → Prop with
  | ListPV Live => λ r, ∃ l, r = inl l ∧
      (k = OLLV → referenced_by l !! GetName cached = None)
  | ListLLVS Live => λ r, ∃ l, r = inl l ∧
      (k = OLLV → GetName cached ∉ snapshottedVolumeNames l)
  | ListVSC => λ r,
      (∃ l, r = inl l ∧ (k = OLLVS → GetName cached ∉ handles_of l)) ∨
      (∃ err, r = inr err ∧ IsNoMatchError err || IsNotFound err = true)
  | GetLive k' n => λ r, k' = k → n = GetName cached →
      ∃ o, r = inl o ∧ GetName o = n ∧ GetUID o = GetUID cached ∧ removable o
  | Patch k' base _ => λ r, k' = k → GetName base = GetName cached → r = None
  | _ => λ _, True
  end (ev_res e).

Definition calm (k : okind) (cached : kobj k) (h : hist) : Prop := Forall (answers k cached) h.

(** The API server accepted the object without this module's finalizer. *)
Definition released (k : okind) (cached : kobj k) (h : hist) : Prop :=
  ∃ base new, ev (Patch k base new) None ∈ h ∧
    GetName base = GetName cached ∧ GetUID base = GetUID cached ∧
    SDSLocalVolumeCSIFinalizer ∉ GetFinalizers new.

Lemma calm_app k c h1 h2 : calm k c (h1 ++ h2)%list → calm k c h2.
Proof. unfold calm. rewrite Forall_app. tauto. Qed.

Lemma released_app k c h1 h2 : released k c h2 → released k c (h1 ++ h2)%list.
Proof. intros (b & n & ? & ?). exists b, n. rewrite elem_of_app. auto. Qed.

(** ** The write *)

Lemma wp_removeCSIFinalizer_once_releases k (cached : kobj k) h :
  wp (removeCSIFinalizer_once k cached) h
    (λ r h', calm k cached h' → r = inl true ∧ released k cached h').
Proof.
  apply wp_call_bind. intros [live|err].
  2:{ assert (Hno : ∀ h', ¬ calm k cached (h' ++ ev (GetLive k (GetName cached)) (inr err) :: h)%list).
      { intros h' [Hc _]%calm_app%Forall_cons. by destruct (Hc eq_refl eq_refl) as (? & ? & _). }
      wp_step; apply wp_ret; intros Hc; by destruct (Hno []). }
  set (h1 := _ :: h).
  assert (Hlive : ∀ h', calm k cached (h' ++ h1)%list →
    GetName live = GetName cached ∧ GetUID live = GetUID cached ∧ removable live).
  { intros h' [Hc _]%calm_app%Forall_cons. destruct (Hc eq_refl eq_refl) as (o & [= <-] & ?). done. }
  wp_step; [apply wp_ret; intros (_ & ? & _)%(Hlive []); by bool_simpl|].
  wp_step.
  { apply wp_ret. intros (_ & _ & Hd & _)%(Hlive []). by destruct (GetDeletionTimestamp live). }
  wp_step; [apply wp_ret; intros (_ & _ & _ & ? & _)%(Hlive []); by bool_simpl|].
  wp_step; [apply wp_ret; intros (_ & _ & _ & _ & ?)%(Hlive []); by bool_simpl|].
  apply wp_call_bind. intros err. set (e := Ev _ err).
  assert (Herr : calm k cached (e :: h1) → err = None).
  { intros Hc. destruct (Hlive [e] Hc) as (Hn & _). apply Forall_cons in Hc as [Hc _].
    by apply Hc. }
  destruct err as [err|]; apply wp_ret; intros Hc; [by specialize (Herr Hc)|].
  split; [done|]. destruct (Hlive [e] Hc) as (Hn & Hu & _). eexists live, _.
  split_and!; [apply elem_of_cons; by left|done|done|].
  unfold GetFinalizers. rewrite meta_with_meta. simpl. apply delete_all_not_in.
Qed.

Lemma wp_removeCSIFinalizer_releases k (cached : kobj k) h :
  wp (removeCSIFinalizer k cached) h
    (λ r h', calm k cached h' → r = inl true ∧ released k cached h').
Proof.
  apply (wp_OnError _ _ (λ _, True)); [done|]. intros h' _.
  eapply wp_mono; [apply wp_removeCSIFinalizer_once_releases|]. auto.
Qed.

(** ** The live picture *)

(** Nothing in the picture holds the object. *)
Definition clear_of (k : okind) (cached : kobj k) (l : liveConfirmation) : Prop :=
  match k with
  | OLLV => lc_referenced l !! GetName cached = None ∧ GetName cached ∉ lc_snapshotted l
  | OLLVS => GetName cached ∉ lc_snapshotContents l
  end.

Lemma wp_load_clears k (cached : kobj k) live h :
  clear_of k cached live →
  wp (load live) h (λ '(err, live') h', calm k cached h' → err = None ∧ clear_of k cached live').
Proof.
  intros Hl. unfold load. apply wp_bind. eapply wp_mono; [apply wp_extends|].
  intros [] h0 _; [by apply wp_ret|].
  apply wp_bind, wp_call_bind. intros [pvs|err]; apply wp_ret.
  2:{ apply wp_ret. intros [(? & ? & _) _]%Forall_cons. done. }
  apply wp_call_bind. intros [snaps|err].
  2:{ apply wp_ret. intros [(? & ? & _) _]%Forall_cons. done. }
  apply wp_bind, wp_call_bind. intros [contents|err]; [|wp_step]; apply wp_ret.
  - apply wp_call_bind. intros now. apply wp_ret.
    intros [_ [[(l1 & [= <-] & Ha)|(? & ? & _)]
      [(l2 & [= <-] & Hb) [(l3 & [= <-] & Hc) _]%Forall_cons]%Forall_cons]%Forall_cons]%Forall_cons;
      [|done]. split; [done|]. destruct k; simpl; auto.
  - apply wp_call_bind. intros now. apply wp_ret.
    intros [_ [_ [(l2 & [= <-] & Hb) [(l3 & [= <-] & Hc) _]%Forall_cons]%Forall_cons]%Forall_cons]%Forall_cons.
    split; [done|]. destruct k; simpl; auto. set_solver.
  - apply wp_ret. intros [[(? & ? & _)|(e & [= <-] & He)] _]%Forall_cons; [done|congruence].
Qed.

(** What a step leaves of the budget, at least, and of the live picture. *)
Definition spares (cost : Z) (live : liveConfirmation) (b : reclaimBudget)
    (live' : liveConfirmation) (b' : reclaimBudget) (h' : hist) : Prop :=
  (b_remaining b - cost ≤ b_remaining b')%Z ∧ (b_exhausted b = true → b_exhausted b' = true) ∧
  ∀ k (cached : kobj k), clear_of k cached live → calm k cached h' → clear_of k cached live'.

Lemma spares_refl live b h : spares 0 live b live b h.
Proof. split_and!; [lia|done|done]. Qed.

Lemma spares_weaken c c' live b live' b' h :
  (c ≤ c')%Z → spares c live b live' b' h → spares c' live b live' b' h.
Proof. intros ? (? & ? & ?). split_and!; [lia|done|done]. Qed.

Lemma spares_trans c1 c2 l1 b1 l2 b2 l3 b3 h new :
  spares c1 l1 b1 l2 b2 h → spares c2 l2 b2 l3 b3 (new ++ h)%list →
  spares (c1 + c2) l1 b1 l3 b3 (new ++ h)%list.
Proof.
  intros (? & ? & Ha) (? & ? & Hb). split_and!; [lia|auto|]. intros k c Hc Hcalm. apply Hb; [|done]. apply Ha; [done|].
  by eapply calm_app.
Qed.

Lemma wp_load_spares live b h :
  wp (load live) h (λ '(err, live') h', spares 0 live b live' b h').
Proof.
  intros [err live'] h' He. split_and!; [lia|done|]. intros k c Hc Hcalm.
  by destruct (wp_load_clears k c live h Hc _ _ He Hcalm).
Qed.

Lemma spend_spares live b :
  ∀ h, spares 1 live b live (snd (spend b)) h.
Proof. intros h. unfold spend. case_match; (split_and!; [simpl; lia|done|done]). Qed.

Lemma spend_positive b : (0 < b_remaining b)%Z → fst (spend b) = true.
Proof. intros Hb. unfold spend. by destruct (Z.leb_spec (b_remaining b) 0); [lia|]. Qed.

Lemma spend_exhausts b : fst (spend b) = false → (b_remaining b ≤ 0)%Z ∧ b_exhausted (snd (spend b)) = true.
Proof. unfold spend. by destruct (Z.leb_spec (b_remaining b) 0). Qed.

(** The part of a reclaim once the grace period is over: a pass that can spend
    confirms and writes; the object must be the one [write] is about. *)
Lemma spares_extends c live b live' b' h new :
  spares c live b live' b' h → spares c live b live' b' (new ++ h)%list.
Proof.
  intros (? & ? & Ha). split_and!; [done..|]. intros k o Hc Hcalm. eapply Ha; [done|]. by eapply calm_app.
Qed.

(** ** What costs a write *)

Definition reading (e : event gcSig) : option Z :=
  match ev_op e as o return gc_res o → option Z with Now => Some | _ => λ _, None end (ev_res e).

(** Some reading of the clock is past the grace period. *)
Definition elapsed (d : Z) (h : hist) : bool :=
  existsb (λ t, gc_gracePeriod g <=? time_Sub t d)%Z (omap reading h).

Lemma elapsed_reading d t h :
  ev Now t ∈ h → (gc_gracePeriod g ≤ time_Sub t d)%Z → elapsed d h = true.
Proof.
  intros Hin Ht. apply existsb_exists. exists t. split; [|by apply Z.leb_le].
  apply list_elem_of_In, list_elem_of_omap. by exists (ev Now t).
Qed.

Lemma elapsed_app d new h : elapsed d h = true → elapsed d (new ++ h)%list = true.
Proof. unfold elapsed. rewrite omap_app, existsb_app. intros ->. by rewrite orb_true_r. Qed.

(** The object is asked to be deleted and is past its grace period, and the
    agent still guards it. *)
Definition is_due (m : ObjectMeta) (h : hist) : bool :=
  contains (om_Finalizers m) SDSNodeConfiguratorFinalizer &&
  match om_DeletionTimestamp m with Some d => elapsed d h | None => false end.

(** A volume, or a snapshot, a pass spends a write on. *)
Definition due_volume (refs : gmap string pvReference) (snapshotted : gset string) (h : hist)
    (llv : LVMLogicalVolume) : bool :=
  is_orphan refs llv && negb (bool_decide (GetName llv ∈ snapshotted)) && is_due (llv_meta llv) h.

Definition due_snapshot (h : hist) (s : LVMLogicalVolumeSnapshot) : bool :=
  is_held_up s && is_due (llvs_meta s) h.

Lemma is_due_app m new h : is_due m h = true → is_due m (new ++ h)%list = true.
Proof.
  unfold is_due. intros [-> Hd]%andb_prop. simpl. destruct (om_DeletionTimestamp m); [|done].
  by apply elapsed_app.
Qed.

Lemma count_due {A} (P : hist → A → bool) (l : list A) new h :
  (∀ x, P h x = true → P (new ++ h)%list x = true) →
  (count (P h) l ≤ count (P (new ++ h)%list) l)%Z.
Proof.
  intros HP. induction l as [|x l IH]; [done|]. rewrite !count_cons.
  destruct (P h x) eqn:E; [rewrite (HP _ E)|]; simpl; [lia|].
  destruct (P (new ++ h)%list x); simpl; lia.
Qed.

Lemma b2z_mono (a b : bool) : (a = true → b = true) → (Z.b2z a ≤ Z.b2z b)%Z.
Proof. destruct a, b; simpl; intros Hab; [lia|discriminate (Hab eq_refl)|lia|lia]. Qed.

Lemma due_volume_more refs snapshotted new h x :
  due_volume refs snapshotted h x = true → due_volume refs snapshotted (new ++ h)%list x = true.
Proof. unfold due_volume. intros [-> Hd]%andb_prop. by apply is_due_app. Qed.

Lemma due_snapshot_more new h x :
  due_snapshot h x = true → due_snapshot (new ++ h)%list x = true.
Proof. unfold due_snapshot. intros [-> Hd]%andb_prop. by apply is_due_app. Qed.

Lemma due_volume_app refs snapshotted l new h :
  (count (due_volume refs snapshotted h) l ≤ count (due_volume refs snapshotted (new ++ h)%list) l)%Z.
Proof. apply count_due. intros x. apply due_volume_more. Qed.

Lemma due_snapshot_app l new h :
  (count (due_snapshot h) l ≤ count (due_snapshot (new ++ h)%list) l)%Z.
Proof. apply count_due. intros x. apply due_snapshot_more. Qed.

Lemma wp_reclaim_spares llv snapshotted live b h :
  wp (reclaim g llv snapshotted live b) h (λ '(_, live', b') h',
    spares (Z.b2z (negb (bool_decide (GetName llv ∈ snapshotted)) && is_due (llv_meta llv) h'))
      live b live' b' h').
Proof.
  unfold reclaim, is_due.
  change (GetDeletionTimestamp llv) with (om_DeletionTimestamp (llv_meta llv)).
  change (GetFinalizers llv) with (om_Finalizers (llv_meta llv)).
  destruct (om_DeletionTimestamp (llv_meta llv)) as [d|].
  2:{ destruct (retainAcknowledged llv); apply wp_ret; rewrite !andb_false_r; apply spares_refl. }
  wp_step; [apply wp_ret; apply spares_refl|]. simpl.
  wp_step.
  { apply negb_true_iff in Heqb1. apply wp_ret. rewrite Heqb1. apply spares_refl. }
  apply negb_false_iff in Heqb1. rewrite Heqb1. simpl.
  apply wp_call_bind. intros now. cbv zeta.
  assert (Hskip : ∀ (x : bool) h, spares (Z.b2z x) live b live b h).
  { intros x h0. eapply spares_weaken, spares_refl. destruct x; simpl; lia. }
  destruct (Z.ltb_spec (time_Sub now d) (gc_gracePeriod g)) as [_|Hge]; [by apply wp_ret|].
  set (h1 := ev Now now :: h).
  assert (Hel : ∀ new, elapsed d (new ++ h1)%list = true).
  { intros new. apply elapsed_app, (elapsed_reading _ now); [by left|done]. }
  pose proof (spend_spares live b) as Hs.
  destruct (spend b) as [[] b']; simpl in *; [|apply wp_ret; rewrite (Hel [] : elapsed d h1 = true); apply Hs].
  apply wp_bind. eapply wp_mono; [apply wp_and; [apply (wp_load_spares live b')|apply wp_extends]|].
  intros [err live'] h2 [Hl [n1 ->]].
  assert (Hs' : ∀ new, spares (Z.b2z (elapsed d (new ++ n1 ++ h1)%list)) live b live' b'
    (new ++ n1 ++ h1)%list).
  { intros new. rewrite (app_assoc new n1 h1), Hel. simpl. rewrite <-app_assoc. apply spares_extends.
    by apply (spares_trans 1 0 _ _ live b' _ _ h1 n1). }
  destruct err; [by apply wp_ret, (Hs' [])|]. do 2 (wp_step; [by apply wp_ret, (Hs' [])|]).
  apply wp_bind. eapply wp_mono; [apply wp_extends|]. intros r h2 [n2 ->].
  apply wp_bind. eapply wp_mono; [apply wp_extends|]. intros v h3 [n3 ->].
  apply wp_ret. rewrite (app_assoc n3 n2 _). apply Hs'.
Qed.

Lemma wp_reclaimSnapshot_spares s live b h :
  wp (reclaimSnapshot g s live b) h (λ r h', ∀ v live' b', r = Some (v, live', b') →
    spares (Z.b2z (is_due (llvs_meta s) h')) live b live' b' h').
Proof.
  unfold reclaimSnapshot, is_due.
  change (GetDeletionTimestamp s) with (om_DeletionTimestamp (llvs_meta s)).
  change (GetFinalizers s) with (om_Finalizers (llvs_meta s)).
  wp_step.
  { apply negb_true_iff in Heqb0. apply wp_ret. intros ??? [= <- <- <-]. rewrite Heqb0. apply spares_refl. }
  apply negb_false_iff in Heqb0. rewrite Heqb0. simpl.
  apply wp_call_bind. intros now. cbv zeta.
  destruct (om_DeletionTimestamp (llvs_meta s)) as [d|]; [|by apply wp_ret].
  assert (Hskip : ∀ (x : bool) h, spares (Z.b2z x) live b live b h).
  { intros x h0. eapply spares_weaken, spares_refl. destruct x; simpl; lia. }
  destruct (Z.ltb_spec (time_Sub now d) (gc_gracePeriod g)) as [_|Hge].
  { apply wp_ret. intros ??? [= <- <- <-]. apply Hskip. }
  set (h1 := ev Now now :: h).
  assert (Hel : ∀ new, elapsed d (new ++ h1)%list = true).
  { intros new. apply elapsed_app, (elapsed_reading _ now); [by left|done]. }
  pose proof (spend_spares live b) as Hs.
  destruct (spend b) as [[] b']; simpl in *.
  2:{ apply wp_ret. intros ??? [= <- <- <-]. rewrite (Hel [] : elapsed d h1 = true). apply Hs. }
  apply wp_bind. eapply wp_mono; [apply wp_and; [apply (wp_load_spares live b')|apply wp_extends]|].
  intros [err live'] h2 [Hl [n1 ->]].
  assert (Hs' : ∀ new, spares (Z.b2z (elapsed d (new ++ n1 ++ h1)%list)) live b live' b'
    (new ++ n1 ++ h1)%list).
  { intros new. rewrite (app_assoc new n1 h1), Hel. simpl. rewrite <-app_assoc. apply spares_extends.
    by apply (spares_trans 1 0 _ _ live b' _ _ h1 n1). }
  destruct err; [apply wp_ret; intros ??? [= <- <- <-]; apply (Hs' [])|].
  wp_step; [apply wp_ret; intros ??? [= <- <- <-]; apply (Hs' [])|].
  apply wp_bind. eapply wp_mono; [apply wp_extends|]. intros r h2 [n2 ->].
  apply wp_bind. eapply wp_mono; [apply wp_extends|]. intros v h3 [n3 ->].
  apply wp_ret. intros ??? [= <- <- <-]. rewrite (app_assoc n3 n2 _). apply Hs'.
Qed.

(** ** One object *)

(** Every reading of the clock is past the grace period. *)
Definition waited_out (d : Z) (h : hist) : Prop :=
  ∀ t, ev Now t ∈ h → (gc_gracePeriod g ≤ time_Sub t d)%Z.

Lemma waited_out_app d h1 h2 : waited_out d (h1 ++ h2)%list → waited_out d h2.
Proof. intros Hw t Ht. apply Hw. rewrite elem_of_app. auto. Qed.

(** Its deletion is requested, and both finalizers are there. *)
Definition deleting {k} (o : kobj k) (d : Z) : Prop :=
  GetDeletionTimestamp o = Some d ∧
  SDSLocalVolumeCSIFinalizer ∈ GetFinalizers o ∧ SDSNodeConfiguratorFinalizer ∈ GetFinalizers o.

(** The pass could not spend a write, and will want to be run again soon. *)
Definition out_of_budget (b b' : reclaimBudget) : Prop :=
  (b_remaining b ≤ 0)%Z ∧ b_exhausted b' = true.

Lemma wp_reclaim_releases llv d snapshotted live b h :
  deleting (k := OLLV) llv d → GetName llv ∉ snapshotted → clear_of OLLV llv live →
  wp (reclaim g llv snapshotted live b) h (λ '(_, _, b') h',
    calm OLLV llv h' → waited_out d h' → released OLLV llv h' ∨ out_of_budget b b').
Proof.
  intros (Hd & _ & Hag) Hsn Hcl. unfold reclaim. simpl in Hd. rewrite Hd.
  wp_step; [by bool_simpl|]. wp_step; [by bool_simpl|]. apply wp_call_bind. intros now. cbv zeta.
  wp_step.
  { apply wp_ret. intros _ Hw. apply Z.ltb_lt in Heqb2.
    assert (Hn : ev Now now ∈ ev Now now :: h) by (apply elem_of_cons; by left).
    specialize (Hw now Hn). lia. }
  pose proof (spend_exhausts b) as Hs. destruct (spend b) as [[] b']; simpl in Hs; simpl negb; cbv iota.
  2:{ apply wp_ret. intros _ _. right. by apply Hs. }
  apply wp_bind. eapply wp_mono; [by apply wp_load_clears|].
  intros [err live'] h1 Hl.
  destruct err; [apply wp_ret; intros Hc; by destruct (Hl Hc)|].
  wp_step. { apply wp_ret. intros Hc. destruct (Hl Hc) as [_ [Hn _]]. bool_simpl. simpl in *.
             destruct Heqb3 as [? ?]. congruence. }
  wp_step. { apply wp_ret. intros Hc. destruct (Hl Hc) as [_ [_ Hn]]. by bool_simpl. }
  apply wp_bind. eapply wp_mono; [apply (wp_removeCSIFinalizer_releases OLLV)|]. intros r h2 Hr.
  apply wp_bind. eapply wp_mono; [apply wp_extends|]. intros v h3 [n3 ->].
  apply wp_ret. intros Hc%calm_app _. left. by apply released_app, Hr.
Qed.

Lemma wp_reclaimSnapshot_releases s d live b h :
  deleting (k := OLLVS) s d → clear_of OLLVS s live →
  wp (reclaimSnapshot g s live b) h (λ r h', ∀ v live' b', r = Some (v, live', b') →
    calm OLLVS s h' → waited_out d h' → released OLLVS s h' ∨ out_of_budget b b').
Proof.
  intros (Hd & _ & Hag) Hcl. unfold reclaimSnapshot. simpl in Hd. rewrite Hd.
  wp_step; [by bool_simpl|]. apply wp_call_bind. intros now. cbv zeta.
  wp_step.
  { apply wp_ret. intros ??? _ _ Hw. apply Z.ltb_lt in Heqb1.
    assert (Hn : ev Now now ∈ ev Now now :: h) by (apply elem_of_cons; by left).
    specialize (Hw now Hn). lia. }
  pose proof (spend_exhausts b) as Hs. destruct (spend b) as [[] b']; simpl in Hs; simpl negb; cbv iota.
  2:{ apply wp_ret. intros ??? [= <- <- <-] _ _. right. by apply Hs. }
  apply wp_bind. eapply wp_mono; [by apply (wp_load_clears OLLVS)|].
  intros [err live'] h1 Hl.
  destruct err; [apply wp_ret; intros ??? _ Hc; by destruct (Hl Hc)|].
  wp_step. { apply wp_ret. intros ??? _ Hc. destruct (Hl Hc) as [_ Hn]. by bool_simpl. }
  apply wp_bind. eapply wp_mono; [apply (wp_removeCSIFinalizer_releases OLLVS)|]. intros r h2 Hr.
  apply wp_bind. eapply wp_mono; [apply wp_extends|]. intros v h3 [n3 ->].
  apply wp_ret. intros ??? _ Hc%calm_app _. left. by apply released_app, Hr.
Qed.

(** ** The loops *)

Lemma wp_sweep_volume_spares snapshotted refs llv p h :
  wp (sweep_volume g snapshotted refs llv p) h (λ p' h',
    spares (Z.b2z (due_volume refs snapshotted h' llv)) (p_live p) (p_budget p) (p_live p') (p_budget p') h').
Proof.
  unfold sweep_volume, due_volume, is_orphan. simpl.
  wp_step; [apply wp_ret|wp_step; [apply wp_ret|]].
  - bool_simpl. change (GetFinalizers llv) with (om_Finalizers (llv_meta llv)) in Heqb.
    rewrite (proj2 (contains_false _ _) Heqb). case_match; apply spares_refl.
  - change (GetName llv) with (om_Name (llv_meta llv)) in Heqb0. rewrite Heqb0, andb_false_r.
    apply spares_refl.
  - change (GetName llv) with (om_Name (llv_meta llv)) in Heqb0. rewrite Heqb0.
    apply negb_false_iff in Heqb. change (GetFinalizers llv) with (om_Finalizers (llv_meta llv)) in Heqb.
    rewrite Heqb. simpl. apply wp_bind. eapply wp_mono; [apply wp_reclaim_spares|].
    intros [[[[st re] rq] live'] b'] h' Hs. by apply wp_ret.
Qed.

Lemma wp_sweep_volume_releases snapshotted refs llv d p h :
  deleting (k := OLLV) llv d → refs !! GetName llv = None → GetName llv ∉ snapshotted →
  clear_of OLLV llv (p_live p) →
  wp (sweep_volume g snapshotted refs llv p) h (λ p' h',
    calm OLLV llv h' → waited_out d h' →
    released OLLV llv h' ∨ out_of_budget (p_budget p) (p_budget p')).
Proof.
  intros Hd Hr Hs Hc. unfold sweep_volume. cbv zeta. wp_step.
  { exfalso. bool_simpl. destruct Hd as (_ & Hown & _). by apply Heqb. }
  wp_step.
  { exfalso. bool_simpl. simpl in *. destruct Heqb0 as [? ?]. congruence. }
  apply wp_bind. eapply wp_mono; [by apply (wp_reclaim_releases _ d)|].
  intros [[[[st re] rq] live'] b'] h' Hrel. by apply wp_ret.
Qed.

Lemma wp_sweep_volumes_releases snapshotted refs llvs p h :
  wp (sweep_volumes g snapshotted refs llvs p) h (λ p' h',
    (b_exhausted (p_budget p) = true → b_exhausted (p_budget p') = true) ∧
    ∀ before llv after d, llvs = (before ++ llv :: after)%list →
      deleting (k := OLLV) llv d → refs !! GetName llv = None →
      GetName llv ∉ snapshotted → clear_of OLLV llv (p_live p) →
      calm OLLV llv h' → waited_out d h' →
      released OLLV llv h' ∨
      ((b_remaining (p_budget p) ≤ count (due_volume refs snapshotted h') before)%Z ∧
       b_exhausted (p_budget p') = true)).
Proof.
  revert p h. induction llvs as [|x llvs IH]; intros p h; cbn [sweep_volumes].
  - apply wp_ret. split; [done|]. by intros [].
  - apply wp_bind. intros p1 h1 He1 p2 h2 He2. pose proof He2 as [new ->]%exec_extends.
    pose proof (wp_sweep_volume_spares _ _ _ _ _ _ _ He1) as (Hspare & Hex & Hkeep).
    destruct (IH _ _ _ _ He2) as [Hex2 Hrel]. split; [auto|].
    intros [|y before] llv after d [= <- Heq] Hd Hr Hs Hcl Hcalm Hw.
    + destruct (wp_sweep_volume_releases snapshotted refs x d p h Hd Hr Hs Hcl _ _ He1) as [?|[? ?]].
      * by eapply calm_app.
      * by eapply waited_out_app.
      * left. by apply released_app.
      * right. split; [done|]. auto.
    + destruct (Hrel before llv after d Heq Hd Hr Hs) as [?|[Hle ?]]; try done.
      * apply Hkeep; [done|]. by eapply calm_app.
      * by left.
      * right. split; [|done]. rewrite count_cons.
        pose proof (b2z_mono _ _ (due_volume_more refs snapshotted new h1 x)). lia.
Qed.

Lemma wp_sweep_snapshot_spares x p h :
  wp (sweep_snapshot g x p) h (λ r h', ∀ p', r = Some p' →
    spares (Z.b2z (due_snapshot h' x)) (p_live p) (p_budget p) (p_live p') (p_budget p') h').
Proof.
  unfold sweep_snapshot, due_snapshot, is_held_up. wp_step; [apply wp_ret|wp_step; [apply wp_ret|]].
  - bool_simpl. change (GetFinalizers x) with (om_Finalizers (llvs_meta x)) in Heqb.
    rewrite (proj2 (contains_false _ _) Heqb). intros ? [= <-]. case_match; apply spares_refl.
  - change (GetDeletionTimestamp x) with (om_DeletionTimestamp (llvs_meta x)) in Heqb0.
    rewrite Heqb0, andb_false_r. intros ? [= <-]. apply spares_refl.
  - change (GetDeletionTimestamp x) with (om_DeletionTimestamp (llvs_meta x)) in Heqb0.
    rewrite Heqb0. apply negb_false_iff in Heqb.
    change (GetFinalizers x) with (om_Finalizers (llvs_meta x)) in Heqb. rewrite Heqb. simpl.
    apply wp_bind. eapply wp_mono; [apply wp_reclaimSnapshot_spares|].
    intros [[[[[st re] rq] live'] b']|] h' Hs; apply wp_ret; [|done].
    intros ? [= <-]. by eapply Hs.
Qed.

Lemma wp_sweep_snapshot_releases x d p h :
  deleting (k := OLLVS) x d → clear_of OLLVS x (p_live p) →
  wp (sweep_snapshot g x p) h (λ r h', ∀ p', r = Some p' →
    calm OLLVS x h' → waited_out d h' →
    released OLLVS x h' ∨ out_of_budget (p_budget p) (p_budget p')).
Proof.
  intros Hd Hc. unfold sweep_snapshot. wp_step.
  { exfalso. bool_simpl. destruct Hd as (_ & Hown & _). by apply Heqb. }
  wp_step. { exfalso. destruct Hd as (Hd & _). simpl in Hd. by rewrite Hd in Heqb0. }
  apply wp_bind. eapply wp_mono; [by apply (wp_reclaimSnapshot_releases _ d)|].
  intros [[[[[st re] rq] live'] b']|] h' Hrel; apply wp_ret; [|done].
  intros ? [= <-]. by eapply Hrel.
Qed.

Lemma wp_sweep_snapshots_releases snaps p h :
  wp (sweep_snapshots g snaps p) h (λ r h', ∀ p', r = Some p' →
    spares (count (due_snapshot h') snaps) (p_live p) (p_budget p) (p_live p') (p_budget p') h' ∧
    ∀ before x after d, snaps = (before ++ x :: after)%list →
      deleting (k := OLLVS) x d → clear_of OLLVS x (p_live p) →
      calm OLLVS x h' → waited_out d h' →
      released OLLVS x h' ∨
      ((b_remaining (p_budget p) ≤ count (due_snapshot h') before)%Z ∧
       b_exhausted (p_budget p') = true)).
Proof.
  revert p h. induction snaps as [|y snaps IH]; intros p h; cbn [sweep_snapshots].
  - apply wp_ret. intros ? [= <-]. split; [apply spares_refl|]. by intros [].
  - apply wp_bind. intros [p1|] h1 He1; [|by apply wp_ret].
    pose proof (wp_sweep_snapshot_spares _ _ _ _ _ He1 _ eq_refl) as Hs1.
    intros r h2 He2 p2 ->. pose proof He2 as [new ->]%exec_extends.
    destruct (IH _ _ _ _ He2 _ eq_refl) as [Hs2 Hrel]. rewrite count_cons.
    pose proof (b2z_mono _ _ (due_snapshot_more new h1 y)).
    split; [by eapply spares_trans, Hs2; eapply spares_weaken|].
    destruct Hs1 as (Hspare & Hex & Hkeep). destruct Hs2 as (_ & Hex2 & _).
    intros [|z before] x after d [= <- Heq] Hd Hcl Hcalm Hw.
    + destruct (wp_sweep_snapshot_releases y d p h Hd Hcl _ _ He1 _ eq_refl) as [?|[? ?]].
      * by eapply calm_app.
      * by eapply waited_out_app.
      * left. by apply released_app.
      * right. split; [done|]. auto.
    + destruct (Hrel before x after d Heq Hd) as [?|[Hle ?]]; try done.
      * apply Hkeep; [done|]. by eapply calm_app.
      * by left.
      * right. split; [|done]. rewrite count_cons. lia.
Qed.

(** ** The pass *)

Definition no_picture : liveConfirmation := mkLive 0 ∅ ∅ ∅.

Lemma clear_of_no_picture k (o : kobj k) : clear_of k o no_picture.
Proof. destruct k; simpl; [split; [done|]|]; set_solver. Qed.

(** What a pass that read these lists releases: everything that should be, but
    what comes after as many others, due like it, as the budget pays for; in
    that case the pass is to be run again within a second. *)
Definition lets_go (llvs : list LVMLogicalVolume) (snaps : list LVMLogicalVolumeSnapshot)
    (refs : gmap string pvReference) (next : Z) (h : hist) : Prop :=
  let again := (0 < next ≤ reclaimBacklogRequeue)%Z in
  let snapshotted := snapshottedVolumeNames snaps in
  (∀ before llv after d, llvs = (before ++ llv :: after)%list →
     deleting (k := OLLV) llv d → refs !! GetName llv = None → GetName llv ∉ snapshotted →
     calm OLLV llv h → waited_out d h →
     released OLLV llv h ∨
     again ∧ (gc_maxReclaims g ≤ count (due_snapshot h) snaps
                                 + count (due_volume refs snapshotted h) before)%Z) ∧
  (∀ before s after d, snaps = (before ++ s :: after)%list → deleting (k := OLLVS) s d →
     calm OLLVS s h → waited_out d h →
     released OLLVS s h ∨ again ∧ (gc_maxReclaims g ≤ count (due_snapshot h) before)%Z).

Lemma soonest_backlog next :
  (0 < soonest next reclaimBacklogRequeue ≤ reclaimBacklogRequeue)%Z.
Proof.
  unfold soonest, reclaimBacklogRequeue, Second. destruct (Z.leb_spec next 0); [lia|]. simpl. lia.
Qed.

Lemma wp_sweep_lists_lets_go lastSweep llvs snaps refs h :
  wp (sweep_lists g lastSweep llvs snaps refs) h (λ o h', so_err o = None →
    lets_go llvs snaps refs (so_next o) h').
Proof.
  unfold sweep_lists. cbv zeta. apply wp_bind. eapply wp_mono; [apply wp_sweep_snapshots_releases|].
  intros [ps|] h1 Hps; [|by apply wp_ret]. destruct (Hps _ eq_refl) as [(Hspare & _ & Hkeep) Hsnap].
  simpl in Hspare, Hkeep, Hsnap. apply wp_bind. eapply wp_mono.
  { apply wp_and; [apply wp_sweep_volumes_releases|apply wp_extends]. }
  intros pv h2 [[Hex Hvol] [n2 ->]]. simpl in Hex, Hvol. apply wp_bind.
  eapply wp_mono; [apply wp_extends|].
  intros [] h3 [n3 ->]. apply wp_call_bind. intros now. apply wp_ret. intros _.
  assert (Hagain : b_exhausted (p_budget pv) = true →
    (0 < (if b_exhausted (p_budget pv)
          then soonest (soonest (p_next pv) (p_next ps)) reclaimBacklogRequeue
          else soonest (p_next pv) (p_next ps)) ≤ reclaimBacklogRequeue)%Z).
  { intros ->. apply soonest_backlog. }
  change (ev Now now :: n3 ++ n2 ++ h1)%list with ((ev Now now :: n3) ++ (n2 ++ h1))%list.
  set (new := ev Now now :: n3). simpl so_next. split.
  - intros before llv after d Heq Hd Hr Hs Hc Hw.
    destruct (Hvol before llv after d Heq Hd Hr Hs) as [?|[Hle ?]].
    + apply (Hkeep OLLV); [apply (clear_of_no_picture OLLV)|by do 2 eapply calm_app].
    + by eapply calm_app.
    + by eapply waited_out_app.
    + left. by apply released_app.
    + right. split; [by apply Hagain|].
      pose proof (due_snapshot_app snaps n2 h1). pose proof (due_snapshot_app snaps new (n2 ++ h1)%list).
      pose proof (due_volume_app refs (snapshottedVolumeNames snaps) before new (n2 ++ h1)%list). lia.
  - intros before s after d Heq Hd Hc Hw.
    destruct (Hsnap before s after d Heq Hd) as [?|[Hle ?]].
    + apply (clear_of_no_picture OLLVS).
    + by do 2 eapply calm_app.
    + by do 2 eapply waited_out_app.
    + left. by do 2 apply released_app.
    + right. split; [by apply Hagain, Hex|].
      pose proof (due_snapshot_app before n2 h1). pose proof (due_snapshot_app before new (n2 ++ h1)%list).
      lia.
Qed.

(** C4: the garbage collector gets its work done.  A pass that does not fail
    releases every volume of the lists it read that is asked to be deleted,
    carries both finalizers, has no PersistentVolume and no snapshot, and is
    past its grace period at every reading of the clock, and every such
    snapshot, provided the API server answers about that object and confirms
    the picture.  A failure that concerns one object holds up no other.  The
    only thing that can is the budget: an object is left over when at least as
    many as the budget pays for come before it, the snapshots and then the
    volumes in the order of the lists, that are asked to be deleted, guarded by
    both, unused and past their grace period themselves; the pass is then to be
    run again within a second. *)
Theorem sweep_releases_what_it_should lastSweep :
  wp (sweep g lastSweep) [] (λ o h, so_err o = None →
    ∃ llvs snapshots pvs,
      ev ListLLV (inl llvs) ∈ h ∧ ev (ListLLVS Cached) (inl snapshots) ∈ h ∧
      ev (ListPV Cached) (inl pvs) ∈ h ∧
      lets_go llvs snapshots (referenced_by pvs) (so_next o) h).
Proof.
  unfold sweep. apply wp_bind. eapply wp_mono; [apply wp_any|].
  intros [wait|] h0 _; [by apply wp_ret|].
  apply wp_call_bind. intros [llvs|err]; [|by apply wp_ret].
  apply wp_call_bind. intros [snapshots|err]; [|by apply wp_ret].
  apply wp_bind, wp_call_bind. intros [pvs|err]; apply wp_ret; [|by apply wp_ret].
  eapply wp_mono; [apply wp_and; [apply wp_sweep_lists_lets_go|apply wp_extends]|].
  intros o h [Hl [new ->]] Herr. exists llvs, snapshots, pvs.
  split_and!; [set_solver..|by apply Hl].
Qed.
End progress.
