(* ===== verification/GCController.v ===== *)
(** * The garbage collector as a controller

    RunLVMLogicalVolumeGCController of lvm_logical_volume_gc.go: how the
    collector is built from the options of the controller, what is registered
    with the manager, which events wake it up, and the reconciler with its
    deferred observation.  The manager is controller-runtime: a registration is
    an operation it can refuse. *)

From S2P Require Import Prelude Effects Kube Monitoring Manager GC GCSweep.

Local Open Scope string_scope.

(** ** Events *)

(** The single work item. *)
Definition lvmLogicalVolumeSweepKey : request := ("", "lvm-logical-volume-sweep").

(** The map function of enqueueLVMLogicalVolumeSweep *)
Definition enqueueLVMLogicalVolumeSweep {T} (obj : T) : list request :=
  [lvmLogicalVolumeSweepKey].

Section controller.
Context `{ApiMachinery, RetryOnError, MapRange}.

(** The predicates of the three watches. *)
Definition llv_predicates : TypedFuncs LVMLogicalVolume :=
  mkFuncs (λ _, true) (λ _, true) (λ _, true) llvSweepInputChanged.

Definition pv_predicates : TypedFuncs PersistentVolume :=
  mkFuncs (λ _, true) (λ _, true) (λ _, true) (λ _ _, false).

Definition llvs_predicates : TypedFuncs LVMLogicalVolumeSnapshot :=
  mkFuncs (λ _, true) (λ _, true) (λ _, true) llvsSweepInputChanged.

(** ** Registration *)

(** The options the collector reads. *)
Record gc_options := mkGCOptions {
  opt_LLVSweepInterval : Z;
  opt_LLVOrphanGracePeriod : Z;
}.

Definition newGarbageCollector (cfg : gc_options) (metrics : Recorder) : llvGarbageCollector :=
  mkGC metrics (opt_LLVOrphanGracePeriod cfg) (Z.min minSweepInterval (opt_LLVSweepInterval cfg))
    maxReclaimsPerSweep.

Definition RunLVMLogicalVolumeGCController (cfg : gc_options) (metrics : Recorder)
    : prog setupSig (llvGarbageCollector + string) :=
  let gc := newGarbageCollector cfg metrics in
  set_up (NewController LVMLogicalVolumeGCCtrlName) (
  set_up (Watch WatchLLV) (
  set_up (Watch WatchPV) (
  set_up (Watch WatchLLVS) (
  set_up AddRunnable (
  mret (inl gc)))))).

(** ** The reconciler *)

Context (g : llvGarbageCollector).

(** The reconciler with its deferred observation; a panic is observed with
    the zero result and no error, and lets lastSweep as it was. *)
Definition Reconcile (sweepInterval lastSweep : Z)
    : prog gcSig (Result * option sweep_error * Z) :=
  start ← gc_call Now;
  r ← reconcile g sweepInterval lastSweep;
  let '(res, err, observe, lastSweep) := r in
  if observe : bool
  then
    now ← gc_call Now;
    _ ← emit (ObserveReconcile (gc_metrics g) LVMLogicalVolumeGCCtrlName
                (time_Sub now start) res
                match err with Some NilDereference => None | _ => err end);
    mret (res, err, lastSweep)
  else mret (res, err, lastSweep).

(** The runnable that sweeps once at start-up; a failure is logged. *)
Definition initial_sweep (lastSweep : Z) : prog gcSig Z :=
  o ← sweep g lastSweep;
  mret (so_lastSweep o).

(** What runs over the life of the process, one at a time: the runnable and
    the work items. *)
Inductive wakeup := AtStart | Item.

Definition wake (sweepInterval : Z) (w : wakeup) (lastSweep : Z) : prog gcSig Z :=
  match w with
  | AtStart => initial_sweep lastSweep
  | Item => r ← Reconcile sweepInterval lastSweep; mret (snd r)
  end.

(** lastSweep after each of them, the latest first. *)
Fixpoint wakes (sweepInterval : Z) (ws : list wakeup) (lastSweeps : list Z)
    : prog gcSig (list Z) :=
  match ws with
  | [] => mret lastSweeps
  | w :: ws =>
      lastSweep ← wake sweepInterval w (default 0%Z (head lastSweeps));
      wakes sweepInterval ws (lastSweep :: lastSweeps)
  end.
End controller.
