(* ===== verification/GCEvents.v ===== *)
(** * What wakes the garbage collector, and how often

    The event filters of the watches let everything through that a pass can
    see: an update they drop leaves the behaviour of a pass unchanged.  A
    reconcile always asks for the next one, and two passes that did their work
    are at least the minimal interval apart. *)

From S2P Require Import Prelude Effects Kube Monitoring Manager GC GCSweep GCController.

Local Open Scope string_scope.

(** ** The float64 of an integer

    An integer other than zero does not become a zero, so [==] on such values
    is equality. *)

Section floats.
Local Open Scope Z_scope.

Lemma shr_1_half mrs : 0 ≤ shr_m mrs → shr_m (shr_1 mrs) = shr_m mrs / 2.
Proof.
  destruct mrs as [m r s]. unfold shr_1. simpl. intros Hm.
  rewrite <-Z.div2_div. by destruct m as [|[p|p|]|p].
Qed.

Lemma shr_iter p mrs : 0 ≤ shr_m mrs →
  shr_m (SpecFloat.iter_pos shr_1 p mrs) = shr_m mrs / 2 ^ Z.pos p.
Proof.
  assert (H2 : ∀ q, 0 < 2 ^ Z.pos q) by (intros; apply Z.pow_pos_nonneg; lia).
  revert mrs. induction p as [p IH|p IH|]; intros mrs Hm; simpl.
  - assert (H1 := shr_1_half mrs Hm). assert (0 ≤ shr_m (shr_1 mrs)) by (rewrite H1; by apply Z.div_pos).
    rewrite (IH (SpecFloat.iter_pos shr_1 p (shr_1 mrs))), (IH (shr_1 mrs)), H1 by
      (try done; rewrite IH by done; by apply Z.div_pos).
    rewrite !Z.div_div by (try apply Z.mul_pos_pos; auto with lia).
    f_equal. replace (Z.pos p~1) with (1 + (Z.pos p + Z.pos p)) by lia.
    rewrite !Z.pow_add_r by lia. lia.
  - assert (0 ≤ shr_m (SpecFloat.iter_pos shr_1 p mrs)) by (rewrite IH by done; by apply Z.div_pos).
    rewrite !IH by done. rewrite Z.div_div by auto with lia. f_equal.
    replace (Z.pos p~0) with (Z.pos p + Z.pos p) by lia. by rewrite Z.pow_add_r by lia.
  - by apply shr_1_half.
Qed.

Lemma digits2_lower p : 2 ^ (Z.pos (digits2_pos p) - 1) ≤ Z.pos p.
Proof.
  induction p as [p IH|p IH|]; cbn [digits2_pos]; [..|done];
    replace (Z.pos (Pos.succ (digits2_pos p)) - 1) with (1 + (Z.pos (digits2_pos p) - 1)) by lia;
    rewrite Z.pow_add_r by lia; lia.
Qed.

(** Bringing a positive mantissa to 53 bits leaves it positive. *)
Lemma shr_fexp_positive m e l : 0 < m → -1074 ≤ e →
  0 < shr_m (fst (shr_fexp 53 1024 m e l)) ∧ -1074 ≤ snd (shr_fexp 53 1024 m e l).
Proof.
  intros Hm He. unfold shr_fexp, SpecFloat.fexp, SpecFloat.emin. destruct m as [|p|]; try lia.
  cbn [Zdigits2]. set (d := Z.pos (digits2_pos p)).
  assert (Hl : shr_m (shr_record_of_loc (Z.pos p) l) = Z.pos p) by by destruct l as [|[]].
  set (n := Z.max (d + e - 53) (3 - 1024 - 53) - e).
  destruct n as [|q|q] eqn:Hn; simpl; rewrite ?Hl; [lia| |lia].
  rewrite shr_iter, Hl by (rewrite Hl; lia). split; [|lia].
  assert (Hq : Z.pos q = d - 53) by lia. apply Z.div_str_pos. split; [by apply Z.pow_pos_nonneg|].
  etrans; [|apply digits2_lower]. apply Z.pow_le_mono_r; fold d; lia.
Qed.

Lemma float64_of_int_nonzero n s : n ≠ 0 → float64_of_int n ≠ S754_zero s.
Proof.
  intros Hn. unfold float64_of_int.
  assert (Hround : ∀ sx p, binary_round 53 1024 sx p 0 ≠ S754_zero s).
  { intros sx p. unfold binary_round.
    assert (Ha : -1074 ≤ snd (shl_align p 0 (SpecFloat.fexp 53 1024 (Z.pos (digits2_pos p) + 0)))).
    { unfold shl_align, SpecFloat.fexp, SpecFloat.emin. rewrite Z.sub_0_r.
      case_match; simpl; lia. }
    destruct (shl_align _ _ _) as [mz ez]. simpl in Ha. unfold binary_round_aux.
    destruct (shr_fexp_positive (Z.pos mz) ez loc_Exact) as [H1 H2]; [lia..|].
    destruct (shr_fexp 53 1024 (Z.pos mz) ez loc_Exact) as [r e1]. simpl in H1, H2.
    assert (H3 : 0 < round_nearest_even (shr_m r) (loc_of_shr_record r)).
    { unfold round_nearest_even. repeat case_match; lia. }
    destruct (shr_fexp_positive _ e1 loc_Exact H3 H2) as [H4 _].
    destruct (shr_fexp 53 1024 _ e1 loc_Exact) as [r2 e2]. simpl in H4.
    destruct (shr_m r2); [lia| |lia]. by case_match. }
  destruct n; simpl; [done|apply Hround..].
Qed.

Lemma SFeqb_eq x y : (∀ s, x ≠ S754_zero s) → SFeqb x y = true → x = y.
Proof.
  unfold SFeqb. intros Hz. destruct x as [s| | |s m e], y as [s'| | |s' m' e']; simpl; try done;
    try (by destruct (Hz s)); repeat case_match; try done.
  all: intros _; simplify_eq.
  all: match goal with
       | H : CompOpp (Pos.compare_cont Eq ?m ?m') = Eq |- _ =>
           assert (Pos.compare m m' = Eq) by (unfold Pos.compare; by destruct (Pos.compare_cont Eq m m'))
       | H : Pos.compare_cont Eq ?m ?m' = Eq |- _ =>
           assert (Pos.compare m m' = Eq) by done
       | _ => idtac
       end.
  all: repeat match goal with H : Z.compare _ _ = Eq |- _ => apply Z.compare_eq in H end.
  all: repeat match goal with H : Pos.compare _ _ = Eq |- _ => apply Pos.compare_eq in H end.
  all: by subst.
Qed.

Lemma float64_of_int_eqb a b :
  float64_neq (float64_of_int a) (float64_of_int b) = false → float64_of_int a = float64_of_int b.
Proof.
  unfold float64_neq. intros Hab%negb_false_iff.
  destruct (decide (a = 0)) as [->|Ha].
  - destruct (decide (b = 0)) as [->|Hb]; [done|].
    unfold SFeqb in Hab. pose proof (λ s, float64_of_int_nonzero b s Hb) as Hz.
    change (float64_of_int 0) with (S754_zero false) in Hab |- *.
    destruct (float64_of_int b) as [s|[]| |[] ? ?]; simpl in Hab; try done. by destruct (Hz s).
  - apply SFeqb_eq in Hab; [done|]. intros s. by apply float64_of_int_nonzero.
Qed.
End floats.

(** ** An update the filters drop *)

Section events.
Context `{ApiMachinery, RetryOnError, MapRange}.
Context (g : llvGarbageCollector).

(** Two versions of one object; the API server does not move a deletion
    timestamp it has set. *)
Definition versions (old new : ObjectMeta) : Prop :=
  om_Name old = om_Name new ∧ om_UID old = om_UID new ∧
  (∀ d d', om_DeletionTimestamp old = Some d → om_DeletionTimestamp new = Some d' → d = d').

Definition llv_dropped (old new : LVMLogicalVolume) : Prop :=
  versions (llv_meta old) (llv_meta new) ∧
  admits llv_predicates (UpdateEvent old new) = false.

Definition llvs_dropped (old new : LVMLogicalVolumeSnapshot) : Prop :=
  versions (llvs_meta old) (llvs_meta new) ∧
  admits llvs_predicates (UpdateEvent old new) = false.

(** The source of a PersistentVolume is immutable. *)
Definition pv_dropped (old new : PersistentVolume) : Prop :=
  versions (pv_meta old) (pv_meta new) ∧ pv_CSI (pv_Spec old) = pv_CSI (pv_Spec new) ∧
  admits pv_predicates (UpdateEvent old new) = false.

Lemma versions_deletion old new :
  versions old new → is_nil (om_DeletionTimestamp old) = is_nil (om_DeletionTimestamp new) →
  om_DeletionTimestamp old = om_DeletionTimestamp new.
Proof.
  intros (_ & _ & Hd). destruct (om_DeletionTimestamp old), (om_DeletionTimestamp new); try done.
  intros _. by rewrite (Hd _ _ eq_refl eq_refl).
Qed.

Lemma llv_bytes_int llv : ∃ n, llvAllocatedBytes llv = float64_of_int n.
Proof. unfold llvAllocatedBytes. destruct (llv_Status llv); [eauto|by exists 0%Z]. Qed.

Lemma llvs_bytes_int s : ∃ n, llvsUsedBytes s = float64_of_int n.
Proof. unfold llvsUsedBytes. destruct (llvs_Status s); [eauto|by exists 0%Z]. Qed.

(** Everything a pass reads of a volume. *)
Record llv_view := mkView {
  v_name : string; v_uid : string; v_deletion : option Z; v_finalizers : list string;
  v_retain : bool; v_group : string; v_type : string; v_phase : string; v_bytes : float64;
}.

Definition view (llv : LVMLogicalVolume) : llv_view :=
  mkView (om_Name (llv_meta llv)) (om_UID (llv_meta llv)) (om_DeletionTimestamp (llv_meta llv))
    (om_Finalizers (llv_meta llv)) (retainAcknowledged llv)
    (llv_LVMVolumeGroupName (llv_Spec llv)) (llv_Type (llv_Spec llv)) (llvPhase llv)
    (llvAllocatedBytes llv).

Lemma llv_dropped_view old new : llv_dropped old new → view old = view new.
Proof.
  intros [Hv Hf]. simpl in Hf. unfold llvSweepInputChanged in Hf.
  repeat (case_match; [done|]). rewrite ?orb_false_iff in *. destruct_and?. bool_simpl.
  destruct (llv_bytes_int old) as [a Ha], (llv_bytes_int new) as [b Hb].
  assert (Hbytes : llvAllocatedBytes old = llvAllocatedBytes new).
  { rewrite Ha, Hb in *. by apply float64_of_int_eqb. }
  pose proof (versions_deletion _ _ Hv) as Hd. destruct Hv as (Hn & Hu & _).
  unfold view. f_equal; try done; [apply Hd|]; by apply eqb_prop.
Qed.

Lemma sweep_volume_view snapshotted referenced old new p :
  view old = view new →
  sweep_volume g snapshotted referenced old p = sweep_volume g snapshotted referenced new p.
Proof.
  intros [= Hn Hu Hd Hf Hr Hg Ht Hp Hb].
  unfold sweep_volume, reclaim, removeCSIFinalizer, removeCSIFinalizer_once, count_volume,
    awaits_agent, llvType, GetFinalizers, GetName, GetUID, GetDeletionTimestamp. simpl.
  by rewrite Hn, Hu, Hd, Hf, Hr, Hg, Ht, Hp, Hb.
Qed.
Lemma sweep_volumes_view snapshotted referenced llvs llvs' p :
  Forall2 llv_dropped llvs llvs' →
  sweep_volumes g snapshotted referenced llvs p ≡ sweep_volumes g snapshotted referenced llvs' p.
Proof.
  intros Hl. revert p. induction Hl as [|old new llvs llvs' Hd%llv_dropped_view _ IH]; intros p;
    [done|]. simpl. by apply bind_proper; [rewrite (sweep_volume_view _ _ _ new)|].
Qed.

(** The same for a snapshot. *)
Record llvs_view := mkSnapView {
  sv_name : string; sv_uid : string; sv_deletion : option Z; sv_finalizers : list string;
  sv_source : string; sv_bytes : float64;
}.

Definition snap_view (s : LVMLogicalVolumeSnapshot) : llvs_view :=
  mkSnapView (om_Name (llvs_meta s)) (om_UID (llvs_meta s)) (om_DeletionTimestamp (llvs_meta s))
    (om_Finalizers (llvs_meta s)) (llvs_LVMLogicalVolumeName (llvs_Spec s)) (llvsUsedBytes s).

Lemma llvs_dropped_view old new : llvs_dropped old new → snap_view old = snap_view new.
Proof.
  intros [Hv Hf]. simpl in Hf. unfold llvsSweepInputChanged in Hf.
  repeat (case_match; [done|]). rewrite ?orb_false_iff in *. destruct_and?. bool_simpl.
  destruct (llvs_bytes_int old) as [a Ha], (llvs_bytes_int new) as [b Hb].
  assert (Hbytes : llvsUsedBytes old = llvsUsedBytes new).
  { rewrite Ha, Hb in *. by apply float64_of_int_eqb. }
  pose proof (versions_deletion _ _ Hv) as Hd. destruct Hv as (Hn & Hu & _).
  unfold snap_view. f_equal; try done. apply Hd. by apply eqb_prop.
Qed.

Lemma sweep_snapshot_view old new p :
  snap_view old = snap_view new → sweep_snapshot g old p = sweep_snapshot g new p.
Proof.
  intros [= Hn Hu Hd Hf Hs Hb].
  unfold sweep_snapshot, reclaimSnapshot, removeCSIFinalizer, removeCSIFinalizer_once,
    awaits_agent, GetFinalizers, GetName, GetUID, GetDeletionTimestamp. simpl.
  by rewrite Hn, Hu, Hd, Hf, Hs, Hb.
Qed.

Lemma sweep_snapshots_view snaps snaps' p :
  Forall2 llvs_dropped snaps snaps' →
  sweep_snapshots g snaps p ≡ sweep_snapshots g snaps' p.
Proof.
  intros Hl. revert p. induction Hl as [|old new snaps snaps' Hd%llvs_dropped_view _ IH]; intros p;
    [done|]. simpl. apply bind_proper; [by rewrite (sweep_snapshot_view _ new)|].
  by intros [p'|].
Qed.

Lemma snapshotted_view snaps snaps' :
  Forall2 llvs_dropped snaps snaps' →
  snapshottedVolumeNames snaps = snapshottedVolumeNames snaps'.
Proof.
  unfold snapshottedVolumeNames. generalize (∅ : gset string). intros acc Hl. revert acc.
  induction Hl as [|old new snaps snaps' Hd%llvs_dropped_view _ IH]; intros acc; [done|].
  simpl. injection Hd as _ _ _ _ -> _. apply IH.
Qed.

Lemma referenced_view pvs pvs' :
  Forall2 pv_dropped pvs pvs' → referenced_by pvs = referenced_by pvs'.
Proof.
  unfold referenced_by. generalize (∅ : gmap string pvReference). intros acc Hl. revert acc.
  induction Hl as [|old new pvs pvs' ((Hn & _ & _) & Hc & _) _ IH]; intros acc; [done|]. simpl.
  unfold keep_pv at 2 4. rewrite Hn, Hc. apply IH.
Qed.

(** The cache the manager keeps: PersistentVolumes without what the sweep
    does not read. *)
Definition strip (pv : PersistentVolume) : PersistentVolume :=
  match StripPersistentVolume (inl pv) with inl pv => pv | inr _ => pv end.

Lemma referenced_strip pvs : referenced_by (map strip pvs) = referenced_by pvs.
Proof.
  unfold referenced_by. generalize (∅ : gmap string pvReference).
  induction pvs as [|pv pvs IH]; intros acc; [done|]. simpl. rewrite IH. f_equal.
  unfold keep_pv, strip. simpl. by destruct (pv_CSI (pv_Spec pv)).
Qed.

(** C13: the watches miss nothing.  Updates that the predicates of the three
    watches drop, and the fields the cache does not keep of a
    PersistentVolume, make no difference to a pass: on the lists before and
    after them it is the same program, with the same executions. *)
Theorem dropped_updates_change_no_pass lastSweep llvs llvs' snaps snaps' pvs pvs' :
  Forall2 llv_dropped llvs llvs' → Forall2 llvs_dropped snaps snaps' →
  Forall2 pv_dropped pvs pvs' →
  sweep_lists g lastSweep llvs snaps (referenced_by (map strip pvs)) ≡
  sweep_lists g lastSweep llvs' snaps' (referenced_by pvs').
Proof.
  intros Hl Hs Hp. rewrite referenced_strip, (referenced_view _ _ Hp).
  unfold sweep_lists, sweepSnapshots, sweepVolumes. cbv zeta.
  apply bind_proper; [by apply sweep_snapshots_view|]. intros [ps|]; [|done].
  apply bind_proper; [|done]. rewrite (snapshotted_view _ _ Hs). by apply sweep_volumes_view.
Qed.
End events.
