(* ===== verification/GCPace.v ===== *)
(** * How often the garbage collector runs

    A reconcile that does not fail always asks for the next one, within the
    sweep interval; and however often the collector is woken up, two passes
    that did their work are at least the minimal interval apart. *)

From S2P Require Import Prelude Effects Kube Monitoring GC GCSweep GCSafety GCLifecycle.
From S2P Require Import GCController.

Local Open Scope string_scope.

Section pace.
Context `{ApiMachinery, RetryOnError, MapRange}.

Abbreviation hist := (history gcSig).
Abbreviation ev := (Ev (S := gcSig)).

Context (g : llvGarbageCollector).

(** ** What is said of a history *)

(** The list a pass starts with, and the one that shows that the pass did its
    work: all it starts from was read. *)
Definition starts_pass (e : event gcSig) : Prop :=
  match ev_op e with ListLLV => True | _ => False end.

Definition did_work (e : event gcSig) : Prop :=
  match ev_op e as o return gc_res o → Prop with
  | ListPV Cached => λ r, match r with inl _ => True | inr _ => False end
  | _ => λ _, False
  end (ev_res e).

(** Between the two the clock was read twice, the minimal interval apart: at
    the end of the one pass, and before the other. *)
Definition gap (between : hist) : Prop :=
  ∃ a t1 b t0 c, between = (a ++ ev Now t1 :: b ++ ev Now t0 :: c)%list ∧
    (gc_minInterval g ≤ time_Sub t1 t0)%Z.

Definition paced (e : event gcSig) (past : hist) : Prop :=
  starts_pass e → ∀ between w before,
    did_work w → past = (between ++ w :: before)%list → gap between.

(** ** One pass *)

Definition idle (e : event gcSig) : Prop := ¬ starts_pass e ∧ ¬ did_work e.

(** What comes before the first list: nothing when no pass has been stamped,
    and else a reading of the clock that is late enough. *)
Definition opens (lastSweep : Z) (opening : hist) : Prop :=
  lastSweep = 0%Z ∧ opening = [] ∨
  ∃ t, opening = [ev Now t] ∧ (gc_minInterval g ≤ time_Sub t lastSweep)%Z.

(** A pass lists once, after its opening, or not at all; and it did its work
    and ended with the stamp, or it did not and left the last one. *)
Definition one_pass (lastSweep lastSweep' : Z) (new : hist) : Prop :=
  (Forall idle new ∧ lastSweep' = lastSweep) ∨
  ∃ rest r opening, new = (rest ++ ev ListLLV r :: opening)%list ∧ opens lastSweep opening ∧
    Forall (λ e, ¬ starts_pass e) rest ∧
    (lastSweep' = lastSweep ∧ Forall (λ e, ¬ did_work e) rest ∨
     ∃ rest', rest = ev Now lastSweep' :: rest').

Lemma silent_starts_nothing e : ¬ from_cache e → ¬ starts_pass e.
Proof. unfold from_cache, starts_pass. destruct (ev_op e); tauto. Qed.

Ltac idle_events := repeat (apply Forall_cons; split; [split; [by intros []|by intros []]|]); by apply Forall_nil.

Lemma wp_sweep_lists_stamps lastSweep llvs snaps refs h :
  wp (sweep_lists g lastSweep llvs snaps refs) h (λ o h',
    so_err o = None → ∃ past, h' = ev Now (so_lastSweep o) :: past).
Proof.
  unfold sweep_lists. cbv zeta.
  apply wp_bind. eapply wp_mono; [apply wp_extends|]. intros [ps|] h1 _; [|by apply wp_ret].
  apply wp_bind. eapply wp_mono; [apply wp_extends|]. intros pv h2 _.
  apply wp_bind. eapply wp_mono; [apply wp_extends|]. intros [] h3 _.
  apply wp_call_bind. intros now. apply wp_ret. intros _. by eexists.
Qed.

Lemma wp_sweep_one_pass lastSweep :
  wp (sweep g lastSweep) [] (λ o h, one_pass lastSweep (so_lastSweep o) h).
Proof.
  unfold sweep. apply wp_bind.
  apply (wp_mono _ _ (λ r h, always (patch_justified g) h ∧ match r with
    | Some _ => Forall idle h
    | None => opens lastSweep h
    end)).
  { unfold time_IsZero. destruct (Z.eqb_spec lastSweep 0) as [->|Hne].
    - apply wp_ret. split; [done|by left].
    - apply wp_call_bind. intros now. apply wp_ret. cbv zeta. split; [done|].
      destruct (Z.ltb_spec (time_Sub now lastSweep) (gc_minInterval g)).
      + idle_events.
      + right. by exists now. }
  intros [wait|] opening [HJ Hh]; [apply wp_ret; by left|].
  apply wp_call_bind. intros r.
  assert (Hfail : ∀ rest, Forall (λ e, ¬ starts_pass e ∧ ¬ did_work e) rest →
    one_pass lastSweep lastSweep (rest ++ ev ListLLV r :: opening)%list).
  { intros rest Hr. right. exists rest, r, opening. split_and!; [done|done| |left; split; [done|]].
    all: eapply Forall_impl; [exact Hr|]; by intros e []. }
  destruct r as [llvs|err]; [|apply wp_ret, (Hfail []), Forall_nil; done].
  apply wp_call_bind. intros [snaps|err].
  2:{ apply wp_ret, (Hfail [_]). idle_events. }
  apply wp_bind, wp_call_bind. intros [pvs|err]; apply wp_ret.
  2:{ apply wp_ret, (Hfail [_; _]). idle_events. }
  eapply wp_mono.
  { apply wp_and; [apply (wp_sweep_lists g); [done|set_solver..]|].
    apply wp_and; [apply wp_sweep_lists_stamps|apply (sweep_lists_silent g)]. }
  intros o h' ([_ Herr] & Hst & new & -> & Hnew). destruct (Hst Herr) as [past Hpast].
  right. exists (new ++ [ev (ListPV Cached) (inl pvs); ev (ListLLVS Cached) (inl snaps)])%list,
    (inl llvs), opening. split_and!; [by rewrite <-app_assoc|done| |right].
  - apply Forall_app. split; [|by repeat constructor; intros []].
    eapply Forall_impl; [done|]. apply silent_starts_nothing.
  - destruct new as [|e new]; [discriminate Hpast|]. simpl in Hpast. injection Hpast as -> _.
    by eexists.
Qed.

(** ** All of them *)

(** No pass did its work after the last stamp; none at all where there is none. *)
Definition stamped (lastSweep : Z) (h : hist) : Prop :=
  if time_IsZero lastSweep then Forall (λ e, ¬ did_work e) h
  else ∃ after before, h = (after ++ ev Now lastSweep :: before)%list ∧
         Forall (λ e, ¬ did_work e) after.

(** The clock never reads the zero time, which the source takes for no stamp. *)
Definition clock_set (h : hist) : Prop := ev Now 0%Z ∉ h.

Definition keeps_pace (lastSweep : Z) (h : hist) : Prop :=
  clock_set h → always paced h ∧ stamped lastSweep h.

Lemma clock_set_app new h : clock_set (new ++ h)%list → clock_set h.
Proof. unfold clock_set. rewrite elem_of_app. tauto. Qed.

Lemma stamped_more lastSweep new h :
  Forall (λ e, ¬ did_work e) new → stamped lastSweep h → stamped lastSweep (new ++ h)%list.
Proof.
  unfold stamped. intros Hn. destruct (time_IsZero lastSweep); [by intros ?; apply Forall_app|].
  intros (a & b & -> & Ha). exists (new ++ a)%list, b. rewrite <-app_assoc.
  split; [done|]. by apply Forall_app.
Qed.

Lemma idle_keeps_pace lastSweep new h :
  Forall idle new → keeps_pace lastSweep h → keeps_pace lastSweep (new ++ h)%list.
Proof.
  intros Hn Hp Hc. destruct (Hp (clock_set_app _ _ Hc)) as [Ha Hs]. split.
  - apply (always_emitted idle); [|done|done]. by intros e l [He _] Hst.
  - apply stamped_more; [|done]. eapply Forall_impl; [exact Hn|]. by intros e [].
Qed.

(** A pass that did its work is not where none is. *)
Lemma worked_before l1 l2 between w before :
  did_work w → (l1 ++ l2)%list = (between ++ w :: before)%list →
  Forall (λ e, ¬ did_work e) l1 →
  ∃ b, between = (l1 ++ b)%list ∧ l2 = (b ++ w :: before)%list.
Proof.
  intros Hw Hl Hn. apply app_eq_inv in Hl as [(l & -> & Hl)|(l & -> & ->)]; [|by exists l].
  destruct l as [|e l]; simpl in Hl; [by exists []; rewrite ?app_nil_r|].
  injection Hl as <- _. apply Forall_app in Hn as [_ [Hn _]%Forall_cons]. by destruct Hn.
Qed.

(** The first list of a pass is far from the passes before it. *)
Lemma opening_paced lastSweep opening r h :
  opens lastSweep opening → stamped lastSweep h → paced (ev ListLLV r) (opening ++ h)%list.
Proof.
  unfold stamped. intros Ho Hs _ between w before Hw Heq.
  assert (Hnow : ∀ t, ¬ did_work (ev Now t)) by intros t [].
  destruct Ho as [[-> ->]|(t & -> & Hge)].
  - simpl in *. subst h. apply Forall_app in Hs as [_ [Hs _]%Forall_cons]. by destruct Hs.
  - destruct (worked_before [ev Now t] h between w before) as (b1 & -> & ->);
      [done|done|by repeat constructor|]. clear Heq.
    unfold time_IsZero in Hs. destruct (Z.eqb_spec lastSweep 0) as [_|_].
    { apply Forall_app in Hs as [_ [Hs _]%Forall_cons]. by destruct Hs. }
    destruct Hs as (a & b & Hab & Ha).
    destruct (worked_before (a ++ [ev Now lastSweep])%list b b1 w before) as (b2 & -> & ->).
    { done. }
    { rewrite <-app_assoc. symmetry. exact Hab. }
    { apply Forall_app. split; [done|]. by repeat constructor. }
    exists [], t, a, lastSweep, b2. by rewrite <-app_assoc.
Qed.

Lemma one_pass_keeps_pace lastSweep lastSweep' new h :
  one_pass lastSweep lastSweep' new → keeps_pace lastSweep h →
  keeps_pace lastSweep' (new ++ h)%list.
Proof.
  intros [[Hi ->]|(rest & r & opening & -> & Ho & Hrest & Hend)] Hp; [by apply idle_keeps_pace|].
  intros Hc. rewrite <-app_assoc in *. simpl in *.
  assert (Hidle : Forall idle opening).
  { destruct Ho as [[_ ->]|(t & -> & _)]; idle_events. }
  destruct (idle_keeps_pace lastSweep opening h Hidle Hp) as [Ha Hs].
  { by eapply (clock_set_app [_]), clock_set_app. }
  destruct (Hp (clock_set_app _ _ (clock_set_app [_] _ (clock_set_app _ _ Hc)))) as [_ Hs0].
  split.
  - apply (always_emitted (λ e, ¬ starts_pass e)); [by intros e l He ?|done|]. split; [|done].
    by eapply opening_paced.
  - destruct Hend as [[-> Hr]|[rest' ->]].
    + apply stamped_more; [done|]. apply (stamped_more _ [_]); [|done]. apply Forall_singleton. by intros [].
    + unfold stamped, time_IsZero. destruct (Z.eqb_spec lastSweep' 0) as [->|_].
      { destruct Hc. by left. }
      by eexists [], _.
Qed.

(** A sweep anywhere in the life of the process. *)
Lemma wp_sweep_keeps_pace lastSweep h :
  keeps_pace lastSweep h → wp (sweep g lastSweep) h (λ o h', keeps_pace (so_lastSweep o) h').
Proof.
  intros Hp o h' He. destruct (exec_extends _ _ _ _ He) as [new ->].
  apply (one_pass_keeps_pace lastSweep); [|done]. apply wp_sweep_one_pass.
  rewrite <-(app_nil_r new). by eapply exec_frame.
Qed.

Lemma wp_wake_keeps_pace sweepInterval w lastSweep h :
  keeps_pace lastSweep h → wp (wake g sweepInterval w lastSweep) h keeps_pace.
Proof.
  intros Hp. destruct w; cbn [wake]; [unfold initial_sweep|].
  - apply wp_bind. eapply wp_mono; [by apply wp_sweep_keeps_pace|]. intros o h' Ho. by apply wp_ret.
  - apply wp_bind. unfold Reconcile. apply wp_call_bind. intros start. apply wp_bind, wp_bind.
    eapply wp_mono; [apply wp_sweep_keeps_pace, (idle_keeps_pace _ [_]); [idle_events|done]|].
    intros o h1 Ho. destruct (so_err o) as [[]|]; apply wp_ret; [by apply wp_ret, wp_ret|..].
    all: apply wp_call_bind; intros now; apply wp_bind, wp_emit; intros new Hnew;
      apply wp_ret, wp_ret; simpl; apply (idle_keeps_pace _ new);
      [|apply (idle_keeps_pace _ [_]); [idle_events|done]].
    all: eapply Forall_impl; [exact Hnew|]; intros [[] ?] Hm; try done; split; by intros [].
Qed.

Lemma wp_wakes_keep_pace sweepInterval ws lastSweeps h :
  keeps_pace (default 0%Z (head lastSweeps)) h →
  wp (wakes g sweepInterval ws lastSweeps) h (λ _ h', clock_set h' → always paced h').
Proof.
  revert lastSweeps h. induction ws as [|w ws IH]; intros l h Hl; simpl;
    [apply wp_ret; by intros []%Hl|].
  apply wp_bind. eapply wp_mono; [by apply wp_wake_keeps_pace|]. intros last' h' Hp. by apply IH.
Qed.
End pace.

Section controller.
Context `{ApiMachinery, RetryOnError, MapRange}.
Context (cfg : gc_options) (metrics : Recorder).

Abbreviation g := (newGarbageCollector cfg metrics).
Abbreviation ev := (Ev (S := gcSig)).

(** C16: passes are paced.  However often the collector is woken up, at start
    and by work items, and whatever fails on the way, between a pass that did
    its work and the first list of any later pass the clock was read twice, the
    second reading at least the minimal interval (five seconds, or the
    configured sweep interval where that is shorter) after the first.  The clock
    is only relied on not to show the zero time. *)
Theorem passes_are_paced ws :
  wp (wakes g (opt_LLVSweepInterval cfg) ws []) [] (λ _ h,
    clock_set h → always (paced g) h).
Proof. apply wp_wakes_keep_pace. intros _. split; [done|]. apply Forall_nil; done. Qed.

(** The outcome of sweep is consistent: a throttled pass waits for what is
    left of the minimal interval. *)
Lemma wp_sweep_throttled lastSweep h :
  (0 < opt_LLVSweepInterval cfg)%Z →
  wp (sweep g lastSweep) h (λ o h', so_err o = Some ErrSweepThrottled →
    (∀ t, ev Now t ∈ h' → (lastSweep ≤ t)%Z) →
    (0 < so_next o ≤ gc_minInterval g)%Z).
Proof.
  intros Hi. unfold sweep. apply wp_bind.
  apply (wp_mono _ _ (λ r h', ∀ w, r = Some w →
    (∀ t, ev Now t ∈ h' → (lastSweep ≤ t)%Z) → (0 < w ≤ gc_minInterval g)%Z)).
  { wp_step; [by apply wp_ret|]. apply wp_call_bind. intros now. apply wp_ret. cbv zeta.
    case_match eqn:Hlt; [|done]. apply Z.ltb_lt in Hlt. intros w [= <-] Ht.
    assert (lastSweep ≤ now)%Z by (apply Ht; apply elem_of_cons; by left).
    unfold newGarbageCollector, minSweepInterval, Second in *. simpl in *.
    rewrite i64_id; unfold time_Sub, in_int64, int64_min, int64_max in *; lia. }
  intros [w|] h1 Hw; [apply wp_ret; simpl; intros _; by apply Hw|].
  apply wp_call_bind. intros [llvs|err]; [|by apply wp_ret].
  apply wp_call_bind. intros [snaps|err]; [|by apply wp_ret].
  apply wp_bind, wp_call_bind. intros [pvs|err]; apply wp_ret; [|by apply wp_ret].
  unfold sweep_lists. cbv zeta.
  apply wp_bind. eapply wp_mono; [apply wp_extends|]. intros [ps|] h2 _; [|by apply wp_ret].
  apply wp_bind. eapply wp_mono; [apply wp_extends|]. intros pv h3 _.
  apply wp_bind. eapply wp_mono; [apply wp_extends|]. intros [] h4 _.
  apply wp_call_bind. intros now. by apply wp_ret.
Qed.

(** The collector keeps itself going.  A reconcile that returns no error,
    the work queue retries the others, asks to be run again after a positive
    delay that does not exceed the sweep interval, throttled or not, as long as
    the clock is not behind the last pass. *)
Lemma reconcile_asks_for_the_next lastSweep :
  (0 < opt_LLVSweepInterval cfg)%Z →
  wp (Reconcile g (opt_LLVSweepInterval cfg) lastSweep) [] (λ '(res, err, _) h,
    (∀ t, ev Now t ∈ h → (lastSweep ≤ t)%Z) →
    err = None → (0 < RequeueAfter res ≤ opt_LLVSweepInterval cfg)%Z).
Proof.
  intros Hi. unfold Reconcile. apply wp_call_bind. intros start. apply wp_bind.
  unfold reconcile. apply wp_bind. eapply wp_mono; [by apply wp_sweep_throttled|].
  intros o h1 Ho.
  destruct (so_err o) as [[]|] eqn:Herr; cbv zeta; apply wp_ret.
  - apply wp_ret. intros Hc _. specialize (Ho Herr Hc). simpl in *. lia.
  - apply wp_call_bind. intros now. apply wp_bind. eapply wp_mono; [apply wp_extends|].
    intros [] h2 _. by apply wp_ret.
  - apply wp_call_bind. intros now. apply wp_bind. eapply wp_mono; [apply wp_extends|].
    intros [] h2 _. by apply wp_ret.
  - apply wp_call_bind. intros now. apply wp_bind. eapply wp_mono; [apply wp_extends|].
    intros [] h2 _. apply wp_ret. intros _ _. cbn [RequeueAfter]. case_match eqn:E; [lia|].
    rewrite orb_false_iff in E. destruct E as [?%Z.leb_gt ?%Z.ltb_ge]. lia.
Qed.
End controller.
