(* ===== verification/NodeWatcher.v ===== *)
(** * The node watcher

    images/controller/pkg/controller/local_csi_node_watcher.go: the labels that
    tell where the CSI driver runs, and the eviction labels of what must move
    away first.  [None] is a panic: a write to a nil map, or a dereference of a
    nil spec.lvm.  The maps of Go copy their values but share the labels of the
    objects, which the model keeps in the list they come from. *)

From S2P Require Import Prelude Effects Kube Monitoring Manager LSC.

Local Open Scope string_scope.

Definition LocalCSINodeWatcherCtrl := "local-csi-node-watcher-controller".
Definition localCsiNodeSelectorLabel := "storage.deckhouse.io/sds-local-volume-node".
Definition nodeManualEvictionLabel :=
  "storage.deckhouse.io/sds-local-volume-need-manual-eviction".
Definition candidateManualEvictionLabel :=
  "storage.deckhouse.io/sds-local-volume-candidate-for-eviction".

(** sigs.k8s.io/yaml on the node selector of [SdsLocalVolumeConfig], and the
    equality selectors of k8s.io/apimachinery/pkg/labels. *)
Class NodeSelectors := {
  UnmarshalNodeSelector : string → result string (option strmap);
  SetMatches : option strmap → option strmap → bool;
}.

(** A Node of Kubernetes, of which the source reads the metadata. *)
Record Node := mkNode { node_meta : ObjectMeta }.

#[export, program] Instance node_object : Object Node := {
  meta_of := node_meta;
  with_meta f n := mkNode (f (node_meta n));
}.
Next Obligation. done. Qed.

Section watcher.
Context `{LabelSelectors, ApiMachinery, MapRange, NodeSelectors}.

(** ** Effects *)

Inductive nw_op :=
| WGetSecret (namespace name : string)
| WListNodes (selector : option (option strmap))   (* [None]: every node *)
| WListLVG
| WListLSC
| WUpdateNode (node : Node)
| WUpdateLVG (lvg : LVMVolumeGroup)
| WUpdateLSC (lsc : LocalStorageClass)
| WNow
| WMetric (m : metric_op).

Definition nw_res (o : nw_op) : Type :=
  match o with
  | WGetSecret _ _ => strmap + api_error
  | WListNodes _ => list Node + api_error
  | WListLVG => list LVMVolumeGroup + api_error
  | WListLSC => list LocalStorageClass + api_error
  | WUpdateNode _ | WUpdateLVG _ | WUpdateLSC _ => option api_error
  | WNow => Z
  | WMetric _ => unit
  end.

Definition nwSig : sig := Sig nw_op nw_res.

Definition nw_call (o : nw_op) : prog nwSig (nw_res o) := call (S := nwSig) o.

(** The reads of the watcher. *)
Definition getSecret (namespace name : string) : prog nwSig (strmap + api_error) :=
  nw_call (WGetSecret namespace name).
Definition getLVMVolumeGroups : prog nwSig (list LVMVolumeGroup + api_error) := nw_call WListLVG.
Definition getLocalStorageClasses : prog nwSig (list LocalStorageClass + api_error) :=
  nw_call WListLSC.
Definition getKubeNodes : prog nwSig (list Node + api_error) := nw_call (WListNodes None).
Definition getKubernetesNodesBySelector (selector : option strmap) : prog nwSig (list Node + api_error) :=
  nw_call (WListNodes (Some selector)).

Fixpoint nw_emit (ops : list metric_op) : prog nwSig unit :=
  match ops with
  | [] => mret tt
  | m :: ops => _ ← nw_call (WMetric m); nw_emit ops
  end.

(** A program that may panic. *)
Abbreviation nw A := (prog nwSig (option A)).

Definition unlessPanic {A B} (p : nw A) (f : A → nw B) : nw B :=
  r ← p; match r with Some a => f a | None => mret None end.

(** ** Labels *)

Definition SetLabels (labels : option strmap) (m : ObjectMeta) : ObjectMeta :=
  mkMeta (om_Name m) (om_Namespace m) (om_UID m) (om_ResourceVersion m) (om_Generation m)
    (om_DeletionTimestamp m) (om_Finalizers m) labels (om_Annotations m) (om_ManagedFields m).

Definition has_label (label : string) (m : ObjectMeta) : bool := map_has (om_Labels m) label.

(** [labels[label] = ""], on a map that is not nil. *)
Definition put_label (label : string) (m : ObjectMeta) : ObjectMeta :=
  SetLabels (Some (<[label := ""]> (default ∅ (om_Labels m)))) m.

(** [delete (labels, label)]. *)
Definition drop_label (label : string) (m : ObjectMeta) : ObjectMeta :=
  SetLabels (delete label <$> om_Labels m) m.

Definition lvg_with_meta (f : ObjectMeta → ObjectMeta) (lvg : LVMVolumeGroup)
    : LVMVolumeGroup := mkVG (f (vg_meta lvg)) (vg_Spec lvg) (vg_Status lvg).

(** addLabelOnTheLSCIfNotExist *)
Definition addLabelOnTheLSCIfNotExist (lsc : LocalStorageClass) (label : string)
    : prog nwSig (bool + api_error) :=
  if has_label label (lsc_meta lsc) then mret (inl false)
  else
    err ← nw_call (WUpdateLSC (with_meta (put_label label) lsc));
    mret match err with Some err => inr err | None => inl true end.

(** addLabelOnTheLVGIfNotExist *)
Definition addLabelOnTheLVGIfNotExist (lvg : LVMVolumeGroup) (label : string)
    : prog nwSig (bool + api_error) :=
  if has_label label (vg_meta lvg) then mret (inl false)
  else
    err ← nw_call (WUpdateLVG (lvg_with_meta (put_label label) lvg));
    mret match err with Some err => inr err | None => inl true end.

(** The write to the labels of a node, which panics when they are nil. *)
Definition label_node (node : Node) (label : string) : nw (option api_error) :=
  match om_Labels (node_meta node) with
  | None => mret None
  | Some _ => Some <$> nw_call (WUpdateNode (with_meta (put_label label) node))
  end.

(** addLabelOnTheNodeIfNotExist *)
Definition addLabelOnTheNodeIfNotExist (node : Node) (label : string)
    : nw (bool + api_error) :=
  if has_label label (node_meta node) then mret (Some (inl false))
  else
    unlessPanic (label_node node label) (λ err,
      mret (Some match err with Some err => inr err | None => inl true end)).

(** labelNodesWithLocalCSIIfNeeded *)
Fixpoint labelNodesWithLocalCSIIfNeeded (nodes : list Node) : nw unit :=
  match nodes with
  | [] => mret (Some tt)
  | node :: nodes =>
      if has_label localCsiNodeSelectorLabel (node_meta node)
      then labelNodesWithLocalCSIIfNeeded nodes
      else unlessPanic (label_node node localCsiNodeSelectorLabel)
             (λ _, labelNodesWithLocalCSIIfNeeded nodes)
  end.

(** ** Eviction *)

(** Whether the group has the node. *)
Definition sits_on (node : string) (lvg : LVMVolumeGroup) : bool :=
  contains (vg_Nodes (vg_Status lvg)) node.

(** The groups on a node, by name; of two groups of a name the last one. *)
Definition used_lvgs (node : string) (lvgList : list LVMVolumeGroup)
    : gmap string LVMVolumeGroup :=
  foldl (λ m lvg, if sits_on node lvg then <[vg_Name lvg := lvg]> m else m) ∅ lvgList.

(** The groups and the classes to evict, while they are collected. *)
Record evicted := mkEvicted {
  ev_lvgs : gmap string LVMVolumeGroup;
  ev_lscs : gmap string LocalStorageClass;
}.

(** The inner loop of the base case. *)
Definition evict_entry (usedLvgs : gmap string LVMVolumeGroup) (lsc : LocalStorageClass)
    (s : evicted) (entry : LocalStorageClassLVG) : evicted :=
  match usedLvgs !! lvg_Name entry with
  | None => s
  | Some lvg => mkEvicted (<[lvg_Name entry := lvg]> (ev_lvgs s))
                  (<[GetName lsc := lsc]> (ev_lscs s))
  end.

(** The base case: the classes that name a group of the node. *)
Definition evict_class (usedLvgs : gmap string LVMVolumeGroup) (s : option evicted)
    (lsc : LocalStorageClass) : option evicted :=
  s ← s;
  lvm ← lsc_LVM (lsc_Spec lsc);
  Some (foldl (evict_entry usedLvgs lsc) s (lvm_LVMVolumeGroups lvm)).

(** The groups that carry the label already. *)
Definition add_candidates (usedLvgs lvgs : gmap string LVMVolumeGroup)
    : gmap string LVMVolumeGroup :=
  filter (λ kv, has_label candidateManualEvictionLabel (vg_meta kv.2) = true) usedLvgs ∪ lvgs.

(** What getManuallyEvictedLVGsAndLSCs computes from the two lists. *)
Definition evicted_of (node : string) (lvgList : list LVMVolumeGroup)
    (lscList : list LocalStorageClass) : option evicted :=
  let usedLvgs := used_lvgs node lvgList in
  s ← foldl (evict_class usedLvgs) (Some (mkEvicted ∅ ∅)) lscList;
  Some (mkEvicted (add_candidates usedLvgs (ev_lvgs s)) (ev_lscs s)).

(** getManuallyEvictedLVGsAndLSCs *)
Definition getManuallyEvictedLVGsAndLSCs (node : string) : nw (evicted + api_error) :=
  lvgList ← getLVMVolumeGroups;
  match lvgList with
  | inr err => mret (Some (inr err))
  | inl lvgList =>
      lscList ← getLocalStorageClasses;
      match lscList with
      | inr err => mret (Some (inr err))
      | inl lscList => mret (inl <$> evicted_of node lvgList lscList)
      end
  end.

(** Label every group, and every class; a failure is logged. *)
Fixpoint label_lvgs (lvgs : list (string * LVMVolumeGroup)) : prog nwSig unit :=
  match lvgs with
  | [] => mret tt
  | (_, lvg) :: lvgs =>
      _ ← addLabelOnTheLVGIfNotExist lvg candidateManualEvictionLabel;
      label_lvgs lvgs
  end.

Fixpoint label_lscs (lscs : list (string * LocalStorageClass)) : prog nwSig unit :=
  match lscs with
  | [] => mret tt
  | (_, lsc) :: lscs =>
      _ ← addLabelOnTheLSCIfNotExist lsc candidateManualEvictionLabel;
      label_lscs lscs
  end.

(** ** Clearing *)

(** The maps of clearManualEvictionLabelsIfNeeded hold positions of the list:
    the values they copy share its labels. *)
Definition positions (p : LVMVolumeGroup → bool) (lvgList : list LVMVolumeGroup)
    : gmap string nat :=
  foldl (λ m il, if p (snd il) then <[vg_Name (snd il) := fst il]> m else m) ∅
    (imap pair lvgList).

(** The loop over the groups of the node. *)
Fixpoint clear_lvgs (used : list (string * nat)) (lvgList : list LVMVolumeGroup)
    : prog nwSig (list LVMVolumeGroup) :=
  match used with
  | [] => mret lvgList
  | (_, i) :: used =>
      match lvgList !! i with
      | None => clear_lvgs used lvgList
      | Some lvg =>
          if negb (has_label candidateManualEvictionLabel (vg_meta lvg))
          then clear_lvgs used lvgList
          else
            let lvg := lvg_with_meta (drop_label candidateManualEvictionLabel) lvg in
            _ ← nw_call (WUpdateLVG lvg);
            clear_lvgs used (<[i := lvg]> lvgList)
      end
  end.

(** Whether a group named by a class still carries the label. *)
Definition still_evicted (lvgs : gmap string nat) (lvgList : list LVMVolumeGroup)
    (entry : LocalStorageClassLVG) : bool :=
  match lvgs !! lvg_Name entry ≫= λ i, lvgList !! i with
  | Some lvg => has_label candidateManualEvictionLabel (vg_meta lvg)
  | None => false
  end.

(** The loop over the classes. *)
Fixpoint clear_lscs (lvgs : gmap string nat) (lvgList : list LVMVolumeGroup)
    (lscList : list LocalStorageClass) : nw unit :=
  match lscList with
  | [] => mret (Some tt)
  | lsc :: lscList =>
      if negb (has_label candidateManualEvictionLabel (lsc_meta lsc))
      then clear_lscs lvgs lvgList lscList
      else match lsc_LVM (lsc_Spec lsc) with
           | None => mret None
           | Some lvm =>
               if existsb (still_evicted lvgs lvgList) (lvm_LVMVolumeGroups lvm)
               then clear_lscs lvgs lvgList lscList
               else
                 _ ← nw_call (WUpdateLSC (with_meta (drop_label candidateManualEvictionLabel)
                                            lsc));
                 clear_lscs lvgs lvgList lscList
           end
  end.

(** clearManualEvictionLabelsIfNeeded after the node was cleared. *)
Definition clear_dependents (node : string) : nw (option api_error) :=
  lvgList ← getLVMVolumeGroups;
  match lvgList with
  | inr err => mret (Some (Some err))
  | inl lvgList =>
      let lvgs := positions (λ _, true) lvgList in
      let usedLvgs := positions (sits_on node) lvgList in
      lvgList ← clear_lvgs (range usedLvgs) lvgList;
      lscList ← getLocalStorageClasses;
      match lscList with
      | inr err => mret (Some (Some err))
      | inl lscList =>
          unlessPanic (clear_lscs lvgs lvgList lscList) (λ _, mret (Some None))
      end
  end.

(** clearManualEvictionLabelsIfNeeded *)
Definition clearManualEvictionLabelsIfNeeded (node : Node) : nw (option api_error) :=
  if negb (has_label nodeManualEvictionLabel (node_meta node))
  then clear_dependents (GetName node)
  else
    err ← nw_call (WUpdateNode (with_meta (drop_label nodeManualEvictionLabel) node));
    match err with
    | Some err => mret (Some (Some err))
    | None => clear_dependents (GetName node)
    end.

(** ** The pass *)

(** The body of the loop of reconcileLocalCSILabels for a node that does not
    match the selector and carries the label. *)
Definition evict_node (node : Node) : nw unit :=
  unlessPanic (getManuallyEvictedLVGsAndLSCs (GetName node)) (λ r,
  match r with
  | inr _ => mret (Some tt)
  | inl s =>
      if bool_decide (ev_lvgs s = ∅) && bool_decide (ev_lscs s = ∅)
      then
        _ ← nw_call (WUpdateNode (with_meta (λ m, drop_label nodeManualEvictionLabel
                                   (drop_label localCsiNodeSelectorLabel m)) node));
        mret (Some tt)
      else
        unlessPanic (addLabelOnTheNodeIfNotExist node nodeManualEvictionLabel) (λ added,
        match added with
        | inr _ => mret (Some tt)
        | inl _ =>
            _ ← label_lvgs (range (ev_lvgs s));
            _ ← label_lscs (range (ev_lscs s));
            mret (Some tt)
        end)
  end).

(** reconcileLocalCSILabels *)
Fixpoint reconcileLocalCSILabels (nodes : list Node) (selector : option strmap) : nw unit :=
  match nodes with
  | [] => mret (Some tt)
  | node :: nodes =>
      unlessPanic
        (if SetMatches selector (om_Labels (node_meta node))
         then unlessPanic (clearManualEvictionLabelsIfNeeded node) (λ _, mret (Some tt))
         else if negb (has_label localCsiNodeSelectorLabel (node_meta node))
         then mret (Some tt)
         else evict_node node)
        (λ _, reconcileLocalCSILabels nodes selector)
  end.

(** getNodeSelectorFromConfig *)
Definition getNodeSelectorFromConfig (secret : strmap) : option strmap + string :=
  UnmarshalNodeSelector (default "" (secret !! "config")).

(** reconcileLocalCSINodes, on the data of the secret *)
Definition reconcileLocalCSINodes (secret : strmap) : nw (option string) :=
  match getNodeSelectorFromConfig secret with
  | inr err => mret (Some (Some err))
  | inl nodeSelector =>
      nodesWithSelector ← getKubernetesNodesBySelector nodeSelector;
      match nodesWithSelector with
      | inr err => mret (Some (Some (error_text err)))
      | inl nodesWithSelector =>
          unlessPanic (labelNodesWithLocalCSIIfNeeded nodesWithSelector) (λ _,
          nodes ← getKubeNodes;
          match nodes with
          | inr err => mret (Some (Some (error_text err)))
          | inl nodes =>
              unlessPanic (reconcileLocalCSILabels nodes nodeSelector) (λ _, mret (Some None))
          end)
      end
  end.

(** The reconciler of RunLocalCSINodeWatcherController, without the deferred
    observation of its outcome; the interval is in seconds. *)
Definition reconcile_secret (configSecretName : string) (requeueSecretInterval : Z)
    (namespace name : string) : nw (Result * option string) :=
  if negb (bool_decide (name = configSecretName)) then mret (Some (mkResult false 0, None))
  else
    secret ← getSecret namespace name;
    match secret with
    | inr err => mret (Some (mkResult false 0, Some (error_text err)))
    | inl secret =>
        unlessPanic (reconcileLocalCSINodes secret) (λ err,
        mret (Some match err with
                   | Some err => (mkResult false 0, Some err)
                   | None => (mkResult false (i64 (requeueSecretInterval * Second)), None)
                   end))
    end.

(** The reconciler with its deferred call. *)
Definition reconcile_watcher (configSecretName : string) (requeueSecretInterval : Z)
    (metrics : Recorder) (namespace name : string) : nw (Result * option string) :=
  start ← nw_call WNow;
  out ← reconcile_secret configSecretName requeueSecretInterval namespace name;
  let '(res, err) := default (mkResult false 0, None) out in
  now ← nw_call WNow;
  _ ← nw_emit (ObserveReconcile metrics LocalCSINodeWatcherCtrl (time_Sub now start)
                 res err);
  mret out.
End watcher.

Definition RunLocalCSINodeWatcherController : prog setupSig (unit + string) :=
  set_up (NewController LocalCSINodeWatcherCtrl) (
  set_up (Watch WatchNodeSecret) (
  mret (inl tt))).
