(* ===== verification/NodeWatcherLists.v ===== *)
(** * The lists the node watcher reads

    What the maps of the source hold once they are filled from the listed
    groups and classes: of two groups of one name the last one, and what must
    leave a node before its label does. *)

From S2P Require Import Prelude Effects Kube LSC NodeWatcher.

Section lists.
Context `{LabelSelectors, ApiMachinery, MapRange, NodeSelectors}.
Implicit Types (v : LVMVolumeGroup) (c : LocalStorageClass).

(** The last group of a name among those that satisfy [p]. *)
Definition last_named (p : LVMVolumeGroup → bool) (name : string)
    (l : list LVMVolumeGroup) v : Prop :=
  ∃ l1 l2, l = l1 ++ v :: l2 ∧ p v = true ∧ vg_Name v = name ∧
    ∀ v', v' ∈ l2 → p v' = true → vg_Name v' ≠ name.

Lemma last_named_elem p name l v :
  last_named p name l v → v ∈ l ∧ p v = true ∧ vg_Name v = name.
Proof. intros (l1 & l2 & -> & ? & ? & _). split; [|done]. apply elem_of_app. right. by left. Qed.

Lemma last_named_snoc p name l w v :
  last_named p name (l ++ [w]) v ↔
    if p w && bool_decide (vg_Name w = name) then v = w else last_named p name l v.
Proof.
  split.
  - intros (l1 & l2 & Heq & Hp & Hn & Hl). destruct l2 as [|x l2 _] using rev_ind.
    + apply app_inj_tail in Heq as [_ ->]. by rewrite Hp, bool_decide_true.
    + rewrite app_comm_cons, app_assoc in Heq. apply app_inj_tail in Heq as [-> ->].
      destruct (p x) eqn:Hx; simpl; [rewrite bool_decide_false|];
        [|apply Hl; [apply elem_of_app; right; by left|done]|];
        exists l1, l2; (split_and!; [done..|]);
        intros v' ?; apply Hl, elem_of_app; by left.
  - destruct (p w) eqn:Hw; simpl; [case_bool_decide|]; intros Hv.
    + subst v. exists l, []. split_and!; [done..|]. by intros v' ?%elem_of_nil.
    + destruct Hv as (l1 & l2 & -> & Hp & Hn & Hl). exists l1, (l2 ++ [w]).
      rewrite app_comm_cons, app_assoc. split_and!; [done..|].
      intros v' [?| ->%list_elem_of_singleton]%elem_of_app; auto.
    + destruct Hv as (l1 & l2 & -> & Hp & Hn & Hl). exists l1, (l2 ++ [w]).
      rewrite app_comm_cons, app_assoc. split_and!; [done..|].
      intros v' [?| ->%list_elem_of_singleton]%elem_of_app; [auto|congruence].
Qed.

(** A name that occurs has a last occurrence. *)
Lemma last_named_exists p l v :
  v ∈ l → p v = true → ∃ v', last_named p (vg_Name v) l v'.
Proof.
  induction l as [|w l IH] using rev_ind; [by intros ?%elem_of_nil|].
  intros [Hv| ->%list_elem_of_singleton]%elem_of_app Hp.
  - destruct (IH Hv Hp) as [v' ?].
    destruct (p w && bool_decide (vg_Name w = vg_Name v)) eqn:E1;
      [exists w|exists v']; apply last_named_snoc; by rewrite E1.
  - exists w. apply last_named_snoc. by rewrite Hp, bool_decide_true.
Qed.

(** Names that do not repeat leave nothing to choose. *)
Lemma last_named_unique p name l v :
  NoDup (vg_Name <$> l) → v ∈ l → p v = true → vg_Name v = name → last_named p name l v.
Proof.
  intros Hnd [l1 [l2 ->]]%list_elem_of_split Hp Hn. exists l1, l2. split_and!; [done..|].
  intros v' Hv' _ Heq. rewrite fmap_app, fmap_cons in Hnd.
  apply NoDup_app in Hnd as (_ & _ & [Hnd _]%NoDup_cons).
  apply Hnd. rewrite Hn, <-Heq. by apply list_elem_of_fmap_2.
Qed.

Lemma used_lvgs_spec node l name v :
  used_lvgs node l !! name = Some v ↔ last_named (sits_on node) name l v.
Proof.
  induction l as [|w l IH] using rev_ind.
  - split; [done|]. intros (l1 & l2 & Heq & _). by destruct l1.
  - unfold used_lvgs in *. rewrite foldl_app, last_named_snoc. simpl.
    destruct (sits_on node w); simpl; [|done].
    case_bool_decide as Hn.
    + subst name. rewrite lookup_insert_eq. split; congruence.
    + by rewrite lookup_insert_ne.
Qed.

Lemma used_lvgs_None node l name :
  used_lvgs node l !! name = None → ∀ v, v ∈ l → sits_on node v = true → vg_Name v ≠ name.
Proof.
  intros Hn v Hv Hs <-. destruct (last_named_exists _ _ _ Hv Hs) as [v' Hv'].
  apply used_lvgs_spec in Hv'. congruence.
Qed.

Lemma positions_spec p l name i :
  positions p l !! name = Some i → ∃ v, l !! i = Some v ∧ last_named p name l v.
Proof.
  unfold positions. revert i.
  induction l as [|w l IH] using rev_ind; intros i; [done|].
  rewrite imap_app, foldl_app. simpl. rewrite Nat.add_0_r.
  destruct (p w) eqn:Hw; simpl.
  - destruct (decide (vg_Name w = name)) as [<-|Hne].
    + rewrite lookup_insert_eq. intros [= <-]. exists w. rewrite lookup_app_r, Nat.sub_diag by done.
      split; [done|]. apply last_named_snoc. by rewrite Hw, bool_decide_true.
    + rewrite lookup_insert_ne by done. intros Hi. destruct (IH _ Hi) as (v & Hv & Hl).
      exists v. split; [by apply lookup_app_l_Some|]. apply last_named_snoc.
      by rewrite Hw, bool_decide_false.
  - intros Hi. destruct (IH _ Hi) as (v & Hv & Hl).
    exists v. split; [by apply lookup_app_l_Some|]. apply last_named_snoc. by rewrite Hw.
Qed.

Lemma positions_None p l name :
  positions p l !! name = None → ∀ v, v ∈ l → p v = true → vg_Name v ≠ name.
Proof.
  unfold positions. induction l as [|w l IH] using rev_ind; [by intros _ v ?%elem_of_nil|].
  rewrite imap_app, foldl_app. simpl.
  intros Hn v [Hv| ->%list_elem_of_singleton]%elem_of_app Hp.
  - apply IH; [|done..]. destruct (p w); [|done]. by apply lookup_insert_None in Hn as [? _].
  - rewrite Hp in Hn. simpl in Hn. by apply lookup_insert_None in Hn as [_ ?].
Qed.

(** The map of all positions finds the last group of a name. *)
Lemma positions_lookup l name v :
  last_named (λ _, true) name l v →
  ∃ i, positions (λ _, true) l !! name = Some i ∧ l !! i = Some v.
Proof.
  intros Hl. destruct (last_named_elem _ _ _ _ Hl) as (Hv & _ & Hn).
  destruct (positions (λ _, true) l !! name) as [i|] eqn:Hi.
  - exists i. split; [done|]. destruct (positions_spec _ _ _ _ Hi) as (v' & ? & Hl').
    assert (v = v') as ->; [|done]. clear -Hl Hl'.
    induction l as [|w l IH] using rev_ind; [by destruct Hl as ([] & ? & ? & _)|].
    apply last_named_snoc in Hl, Hl'. repeat case_match; [congruence|auto].
  - by destruct (positions_None _ _ _ Hi v Hv).
Qed.

(** ** What must leave a node *)

(** The class names a group. *)
Definition names c (name : string) : Prop :=
  ∃ lvm, lsc_LVM (lsc_Spec c) = Some lvm ∧ name ∈ lvg_Name <$> lvm_LVMVolumeGroups lvm.

Section evict.
Context (used : gmap string LVMVolumeGroup).

(** What has been collected from the classes [done]. *)
Definition collected (done : LocalStorageClass → string → Prop) (s : evicted) : Prop :=
  (∀ k v, ev_lvgs s !! k = Some v ↔ used !! k = Some v ∧ ∃ c, done c k) ∧
  (∀ k c, ev_lscs s !! k = Some c → GetName c = k ∧ ∃ n, done c n ∧ is_Some (used !! n)).

Lemma collected_entry done s c entry :
  collected done s →
  collected (λ c' n, done c' n ∨ (c' = c ∧ n = lvg_Name entry)) (evict_entry used c s entry).
Proof.
  intros [Hv Hc]. unfold evict_entry.
  destruct (used !! lvg_Name entry) as [v0|] eqn:Hu; split; simpl.
  - intros k v. destruct (decide (lvg_Name entry = k)) as [<-|Hne].
    + rewrite lookup_insert_eq, Hu. split; [|by intros [? _]].
      intros [= ->]. split; [done|]. exists c. by right.
    + rewrite lookup_insert_ne, Hv by done. split; intros [Hk [c' Hd]]; (split; [done|]); exists c';
        naive_solver.
  - intros k c'. destruct (decide (GetName c = k)) as [<-|Hne].
    + rewrite lookup_insert_eq. intros [= <-]. split; [done|]. exists (lvg_Name entry).
      rewrite Hu. split; [by right|by eexists].
    + rewrite lookup_insert_ne by done. intros [? (n & ? & ?)]%Hc. split; [done|].
      exists n. split; [by left|done].
  - intros k v. rewrite Hv. split; intros [Hk [c' Hd]]; (split; [done|]); exists c'.
    + by left.
    + destruct Hd as [?|[-> ->]]; [done|congruence].
  - intros k c' [? (n & ? & ?)]%Hc. split; [done|]. exists n. split; [by left|done].
Qed.

Lemma collected_iff done done' s :
  (∀ c n, done c n ↔ done' c n) → collected done s → collected done' s.
Proof.
  intros Hd [Hv Hc]. split.
  - intros k v. rewrite Hv. by setoid_rewrite Hd.
  - intros k c Hk. destruct (Hc k c Hk) as [? (n & ? & ?)]. split; [done|].
    exists n. split; [by apply Hd|done].
Qed.

Lemma collected_entries c entries done s :
  collected done s →
  collected (λ c' n, done c' n ∨ (c' = c ∧ n ∈ lvg_Name <$> entries))
    (foldl (evict_entry used c) s entries).
Proof.
  revert done s. induction entries as [|entry entries IH]; intros done s Hs; simpl.
  - eapply collected_iff; [|done]. intros c' n. rewrite elem_of_nil. tauto.
  - eapply collected_iff; [|by apply IH, collected_entry]. intros c' n. simpl.
    rewrite elem_of_cons. tauto.
Qed.

Lemma collected_classes l : ∀ done s s',
  foldl (evict_class used) (Some s) l = Some s' → collected done s →
  collected (λ c n, done c n ∨ (c ∈ l ∧ names c n)) s'.
Proof.
  induction l as [|c l IH]; intros done s s'; simpl.
  - intros [= <-] Hs. eapply collected_iff; [|done]. intros c' n. rewrite elem_of_nil. tauto.
  - destruct (lsc_LVM (lsc_Spec c)) as [lvm|] eqn:Hl; simpl.
    2: { intros Hn. exfalso. clear -Hn. induction l; simpl in *; [done|auto]. }
    intros Hf Hs. eapply collected_iff; [|eapply IH; [exact Hf|by apply collected_entries]].
    intros c' n. simpl. rewrite elem_of_cons. split.
    + intros [[?|[-> Hn]]|[? ?]]; [tauto| |tauto]. right. split; [by left|]. by exists lvm.
    + intros [?|[[ -> |?] Hn]]; [tauto| |tauto]. left. right. split; [done|].
      destruct Hn as (lvm' & Heq & Hn). congruence.
Qed.
End evict.

(** What getManuallyEvictedLVGsAndLSCs returns: the groups of the node that a
    class names or that carry the label already, and the classes that name a
    group of the node. *)
Lemma evicted_of_spec node lvgs lscs s :
  evicted_of node lvgs lscs = Some s →
  (∀ k v, ev_lvgs s !! k = Some v ↔
     last_named (sits_on node) k lvgs v ∧
     ((∃ c, c ∈ lscs ∧ names c k) ∨ has_label candidateManualEvictionLabel (vg_meta v) = true)) ∧
  (∀ k c, ev_lscs s !! k = Some c →
     c ∈ lscs ∧ GetName c = k ∧
     ∃ n v, names c n ∧ last_named (sits_on node) n lvgs v).
Proof.
  unfold evicted_of. cbv zeta.
  destruct (foldl _ _ lscs) as [s'|] eqn:Hf; simpl; [|done]. intros [= <-]. simpl.
  apply (collected_classes _ _ (λ _ _, False)) in Hf as [Hv Hc].
  2: { split; simpl; intros k x; rewrite lookup_empty; [|done]. split; [done|].
       by intros [_ [? []]]. }
  split.
  - intros k v. unfold add_candidates. rewrite lookup_union_Some_raw, map_lookup_filter_Some,
      map_lookup_filter_None, Hv. simpl. rewrite <-used_lvgs_spec. split.
    + intros [[? ?]|[_ [? [c [[]|[? ?]]]]]]; [by auto|]. split; [done|]. left. eauto.
    + intros [Hu [[c [? ?]]|Hl]]; [|by left].
      destruct (has_label candidateManualEvictionLabel (vg_meta v)) eqn:Hl; [by left|].
      right. split.
      * right. intros v' Hv' Hl'. simpl in Hl'. congruence.
      * split; [done|]. exists c. by right.
  - intros k c Hk. destruct (Hc k c Hk) as [? (n & [[]|[? ?]] & [v Hv'])].
    split_and!; [done..|]. exists n, v. split; [done|]. by apply used_lvgs_spec.
Qed.

(** It panics only for a class without spec.lvm. *)
Lemma evicted_of_None node lvgs lscs :
  evicted_of node lvgs lscs = None → ∃ c, c ∈ lscs ∧ lsc_LVM (lsc_Spec c) = None.
Proof.
  unfold evicted_of. cbv zeta. generalize (used_lvgs node lvgs). intros used.
  destruct (foldl (evict_class used) (Some (mkEvicted ∅ ∅)) lscs) eqn:Hf; [done|]. intros _.
  revert Hf. generalize (mkEvicted ∅ ∅).
  induction lscs as [|c lscs IH]; intros s; simpl; [done|].
  destruct (lsc_LVM (lsc_Spec c)) eqn:Hl; simpl.
  - intros Hf. destruct (IH _ Hf) as (c' & ? & ?). exists c'. split; [by right|done].
  - intros _. exists c. split; [by left|done].
Qed.
End lists.
