(* ===== verification/NodeWatcherSafety.v ===== *)
(** * Safety of the node watcher

    Every update of a pass of local_csi_node_watcher.go is justified by what
    the pass read before it, whatever the API server answers, and every node
    that matches the selector is labelled. *)

From S2P Require Import Prelude Effects Kube LSC NodeWatcher NodeWatcherLists.

Section safety.
Context `{LabelSelectors, ApiMachinery, MapRange, NodeSelectors}.
Context (secret : strmap).

Abbreviation hist := (history nwSig).
Abbreviation ev := (Ev (S := nwSig)).
Abbreviation nw A := (prog nwSig (option A)).
Implicit Types (n : Node) (v : LVMVolumeGroup) (c : LocalStorageClass) (h : hist).

(** ** What justifies an update *)

(** The node matches, or does not match, the selector of the secret. *)
Definition matches (b : bool) n : Prop :=
  ∃ sel, UnmarshalNodeSelector (default "" (secret !! "config"%string)) = inl sel ∧
         SetMatches sel (om_Labels (node_meta n)) = b.

Definition node_listed sel n h : Prop := ∃ l, ev (WListNodes sel) (inl l) ∈ h ∧ n ∈ l.

(** A node that does not match any more and still has the label. *)
Definition leaving n h : Prop :=
  node_listed None n h ∧ matches false n ∧ has_label localCsiNodeSelectorLabel (node_meta n) = true.

(** A node that matches. *)
Definition staying n h : Prop := node_listed None n h ∧ matches true n.

(** Nothing keeps the label on the node: no class names a group of the node,
    and no group of the node is a candidate for eviction. *)
Definition free_to_leave n (lvgs : list LVMVolumeGroup) (lscs : list LocalStorageClass) : Prop :=
  ∀ name v, last_named (sits_on (GetName n)) name lvgs v →
    (∀ c, c ∈ lscs → ¬ names c name) ∧
    has_label candidateManualEvictionLabel (vg_meta v) = false.

Definition just_read lvgs lscs h : Prop :=
  ∃ past, h = ev WListLSC (inl lscs) :: ev WListLVG (inl lvgs) :: past.

Definition both_read lvgs lscs h : Prop :=
  ev WListLVG (inl lvgs) ∈ h ∧ ev WListLSC (inl lscs) ∈ h.

Definition node_update_justified n' h : Prop :=
  (∃ sel n, UnmarshalNodeSelector (default "" (secret !! "config"%string)) = inl sel ∧
     node_listed (Some sel) n h ∧ has_label localCsiNodeSelectorLabel (node_meta n) = false ∧
     n' = with_meta (put_label localCsiNodeSelectorLabel) n) ∨
  (∃ n lvgs lscs, leaving n h ∧ just_read lvgs lscs h ∧ free_to_leave n lvgs lscs ∧
     n' = with_meta (λ m, drop_label nodeManualEvictionLabel
                            (drop_label localCsiNodeSelectorLabel m)) n) ∨
  (∃ n lvgs lscs, leaving n h ∧ just_read lvgs lscs h ∧ ¬ free_to_leave n lvgs lscs ∧
     n' = with_meta (put_label nodeManualEvictionLabel) n) ∨
  (∃ n, staying n h ∧ n' = with_meta (drop_label nodeManualEvictionLabel) n).

(** A group becomes a candidate on a node that is leaving, because a class
    names it, and stops being one on a node that stays. *)
Definition lvg_update_justified v' h : Prop :=
  ∃ n lvgs name v, last_named (sits_on (GetName n)) name lvgs v ∧
    ((∃ lscs c, leaving n h ∧ both_read lvgs lscs h ∧ c ∈ lscs ∧ names c name ∧
        v' = lvg_with_meta (put_label candidateManualEvictionLabel) v) ∨
     (staying n h ∧ ev WListLVG (inl lvgs) ∈ h ∧
        has_label candidateManualEvictionLabel (vg_meta v) = true ∧
        v' = lvg_with_meta (drop_label candidateManualEvictionLabel) v)).

(** A class becomes a candidate when it names a group of a node that is leaving,
    and stops being one when all its groups that are candidates are on a node
    that stays, which were just cleared. *)
Definition lsc_update_justified c' h : Prop :=
  ∃ n lvgs lscs c, both_read lvgs lscs h ∧ c ∈ lscs ∧
    ((leaving n h ∧ (∃ name v, names c name ∧ last_named (sits_on (GetName n)) name lvgs v) ∧
        c' = with_meta (put_label candidateManualEvictionLabel) c) ∨
     (staying n h ∧ has_label candidateManualEvictionLabel (lsc_meta c) = true ∧
        (∀ name v, names c name → last_named (λ _, true) name lvgs v →
           has_label candidateManualEvictionLabel (vg_meta v) = true →
           sits_on (GetName n) v = true) ∧
        c' = with_meta (drop_label candidateManualEvictionLabel) c)).

Definition nw_justified (e : event nwSig) h : Prop :=
  match ev_op e with
  | WUpdateNode n => node_update_justified n h
  | WUpdateLVG v => lvg_update_justified v h
  | WUpdateLSC c => lsc_update_justified c h
  | _ => True
  end.

(** ** Keeping the invariant *)

Definition kept h h' : Prop := h `suffix_of` h' ∧ (always nw_justified h → always nw_justified h').

Lemma kept_refl h : kept h h.
Proof. by split. Qed.

Lemma kept_trans h1 h2 h3 : kept h1 h2 → kept h2 h3 → kept h1 h3.
Proof. intros [? ?] [? ?]. split; [by etrans|auto]. Qed.

Lemma kept_cons h e h' : nw_justified e h → kept (e :: h) h' → kept h h'.
Proof.
  intros He [Hs Ha]. split; [|intros Hh; apply Ha; by split].
  etrans; [|done]. by exists [e].
Qed.

Lemma suffix_elem (e : event nwSig) h h' : h `suffix_of` h' → e ∈ h → e ∈ h'.
Proof. intros [k ->] ?. apply elem_of_app. by right. Qed.

Lemma node_listed_suffix sel n h h' :
  h `suffix_of` h' → node_listed sel n h → node_listed sel n h'.
Proof. intros Hs (l & ? & ?). exists l. split; [by eapply suffix_elem|done]. Qed.

Lemma leaving_suffix n h h' : h `suffix_of` h' → leaving n h → leaving n h'.
Proof. intros Hs (? & ? & ?). split_and!; [by eapply node_listed_suffix|done..]. Qed.

Lemma staying_suffix n h h' : h `suffix_of` h' → staying n h → staying n h'.
Proof. intros Hs (? & ?). split; [by eapply node_listed_suffix|done]. Qed.

Lemma both_read_suffix lvgs lscs h h' :
  h `suffix_of` h' → both_read lvgs lscs h → both_read lvgs lscs h'.
Proof. intros Hs [? ?]. split; by eapply suffix_elem. Qed.

(** A step of a program that keeps the invariant. *)
Lemma kept_then {A B} (p : prog nwSig A) (f : A → prog nwSig B) h :
  wp p h (λ _ h', kept h h') → (∀ a h', kept h h' → wp (f a) h' (λ _ h'', kept h' h'')) →
  wp (p ≫= f) h (λ _ h'', kept h h'').
Proof.
  intros Hp Hf. apply wp_bind. eapply wp_mono; [done|]. intros a h' Hk.
  eapply wp_mono; [by apply Hf|]. intros b h''. by apply kept_trans.
Qed.

Lemma kept_call {A} o (f : nw_res o → prog nwSig A) h :
  (∀ r, nw_justified (ev o r) h) → (∀ r, wp (f r) (ev o r :: h) (λ _ h', kept (ev o r :: h) h')) →
  wp (nw_call o ≫= f) h (λ _ h', kept h h').
Proof.
  intros Ho Hf. apply wp_call_bind. intros r. eapply wp_mono; [apply Hf|].
  intros a h'. by apply kept_cons.
Qed.

Lemma kept_ret {A} (a : A) h : wp (mret a : prog nwSig A) h (λ _ h', kept h h').
Proof. apply wp_ret, kept_refl. Qed.

Lemma kept_unless {A B} (p : nw A) (f : A → nw B) h :
  wp p h (λ _ h', kept h h') → (∀ a h', kept h h' → wp (f a) h' (λ _ h'', kept h' h'')) →
  wp (unlessPanic p f) h (λ _ h'', kept h h'').
Proof.
  intros Hp Hf. apply kept_then; [done|]. intros [a|] h' Hk; [by apply Hf|apply kept_ret].
Qed.

Lemma kept_label_node n label h :
  node_update_justified (with_meta (put_label label) n) h →
  wp (label_node n label) h (λ _ h', kept h h').
Proof.
  intros Hj. unfold label_node. destruct (om_Labels (node_meta n)); [|apply kept_ret].
  apply kept_call; [done|]. intros r. apply kept_ret.
Qed.

Ltac kept_step :=
  match goal with
  | |- wp (mret _) _ _ => apply kept_ret
  | |- wp (nw_call _ ≫= _) _ _ => apply kept_call; [done|]; intros ?
  | |- wp (unlessPanic _ _) _ _ => apply kept_unless; [|intros ? ? ?]
  | |- wp (_ ≫= _) _ _ => apply kept_then; [|intros ? ? ?]
  end.

(** ** Labelling the nodes that match *)

Lemma kept_label_nodes sel l h :
  UnmarshalNodeSelector (default "" (secret !! "config"%string)) = inl sel →
  (∀ n, n ∈ l → node_listed (Some sel) n h) →
  wp (labelNodesWithLocalCSIIfNeeded l) h (λ _ h', kept h h').
Proof.
  intros Hsel. revert h. induction l as [|n l IH]; intros h Hl; simpl; [apply kept_ret|].
  destruct (has_label _ _) eqn:Hn.
  - apply IH. intros n' ?. apply Hl. by right.
  - kept_step.
    + apply kept_label_node. left. exists sel, n. split_and!; try done. apply Hl. by left.
    + apply IH. intros n' ?. eapply node_listed_suffix; [by apply H3|]. apply Hl. by right.
Qed.

(** ** A node that is leaving *)

Lemma kept_label_lvgs n lvgs lscs l h :
  leaving n h → both_read lvgs lscs h →
  (∀ name v, (name, v) ∈ l → last_named (sits_on (GetName n)) name lvgs v ∧
     ((∃ c, c ∈ lscs ∧ names c name) ∨ has_label candidateManualEvictionLabel (vg_meta v) = true)) →
  wp (label_lvgs l) h (λ _ h', kept h h').
Proof.
  revert h. induction l as [|[name v] l IH]; intros h Hn Hr Hl; simpl; [apply kept_ret|].
  destruct (Hl name v) as [Hlast Hwhy]; [by left|]. kept_step.
  - unfold addLabelOnTheLVGIfNotExist. destruct (has_label _ _) eqn:Hv; [apply kept_ret|].
    apply kept_call; [|intros r; apply kept_ret]. intros r. exists n, lvgs, name, v.
    split; [done|]. left. destruct Hwhy as [(c & ? & ?)|]; [|congruence]. by exists lscs, c.
  - apply IH.
    + eapply leaving_suffix; [by apply H3|done].
    + eapply both_read_suffix; [by apply H3|done].
    + intros name' v' ?. apply Hl. by right.
Qed.

Lemma kept_label_lscs n lvgs lscs l h :
  leaving n h → both_read lvgs lscs h →
  (∀ k c, (k, c) ∈ l → c ∈ lscs ∧
     ∃ name v, names c name ∧ last_named (sits_on (GetName n)) name lvgs v) →
  wp (label_lscs l) h (λ _ h', kept h h').
Proof.
  revert h. induction l as [|[k c] l IH]; intros h Hn Hr Hl; simpl; [apply kept_ret|].
  destruct (Hl k c) as [Hc Hwhy]; [by left|]. kept_step.
  - unfold addLabelOnTheLSCIfNotExist. destruct (has_label _ _) eqn:Hv; [apply kept_ret|].
    apply kept_call; [|intros r; apply kept_ret]. intros r. exists n, lvgs, lscs, c.
    split_and!; [done..|]. by left.
  - apply IH.
    + eapply leaving_suffix; [by apply H3|done].
    + eapply both_read_suffix; [by apply H3|done].
    + intros k' c' ?. apply (Hl k'). by right.
Qed.

(** Whether anything has to move, decided by the code. *)
Lemma free_iff n lvgs lscs s :
  evicted_of (GetName n) lvgs lscs = Some s →
  free_to_leave n lvgs lscs ↔ ev_lvgs s = ∅ ∧ ev_lscs s = ∅.
Proof.
  intros Hs. destruct (evicted_of_spec _ _ _ _ Hs) as [Hv Hc]. split.
  - intros Hfree. split; apply map_empty; intros k; apply eq_None_not_Some.
    + intros [v [Hl Hwhy]%Hv]. destruct (Hfree _ _ Hl) as [Hnone Hlab].
      destruct Hwhy as [(c & ? & ?)|]; [by eapply Hnone|congruence].
    + intros [c (Hin & _ & name & v & Hname & Hl)%Hc].
      destruct (Hfree _ _ Hl) as [Hnone _]. by eapply Hnone.
  - intros [Hempty _] name v Hl. split.
    + intros c ? ?. assert (ev_lvgs s !! name = Some v) as Hk; [|by rewrite Hempty in Hk].
      apply Hv. split; [done|]. left. eauto.
    + destruct (has_label _ _) eqn:Hlab; [|done].
      assert (ev_lvgs s !! name = Some v) as Hk; [|by rewrite Hempty in Hk].
      apply Hv. auto.
Qed.

Lemma range_lookup {V} (m : gmap string V) k x : (k, x) ∈ range m → m !! k = Some x.
Proof. rewrite range_perm. apply elem_of_map_to_list. Qed.

(** What the two lists give. *)
Lemma wp_getManually node h :
  wp (getManuallyEvictedLVGsAndLSCs node) h (λ out h',
    kept h h' ∧
    match out with
    | Some (inl s) => ∃ lvgs lscs,
        h' = ev WListLSC (inl lscs) :: ev WListLVG (inl lvgs) :: h ∧
        evicted_of node lvgs lscs = Some s
    | Some (inr _) => True
    | None => ∃ lscs c, ev WListLSC (inl lscs) ∈ h' ∧ c ∈ lscs ∧ lsc_LVM (lsc_Spec c) = None
    end).
Proof.
  unfold getManuallyEvictedLVGsAndLSCs. apply wp_call_bind. intros r. cbn in r.
  destruct r as [lvgs|err].
  2: { apply wp_ret. split; [|done]. split; [by apply suffix_cons_r|done]. }
  apply wp_call_bind. intros r. cbn in r.
  assert (Hk : kept h (ev WListLSC r :: ev WListLVG (inl lvgs) :: h)).
  { split; [by eapply suffix_cons_r, suffix_cons_r|done]. }
  destruct r as [lscs|err]; apply wp_ret; (split; [exact Hk|]); [|done].
  destruct (evicted_of node lvgs lscs) as [s|] eqn:Hs; simpl.
  - by exists lvgs, lscs.
  - apply evicted_of_None in Hs as (c & ? & ?). exists lscs, c. split; [by left|done].
Qed.

Lemma wp_unless {A B} (p : nw A) (f : A → nw B) h Q :
  wp p h (λ a h', match a with Some a => wp (f a) h' Q | None => Q None h' end) →
  wp (unlessPanic p f) h Q.
Proof.
  intros Hp. apply wp_bind. eapply wp_mono; [exact Hp|].
  intros [a|] h' Ha; [done|by apply wp_ret].
Qed.

Lemma kept_evict n h : leaving n h → wp (evict_node n) h (λ _ h', kept h h').
Proof.
  intros Hn. apply wp_unless. eapply wp_mono; [apply wp_getManually|].
  intros [[s|err]|] h1 [Hk Hs]; [|apply wp_ret; exact Hk|exact Hk].
  apply (wp_mono _ _ (λ _ h2, kept h1 h2)); [|intros a h2; by apply kept_trans].
  destruct Hs as (lvgs & lscs & -> & Hs). set (h1 := ev WListLSC _ :: _) in *.
  assert (Hn1 : leaving n h1) by (by eapply leaving_suffix; [apply Hk|]).
  assert (Hjust : just_read lvgs lscs h1) by (by eexists).
  assert (Hread : both_read lvgs lscs h1) by (split; [right; by left|by left]).
  destruct (evicted_of_spec _ _ _ _ Hs) as [Hv Hc].
  pose proof (free_iff n lvgs lscs s Hs) as Hfree.
  destruct (bool_decide (ev_lvgs s = ∅) && bool_decide (ev_lscs s = ∅)) eqn:Hempty.
  - apply andb_true_iff in Hempty as [?%bool_decide_eq_true ?%bool_decide_eq_true].
    apply kept_call; [|intros r; apply kept_ret]. intros r. right. left.
    exists n, lvgs, lscs. split_and!; try done. by apply Hfree.
  - assert (Hnot : ¬ free_to_leave n lvgs lscs).
    { intros [? ?]%Hfree. by rewrite !bool_decide_true in Hempty. }
    apply kept_unless.
    + unfold addLabelOnTheNodeIfNotExist. destruct (has_label _ _); [apply kept_ret|].
      apply kept_unless; [|intros a h2 _; apply kept_ret].
      apply kept_label_node. right. right. left. by exists n, lvgs, lscs.
    + intros [added|err] h2 Hk2; [|apply kept_ret].
      assert (Hn2 : leaving n h2) by (by eapply leaving_suffix; [apply Hk2|]).
      assert (Hread2 : both_read lvgs lscs h2) by (by eapply both_read_suffix; [apply Hk2|]).
      apply kept_then; [|intros _ h3 Hk3; apply kept_then; [|intros _ h4 _; apply kept_ret]].
      * eapply kept_label_lvgs; [done..|]. intros name v ?%range_lookup. by apply Hv.
      * eapply kept_label_lscs; [by eapply leaving_suffix; [apply Hk3|]
          |by eapply both_read_suffix; [apply Hk3|]|].
        intros k c Hin%range_lookup. destruct (Hc _ _ Hin) as (? & _ & ?). done.
Qed.

(** ** A node that stays *)

(** The list after some groups of the node lost the label. *)
Definition cleared n (lvgs lvgs' : list LVMVolumeGroup) : Prop :=
  ∀ i v, lvgs !! i = Some v → ∃ v', lvgs' !! i = Some v' ∧
    (v' = v ∨ (sits_on (GetName n) v = true ∧
       v' = lvg_with_meta (drop_label candidateManualEvictionLabel) v)).

Lemma has_drop_label label m : has_label label (drop_label label m) = false.
Proof.
  unfold has_label, map_has, drop_label. apply bool_decide_eq_false. simpl.
  destruct (om_Labels m) as [l|]; simpl; [rewrite lookup_delete_eq|]; by intros [? [=]].
Qed.

Lemma cleared_labelled n lvgs lvgs' i v v' :
  cleared n lvgs lvgs' → lvgs !! i = Some v → lvgs' !! i = Some v' →
  has_label candidateManualEvictionLabel (vg_meta v') = true → v' = v.
Proof.
  intros Hc Hi Hi' Hl. destruct (Hc _ _ Hi) as (w & Hw & Hwhy).
  assert (w = v') as -> by congruence. destruct Hwhy as [|[_ ->]]; [done|].
  simpl in Hl. by rewrite has_drop_label in Hl.
Qed.

Lemma kept_clear_lvgs n lvgs used lvgs' h :
  staying n h → ev WListLVG (inl lvgs) ∈ h → cleared n lvgs lvgs' →
  (∀ name i, (name, i) ∈ used →
     ∃ v, lvgs !! i = Some v ∧ last_named (sits_on (GetName n)) name lvgs v) →
  wp (clear_lvgs used lvgs') h (λ out h', kept h h' ∧ cleared n lvgs out).
Proof.
  revert lvgs' h. induction used as [|[name i] used IH]; intros lvgs' h Hn Hr Hc Hu; simpl.
  { apply wp_ret. split; [apply kept_refl|done]. }
  assert (Hu' : ∀ name i, (name, i) ∈ used →
    ∃ v, lvgs !! i = Some v ∧ last_named (sits_on (GetName n)) name lvgs v).
  { intros name' i' ?. apply Hu. by right. }
  destruct (Hu name i) as (v & Hv & Hlast); [by left|].
  destruct (lvgs' !! i) as [v'|] eqn:Hi; [|by apply IH].
  destruct (has_label _ _) eqn:Hl; simpl; [|by apply IH].
  assert (v' = v) as -> by (by eapply cleared_labelled). apply wp_call_bind. intros r.
  eapply wp_mono; [apply IH|].
  - eapply staying_suffix; [|exact Hn]. by apply suffix_cons_r.
  - by right.
  - intros j w Hj. destruct (decide (i = j)) as [<-|Hne].
    + rewrite list_lookup_insert_eq by (by eapply lookup_lt_Some).
      eexists. split; [done|]. right. assert (w = v) as -> by congruence.
      split; [|done]. by apply last_named_elem in Hlast as (_ & ? & _).
    + rewrite list_lookup_insert_ne by done. by apply Hc.
  - done.
  - intros out h' [Hk ?]. split; [|done]. eapply kept_cons; [|done].
    exists n, lvgs, name, v. split; [done|]. by right.
Qed.

(** A class that is cleared names no candidate outside of the node. *)
Lemma not_still_evicted n lvgs lvgs' c lvm name v :
  cleared n lvgs lvgs' → lsc_LVM (lsc_Spec c) = Some lvm →
  existsb (still_evicted (positions (λ _, true) lvgs) lvgs') (lvm_LVMVolumeGroups lvm) = false →
  names c name → last_named (λ _, true) name lvgs v →
  has_label candidateManualEvictionLabel (vg_meta v) = true → sits_on (GetName n) v = true.
Proof.
  intros Hc Hlvm Hex (lvm' & Heq & Hin) Hlast Hl. assert (lvm' = lvm) as -> by congruence.
  apply list_elem_of_fmap in Hin as (entry & -> & Hin).
  destruct (positions_lookup _ _ _ Hlast) as (i & Hpos & Hi).
  destruct (Hc _ _ Hi) as (v' & Hi' & [->|[? _]]); [|done].
  assert (Hnot : still_evicted (positions (λ _, true) lvgs) lvgs' entry = false).
  { destruct (still_evicted _ _ entry) eqn:Hs; [|done]. rewrite <-Hex. symmetry.
    apply existsb_exists. exists entry. by rewrite <-list_elem_of_In. }
  unfold still_evicted in Hnot. rewrite Hpos in Hnot. simpl in Hnot. rewrite Hi' in Hnot.
  congruence.
Qed.

Lemma kept_clear_lscs n lvgs lvgs' lscs l h :
  staying n h → both_read lvgs lscs h → cleared n lvgs lvgs' → l ⊆ lscs →
  wp (clear_lscs (positions (λ _, true) lvgs) lvgs' l) h (λ _ h', kept h h').
Proof.
  revert h. induction l as [|c l IH]; intros h Hn Hr Hc Hl; simpl; [apply kept_ret|].
  assert (Hl' : l ⊆ lscs) by (intros c' ?; apply Hl; by right).
  destruct (has_label _ _) eqn:Hlab; simpl; [|by apply IH].
  destruct (lsc_LVM (lsc_Spec c)) as [lvm|] eqn:Hlvm; [|apply kept_ret].
  destruct (existsb _ _) eqn:Hex; [by apply IH|].
  apply kept_call; intros r.
  - exists n, lvgs, lscs, c. split; [done|]. split; [apply Hl; by left|]. right.
    split_and!; [done..| |done]. intros name v. by eapply not_still_evicted.
  - apply IH; [| |done..].
    + eapply staying_suffix; [by apply suffix_cons_r|done].
    + eapply both_read_suffix; [by apply suffix_cons_r|done].
Qed.

Lemma kept_clear_dependents n h :
  staying n h → wp (clear_dependents (GetName n)) h (λ _ h', kept h h').
Proof.
  intros Hn. apply kept_call; [done|]. intros r. cbn in r.
  destruct r as [lvgs|err]; [|apply kept_ret]. cbv zeta.
  set (h1 := ev WListLVG (inl lvgs) :: h).
  assert (Hn1 : staying n h1) by (eapply staying_suffix; [by apply suffix_cons_r|done]).
  apply wp_bind. eapply wp_mono.
  { apply (kept_clear_lvgs n lvgs); [done|by left| |].
    - intros i v Hv. exists v. by split; [|left].
    - intros name i ?%range_lookup. by apply positions_spec. }
  intros lvgs' h2 [Hk Hc].
  apply (wp_mono _ _ (λ _ h3, kept h2 h3)); [|intros a h3; by apply kept_trans].
  apply kept_call; [done|]. intros r. cbn in r. destruct r as [lscs|err]; [|apply kept_ret].
  apply kept_unless; [|intros a h3 _; apply kept_ret].
  assert (Hs : h1 `suffix_of` ev WListLSC (inl lscs) :: h2)
    by (by apply suffix_cons_r, Hk).
  apply (kept_clear_lscs n lvgs lvgs' lscs); [by eapply staying_suffix| |done..].
  split; [|by left]. eapply suffix_elem; [exact Hs|by left].
Qed.

Lemma kept_clear n h :
  staying n h → wp (clearManualEvictionLabelsIfNeeded n) h (λ _ h', kept h h').
Proof.
  intros Hn. unfold clearManualEvictionLabelsIfNeeded.
  destruct (has_label _ _); simpl; [|by apply kept_clear_dependents].
  apply kept_call; intros r.
  - right. right. right. by exists n.
  - cbn in r. destruct r as [err|]; [apply kept_ret|]. apply kept_clear_dependents.
    eapply staying_suffix; [by apply suffix_cons_r|done].
Qed.

Lemma kept_labels sel l h :
  UnmarshalNodeSelector (default "" (secret !! "config"%string)) = inl sel →
  (∀ n, n ∈ l → node_listed None n h) →
  wp (reconcileLocalCSILabels l sel) h (λ _ h', kept h h').
Proof.
  intros Hsel. revert h. induction l as [|n l IH]; intros h Hl; simpl; [apply kept_ret|].
  assert (Hn : node_listed None n h) by (apply Hl; by left).
  apply kept_unless.
  - destruct (SetMatches _ _) eqn:Hm.
    + apply kept_unless; [|intros a h' _; apply kept_ret]. apply kept_clear.
      split; [done|]. by exists sel.
    + destruct (has_label _ _) eqn:Hlab; simpl; [|apply kept_ret].
      apply kept_evict. split_and!; [done| |done]. by exists sel.
  - intros [] h' Hk. apply IH. intros n' ?. eapply node_listed_suffix; [apply Hk|].
    apply Hl. by right.
Qed.

(** C22: every update of a pass of the node watcher is justified by what the pass
    read, whatever the API server answers.  A node is labelled when it was
    listed by the selector; it loses the label when it does not match the
    selector and, by the two lists read just before, no class names a group of
    the node in spec.lvm.lvmVolumeGroups and no group of the node is a candidate
    for eviction; otherwise it is marked.  A class that only selects the group,
    by labels, is no obstacle.  Groups and classes become candidates because of such a node,
    and stop being candidates because of a node that matches; a class only when
    every candidate it names is on that node.  Nothing but these labels is
    changed in the objects listed. *)
Theorem reconcileLocalCSINodes_writes_are_justified :
  wp (reconcileLocalCSINodes secret) [] (λ _ h, always nw_justified h).
Proof.
  apply (wp_mono _ _ (λ _ h, kept [] h)); [|intros a h [_ Hk]; by apply Hk].
  unfold reconcileLocalCSINodes.
  destruct (getNodeSelectorFromConfig _) as [sel|err] eqn:Hsel; [|apply kept_ret].
  apply kept_call; [done|]. intros r. cbn in r. destruct r as [selected|err]; [|apply kept_ret].
  apply kept_unless.
  - eapply kept_label_nodes; [done|]. intros n ?. exists selected. split; [by left|done].
  - intros [] h1 _. apply kept_call; [done|]. intros r. cbn in r.
    destruct r as [nodes|err]; [|apply kept_ret].
    apply kept_unless; [|intros a h2 _; apply kept_ret].
    apply kept_labels; [done|]. intros n ?. exists nodes. split; [by left|done].
Qed.

(** ** Panics *)

(** What a panic takes: a selected node without labels, or a class without
    spec.lvm. *)
Definition panics_because {A} (out : option A) h : Prop :=
  out = None →
  (∃ sel n, node_listed (Some sel) n h ∧ om_Labels (node_meta n) = None) ∨
  (∃ lscs c, ev WListLSC (inl lscs) ∈ h ∧ c ∈ lscs ∧ lsc_LVM (lsc_Spec c) = None).

Lemma panics_unless {A B} (p : nw A) (f : A → nw B) h :
  wp p h panics_because → (∀ a h', h `suffix_of` h' → wp (f a) h' panics_because) →
  wp (unlessPanic p f) h panics_because.
Proof.
  intros Hp Hf. apply wp_unless.
  eapply wp_mono; [apply wp_and; [exact Hp|apply wp_extends]|].
  intros [a|] h' [Hb [new ->]]; [apply Hf; by exists new|]. intros _. by apply Hb.
Qed.

Lemma panics_ret {A} (a : A) h : wp (mret (Some a) : nw A) h panics_because.
Proof. by apply wp_ret. Qed.

Lemma panics_label_node n label h :
  om_Labels (node_meta n) ≠ None → wp (label_node n label) h panics_because.
Proof.
  intros Hn. unfold label_node. destruct (om_Labels (node_meta n)); [|done].
  apply wp_fmap, wp_call_bind. intros r. by apply wp_ret.
Qed.

Lemma panics_label_nodes sel l h :
  (∀ n, n ∈ l → node_listed (Some sel) n h) →
  wp (labelNodesWithLocalCSIIfNeeded l) h panics_because.
Proof.
  revert h. induction l as [|n l IH]; intros h Hl; simpl; [apply panics_ret|].
  destruct (has_label _ _).
  - apply IH. intros n' ?. apply Hl. by right.
  - apply panics_unless.
    + destruct (om_Labels (node_meta n)) eqn:Hn; [apply panics_label_node; congruence|].
      unfold label_node. rewrite Hn. apply wp_ret. intros _. left. exists sel, n.
      split; [|done]. apply Hl. by left.
    + intros _ h' ?. apply IH. intros n' ?. eapply node_listed_suffix; [done|].
      apply Hl. by right.
Qed.

Lemma panics_evict n h :
  has_label localCsiNodeSelectorLabel (node_meta n) = true →
  wp (evict_node n) h panics_because.
Proof using All.
  intros Hl. apply panics_unless.
  { eapply wp_mono; [apply wp_getManually|]. intros [s|] h' [_ Hs] Hout; [done|]. by right. }
  intros [s|err] h' _; [|apply panics_ret].
  destruct (_ && _); [by apply wp_call_bind; intros r; apply panics_ret|].
  apply panics_unless.
  - unfold addLabelOnTheNodeIfNotExist. destruct (has_label nodeManualEvictionLabel _);
      [apply panics_ret|].
    apply panics_unless; [apply panics_label_node|intros a h'' _; apply panics_ret].
    intros Hn. unfold has_label, map_has in Hl. by rewrite Hn in Hl.
  - intros [added|err] h'' _; [|apply panics_ret].
    do 2 (apply wp_bind; intros [] ? _). apply panics_ret.
Qed.

Lemma panics_clear_lscs lvgs lvgs' lscs l h :
  ev WListLSC (inl lscs) ∈ h → l ⊆ lscs → wp (clear_lscs lvgs lvgs' l) h panics_because.
Proof.
  revert h. induction l as [|c l IH]; intros h Hr Hl; simpl; [apply panics_ret|].
  assert (Hl' : l ⊆ lscs) by (intros c' ?; apply Hl; by right).
  destruct (has_label _ _); simpl; [|by apply IH].
  destruct (lsc_LVM (lsc_Spec c)) as [lvm|] eqn:Hlvm.
  - destruct (existsb _ _); [by apply IH|]. apply wp_call_bind. intros r.
    apply IH; [by right|done].
  - apply wp_ret. intros _. right. exists lscs, c. split_and!; [done|apply Hl; by left|done].
Qed.

Lemma panics_clear n h : wp (clearManualEvictionLabelsIfNeeded n) h panics_because.
Proof.
  assert (Hd : ∀ h, wp (clear_dependents (GetName n)) h panics_because).
  { intros h0. apply wp_call_bind. intros r. cbn in r.
    destruct r as [lvgs|err]; [|apply panics_ret]. cbv zeta.
    apply wp_bind. intros lvgs' h1 _. apply wp_call_bind. intros r. cbn in r.
    destruct r as [lscs|err]; [|apply panics_ret].
    apply panics_unless; [apply (panics_clear_lscs _ _ lscs); [by left|done]|].
    intros a h2 _. apply panics_ret. }
  unfold clearManualEvictionLabelsIfNeeded. destruct (has_label _ _); simpl; [|done].
  apply wp_call_bind. intros r. cbn in r. destruct r; [apply panics_ret|done].
Qed.

Lemma panics_labels sel l h : wp (reconcileLocalCSILabels l sel) h panics_because.
Proof using All.
  revert h. induction l as [|n l IH]; intros h; simpl; [apply panics_ret|].
  apply panics_unless; [|intros; apply IH].
  destruct (SetMatches _ _).
  - apply panics_unless; [apply panics_clear|intros; apply panics_ret].
  - destruct (has_label _ _) eqn:Hl; simpl; [by apply panics_evict|apply panics_ret].
Qed.

(** A pass of the node watcher panics only on a node that matches the
    selector and has no labels at all, or on a class without spec.lvm. *)
Lemma reconcileLocalCSINodes_panics :
  wp (reconcileLocalCSINodes secret) [] panics_because.
Proof.
  unfold reconcileLocalCSINodes.
  destruct (getNodeSelectorFromConfig _) as [sel|err]; [|apply panics_ret].
  apply wp_call_bind. intros r. cbn in r. destruct r as [selected|err]; [|apply panics_ret].
  apply panics_unless.
  - apply (panics_label_nodes sel). intros n ?. exists selected. split; [by left|done].
  - intros [] h1 _. apply wp_call_bind. intros r. cbn in r.
    destruct r as [nodes|err]; [|apply panics_ret].
    apply panics_unless; [apply panics_labels|intros; apply panics_ret].
Qed.

(** ** Completeness *)

(** What a pass asked of the nodes the selector lists, the latest first. *)
Definition labelled (selected : list Node) (first : hist) : Prop :=
  map ev_op first = reverse (map (λ n, WUpdateNode (with_meta (put_label localCsiNodeSelectorLabel) n))
    (filter (λ n, has_label localCsiNodeSelectorLabel (node_meta n) = false) selected)).

(** What a pass did for a node that matches: the mark goes, then the groups and
    classes are gone through, unless the update was refused. *)
Definition welcomed n (seg : hist) : Prop :=
  ∃ seg', (seg' = [] ∨ ∃ r rest, seg' = (rest ++ [ev WListLVG r])%list) ∧
    if has_label nodeManualEvictionLabel (node_meta n)
    then ∃ r, seg = (seg' ++ [ev (WUpdateNode (with_meta (drop_label nodeManualEvictionLabel) n)) r])%list
              ∧ match r with None => seg' ≠ [] | Some _ => seg' = [] end
    else seg = seg' ∧ seg' ≠ [].

(** What a pass did for a node that is leaving: one of its own two lists could
    not be read; or by these lists it was free to leave, and was asked to lose
    the label and the mark; or it was not, and carries the mark or was asked to
    carry it. *)
Definition seen_off n (seg : hist) : Prop :=
  (∃ err, seg = [ev WListLVG (inr err)]) ∨
  (∃ lvgs err, seg = [ev WListLSC (inr err); ev WListLVG (inl lvgs)]) ∨
  ∃ lvgs lscs new, seg = (new ++ [ev WListLSC (inl lscs); ev WListLVG (inl lvgs)])%list ∧
    ((free_to_leave n lvgs lscs ∧ ∃ r,
        new = [ev (WUpdateNode (with_meta (λ m, drop_label nodeManualEvictionLabel
                 (drop_label localCsiNodeSelectorLabel m)) n)) r]) ∨
     (¬ free_to_leave n lvgs lscs ∧
        if has_label nodeManualEvictionLabel (node_meta n) then True
        else ∃ new' r, new = (new' ++
               [ev (WUpdateNode (with_meta (put_label nodeManualEvictionLabel) n)) r])%list)).

(** What a pass did for one node. *)
Definition handled sel n (seg : hist) : Prop :=
  if SetMatches sel (om_Labels (node_meta n)) then welcomed n seg
  else if has_label localCsiNodeSelectorLabel (node_meta n) then seen_off n seg
  else seg = [].

(** What a part of a pass that does not panic adds to the history. *)
Definition adds {A} (P : hist → Prop) (p : nw A) : Prop :=
  ∀ h, wp p h (λ out h', out ≠ None → ∃ seg, h' = (seg ++ h)%list ∧ P seg).

Lemma wp_label_nodes l :
  adds (labelled l) (labelNodesWithLocalCSIIfNeeded l).
Proof.
  unfold labelled. induction l as [|n l IH]; intros h; simpl.
  { apply wp_ret. intros _. by exists []. }
  rewrite filter_cons. destruct (has_label _ _) eqn:Hl.
  { rewrite decide_False by done. apply IH. }
  rewrite decide_True by done. apply wp_unless. unfold label_node.
  destruct (om_Labels (node_meta n)); [|by apply wp_ret].
  apply wp_call_bind. intros r. apply wp_ret. eapply wp_mono; [apply IH|]. intros out h' Hs Hout.
  destruct (Hs Hout) as (seg & -> & Hseg). eexists (seg ++ [_])%list. rewrite <-app_assoc.
  split; [done|]. rewrite map_app.
  etransitivity; [|symmetry; apply reverse_cons].
  exact (f_equal (λ os : list nw_op, os ++ [_])%list Hseg).
Qed.

Lemma wp_welcomed n : adds (welcomed n) (clearManualEvictionLabelsIfNeeded n).
Proof.
  assert (Hd : ∀ h, wp (clear_dependents (GetName n)) h (λ _ h', ∃ r rest,
    h' = (rest ++ ev WListLVG r :: h)%list)).
  { intros h. apply wp_call_bind. intros r. eapply wp_mono; [apply wp_extends|].
    intros a h' [rest ->]. by exists r, rest. }
  intros h. unfold clearManualEvictionLabelsIfNeeded, welcomed.
  destruct (has_label nodeManualEvictionLabel _); simpl.
  - apply wp_call_bind. intros [err|].
    + apply wp_ret. intros _. eexists [_]. split; [done|]. exists []. split; [by left|].
      by exists (Some err).
    + eapply wp_mono; [apply Hd|]. intros out h' (r & rest & ->) _.
      eexists (rest ++ [_; _])%list. rewrite <-app_assoc. split; [done|].
      exists (rest ++ [ev WListLVG r])%list. split; [right; by exists r, rest|].
      exists None. rewrite <-app_assoc. split; [done|]. by intros [_ [=]]%app_eq_nil.
  - eapply wp_mono; [apply Hd|]. intros out h' (r & rest & ->) _.
    exists (rest ++ [ev WListLVG r])%list. rewrite <-app_assoc. split; [done|].
    eexists. split; [right; by exists r, rest|]. split; [done|]. by intros [_ [=]]%app_eq_nil.
Qed.

Lemma wp_seen_off n : adds (seen_off n) (evict_node n).
Proof.
  intros h. apply wp_unless. unfold getManuallyEvictedLVGsAndLSCs.
  apply wp_call_bind. intros r. cbn in r. destruct r as [lvgs|err].
  2: { apply wp_ret, wp_ret. intros _. eexists [_]. split; [done|]. left. by exists err. }
  apply wp_call_bind. intros r. cbn in r. destruct r as [lscs|err].
  2: { apply wp_ret, wp_ret. intros _. eexists [_; _]. split; [done|]. right. left. by exists lvgs, err. }
  apply wp_ret. destruct (evicted_of _ _ _) as [s|] eqn:Hs; simpl; [|done].
  apply free_iff in Hs.
  set (h1 := _ :: _ :: h).
  assert (Hmore : ∀ new, seen_off n (new ++ [ev WListLSC (inl lscs); ev WListLVG (inl lvgs)])%list →
    ∃ seg, (new ++ h1)%list = (seg ++ h)%list ∧ seen_off n seg).
  { intros new Hn. eexists. split; [|exact Hn]. by rewrite <-app_assoc. }
  destruct (_ && _) eqn:Hfree.
  - apply andb_true_iff in Hfree as [?%bool_decide_eq_true ?%bool_decide_eq_true].
    apply wp_call_bind. intros r. apply wp_ret. intros _. apply (Hmore [_]).
    right. right. eexists lvgs, lscs, [_]. split; [done|]. left. split; [by apply Hs|by eexists].
  - assert (Hn : ¬ free_to_leave n lvgs lscs).
    { intros [? ?]%Hs. by rewrite !bool_decide_true in Hfree. }
    clear Hs Hfree.
    assert (Hmark : ∀ new, (if has_label nodeManualEvictionLabel (node_meta n) then True
      else ∃ new' r, new = (new' ++
             [ev (WUpdateNode (with_meta (put_label nodeManualEvictionLabel) n)) r])%list) →
      ∃ seg, (new ++ h1)%list = (seg ++ h)%list ∧ seen_off n seg).
    { intros new Hnew. apply Hmore. right. right. exists lvgs, lscs, new. split; [done|]. by right. }
    unfold addLabelOnTheNodeIfNotExist, label_node.
    destruct (has_label nodeManualEvictionLabel _).
    { eapply wp_mono; [apply wp_extends|]. intros out h' [new ->] _. by apply Hmark. }
    destruct (om_Labels _); [|by repeat apply wp_ret].
    apply wp_unless, wp_unless, wp_fmap. intros r h' [r' [-> ->]]. apply wp_ret.
    eapply wp_mono; [apply wp_extends|]. intros out h' [new ->] _.
    destruct (Hmark _ (ex_intro _ new (ex_intro _ r' eq_refl))) as (seg & Hseg & Hoff).
    exists seg. split; [|done]. by rewrite <-Hseg, <-app_assoc.
Qed.

Lemma wp_handled sel l h :
  wp (reconcileLocalCSILabels l sel) h (λ out h', out ≠ None → ∃ segs,
    h' = (concat (reverse segs) ++ h)%list ∧ Forall2 (handled sel) l segs).
Proof.
  revert h. induction l as [|n l IH]; intros h; simpl.
  { apply wp_ret. intros _. by exists []. }
  assert (Hn : adds (handled sel n)
    (if SetMatches sel (om_Labels (node_meta n))
     then unlessPanic (clearManualEvictionLabelsIfNeeded n) (λ _, mret (Some tt))
     else if negb (has_label localCsiNodeSelectorLabel (node_meta n)) then mret (Some tt)
     else evict_node n)).
  { intros h0. unfold handled. destruct (SetMatches _ _).
    - apply wp_unless. eapply wp_mono; [apply wp_welcomed|].
      intros [a|] h' Hw; [apply wp_ret; intros _; by apply Hw|done].
    - destruct (has_label _ _); simpl; [apply wp_seen_off|]. apply wp_ret. intros _. by exists []. }
  apply wp_unless. eapply wp_mono; [apply Hn|]. intros [[]|] h' Hseg; [|done].
  destruct Hseg as (seg & -> & Hseg); [done|]. eapply wp_mono; [apply IH|].
  intros out h'' Hs Hout. destruct (Hs Hout) as (segs & -> & Hsegs). exists (seg :: segs).
  split; [|by constructor]. rewrite reverse_cons, concat_app, <-app_assoc. simpl.
  by rewrite app_nil_r.
Qed.

(** C35: a pass of the node watcher that ends without an error went over every
    node.  First it asked the label for each node listed by the selector that
    lacks it.  Then, one after the other, in the order of the list of all nodes:
    a node that matches was asked to lose the mark if it carries it, and the
    groups were listed to be cleared; a node that does not match and has the
    label was asked to lose both when the two lists read for it leave nothing on
    it, and else carries the mark or was asked to carry it, unless one of these
    two lists, its own, could not be read; of any other node nothing was asked.
    An update that is refused is logged, the pass goes on, and the next one asks
    again. *)
Theorem reconcileLocalCSINodes_covers_every_node :
  wp (reconcileLocalCSINodes secret) [] (λ out h, out = Some None →
    ∃ sel selected nodes first segs,
      UnmarshalNodeSelector (default "" (secret !! "config"%string)) = inl sel ∧
      h = (concat (reverse segs) ++ ev (WListNodes None) (inl nodes) ::
           first ++ [ev (WListNodes (Some sel)) (inl selected)])%list ∧
      labelled selected first ∧ Forall2 (handled sel) nodes segs).
Proof.
  unfold reconcileLocalCSINodes.
  destruct (getNodeSelectorFromConfig _) as [sel|err] eqn:Hsel; [|by apply wp_ret].
  apply wp_call_bind. intros r. cbn in r. destruct r as [selected|err]; [|by apply wp_ret].
  apply wp_unless. eapply wp_mono; [apply wp_label_nodes|].
  intros [[]|] h1 Hl; [|done]. destruct Hl as (first & -> & Hl); [done|].
  apply wp_call_bind. intros r. cbn in r. destruct r as [nodes|err]; [|by apply wp_ret].
  apply wp_unless. eapply wp_mono; [apply wp_handled|].
  intros [[]|] h2 Hs; [|done]. destruct Hs as (segs & -> & Hs); [done|]. apply wp_ret. intros _.
  by exists sel, selected, nodes, first, segs.
Qed.
End safety.
