(* ===== verification/Settings.v ===== *)
(** * Settings

    What the programs read of their environment when they start, and the
    metrics of the CSI driver:
    images/controller/pkg/config/config.go, pkg/logger/logger.go (the same file
    in the three images) and images/sds-local-volume-csi/pkg/monitoring. *)

From S2P Require Import Prelude Effects Kube Monitoring CSINode.

Local Open Scope string_scope.

(** ** [time.ParseDuration]

    One definition per step of the parser of Go's standard library; [None] is
    any of its errors. *)

(** [leadingInt]: the number at the start of a string, and the rest. *)
Fixpoint leadingInt (x : Z) (s : string) : option (Z * string) :=
  match s with
  | EmptyString => Some (x, "")
  | String c s' =>
      match digit_value c with
      | None => Some (x, s)
      | Some d =>
          if (922337203685477580 <? x)%Z then None
          else
            let x := (x * 10 + d)%Z in
            if (9223372036854775808 <? x)%Z then None else leadingInt x s'
      end
  end.

Definition float64_mul (x y : float64) : float64 := SFmul 53 1024 x y.
Definition float64_div (x y : float64) : float64 := SFdiv 53 1024 x y.

(** [uint64 (x)] of a float that is neither negative nor too large: truncation. *)
Definition uint64_of_float (x : float64) : Z :=
  match x with
  | S754_finite false m e => if (0 <=? e)%Z then Z.shiftl (Zpos m) e else Z.shiftr (Zpos m) (- e)
  | _ => 0%Z
  end.

(** [leadingFraction]: the digits after the point, as a number and the power of
    ten it is to be divided by; digits that do not fit are dropped. *)
Fixpoint leadingFraction (x : Z) (scale : float64) (overflow : bool) (s : string)
    : Z * float64 * string :=
  match s with
  | EmptyString => (x, scale, "")
  | String c s' =>
      match digit_value c with
      | None => (x, scale, s)
      | Some d =>
          if overflow then leadingFraction x scale true s'
          else if (922337203685477580 <? x)%Z then leadingFraction x scale true s'
          else
            let y := (x * 10 + d)%Z in
            if (9223372036854775808 <? y)%Z then leadingFraction x scale true s'
            else leadingFraction y (float64_mul scale (float64_of_int 10)) false s'
      end
  end.

(** The unit at the start of a string, up to a digit or a point. *)
Fixpoint leadingUnit (s : string) : string * string :=
  match s with
  | EmptyString => ("", "")
  | String c s' =>
      if bool_decide (is_Some (digit_value c)) || bool_decide (String c "" = ".") then ("", s)
      else let '(u, rest) := leadingUnit s' in (String c u, rest)
  end.

(** The two spellings of the micro sign, in UTF-8. *)
Definition bytes (ns : list nat) : string :=
  foldr (λ n s, String (Ascii.ascii_of_nat n) s) "" ns.

Definition unitMap : list (string * Z) :=
  [("ns", 1%Z); ("us", 1000%Z); (bytes [194; 181; 115], 1000%Z);
   (bytes [206; 188; 115], 1000%Z); ("ms", 1000000%Z); ("s", 1000000000%Z);
   ("m", 60000000000%Z); ("h", 3600000000000%Z)].

Definition unit_of (u : string) : option Z :=
  snd <$> List.find (λ kv, bool_decide (fst kv = u)) unitMap.

(** The fraction of a number: what follows the point, if there is one, and
    whether it has digits. *)
Definition fraction (s : string) : Z * float64 * string * bool :=
  match s with
  | String c s' =>
      if bool_decide (String c "" = ".")
      then let '(f, scale, rest) := leadingFraction 0 (float64_of_int 1) false s' in
           (f, scale, rest, negb (bool_decide (rest = s')))
      else (0%Z, float64_of_int 1, s, false)
  | EmptyString => (0%Z, float64_of_int 1, s, false)
  end.

(** One number with its unit, in nanoseconds. *)
Definition parse_part (s : string) : option (Z * string) :=
  '(v, s1) ← leadingInt 0 s;
  let pre := negb (bool_decide (s1 = s)) in
  let '(f, scale, s2, post) := fraction s1 in
  if negb pre && negb post then None
  else
    let '(u, s3) := leadingUnit s2 in
    unit ← (if bool_decide (u = "") then None else unit_of u);
    if (9223372036854775808 / unit <? v)%Z then None
    else
      let v := (v * unit)%Z in
      let v := if (0 <? f)%Z
               then (v + uint64_of_float
                           (float64_mul (float64_of_int f)
                              (float64_div (float64_of_int unit) scale)))%Z
               else v in
      if (9223372036854775808 <? v)%Z then None else Some (v, s3).

(** The loop: each part takes at least a byte, so the length is enough fuel. *)
Fixpoint parse_parts (fuel : nat) (s : string) (d : Z) : option Z :=
  match s, fuel with
  | EmptyString, _ => Some d
  | _, O => None
  | _, Datatypes.S fuel =>
      '(v, s) ← parse_part s;
      let d := (d + v)%Z in
      if (9223372036854775808 <? d)%Z then None else parse_parts fuel s d
  end.

Definition ParseDuration (s : string) : option Z :=
  let '(neg, s) :=
    match s with
    | String c s' => if bool_decide (String c "" = "-") then (true, s')
                     else if bool_decide (String c "" = "+") then (false, s') else (false, s)
    | EmptyString => (false, s)
    end in
  if bool_decide (s = "0") then Some 0%Z
  else if bool_decide (s = "") then None
  else
    d ← parse_parts (String.length s) s 0;
    if neg then Some (i64 (- d))
    else if (int64_max <? d)%Z then None else Some d.

(** ** [strings.TrimSpace] *)

(** The white space of Unicode, in UTF-8. *)
Definition white_space : list string :=
  map bytes
    ([[9]; [10]; [11]; [12]; [13]; [32]; [194; 133]; [194; 160]; [225; 154; 128];
      [226; 128; 168]; [226; 128; 169]; [226; 128; 175]; [226; 129; 159]; [227; 128; 128]]
     ++ map (λ n, [226; 128; n]) (seq 128 11))%list.

Fixpoint trim_left (fuel : nat) (s : string) : string :=
  match fuel with
  | O => s
  | Datatypes.S fuel =>
      match List.find (HasPrefix s) white_space with
      | Some w => trim_left fuel (string_drop (String.length w) s)
      | None => s
      end
  end.

Definition string_take (n : nat) (s : string) : string := String.substring 0 n s.

(** [strings.HasSuffix]. *)
Definition HasSuffix (s suffix : string) : bool :=
  bool_decide (string_drop (String.length s - String.length suffix)%nat s = suffix).

Fixpoint trim_right (fuel : nat) (s : string) : string :=
  match fuel with
  | O => s
  | Datatypes.S fuel =>
      match List.find (HasSuffix s) white_space with
      | Some w => trim_right fuel (string_take (String.length s - String.length w)%nat s)
      | None => s
      end
  end.

Definition TrimSpace (s : string) : string :=
  let s := trim_left (String.length s) s in trim_right (String.length s) s.

(** ** The controller *)

Definition LogLevel := "LOG_LEVEL".
Definition ConfigSecretName := "d8-sds-local-volume-controller-config".
Definition ControllerNamespaceEnv := "CONTROLLER_NAMESPACE".
Definition HardcodedControllerNS := "d8-sds-local-volume".
Definition DefaultHealthProbeBindAddressEnvName := "HEALTH_PROBE_BIND_ADDRESS".
Definition DefaultHealthProbeBindAddress := ":8081".
Definition MetricsBindAddressEnvName := "METRICS_BIND_ADDRESS".
Definition DefaultMetricsBindAddress := ":8080".
Definition DefaultLLVSweepInterval : Z := Minute.
Definition LLVOrphanGracePeriodEnvName := "LLV_ORPHAN_GRACE_PERIOD".
Definition DefaultLLVOrphanGracePeriod : Z := 30 * Second.
Definition DebugLevel := "3".

Record Options := mkOptions {
  opt_Loglevel : string;
  opt_RequeueStorageClassInterval : Z;
  opt_RequeueSecretInterval : Z;
  opt_ConfigSecretName : string;
  opt_ControllerNamespace : string;
  opt_HealthProbeBindAddress : string;
  opt_MetricsBindAddress : string;
  opt_LLVSweepInterval : Z;
  opt_LLVOrphanGracePeriod : Z;
}.

(** durationFromEnv, on the value of the variable *)
Definition durationFromEnv (value : string) (def : Z) : Z :=
  let raw := TrimSpace value in
  if bool_decide (raw = "") then def
  else match ParseDuration raw with
       | Some d => if (d <=? 0)%Z then def else d
       | None => def
       end.

(** NewConfig, on the environment and the file with the namespace *)
Definition NewConfig (Getenv : string → string) (namespace_file : option string) : Options :=
  let or_default name def := if bool_decide (Getenv name = "") then def else Getenv name in
  mkOptions (or_default LogLevel DebugLevel) 10 10 ConfigSecretName
    (if bool_decide (Getenv ControllerNamespaceEnv = "")
     then default HardcodedControllerNS namespace_file
     else Getenv ControllerNamespaceEnv)
    (or_default DefaultHealthProbeBindAddressEnvName DefaultHealthProbeBindAddress)
    (or_default MetricsBindAddressEnvName DefaultMetricsBindAddress)
    DefaultLLVSweepInterval
    (durationFromEnv (Getenv LLVOrphanGracePeriodEnvName) DefaultLLVOrphanGracePeriod).

(** ** The verbosity of the logger *)

Inductive log_level := LevelError | LevelWarn | LevelInfo | LevelDebug | LevelTrace.

(** Verbosity.Level: the level, and whether it fails *)
Definition Level (v : string) : log_level * bool :=
  match Atoi v with
  | None => (LevelInfo, true)
  | Some n =>
      if (n =? 0)%Z then (LevelError, false)
      else if (n =? 1)%Z then (LevelWarn, false)
      else if (n =? 2)%Z then (LevelInfo, false)
      else if (n =? 3)%Z then (LevelDebug, false)
      else if (n <? 0)%Z then (LevelInfo, true)
      else (LevelTrace, false)
  end.

(** ** The metrics of the CSI driver *)

Definition OperationsTotal := "sds_local_volume_csi_operations_total".
Definition OperationDurationSeconds := "sds_local_volume_csi_operation_duration_seconds".
Definition LabelMethod := "method".
Definition LabelGRPCCode := "grpc_code".

(** ShortMethodName: what follows the last slash *)
Fixpoint ShortMethodName (fullMethod : string) : string :=
  match fullMethod with
  | EmptyString => ""
  | String c rest =>
      if bool_decide (String c "" = "/") || strings_Contains rest "/"
      then ShortMethodName rest else fullMethod
  end.

Definition operationDurationBuckets : list float64 :=
  [float64_literal 1 100; float64_literal 5 100; float64_literal 1 10; float64_literal 25 100;
   float64_literal 5 10; float64_of_int 1; float64_literal 25 10; float64_of_int 5;
   float64_of_int 10; float64_of_int 30; float64_of_int 60; float64_of_int 120;
   float64_of_int 300].

(** Register of the driver *)
Definition Register : prog regSig (option string) :=
  register (mkDecl Counter OperationsTotal [LabelMethod; LabelGRPCCode] []) (
  register (mkDecl Histogram OperationDurationSeconds [LabelMethod] operationDurationBuckets) (
  mret None)).

(** ObserveOperation, given the duration and the text of the status code *)
Definition ObserveOperation (r : Recorder) (fullMethod : string) (since : Z) (code : string)
    : list metric_op :=
  recorded r [
    HistogramObserve OperationDurationSeconds since
      {[ LabelMethod := ShortMethodName fullMethod ]} operationDurationBuckets;
    CounterAdd OperationsTotal (float64_of_int 1)
      {[ LabelMethod := ShortMethodName fullMethod; LabelGRPCCode := code ]} ].

Example parse_examples :
  map ParseDuration ["45s"; "1h15m30.918s"; "-1.5h"; "0"; "1.5"; ""; ".5ms"; "9223372036.854775807s";
                     "9223372036.9s"; "+2m"; "3x"] =
  [Some (45 * Second)%Z; Some 4530918000000%Z; Some (-5400000000000)%Z; Some 0%Z; None; None;
   Some 500000%Z; Some 9223372036854775807%Z; None; Some (2 * Minute)%Z; None].
Proof. vm_compute. reflexivity. Qed.

(** ** What the settings mean *)

(** The digits of a number read as the number. *)
Lemma leadingInt_digits n s :
  (Z.of_N n ≤ 9223372036854775808)%Z → (0 < n)%N →
  leadingInt 0 (pretty_N_go n s) = leadingInt (Z.of_N n) s.
Proof.
  revert s. induction (N.lt_wf_0 n) as [n _ IH]; intros s Hn Hpos.
  rewrite pretty_N_go_step by done.
  assert (Hd : digit_value (pretty_N_char (n `mod` 10)) = Some (Z.of_N (n `mod` 10))).
  { assert (n `mod` 10 < 10)%N by (by apply N.mod_lt).
    destruct (n `mod` 10)%N as [|[[[[]|[]|]|[[]|[]|]|]|[[[]|[]|]|[[]|[]|]|]|]]; try lia;
      reflexivity. }
  assert (Hnext : leadingInt (Z.of_N (n `div` 10)) (String (pretty_N_char (n `mod` 10)) s)
                  = leadingInt (Z.of_N n) s).
  { pose proof (N.div_mod n 10 ltac:(lia)). assert (n `mod` 10 < 10)%N by (by apply N.mod_lt).
    cbn [leadingInt]. rewrite Hd. clear Hd IH.
    set (q := (n `div` 10)%N) in *. set (r := (n `mod` 10)%N) in *.
    replace (Z.of_N q * 10 + Z.of_N r)%Z with (Z.of_N n) by lia.
    rewrite (proj2 (Z.ltb_ge 922337203685477580 (Z.of_N q))) by lia.
    by rewrite (proj2 (Z.ltb_ge 9223372036854775808 (Z.of_N n))) by lia. }
  destruct (decide (n `div` 10 = 0)%N) as [Hz|Hz].
  - rewrite Hz in *. rewrite pretty_N_go_0. exact Hnext.
  - rewrite IH; [exact Hnext| | |].
    + apply N.div_lt; lia.
    + pose proof (N.Div0.div_le_upper_bound n 10 n ltac:(lia)). lia.
    + by apply N.neq_0_lt_0.
Qed.

Lemma leadingInt_pretty n s :
  (Z.of_N n ≤ 9223372036854775808)%Z → (0 < n)%N →
  leadingInt 0 (pretty n +:+ s) = leadingInt (Z.of_N n) s.
Proof.
  intros Hn Hpos. unfold pretty, pretty_N. rewrite decide_False by lia.
  rewrite <-leadingInt_digits by done. f_equal. clear Hn.
  change s with ("" +:+ s) at 2. generalize "".
  induction (N.lt_wf_0 n) as [n _ IH]. intros t.
  rewrite !(pretty_N_go_step n) by done. change (String ?c (t +:+ s)) with (String c t +:+ s).
  destruct (decide (n `div` 10 = 0)%N) as [->|Hz]; [done|].
  apply IH; [apply N.div_lt; lia|by apply N.neq_0_lt_0].
Qed.

Lemma digit_pretty_char n :
  (n < 10)%N → digit_value (pretty_N_char n) = Some (Z.of_N n).
Proof.
  intros Hn. destruct n as [|[[[[]|[]|]|[[]|[]|]|]|[[[]|[]|]|[[]|[]|]|]|]]; try lia; reflexivity.
Qed.

Lemma pretty_head n :
  (0 < n)%N → ∃ c t, pretty n = String c t ∧ is_Some (digit_value c).
Proof.
  intros Hpos. unfold pretty, pretty_N. rewrite decide_False by lia. generalize "".
  induction (N.lt_wf_0 n) as [n _ IH]. intros s. rewrite pretty_N_go_step by done.
  destruct (decide (n `div` 10 = 0)%N) as [->|Hz].
  - rewrite pretty_N_go_0. eexists _, _. split; [done|].
    rewrite digit_pretty_char by (by apply N.mod_lt). by eexists.
  - apply IH; [apply N.div_lt; lia|by apply N.neq_0_lt_0].
Qed.

Lemma digit_is c d : digit_value c = Some d → ∃ k, (48 ≤ k ≤ 57)%nat ∧ c = Ascii.ascii_of_nat k.
Proof.
  unfold digit_value. cbv zeta. case_bool_decide as H1; simpl; [|done].
  case_bool_decide as H2; simpl; [|done]. intros _. exists (Ascii.nat_of_ascii c).
  split; [done|]. by rewrite Ascii.ascii_nat_embedding.
Qed.

(** No white space starts with a digit. *)
Lemma digit_no_space c t :
  is_Some (digit_value c) → List.find (HasPrefix (String c t)) white_space = None.
Proof.
  intros [d [k [Hk ->]]%digit_is]. unfold white_space.
  do 48 (destruct k as [|k]; [lia|]).
  do 10 (destruct k as [|k]; [by destruct t|]). lia.
Qed.

(** Nor does one end in a letter s. *)
Fixpoint last_byte (s : string) : option Ascii.ascii :=
  match s with
  | EmptyString => None
  | String c EmptyString => Some c
  | String _ s => last_byte s
  end.

Lemma last_byte_drop k s : string_drop k s ≠ "" → last_byte (string_drop k s) = last_byte s.
Proof.
  revert s. induction k as [|k IH]; intros s Hs; [by destruct s|].
  destruct s as [|c s]; [done|]. simpl in Hs |- *. rewrite IH by done.
  destruct s; [by destruct k|done].
Qed.

Lemma last_byte_app s t : t ≠ "" → last_byte (s +:+ t) = last_byte t.
Proof.
  intros Ht. induction s as [|c s IH]; [done|].
  change (String c s +:+ t) with (String c (s +:+ t)). simpl. rewrite <-IH.
  by destruct s; [destruct t|].
Qed.

Lemma unit_no_space p : List.find (HasSuffix (p +:+ "s")) white_space = None.
Proof.
  destruct (List.find _ _) as [w|] eqn:Hw; [|done]. apply find_some in Hw as [Hin Hs].
  unfold HasSuffix in Hs. apply bool_decide_eq_true in Hs.
  assert (Hlast : last_byte w ≠ Some (Ascii.ascii_of_nat 115) ∧ w ≠ "").
  { apply list_elem_of_In in Hin. clear Hs. revert w Hin. apply list.Forall_forall.
    apply (bool_decide_unpack _). vm_compute. exact I. }
  destruct Hlast as [Hlast Hne]. destruct Hlast. rewrite <-Hs.
  rewrite last_byte_drop by (by rewrite Hs). by rewrite last_byte_app.
Qed.

Lemma TrimSpace_none s :
  List.find (HasPrefix s) white_space = None → List.find (HasSuffix s) white_space = None →
  TrimSpace s = s.
Proof.
  intros Hp Hs. assert (Hleft : ∀ k, trim_left k s = s).
  { intros [|k]; cbn [trim_left trim_right]; by rewrite ?Hp. }
  unfold TrimSpace. rewrite Hleft. cbv zeta.
  destruct (String.length s) as [|k]; cbn [trim_left trim_right]; by rewrite ?Hs.
Qed.

(** A whole number of seconds. *)
Lemma ParseDuration_seconds n :
  (0 < n)%N → (Z.of_N n ≤ 9223372036)%Z →
  ParseDuration (pretty n +:+ "s") = Some (Z.of_N n * Second)%Z.
Proof.
  intros Hpos Hn. destruct (pretty_head n Hpos) as (c & t & Hc & Hdigit).
  assert (Hpart : parse_part (pretty n +:+ "s") = Some (Z.of_N n * Second, "")%Z).
  { unfold parse_part. rewrite leadingInt_pretty by lia.
    change (leadingInt (Z.of_N n) "s") with (Some (Z.of_N n, "s")).
    cbv beta iota delta [mbind option_bind].
    rewrite (bool_decide_false ("s" = pretty n +:+ "s")).
    2: { rewrite Hc. intros [= <-]. by destruct Hdigit. }
    change (fraction "s") with (0%Z, float64_of_int 1, "s", false).
    cbv beta iota delta [negb andb]. change (leadingUnit "s") with ("s", ""). cbv iota.
    change (unit_of "s") with (Some 1000000000%Z).
    rewrite (bool_decide_false ("s" = "")) by done. cbv beta iota.
    change (9223372036854775808 / 1000000000)%Z with 9223372036%Z.
    rewrite (proj2 (Z.ltb_ge 9223372036 (Z.of_N n))) by lia.
    change (0 <? 0)%Z with false. cbv iota.
    by rewrite (proj2 (Z.ltb_ge 9223372036854775808 (Z.of_N n * 1000000000))) by lia. }
  revert Hpart. rewrite Hc. change (String c t +:+ "s") with (String c (t +:+ "s")).
  intros Hpart. unfold ParseDuration.
  assert (Hsign : String c "" ≠ "-" ∧ String c "" ≠ "+").
  { destruct Hdigit as [d [k [Hk ->]]%digit_is].
    do 48 (destruct k as [|k]; [lia|]). split; do 10 (destruct k as [|k]; [done|]); lia. }
  rewrite (bool_decide_false _ (proj1 Hsign)), (bool_decide_false _ (proj2 Hsign)). cbv iota.
  rewrite (bool_decide_false (String c (t +:+ "s") = "0")) by (by destruct t).
  rewrite (bool_decide_false (String c (t +:+ "s") = "")) by done.
  cbn [String.length parse_parts]. rewrite Hpart. cbn -[Z.mul Z.of_N Z.ltb Z.add].
  rewrite Z.add_0_l.
  rewrite (proj2 (Z.ltb_ge 9223372036854775808 (Z.of_N n * Second))) by (unfold Second; lia).
  destruct (String.length (t +:+ "s")); simpl;
    by rewrite (proj2 (Z.ltb_ge int64_max (Z.of_N n * Second))) by (unfold Second, int64_max; lia).
Qed.

Lemma ParseDuration_in_range s d : ParseDuration s = Some d → (d ≤ int64_max)%Z.
Proof.
  unfold ParseDuration. destruct (match s with "" => _ | _ => _ end) as [neg rest].
  case_bool_decide; [intros [= <-]; unfold int64_max; lia|].
  case_bool_decide; [done|].
  destruct (parse_parts _ _ _) as [n|]; simpl; [|done]. destruct neg.
  - intros [= <-]. apply i64_in_range.
  - destruct (Z.ltb_spec int64_max n); [done|]. by intros [= <-].
Qed.

(** A setting that cannot be used falls back to the default. *)
Lemma durationFromEnv_positive value def :
  (0 < def ≤ int64_max)%Z → (0 < durationFromEnv value def ≤ int64_max)%Z.
Proof.
  intros Hdef. unfold durationFromEnv. cbv zeta. case_bool_decide; [done|].
  destruct (ParseDuration _) as [d|] eqn:Hd; [|done].
  destruct (Z.leb_spec d 0); [done|]. split; [done|]. by eapply ParseDuration_in_range.
Qed.

(** C40: the grace period of the garbage collector is positive and fits an int64,
    whatever the environment holds; it is the default of 30 seconds when the
    variable is not set, and n seconds when it says so, for every n up to the
    largest that fits. *)
Theorem grace_period_is_the_one_configured Getenv namespace_file :
  let grace := opt_LLVOrphanGracePeriod (NewConfig Getenv namespace_file) in
  (0 < grace ≤ int64_max)%Z ∧
  (Getenv "LLV_ORPHAN_GRACE_PERIOD" = "" → grace = (30 * Second)%Z) ∧
  (∀ n : N, (0 < n)%N → (Z.of_N n ≤ int64_max / Second)%Z →
    Getenv "LLV_ORPHAN_GRACE_PERIOD" = pretty n +:+ "s" → grace = (Z.of_N n * Second)%Z).
Proof.
  cbv zeta. cbn [opt_LLVOrphanGracePeriod NewConfig]. split; [|split].
  - apply durationFromEnv_positive. unfold DefaultLLVOrphanGracePeriod, Second, int64_max. lia.
  - unfold LLVOrphanGracePeriodEnvName. intros ->. reflexivity.
  - unfold LLVOrphanGracePeriodEnvName. intros n Hpos Hn ->. unfold durationFromEnv.
    change (int64_max / Second)%Z with 9223372036%Z in Hn.
    destruct (pretty_head n Hpos) as (c & t & Hc & Hdigit).
    rewrite TrimSpace_none; [|rewrite Hc; by apply digit_no_space|apply unit_no_space].
    cbv zeta. rewrite ParseDuration_seconds by done.
    rewrite bool_decide_false by (by rewrite Hc).
    by rewrite (proj2 (Z.leb_gt (Z.of_N n * Second) 0)) by (unfold Second; lia).
Qed.

(** ** Method names *)

Lemma ShortMethodName_no_slash s : strings_Contains (ShortMethodName s) "/" = false.
Proof.
  induction s as [|c s IH]; [done|]. cbn [ShortMethodName].
  destruct (bool_decide (String c "" = "/") || strings_Contains s "/") eqn:Hc; [exact IH|].
  apply orb_false_iff in Hc as [Hc Hs]. cbn [strings_Contains]. apply orb_false_iff.
  split; [|exact Hs]. apply bool_decide_eq_false in Hc. unfold HasPrefix. simpl.
  case_match eqn:Heq; [|done]. destruct Hc. by subst c.
Qed.
