(* ===== verification/Loggers.v ===== *)
(** * The loggers

    pkg/logger: what the programs add to the log library, in
    images/sds-local-volume-csi/pkg/logger/logger.go (the controller and the
    webhooks have copies of the file), and
    images/webhooks/pkg/logger/kubewebhook.go, which hands the library of the
    webhooks a logger of its own kind.  The library is third-party: its loggers
    are opaque and its methods are the operations. *)

From S2P Require Import Prelude Effects Kube Monitoring Settings.

Local Open Scope string_scope.

Class LogLibrary := {
  LibLogger : Type;                        (* *log.Logger *)
  LogValue : Type;                         (* any *)
  string_value : string → LogValue;
  Sprintf : string → list LogValue → string;
  Ctx : Type;
  ValuesFromCtx : Ctx → gmap string LogValue;
  CtxWithValues : Ctx → gmap string LogValue → Ctx;
}.

Section loggers.
Context `{LogLibrary, MapRange}.

Inductive log_op :=
| LibNew (level : log_level) (output : bool)      (* is there a writer of its own *)
| LibNop
| LibNamed (l : LibLogger) (name : string)
| LibWith (l : LibLogger) (args : list LogValue)
| LibSetLevel (l : LibLogger) (level : log_level)
| LibEnabled (l : LibLogger) (level : log_level)
| LibHandle (l : LibLogger) (level : log_level) (message : string) (args : list LogValue)
| LibLog (l : LibLogger) (level : log_level) (message : string) (args : list LogValue).

Definition log_res (o : log_op) : Type :=
  match o with
  | LibNew _ _ | LibNop | LibNamed _ _ | LibWith _ _ => LibLogger
  | LibSetLevel _ _ | LibLog _ _ _ _ => unit
  | LibEnabled _ _ => bool
  | LibHandle _ _ _ _ => option string
  end.

Definition logSig : sig := Sig log_op log_res.
Definition log_call (o : log_op) : prog logSig (log_res o) := call (S := logSig) o.

(** The zero value has no logger. *)
Record Logger := mkLogger { embedded : LibLogger }.

Definition NewLogger (level : string) : prog logSig (Logger + unit) :=
  let '(lvl, failed) := Level level in
  if failed then mret (inr tt)
  else l ← log_call (LibNew lvl false); mret (inl (mkLogger l)).

Definition NewLoggerToWriter (level : string) : prog logSig (Logger + unit) :=
  let '(lvl, failed) := Level level in
  if failed then mret (inr tt)
  else l ← log_call (LibNew lvl true); mret (inl (mkLogger l)).

Definition NewNop : prog logSig Logger := l ← log_call LibNop; mret (mkLogger l).

Definition NewLoggerFromSlog (l : LibLogger) : Logger := mkLogger l.

Definition Named (l : Logger) (name : string) : prog logSig Logger :=
  l ← log_call (LibNamed (embedded l) name); mret (mkLogger l).

Definition With (l : Logger) (args : list LogValue) : prog logSig Logger :=
  l ← log_call (LibWith (embedded l) args); mret (mkLogger l).

(** Whether it failed. *)
Definition SetVerbosity (l : Logger) (level : string) : prog logSig bool :=
  let '(lvl, failed) := Level level in
  if failed then mret true
  else _ ← log_call (LibSetLevel (embedded l) lvl); mret false.

Definition GetSlogLogger (l : Logger) : LibLogger := embedded l.

Definition Trace (l : Logger) (message : string) (args : list LogValue) : prog logSig unit :=
  enabled ← log_call (LibEnabled (embedded l) LevelTrace);
  if negb enabled then mret tt
  else _ ← log_call (LibHandle (embedded l) LevelTrace message args); mret tt.

(** ** The logger of kubewebhook *)

Record kubewebhookAdapter := mkAdapter {
  a_log : Logger;
  a_values : gmap string LogValue;
}.

Definition NewKubewebhookLogger (log : Logger) : prog logSig kubewebhookAdapter :=
  log ← Named log "kubewebhook"; mret (mkAdapter log ∅).

(** fields: the values, one after its key, in the order Go goes through the map *)
Definition fields (a : kubewebhookAdapter) : list LogValue :=
  if bool_decide (size (a_values a) = 0) then []
  else '(k, v) ← range (a_values a); [string_value k; v].

Definition logf (level : log_level) (a : kubewebhookAdapter) (format : string)
    (args : list LogValue) : prog logSig unit :=
  log_call (LibLog (embedded (a_log a)) level (Sprintf format args) (fields a)).

Definition Infof := logf LevelInfo.
Definition Warningf := logf LevelWarn.
Definition Errorf := logf LevelError.
Definition Debugf := logf LevelDebug.

(** The two loops of WithValues: what was there, then what is added. *)
Definition merge (into : gmap string LogValue) (l : list (string * LogValue)) : gmap string LogValue :=
  foldl (λ m '(k, v), <[k := v]> m) into l.

Definition WithValues (a : kubewebhookAdapter) (values : gmap string LogValue) : kubewebhookAdapter :=
  if bool_decide (size values = 0) then a
  else mkAdapter (a_log a) (merge (merge ∅ (range (a_values a))) (range values)).

Definition WithCtxValues (a : kubewebhookAdapter) (ctx : Ctx) : kubewebhookAdapter :=
  WithValues a (ValuesFromCtx ctx).

Definition SetValuesOnCtx (a : kubewebhookAdapter) (parent : Ctx) (values : gmap string LogValue) : Ctx :=
  CtxWithValues parent values.

(** ** What they do *)

(** A level that does not parse leaves the logger as it is. *)
Lemma SetVerbosity_all_or_nothing l level h :
  wp (SetVerbosity l level) h (λ failed h',
    failed = snd (Level level) ∧
    if failed then h' = h
    else h' = Ev (S := logSig) (LibSetLevel (embedded l) (fst (Level level))) tt :: h).
Proof.
  unfold SetVerbosity. destruct (Level level) as [lvl []]; simpl; [by apply wp_ret|].
  apply wp_call_bind. intros []. by apply wp_ret.
Qed.

(** Nothing is handled at a level that is not enabled. *)
Lemma Trace_needs_the_level l message args h :
  wp (Trace l message args) h (λ _ h', ∃ enabled new,
    h' = (new ++ Ev (S := logSig) (LibEnabled (embedded l) LevelTrace) enabled :: h)%list ∧
    if enabled then ∃ r, new = [Ev (S := logSig) (LibHandle (embedded l) LevelTrace message args) r]
    else new = []).
Proof.
  apply wp_call_bind. intros [|]; simpl.
  - apply wp_call_bind. intros r. apply wp_ret. exists true, [Ev (S := logSig) (LibHandle _ _ _ _) r].
    split; [done|]. by exists r.
  - apply wp_ret. by exists false, [].
Qed.

Lemma merge_union into (m : gmap string LogValue) : merge into (range m) = m ∪ into.
Proof.
  assert (Hm : ∀ l : list (string * LogValue), NoDup l.*1 → merge into l = list_to_map l ∪ into).
  { intros l. revert into. induction l as [|[k v] l IH]; intros into; simpl; [by rewrite map_empty_union|].
    intros [Hk Hnd]%NoDup_cons. unfold merge in *. simpl. rewrite IH by done.
    rewrite <-insert_union_l, <-insert_union_r; [done|]. by apply not_elem_of_list_to_map_1. }
  rewrite Hm.
  - f_equal. rewrite (list_to_map_proper _ (map_to_list m)); [apply list_to_map_to_list| |apply range_perm].
    rewrite range_perm. apply NoDup_fst_map_to_list.
  - rewrite range_perm. apply NoDup_fst_map_to_list.
Qed.

(** What is added wins, what was there stays, and the adapter it was added to is
    not changed, whatever the order of the maps. *)
Lemma WithValues_spec a values :
  a_log (WithValues a values) = a_log a ∧ a_values (WithValues a values) = values ∪ a_values a.
Proof.
  unfold WithValues. case_bool_decide as Hs; simpl.
  - apply map_size_empty_inv in Hs as ->. by rewrite map_empty_union.
  - by rewrite !merge_union, map_union_empty.
Qed.

(** The fields are the values, each once. *)
Lemma fields_spec a : fields a ≡ₚ ('(k, v) ← map_to_list (a_values a); [string_value k; v]).
Proof.
  unfold fields. case_bool_decide as Hs.
  - apply map_size_empty_inv in Hs as ->. by rewrite map_to_list_empty.
  - by rewrite (range_perm (a_values a)).
Qed.
End loggers.
