(* ===== verification/Paths.v ===== *)
(** * File paths and suffixes

    The lexical functions of path/filepath on Unix and what else the tools of
    hack/ use of Go's package strings. *)

From S2P Require Import Prelude CSINode Settings.

Local Open Scope string_scope.

(** [strings.Split (s, sep)] for a one-byte separator. *)
Fixpoint strings_Split (s : string) (sep : Ascii.ascii) : list string :=
  match s with
  | EmptyString => [""]
  | String c s =>
      if bool_decide (c = sep) then "" :: strings_Split s sep
      else match strings_Split s sep with
           | w :: ws => String c w :: ws
           | [] => [String c ""]
           end
  end.

(** [strings.TrimSuffix]. *)
Definition TrimSuffix (s suffix : string) : string :=
  if HasSuffix s suffix then string_take (String.length s - String.length suffix)%nat s else s.

(** [strings.ContainsRune] for a rune of one byte. *)
Fixpoint ContainsByte (s : string) (c : Ascii.ascii) : bool :=
  match s with
  | EmptyString => false
  | String d s => bool_decide (d = c) || ContainsByte s c
  end.

(** ** path/filepath *)

Definition slash : Ascii.ascii := Ascii.ascii_of_nat 47.

(** One element of a path: nothing and "." are dropped, ".." takes the element
    before it back, where there is one.  The last element comes first. *)
Definition clean_elem (rooted : bool) (out : list string) (elem : string) : list string :=
  if bool_decide (elem = "") || bool_decide (elem = ".") then out
  else if bool_decide (elem = "..") then
    match out with
    | top :: rest => if bool_decide (top = "..") then ".." :: out else rest
    | [] => if rooted then [] else [".."]
    end
  else elem :: out.

Definition clean_elems (path : string) : list string :=
  foldl (clean_elem (HasPrefix path "/")) [] (strings_Split path slash).

(** [filepath.Clean]. *)
Definition Clean (path : string) : string :=
  let body := strings_Join (reverse (clean_elems path)) "/" in
  if HasPrefix path "/" then "/" +:+ body
  else if bool_decide (body = "") then "." else body.

(** [filepath.Join] of two elements: empty ones in front are ignored. *)
Definition Join (dir name : string) : string :=
  if negb (bool_decide (dir = "")) then Clean (dir +:+ "/" +:+ name)
  else if negb (bool_decide (name = "")) then Clean name
  else "".

Definition elements (path : string) : list string := filter (.≠ "") (strings_Split path slash).

(** [filepath.Base]: the last element. *)
Definition Base (path : string) : string :=
  if bool_decide (path = "") then "."
  else default "/" (last (elements path)).

(** [filepath.Dir]: what is before the last slash, cleaned. *)
Definition Dir (path : string) : string :=
  Clean (foldr (λ w s, w +:+ "/" +:+ s) "" (take (length (strings_Split path slash) - 1)
    (strings_Split path slash))).

Example paths_examples :
  (Clean "", Clean "a/./b//../c/", Clean "/../a", Clean "../../x", Clean "a/..") =
    (".", "a/c", "/a", "../../x", ".") ∧
  (Join "/src/" "CHANGELOG", Join "" "x", Join "a" "..", Join "" "") =
    ("/src/CHANGELOG", "x", ".", "") ∧
  (Base "", Base "//", Base "/a/b.yml", Base "a/") = (".", "/", "b.yml", "a") ∧
  (Dir "/x/y/z", Dir "z", Dir "/z", Dir "a/b/", Dir "") = ("/x/y", ".", "/", "a/b", ".").
Proof. vm_compute. done. Qed.

(** ** The name of a file in a directory *)

(** What the operating system calls a file in a directory. *)
Definition file_name (name : string) : bool :=
  negb (ContainsByte name slash || bool_decide (name = "") || bool_decide (name = ".")
        || bool_decide (name = "..")).

Lemma Split_not_nil s c : strings_Split s c ≠ [].
Proof.
  destruct s as [|d s]; cbn [strings_Split]; [done|].
  case_bool_decide; [done|]. by destruct (strings_Split s c).
Qed.

Lemma Split_app s t c : strings_Split (s +:+ String c t) c = (strings_Split s c ++ strings_Split t c)%list.
Proof.
  induction s as [|d s IH].
  - change ("" +:+ String c t) with (String c t). cbn [strings_Split].
    by rewrite bool_decide_true.
  - change (String d s +:+ String c t) with (String d (s +:+ String c t)).
    cbn [strings_Split]. case_bool_decide; [by rewrite IH|]. rewrite IH.
    pose proof (Split_not_nil s c). by destruct (strings_Split s c).
Qed.

Lemma Split_no_sep s c : ContainsByte s c = false → strings_Split s c = [s].
Proof.
  induction s as [|d s IH]; [done|]. cbn [ContainsByte strings_Split].
  intros [Hc Hs]%orb_false_iff. rewrite Hc. by rewrite IH.
Qed.

Lemma append_assoc s t u : s +:+ (t +:+ u) = (s +:+ t) +:+ u.
Proof.
  induction s as [|c s IH]; [done|].
  change (String c (s +:+ (t +:+ u)) = String c ((s +:+ t) +:+ u)). by rewrite IH.
Qed.

Lemma Join_snoc l x sep :
  l ≠ [] → strings_Join (l ++ [x])%list sep = strings_Join l sep +:+ sep +:+ x.
Proof.
  induction l as [|y l IH]; [done|]. intros _. destruct l as [|z l]; [done|].
  change (y +:+ sep +:+ strings_Join ((z :: l) ++ [x])%list sep =
          (y +:+ sep +:+ strings_Join (z :: l) sep) +:+ sep +:+ x).
  rewrite IH by done. by rewrite !append_assoc.
Qed.

Lemma Base_slash s name : file_name name = true → Base (s +:+ "/" +:+ name) = name.
Proof.
  unfold file_name. intros Hn. bool_simpl.
  rewrite !orb_false_iff in Hn. destruct Hn as [[[Hc Hn] _] _]. bool_simpl.
  unfold Base, elements. rewrite bool_decide_false by (by destruct s).
  change ("/" +:+ name) with (String slash name).
  by rewrite Split_app, (Split_no_sep name), filter_app, filter_cons_True, filter_nil, last_snoc.
Qed.

Lemma Base_plain name : file_name name = true → Base name = name.
Proof.
  unfold file_name. intros Hn. bool_simpl.
  rewrite !orb_false_iff in Hn. destruct Hn as [[[Hc Hn] _] _]. bool_simpl.
  unfold Base, elements. rewrite bool_decide_false by done.
  by rewrite (Split_no_sep name), filter_cons_True, filter_nil.
Qed.

Lemma clean_elem_name rooted out name :
  file_name name = true → clean_elem rooted out name = name :: out.
Proof.
  unfold file_name, clean_elem. intros Hn. bool_simpl.
  rewrite !orb_false_iff in Hn. destruct Hn as [[[_ H1] H2] H3]. by rewrite H1, H2, H3.
Qed.

(** A file keeps its name in the path of it. *)
Lemma Base_Join dir name : file_name name = true → Base (Join dir name) = name.
Proof.
  intros Hn. assert (Hs : ContainsByte name slash = false).
  { unfold file_name in Hn. bool_simpl. by rewrite !orb_false_iff in Hn; destruct Hn as [[[??]?]?]. }
  assert (Hjoin : ∀ path out, clean_elems path = name :: out → Base (Clean path) = name).
  { intros path out He. unfold Clean. rewrite He, reverse_cons.
    destruct (reverse out) as [|x l] eqn:E.
    - simpl. destruct (HasPrefix path "/"); [by apply (Base_slash "")|].
      rewrite bool_decide_false by (by intros ->). by apply Base_plain.
    - rewrite Join_snoc by done. destruct (HasPrefix path "/").
      + rewrite (append_assoc "/"). by apply Base_slash.
      + rewrite bool_decide_false; [by apply Base_slash|]. by destruct (strings_Join _ _). }
  unfold Join. case_bool_decide as Hd; simpl.
  - rewrite bool_decide_false by (by intros ->). apply (Hjoin _ []).
    unfold clean_elems. rewrite Split_no_sep by done. by apply clean_elem_name.
  - eapply Hjoin. unfold clean_elems. change ("/" +:+ name) with (String slash name).
    rewrite Split_app, (Split_no_sep name), foldl_app by done. by apply clean_elem_name.
Qed.
