(* ===== verification/ReleaseNotes.v ===== *)
(** * The release notes

    hack/generate_release_notes.go: the program that writes docs/RELEASE_NOTES.md
    and docs/RELEASE_NOTES.ru.md from the files of CHANGELOG/.  The operations
    are those of the file system and of standard output; the YAML reader is
    third-party.  The nodes it builds are in memory and refer to each other, and
    an anchor can contain an alias of itself, so the printers have fuel: [None]
    is a call that has not returned. *)

From S2P Require Import Prelude Effects CSINode Settings Paths.

Local Open Scope string_scope.

(** ** yaml.v3 *)

Inductive node_kind := DocumentNode | SequenceNode | MappingNode | ScalarNode | AliasNode | NoKind.

#[global] Instance node_kind_eq_dec : EqDecision node_kind.
Proof. solve_decision. Defined.

(** A yaml.Node; a pointer to one is where it is in memory. *)
Record Node := mkNode {
  Kind : node_kind;
  Value : string;
  Content : list nat;
  Alias : option nat;
}.

(** The nodes of a file, by where they are. *)
Definition nodes : Type := nat → Node.

(** [yaml.Unmarshal (data, &root)]: the root with the nodes, or the error. *)
Class YAMLReader := Unmarshal : string → (nodes * Node) + string.

(** The pairs [i], [i+1] of a loop [for i := 0; i+1 < len (l); i += 2]. *)
Fixpoint pairs {A} (l : list A) : list (A * A) :=
  match l with
  | k :: v :: l => (k, v) :: pairs l
  | _ => []
  end.

(** ** Versions *)

Definition parseVersionFromFilename (filename : string) : string :=
  TrimSuffix (TrimSuffix filename ".ru.yml") ".yml".

(** What leadingDigits finds. *)
Fixpoint leadingDigits (s : string) : string :=
  match s with
  | String c s => match digit_value c with Some _ => String c (leadingDigits s) | None => "" end
  | EmptyString => ""
  end.

(** [n, _ := strconv.Atoi (s)] for a sequence of digits: out of range it is the
    largest int. *)
Definition Atoi_digits (s : string) : Z := Z.min int64_max (default 0%Z (digits s 0)).

Definition version_part (p : string) : Z :=
  let m := leadingDigits p in
  if bool_decide (m = "") then 0%Z else Atoi_digits m.

Definition versionKey (path : string) : list Z :=
  let name := Base path in
  let v := TrimPrefix (parseVersionFromFilename name) "v" in
  map version_part (strings_Split v (Ascii.ascii_of_nat 46)).

(** [a[i]] where [i] is in range, and zero. *)
Definition key_at (a : list Z) (i : nat) : Z := default 0%Z (a !! i).

(** The loop of compareVersionKeys from [i], [n] steps before its end. *)
Fixpoint compare_from (a b : list Z) (i n : nat) : Z :=
  match n with
  | O => 0
  | S n =>
      let ai := key_at a i in
      let bi := key_at b i in
      if bool_decide (ai ≠ bi) then (if (ai <? bi)%Z then -1 else 1)%Z
      else compare_from a b (Datatypes.S i) n
  end.

Definition compareVersionKeys (a b : list Z) : Z :=
  compare_from a b 0 (if (length a <? length b)%nat then length b else length a).

(** [sort.SliceStable]: insertion, after the elements that are less. *)
Fixpoint insert_stable {A} (less : A → A → bool) (x : A) (l : list A) : list A :=
  match l with
  | [] => [x]
  | y :: l => if less y x then y :: insert_stable less x l else x :: y :: l
  end.

Definition SliceStable {A} (less : A → A → bool) (l : list A) : list A :=
  foldr (insert_stable less) [] l.

Definition version_less (f g : string) : bool :=
  (compareVersionKeys (versionKey f) (versionKey g) <? 0)%Z.

Definition sortFilesByVersion (files : list string) : list string := SliceStable version_less files.

Example versions :
  parseVersionFromFilename "v0.3.10.ru.yml" = "v0.3.10" ∧
  versionKey "/src/CHANGELOG/v0.3.10.yml" = [0; 3; 10]%Z ∧
  versionKey "v1.2rc1.x.yml" = [1; 2; 0]%Z ∧
  versionKey "v99999999999999999999.yml" = [int64_max] ∧
  sortFilesByVersion ["v0.10.yml"; "v0.2.yml"; "v0.2.0.yml"; "v0.1.9.yml"] =
    ["v0.1.9.yml"; "v0.2.yml"; "v0.2.0.yml"; "v0.10.yml"].
Proof. vm_compute. done. Qed.

(** ** The printers *)

Definition single_quote : Ascii.ascii := Ascii.ascii_of_nat 39.
Definition double_quote : Ascii.ascii := Ascii.ascii_of_nat 34.
Definition backslash : Ascii.ascii := Ascii.ascii_of_nat 92.

Definition pyQuote (s : string) : string :=
  let hasSingle := ContainsByte s single_quote in
  let hasDouble := ContainsByte s double_quote in
  let escaped := ReplaceAll s backslash (String backslash (String backslash "")) in
  if hasSingle && negb hasDouble then
    let escaped := ReplaceAll escaped double_quote (String backslash (String double_quote "")) in
    String double_quote "" +:+ escaped +:+ String double_quote ""
  else
    let escaped := ReplaceAll escaped single_quote (String backslash (String single_quote "")) in
    String single_quote "" +:+ escaped +:+ String single_quote "".

Section printers.
Context (mem : nodes).

Fixpoint formatPyValue (fuel : nat) (node : Node) : option string :=
  match fuel with
  | O => None
  | S fuel =>
      match Kind node with
      | DocumentNode =>
          match Content node with
          | c :: _ => formatPyValue fuel (mem c)
          | [] => Some "None"
          end
      | ScalarNode => Some (pyQuote (Value node))
      | MappingNode =>
          parts ← mapM (λ '(k, v),
            key ← formatPyValue fuel (mem k); value ← formatPyValue fuel (mem v);
            Some (key +:+ ": " +:+ value)) (pairs (Content node));
          Some ("{" +:+ strings_Join parts ", " +:+ "}")
      | SequenceNode =>
          parts ← mapM (λ c, formatPyValue fuel (mem c)) (Content node);
          Some ("[" +:+ strings_Join parts ", " +:+ "]")
      | AliasNode =>
          match Alias node with
          | Some a => formatPyValue fuel (mem a)
          | None => Some (Value node)
          end
      | NoKind => Some (Value node)
      end
  end.

Fixpoint formatChange (fuel : nat) (node : Node) : option string :=
  match fuel with
  | O => None
  | S fuel =>
      match Kind node with
      | ScalarNode => Some (Value node)
      | MappingNode =>
          parts ← mapM (λ '(k, v),
            value ← formatChange fuel (mem v); Some (Value (mem k) +:+ ": " +:+ value))
            (pairs (Content node));
          Some (strings_Join parts ", ")
      | SequenceNode =>
          parts ← mapM (λ c, formatChange fuel (mem c)) (Content node);
          Some (strings_Join parts ", ")
      | DocumentNode =>
          match Content node with
          | c :: _ => formatChange fuel (mem c)
          | [] => Some ""
          end
      | AliasNode =>
          match Alias node with
          | Some a => formatChange fuel (mem a)
          | None => formatPyValue fuel node
          end
      | NoKind => formatPyValue fuel node
      end
  end.
End printers.

(** ** The program *)

(** The error of Stat; an error is its text. *)
Inductive stat_error := NotExist (err : string) | OtherError (err : string).

Inductive fs_op :=
| Print (text : string)
| Getenv (name : string)
| Executable
| EvalSymlinks (path : string)
| Stat (path : string)
| ReadDir (dir : string)
| ReadFile (path : string)
| Remove (path : string)
| MkdirAll (path : string)
| WriteFile (path content : string).

Definition fs_res (o : fs_op) : Type :=
  match o with
  | Print _ => unit
  | Getenv _ => string
  | Executable | EvalSymlinks _ | ReadFile _ => string + string
  | Stat _ => option stat_error
  | ReadDir _ => list (string * bool) + string        (* the name; is it a directory *)
  | Remove _ | MkdirAll _ | WriteFile _ _ => option string
  end.

Definition fsSig : sig := Sig fs_op fs_res.

Definition fs_call (o : fs_op) : prog fsSig (fs_res o) := call (S := fsSig) o.

Definition println (s : string) : prog fsSig unit := fs_call (Print (s +:+ newline)).

(** getChangelogFiles, the loop *)
Fixpoint changelog_entries (dir : string) (entries : list (string * bool)) (en ru : list string)
    : list string * list string :=
  match entries with
  | [] => (en, ru)
  | (name, IsDir) :: entries =>
      if (IsDir : bool) then changelog_entries dir entries en ru
      else
        let full := Join dir name in
        if HasSuffix name ".ru.yml" then changelog_entries dir entries en (ru ++ [full])%list
        else if HasSuffix name ".yml" then changelog_entries dir entries (en ++ [full])%list ru
        else changelog_entries dir entries en ru
  end.

Definition getChangelogFiles (dir : string) : prog fsSig ((list string * list string) + string) :=
  entries ← fs_call (ReadDir dir);
  match entries with
  | inr err => mret (inr err)
  | inl entries =>
      let '(en, ru) := changelog_entries dir entries [] [] in
      mret (inl (sortFilesByVersion en, sortFilesByVersion ru))
  end.

Section program.
Context `{YAMLReader} (fuel : nat).

Definition title_lines (isRussian : bool) : list string :=
  if isRussian then ["---"; "title: " +:+ quote "Релизы"; "---"; ""]
  else ["---"; "title: " +:+ quote "Release Notes"; "---"; ""].

Definition changes_key (isRussian : bool) : string := if isRussian then "Изменения" else "Changes".

(** [changes], the value of the first entry of that key *)
Definition changes_of (mem : nodes) (key : string) (top : Node) : option Node :=
  mem ∘ snd <$> List.find (λ kv, bool_decide (Value (mem kv.1) = key)) (pairs (Content top)).

Definition change_lines (mem : nodes) (changes : option Node) : option (list string) :=
  match changes with
  | None => Some []
  | Some changes =>
      if bool_decide (Kind changes = SequenceNode)
      then mapM (λ c, (λ s, "* " +:+ s) <$> formatChange mem fuel (mem c)) (Content changes)
      else (λ s, ["* " +:+ s]) <$> formatChange mem fuel changes
  end.

(** What a file adds to the lines, once it is read: nothing, when it is no
    mapping, or its version and its changes. *)
Definition file_lines (isRussian : bool) (fp : string) (mem : nodes) (root : Node)
    : option (list string) :=
  match Content root with
  | c :: _ =>
      let top := mem c in
      if bool_decide (Kind root ≠ DocumentNode) || bool_decide (Kind top ≠ MappingNode)
      then Some []
      else
        changes ← change_lines mem (changes_of mem (changes_key isRussian) top);
        Some (["## " +:+ parseVersionFromFilename (Base fp); ""] ++ changes ++ [""])%list
  | [] => Some []
  end.

Definition load_error (fp err : string) : prog fsSig unit :=
  println ("Error loading file " +:+ fp +:+ ": " +:+ err).

(** The body of the loop of generateMarkdownContent. *)
Definition file_section (isRussian : bool) (fp : string) : prog fsSig (option (list string)) :=
  data ← fs_call (ReadFile fp);
  match data with
  | inr err => _ ← load_error fp err; mret (Some [])
  | inl data =>
      match Unmarshal data with
      | inr err => _ ← load_error fp err; mret (Some [])
      | inl (mem, root) => mret (file_lines isRussian fp mem root)
      end
  end.

(** The loop, over the files from the last one to the first. *)
Fixpoint file_sections (isRussian : bool) (files : list string) (lines : list string)
    : prog fsSig (option (list string)) :=
  match files with
  | [] => mret (Some lines)
  | fp :: files =>
      section ← file_section isRussian fp;
      match section with
      | Some section => file_sections isRussian files (lines ++ section)%list
      | None => mret None
      end
  end.

Definition generateMarkdownContent (files : list string) (isRussian : bool)
    : prog fsSig (option string) :=
  lines ← file_sections isRussian (reverse files) (title_lines isRussian);
  mret (lines ← lines; Some (strings_Join lines newline)).

Definition resolveProjectRoot : prog fsSig (string + string) :=
  root ← fs_call (Getenv "RELEASE_NOTES_ROOT");
  if negb (bool_decide (root = "")) then mret (inl root)
  else
    exe ← fs_call Executable;
    match exe with
    | inr err => mret (inr err)
    | inl exe =>
        resolved ← fs_call (EvalSymlinks exe);
        let exe := match resolved with inl resolved => resolved | inr _ => exe end in
        mret (inl (Dir (Dir exe)))
    end.

(** The loop that removes the files of the last run. *)
Definition remove_old (outputDir name : string) : prog fsSig unit :=
  let fp := Join outputDir name in
  err ← fs_call (Stat fp);
  match err with
  | Some _ => mret tt
  | None =>
      err ← fs_call (Remove fp);
      match err with
      | Some err => println ("Error removing file " +:+ fp +:+ ": " +:+ err)
      | None => println ("Removed existing file: " +:+ fp)
      end
  end.

(** One of the two outputs: the program goes on with [rest], or ends. *)
Definition write_notes (files : list string) (isRussian : bool) (out : string)
    (rest : prog fsSig (option Z)) : prog fsSig (option Z) :=
  if bool_decide (0 < length files)%nat then
    content ← generateMarkdownContent files isRussian;
    match content with
    | None => mret None
    | Some content =>
        err ← fs_call (WriteFile out content);
        match err with
        | Some err =>
            _ ← println ("Error creating file " +:+ out +:+ ": " +:+ err); mret (Some 1%Z)
        | None => _ ← println ("Created file: " +:+ out); rest
        end
    end
  else rest.

(** The rest of [run], once the files are known to be as many in both languages. *)
Definition write_all (outputDir : string) (enFiles ruFiles : list string)
    : prog fsSig (option Z) :=
  _ ← remove_old outputDir "RELEASE_NOTES.md";
  _ ← remove_old outputDir "RELEASE_NOTES.ru.md";
  err ← fs_call (MkdirAll outputDir);
  match err with
  | Some err => _ ← println ("Error creating output dir: " +:+ err); mret (Some 1%Z)
  | None =>
      write_notes enFiles false (Join outputDir "RELEASE_NOTES.md") (
      write_notes ruFiles true (Join outputDir "RELEASE_NOTES.ru.md") (
      _ ← println "Release notes generation completed successfully!";
      mret (Some 0%Z)))
  end.

(** The checks of [run] on the files it found, and the rest. *)
Definition process_files (outputDir : string) (enFiles ruFiles : list string)
    : prog fsSig (option Z) :=
  let n := pretty (length enFiles) in
  let m := pretty (length ruFiles) in
  if bool_decide (length enFiles = 0%nat) && bool_decide (length ruFiles = 0%nat) then
    _ ← println "No changelog files found"; mret (Some 1%Z)
  else
    _ ← println ("Found " +:+ n +:+ " English files and " +:+ m +:+ " Russian files");
    if negb (bool_decide (length enFiles = length ruFiles)) then
      _ ← println ("Error: Number of English files (" +:+ n
          +:+ ") does not match number of Russian files (" +:+ m +:+ ")");
      mret (Some 1%Z)
    else write_all outputDir enFiles ruFiles.

(** [run], once it knows the root of the project. *)
Definition run_in (projectRoot : string) : prog fsSig (option Z) :=
  let changelogDir := Join projectRoot "CHANGELOG" in
  let outputDir := Join projectRoot "docs" in
  _ ← println ("Working directory: " +:+ projectRoot);
  _ ← println ("Changelog folder: " +:+ changelogDir);
  _ ← println ("Output folder: " +:+ outputDir);
  err ← fs_call (Stat changelogDir);
  match err with
  | Some (NotExist _) =>
      _ ← println ("Error: folder " +:+ changelogDir +:+ " not found"); mret (Some 1%Z)
  | _ =>
      found ← getChangelogFiles changelogDir;
      match found with
      | inr err => _ ← println ("Error reading changelog directory: " +:+ err); mret (Some 1%Z)
      | inl (enFiles, ruFiles) => process_files outputDir enFiles ruFiles
      end
  end.

(** [run]: the exit status, unless a printer did not return. *)
Definition run_generator : prog fsSig (option Z) :=
  root ← resolveProjectRoot;
  match root with
  | inr err => _ ← println ("Cannot determine project root: " +:+ err); mret (Some 1%Z)
  | inl projectRoot => run_in projectRoot
  end.
End program.
