(* ===== verification/ReleaseNotesSpec.v ===== *)
(** * What the release notes hold

    The order of the files, which is that of the versions and stable; the
    printers, which return unless an anchor contains itself, and whose quotes can
    be read back; and the whole program: when it ends well it has written the two
    files, newest version first, from what it read, and whatever happens it
    changes nothing else. *)

From S2P Require Import Prelude Effects CSINode Settings Paths ReleaseNotes.

Local Open Scope string_scope.

(** ** Versions *)

(** The order of versions: by the first part that differs, what is not there
    being zero. *)
Definition older (a b : list Z) : Prop :=
  ∃ i, (∀ j, (j < i)%nat → key_at a j = key_at b j) ∧ (key_at a i < key_at b i)%Z.

Definition same_version (a b : list Z) : Prop := ∀ i, key_at a i = key_at b i.

Lemma older_differ a b i :
  (∀ j, (j < i)%nat → key_at a j = key_at b j) → key_at a i ≠ key_at b i →
  (older a b ↔ (key_at a i < key_at b i)%Z).
Proof.
  intros He Hi. split; [|by exists i]. intros (k & Hk & Hlt).
  destruct (Nat.lt_trichotomy k i) as [Hki|[->|Hik]]; [|done|].
  - specialize (He k Hki). lia.
  - by specialize (Hk i Hik).
Qed.

Lemma compare_from_spec a b n i :
  (∀ j, (j < i)%nat → key_at a j = key_at b j) →
  (∀ j, (i + n ≤ j)%nat → key_at a j = key_at b j) →
  ((compare_from a b i n < 0)%Z ↔ older a b) ∧
  (compare_from a b i n = 0%Z ↔ same_version a b).
Proof.
  revert i. induction n as [|n IH]; intros i Hlo Hhi; cbn [compare_from].
  - assert (Hs : same_version a b).
    { intros j. destruct (decide (j < i)%nat); [by apply Hlo|]. apply Hhi. lia. }
    split; [|done]. split; [lia|]. intros (k & _ & Hk). specialize (Hs k). lia.
  - case_bool_decide as Hi.
    + split; [|split; [destruct (_ <? _)%Z; lia|by intros Hs; destruct Hi; apply Hs]].
      rewrite (older_differ _ _ _ Hlo Hi). destruct (Z.ltb_spec (key_at a i) (key_at b i)); lia.
    + apply IH.
      * intros j Hj. destruct (decide (j = i)) as [->|]; [|apply Hlo; lia].
        by destruct (decide (key_at a i = key_at b i)).
      * intros j Hj. apply Hhi. lia.
Qed.

Lemma compareVersionKeys_spec a b :
  ((compareVersionKeys a b < 0)%Z ↔ older a b) ∧ (compareVersionKeys a b = 0%Z ↔ same_version a b).
Proof.
  unfold compareVersionKeys. apply compare_from_spec; [lia|].
  intros j Hj. unfold key_at. destruct (Nat.ltb_spec (length a) (length b));
    by rewrite !lookup_ge_None_2 by lia.
Qed.

#[global] Instance same_version_dec a b : Decision (same_version a b).
Proof.
  refine (cast_if (decide (compareVersionKeys a b = 0%Z))); by rewrite <-(proj2 (compareVersionKeys_spec a b)).
Defined.

#[global] Instance older_dec a b : Decision (older a b).
Proof.
  refine (cast_if (decide (compareVersionKeys a b < 0)%Z)); by rewrite <-(proj1 (compareVersionKeys_spec a b)).
Defined.

Lemma older_trans a b c : older a b → older b c → older a c.
Proof.
  intros (i & Hi & Hi') (j & Hj & Hj'). destruct (Nat.lt_trichotomy i j) as [Hij|[->|Hij]].
  - exists i. split; [|by rewrite <-Hj by lia]. intros k Hk. rewrite Hi by done. apply Hj. lia.
  - exists j. split; [|lia]. intros k Hk. by rewrite Hi, Hj.
  - exists j. split; [|by rewrite Hi by lia]. intros k Hk. rewrite Hi by lia. by apply Hj.
Qed.

Lemma older_irrefl a : ¬ older a a.
Proof. intros (i & _ & Hi). lia. Qed.

(** Two versions are the same, or one is older; it is decided at the first
    part that differs. *)
Lemma versions_total a b : older a b ∨ same_version a b ∨ older b a.
Proof.
  assert (Hn : ∀ n, (∀ i, (i < n)%nat → key_at a i = key_at b i) ∨ older a b ∨ older b a).
  { induction n as [|n [IH|IH]]; [left; lia| |by right].
    destruct (Z.lt_trichotomy (key_at a n) (key_at b n)) as [Hlt|[Heq|Hlt]].
    - right. left. by exists n.
    - left. intros i Hi. destruct (decide (i = n)) as [->|]; [done|]. apply IH. lia.
    - right. right. exists n. split; [|done]. intros j Hj. symmetry. by apply IH. }
  destruct (Hn (length a + length b)%nat) as [He|[Ho|Ho]]; [|by left|by right; right].
  right. left. intros i. destruct (decide (i < length a + length b)%nat); [by apply He|].
  unfold key_at. by rewrite !lookup_ge_None_2 by lia.
Qed.

Lemma not_older_trans a b c : ¬ older b a → ¬ older c b → ¬ older c a.
Proof.
  intros Hab Hbc Hca. destruct (versions_total a b) as [Ho|[Hs|Ho]]; [| |done].
  - apply Hbc. by eapply older_trans.
  - apply Hbc. destruct Hca as (i & Hi & Hlt). exists i. unfold same_version in Hs.
    split; [intros j Hj; by rewrite <-Hs, Hi|by rewrite <-Hs].
Qed.

Lemma version_less_older f g : version_less f g = true ↔ older (versionKey f) (versionKey g).
Proof. unfold version_less. rewrite Z.ltb_lt. apply compareVersionKeys_spec. Qed.

(** ** Stable sorting *)

Section stable.
Context {A : Type} (less : A → A → bool).
Hypothesis less_asym : ∀ x y, less x y = true → less y x = false.
Hypothesis not_less_trans : ∀ x y z, less y x = false → less z y = false → less z x = false.

(** Elements the order does not tell apart. *)
Definition tied (x y : A) : Prop := less x y = false ∧ less y x = false.

Definition sorted (l : list A) : Prop := StronglySorted (λ x y, less y x = false) l.

(** Sorted, with the same elements, and tied ones in the order they had. *)
Definition stably_sorted (l l' : list A) : Prop :=
  l' ≡ₚ l ∧ sorted l' ∧ ∀ x, filter (tied x) l' = filter (tied x) l.

Lemma insert_stable_perm x l : insert_stable less x l ≡ₚ x :: l.
Proof.
  induction l as [|y l IH]; simpl; [done|]. destruct (less y x); [|done].
  rewrite IH. apply Permutation_swap.
Qed.

Lemma insert_stable_sorted x l : sorted l → sorted (insert_stable less x l).
Proof using less_asym not_less_trans.
  unfold sorted. induction l as [|y l IH]; simpl; [intros; by repeat constructor|].
  intros [Hy Hl]%StronglySorted_cons. destruct (less y x) eqn:E; apply StronglySorted_cons.
  - split; [|by apply IH]. apply Forall_forall. intros z.
    rewrite (insert_stable_perm x l), elem_of_cons. intros [->|Hz]; [by apply less_asym|].
    rewrite Forall_forall in Hy. by apply Hy.
  - rewrite StronglySorted_cons. split; [|done]. apply Forall_cons. split; [done|].
    eapply Forall_impl; [done|]. intros z Hz. by eapply not_less_trans.
Qed.

Lemma insert_stable_tied z x l :
  filter (tied z) (insert_stable less x l) = filter (tied z) (x :: l).
Proof using not_less_trans.
  induction l as [|y l IH]; simpl; [done|]. destruct (less y x) eqn:E; [|done].
  rewrite filter_cons, IH, !filter_cons. do 2 case_decide; try done.
  exfalso. destruct H as [H1 H2], H0 as [H3 H4].
  by rewrite (not_less_trans x z y) in E.
Qed.

Lemma SliceStable_spec l : stably_sorted l (SliceStable less l).
Proof using less_asym not_less_trans.
  unfold stably_sorted, SliceStable. induction l as [|x l (Hp & Hs & Ht)]; simpl; [by repeat constructor|].
  split; [by rewrite insert_stable_perm, Hp|]. split; [by apply insert_stable_sorted|].
  intros z. by rewrite insert_stable_tied, !filter_cons, Ht.
Qed.

(** There is only one way to sort a list stably. *)
Lemma stably_sorted_unique l l1 l2 : stably_sorted l l1 → stably_sorted l l2 → l1 = l2.
Proof using less_asym.
  intros (Hp1 & Hs1 & Ht1) (Hp2 & Hs2 & Ht2).
  assert (Hp : l1 ≡ₚ l2) by by rewrite Hp1, Hp2.
  assert (Ht : ∀ x, filter (tied x) l1 = filter (tied x) l2) by (intros; by rewrite Ht1, Ht2).
  clear Hp1 Hp2 Ht1 Ht2 l. unfold sorted in *. revert l2 Hp Hs2 Ht.
  induction l1 as [|x l1 IH]; intros l2 Hp Hs2 Ht; [by apply Permutation_nil_l in Hp|].
  destruct l2 as [|y l2]; [by apply Permutation_nil_r in Hp|].
  apply StronglySorted_cons in Hs1 as [Hx Hs1]. apply StronglySorted_cons in Hs2 as [Hy Hs2].
  rewrite Forall_forall in Hx, Hy.
  assert (Hrefl : ∀ z, less z z = false).
  { intros z. destruct (less z z) eqn:E; [|done]. by rewrite <-E, (less_asym z z). }
  assert (Hyx : less y x = false).
  { assert (Hin : y ∈ x :: l1) by (rewrite Hp; left). apply elem_of_cons in Hin as [->|]; auto. }
  assert (Hxy : less x y = false).
  { assert (Hin : x ∈ y :: l2) by (rewrite <-Hp; left). apply elem_of_cons in Hin as [->|]; auto. }
  assert (x = y) as <-.
  { specialize (Ht x). rewrite !filter_cons, !decide_True in Ht by done. congruence. }
  f_equal. apply IH; [done|by apply Permutation_cons_inv in Hp|done|].
  intros z. specialize (Ht z). rewrite !filter_cons in Ht. case_decide; congruence.
Qed.
End stable.

Lemma version_less_asym f g : version_less f g = true → version_less g f = false.
Proof.
  intros Hfg%version_less_older. apply not_true_iff_false. rewrite version_less_older.
  intros Hgf. eapply older_irrefl, older_trans; done.
Qed.

Lemma version_not_less_trans f g h :
  version_less g f = false → version_less h g = false → version_less h f = false.
Proof.
  rewrite <-!not_true_iff_false, !version_less_older. apply not_older_trans.
Qed.

(** ** The files of the changelog *)

Definition is_russian (name : string) : bool := HasSuffix name ".ru.yml".
Definition is_english (name : string) : bool := HasSuffix name ".yml" && negb (is_russian name).

(** The paths of the files of a directory whose name is one of [p]. *)
Definition changelog (dir : string) (p : string → bool) (entries : list (string * bool))
    : list string :=
  map (Join dir ∘ fst) (filter (λ e, e.2 = false ∧ p e.1 = true) entries).

Lemma changelog_cons dir p name d entries :
  changelog dir p ((name, d) :: entries) =
    if negb d && p name then Join dir name :: changelog dir p entries else changelog dir p entries.
Proof.
  unfold changelog. rewrite filter_cons. case_decide as Hd; simpl in Hd.
  - by destruct Hd as [-> ->].
  - destruct d; [done|]. simpl. by destruct (p name) eqn:E; [destruct Hd|].
Qed.

Lemma changelog_entries_spec dir entries en ru :
  changelog_entries dir entries en ru =
    (en ++ changelog dir is_english entries, ru ++ changelog dir is_russian entries)%list.
Proof.
  revert en ru. induction entries as [|[name d] entries IH]; intros en ru.
  { unfold changelog. simpl. by rewrite !app_nil_r. }
  rewrite !changelog_cons. unfold is_english, is_russian. cbn [changelog_entries].
  destruct d; [by rewrite IH|]. destruct (HasSuffix name ".ru.yml") eqn:Er.
  - rewrite IH, andb_false_r. cbn [negb andb]. by rewrite <-app_assoc.
  - destruct (HasSuffix name ".yml"); rewrite IH; cbn [negb andb]; by rewrite <-?app_assoc.
Qed.

(** ** The printers *)

(** Where a node points to. *)
Definition points_to (node : Node) (c : nat) : Prop := c ∈ Content node ∨ Alias node = Some c.

(** No anchor contains itself: what a node points to has a smaller rank. *)
Definition acyclic (mem : nodes) (rank : nat → nat) : Prop :=
  ∀ n c, points_to (mem n) c → (rank c < rank n)%nat.

Lemma pairs_in {A} (l : list A) kv : kv ∈ pairs l → kv.1 ∈ l ∧ kv.2 ∈ l.
Proof.
  assert (Hl : ∀ a, (kv ∈ pairs l → kv.1 ∈ l ∧ kv.2 ∈ l) ∧
                    (kv ∈ pairs (a :: l) → kv.1 ∈ a :: l ∧ kv.2 ∈ a :: l)).
  { induction l as [|b l IH]; intros a; [split; by intros ?%not_elem_of_nil|].
    split; [apply IH|]. cbn [pairs]. rewrite !elem_of_cons. destruct (IH b) as [IH' _].
    intros [->|Hin]; [simpl; tauto|]. specialize (IH' Hin). tauto. }
  destruct l as [|a l]; [by intros ?%not_elem_of_nil|]. by apply (Hl a).
Qed.

Lemma is_Some_bind {A B} (m : option A) (f : A → option B) :
  is_Some m → (∀ a, is_Some (f a)) → is_Some (m ≫= f).
Proof. intros [a ->] Hf. apply Hf. Qed.

Section printers.
Context (mem : nodes) (rank : nat → nat).
Hypothesis mem_acyclic : acyclic mem rank.

Lemma formatPyValue_returns fuel node k :
  (∀ c, points_to node c → (rank c < k)%nat) → (k < fuel)%nat →
  is_Some (formatPyValue mem fuel node).
Proof using mem_acyclic.
  revert node k. induction fuel as [|fuel IH]; intros node k Hk Hf; [lia|].
  assert (Hc : ∀ c, points_to node c → is_Some (formatPyValue mem fuel (mem c))).
  { intros c Hn. apply (IH _ (rank c)); [by intros c'; apply mem_acyclic|].
    specialize (Hk c Hn). lia. }
  unfold points_to in Hc. simpl. destruct (Kind node); try done.
  - destruct (Content node) as [|c l]; [done|]. apply Hc. left. left.
  - apply is_Some_bind; [|done]. apply mapM_is_Some, Forall_forall. auto.
  - apply is_Some_bind; [|done]. apply mapM_is_Some, Forall_forall.
    intros [a b] [Ha Hb]%pairs_in. do 2 (apply is_Some_bind; [by auto|]; intros ?). done.
  - destruct (Alias node); [|done]. auto.
Qed.

Lemma formatChange_returns fuel node k :
  (∀ c, points_to node c → (rank c < k)%nat) → (S k < fuel)%nat →
  is_Some (formatChange mem fuel node).
Proof using mem_acyclic.
  revert node k. induction fuel as [|fuel IH]; intros node k Hk Hf; [lia|].
  assert (Hc : ∀ c, points_to node c → is_Some (formatChange mem fuel (mem c))).
  { intros c Hn. apply (IH _ (rank c)); [by intros c'; apply mem_acyclic|].
    specialize (Hk c Hn). lia. }
  assert (Hv : is_Some (formatPyValue mem fuel node)) by (eapply formatPyValue_returns; [done|lia]).
  unfold points_to in Hc. simpl. destruct (Kind node); try done.
  - destruct (Content node) as [|c l]; [done|]. apply Hc. left. left.
  - apply is_Some_bind; [|done]. apply mapM_is_Some, Forall_forall. auto.
  - apply is_Some_bind; [|done]. apply mapM_is_Some, Forall_forall.
    intros [a b] [Ha Hb]%pairs_in. apply is_Some_bind; [by auto|]. done.
  - destruct (Alias node); [|done]. auto.
Qed.
End printers.

(** A sequence in itself, as "&a [*a]" is read, is printed for ever. *)
Definition self_alias : nodes := λ n,
  match n with
  | O => mkNode SequenceNode "" [1%nat] None
  | _ => mkNode AliasNode "a" [] (Some 0%nat)
  end.

Lemma self_alias_never_returns fuel n : formatChange self_alias fuel (self_alias n) = None.
Proof.
  revert n. induction fuel as [|fuel IH]; intros n; [done|].
  destruct n as [|n]; simpl; [|exact (IH 0%nat)].
  pose proof (IH 1%nat) as H1. simpl in H1. by rewrite H1.
Qed.

(** How Python reads a string literal, up to the escapes of letters and digits:
    the quote ends it, and a line break is not allowed. *)
Fixpoint py_body (q : Ascii.ascii) (s : string) : option string :=
  match s with
  | EmptyString => None
  | String c s =>
      if bool_decide (c = q) then (if bool_decide (s = "") then Some "" else None)
      else if bool_decide (c = backslash) then
        match s with
        | String d s =>
            if bool_decide (d ∈ [backslash; single_quote; double_quote])
            then String d <$> py_body q s else None
        | EmptyString => None
        end
      else if bool_decide (c = Ascii.ascii_of_nat 10) then None
      else String c <$> py_body q s
  end.

Definition py_literal (s : string) : option string :=
  match s with
  | String q s => if bool_decide (q ∈ [single_quote; double_quote]) then py_body q s else None
  | EmptyString => None
  end.

Lemma ReplaceAll_String c s old new :
  ReplaceAll (String c s) old new =
    if bool_decide (c = old) then new +:+ ReplaceAll s old new else String c (ReplaceAll s old new).
Proof. done. Qed.

Definition escape (q : Ascii.ascii) (s : string) : string :=
  ReplaceAll (ReplaceAll s backslash (String backslash (String backslash ""))) q
    (String backslash (String q "")).

Lemma escape_String q c s :
  q ≠ backslash →
  escape q (String c s) =
    if bool_decide (c = q) || bool_decide (c = backslash)
    then String backslash (String c (escape q s)) else String c (escape q s).
Proof.
  intros Hq. unfold escape. rewrite ReplaceAll_String. case_bool_decide as Hb.
  - subst c. change (String backslash (String backslash "") +:+ ?x)
      with (String backslash (String backslash x)).
    rewrite !ReplaceAll_String, !bool_decide_false by congruence. done.
  - rewrite ReplaceAll_String. case_bool_decide as Hc; [|done]. by subst c.
Qed.

Lemma py_body_escape q s :
  q ∈ [single_quote; double_quote] → ContainsByte s (Ascii.ascii_of_nat 10) = false →
  py_body q (escape q s +:+ String q "") = Some s.
Proof.
  intros Hq. assert (Hqb : q ≠ backslash)
    by (intros ->; apply (bool_decide_pack _) in Hq; done).
  induction s as [|c s IH]; intros Hs.
  - change (py_body q (String q "") = Some ""). simpl. by rewrite bool_decide_true.
  - cbn [ContainsByte] in Hs. apply orb_false_iff in Hs as [Hc Hs]. specialize (IH Hs).
    apply bool_decide_eq_false in Hc.
    rewrite escape_String by done. case_bool_decide as Hcq; [subst c|case_bool_decide as Hcb; [subst c|]].
    all: cbn [orb]; change (String ?a (String ?b ?x) +:+ ?y) with (String a (String b (x +:+ y)));
      change (String ?a ?x +:+ ?y) with (String a (x +:+ y)); cbn [py_body].
    + rewrite bool_decide_false, !bool_decide_true by (congruence || set_solver). by rewrite IH.
    + rewrite bool_decide_false, !bool_decide_true by (congruence || set_solver). by rewrite IH.
    + rewrite !bool_decide_false by done. by rewrite IH.
Qed.

(** What pyQuote quotes, Python reads back, but for line breaks, which repr
    would have escaped. *)
Lemma pyQuote_reads_back s :
  ContainsByte s (Ascii.ascii_of_nat 10) = false → py_literal (pyQuote s) = Some s.
Proof.
  intros Hs. unfold pyQuote. destruct (_ && _).
  all: match goal with |- py_literal (String ?q "" +:+ ?x) = _ =>
    change (py_literal (String q x) = Some s) end.
  all: unfold py_literal; rewrite bool_decide_true by set_solver; apply py_body_escape; set_solver.
Qed.

(** ** The whole program *)

(** The version in the name of a file, and the order of the names. *)
Definition name_version (name : string) : list Z :=
  map version_part (strings_Split (TrimPrefix (parseVersionFromFilename name) "v")
    (Ascii.ascii_of_nat 46)).

Definition older_name (f g : string) : bool := bool_decide (older (name_version f) (name_version g)).

Definition names (p : string → bool) (entries : list (string * bool)) : list string :=
  map fst (filter (λ e, e.2 = false ∧ p e.1 = true) entries).

(** Every file of a kind, newest version first; files of the same version
    against the order of the directory. *)
Definition newest_first (p : string → bool) (entries : list (string * bool)) (files : list string)
    : Prop :=
  stably_sorted older_name (names p entries) (reverse files).

Lemma insert_stable_map {A B} (f : A → B) less x l :
  insert_stable less (f x) (map f l) = map f (insert_stable (λ a b, less (f a) (f b)) x l).
Proof. induction l as [|y l IH]; simpl; [done|]. destruct (less _ _); simpl; by rewrite ?IH. Qed.

Lemma SliceStable_map {A B} (f : A → B) less l :
  SliceStable less (map f l) = map f (SliceStable (λ a b, less (f a) (f b)) l).
Proof.
  unfold SliceStable. induction l as [|x l IH]; simpl; [done|]. by rewrite IH, insert_stable_map.
Qed.

Lemma SliceStable_ext {A} (less less' : A → A → bool) l :
  (∀ x y, x ∈ l → y ∈ l → less x y = less' x y) → SliceStable less l = SliceStable less' l.
Proof.
  unfold SliceStable. induction l as [|x l IH]; simpl; [done|]. intros He.
  rewrite IH by (intros; apply He; by right).
  assert (Hl : ∀ y, y ∈ foldr (insert_stable less') [] l → y ∈ l).
  { clear. induction l as [|z l IH]; simpl; [done|]. intros y. rewrite insert_stable_perm.
    rewrite !elem_of_cons. intuition. }
  revert Hl. generalize (foldr (insert_stable less') [] l) as k. clear IH. intros k.
  induction k as [|y k IH]; intros Hk; simpl; [done|].
  rewrite He by (rewrite elem_of_cons; auto using list_elem_of_here).
  rewrite IH; [done|]. intros z Hz. apply Hk. by right.
Qed.

Lemma versionKey_Join dir name :
  file_name name = true → versionKey (Join dir name) = name_version name.
Proof. intros Hn. unfold versionKey, name_version. by rewrite Base_Join. Qed.

Lemma older_name_asym f g : older_name f g = true → older_name g f = false.
Proof.
  unfold older_name. intros Hfg%bool_decide_eq_true. apply bool_decide_eq_false. intros Hgf.
  eapply older_irrefl, older_trans; done.
Qed.

Lemma not_older_name_trans f g h :
  older_name g f = false → older_name h g = false → older_name h f = false.
Proof. unfold older_name. rewrite !bool_decide_eq_false. apply not_older_trans. Qed.

(** The files as the program goes through them. *)
Lemma sorted_files dir p entries :
  ∃ files, reverse (sortFilesByVersion (changelog dir p entries)) = map (Join dir) files ∧
    (Forall (λ e, file_name e.1 = true) entries → newest_first p entries files).
Proof.
  exists (reverse (SliceStable (λ f g, version_less (Join dir f) (Join dir g)) (names p entries))).
  split.
  - assert (changelog dir p entries = map (Join dir) (names p entries)) as ->.
    { unfold changelog, names. by rewrite map_map. }
    unfold sortFilesByVersion. rewrite SliceStable_map. symmetry. apply fmap_reverse.
  - intros Hf. unfold newest_first. rewrite reverse_involutive.
    rewrite (SliceStable_ext _ older_name).
    + apply SliceStable_spec; [apply older_name_asym|apply not_older_name_trans].
    + assert (Hn : ∀ f, f ∈ names p entries → file_name f = true).
      { intros f (e & -> & He)%list_elem_of_fmap. rewrite list_elem_of_filter in He.
        rewrite Forall_forall in Hf. apply (Hf e), He. }
      intros f g Hif Hig. unfold older_name.
      rewrite <-(versionKey_Join dir f), <-(versionKey_Join dir g) by auto.
      apply eq_true_iff_eq. by rewrite version_less_older, bool_decide_eq_true.
Qed.

(** A file that was written, with what. *)
Definition written (e : event fsSig) : option (string * string) :=
  match ev_op e as o return fs_res o → option (string * string) with
  | WriteFile path content => λ r, match r with None => Some (path, content) | Some _ => None end
  | _ => λ _, None
  end (ev_res e).

(** What an operation would change. *)
Definition touches (e : event fsSig) : option string :=
  match ev_op e with
  | Remove path | MkdirAll path | WriteFile path _ => Some path
  | _ => None
  end.

Definition silent (e : event fsSig) : Prop := touches e = None.

Lemma silent_written new : Forall silent new → omap written new = [].
Proof.
  induction 1 as [|[[] r] new He Hnew IH]; try done; simpl; by rewrite IH.
Qed.

Lemma emits_println (P : event fsSig → Prop) s :
  (∀ t, P (Ev (S := fsSig) (Print t) tt)) → emits P (println s).
Proof. intros HP. apply (emits_call (S := fsSig) P (Print _)). by intros []. Qed.

Ltac fs_step :=
  match goal with
  | |- emits _ (println _) => apply emits_println
  | |- emits ?P (fs_call ?o) => apply (emits_call (S := fsSig) P o); intros ?
  | |- _ => emits_step
  end.

Section program.
Context `{YAMLReader} (fuel : nat).

(** What a file adds, given the answer to its reading. *)
Definition section_of (isRussian : bool) (fp : string) (answer : string + string)
    : option (list string) :=
  match answer with
  | inr _ => Some []
  | inl data =>
      match Unmarshal data with
      | inr _ => Some []
      | inl (mem, root) => file_lines fuel isRussian fp mem root
      end
  end.

Definition shows (isRussian : bool) (h : history fsSig) (fp : string) (lines : list string) : Prop :=
  ∃ r, Ev (S := fsSig) (ReadFile fp) r ∈ h ∧ section_of isRussian fp r = Some lines.

(** The content of the notes: the title, and what each file adds, as it was
    read. *)
Definition notes (isRussian : bool) (files : list string) (h : history fsSig) (content : string)
    : Prop :=
  ∃ sections, Forall2 (shows isRussian h) files sections ∧
    content = strings_Join (title_lines isRussian ++ concat sections)%list newline.

Lemma notes_mono isRussian files h new content :
  notes isRussian files h content → notes isRussian files (new ++ h)%list content.
Proof.
  intros (sections & Hs & Hc). exists sections. split; [|done].
  eapply Forall2_impl; [done|]. intros fp lines (r & Hr & ?). exists r. split; [|done].
  apply elem_of_app. by right.
Qed.

Lemma file_section_spec isRussian fp h :
  wp (file_section fuel isRussian fp) h (λ section h', ∃ new, h' = (new ++ h)%list ∧
    Forall silent new ∧ ∀ lines, section = Some lines → shows isRussian h' fp lines).
Proof.
  apply wp_call_bind. intros r. destruct r as [data|err]; [destruct (Unmarshal data) as [[mem root]|err] eqn:E|].
  - apply wp_ret. exists [Ev (S := fsSig) (ReadFile fp) (inl data)]. split; [done|].
    split; [by constructor|]. intros lines Hl. exists (inl data). split; [by left|].
    unfold section_of. by rewrite E.
  - apply wp_call_bind. intros u. apply wp_ret. eexists [_; _]. split; [done|].
    split; [by repeat constructor|]. intros lines [= <-]. exists (inl data).
    split; [by right; left|]. unfold section_of. by rewrite E.
  - apply wp_call_bind. intros u. apply wp_ret. eexists [_; _]. split; [done|].
    split; [by repeat constructor|]. intros lines [= <-]. exists (inr err). by split; [right; left|].
Qed.

Lemma shows_mono isRussian h new fp lines :
  shows isRussian h fp lines → shows isRussian (new ++ h)%list fp lines.
Proof. intros (r & Hr & ?). exists r. split; [|done]. apply elem_of_app. by right. Qed.

Lemma file_sections_spec isRussian files lines h :
  wp (file_sections fuel isRussian files lines) h (λ r h', ∃ new, h' = (new ++ h)%list ∧
    Forall silent new ∧ ∀ ls, r = Some ls → ∃ sections,
      Forall2 (shows isRussian h') files sections ∧ ls = (lines ++ concat sections)%list).
Proof.
  revert lines h. induction files as [|fp files IH]; intros lines h; cbn [file_sections].
  - apply wp_ret. exists []. split; [done|]. split; [done|]. intros ls [= <-]. exists [].
    simpl. by rewrite app_nil_r.
  - apply wp_bind. eapply wp_mono; [apply file_section_spec|].
    intros [section|] h1 (new & -> & Hn & Hs); [|apply wp_ret; by exists new].
    eapply wp_mono; [apply IH|]. intros r h2 (new' & -> & Hn' & Hr).
    exists (new' ++ new)%list. rewrite <-app_assoc. split; [done|].
    split; [by apply Forall_app|]. intros ls Hls. destruct (Hr ls Hls) as (sections & Hf & ->).
    exists (section :: sections). simpl. rewrite <-app_assoc. split; [|done].
    constructor; [|done]. by apply shows_mono, Hs.
Qed.

Lemma generateMarkdownContent_spec isRussian files h :
  wp (generateMarkdownContent fuel files isRussian) h (λ r h', ∃ new, h' = (new ++ h)%list ∧
    Forall silent new ∧ ∀ content, r = Some content → notes isRussian (reverse files) h' content).
Proof.
  apply wp_bind. eapply wp_mono; [apply file_sections_spec|]. intros r h' (new & -> & Hn & Hr).
  apply wp_ret. exists new. split; [done|]. split; [done|]. intros content Hc.
  destruct r as [ls|]; [|done]. simpl in Hc. injection Hc as <-.
  destruct (Hr ls) as (sections & ? & ->); [done|]. by exists sections.
Qed.

(** ** An ending that says 0 *)

(** [Q] is only asked of a run that ends well. *)
Definition if_ended_well (Q : history fsSig → Prop) (status : option Z) (h : history fsSig) : Prop :=
  status = Some 0%Z → Q h.

Lemma wp_fails (s : string) h (Q : history fsSig → Prop) :
  wp (_ ← println s; mret (Some 1%Z)) h (if_ended_well Q).
Proof. apply wp_call_bind. intros u. by apply wp_ret. Qed.

Lemma wp_silent {A} (p : prog fsSig A) (f : A → prog fsSig (option Z)) h Q :
  emits silent p →
  (∀ a new, Forall silent new → wp (f a) (new ++ h)%list Q) → wp (p ≫= f) h Q.
Proof.
  intros Hp Hf. apply wp_bind. eapply wp_mono; [apply Hp|]. intros a h' (new & -> & Hn). auto.
Qed.

Lemma write_notes_spec files isRussian out rest h (Q : history fsSig → Prop) :
  files ≠ [] →
  (∀ new content, notes isRussian (reverse files) (new ++ h)%list content →
    omap written new = [(out, content)] → wp rest (new ++ h)%list (if_ended_well Q)) →
  wp (write_notes fuel files isRussian out rest) h (if_ended_well Q).
Proof.
  intros Hne Hrest. unfold write_notes. rewrite bool_decide_true by (destruct files; simpl; [done|lia]).
  apply wp_bind. eapply wp_mono; [apply generateMarkdownContent_spec|].
  intros [content|] h' (new & -> & Hn & Hc); [|by apply wp_ret].
  apply wp_call_bind. intros [err|]; [apply wp_fails|]. apply wp_call_bind. intros u.
  apply (Hrest (_ :: _ :: new) content); [|simpl; by rewrite silent_written].
  by apply (notes_mono _ _ _ [_; _]), Hc.
Qed.

(** The two files, in the directory the program found. *)
Definition docs (root name : string) : string := Join (Join root "docs") name.

Definition complete (root : string) (h : history fsSig) : Prop :=
  ∃ entries english russian en ru,
    Ev (S := fsSig) (ReadDir (Join root "CHANGELOG")) (inl entries) ∈ h ∧
    (Forall (λ e, file_name e.1 = true) entries →
      newest_first is_english entries english ∧ newest_first is_russian entries russian) ∧
    length english = length russian ∧ english ≠ [] ∧
    notes false (map (Join (Join root "CHANGELOG")) english) h en ∧
    notes true (map (Join (Join root "CHANGELOG")) russian) h ru ∧
    omap written h = [(docs root "RELEASE_NOTES.ru.md", ru); (docs root "RELEASE_NOTES.md", en)].

(** [remove_old] changes what it removes, but writes nothing. *)
Lemma remove_old_writes_nothing dir name h :
  wp (remove_old dir name) h (λ _ h', ∃ new, h' = (new ++ h)%list ∧ omap written new = []).
Proof.
  apply wp_call_bind. intros [err|]; [apply wp_ret; by eexists [_]|].
  apply wp_call_bind. intros [err|]; intros u h' [r [_ ->]]; by eexists [_; _; _].
Qed.

Lemma write_all_spec root entries en ru h :
  Ev (S := fsSig) (ReadDir (Join root "CHANGELOG")) (inl entries) ∈ h → omap written h = [] →
  length en = length ru → en ≠ [] →
  (∃ english, reverse en = map (Join (Join root "CHANGELOG")) english ∧
    (Forall (λ e, file_name e.1 = true) entries → newest_first is_english entries english)) →
  (∃ russian, reverse ru = map (Join (Join root "CHANGELOG")) russian ∧
    (Forall (λ e, file_name e.1 = true) entries → newest_first is_russian entries russian)) →
  wp (write_all fuel (Join root "docs") en ru) h (if_ended_well (complete root)).
Proof.
  intros Hr Hw Hlen Hne (english & He & Hen) (russian & Hru & Hrn).
  apply wp_bind. eapply wp_mono; [apply remove_old_writes_nothing|]. intros _ h1 (n1 & -> & Hn1).
  apply wp_bind. eapply wp_mono; [apply remove_old_writes_nothing|]. intros _ h2 (n2 & -> & Hn2).
  apply wp_call_bind. intros [err|]; [apply wp_fails|].
  apply write_notes_spec; [done|]. intros n3 en_text Hen_text Hn3.
  apply write_notes_spec; [by destruct ru, en|]. intros n4 ru_text Hru_text Hn4.
  apply wp_call_bind. intros u. apply wp_ret. intros _.
  exists entries, english, russian, en_text, ru_text. rewrite <-He, <-Hru. split_and!.
  - rewrite !elem_of_cons, !elem_of_app, !elem_of_cons, !elem_of_app. tauto.
  - auto.
  - apply (f_equal length) in He, Hru. rewrite length_reverse, length_map in He, Hru. lia.
  - intros ->. apply (f_equal length) in He. rewrite length_reverse in He. by destruct en.
  - by apply (notes_mono _ _ _ (_ :: n4)).
  - by apply (notes_mono _ _ _ [_]).
  - simpl. rewrite omap_app, Hn4, omap_app, Hn3. simpl.
    by rewrite omap_app, Hn2, omap_app, Hn1, Hw.
Qed.

Lemma resolveProjectRoot_silent : emits silent resolveProjectRoot.
Proof. unfold resolveProjectRoot. by repeat fs_step. Qed.

Lemma process_files_spec root entries h :
  Ev (S := fsSig) (ReadDir (Join root "CHANGELOG")) (inl entries) ∈ h → omap written h = [] →
  wp (process_files fuel (Join root "docs")
        (sortFilesByVersion (changelog (Join root "CHANGELOG") is_english entries))
        (sortFilesByVersion (changelog (Join root "CHANGELOG") is_russian entries)))
     h (if_ended_well (complete root)).
Proof.
  intros Hr Hw. pose proof (sorted_files (Join root "CHANGELOG") is_english entries) as He.
  pose proof (sorted_files (Join root "CHANGELOG") is_russian entries) as Hru.
  revert He Hru. generalize (sortFilesByVersion (changelog (Join root "CHANGELOG") is_english entries)).
  generalize (sortFilesByVersion (changelog (Join root "CHANGELOG") is_russian entries)).
  intros ru en He Hru. unfold process_files.
  destruct (_ && _) eqn:E; [apply wp_fails|]. apply wp_call_bind. intros u.
  destruct (bool_decide (length en = length ru)) eqn:Hlen; simpl; [|apply wp_fails].
  apply bool_decide_eq_true in Hlen.
  apply (write_all_spec _ entries); [by right|done|done| |done|done].
  intros ->. by destruct ru.
Qed.

Lemma run_in_complete root h :
  omap written h = [] → wp (run_in fuel root) h (if_ended_well (complete root)).
Proof.
  intros Hw. do 3 (apply wp_call_bind; intros ?). apply wp_call_bind. intros e.
  destruct e as [[err|err]|]; [apply wp_fails| |].
  all: apply wp_bind; apply wp_call_bind; intros [entries|?]; [|apply wp_ret; apply wp_fails].
  all: rewrite changelog_entries_spec; apply wp_ret; by apply process_files_spec; [left|].
Qed.

(** ** What it changes *)

Definition only_docs (root : string) (e : event fsSig) : Prop :=
  match touches e with
  | Some path => path ∈ [Join root "docs"; docs root "RELEASE_NOTES.md"; docs root "RELEASE_NOTES.ru.md"]
  | None => True
  end.

Lemma silent_only_docs root e : silent e → only_docs root e.
Proof. unfold silent, only_docs. by intros ->. Qed.

Lemma generate_only_docs root files isRussian :
  emits (only_docs root) (generateMarkdownContent fuel files isRussian).
Proof.
  apply (emits_mono silent); [apply silent_only_docs|]. intros h.
  eapply wp_mono; [apply generateMarkdownContent_spec|]. intros r h' (new & ? & ? & _). by exists new.
Qed.

Lemma run_in_only_docs root : emits (only_docs root) (run_in fuel root).
Proof.
  unfold run_in, getChangelogFiles, process_files, write_all, write_notes, remove_old.
  repeat first [apply generate_only_docs | fs_step].
  all: unfold only_docs, docs; simpl; try done; by repeat constructor.
Qed.

(** ** It returns *)

(** The document the data holds, if it holds one: no anchor of it contains
    itself, and it is not deeper than the fuel. *)
Definition bounded (data : string) : Prop :=
  ∀ mem root, Unmarshal data = inl (mem, root) →
    ∃ rank, acyclic mem rank ∧ ∀ n, (S (rank n) < fuel)%nat.

(** So are the documents that were read. *)
Definition read_bounded (h : history fsSig) : Prop :=
  ∀ fp data, Ev (S := fsSig) (ReadFile fp) (inl data) ∈ h → bounded data.

Abbreviation returns p h := (wp p h (λ r h', read_bounded h' → is_Some r)).

Lemma file_lines_returns isRussian fp mem root rank :
  acyclic mem rank → (∀ n, (S (rank n) < fuel)%nat) →
  is_Some (file_lines fuel isRussian fp mem root).
Proof.
  intros Ha Hf.
  assert (Hc : ∀ n, is_Some (formatChange mem fuel (mem n))).
  { intros n. by apply (formatChange_returns mem rank Ha _ _ (rank n)); [intros c; apply Ha|]. }
  unfold file_lines. destruct (Content root) as [|c l]; [done|]. destruct (_ || _); [done|].
  apply is_Some_bind; [|done]. unfold change_lines, changes_of.
  destruct (List.find _ _) as [[k v]|]; [|done]. simpl. case_bool_decide.
  - apply mapM_is_Some, Forall_forall. intros n _. apply fmap_is_Some, Hc.
  - apply fmap_is_Some, Hc.
Qed.

Lemma file_sections_return isRussian files lines h :
  returns (file_sections fuel isRussian files lines) h.
Proof.
  revert lines h. induction files as [|fp files IH]; intros lines h; [by apply wp_ret|].
  cbn [file_sections]. apply wp_bind. apply wp_call_bind. intros [data|err].
  - destruct (Unmarshal data) as [[mem root]|err] eqn:E.
    + apply wp_ret. destruct (file_lines fuel isRussian fp mem root) as [section|] eqn:Hl; [apply IH|].
      apply wp_ret. intros Hb. destruct (Hb fp data (list_elem_of_here _ _) _ _ E) as (rank & Ha & Hf).
      destruct (file_lines_returns isRussian fp mem root rank Ha Hf) as [section Hs]. congruence.
    + apply wp_call_bind. intros u. apply wp_ret. apply IH.
  - apply wp_call_bind. intros u. apply wp_ret. apply IH.
Qed.

Lemma write_notes_returns files isRussian out rest h :
  (∀ h', returns rest h') → returns (write_notes fuel files isRussian out rest) h.
Proof.
  intros Hrest. unfold write_notes. case_bool_decide; [|apply Hrest].
  apply wp_bind. apply wp_bind. eapply wp_mono; [by apply file_sections_return|].
  intros [ls|] h' Hs; [|by apply wp_ret, wp_ret; intros []%Hs]. apply wp_ret. apply wp_call_bind.
  intros [err|]; apply wp_call_bind; intros u; [by apply wp_ret|apply Hrest].
Qed.

Lemma write_all_returns dir en ru h : returns (write_all fuel dir en ru) h.
Proof.
  do 2 (apply wp_bind; eapply wp_mono; [apply wp_extends|]; intros _ ? _).
  apply wp_call_bind. intros [err|]; [apply wp_call_bind; intros u; by apply wp_ret|].
  do 2 (apply write_notes_returns; intros ?). apply wp_call_bind. intros u. by apply wp_ret.
Qed.

Lemma run_in_returns root h : returns (run_in fuel root) h.
Proof.
  do 3 (apply wp_call_bind; intros ?). apply wp_call_bind. intros e.
  assert (Hfail : ∀ s h', returns (_ ← println s; mret (Some 1%Z)) h').
  { intros s h'. apply wp_call_bind. intros u. by apply wp_ret. }
  destruct e as [[err|err]|]; [apply Hfail| |].
  all: apply wp_bind; eapply wp_mono; [apply wp_extends|]; intros [[en ru]|?] ? _; [|apply Hfail].
  all: unfold process_files; destruct (_ && _); [apply Hfail|]; apply wp_call_bind; intros u.
  all: destruct (negb _); [apply Hfail|by apply write_all_returns].
Qed.

(** C39: Release notes are written whole.  A run of the generator that ends with
    status 0 wrote exactly two files, the English notes and then the Russian
    ones, of the changelog of one root: the title and what each file that the
    directory lists for the language adds, as it was read, the newest version
    first; there are as many of both, and at least one.  Versions compare part by
    part, what is missing being zero, and files of the same version come against
    the order of the directory.  Whatever its ending, the program changed nothing
    but those two files and their directory; and it returns, when no document it
    read has an anchor that contains itself: a depth of recursion above those of
    the documents read is enough. *)
Theorem release_notes_are_whole :
  wp (run_generator fuel) [] (λ status h, ∃ root,
    Forall (only_docs root) h ∧ (status = Some 0%Z → complete root h) ∧
    (read_bounded h → is_Some status)).
Proof.
  apply wp_silent; [apply resolveProjectRoot_silent|]. intros [root|err] n0 Hn0.
  - intros status h' He. exists root.
    destruct (run_in_only_docs root _ _ _ He) as (new & -> & Hnew). split; [|split].
    + rewrite app_nil_r. apply Forall_app. split; [done|].
      eapply Forall_impl; [done|]. apply silent_only_docs.
    + refine (run_in_complete root _ _ _ _ He). by rewrite app_nil_r, silent_written.
    + exact (run_in_returns root _ _ _ He).
  - apply wp_call_bind. intros u. apply wp_ret. exists "". split; [|done].
    constructor; [done|]. rewrite app_nil_r. eapply Forall_impl; [done|]. apply silent_only_docs.
Qed.
End program.

(** A run over two versions in two languages. *)
Definition demo_document (key : string) : nodes := λ n,
  match n with
  | 0 => mkNode DocumentNode "" [1] None
  | 1 => mkNode MappingNode "" [2; 3] None
  | 2 => mkNode ScalarNode key [] None
  | 3 => mkNode SequenceNode "" [4; 5] None
  | 4 => mkNode ScalarNode "Fix the driver" [] None
  | 5 => mkNode MappingNode "" [6; 7] None
  | 6 => mkNode ScalarNode "CI" [] None
  | 7 => mkNode AliasNode "a" [] (Some 4)
  | _ => mkNode NoKind "" [] None
  end.

Definition demo_reader : YAMLReader := λ data,
  if bool_decide (data = "loop") then inl (self_alias, self_alias 0) else
  if bool_decide (data = "en") then inl (demo_document "Changes", demo_document "Changes" 0)
  else if bool_decide (data = "ru") then inl (demo_document "Изменения", demo_document "" 0)
  else inr "yaml: cannot unmarshal".

Definition demo_world : world (S := fsSig) unit := λ o s,
  (match o as o return fs_res o with
   | Print _ => tt
   | Getenv _ => "/repo/"
   | Executable => inr "no"
   | EvalSymlinks _ => inr "no"
   | Stat path => if HasSuffix path ".md" then Some (NotExist path) else None
   | ReadDir _ => inl [("old", true); ("v0.10.0.ru.yml", false); ("v0.10.0.yml", false);
                       ("v0.9.yml", false); ("v0.9.ru.yml", false); ("README.md", false)]
   | ReadFile path => inl (if HasSuffix path ".ru.yml" then "ru"
                           else if HasSuffix path "0.9.yml" then "?" else "en")
   | Remove _ | MkdirAll _ | WriteFile _ _ => None
   end, s).

Example release_run :
  let '(status, _, h) := run demo_world (run_generator (H := demo_reader) 9) tt [] in
  status = Some 0%Z ∧
  omap written h =
    [("/repo/docs/RELEASE_NOTES.ru.md", strings_Join
        ["---"; "title: " +:+ quote "Релизы"; "---"; "";
         "## v0.10.0"; ""; "* Fix the driver"; "* CI: Fix the driver"; "";
         "## v0.9"; ""; "* Fix the driver"; "* CI: Fix the driver"; ""] newline);
     ("/repo/docs/RELEASE_NOTES.md", strings_Join
        ["---"; "title: " +:+ quote "Release Notes"; "---"; "";
         "## v0.10.0"; ""; "* Fix the driver"; "* CI: Fix the driver"; ""] newline)].
Proof. vm_compute. done. Qed.

(** The documents that are read in that run are bounded, though the reader also
    knows one that contains itself. *)
Lemma demo_document_bounded key :
  ∃ rank, acyclic (demo_document key) rank ∧ ∀ n, (S (rank n) < 9)%nat.
Proof.
  exists (λ n, default 0 ([5; 4; 0; 3; 0; 2; 0; 1] !! n)). split.
  - intros n c. do 8 (destruct n as [|n]; [unfold points_to; simpl;
      rewrite ?elem_of_cons, ?elem_of_nil; naive_solver lia|]).
    by intros [?%not_elem_of_nil|?].
  - intros n. do 8 (destruct n as [|n]; [simpl; lia|]). simpl. lia.
Qed.

Lemma demo_bounded data : data ≠ "loop" → bounded (H := demo_reader) 9 data.
Proof.
  intros Hl mem root Hd. unfold Unmarshal, demo_reader in Hd.
  repeat case_bool_decide; simplify_eq; apply demo_document_bounded.
Qed.

Definition demo_history : history fsSig :=
  snd (run demo_world (run_generator (H := demo_reader) 9) tt []).

(** What an operation read, when it read a file. *)
Definition data_read (e : event fsSig) : option string :=
  match ev_op e as o return fs_res o → option string with
  | ReadFile _ => λ r, match r with inl data => Some data | inr _ => None end
  | _ => λ _, None
  end (ev_res e).

Lemma demo_read_bounded : read_bounded (H := demo_reader) 9 demo_history.
Proof.
  intros fp data Hin. apply demo_bounded. intros ->.
  assert (Hl : "loop" ∈ omap data_read demo_history).
  { apply list_elem_of_omap. by eexists. }
  by apply contains_true in Hl; vm_compute in Hl.
Qed.

Lemma release_notes_are_whole_witness :
  ∃ status, exec (run_generator (H := demo_reader) 9) [] status demo_history ∧ is_Some status.
Proof.
  pose proof (run_exec demo_world (run_generator (H := demo_reader) 9) tt []) as He.
  exists (fst (fst (run demo_world (run_generator (H := demo_reader) 9) tt []))).
  unfold demo_history. revert He. destruct (run _ _ _ _) as [[status w] h] eqn:E. intros He.
  split; [exact He|].
  destruct (release_notes_are_whole (H := demo_reader) 9 status h He) as (root & _ & _ & Hr).
  apply Hr. pose proof demo_read_bounded as Hd. unfold demo_history in Hd. by rewrite E in Hd.
Defined.
