(* ===== verification/MetricTypes.v ===== *)
(** * The exposed metrics are the declared ones

    The interface between the controllers and the metrics storage is untyped:
    a metric is a string, its labels a map of strings.  This file gives it a
    type, the declarations [Register] makes, and shows that everything the
    three reconcilers and the interceptor of the CSI driver record is of that
    type: a declared metric of that kind, with exactly its labels and, for the
    labels with a vocabulary, a value of it. *)

From S2P Require Import Prelude Effects Kube Monitoring GC GCSweep GCPicture GCController.
From S2P Require Import LSC LSCReconcile NodeWatcher Settings.

Local Open Scope string_scope.

(** ** Types *)

(** What was declared, the latest first. *)
Fixpoint declared (h : history regSig) : list declaration :=
  match h with
  | [] => []
  | e :: h => match ev_res e with None => ev_op e :: declared h | Some _ => declared h end
  end.

(** The values of the labels that have a vocabulary. *)
Definition result_values : list string := [ResultSuccess; ResultError; ResultRequeue; ResultNoop].
Definition kind_values : list string := [KindLVMLogicalVolume; KindLVMLogicalVolumeSnapshot].
Definition state_values : list string :=
  [OrphanStateActive; OrphanStateRetained; OrphanStateTerminating; OrphanStateBlocked].

(** The reason is there exactly when the state is blocked. *)
Definition reason_fits (state reason : string) : Prop :=
  if decide (state = OrphanStateBlocked) then reason ∈ block_reasons else reason = "".

Record values_fit (labels : strmap) : Prop := {
  vf_result : ∀ v, labels !! LabelResult = Some v → v ∈ result_values;
  vf_kind : ∀ v, labels !! LabelKind = Some v → v ∈ kind_values;
  vf_state : ∀ v, labels !! LabelState = Some v → v ∈ state_values;
  vf_reason : ∀ s r, labels !! LabelState = Some s → labels !! LabelReason = Some r →
                reason_fits s r;
}.

(** A series of a declared metric. *)
Definition series (D : list declaration) (kind : metric_kind) (name : string)
    (labels : strmap) (buckets : list float64) : Prop :=
  (∃ d, d ∈ D ∧ d_kind d = kind ∧ d_name d = name ∧ d_buckets d = buckets ∧
        dom labels = list_to_set (d_labels d) ∧ length (d_labels d) = size labels) ∧
  values_fit labels.

Definition typed (D : list declaration) (m : metric_op) : Prop :=
  match m with
  | ExpireGroupMetrics _ => True
  | ExpireGroupMetricByName _ name => ∃ d, d ∈ D ∧ d_kind d = Gauge ∧ d_name d = name
  | GaugeSet _ name _ labels => series D Gauge name labels []
  | CounterAdd name _ labels => series D Counter name labels []
  | HistogramObserve name _ labels buckets => series D Histogram name labels buckets
  end.

(** What a storage accepts: distinct names, and buckets in increasing order. *)
Definition well_declared (D : list declaration) : Prop :=
  NoDup (map d_name D) ∧
  Forall (λ d, Sorted (λ x y, SFltb x y = true) (d_buckets d)) D.

(** ** The declarations *)

Fixpoint surface_of (p : prog regSig (option string)) : list declaration :=
  match p with
  | Ret _ => []
  | Do d k => d :: surface_of (k None)
  end.

(** A registration that succeeds declared everything, and one that fails
    stopped at the declaration it names. *)
Definition registered (surface : list declaration) (err : option string)
    (h : history regSig) : Prop :=
  match err with
  | None => h = reverse (map (λ d, Ev (S := regSig) d None) surface)
  | Some e => ∃ d text done rest, surface = (done ++ d :: rest)%list ∧
      h = (Ev (S := regSig) d (Some text) :: reverse (map (λ d, Ev (S := regSig) d None) done))%list ∧
      e = "register " +:+ d_name d +:+ ": " +:+ text
  end.

(** Both Register functions are sequences of registrations. *)
Definition registers (l : list declaration) : prog regSig (option string) :=
  foldr register (mret None) l.

Lemma Register_registers :
  Monitoring.Register = registers (surface_of Monitoring.Register) ∧
  Settings.Register = registers (surface_of Settings.Register).
Proof. done. Qed.

Lemma wp_registers l before :
  wp (registers l) (reverse (map (λ d, Ev (S := regSig) d None) before))
    (registered (before ++ l)%list).
Proof.
  revert before. induction l as [|d l IH]; intros before; cbn [registers foldr].
  - apply wp_ret. by rewrite app_nil_r.
  - apply wp_call_bind. intros [err|].
    + apply wp_ret. by exists d, err, before, l.
    + specialize (IH (before ++ [d])%list). rewrite map_app, reverse_app in IH.
      by rewrite <-app_assoc in IH.
Qed.

Lemma declared_app h1 h2 : declared (h1 ++ h2)%list = (declared h1 ++ declared h2)%list.
Proof.
  induction h1 as [|[d [r|]] h1 IH]; simpl; [done..|]. by rewrite IH.
Qed.

Lemma declared_reverse (l : list declaration) :
  declared (reverse (map (λ d, Ev (S := regSig) d None) l)) = reverse l.
Proof.
  induction l as [|d l IH]; [done|]. cbn [map]. by rewrite !reverse_cons, declared_app, IH.
Qed.

(** ** Series *)

Definition controller_metrics : list declaration := surface_of Monitoring.Register.
Definition driver_metrics : list declaration := surface_of Settings.Register.

Ltac find_declaration :=
  apply elem_of_cons; ((left; reflexivity) + (right; find_declaration)).

(** The labels are a literal map: its domain, its size and its entries
    compute. *)
Ltac series_tac :=
  split; [eexists; split_and!; [unfold controller_metrics, driver_metrics; cbn; find_declaration|reflexivity..]|];
  split; intros *; intros; repeat match goal with H : _ !! _ = Some _ |- _ => vm_compute in H end;
  simplify_eq.

Lemma typed_reconcile controller since (res : Result) {E} (err : option E) r :
  Forall (typed controller_metrics) (ObserveReconcile r controller since res err).
Proof.
  unfold ObserveReconcile, recorded. destruct (r_st r); [|constructor].
  assert (Hr : reconcileResult res err ∈ result_values).
  { unfold reconcileResult, result_values. repeat case_match; set_solver. }
  generalize dependent (reconcileResult res err). intros v Hv.
  repeat (apply Forall_cons; split); [series_tac..|by apply Forall_nil]; try done.
Qed.

Lemma typed_phase r name phase :
  Forall (typed controller_metrics) (SetLocalStorageClassPhase r name phase).
Proof.
  unfold SetLocalStorageClassPhase, recorded. destruct (r_st r); [|constructor].
  repeat (apply Forall_cons; split); [|series_tac|by apply Forall_nil]; try done.
  eexists. split_and!; [unfold controller_metrics; cbn; find_declaration|done..].
Qed.

Lemma typed_ready r name ready :
  Forall (typed controller_metrics) (SetLocalStorageClassReady r name ready).
Proof.
  unfold SetLocalStorageClassReady, recorded. destruct (r_st r); [|constructor].
  repeat (apply Forall_cons; split); [series_tac|by apply Forall_nil]; done.
Qed.

Lemma typed_forget r name :
  Forall (typed controller_metrics) (ForgetLocalStorageClass r name).
Proof. unfold ForgetLocalStorageClass, recorded. destruct (r_st r); by repeat constructor. Qed.

Lemma typed_removal r k v :
  v ∈ result_values → k ∈ kind_values →
  Forall (typed controller_metrics) (ObserveCSIFinalizerRemoval r k v).
Proof.
  intros Hv Hk. unfold ObserveCSIFinalizerRemoval, recorded. destruct (r_st r); [|constructor].
  repeat (apply Forall_cons; split); [series_tac|by apply Forall_nil]; done.
Qed.

Lemma typed_operation r m since code :
  Forall (typed driver_metrics) (ObserveOperation r m since code).
Proof.
  unfold ObserveOperation, recorded. destruct (r_st r); [|constructor].
  generalize (ShortMethodName m). intros short.
  repeat (apply Forall_cons; split); [series_tac..|by apply Forall_nil]; done.
Qed.

(** The picture of a pass: every orphan has a state, and a reason that fits it. *)
Definition sweep_fits (s : LVMLogicalVolumeSweep) : Prop :=
  Forall (λ o, o_State o ∈ state_values ∧ reason_fits (o_State o) (o_Reason o)) (Orphans s) ∧
  Forall (λ o, os_State o ∈ state_values ∧ reason_fits (os_State o) (os_Reason o))
    (OrphanedSnapshots s).

Lemma deleting_verdict_fits state reason :
  deleting_verdict state reason → state ∈ state_values ∧ reason_fits state reason.
Proof.
  intros [[-> ->]|[-> Hr]]; (split; [unfold state_values; set_solver|]); unfold reason_fits;
    [by rewrite decide_False|by rewrite decide_True].
Qed.

Section gc.
Context `{ApiMachinery, RetryOnError, MapRange}.

Lemma picture_fits llvs snaps refs s : picture_of llvs snaps refs s → sweep_fits s.
Proof.
  intros [Ho Hs _ _ _ _ _]. split.
  - apply Forall_forall. intros o Hin. apply list_elem_of_lookup in Hin as [i Hi].
    destruct (Forall2_lookup_r _ _ _ _ _ Ho Hi) as (llv & _ & (_ & _ & _ & _ & Hv)).
    unfold volume_verdict in Hv. destruct (om_DeletionTimestamp _).
    + by apply deleting_verdict_fits.
    + destruct Hv as [-> ->]. unfold reason_fits, state_values.
      destruct (retainAcknowledged llv); (split; [set_solver|by rewrite decide_False]).
  - apply Forall_forall. intros o Hin. apply list_elem_of_lookup in Hin as [i Hi].
    destruct (Forall2_lookup_r _ _ _ _ _ Hs Hi) as (x & _ & (_ & _ & _ & Hv)).
    by apply deleting_verdict_fits.
Qed.

(** The states counted are the known ones and those of the orphans. *)
Lemma counted_state {A} (key : A → string) (l : list A) known state n :
  Forall (λ x, key x ∈ state_values) l → Forall (λ x, x ∈ state_values) known →
  (state, n) ∈ range (foldl (λ m x, map_incr (key x) m) (zero_counts known) l) →
  state ∈ state_values.
Proof.
  intros Hl Hk Hin. rewrite range_perm in Hin. apply elem_of_map_to_list in Hin.
  assert (Hs : is_Some (foldl (λ m x, map_incr (key x) m) (zero_counts known) l !! state))
    by eauto.
  apply map_incr_is_Some in Hs as [[z Hz]|Hs].
  - unfold zero_counts in Hz. apply elem_of_list_to_map_2 in Hz.
    apply list_elem_of_In, in_map_iff in Hz as (x & [= <- _] & Hx).
    rewrite Forall_forall in Hk. apply Hk. by apply list_elem_of_In.
  - apply list_elem_of_In, in_map_iff in Hs as (x & <- & Hx).
    rewrite Forall_forall in Hl. apply Hl. by apply list_elem_of_In.
Qed.

Lemma Forall_map_typed {A} (f : A → metric_op) l D :
  (∀ x, x ∈ l → typed D (f x)) → Forall (typed D) (map f l).
Proof.
  intros Hf. apply Forall_forall. intros m Hm.
  apply list_elem_of_In, in_map_iff in Hm as (x & <- & Hx). apply Hf. by apply list_elem_of_In.
Qed.

Lemma typed_sweep r s :
  sweep_fits s → Forall (typed controller_metrics) (SetLVMLogicalVolumeSweep r s).
Proof.
  intros [Ho Hs]. rewrite Forall_forall in Ho. rewrite Forall_forall in Hs.
  assert (Hos : Forall (λ o, o_State o ∈ state_values) (Orphans s))
    by (apply Forall_forall; intros o Hin; by apply Ho).
  assert (Hss : Forall (λ o, os_State o ∈ state_values) (OrphanedSnapshots s))
    by (apply Forall_forall; intros o Hin; by apply Hs).
  unfold SetLVMLogicalVolumeSweep, recorded. destruct (r_st r); [|constructor].
  repeat (apply Forall_app; split).
  - by repeat constructor.
  - apply Forall_map_typed. intros [[phase ty] n] _. series_tac.
  - apply Forall_map_typed. intros [[phase ty] n] _. series_tac.
  - apply Forall_map_typed. intros [n vg ty st re b] Hin. destruct (Ho _ Hin) as [H2 H3].
    unfold orphan_series, sweep_gauge. simpl in *. series_tac; done.
  - apply Forall_map_typed. intros [state n] Hin. apply counted_state in Hin; [|done|].
    + series_tac. done.
    + unfold state_values. repeat constructor; set_solver.
  - apply Forall_map_typed. intros [n vg st re b] Hin. destruct (Hs _ Hin) as [H2 H3].
    unfold orphan_snapshot_series, sweep_gauge. simpl in *. series_tac; done.
  - apply Forall_map_typed. intros [state n] Hin. apply counted_state in Hin; [|done|].
    + series_tac. done.
    + unfold state_values. repeat constructor; set_solver.
  - apply Forall_map_typed. intros kind Hin.
    assert (kind ∈ kind_values) by (unfold kind_values; set_solver).
    generalize (AwaitingAgentByKind s !! kind). intros n. series_tac. done.
Qed.

(** ** The garbage collector *)

(** What a pass records is of the declared types. *)
Definition gc_records (D : list declaration) (e : event gcSig) : Prop :=
  match ev_op e with Metric m => typed D m | _ => True end.

Abbreviation gc_typed := (gc_records controller_metrics).

Ltac gc_emits :=
  repeat first
    [ emits_step
    | match goal with |- emits _ (gc_call ?o) => refine (emits_call (S := gcSig) _ o _); intros ? end
    | progress intros ]; try done.

Lemma emit_typed ops : Forall (typed controller_metrics) ops → emits gc_typed (emit ops).
Proof.
  induction 1 as [|m ops Hm _ IH]; cbn [emit]; [apply emits_ret|].
  apply emits_bind; [by refine (emits_call (S := gcSig) _ (Metric m) _)|]. by intros [].
Qed.

Context (g : llvGarbageCollector).

Lemma settle_typed k r : emits gc_typed (settle g k r).
Proof.
  assert (Hk : kind_label k ∈ kind_values) by (unfold kind_values; destruct k; set_solver).
  unfold settle. gc_emits; try (apply emit_typed, typed_removal; [|done]);
    try apply emits_ret; unfold result_values; try case_match; set_solver.
Qed.

Lemma removeCSIFinalizer_typed k (o : kobj k) : emits gc_typed (removeCSIFinalizer k o).
Proof. apply emits_OnError. unfold removeCSIFinalizer_once. gc_emits. Qed.

Lemma load_typed live : emits gc_typed (load live).
Proof. unfold load, referencingPersistentVolumes, snapshotContentHandles. gc_emits. Qed.

Lemma reclaim_typed llv snapshotted live b : emits gc_typed (reclaim g llv snapshotted live b).
Proof.
  unfold reclaim. cbv zeta. gc_emits;
    first [apply load_typed|apply (removeCSIFinalizer_typed OLLV)|apply settle_typed|apply emits_ret].
Qed.

Lemma reclaimSnapshot_typed s live b : emits gc_typed (reclaimSnapshot g s live b).
Proof.
  unfold reclaimSnapshot. cbv zeta. gc_emits;
    first [apply load_typed|apply (removeCSIFinalizer_typed OLLVS)|apply settle_typed|apply emits_ret].
Qed.

Lemma sweep_volumes_typed snapshotted referenced llvs p :
  emits gc_typed (sweep_volumes g snapshotted referenced llvs p).
Proof.
  revert p. induction llvs as [|llv llvs IH]; intros p; cbn [sweep_volumes]; [apply emits_ret|].
  apply emits_bind; [|apply IH]. unfold sweep_volume. cbv zeta. gc_emits; apply reclaim_typed.
Qed.

Lemma sweep_snapshots_typed snaps p : emits gc_typed (sweep_snapshots g snaps p).
Proof.
  revert p. induction snaps as [|s snaps IH]; intros p; cbn [sweep_snapshots]; [apply emits_ret|].
  apply emits_bind; [|intros [p'|]; [apply IH|apply emits_ret]].
  unfold sweep_snapshot. gc_emits; apply reclaimSnapshot_typed.
Qed.

Lemma sweep_lists_typed lastSweep llvs snaps refs :
  emits gc_typed (sweep_lists g lastSweep llvs snaps refs).
Proof.
  intros h. unfold sweep_lists. cbv zeta. apply wp_bind. eapply wp_mono.
  { apply wp_and; [apply sweep_snapshots_typed|apply wp_sweep_snapshots_picture]. }
  intros r h1 [(n1 & -> & Hn1) (ps & -> & Hps)]. apply wp_bind. eapply wp_mono.
  { apply wp_and; [apply sweep_volumes_typed|apply wp_sweep_volumes_picture]. }
  intros pv h2 [(n2 & -> & Hn2) Hpv]. simpl in Hps, Hpv.
  apply wp_bind. eapply wp_mono.
  { apply emit_typed, typed_sweep. eapply picture_fits, picture_complete; done. }
  intros [] h3 (n3 & -> & Hn3). apply wp_call_bind. intros now. apply wp_ret.
  exists ((Ev (S := gcSig) Now now :: n3) ++ n2 ++ n1)%list. rewrite <-!app_assoc. split; [done|].
  repeat (apply Forall_app; split); auto. by constructor.
Qed.

Lemma Reconcile_typed sweepInterval lastSweep :
  emits gc_typed (GCController.Reconcile g sweepInterval lastSweep).
Proof.
  unfold GCController.Reconcile, reconcile, sweep, referencingPersistentVolumes. cbv zeta.
  gc_emits; first [apply sweep_lists_typed|apply emit_typed, typed_reconcile|apply emits_ret].
Qed.
End gc.

(** ** The LocalStorageClass controller *)

Section lsc.
Context `{LabelSelectors, ApiMachinery, MapRange, RetryOnError, Conditions, !YamlLVGs,
          ConfigYaml}.

Definition lsc_records (D : list declaration) (e : event lscSig) : Prop :=
  match ev_op e with LMetric m => typed D m | _ => True end.

Abbreviation lsc_typed := (lsc_records controller_metrics).

Create HintDb lsc_typed.

Ltac lsc_emits :=
  repeat first
    [ progress intros
    | solve [eauto 2 with lsc_typed]
    | match goal with
      | |- emits _ (lsc_call ?o) => refine (emits_call (S := lscSig) _ o _); intros ?
      end
    | emits_step ]; try done.

Lemma lsc_emit_typed ops : Forall (typed controller_metrics) ops → emits lsc_typed (lsc_emit ops).
Proof.
  induction 1 as [|m ops Hm _ IH]; cbn [lsc_emit]; [apply emits_ret|].
  apply emits_bind; [by refine (emits_call (S := lscSig) _ (LMetric m) _)|]. by intros [].
Qed.

Lemma removeControllerFinalizers_typed k (o : lobj k) :
  emits lsc_typed (removeControllerFinalizers k o).
Proof.
  apply emits_OnError. unfold removeControllerFinalizers_once. cbv zeta. lsc_emits.
Qed.
Hint Extern 1 (emits _ (removeControllerFinalizers ?k ?o)) =>
  exact (removeControllerFinalizers_typed k o) : lsc_typed.

Lemma ensureFinalizer_typed lsc : emits lsc_typed (ensureFinalizer lsc).
Proof.
  unfold ensureFinalizer. emits_step; [apply emits_ret|].
  emits_step; [|lsc_emits]. apply emits_OnError. unfold ensureFinalizer_once. cbv zeta. lsc_emits.
Qed.
Hint Resolve ensureFinalizer_typed : lsc_typed.

Lemma publish_typed lsc c ph re : emits lsc_typed (publishLocalStorageClassStatus lsc c ph re).
Proof. unfold publishLocalStorageClassStatus. cbv zeta. lsc_emits. Qed.
Hint Resolve publish_typed : lsc_typed.

Lemma updatePhase_typed lsc ph re : emits lsc_typed (updateLocalStorageClassPhase lsc ph re).
Proof. unfold updateLocalStorageClassPhase. lsc_emits. Qed.
Hint Resolve updatePhase_typed : lsc_typed.

Lemma fail_phase_typed lsc re b err : emits lsc_typed (fail_phase lsc re b err).
Proof. unfold fail_phase. lsc_emits. Qed.

Lemma fail_phase_or_publish_typed lsc b err : emits lsc_typed (fail_phase_or_publish lsc b err).
Proof. unfold fail_phase_or_publish. lsc_emits. Qed.

Lemma succeed_typed lsc : emits lsc_typed (succeed lsc).
Proof. unfold succeed. lsc_emits. Qed.

Lemma run_failed_typed lsc err : emits lsc_typed (run_failed lsc err).
Proof. unfold run_failed. lsc_emits. Qed.
Hint Resolve fail_phase_typed fail_phase_or_publish_typed succeed_typed run_failed_typed : lsc_typed.

Lemma deleteStorageClass_typed sc : emits lsc_typed (deleteStorageClass sc).
Proof. unfold deleteStorageClass. lsc_emits. Qed.
Hint Resolve deleteStorageClass_typed : lsc_typed.

Lemma dispatch_typed scs lsc lvgs ignored : emits lsc_typed (dispatch scs lsc lvgs ignored).
Proof.
  unfold dispatch, reconcileLSCCreateFunc, reconcileLSCUpdateFunc, reconcileLSCDeleteFunc,
    create_valid, release_lsc, recreateStorageClass, createStorageClassIfNotExists,
    addFinalizerIfNotExistsForSC, setLocalStorageClassDeleting. cbv zeta. lsc_emits.
Qed.
Hint Resolve dispatch_typed : lsc_typed.

Lemma lsc_Reconcile_typed cfg metrics ns n :
  emits lsc_typed (LSCReconcile.Reconcile cfg metrics ns n).
Proof.
  unfold LSCReconcile.Reconcile, reconcile_lsc, reconcile_existing, RunEventReconcile,
    getStorageClassLabelIgnoredPrefixes. cbv zeta. lsc_emits;
    apply lsc_emit_typed; first [apply typed_reconcile|apply typed_phase|apply typed_ready
                                |apply typed_forget].
Qed.
End lsc.

(** ** The node watcher *)

Section watcher.
Context `{LabelSelectors, ApiMachinery, MapRange, NodeSelectors}.

Definition nw_records (D : list declaration) (e : event nwSig) : Prop :=
  match ev_op e with WMetric m => typed D m | _ => True end.

Abbreviation nw_typed := (nw_records controller_metrics).

Lemma unlessPanic_typed {A B} (p : prog nwSig (option A)) (f : A → prog nwSig (option B)) :
  emits nw_typed p → (∀ a, emits nw_typed (f a)) → emits nw_typed (unlessPanic p f).
Proof.
  intros Hp Hf. unfold unlessPanic. apply emits_bind; [done|].
  intros [a|]; [apply Hf|apply emits_ret].
Qed.

Ltac nw_emits :=
  repeat first
    [ progress intros
    | progress unfold getSecret, getLVMVolumeGroups, getLocalStorageClasses, getKubeNodes,
        getKubernetesNodesBySelector
    | match goal with
      | |- emits _ (nw_call ?o) => refine (emits_call (S := nwSig) _ o _); intros ?
      | |- emits _ (unlessPanic _ _) => apply unlessPanic_typed
      end
    | emits_step ]; try done.

Lemma nw_emit_typed ops : Forall (typed controller_metrics) ops → emits nw_typed (nw_emit ops).
Proof.
  induction 1 as [|m ops Hm _ IH]; cbn [nw_emit]; [apply emits_ret|].
  apply emits_bind; [by refine (emits_call (S := nwSig) _ (WMetric m) _)|]. by intros [].
Qed.

Lemma label_node_typed node label : emits nw_typed (label_node node label).
Proof. unfold label_node. nw_emits. Qed.

Lemma labelNodes_typed nodes : emits nw_typed (labelNodesWithLocalCSIIfNeeded nodes).
Proof.
  induction nodes as [|node nodes IH]; cbn [labelNodesWithLocalCSIIfNeeded];
    [apply emits_ret|]. nw_emits; first [apply label_node_typed|apply IH].
Qed.

Lemma label_lvgs_typed l : emits nw_typed (label_lvgs l).
Proof.
  induction l as [|[n v] l IH]; cbn [label_lvgs]; [apply emits_ret|].
  unfold addLabelOnTheLVGIfNotExist. nw_emits; apply IH.
Qed.

Lemma label_lscs_typed l : emits nw_typed (label_lscs l).
Proof.
  induction l as [|[n v] l IH]; cbn [label_lscs]; [apply emits_ret|].
  unfold addLabelOnTheLSCIfNotExist. nw_emits; apply IH.
Qed.

Lemma clear_lvgs_typed used lvgs : emits nw_typed (clear_lvgs used lvgs).
Proof.
  revert lvgs. induction used as [|[n i] used IH]; intros lvgs; cbn [clear_lvgs];
    [apply emits_ret|]. cbv zeta. nw_emits; apply IH.
Qed.

Lemma clear_lscs_typed lvgs lvgList lscs : emits nw_typed (clear_lscs lvgs lvgList lscs).
Proof.
  induction lscs as [|lsc lscs IH]; cbn [clear_lscs]; [apply emits_ret|]. nw_emits; apply IH.
Qed.

Lemma clearManualEvictionLabels_typed node :
  emits nw_typed (clearManualEvictionLabelsIfNeeded node).
Proof.
  unfold clearManualEvictionLabelsIfNeeded, clear_dependents. cbv zeta.
  nw_emits; first [apply clear_lvgs_typed|apply clear_lscs_typed].
Qed.

Lemma reconcileLocalCSILabels_typed nodes selector :
  emits nw_typed (reconcileLocalCSILabels nodes selector).
Proof.
  induction nodes as [|node nodes IH]; cbn [reconcileLocalCSILabels]; [apply emits_ret|].
  unfold evict_node, getManuallyEvictedLVGsAndLSCs, addLabelOnTheNodeIfNotExist.
  nw_emits; first [apply clearManualEvictionLabels_typed|apply label_node_typed
                  |apply label_lvgs_typed|apply label_lscs_typed|apply IH].
Qed.

Lemma reconcile_watcher_typed secret interval metrics ns n :
  emits nw_typed (reconcile_watcher secret interval metrics ns n).
Proof.
  unfold reconcile_watcher, reconcile_secret, reconcileLocalCSINodes.
  nw_emits; first [apply labelNodes_typed|apply reconcileLocalCSILabels_typed
                  |apply nw_emit_typed, typed_reconcile].
Qed.
End watcher.

(** ** Well-typedness *)

Lemma typed_declared D D' m : (∀ d, d ∈ D → d ∈ D') → typed D m → typed D' m.
Proof.
  intros HD. destruct m; simpl; [done|..].
  - intros (d & ? & ?). eauto.
  - intros [(d & ? & ?) ?]. split; eauto.
  - intros [(d & ? & ?) ?]. split; eauto.
  - intros [(d & ? & ?) ?]. split; eauto.
Qed.

Lemma well_declared_controller : well_declared controller_metrics.
Proof.
  split; [apply (bool_decide_unpack _); by vm_compute|].
  unfold controller_metrics. cbn.
  repeat (apply Forall_cons; split); try apply Forall_nil; try by constructor.
  cbn [d_buckets]. unfold reconcileDurationBuckets. by repeat constructor.
Qed.

Lemma well_declared_driver : well_declared driver_metrics.
Proof.
  split; [apply (bool_decide_unpack _); by vm_compute|].
  unfold driver_metrics. cbn.
  repeat (apply Forall_cons; split); try apply Forall_nil; try by constructor.
  cbn [d_buckets]. unfold operationDurationBuckets. by repeat constructor.
Qed.

Section typing.
Context `{LabelSelectors, ApiMachinery, MapRange, RetryOnError, Conditions, !YamlLVGs,
          ConfigYaml, !NodeSelectors}.

(** Everything the controller records is of the types [D] declares. *)
Record controller_typed (D : list declaration) : Prop := {
  ct_gc : ∀ g sweepInterval lastSweep,
    emits (gc_records D) (GCController.Reconcile g sweepInterval lastSweep);
  ct_lsc : ∀ cfg metrics ns n,
    emits (lsc_records D) (LSCReconcile.Reconcile cfg metrics ns n);
  ct_watcher : ∀ secret interval metrics ns n,
    emits (nw_records D) (reconcile_watcher secret interval metrics ns n);
}.

(** C20: the metrics are typed.  Once Register has declared the metrics of the
    controller without an error, whatever a reconcile of the garbage collector,
    of the LocalStorageClass controller or of the node watcher records is a
    declared metric of that kind with exactly its labels, with label values of
    the documented vocabulary and a reason exactly on a blocked orphan, and the
    same holds of the CSI driver and its Register.  A registration that fails
    is the last one made, and the error names its metric. *)
Theorem metrics_are_declared :
  wp Monitoring.Register [] (λ err h,
    registered controller_metrics err h ∧
    (err = None → well_declared controller_metrics ∧ controller_typed (declared h))) ∧
  wp Settings.Register [] (λ err h,
    registered driver_metrics err h ∧
    (err = None → well_declared driver_metrics ∧
      ∀ r m since code, Forall (typed (declared h)) (ObserveOperation r m since code))).
Proof.
  destruct Register_registers as [-> ->]. fold controller_metrics driver_metrics.
  assert (Hin : ∀ l (h : history regSig),
    registered l None h → ∀ d, d ∈ l → d ∈ declared h).
  { intros l h -> d Hd. rewrite declared_reverse. by apply elem_of_reverse. }
  split; (eapply wp_mono; [apply (wp_registers _ [])|]); intros err h Hr;
    (split; [done|]); intros ->; specialize (Hin _ _ Hr).
  - split; [apply well_declared_controller|]. split; intros.
    + eapply emits_mono; [|apply Reconcile_typed]. intros [[] ?]; try done.
      by apply typed_declared.
    + eapply emits_mono; [|apply lsc_Reconcile_typed]. intros [[] ?]; try done.
      by apply typed_declared.
    + eapply emits_mono; [|apply reconcile_watcher_typed]. intros [[] ?]; try done.
      by apply typed_declared.
  - split; [apply well_declared_driver|]. intros r m since code.
    eapply Forall_impl; [apply typed_operation|]. intros op. by apply typed_declared.
Qed.
End typing.
