(* ===== verification/Process.v ===== *)
(** * Starting a process

    What the three programs do between main and the servers they end in.  The
    clients, the manager and the servers are third-party: their operations
    answer with an error or none.  [must] is the pattern of the source, an
    operation whose error is logged and ends the process, and [starts] what a
    sequence of them amounts to: everything was done, in order, or the process
    exited at the first error. *)

From S2P Require Import Prelude Effects Kube Monitoring Manager Settings MetricTypes.

Local Open Scope string_scope.

(** api/v1alpha1/register.go *)
Definition APIGroup := "storage.deckhouse.io".
Definition APIVersion := "v1alpha1".

(** What the programs get from third-party constructors. *)
Class Runtime := {
  KubeConfig : Type;         (* rest.Config *)
  KubeClient : Type;         (* client.Client *)
  WebhookServer : Type;      (* a webhook of kubewebhook *)
  HTTPHandler : Type;        (* http.Handler *)
}.

(** The functions that add types to a scheme. *)
Inductive scheme_func := SncScheme | ClientGoScheme | ExtensionsScheme | CoreScheme | StorageScheme
  | D8CommonScheme.

(** The functions the webhooks serve. *)
Inductive admission := PodSchedulerMutate_ | LSCValidate_ | SCValidate_.

(** What listens in a goroutine of its own. *)
Inductive listener := Probes (address : string) | Metrics (address : string).

Section process.
Context `{ApiMachinery, Runtime}.

(** The options of the manager. *)
Record manager_options := mkManagerOptions {
  mo_DefaultNamespaces : list string;
  mo_PVTransform : PersistentVolume + unstructured → PersistentVolume + unstructured;
  mo_LeaderElection : bool;
  mo_LeaderElectionNamespace : string;
  mo_LeaderElectionID : string;
  mo_HealthProbeBindAddress : string;
  mo_MetricsBindAddress : string;
}.

(** The driver of driver.go, without its servers and locks. *)
Record Driver := mkDriver {
  d_name : string;
  d_hostID : string;
  d_csiAddress : string;
  d_address : string;
  d_waitActionTimeout : Z;
  d_metrics : Recorder;
  d_cl : option KubeClient;
  d_ready : bool;
}.

Inductive proc_op :=
| Printf (format : string)
| Fatalf (format : string)
| Log (level : log_level) (message : string)
| LoadConfig
| InClusterConfig
| BuildConfigFromFlags (masterUrl kubeconfigPath : string)
| AddToScheme (f : scheme_func)
| AddKnownTypes (group version : string) (types : list string)
| AddToGroupVersion (group version : string)
| RegisterMetric (d : declaration)
| RegisterCollector
| NewManager (config : option KubeConfig) (opts : manager_options)
| Setup (o : setup_op)
| AddHealthzCheck (name : string)
| AddReadyzCheck (name : string)
| StartManager
| NewClient (config : KubeConfig)
| Go (l : listener)
| RunDriver (d : Driver)
| NewWebhook (ID : string) (f : admission) (obj : string)
| HandlerFor (w : WebhookServer)
| ListenAndServeTLS (port cert key : string) (mux : list (string * option HTTPHandler)).

Definition proc_res (o : proc_op) : Type :=
  match o with
  | Printf _ | Fatalf _ | Log _ _ | AddKnownTypes _ _ _ | AddToGroupVersion _ _ | Go _ => unit
  | LoadConfig | InClusterConfig | BuildConfigFromFlags _ _ => KubeConfig + string
  | NewClient _ => KubeClient + string
  | NewWebhook _ _ _ => WebhookServer + string
  | HandlerFor _ => HTTPHandler + string
  | _ => option string
  end.

Definition procSig : sig := Sig proc_op proc_res.

Definition proc_call (o : proc_op) : prog procSig (proc_res o) := call (S := procSig) o.

#[export] Instance reg_sub : Subsig regSig procSig :=
  {| lift_op := RegisterMetric : op regSig → op procSig; lift_res := λ _ r, r |}.
#[export] Instance setup_sub : Subsig setupSig procSig :=
  {| lift_op := Setup : op setupSig → op procSig; lift_res := λ _ r, r |}.

(** [if err := ...; err != nil { log.Error (message, logger.Err (err)); os.Exit (1) }],
    with the exit status. *)
Definition must (p : prog procSig (option string)) (message : string) (rest : prog procSig Z)
    : prog procSig Z :=
  err ← p;
  match err with
  | Some _ => _ ← proc_call (Log LevelError message); mret 1%Z
  | None => rest
  end.

Definition info (message : string) (rest : prog procSig Z) : prog procSig Z :=
  _ ← proc_call (Log LevelInfo message); rest.

(** ** The scheme *)

(** addKnownTypes, and the AddToScheme built from it *)
Definition addKnownTypes : prog procSig (option string) :=
  _ ← proc_call (AddKnownTypes APIGroup APIVersion ["LocalStorageClass"; "LocalStorageClassList"]);
  _ ← proc_call (AddToGroupVersion APIGroup APIVersion);
  mret None.

(** The loop over them; the first error ends it. *)
Fixpoint build_scheme (fs : list (prog procSig (option string))) : prog procSig (option string) :=
  match fs with
  | [] => mret None
  | f :: fs => err ← f; match err with Some err => mret (Some err) | None => build_scheme fs end
  end.

(** ** What a start amounts to *)

(** The operations a start is made of, with their answers: those that can fail
    it, and those that have no error, which are always accepted; the others read
    the configuration, build something that is used later, or say something. *)
Definition answer (e : event procSig) : option (proc_op * option string) :=
  match ev_op e as o return proc_res o → option (proc_op * option string) with
  | AddToScheme f => λ r, Some (AddToScheme f, r)
  | AddKnownTypes g v types => λ _, Some (AddKnownTypes g v types, None)
  | AddToGroupVersion g v => λ _, Some (AddToGroupVersion g v, None)
  | Go l => λ _, Some (Go l, None)
  | RegisterMetric d => λ r, Some (RegisterMetric d, r)
  | RegisterCollector => λ r, Some (RegisterCollector, r)
  | NewManager c opts => λ r, Some (NewManager c opts, r)
  | Setup o => λ r, Some (Setup o, r)
  | AddHealthzCheck n => λ r, Some (AddHealthzCheck n, r)
  | AddReadyzCheck n => λ r, Some (AddReadyzCheck n, r)
  | StartManager => λ r, Some (StartManager, r)
  | ListenAndServeTLS port cert key mux => λ r, Some (ListenAndServeTLS port cert key mux, r)
  | RunDriver d => λ r, Some (RunDriver d, r)
  | _ => λ _, None
  end (ev_res e).

(** The first ones first. *)
Definition answers (h : history procSig) : list (proc_op * option string) :=
  reverse (omap answer h).

Definition accepted (steps : list proc_op) : list (proc_op * option string) :=
  map (λ o, (o, None)) steps.

(** One step of [steps] was refused with [err], after all those before it were
    accepted and before any after it was tried. *)
Definition refused (steps : list proc_op) (err : string)
    (ans : list (proc_op * option string)) : Prop :=
  ∃ done o rest, steps = (done ++ o :: rest)%list ∧
    ans = (accepted done ++ [(o, Some err)])%list.

(** Everything was accepted and the process ended as [fin] says of its status
    and of the answers to what came after, or it exited at the first refusal. *)
Definition outcome (steps : list proc_op) (fin : Z → list (proc_op * option string) → Prop)
    (status : Z) (ans : list (proc_op * option string)) : Prop :=
  (∃ last, ans = (accepted steps ++ last)%list ∧ fin status last) ∨
  (status = 1%Z ∧ ∃ err, refused steps err ans).

(** What may be said of the end of a process: its history, its status and the
    answers to what came after the steps. *)
Definition ending : Type := history procSig → Z → list (proc_op * option string) → Prop.

(** Nothing came after, and the process ended well. *)
Definition ends_well : ending := λ _ status last, status = 0%Z ∧ last = [].

Definition starts (steps : list proc_op) (fin : ending) (p : prog procSig Z) : Prop :=
  ∀ h, wp p h (λ status h', ∃ new, h' = (new ++ h)%list ∧
    outcome steps (fin h') status (answers new)).

(** The same for a part of a start that reports its error. *)
Definition performs (steps : list proc_op) (p : prog procSig (option string)) : Prop :=
  ∀ h, wp p h (λ err h', ∃ new, h' = (new ++ h)%list ∧
    match err with
    | None => answers new = accepted steps
    | Some _ => ∃ err', refused steps err' (answers new)
    end).

Lemma answers_app new h : answers (new ++ h)%list = (answers h ++ answers new)%list.
Proof. unfold answers. by rewrite omap_app, reverse_app. Qed.

Lemma accepted_app l l' : accepted (l ++ l')%list = (accepted l ++ accepted l')%list.
Proof. apply map_app. Qed.

Lemma refused_app_l steps steps' err ans :
  refused steps err ans → refused (steps ++ steps')%list err ans.
Proof.
  intros (done & o & rest & -> & ->). exists done, o, (rest ++ steps')%list.
  by rewrite <-app_assoc.
Qed.

Lemma refused_app_r steps steps' err ans :
  refused steps' err ans → refused (steps ++ steps')%list err (accepted steps ++ ans)%list.
Proof.
  intros (done & o & rest & -> & ->). exists (steps ++ done)%list, o, rest.
  by rewrite accepted_app, <-!app_assoc.
Qed.

(** After an operation that is no step, its event may be relied on. *)
Lemma starts_silent o (rest : proc_res o → prog procSig Z) steps (fin : ending) :
  (∀ r, answer (Ev (S := procSig) o r) = None) →
  (∀ r, starts steps (λ h status last, Ev (S := procSig) o r ∈ h → fin h status last) (rest r)) →
  starts steps fin (r ← proc_call o; rest r).
Proof.
  intros Ho Hp h. apply wp_call_bind. intros r. eapply wp_mono; [apply Hp|].
  intros status h' (new & -> & Hout). eexists (new ++ [_])%list. rewrite <-app_assoc.
  split; [done|]. rewrite answers_app. unfold answers at 1. simpl. rewrite Ho. simpl.
  destruct Hout as [(last & -> & Hfin)|Hr]; [left|by right]. exists last. split; [done|].
  apply Hfin. apply elem_of_app. right. apply elem_of_cons. by left.
Qed.

Lemma starts_mono steps (fin fin' : ending) p :
  (∀ h status last, fin h status last → fin' h status last) →
  starts steps fin p → starts steps fin' p.
Proof.
  intros Hf Hp h. eapply wp_mono; [apply Hp|]. intros status h' (new & -> & Ho).
  exists new. split; [done|]. destruct Ho as [(last & ? & ?)|?]; [left|by right]. eauto.
Qed.

Lemma starts_info message p steps fin :
  starts steps fin p → starts steps fin (info message p).
Proof. intros Hp. apply starts_silent; [done|]. intros r. eapply starts_mono; [|done]. auto. Qed.

Lemma starts_must p message rest steps steps' fin :
  performs steps p → starts steps' fin rest → starts (steps ++ steps') fin (must p message rest).
Proof.
  intros Hp Hrest h. apply wp_bind. eapply wp_mono; [apply Hp|].
  intros [err|] h1 (new & -> & Ha).
  - apply wp_call_bind. intros r. apply wp_ret. eexists (_ :: new). split; [done|].
    right. split; [done|]. destruct Ha as [err' Ha]. exists err'.
    by apply (refused_app_l steps steps').
  - eapply wp_mono; [apply Hrest|]. intros status h' (new' & -> & Ho).
    exists (new' ++ new)%list. rewrite <-app_assoc. split; [done|]. rewrite answers_app, Ha.
    destruct Ho as [(last & -> & Hfin)|[-> [err Hr]]]; [left|right; split; [done|]; exists err].
    + exists last. by rewrite accepted_app, <-app_assoc.
    + by apply refused_app_r.
Qed.

Lemma starts_ret : starts [] ends_well (mret 0%Z).
Proof. intros h. apply wp_ret. exists []. split; [done|]. left. by exists []. Qed.

(** Parts that are one operation, nothing, or a sequence. *)
Lemma performs_call (o : proc_op) (p : prog procSig (option string)) :
  (∀ h, wp p h (λ err h', ∃ e, h' = e :: h ∧ answer e = Some (o, err))) → performs [o] p.
Proof.
  intros Hp h. eapply wp_mono; [apply Hp|]. intros err h' (e & -> & He).
  exists [e]. split; [done|]. unfold answers. simpl. rewrite He.
  destruct err; [|done]. eexists _, [], o, []. done.
Qed.

Lemma performs_none : performs [] (mret None).
Proof. intros h. apply wp_ret. by exists []. Qed.

Lemma performs_bind p q steps steps' :
  performs steps p → performs steps' q →
  performs (steps ++ steps')
    (err ← p; match err with Some err => mret (Some err) | None => q end).
Proof.
  intros Hp Hq h. apply wp_bind. eapply wp_mono; [apply Hp|]. intros [err|] h1 (new & -> & Ha).
  - apply wp_ret. exists new. split; [done|]. destruct Ha as [err' Ha]. exists err'.
    by apply refused_app_l.
  - eapply wp_mono; [apply Hq|]. intros err h' (new' & -> & Hb). exists (new' ++ new)%list.
    rewrite <-app_assoc, answers_app, Ha. split; [done|].
    destruct err; [destruct Hb as [err' Hb]; exists err'; by apply refused_app_r|].
    by rewrite Hb, accepted_app.
Qed.
Lemma performs_scheme f : performs [AddToScheme f] (proc_call (AddToScheme f)).
Proof. apply performs_call. intros h r h' [r' [-> ->]]. by eexists. Qed.

(** The module's own types, in a scheme. *)
Definition own_types : list proc_op :=
  [AddKnownTypes APIGroup APIVersion ["LocalStorageClass"; "LocalStorageClassList"];
   AddToGroupVersion APIGroup APIVersion].

Lemma performs_known_types : performs own_types addKnownTypes.
Proof.
  intros h. apply wp_call_bind. intros r. apply wp_call_bind. intros r'. apply wp_ret.
  by eexists [_; _].
Qed.

(** An operation without an error. *)
Lemma starts_call o (rest : proc_res o → prog procSig Z) steps fin :
  (∀ r, answer (Ev (S := procSig) o r) = Some (o, None)) →
  (∀ r, starts steps fin (rest r)) → starts (o :: steps) fin (r ← proc_call o; rest r).
Proof.
  intros Ho Hp h. apply wp_call_bind. intros r. eapply wp_mono; [apply Hp|].
  intros status h' (new & -> & Hout). eexists (new ++ [_])%list. rewrite <-app_assoc.
  split; [done|]. rewrite answers_app. unfold answers at 1. simpl. rewrite Ho. simpl.
  destruct Hout as [(last & -> & Hfin)|[-> [err Hr]]]; [left|right].
  - by exists last.
  - split; [done|]. exists err. by apply (refused_app_r [o]).
Qed.

Lemma performs_build steps f fs steps' :
  performs steps f → performs steps' (build_scheme fs) →
  performs (steps ++ steps')%list (build_scheme (f :: fs)).
Proof. apply performs_bind. Qed.

Lemma performs_registers l : performs (map RegisterMetric l) (translate (registers l)).
Proof.
  induction l as [|d l IH]; [apply performs_none|]. intros h. cbn [registers foldr].
  apply wp_do. intros [err|]; simpl.
  - apply wp_ret. eexists [_]. split; [done|]. eexists err, [], _, _. done.
  - eapply wp_mono; [apply IH|]. intros err h' (new & -> & Ha). eexists (new ++ [_])%list.
    rewrite <-app_assoc, answers_app. split; [done|].
    destruct err; [destruct Ha as [err Ha]; exists err; by apply (refused_app_r [_])|].
    by rewrite Ha.
Qed.

End process.

(** A step that is one operation. *)
Ltac one_call := apply performs_call; intros ? ? ? [? [-> ->]]; by eexists.
