(* ===== verification/ControllerMain.v ===== *)
(** * The controller process

    cmd/main.go of the controller, with pkg/kubutils and the registration of
    the API types: the configuration, the scheme, the metrics, the manager with
    its cache, the three controllers, the probes, and the manager's start. *)

From S2P Require Import Prelude Effects Kube Monitoring Manager LSC LSCReconcile GC GCController.
From S2P Require Import NodeWatcher Settings MetricTypes Process.

Local Open Scope string_scope.

(** pkg/config *)
Definition ControllerName := "d8-controller".

Section main.
Context `{ApiMachinery, Runtime}.

(** ** The parts *)

(** kubutils.KubernetesDefaultConfigCreate of the controller *)
Definition KubernetesDefaultConfigCreate : prog procSig (KubeConfig + string) :=
  config ← proc_call LoadConfig;
  match config with
  | inr err => mret (inr ("config kubernetes error " +:+ err))
  | inl config => mret (inl config)
  end.

(** The functions of resourcesSchemeFuncs *)
Definition resourcesSchemeFuncs : list (prog procSig (option string)) :=
  [proc_call (AddToScheme SncScheme); addKnownTypes; proc_call (AddToScheme ClientGoScheme);
   proc_call (AddToScheme ExtensionsScheme); proc_call (AddToScheme CoreScheme);
   proc_call (AddToScheme StorageScheme)].

(** The options of the collector among those of the controller. *)
Definition gc_options_of (cfg : Settings.Options) : gc_options :=
  mkGCOptions (Settings.opt_LLVSweepInterval cfg) (Settings.opt_LLVOrphanGracePeriod cfg).

Definition manager_options_of (cfg : Settings.Options) : manager_options :=
  mkManagerOptions [opt_ControllerNamespace cfg] StripPersistentVolume true
    (opt_ControllerNamespace cfg) ControllerName
    (opt_HealthProbeBindAddress cfg) (opt_MetricsBindAddress cfg).

(** A controller that is run for its error. *)
Definition run_controller {A} (p : prog setupSig (A + string)) : prog procSig (option string) :=
  r ← translate p;
  mret match r with inl _ => None | inr err => Some err end.

(** ** main *)

Definition main (Getenv : string → string) (namespace_file : option string) : prog procSig Z :=
  let cfgParams := NewConfig Getenv namespace_file in
  if snd (Level (opt_Loglevel cfgParams))
  then _ ← proc_call (Printf "unable to create NewLogger, err: %v"); mret 1%Z
  else
    info "starting the sds-local-volume controller" (
    info "configuration loaded" (
    kConfig ← KubernetesDefaultConfigCreate;
    _ ← (match kConfig with
         | inr _ => proc_call (Log LevelError "unable to create the kubernetes config")
         | inl _ => mret tt
         end);
    let kConfig := match kConfig with inl config => Some config | inr _ => None end in
    info "kubernetes config created" (
    must (build_scheme resourcesSchemeFuncs) "unable to add a resource to the scheme" (
    info "scheme built" (
    must (translate Monitoring.Register) "unable to register the metrics" (
    must (proc_call RegisterCollector)
      "unable to add the metrics to the controller-runtime registry" (
    let metrics := NewRecorder true in
    info "metrics registered" (
    must (proc_call (NewManager kConfig (manager_options_of cfgParams)))
      "unable to create the manager" (
    info "manager created" (
    must (run_controller RunLocalStorageClassWatcherController) "unable to run the controller" (
    must (run_controller RunLocalCSINodeWatcherController) "unable to run the controller" (
    must (run_controller (RunLVMLogicalVolumeGCController (gc_options_of cfgParams) metrics))
      "unable to run the controller" (
    must (proc_call (AddHealthzCheck "healthz")) "unable to add the healthz check" (
    must (proc_call (AddReadyzCheck "readyz")) "unable to add the readyz check" (
    info "health probes registered" (
    must (proc_call StartManager) "the manager stopped with an error" (
    mret 0%Z))))))))))))))))).

(** ** A whole start *)

(** Everything that has to be accepted, in order. *)
Definition start_up (cfg : Settings.Options) (kConfig : option KubeConfig) : list proc_op :=
  ([AddToScheme SncScheme] ++ own_types
   ++ [AddToScheme ClientGoScheme; AddToScheme ExtensionsScheme; AddToScheme CoreScheme;
       AddToScheme StorageScheme]
   ++ map RegisterMetric controller_metrics
   ++ [RegisterCollector; NewManager kConfig (manager_options_of cfg)]
   ++ map Setup [NewController LocalStorageClassCtrlName; Watch WatchLSC; Watch WatchSecret;
                 Watch WatchLVG;
                 NewController LocalCSINodeWatcherCtrl; Watch WatchNodeSecret;
                 NewController LVMLogicalVolumeGCCtrlName; Watch WatchLLV; Watch WatchPV;
                 Watch WatchLLVS; AddRunnable]
   ++ [AddHealthzCheck "healthz"; AddReadyzCheck "readyz"; StartManager])%list.

Lemma performs_resources :
  performs ([AddToScheme SncScheme] ++ own_types ++ [AddToScheme ClientGoScheme;
    AddToScheme ExtensionsScheme; AddToScheme CoreScheme; AddToScheme StorageScheme])%list
    (build_scheme resourcesSchemeFuncs).
Proof.
  apply (performs_build [_]); [apply performs_scheme|].
  apply performs_build; [apply performs_known_types|].
  do 4 (apply (performs_build [_]); [apply performs_scheme|]). apply performs_none.
Qed.

Lemma performs_set_up {A} o (rest : prog setupSig (A + string)) steps :
  performs steps (run_controller rest) →
  performs (Setup o :: steps) (run_controller (set_up o rest)).
Proof.
  intros Hr h. unfold run_controller at 1. apply wp_do. intros [err|].
  - apply wp_ret. eexists [_]. split; [done|]. eexists err, [], _, _. done.
  - eapply wp_mono; [apply Hr|]. intros err h' (new & -> & Ha). eexists (new ++ [_])%list.
    rewrite <-app_assoc, answers_app. split; [done|].
    destruct err; [destruct Ha as [err Ha]; exists err; by apply (refused_app_r [_])|].
    by rewrite Ha.
Qed.

Lemma performs_run (os : list setup_op) {A} (a : A) :
  performs (map Setup os) (run_controller (foldr set_up (mret (inl a)) os)).
Proof.
  induction os as [|o os IH]; [apply performs_none|]. by apply performs_set_up.
Qed.

(** The part of the start after the configuration of the client. *)
Lemma starts_main cfg (kConfig : option KubeConfig) :
  starts (start_up cfg kConfig) ends_well (
    info "kubernetes config created" (
    must (build_scheme resourcesSchemeFuncs) "unable to add a resource to the scheme" (
    info "scheme built" (
    must (translate Monitoring.Register) "unable to register the metrics" (
    must (proc_call RegisterCollector)
      "unable to add the metrics to the controller-runtime registry" (
    info "metrics registered" (
    must (proc_call (NewManager kConfig (manager_options_of cfg)))
      "unable to create the manager" (
    info "manager created" (
    must (run_controller RunLocalStorageClassWatcherController) "unable to run the controller" (
    must (run_controller RunLocalCSINodeWatcherController) "unable to run the controller" (
    must (run_controller (RunLVMLogicalVolumeGCController (gc_options_of cfg) (NewRecorder true)))
      "unable to run the controller" (
    must (proc_call (AddHealthzCheck "healthz")) "unable to add the healthz check" (
    must (proc_call (AddReadyzCheck "readyz")) "unable to add the readyz check" (
    info "health probes registered" (
    must (proc_call StartManager) "the manager stopped with an error" (
    mret 0%Z)))))))))))))))).
Proof.
  unfold start_up. rewrite !(app_assoc _ _ (map RegisterMetric _ ++ _)).
  apply starts_info, starts_must; [apply performs_resources|].
  apply starts_info, starts_must; [apply (performs_registers controller_metrics)|].
  apply (starts_must _ _ _ [_] _); [one_call|].
  apply starts_info.
  apply (starts_must _ _ _ [_] _); [one_call|].
  apply starts_info. cbn [map app].
  apply (starts_must _ _ _ (map Setup [_; _; _; _]));
    [apply (performs_run [NewController _; Watch _; Watch _; Watch _] tt)|].
  apply (starts_must _ _ _ (map Setup [_; _]));
    [apply (performs_run [NewController _; Watch _] tt)|].
  apply (starts_must _ _ _ (map Setup [_; _; _; _; _]));
    [apply (performs_run [NewController _; Watch _; Watch _; Watch _; AddRunnable]
              (newGarbageCollector _ _))|].
  do 2 (apply (starts_must _ _ _ [_] _);
    [one_call|]).
  apply starts_info.
  apply (starts_must _ _ _ [_] _); [one_call|].
  apply starts_ret.
Qed.

(** C29: the controller starts whole or not at all.  Unless the log level is
    malformed, which ends the process before it does anything, main loads the
    configuration of its client once, and then performs, in this order and each
    after the ones before it were accepted: the additions to the scheme, the
    module's own types among them, every metric declaration, the collector, the manager with the
    cache that strips PersistentVolumes, the three controllers with each of
    their watches and the initial sweep, the probes, and last the start of the
    manager.  It exits with 0 if all were accepted and with 1 right after the
    first one that was not.  A configuration that cannot be loaded is not among
    them: the manager is then asked for with none. *)
Theorem controller_starts_whole Getenv namespace_file :
  wp (main Getenv namespace_file) [] (λ status h,
    let cfg := NewConfig Getenv namespace_file in
    if snd (Level (opt_Loglevel cfg)) then status = 1%Z ∧ answers h = []
    else ∃ config, Ev (S := procSig) LoadConfig config ∈ h ∧
           outcome (start_up cfg match config with inl c => Some c | inr _ => None end)
             (ends_well h) status (answers h)).
Proof.
  unfold main. set (cfg := NewConfig _ _). cbv zeta.
  destruct (snd (Level (opt_Loglevel cfg))).
  { apply wp_call_bind. intros r. by apply wp_ret. }
  do 2 (apply wp_call_bind; intros []). apply wp_bind, wp_call_bind. intros config.
  set (kConfig := match config with inl c => Some c | inr _ => None end).
  set (h1 := _ :: _).
  assert (Ha : answers h1 = []) by by destruct config.
  assert (Hend : ∀ h2, answers h2 = answers h1 → Ev (S := procSig) LoadConfig config ∈ h2 →
    ∀ status h, (∃ new, h = (new ++ h2)%list ∧ outcome (start_up cfg kConfig) (ends_well h) status (answers new)) →
    ∃ config, Ev (S := procSig) LoadConfig config ∈ h ∧
      outcome (start_up cfg match config with inl c => Some c | inr _ => None end)
        (ends_well h) status (answers h)).
  { intros h2 Ha2 Hin status h (new & -> & Ho). exists config. rewrite answers_app, Ha2, Ha.
    split; [apply elem_of_app; by right|done]. }
  destruct config as [config|err]; apply wp_ret; apply wp_bind.
  - apply wp_ret. eapply wp_mono; [apply starts_main|]. apply Hend; [done|set_solver].
  - apply wp_do. intros []. apply (wp_ret tt). eapply wp_mono; [apply starts_main|]. apply Hend; [done|set_solver].
Qed.
End main.
