(* ===== verification/DriverMain.v ===== *)
(** * The process of the CSI driver

    images/sds-local-volume-csi: config/config.go on the environment and the
    command line, pkg/kubutils, cmd/main.go up to the driver it runs, NewDriver
    of driver/driver.go and the identity service of driver/identity.go.  What it
    does once it runs is in DriverRun.v. *)

From S2P Require Import Prelude Effects Kube Monitoring Manager Flags Settings MetricTypes Process.

Local Open Scope string_scope.

(** ** Configuration *)

Definition NodeName := "KUBE_NODE_NAME".
Definition DefaultDriverName := "local.csi.storage.deckhouse.io".
Definition DefaultAddress := "127.0.0.1:12302".
Definition defaultWaitActionTimeout : Z := 5 * Minute.

Record Options := mkCSIOptions {
  csi_NodeName : string;
  csi_Version : string;
  csi_Loglevel : string;
  csi_HealthProbeBindAddress : string;
  csi_MetricsBindAddress : string;
  csi_CsiAddress : string;
  csi_DriverName : string;
  csi_Address : string;
}.

(** Reading it fails, ends the process, or gives the options. *)
Inductive configuration :=
| Misconfigured (err : string)
| Exited (status : Z)
| Configured (opts : Options).

(** The flags, with their defaults *)
Definition csi_flags : list (string * string) :=
  [("csi-address", "unix:///var/lib/kubelet/plugins/" +:+ DefaultDriverName +:+ "/csi.sock");
   ("driver-name", DefaultDriverName);
   ("address", DefaultAddress)].

(** NewConfig, on the environment and the arguments after the name of the
    program *)
Definition NewConfig (Getenv : string → string) (args : list string) : configuration :=
  let or_default name def := if bool_decide (Getenv name = "") then def else Getenv name in
  if bool_decide (Getenv NodeName = "")
  then Misconfigured ("[NewConfig] required " +:+ NodeName +:+ " env variable is not specified")
  else
    match parse_flags csi_flags args with
    | Exits status => Exited status
    | Parsed values =>
        let value name := default "" (values !! name) in
        Configured (mkCSIOptions (Getenv NodeName) "dev" (or_default LogLevel DebugLevel)
          (or_default DefaultHealthProbeBindAddressEnvName DefaultHealthProbeBindAddress)
          (or_default MetricsBindAddressEnvName DefaultMetricsBindAddress)
          (value "csi-address") (value "driver-name") (value "address"))
    end.

(** ** main *)

Section main.
Context `{ApiMachinery, Runtime}.

(** kubutils.KubernetesDefaultConfigCreate of the driver *)
Definition KubernetesDefaultConfigCreate : prog procSig (KubeConfig + string) :=
  config ← proc_call InClusterConfig;
  match config with
  | inl config => mret (inl config)
  | inr _ =>
      config ← proc_call LoadConfig;
      match config with
      | inr err => mret (inr ("config kubernetes error " +:+ err))
      | inl config => mret (inl config)
      end
  end.

(** The functions of resourcesSchemeFuncs *)
Definition resourcesSchemeFuncs : list (prog procSig (option string)) :=
  [proc_call (AddToScheme SncScheme); addKnownTypes; proc_call (AddToScheme ClientGoScheme);
   proc_call (AddToScheme ExtensionsScheme); proc_call (AddToScheme CoreScheme);
   proc_call (AddToScheme StorageScheme)].

(** NewDriver; it has no error *)
Definition NewDriver (csiAddress driverName address nodeName : string) (metrics : Recorder)
    (cl : option KubeClient) : Driver :=
  mkDriver (if bool_decide (driverName = "") then DefaultDriverName else driverName)
    nodeName csiAddress address defaultWaitActionTimeout metrics cl false.

(** The status [klog.Fatalf] exits with. *)
Definition fatal : Z := 255.

(** main, on the options; the error of client.New is not looked at *)
Definition run_configured (cfgParams : Options) : prog procSig Z :=
  if snd (Level (csi_Loglevel cfgParams))
  then _ ← proc_call (Printf "unable to create NewLogger, err: %v"); mret 1%Z
  else
    info "starting sds-local-volume-csi" (
    kConfig ← KubernetesDefaultConfigCreate;
    match kConfig with
    | inr _ =>
        _ ← proc_call (Log LevelError "unable to KubernetesDefaultConfigCreate"); mret 1%Z
    | inl kConfig =>
        info "kubernetes config has been successfully created." (
        must (build_scheme resourcesSchemeFuncs) "unable to add scheme to func" (
        info "successfully read scheme CR" (
        cl ← proc_call (NewClient kConfig);
        _ ← proc_call (Go (Probes (csi_HealthProbeBindAddress cfgParams)));
        must (translate Settings.Register) "unable to register the metrics" (
        _ ← proc_call (Go (Metrics (csi_MetricsBindAddress cfgParams)));
        info "metrics registered" (
        let drv := NewDriver (csi_CsiAddress cfgParams) (csi_DriverName cfgParams)
                     (csi_Address cfgParams) (csi_NodeName cfgParams) (NewRecorder true)
                     match cl with inl cl => Some cl | inr _ => None end in
        err ← proc_call (RunDriver drv);
        match err with
        | Some _ => _ ← proc_call (Log LevelError "[dev.Run]"); mret 0%Z
        | None => mret 0%Z
        end)))))
    end).

Definition main (Getenv : string → string) (args : list string) : prog procSig Z :=
  match NewConfig Getenv args with
  | Misconfigured _ => _ ← proc_call (Fatalf "unable to create NewConfig, err: %s"); mret fatal
  | Exited status => mret status
  | Configured cfgParams => run_configured cfgParams
  end.

(** ** The identity service *)

(** The version linked into the program. *)
Context (version : string).

Definition GetPluginInfo (d : Driver) : string * string := (d_name d, version).

Inductive plugin_capability :=
| CONTROLLER_SERVICE | VOLUME_ACCESSIBILITY_CONSTRAINTS | EXPANSION_ONLINE | EXPANSION_OFFLINE.

Definition GetPluginCapabilities (d : Driver) : list plugin_capability :=
  [CONTROLLER_SERVICE; VOLUME_ACCESSIBILITY_CONSTRAINTS; EXPANSION_ONLINE; EXPANSION_OFFLINE].

Definition Probe (d : Driver) : bool := d_ready d.

(** ** A whole start *)

(** Everything that is done before the driver runs, and has to be accepted. *)
Definition start_up (cfg : Options) : list proc_op :=
  (([AddToScheme SncScheme] ++ own_types
    ++ [AddToScheme ClientGoScheme; AddToScheme ExtensionsScheme; AddToScheme CoreScheme;
        AddToScheme StorageScheme])
   ++ [Go (Probes (csi_HealthProbeBindAddress cfg))]
   ++ map RegisterMetric driver_metrics
   ++ [Go (Metrics (csi_MetricsBindAddress cfg))])%list.

(** A driver of the configuration, not ready yet. *)
Record driver_of (cfg : Options) (cl : option KubeClient) (d : Driver) : Prop := {
  of_name : d_name d = if bool_decide (csi_DriverName cfg = "") then DefaultDriverName
                       else csi_DriverName cfg;
  of_node : d_hostID d = csi_NodeName cfg;
  of_csi_address : d_csiAddress d = csi_CsiAddress cfg;
  of_address : d_address d = csi_Address cfg;
  of_client : d_cl d = cl;
  of_metrics : r_st (d_metrics d) = true;
  of_ready : d_ready d = false;
}.

(** The driver ran, on the client it was given; whatever it answered, the
    process ends well. *)
Definition runs_driver (cfg : Options) (kConfig : KubeConfig) : ending := λ h status last,
  status = 0%Z ∧ ∃ cl d r, Ev (S := procSig) (NewClient kConfig) cl ∈ h ∧
    driver_of cfg match cl with inl cl => Some cl | inr _ => None end d ∧
    last = [(RunDriver d, r)].

Lemma performs_driver_resources :
  performs ([AddToScheme SncScheme] ++ own_types ++ [AddToScheme ClientGoScheme;
    AddToScheme ExtensionsScheme; AddToScheme CoreScheme; AddToScheme StorageScheme])%list
    (build_scheme resourcesSchemeFuncs).
Proof.
  apply (performs_build [_]); [apply performs_scheme|].
  apply performs_build; [apply performs_known_types|].
  do 4 (apply (performs_build [_]); [apply performs_scheme|]). apply performs_none.
Qed.

Lemma starts_driver cfg kConfig :
  starts (start_up cfg) (runs_driver cfg kConfig) (
    info "kubernetes config has been successfully created." (
    must (build_scheme resourcesSchemeFuncs) "unable to add scheme to func" (
    info "successfully read scheme CR" (
    cl ← proc_call (NewClient kConfig);
    _ ← proc_call (Go (Probes (csi_HealthProbeBindAddress cfg)));
    must (translate Settings.Register) "unable to register the metrics" (
    _ ← proc_call (Go (Metrics (csi_MetricsBindAddress cfg)));
    info "metrics registered" (
    let drv := NewDriver (csi_CsiAddress cfg) (csi_DriverName cfg)
                 (csi_Address cfg) (csi_NodeName cfg) (NewRecorder true)
                 match cl with inl cl => Some cl | inr _ => None end in
    err ← proc_call (RunDriver drv);
    match err with
    | Some _ => _ ← proc_call (Log LevelError "[dev.Run]"); mret 0%Z
    | None => mret 0%Z
    end)))))).
Proof.
  apply starts_info, starts_must; [apply performs_driver_resources|].
  apply starts_info, starts_silent; [done|]. intros cl.
  apply (starts_call (Go _)); [done|]. intros probes.
  apply starts_must; [apply (performs_registers driver_metrics)|].
  apply (starts_call (Go _)); [done|]. intros metrics. apply starts_info. cbv zeta. intros h.
  set (drv := NewDriver _ _ _ _ _ _).
  assert (Hd : driver_of cfg match cl with inl cl => Some cl | inr _ => None end drv) by done.
  apply wp_call_bind. intros [err|].
  - apply wp_call_bind. intros r. apply wp_ret. eexists [_; _]. split; [done|].
    left. eexists. split; [done|]. intros ?. split; [done|]. by exists cl, drv, (Some err).
  - apply wp_ret. eexists [_]. split; [done|].
    left. eexists. split; [done|]. intros ?. split; [done|]. by exists cl, drv, None.
Qed.

(** How the configuration of the client was found. *)
Definition loaded (kConfig : KubeConfig) (h : history procSig) : Prop :=
  Ev (S := procSig) InClusterConfig (inl kConfig) ∈ h ∨
  Ev (S := procSig) LoadConfig (inl kConfig) ∈ h.

(** C30: the driver starts whole or not at all.  A missing node name ends the
    process as klog.Fatalf does, an error in the command line with the status
    of the flag package, a malformed log level with 1, and so does a client
    configuration that cannot be found in the cluster nor loaded; nothing has
    been asked of anyone else then.  Otherwise the additions to the scheme, the
    module's own types among them, the server of the probes, every metric
    declaration and the server of the metrics are made and started in order, the
    process exits with 1 at the first one refused, and after the last one the
    driver is run, once, for the node and the addresses of the configuration and on
    whatever client.New returned.  How it ends does not change the status of
    the process, which is 0. *)
Theorem driver_starts_whole Getenv args :
  wp (main Getenv args) [] (λ status h,
    match NewConfig Getenv args with
    | Misconfigured _ => status = fatal ∧ answers h = []
    | Exited s => status = s ∧ answers h = []
    | Configured cfg =>
        (status = 1%Z ∧ answers h = [] ∧
         (snd (Level (csi_Loglevel cfg)) = true ∨
          ∃ e e', Ev (S := procSig) InClusterConfig (inr e) ∈ h ∧
                  Ev (S := procSig) LoadConfig (inr e') ∈ h)) ∨
        ∃ kConfig, loaded kConfig h ∧
          outcome (start_up cfg) (runs_driver cfg kConfig h) status (answers h)
    end).
Proof.
  unfold main. destruct (NewConfig Getenv args) as [err|s|cfg].
  - apply wp_call_bind. intros r. by apply wp_ret.
  - by apply wp_ret.
  - unfold run_configured. destruct (snd (Level (csi_Loglevel cfg))).
    { apply wp_call_bind. intros r. apply wp_ret. left. auto. }
    apply wp_call_bind. intros []. apply wp_bind, wp_call_bind.
    assert (Hend : ∀ kConfig h1, answers h1 = [] → loaded kConfig h1 → ∀ status h,
      (∃ new, h = (new ++ h1)%list ∧
         outcome (start_up cfg) (runs_driver cfg kConfig h) status (answers new)) →
      loaded kConfig h ∧ outcome (start_up cfg) (runs_driver cfg kConfig h) status (answers h)).
    { intros k h1 Ha Hl status h (new & -> & Ho). rewrite answers_app, Ha. split; [|done].
      unfold loaded. rewrite !elem_of_app. destruct Hl; auto. }
    intros [k|e].
    + apply wp_ret. eapply wp_mono; [apply starts_driver|]. intros status h Hs. right. exists k.
      refine (Hend k _ _ _ _ _ Hs); [done|]. left. apply elem_of_cons. by left.
    + apply wp_call_bind. intros [k|e']; apply wp_ret.
      * eapply wp_mono; [apply starts_driver|]. intros status h Hs. right. exists k.
        refine (Hend k _ _ _ _ _ Hs); [done|]. right. apply elem_of_cons. by left.
      * apply wp_call_bind. intros []. apply wp_ret. left. split_and!; [done..|]. right.
        exists e, e'. rewrite !elem_of_cons. auto.
Qed.
End main.

(** ** The command line *)

Definition overridden (flags : list (string * string)) (name default_ : string) : string :=
  foldl (λ v f, if bool_decide (fst f = name) then snd f else v) default_ flags.

Lemma foldl_insert_lookup (flags : list (string * string)) (m : gmap string string) name :
  default "" (foldl (λ m f, <[fst f := snd f]> m) m flags !! name) =
  overridden flags name (default "" (m !! name)).
Proof.
  unfold overridden. revert m. induction flags as [|[n v] flags IH]; intros m; [done|]. simpl.
  rewrite IH. case_bool_decide as Hn; simpl.
  - subst. by rewrite lookup_insert_eq.
  - by rewrite lookup_insert_ne.
Qed.

(** The command line is read back as it was written.  Flags written as
    [--name=value], in any order and with any values, give the driver the last
    value of each, and its default where it is not given. *)
Lemma flags_are_read_back Getenv flags :
  Getenv NodeName ≠ "" → Forall (λ f, fst f ∈ map fst csi_flags) flags →
  ∃ cfg, NewConfig Getenv (map render flags) = Configured cfg ∧
    csi_NodeName cfg = Getenv NodeName ∧
    csi_CsiAddress cfg = overridden flags "csi-address"
      ("unix:///var/lib/kubelet/plugins/" +:+ DefaultDriverName +:+ "/csi.sock") ∧
    csi_DriverName cfg = overridden flags "driver-name" DefaultDriverName ∧
    csi_Address cfg = overridden flags "address" DefaultAddress.
Proof.
  intros Hnode Hf. unfold NewConfig. rewrite bool_decide_false by done. unfold parse_flags.
  rewrite Parse_render.
  - eexists. split; [done|]. cbv zeta. cbn [csi_NodeName csi_CsiAddress csi_DriverName csi_Address].
    by rewrite !foldl_insert_lookup.
  - by rewrite length_map.
  - eapply Forall_impl; [done|]. intros f Hin. split; [|done].
    change (map fst csi_flags) with ["csi-address"; "driver-name"; "address"] in Hin.
    rewrite !elem_of_cons, elem_of_nil in Hin. by destruct Hin as [->|[->|[->|[]]]].
Qed.

Lemma flags_are_read_back_witness :
  let Getenv name := if bool_decide (name = NodeName) then "node-a" else "" in
  let flags := [("address", ":1"); ("csi-address", "unix:///a=b"); ("address", ":2")] in
  Getenv NodeName ≠ "" ∧
  ∃ cfg, NewConfig Getenv (map render flags) = Configured cfg ∧
    csi_NodeName cfg = "node-a" ∧ csi_CsiAddress cfg = "unix:///a=b" ∧
    csi_DriverName cfg = DefaultDriverName ∧ csi_Address cfg = ":2".
Proof.
  split; [done|].
  destruct (flags_are_read_back (λ name, if bool_decide (name = NodeName) then "node-a" else "")
    [("address", ":1"); ("csi-address", "unix:///a=b"); ("address", ":2")])
    as (cfg & Hcfg & Hnode & Hcsi & Hname & Haddress); [done| |].
  - apply (bool_decide_unpack _). vm_compute. exact I.
  - exists cfg. split; [exact Hcfg|]. split; [exact Hnode|].
    split; [rewrite Hcsi; reflexivity|]. split; [rewrite Hname; reflexivity|].
    rewrite Haddress. reflexivity.
Defined.
