(* ===== verification/DriverRun.v ===== *)
(** * Serving the CSI calls

    Driver.Run of driver/driver.go: what it does before it serves, as a program,
    and then its goroutines, as a step relation between them, the two servers and
    the context.  A goroutine is the list of its calls; a call begins, which is
    when it takes effect, and may end later or block.  grpc-go, net/http and
    errgroup behave as documented: the servers serve until they are asked to
    stop, or fail on their own at any time; GracefulStop blocks until the calls
    that are pending have finished, and Shutdown, which is given no deadline,
    until the connections are idle; and neither server takes on more once it was
    asked. *)

From S2P Require Import Prelude Effects Kube Monitoring Manager Settings MetricTypes Process Paths.

Local Open Scope string_scope.

(** ** Before the servers *)

(** The parts of a URL that are used. *)
Record URL := mkURL { u_Scheme : string; u_Host : string; u_Path : string }.

(** [url.Parse]. *)
Class URLParser := url_Parse : string → URL + string.

Inductive csi_server := IdentityServer | ControllerServer | NodeServer.

(** [Remove] answers whether the file did not exist, and the error. *)
Inductive run_op :=
| RemoveSocket (path : string)
| Listen (network address : string)
| RegisterServer (s : csi_server).

Definition run_res (o : run_op) : Type :=
  match o with
  | RemoveSocket _ => option (bool * string)
  | Listen _ _ => option string
  | RegisterServer _ => unit
  end.

Definition runSig : sig := Sig run_op run_res.
Definition run_call (o : run_op) : prog runSig (run_res o) := call (S := runSig) o.

(** ** Around every call *)

Section interceptor.
Context {S : sig} {Resp E : Type}.
Context (Now : prog S Z) (record : list metric_op → prog S unit).
Context (log_failed : E → string → prog S unit) (Code : option E → string).

(** errHandler: the call is observed with its duration and its code, a failure is
    logged, and the answer is handed on. *)
Definition errHandler (metrics : Recorder) (FullMethod : string)
    (handler : prog S (Resp * option E)) : prog S (Resp * option E) :=
  start ← Now;
  resp ← handler;
  now ← Now;
  _ ← record (ObserveOperation metrics FullMethod (time_Sub now start) (Code (snd resp)));
  _ ← match snd resp with Some err => log_failed err FullMethod | None => mret tt end;
  mret resp.

(** What it answers is what the handler answered, whatever was recorded. *)
Lemma errHandler_transparent metrics FullMethod handler h :
  wp (errHandler metrics FullMethod handler) h (λ resp h',
    ∃ h1 h2, exec handler h1 resp h2 ∧ (∃ past, h1 = past ++ h)%list ∧ ∃ new, h' = (new ++ h2)%list).
Proof.
  apply wp_bind. intros start h1 (past & ->)%exec_extends.
  apply wp_bind. intros resp h2 Hh. apply wp_bind. intros now h3 (n1 & ->)%exec_extends.
  apply wp_bind. intros _ h4 (n2 & ->)%exec_extends.
  apply wp_bind. intros _ h5 (n3 & ->)%exec_extends. apply wp_ret.
  eexists _, h2. split; [done|]. split; [by eexists|]. exists (n3 ++ n2 ++ n1)%list.
  by rewrite <-!app_assoc.
Qed.
End interceptor.

(** ** The goroutines *)

Inductive goroutine := Shutdowner | GRPCServing | Stopper | HTTPServing.

#[global] Instance goroutine_eq_dec : EqDecision goroutine.
Proof. solve_decision. Defined.

Inductive run_action :=
| WaitDone               (* <-ctx.Done() *)
| SpawnStopper           (* go func() *)
| LogStopped
| LockReady
| SetReady (b : bool)
| UnlockReady
| GracefulStop
| ServeGRPC
| ServeHTTP
| Shutdown.

(** Their bodies; the goroutine of the gRPC server starts the Stopper first. *)
Definition body (g : goroutine) : list run_action :=
  match g with
  | Shutdowner => [WaitDone; Shutdown]
  | GRPCServing => [SpawnStopper; ServeGRPC]
  | Stopper => [WaitDone; LogStopped; LockReady; SetReady false; UnlockReady; GracefulStop]
  | HTTPServing => [ServeHTTP]
  end.

(** The goroutines errgroup waits for. *)
Definition awaited (g : goroutine) : bool := match g with Stopper => false | _ => true end.

(** Where the goroutines are: twice the number of calls that ended, and one more
    when the next one began. *)
Record counters := mkCounters {
  c_shutdowner : nat; c_grpc : nat; c_stopper : nat; c_http : nat;
}.

(** What the servers are busy with: the CSI calls that are pending, and the
    HTTP connections that are not idle. *)
Record load := mkLoad { l_calls : nat; l_conns : nat }.

Record running := mkRunning {
  counts : counters;
  ctx_done : bool;
  ready : bool;
  ready_locked : bool;
  grpc_asked : bool;          (* GracefulStop was called *)
  grpc_served : bool;         (* Serve was called before it *)
  http_asked : bool;          (* Shutdown was called *)
  group_err : option string;  (* the first error of the group *)
  pending : load;
}.

Definition calls (s : running) : nat := l_calls (pending s).
Definition conns (s : running) : nat := l_conns (pending s).

Definition pc (s : running) (g : goroutine) : nat :=
  match g with
  | Shutdowner => c_shutdowner (counts s)
  | GRPCServing => c_grpc (counts s)
  | Stopper => c_stopper (counts s)
  | HTTPServing => c_http (counts s)
  end.

Definition started : running :=
  mkRunning (mkCounters 0 0 0 0) false true false false false false None
    (mkLoad 0 0).

Definition finished (s : running) (g : goroutine) : bool :=
  (pc s g =? 2 * length (body g))%nat.

Definition born (s : running) (g : goroutine) : bool :=
  match g with Stopper => (1 <=? pc s GRPCServing)%nat | _ => true end.

(** The effect of a call when it begins. *)
Definition begins (a : run_action) (s : running) : running :=
  match a with
  | SetReady b => mkRunning (counts s) (ctx_done s) b (ready_locked s) (grpc_asked s) (grpc_served s)
                    (http_asked s) (group_err s) (pending s)
  | GracefulStop => mkRunning (counts s) (ctx_done s) (ready s) (ready_locked s) true (grpc_served s)
                      (http_asked s) (group_err s) (pending s)
  | ServeGRPC => mkRunning (counts s) (ctx_done s) (ready s) (ready_locked s) (grpc_asked s)
                   (negb (grpc_asked s)) (http_asked s) (group_err s) (pending s)
  | Shutdown => mkRunning (counts s) (ctx_done s) (ready s) (ready_locked s) (grpc_asked s)
                  (grpc_served s) true (group_err s) (pending s)
  | _ => s
  end.

(** The effect of a call when it ends. *)
Definition ends (a : run_action) (s : running) : running :=
  match a with
  | LockReady => mkRunning (counts s) (ctx_done s) (ready s) true (grpc_asked s) (grpc_served s)
                   (http_asked s) (group_err s) (pending s)
  | UnlockReady => mkRunning (counts s) (ctx_done s) (ready s) false (grpc_asked s) (grpc_served s)
                     (http_asked s) (group_err s) (pending s)
  | _ => s
  end.

(** What the goroutine of the HTTP server makes of the error of Serve, which is
    never nil: [closed] when it is ErrServerClosed. *)
Definition http_result (closed : bool) (err : string) : option string :=
  if closed then None else Some err.

Section servers.

(** Whether Serve of a gRPC server that is being stopped waits, as GracefulStop
    does, for the calls that are pending: its documentation does not say. *)
Context (serve_waits : bool).

(** What a call may answer without failing on its own: [<-ctx.Done()] waits for
    the context, the lock for its holder, a server serves until it is asked to
    stop, and stopping it waits for what is pending.  [Serve] of a gRPC server
    that was stopped before is an error. *)
Definition answers_well (a : run_action) (s : running) (r : option string) : Prop :=
  match a with
  | WaitDone => ctx_done s = true ∧ r = None
  | LockReady => ready_locked s = false ∧ r = None
  | ServeGRPC =>
      grpc_asked s = true ∧ (serve_waits = true → calls s = 0%nat) ∧
      r = if grpc_served s then None else Some "grpc: the server has been stopped"
  | ServeHTTP => http_asked s = true ∧ r = http_result true "http: Server closed"
  | GracefulStop => calls s = 0%nat ∧ r = None
  | Shutdown => conns s = 0%nat ∧ r = None
  | SpawnStopper | LogStopped | SetReady _ | UnlockReady => r = None
  end.

(** What may fail on its own. *)
Definition may_fail (a : run_action) : bool :=
  match a with ServeGRPC | ServeHTTP | Shutdown => true | _ => false end.

Definition at_pc (g : goroutine) (n : nat) (s : running) : running :=
  let c := counts s in
  mkRunning match g with
    | Shutdowner => mkCounters n (c_grpc c) (c_stopper c) (c_http c)
    | GRPCServing => mkCounters (c_shutdowner c) n (c_stopper c) (c_http c)
    | Stopper => mkCounters (c_shutdowner c) (c_grpc c) n (c_http c)
    | HTTPServing => mkCounters (c_shutdowner c) (c_grpc c) (c_stopper c) n
    end (ctx_done s) (ready s) (ready_locked s) (grpc_asked s) (grpc_served s) (http_asked s)
    (group_err s) (pending s).

(** A goroutine of the group that ends with an error, the first one. *)
Definition report (g : goroutine) (r : option string) (s : running) : running :=
  match group_err s with
  | None => mkRunning (counts s) (ctx_done s) (ready s) (ready_locked s) (grpc_asked s) (grpc_served s)
              (http_asked s) (if awaited g && finished s g then r else None) (pending s)
  | Some _ => s
  end.

Definition cancelled (s : running) : running :=
  mkRunning (counts s) true (ready s) (ready_locked s) (grpc_asked s) (grpc_served s) (http_asked s)
    (group_err s) (pending s).

Definition busy (n m : nat) (s : running) : running :=
  mkRunning (counts s) (ctx_done s) (ready s) (ready_locked s) (grpc_asked s) (grpc_served s)
    (http_asked s) (group_err s) (mkLoad n m).

(** The steps of Run, and those of the clients of its servers. *)
Inductive run_label :=
| Cancel | Begins (g : goroutine) | Ends (g : goroutine) | Fails (g : goroutine)
| CallBegins | CallEnds | ConnBegins | ConnEnds.

Definition own (l : run_label) : bool :=
  match l with Cancel | Begins _ | Ends _ | Fails _ => true | _ => false end.

Inductive run_step : run_label → running → running → Prop :=
| step_cancel s : ctx_done s = false → run_step Cancel s (cancelled s)
| step_begins s g k a :
    born s g = true → pc s g = (2 * k)%nat → body g !! k = Some a →
    run_step (Begins g) s (at_pc g (2 * k + 1)%nat (begins a s))
| step_ends s g k a r :
    pc s g = (2 * k + 1)%nat → body g !! k = Some a → answers_well a s r →
    run_step (Ends g) s (report g r (at_pc g (2 * k + 2)%nat (ends a s)))
| step_fails s g k a err :
    pc s g = (2 * k + 1)%nat → body g !! k = Some a → may_fail a = true →
    run_step (Fails g) s (report g (Some err) (at_pc g (2 * k + 2)%nat s))
| step_call_begins s :
    grpc_served s = true → grpc_asked s = false →
    run_step CallBegins s (busy (S (calls s)) (conns s) s)
| step_call_ends s n : calls s = S n → run_step CallEnds s (busy n (conns s) s)
| step_conn_begins s :
    (1 ≤ pc s HTTPServing)%nat → http_asked s = false →
    run_step ConnBegins s (busy (calls s) (S (conns s)) s)
| step_conn_ends s n : conns s = S n → run_step ConnEnds s (busy (calls s) n s).

Inductive run_reaches (s : running) : list run_label → running → Prop :=
| reaches_start : run_reaches s [] s
| reaches_step ls l s' s'' :
    run_reaches s ls s' → run_step l s' s'' → run_reaches s (l :: ls) s''.

(** What [eg.Wait] answers, once every goroutine of the group has returned. *)
Definition returned (s : running) : option (option string) :=
  if finished s Shutdowner && finished s GRPCServing && finished s HTTPServing
  then Some (group_err s) else None.

Section run.
Context `{ApiMachinery, Runtime, URLParser}.

(** The address of the socket, from the URL. *)
Definition grpc_addr (u : URL) : string :=
  if bool_decide (u_Host u = "") then u_Path u else Join (u_Host u) (u_Path u).

(** Run up to the goroutines: an error, or what they start from. *)
Definition Run (d : Driver) : prog runSig (running + string) :=
  match url_Parse (d_csiAddress d) with
  | inr err => mret (inr ("unable to parse address: " +:+ quote err))
  | inl u =>
      let grpcAddr := grpc_addr u in
      if negb (bool_decide (u_Scheme u = "unix"))
      then mret (inr ("currently only unix domain sockets are supported, have: " +:+ u_Scheme u))
      else
        err ← run_call (RemoveSocket grpcAddr);
        match err with
        | Some (false, err) =>
            mret (inr ("failed to remove unix domain socket file " +:+ grpcAddr +:+ ", error: " +:+ err))
        | _ =>
            err ← run_call (Listen (u_Scheme u) grpcAddr);
            match err with
            | Some err => mret (inr ("failed to listen: " +:+ err))
            | None =>
                _ ← run_call (RegisterServer IdentityServer);
                _ ← run_call (RegisterServer ControllerServer);
                _ ← run_call (RegisterServer NodeServer);
                err ← run_call (Listen "tcp" (d_address d));
                match err with
                | Some err => mret (inr ("failed to listen: " +:+ err))
                | None => mret (inl started)
                end
            end
        end
  end.

End run.

(** ** What holds while it serves *)

(** The life of the flags follows the goroutines that change them. *)
Record serving (s : running) : Prop := {
  s_bounds : (c_shutdowner (counts s) ≤ 4 ∧ c_grpc (counts s) ≤ 4 ∧ c_stopper (counts s) ≤ 12 ∧
              c_http (counts s) ≤ 2)%nat;
  s_shutdowner : ctx_done s = false → (c_shutdowner (counts s) ≤ 1)%nat;
  s_stopper : ctx_done s = false → (c_stopper (counts s) ≤ 1)%nat;
  s_ready : ready s = false ↔ (7 ≤ c_stopper (counts s))%nat;
  s_locked : ready_locked s = true ↔ (6 ≤ c_stopper (counts s) < 10)%nat;
  s_grpc_asked : grpc_asked s = true ↔ (11 ≤ c_stopper (counts s))%nat;
  s_http_asked : http_asked s = true ↔ (3 ≤ c_shutdowner (counts s))%nat;
  s_grpc_clean : group_err s = None → c_grpc (counts s) = 4%nat → grpc_asked s = true;
  s_calls : serve_waits = true → group_err s = None → c_grpc (counts s) = 4%nat → calls s = 0%nat;
  s_conns : group_err s = None → c_shutdowner (counts s) = 4%nat → conns s = 0%nat;
}.

Lemma serving_started : serving started.
Proof. split; simpl; intuition (congruence || lia). Qed.

(** The next call of a goroutine, from where it is. *)
Lemma body_at g k a :
  body g !! k = Some a →
  match g with
  | Shutdowner => (k = 0 ∧ a = WaitDone) ∨ (k = 1 ∧ a = Shutdown)
  | GRPCServing => (k = 0 ∧ a = SpawnStopper) ∨ (k = 1 ∧ a = ServeGRPC)
  | Stopper => (k = 0 ∧ a = WaitDone) ∨ (k = 1 ∧ a = LogStopped) ∨ (k = 2 ∧ a = LockReady) ∨
               (k = 3 ∧ a = SetReady false) ∨ (k = 4 ∧ a = UnlockReady) ∨ (k = 5 ∧ a = GracefulStop)
  | HTTPServing => k = 0 ∧ a = ServeHTTP
  end%nat.
Proof.
  destruct g; simpl; do 6 (destruct k as [|k]; [intros [= <-]; tauto|simpl]); done.
Qed.

(** Facts about where the goroutines are. *)
Ltac by_position :=
  intuition first [congruence | lia
    | match goal with H : _ → ?P |- ?P => apply H; lia | H : _ → _ → ?P |- ?P => apply H; lia end].

Ltac next_call H := apply body_at in H; repeat (destruct H as [H|H]); destruct H as [-> ->].

Ltac by_step Hs :=
  inversion Hs as [? Hcd|? g k a Hb Hk Ha|? g k a r Hk Ha Hans|? g k a e Hk Ha Hf
    |? Hsv Has|? n Hn|? Hsv Has|? n Hn]; subst; clear Hs.

Lemma serving_step l s s' : run_step l s s' → serving s → serving s'.
Proof.
  intros Hs [(B1 & B2 & B3 & B4) Hsh Hst Hr Hl Hg Hh Hc Hca Hco].
  destruct s as [[sh gr st ht] cd rd lk ga gs ha er [ca co]].
  unfold calls, conns in *. simpl in *. by_step Hs.
  - by split.
  - destruct g; next_call Ha; simpl in *; subst; split; unfold calls, conns; simpl; by_position.
  - destruct g; next_call Ha; unfold calls, conns in *; simpl in *; subst; unfold report, finished;
      simpl; destruct er; simpl; split; unfold calls, conns; simpl; by_position.
  - destruct g; next_call Ha; simpl in *; subst; unfold report, finished; simpl; try done;
      destruct er; simpl; split; unfold calls, conns; simpl; by_position.
  - split; unfold calls, conns in *; simpl in *; by_position.
  - split; unfold calls, conns in *; simpl in *; subst; by_position.
  - assert (¬ 3 ≤ sh)%nat by (intros ?%Hh; simpl in *; congruence).
    split; unfold calls, conns in *; simpl in *; by_position.
  - split; unfold calls, conns in *; simpl in *; subst; by_position.
Qed.

Lemma serving_reached ls s : run_reaches started ls s → serving s.
Proof. induction 1; [apply serving_started|by eapply serving_step]. Qed.

(** How much there is left to do. *)
Definition work_left (s : running) : nat :=
  (if ctx_done s then 0 else 1) + (4 - c_shutdowner (counts s)) + (4 - c_grpc (counts s))
  + (12 - c_stopper (counts s)) + (2 - c_http (counts s)).

Lemma report_work g r s : work_left (report g r s) = work_left s.
Proof. unfold report. by destruct (group_err s). Qed.

Lemma step_work l s s' :
  run_step l s s' → ((if own l then 1 else 0) + work_left s' = work_left s)%nat.
Proof.
  intros Hs. destruct s as [[sh gr st ht] cd rd lk ga gs ha er [ca co]]. by_step Hs; try done.
  - simpl in Hcd. by subst.
  - destruct g; next_call Ha; simpl in Hk; subst; unfold work_left; simpl; lia.
  - rewrite report_work. destruct g; next_call Ha; simpl in Hk; subst; unfold work_left; simpl; lia.
  - rewrite report_work. destruct g; next_call Ha; simpl in Hk; subst; unfold work_left; simpl; lia.
Qed.

(** The steps of Run itself. *)
Definition own_steps (ls : list run_label) : nat := length (List.filter own ls).

Lemma run_is_short ls s : run_reaches started ls s → (own_steps ls + work_left s = 23)%nat.
Proof.
  unfold own_steps. induction 1 as [|ls l s' s'' _ IH Hs]; [done|]. apply step_work in Hs. simpl.
  destruct (own l); simpl; lia.
Qed.

(** A goroutine that is not at its end, and is not held up, can go on. *)
Definition goes_on (s : running) : Prop :=
  ∃ g s', run_step (Begins g) s s' ∨ run_step (Ends g) s s'.

(** What holds the goroutines up: a server that was asked to stop and is not
    done yet with what it took on. *)
Definition held_up (s : running) : Prop :=
  grpc_asked s = true ∧ (0 < calls s)%nat ∨ http_asked s = true ∧ (0 < conns s)%nat.

(** A server that was asked to stop takes on nothing more. *)
Lemma asked_takes_no_more l s s' :
  run_step l s s' →
  (grpc_asked s = true → grpc_asked s' = true ∧ (calls s' ≤ calls s)%nat) ∧
  (http_asked s = true → http_asked s' = true ∧ (conns s' ≤ conns s)%nat).
Proof.
  intros Hs. destruct s as [[sh gr st ht] cd rd lk ga gs ha er [ca co]].
  by_step Hs; unfold calls, conns in *; simpl in *; try (destruct g; next_call Ha);
    unfold report; simpl; try destruct er; simpl; by_position.
Qed.

Lemma can_go_on s g k :
  born s g = true → pc s g = k → (k < 2 * length (body g))%nat →
  (k mod 2 = 1%nat → ∀ a, body g !! (k / 2)%nat = Some a → ∃ r, answers_well a s r) → goes_on s.
Proof.
  intros Hb Hk Hlt Ha. exists g.
  assert (Hl : (k / 2 < length (body g))%nat) by (apply Nat.Div0.div_lt_upper_bound; lia).
  apply lookup_lt_is_Some in Hl as [a Hl]. pose proof (Nat.div_mod_eq k 2) as Hdm.
  pose proof (Nat.mod_upper_bound k 2). destruct (k mod 2) as [|[|]] eqn:E; [| |lia].
  - eexists. left. apply (step_begins _ _ (k / 2) a); [done|lia|done].
  - destruct (Ha eq_refl a Hl) as [r Hr]. eexists. right. apply (step_ends _ _ (k / 2) a r); [lia|done|done].
Qed.

Lemma stopper_goes_on s :
  serving s → ctx_done s = true → (1 ≤ c_grpc (counts s))%nat → (c_stopper (counts s) < 11)%nat →
  goes_on s.
Proof.
  intros [_ _ _ _ Hl _ _ _] Hcd Hg Hst. apply (can_go_on _ Stopper (c_stopper (counts s)));
    [by apply Nat.leb_le|done|simpl; lia|].
  intros Hodd a Ha. apply body_at in Ha.
  pose proof (Nat.div_mod_eq (c_stopper (counts s)) 2).
  pose proof (Nat.mod_upper_bound (c_stopper (counts s)) 2).
  destruct Ha as [[? ->]|[[? ->]|[[? ->]|[[? ->]|[[? ->]|[? ->]]]]]]; [by eexists..| |by eexists|by eexists|lia].
  eexists; split; [|done]. apply not_true_iff_false. rewrite Hl. lia.
Qed.

(** With the context cancelled, somebody can go on until Run returns, unless a
    call or a connection is still pending. *)
Lemma returns_or_goes_on s :
  serving s → ctx_done s = true → returned s = None → goes_on s ∨ held_up s.
Proof.
  intros Hs Hcd Hret. pose proof Hs as [(B1 & B2 & B3 & B4) _ _ _ _ Hg Hh _ _ _].
  destruct (decide (c_shutdowner (counts s) < 4)%nat) as [Hsh|Hsh].
  { destruct (decide (http_asked s = true ∧ 0 < conns s)%nat) as [Hp|Hp]; [by right; right|left].
    apply (can_go_on _ Shutdowner (c_shutdowner (counts s))); [done|done|done|].
    intros Hodd a [[_ ->]|[Hk ->]]%body_at; [by eexists|].
    pose proof (Nat.div_mod_eq (c_shutdowner (counts s)) 2).
    exists None. split; [|done]. destruct (conns s); [done|]. destruct Hp. split; [apply Hh|]; lia. }
  destruct (decide (c_http (counts s) < 2)%nat) as [Hht|Hht].
  { left. apply (can_go_on _ HTTPServing (c_http (counts s))); [done|done|done|].
    intros _ a [_ ->]%body_at. eexists. split; [|done]. apply Hh. lia. }
  destruct (decide (c_grpc (counts s) < 4)%nat) as [Hgr|Hgr].
  { destruct (decide (c_grpc (counts s) < 1 ∨ 11 ≤ c_stopper (counts s))%nat) as [Ho|Ho].
    - destruct (decide (grpc_asked s = true ∧ 0 < calls s)%nat) as [Hp|Hp]; [by right; left|left].
      apply (can_go_on _ GRPCServing (c_grpc (counts s))); [done|done|done|].
      intros _ a [[? ->]|[Hk ->]]%body_at; [by eexists|].
      destruct Ho as [Ho|Ho%Hg].
      { assert (c_grpc (counts s) = 0)%nat as E by lia. by rewrite E in Hk. }
      eexists. split_and!; [done| |done]. intros _. destruct (calls s); [done|].
      destruct Hp. split; [done|lia].
    - left. apply stopper_goes_on; [done|done|lia|lia]. }
  exfalso. unfold returned, finished in Hret. simpl in Hret.
  assert (c_shutdowner (counts s) = 4 ∧ c_grpc (counts s) = 4 ∧ c_http (counts s) = 2)%nat
    as (E1 & E2 & E3) by lia.
  by rewrite E1, E2, E3 in Hret.
Qed.

Lemma returned_spec s err :
  returned s = Some err →
  c_shutdowner (counts s) = 4%nat ∧ c_grpc (counts s) = 4%nat ∧ c_http (counts s) = 2%nat ∧
  err = group_err s.
Proof.
  unfold returned, finished. destruct (_ && _) eqn:E; [|done]. intros [= <-].
  apply andb_prop in E as [[E1 E2]%andb_prop E3]. simpl in *.
  by apply Nat.eqb_eq in E1, E2, E3.
Qed.

(** ** Run *)

(** What was done to the world, in order. *)
Definition run_ops (h : history runSig) : list run_op := reverse (map ev_op h).

Section theorems.
Context `{ApiMachinery, Runtime, URLParser}.

(** Where the servers of a driver listen. *)
Definition listening (d : Driver) (addr : string) : list run_op :=
  [RemoveSocket addr; Listen "unix" addr; RegisterServer IdentityServer;
   RegisterServer ControllerServer; RegisterServer NodeServer; Listen "tcp" (d_address d)].

(** Of the preparations, a part from their start; none at all unless the address
    is that of a unix socket. *)
Definition prepared (d : Driver) (h : history runSig) : Prop :=
  run_ops h = [] ∨ ∃ u, url_Parse (d_csiAddress d) = inl u ∧ u_Scheme u = "unix" ∧
    run_ops h `prefix_of` listening d (grpc_addr u).

(** However the goroutines, the servers and their clients interleave. *)
Definition ends_when_cancelled (s0 : running) : Prop := ∀ ls s,
  run_reaches s0 ls s →
  (own_steps ls ≤ 23)%nat ∧
  (returned s ≠ None → ctx_done s = true) ∧
  (returned s = Some None → ready s = false ∧ grpc_asked s = true ∧ http_asked s = true ∧
    conns s = 0%nat ∧ (serve_waits = true → calls s = 0%nat)) ∧
  (ctx_done s = true → returned s = None → goes_on s ∨ held_up s) ∧
  ∀ l s', run_step l s s' →
    (grpc_asked s = true → grpc_asked s' = true ∧ (calls s' ≤ calls s)%nat) ∧
    (http_asked s = true → http_asked s' = true ∧ (conns s' ≤ conns s)%nat).

Lemma started_ends : ends_when_cancelled started.
Proof.
  intros ls s Hr. pose proof (serving_reached _ _ Hr) as Hs. pose proof (run_is_short _ _ Hr).
  pose proof Hs as [_ Hsh Hst Hrd _ Hg Hh Hc Hca Hco].
  split_and!; [lia| | |by apply returns_or_goes_on
    |intros l s'; apply asked_takes_no_more].
  - intros Hret. destruct (returned s) as [err|] eqn:E; [|done].
    apply returned_spec in E as (E1 & _). apply not_false_iff_true. intros Hcd.
    specialize (Hsh Hcd). lia.
  - intros (E1 & E2 & E3 & E4)%returned_spec.
    assert (Ha : grpc_asked s = true) by by apply Hc.
    rewrite Hrd, Hh. apply Hg in Ha as Ha'. split_and!; [lia|done|lia|by apply Hco|].
    intros Hw. by apply Hca.
Qed.

Lemma prepared_part d u h k :
  url_Parse (d_csiAddress d) = inl u → u_Scheme u = "unix" →
  (run_ops h ++ k)%list = listening d (grpc_addr u) → prepared d h.
Proof. intros Hp Hs Hk. right. exists u. split_and!; [done..|]. by exists k. Qed.

(** C31: the driver serves on the socket it is told to, and ends as it should.
    Run makes its preparations in order and nothing else: a part of them from the
    start when it fails, none at all unless the address is that of a unix socket,
    and all of them when it goes on.  However its goroutines, the servers and
    their clients interleave from there, Run takes at most 23 steps of its own; it
    returns only after the context was cancelled; when it returns without an error
    the driver says it is not ready, both servers were asked to stop and no
    connection is busy, nor any call pending if Serve waits for them.  Once the
    context is cancelled, and until it has returned, there is always a step for it
    to take, without any server failing, unless a server that was asked to stop
    still has a call or a connection pending; and such a server takes on nothing
    more, so that it returns once they have ended. *)
Theorem Run_serves_until_cancelled (d : Driver) :
  wp (Run d) [] (λ r h, prepared d h ∧ ∀ s0, r = inl s0 →
    (∃ u, url_Parse (d_csiAddress d) = inl u ∧ run_ops h = listening d (grpc_addr u)) ∧
    ends_when_cancelled s0).
Proof.
  unfold Run. destruct (url_Parse (d_csiAddress d)) as [u|err] eqn:Eu;
    [|apply wp_ret; split; [by left|done]].
  case_bool_decide as Hu; simpl; [|apply wp_ret; split; [by left|done]].
  apply wp_call_bind. intros [[[] err]|]; cycle 1.
  { apply wp_ret. split; [|done]. by eapply prepared_part. }
  all: rewrite Hu; apply wp_call_bind; intros [err2|];
    [apply wp_ret; split; [by eapply prepared_part|done]|].
  all: do 3 (apply wp_call_bind; intros ?); apply wp_call_bind; intros [err3|];
    (apply wp_ret; split; [eapply (prepared_part _ _ _ []); [done..|]; by rewrite app_nil_r|]);
    [done|]; intros s0 [= <-]; split; [by exists u|apply started_ends].
Qed.
End theorems.

(** One more step of a run. *)
Tactic Notation "take" hyp(R) uconstr(st) := eapply reaches_step in R; [|eapply st; done]; cbn in R.

(** A server that fails is not noticed: both have failed, the group has its
    error, and still all that can happen to Run is that the context is cancelled. *)
Lemma dead_servers_go_unnoticed :
  ∃ ls s, run_reaches started ls s ∧ group_err s = Some "accept unix: too many open files" ∧
    finished s GRPCServing = true ∧ finished s HTTPServing = true ∧ returned s = None ∧
    ∀ l s', run_step l s s' → own l = true → l = Cancel.
Proof.
  set (err := "accept unix: too many open files").
  exists [Fails HTTPServing; Begins HTTPServing; Fails GRPCServing; Begins GRPCServing;
          Ends GRPCServing; Begins Stopper; Begins GRPCServing; Begins Shutdowner].
  exists (mkRunning (mkCounters 1 4 1 2) false true false false true false (Some err) (mkLoad 0 0)).
  split_and!; try done.
  - pose proof (reaches_start started) as R.
    take R (step_begins _ Shutdowner 0 WaitDone). take R (step_begins _ GRPCServing 0 SpawnStopper).
    take R (step_begins _ Stopper 0 WaitDone). take R (step_ends _ GRPCServing 0 SpawnStopper None).
    take R (step_begins _ GRPCServing 1 ServeGRPC). take R (step_fails _ GRPCServing 1 ServeGRPC err).
    take R (step_begins _ HTTPServing 0 ServeHTTP). take R (step_fails _ HTTPServing 0 ServeHTTP err).
    exact R.
  - intros l s' Hs Ho. by_step Hs; try done;
      destruct g; next_call Ha; simpl in *; try lia; destruct_and?; done.
Qed.

End servers.
