(* ===== verification/Teardown.v ===== *)
(** * The removal of the module

    hooks/go/030-remove-finalizers-on-module-delete and hooks/go/consts:
    the hook that takes the finalizers off what the module leaves behind. *)

From S2P Require Import Prelude Effects Kube.

Local Open Scope string_scope.

Definition ModuleNamespace := "d8-sds-local-volume".
Definition AllowedProvisioners := ["local.csi.storage.deckhouse.io"].
Definition WebhookConfigurationsToDelete : list string := [].

Record CRGVK := mkCRGVK {
  gvk_Group : string;
  gvk_Version : string;
  gvk_Kind : string;
  gvk_Namespaced : bool;
}.

Definition CRGVKsForFinalizerRemoval :=
  [mkCRGVK "storage.deckhouse.io" "v1alpha1" "LocalStorageClass" false].

Definition hookName := "remove-finalizers-on-module-delete".

Section hook.
Context `{ApiMachinery}.

(** What the hook lists. *)
Inductive item_kind := ISecret | IConfigMap | IStorageClass | ICR (gvk : CRGVK).

(** What it reads of an object; the provisioner is a StorageClass's. *)
Record Item := mkItem {
  item_Kind : string;
  item_meta : ObjectMeta;
  item_Provisioner : string;
}.

#[export, program] Instance item_object : Object Item := {
  meta_of := item_meta;
  with_meta f i := mkItem (item_Kind i) (f (item_meta i)) (item_Provisioner i);
}.
Next Obligation. done. Qed.

Inductive td_op :=
| TNewClient
| TList (k : item_kind) (namespace : string)
| TPatch (k : item_kind) (obj patched : Item)      (* the merge patch between the two *)
| TGetWebhookConfiguration (name : string)
| TDeleteWebhookConfiguration (name : string).

Definition td_res (o : td_op) : Type :=
  match o with
  | TList _ _ => list Item + api_error
  | _ => option api_error
  end.

Definition tdSig : sig := Sig td_op td_res.
Definition td_call (o : td_op) : prog tdSig (td_res o) := call (S := tdSig) o.

(** removeFinalizersFromObject *)
Definition removeFinalizersFromObject (k : item_kind) (obj : Item)
    : prog tdSig (option string) :=
  err ← td_call (TPatch k obj (with_meta (SetFinalizers []) obj));
  mret match err with
       | Some err => Some ("failed to patch " ++ item_Kind obj ++ " " ++ GetName obj ++ ": "
                           ++ error_text err)
       | None => None
       end.

(** The loop over the objects of a list: those that satisfy the test are
    patched; [errors.Join] collects the errors. *)
Fixpoint remove_each (k : item_kind) (wanted : Item → bool) (items : list Item)
    (resultErr : list string) : prog tdSig (list string) :=
  match items with
  | [] => mret resultErr
  | item :: items =>
      if wanted item
      then
        err ← removeFinalizersFromObject k item;
        remove_each k wanted items (resultErr ++ option_list err)%list
      else remove_each k wanted items resultErr
  end.

(** An error of the hook. *)
Definition failed_to (what : string) (err : api_error) : string :=
  "[" ++ hookName ++ "]: failed to " ++ what ++ ": " ++ error_text err.

(** The Secrets, or the ConfigMaps, of the module. *)
Definition remove_in_namespace (k : item_kind) (what : string) (resultErr : list string)
    : prog tdSig (list string) :=
  items ← td_call (TList k ModuleNamespace);
  match items with
  | inr err => mret (resultErr ++ [failed_to ("list " +:+ what) err])%list
  | inl items => remove_each k (λ _, true) items resultErr
  end.

(** The webhook configurations; one that cannot be read is passed over. *)
Fixpoint delete_webhooks (names : list string) (resultErr : list string)
    : prog tdSig (list string) :=
  match names with
  | [] => mret resultErr
  | name :: names =>
      found ← td_call (TGetWebhookConfiguration name);
      match found with
      | Some _ => delete_webhooks names resultErr
      | None =>
          err ← td_call (TDeleteWebhookConfiguration name);
          delete_webhooks names
            (resultErr ++ match err with
                          | Some err =>
                              [failed_to ("delete ValidatingWebhookConfiguration " +:+ name) err]
                          | None => []
                          end)%list
      end
  end.

(** The StorageClasses of each provisioner; a failure to list ends the loop. *)
Fixpoint remove_storage_classes (provisioners : list string) (resultErr : list string)
    : prog tdSig (list string) :=
  match provisioners with
  | [] => mret resultErr
  | provisioner :: provisioners =>
      items ← td_call (TList IStorageClass "");
      match items with
      | inr err => mret (resultErr ++ [failed_to "list storage classes" err])%list
      | inl items =>
          resultErr ← remove_each IStorageClass
                        (λ sc, bool_decide (item_Provisioner sc = provisioner)) items resultErr;
          remove_storage_classes provisioners resultErr
      end
  end.

(** The custom resources; a kind that cannot be listed is passed over. *)
Fixpoint remove_custom_resources (gvks : list CRGVK) (resultErr : list string)
    : prog tdSig (list string) :=
  match gvks with
  | [] => mret resultErr
  | crgvk :: gvks =>
      items ← td_call (TList (ICR crgvk) (if gvk_Namespaced crgvk then ModuleNamespace else ""));
      match items with
      | inr _ => remove_custom_resources gvks resultErr
      | inl items =>
          resultErr ← remove_each (ICR crgvk)
                        (λ cr, negb (bool_decide (length (GetFinalizers cr) = 0)))
                        items resultErr;
          remove_custom_resources gvks resultErr
      end
  end.

(** handlerRemoveFinalizersOnModuleDelete: the errors it joins, none for
    success. *)
Definition handlerRemoveFinalizersOnModuleDelete : prog tdSig (list string) :=
  err ← td_call TNewClient;
  match err with
  | Some err => mret ["failed to initialize kube client: " ++ error_text err]
  | None =>
      resultErr ← remove_in_namespace ISecret "secrets" [];
      resultErr ← remove_in_namespace IConfigMap "configmaps" resultErr;
      resultErr ← delete_webhooks WebhookConfigurationsToDelete resultErr;
      resultErr ← remove_storage_classes AllowedProvisioners resultErr;
      remove_custom_resources CRGVKsForFinalizerRemoval resultErr
  end.

(** ** What the hook touches *)

Abbreviation hist := (history tdSig).
Abbreviation ev := (Ev (S := tdSig)).
Implicit Types (h : hist).

(** The namespace a list is asked for. *)
Definition namespace_of (k : item_kind) : string :=
  match k with
  | ISecret | IConfigMap => ModuleNamespace
  | IStorageClass => ""
  | ICR gvk => if gvk_Namespaced gvk then ModuleNamespace else ""
  end.

(** The objects the module leaves behind. *)
Definition left_behind (k : item_kind) (i : Item) : Prop :=
  match k with
  | ISecret | IConfigMap => True
  | IStorageClass => item_Provisioner i ∈ AllowedProvisioners
  | ICR gvk => gvk ∈ CRGVKsForFinalizerRemoval ∧ GetFinalizers i ≠ []
  end.

(** The object without its finalizers. *)
Definition released (i : Item) : Item := with_meta (SetFinalizers []) i.

Definition td_justified (e : event tdSig) h : Prop :=
  match ev_op e with
  | TPatch k obj patched =>
      left_behind k obj ∧ patched = released obj ∧
      ∃ l, ev (TList k (namespace_of k)) (inl l) ∈ h ∧ obj ∈ l
  | TDeleteWebhookConfiguration name => name ∈ WebhookConfigurationsToDelete
  | _ => True
  end.

(** Every object of the list that is left behind was patched, successfully
    when no error is reported. *)
Definition covered (k : item_kind) (l : list Item) (errs : list string) h : Prop :=
  ∀ i, i ∈ l → left_behind k i →
    ∃ r, ev (TPatch k i (released i)) r ∈ h ∧ (errs = [] → r = None).

(** What the hook lists: everything the module leaves behind. *)
Definition goes_through (k : item_kind) : Prop :=
  match k with ICR gvk => gvk ∈ CRGVKsForFinalizerRemoval | _ => True end.

(** A custom resource that cannot be listed is passed over without an error. *)
Definition reported (k : item_kind) : Prop := match k with ICR _ => False | _ => True end.

(** The kind was listed; where it could not be, that is one of the errors. *)
Definition asked (k : item_kind) (errs : list string) h : Prop :=
  ∃ r, ev (TList k (namespace_of k)) r ∈ h ∧ (∀ err, r = inr err → reported k → errs ≠ []).

(** A part of the hook: it keeps the invariant, does not forget an error,
    covers what it lists, and lists the kinds it is for. *)
Definition sound (ks : list item_kind) (errs : list string) h (errs' : list string) h' : Prop :=
  h `suffix_of` h' ∧ (errs' = [] → errs = []) ∧
  (always td_justified h → always td_justified h') ∧
  (∀ k l, ev (TList k (namespace_of k)) (inl l) ∈ h' →
    ev (TList k (namespace_of k)) (inl l) ∈ h ∨ covered k l errs' h') ∧
  ∀ k, k ∈ ks → asked k errs' h'.

Lemma suffix_ev (e : event tdSig) h h' : h `suffix_of` h' → e ∈ h → e ∈ h'.
Proof. intros [n ->] ?. apply elem_of_app. by right. Qed.

Lemma covered_mono k l errs h errs' h' :
  h `suffix_of` h' → (errs' = [] → errs = []) → covered k l errs h → covered k l errs' h'.
Proof.
  intros Hs He Hc i Hi Hl. destruct (Hc i Hi Hl) as (r & ? & ?). exists r.
  split; [by eapply suffix_ev|auto].
Qed.

Lemma asked_mono k errs h errs' h' :
  h `suffix_of` h' → (errs' = [] → errs = []) → asked k errs h → asked k errs' h'.
Proof.
  intros Hs He (r & Hr & Herr). exists r. split; [by eapply suffix_ev|].
  intros err -> Hk Hnil. by eapply Herr; [|done|auto].
Qed.

Lemma sound_refl errs h : sound [] errs h errs h.
Proof. split_and!; auto. by intros k ?%elem_of_nil. Qed.

Lemma sound_trans ks1 ks2 e1 h1 e2 h2 e3 h3 :
  sound ks1 e1 h1 e2 h2 → sound ks2 e2 h2 e3 h3 → sound (ks1 ++ ks2)%list e1 h1 e3 h3.
Proof.
  intros (Hs1 & He1 & Hj1 & Hc1 & Hk1) (Hs2 & He2 & Hj2 & Hc2 & Hk2).
  split_and!; [by etrans|auto..| |].
  - intros k l [Hin|?]%Hc2; [|by right]. destruct (Hc1 k l Hin) as [?|?]; [by left|].
    right. by eapply covered_mono.
  - intros k [Hk|Hk]%elem_of_app; [|by apply Hk2]. eapply asked_mono; [done..|by apply Hk1].
Qed.

(** Two parts one after the other. *)
Lemma sound_bind ks1 ks2 (p : prog tdSig (list string))
    (f : list string → prog tdSig (list string)) errs h :
  wp p h (sound ks1 errs h) → (∀ e h', wp (f e) h' (sound ks2 e h')) →
  wp (p ≫= f) h (sound (ks1 ++ ks2)%list errs h).
Proof.
  intros Hp Hf. apply wp_bind. eapply wp_mono; [exact Hp|]. intros e h' Hs.
  eapply wp_mono; [apply Hf|]. intros e' h''. by apply sound_trans.
Qed.

Definition list_event (e : event tdSig) : option (item_kind * string * (list Item + api_error)) :=
  match ev_op e as o
    return td_res o → option (item_kind * string * (list Item + api_error)) with
  | TList k ns => λ r, Some (k, ns, r)
  | _ => λ _, None
  end (ev_res e).

(** An operation that lists nothing. *)
Lemma listed_cons (e : event tdSig) k l h :
  list_event e = None → ev (TList k (namespace_of k)) (inl l) ∈ e :: h →
  ev (TList k (namespace_of k)) (inl l) ∈ h.
Proof. intros He [<-|?]%elem_of_cons; [done|done]. Qed.

(** What is added to the history while a list is gone through: no list. *)
Definition patched (errs : list string) h (errs' : list string) h' : Prop :=
  h `suffix_of` h' ∧ (errs' = [] → errs = []) ∧
  (always td_justified h → always td_justified h') ∧
  ∀ k l, ev (TList k (namespace_of k)) (inl l) ∈ h' →
    ev (TList k (namespace_of k)) (inl l) ∈ h.

Lemma wp_remove_each k wanted items l errs h :
  ev (TList k (namespace_of k)) (inl l) ∈ h → items ⊆ l →
  (∀ i, wanted i = true → left_behind k i) →
  wp (remove_each k wanted items errs) h (λ errs' h', patched errs h errs' h' ∧
    ∀ i, i ∈ items → wanted i = true →
      ∃ r, ev (TPatch k i (released i)) r ∈ h' ∧ (errs' = [] → r = None)).
Proof.
  intros Hl Hsub Hw. revert errs h Hl.
  induction items as [|i items IH]; intros errs h Hl; cbn [remove_each].
  { apply wp_ret. split; [by split_and!|]. by intros ? ?%elem_of_nil. }
  assert (Hsub' : items ⊆ l) by (intros j ?; apply Hsub; by right).
  destruct (wanted i) eqn:Hi.
  2: { eapply wp_mono; [by apply IH|]. intros errs' h' [? Hall]. split; [done|].
       intros j [->|?]%elem_of_cons ?; [congruence|by apply Hall]. }
  apply wp_bind, wp_call_bind. intros r. cbn in r. apply wp_ret.
  eapply wp_mono; [apply IH; [done|by right]|].
  intros errs' h' [(Hs & He & Hj & Hc) Hall]. split.
  - split_and!.
    + by eapply suffix_cons_l.
    + intros Hnil. apply He, app_eq_nil in Hnil. tauto.
    + intros Ha. apply Hj. split; [|done]. split_and!; [by apply Hw|done|].
      exists l. split; [done|]. apply Hsub. by left.
    + intros k' l' Hin%Hc. by eapply listed_cons; [|exact Hin].
  - intros j [->|?]%elem_of_cons Hj'; [|by apply Hall]. exists r.
    split; [eapply suffix_ev; [exact Hs|by left]|]. intros Hnil.
    apply He, app_eq_nil in Hnil as [_ Hr]. by destruct r.
Qed.

(** Listing, and going through the list. *)
Lemma wp_list_remove k wanted errs h (l : list Item) :
  (∀ i, wanted i = true ↔ left_behind k i) →
  wp (remove_each k wanted l errs) (ev (TList k (namespace_of k)) (inl l) :: h)
    (sound [k] errs h).
Proof.
  intros Hw. eapply wp_mono.
  { apply (wp_remove_each k wanted l l); [by left|done|]. intros i. by apply Hw. }
  intros errs' h' [(Hs & He & Hj & Hc) Hall]. split_and!.
  - by eapply suffix_cons_l.
  - done.
  - intros Ha. apply Hj. by split.
  - intros k' l' [Heq|?]%Hc%elem_of_cons; [|by left]. right.
    apply (f_equal list_event) in Heq. injection Heq as -> _ ->.
    intros i Hi Hl. apply Hall; [done|]. by apply Hw.
  - intros k' ->%list_elem_of_singleton. exists (inl l). split; [|done].
    eapply suffix_ev; [exact Hs|by left].
Qed.

(** An operation of no interest. *)
Lemma sound_cons errs h (e : event tdSig) errs' :
  td_justified e h → list_event e = None → (errs' = [] → errs = []) →
  sound [] errs h errs' (e :: h).
Proof.
  intros Hj He Herr. split_and!; [by apply suffix_cons_r|done|by split| |by intros k ?%elem_of_nil].
  intros k l Hin. left. by eapply listed_cons; [|exact Hin].
Qed.

Lemma sound_failed errs h k err errs' :
  (errs' = [] → errs = []) → (reported k → errs' ≠ []) →
  sound [k] errs h errs' (ev (TList k (namespace_of k)) (inr err) :: h).
Proof.
  intros Herr Hrep. split_and!; [by apply suffix_cons_r|done|by split| |].
  - intros k' l' [Heq|?]%elem_of_cons; [|by left].
    apply (f_equal list_event) in Heq. discriminate.
  - intros k' ->%list_elem_of_singleton. exists (inr err). split; [by left|]. auto.
Qed.

Lemma app_one_not_nil {A} (l : list A) x : (l ++ [x])%list = [] → l = [].
Proof. by destruct l. Qed.

Lemma sound_in_namespace k what errs h :
  k = ISecret ∨ k = IConfigMap → wp (remove_in_namespace k what errs) h (sound [k] errs h).
Proof.
  intros Hk. apply wp_call_bind. intros r.
  replace ModuleNamespace with (namespace_of k) by (by destruct Hk as [->| ->]).
  cbn in r. destruct r as [l|err].
  - apply wp_list_remove. intros i. by destruct Hk as [->| ->].
  - apply wp_ret, sound_failed; [apply app_one_not_nil|by destruct errs].
Qed.

Lemma sound_webhooks names errs h :
  names ⊆ WebhookConfigurationsToDelete → wp (delete_webhooks names errs) h (sound [] errs h).
Proof.
  revert errs h. induction names as [|name names IH]; intros errs h Hn; simpl.
  { apply wp_ret, sound_refl. }
  assert (Hn' : names ⊆ WebhookConfigurationsToDelete) by (intros n ?; apply Hn; by right).
  apply wp_call_bind. intros r. cbn in r. destruct r as [err|].
  { eapply wp_mono; [by apply IH|]. intros e h'. by apply (sound_trans [] []), sound_cons. }
  apply wp_call_bind. intros r. cbn in r. eapply wp_mono; [by apply IH|]. intros e h'.
  apply (sound_trans [] []).
  apply (sound_trans [] [] _ _ errs (ev (TGetWebhookConfiguration name) None :: h));
    [by apply sound_cons|].
  apply sound_cons; [apply Hn; by left|done|]. by intros [? _]%app_eq_nil.
Qed.

Lemma sound_storage_classes errs h :
  wp (remove_storage_classes AllowedProvisioners errs) h (sound [IStorageClass] errs h).
Proof.
  simpl. apply wp_call_bind. intros r. cbn in r. destruct r as [l|err].
  - apply wp_bind. eapply wp_mono; [apply (wp_list_remove IStorageClass)|].
    + intros i. unfold left_behind, AllowedProvisioners.
      by rewrite bool_decide_eq_true, list_elem_of_singleton.
    + intros e h' Hs. by apply wp_ret.
  - apply wp_ret, sound_failed; [apply app_one_not_nil|by destruct errs].
Qed.

Lemma sound_custom_resources gvks errs h :
  gvks ⊆ CRGVKsForFinalizerRemoval →
  wp (remove_custom_resources gvks errs) h (sound (map ICR gvks) errs h).
Proof.
  revert errs h. induction gvks as [|gvk gvks IH]; intros errs h Hg; simpl.
  { apply wp_ret, sound_refl. }
  assert (Hg' : gvks ⊆ CRGVKsForFinalizerRemoval) by (intros n ?; apply Hg; by right).
  apply wp_call_bind. intros r. cbn in r. destruct r as [l|err].
  - apply wp_bind. eapply wp_mono; [apply (wp_list_remove (ICR gvk))|].
    + intros i. unfold left_behind.
      rewrite negb_true_iff, bool_decide_eq_false, length_zero_iff_nil.
      split; [|tauto]. split; [apply Hg; by left|done].
    + intros e h' Hs. eapply wp_mono; [by apply IH|]. intros e' h''. by apply (sound_trans [_]).
  - eapply wp_mono; [by apply IH|]. intros e h'.
    by apply (sound_trans [_]), (sound_failed _ _ (ICR gvk)).
Qed.

(** C36: the hook takes the finalizers, all of them and nothing else, off the
    Secrets and ConfigMaps of the module's namespace, the StorageClasses of the
    module's provisioner and the LocalStorageClasses.  Unless it gets no client,
    which it reports, it lists every one of these kinds, whatever fails in
    between; an object is only patched as it was listed before, and every such
    object of a list is patched, successfully when no error is reported.  A kind
    that could not be listed is reported, the LocalStorageClasses excepted. *)
Theorem handlerRemoveFinalizersOnModuleDelete_releases :
  wp handlerRemoveFinalizersOnModuleDelete [] (λ errs h,
    always td_justified h ∧
    ((∃ err, h = [ev TNewClient (Some err)] ∧ errs ≠ []) ∨
     ∀ k, goes_through k → ∃ r, ev (TList k (namespace_of k)) r ∈ h ∧
       match r with
       | inl l => covered k l errs h
       | inr _ => reported k → errs ≠ []
       end)).
Proof.
  apply wp_call_bind. intros r. cbn in r. destruct r as [err|].
  { apply wp_ret. split; [done|]. left. by exists err. }
  apply (wp_mono _ _ (sound [ISecret; IConfigMap; IStorageClass; ICR (mkCRGVK
    "storage.deckhouse.io" "v1alpha1" "LocalStorageClass" false)] [] [ev TNewClient None])).
  { apply (sound_bind [_] [_; _; _]); [apply sound_in_namespace; by left|intros e1 h1].
    apply (sound_bind [_] [_; _]); [apply sound_in_namespace; by right|intros e2 h2].
    apply (sound_bind [] [_; _]); [by apply sound_webhooks|intros e3 h3].
    apply (sound_bind [_] [_]); [apply sound_storage_classes|intros e4 h4].
    by apply (sound_custom_resources CRGVKsForFinalizerRemoval). }
  intros errs h (_ & _ & Hj & Hc & Hk). split; [by apply Hj|]. right. intros k Hg.
  assert (Ha : asked k errs h).
  { apply Hk. destruct k as [| | |gvk]; [set_solver..|].
    apply list_elem_of_singleton in Hg as ->. set_solver. }
  destruct Ha as (r & Hr & Herr). exists r. split; [done|].
  destruct r as [l|err]; [|by apply (Herr err)].
  destruct (Hc k l Hr) as [Hold|?]; [|done]. by apply listed_cons, elem_of_nil in Hold.
Qed.
End hook.
