(* ===== verification/Certs.v ===== *)
(** * The hook that makes the certificate of the webhooks

    hooks/go/020-webhook-certs/webhook-certs.go: the declaration handed to the
    certificate hook of module-sdk, which generates and renews the certificate. *)

From S2P Require Import Prelude Teardown.

Local Open Scope string_scope.

Definition ModuleName := "sdsLocalVolume".
Definition ModulePluralName := "sds-local-volume".
Definition WebhookCertCn := "webhooks".

(** [SANs] is the function [DefaultSANs] of module-sdk makes of a list of names. *)
Record GenSelfSignedTLSHookConf (sans : Type) := mkTLSHookConf {
  CommonCACanonicalName : string;
  CN : string;
  TLSSecretName : string;
  Namespace : string;
  SANs : sans;
  FullValuesPathPrefix : string;
}.
#[global] Arguments mkTLSHookConf {sans}.
#[global] Arguments CommonCACanonicalName {sans}.
#[global] Arguments CN {sans}.
#[global] Arguments TLSSecretName {sans}.
#[global] Arguments Namespace {sans}.
#[global] Arguments SANs {sans}.
#[global] Arguments FullValuesPathPrefix {sans}.

Definition webhook_names : list string :=
  [WebhookCertCn;
   WebhookCertCn +:+ "." +:+ ModuleNamespace;
   WebhookCertCn +:+ "." +:+ ModuleNamespace +:+ ".svc";
   "%CLUSTER_DOMAIN%://" +:+ WebhookCertCn +:+ "." +:+ ModuleNamespace +:+ ".svc"].

Definition webhook_certificate {sans} (DefaultSANs : list string → sans)
    : GenSelfSignedTLSHookConf sans :=
  mkTLSHookConf (ModulePluralName +:+ "-" +:+ WebhookCertCn) WebhookCertCn
    (WebhookCertCn +:+ "-https-certs") ModuleNamespace (DefaultSANs webhook_names)
    (ModuleName +:+ ".internal.customWebhookCert").

(** The names under which the API server may call the service, and the place of
    the certificate in the values of the module. *)
Example webhook_certificate_is_for_the_service :
  SANs (webhook_certificate (λ names, names)) =
    ["webhooks"; "webhooks.d8-sds-local-volume"; "webhooks.d8-sds-local-volume.svc";
     "%CLUSTER_DOMAIN%://webhooks.d8-sds-local-volume.svc"] ∧
  FullValuesPathPrefix (webhook_certificate (λ names, names)) = "sdsLocalVolume.internal.customWebhookCert".
Proof. split; reflexivity. Qed.
