(* ===== verification/Webhooks.v ===== *)
(** * The admission webhooks

    images/webhooks/handlers: what is asked about a LocalStorageClass
    (lscValidator.go) and a StorageClass (scValidator.go), and how a Pod is
    given the scheduler (podSchedulerMutator.go). *)

From S2P Require Import Prelude Effects Kube LSC.

Local Open Scope string_scope.

(** The result of a validator of kubewebhook. *)
Record ValidatorResult := mkValidatorResult { Valid : bool; Message : string }.

(** ** The validator of StorageClasses *)

Definition localCSIProvisioner := "local.csi.storage.deckhouse.io".
Definition allowedUserName := "system:serviceaccount:d8-sds-local-volume:controller".

(** The parts of a StorageClass that the source compares as a whole with
    [reflect.DeepEqual], whose equality is the one of the type. *)
Class ReviewParts := {
  TopologySelectorTerm : Type;
  TopologySelectorTerm_eq_dec :: EqDecision TopologySelectorTerm;
  ManagedFieldsEntry : Type;
  (* the fields of ObjectMeta besides the annotations and the managed fields *)
  MetaRest : Type;
  MetaRest_eq_dec :: EqDecision MetaRest;
}.

Section sc_review.
Context `{ReviewParts}.

(** [storagev1.StorageClass], as the review carries it. *)
Record ReviewedSC := mkReviewedSC {
  rsc_Annotations : option strmap;
  rsc_ManagedFields : option (list ManagedFieldsEntry);
  rsc_MetaRest : MetaRest;
  rsc_Provisioner : string;
  rsc_Parameters : option strmap;
  rsc_ReclaimPolicy : option string;
  rsc_MountOptions : option (list string);
  rsc_AllowVolumeExpansion : option bool;
  rsc_VolumeBindingMode : option string;
  rsc_AllowedTopologies : option (list TopologySelectorTerm);
}.

Inductive Operation := OperationCreate | OperationUpdate | OperationDelete | OperationConnect.

#[export] Instance Operation_eq_dec : EqDecision Operation.
Proof. solve_decision. Defined.

Record AdmissionReview := mkAdmissionReview {
  ar_Username : string;
  ar_Operation : Operation;
  ar_OldObjectRaw : string;
  ar_NewObjectRaw : string;
}.

(** encoding/json on the bytes of a StorageClass. *)
Context (UnmarshalStorageClass : string → result string ReviewedSC).

(** Comparing what two pointers point to; [None] is the panic of a nil one. *)
Definition deref_neq {A} `{EqDecision A} (old new : option A) : option bool :=
  old ← old; new ← new; Some (negb (bool_decide (old = new))).

(** A comparison of the source: on a difference the function returns true. *)
Definition changed_or (b : bool) (rest : option bool) : option bool :=
  if b then Some true else rest.

Definition sc_changed (oldSC newSC : ReviewedSC) : option bool :=
  changed_or (negb (bool_decide (rsc_Provisioner oldSC = rsc_Provisioner newSC))) (
  mode ← deref_neq (rsc_VolumeBindingMode oldSC) (rsc_VolumeBindingMode newSC);
  changed_or mode (
  policy ← deref_neq (rsc_ReclaimPolicy oldSC) (rsc_ReclaimPolicy newSC);
  changed_or policy (
  changed_or (negb (bool_decide (rsc_Parameters oldSC = rsc_Parameters newSC))) (
  expansion ← deref_neq (rsc_AllowVolumeExpansion oldSC) (rsc_AllowVolumeExpansion newSC);
  changed_or expansion (
  changed_or (negb (bool_decide (rsc_MountOptions oldSC = rsc_MountOptions newSC))) (
  changed_or (negb (bool_decide (rsc_AllowedTopologies oldSC = rsc_AllowedTopologies newSC))) (
  changed_or (negb (bool_decide (rsc_MetaRest oldSC = rsc_MetaRest newSC))) (
  Some false)))))))).

(** isStorageClassChangedExceptAnnotations *)
Definition isStorageClassChangedExceptAnnotations (oldObjectRaw newObjectRaw : string)
    : option (result string bool) :=
  match UnmarshalStorageClass oldObjectRaw with
  | inr err => Some (inr ("failed to unmarshal old object: " ++ err))
  | inl oldSC =>
      match UnmarshalStorageClass newObjectRaw with
      | inr err => Some (inr ("failed to unmarshal new object: " ++ err))
      | inl newSC => inl <$> sc_changed oldSC newSC
      end
  end.

(** The validator of SCValidate; an object of another kind is [None]. *)
Definition SCValidate (arReview : AdmissionReview) (obj : option ReviewedSC)
    : option (result string ValidatorResult) :=
  let refused := mkValidatorResult false
    ("Direct modifications to the StorageClass (other than annotations) with the provisioner "
     ++ localCSIProvisioner
     ++ " are not allowed. Please use LocalStorageClass for such operations.") in
  match obj with
  | None => Some (inl (mkValidatorResult false ""))
  | Some sc =>
      if negb (bool_decide (rsc_Provisioner sc = localCSIProvisioner))
      then Some (inl (mkValidatorResult true ""))
      else if bool_decide (ar_Username arReview = allowedUserName)
      then Some (inl (mkValidatorResult true ""))
      else if negb (bool_decide (ar_Operation arReview = OperationUpdate))
      then Some (inl refused)
      else
        changed ← isStorageClassChangedExceptAnnotations (ar_OldObjectRaw arReview)
                    (ar_NewObjectRaw arReview);
        Some match changed with
             | inr err => inr err
             | inl false => inl (mkValidatorResult true "")
             | inl true => inl refused
             end
  end.
End sc_review.

(** ** Effects of the other two *)

Section webhooks.
Context `{LabelSelectors, ApiMachinery}.

(** What the source reads of a PersistentVolumeClaim. *)
Record PersistentVolumeClaim := mkPVC {
  pvc_Annotations : option strmap;
  pvc_StorageClassName : option string;
  pvc_VolumeName : string;
}.

(** What it reads of a Pod: the claim name of each volume that has one. *)
Record Pod := mkPod {
  pod_Namespace : string;
  pod_SchedulerName : string;
  pod_Volumes : list (option string);
}.

Inductive wh_op :=
| HNewKubeClient                       (* NewKubeClient *)
| HListLVG
| HInClusterConfig                     (* rest.InClusterConfig *)
| HNewForConfig                        (* kubernetes.NewForConfig *)
| HGetPVC (namespace name : string)
| HGetSCProvisioner (name : string)    (* the provisioner of the class *)
| HGetPVDriver (name : string).        (* the CSI driver of the volume, if it has one *)

Definition wh_res (o : wh_op) : Type :=
  match o with
  | HNewKubeClient | HInClusterConfig | HNewForConfig => option api_error
  | HListLVG => list LVMVolumeGroup + api_error
  | HGetPVC _ _ => PersistentVolumeClaim + api_error
  | HGetSCProvisioner _ => string + api_error
  | HGetPVDriver _ => option string + api_error
  end.

Definition whSig : sig := Sig wh_op wh_res.
Definition wh_call (o : wh_op) : prog whSig (wh_res o) := call (S := whSig) o.

(** ** The validator of LocalStorageClasses *)

Definition refuse (msg : string) : ValidatorResult := mkValidatorResult false msg.

(** The body of the loop over the entries: the message of a refusal. *)
Definition entry_refused (listDevice : list LVMVolumeGroup) (type : string)
    (unique : list string) (i : nat) (lvmGroup : LocalStorageClassLVG) : option string :=
  let hasName := negb (bool_decide (lvg_Name lvmGroup = "")) in
  let hasSelector := bool_decide (is_Some (lvg_LabelSelector lvmGroup)) in
  if Bool.eqb hasName hasSelector
  then Some ("Each spec.lvm.lvmVolumeGroups entry must set exactly one of name or "
             ++ "labelSelector (entry #" ++ pretty i ++ ")")
  else if (if bool_decide (type = "Thin")
           then match lvg_Thin lvmGroup with
                | None => true
                | Some thin => bool_decide (PoolName thin = "")
                end
           else false)
  then Some ("Field thin.poolName is required for spec.lvm.lvmVolumeGroups entry #"
             ++ pretty i ++ " when type is Thin")
  else if negb (bool_decide (type = "Thin")) && bool_decide (is_Some (lvg_Thin lvmGroup))
  then Some ("Field thin must not be specified for spec.lvm.lvmVolumeGroups entry #"
             ++ pretty i ++ " when type is Thick")
  else match lvg_LabelSelector lvmGroup with
       | Some ls =>
           match LabelSelectorAsSelector ls with
           | inr err => Some ("Invalid labelSelector in spec.lvm.lvmVolumeGroups entry #"
                              ++ pretty i ++ ": " ++ err)
           | inl _ => None
           end
       | None =>
           if contains unique (lvg_Name lvmGroup)
           then Some ("There must be unique LVMVolumeGroup names (" ++ lvg_Name lvmGroup
                      ++ " duplicates)")
           else if negb (existsb (λ lvmVG, bool_decide (vg_Name lvmVG = lvg_Name lvmGroup))
                           listDevice)
           then Some ("LVMVolumeGroup " ++ lvg_Name lvmGroup ++ " not found; ")
           else None
       end.

(** The loop; only the names of the entries without a selector are kept. *)
Fixpoint entries_refused (listDevice : list LVMVolumeGroup) (type : string)
    (unique : list string) (i : nat) (entries : list LocalStorageClassLVG) : option string :=
  match entries with
  | [] => None
  | lvmGroup :: entries =>
      match entry_refused listDevice type unique i lvmGroup with
      | Some errMsg => Some errMsg
      | None =>
          entries_refused listDevice type
            match lvg_LabelSelector lvmGroup with
            | Some _ => unique
            | None => (unique ++ [lvg_Name lvmGroup])%list
            end (S i) entries
      end
  end.

(** How many entries satisfy a test. *)
Definition count {A} (f : A → bool) (l : list A) : nat := length (List.filter f l).

(** The validator of LSCValidate; an object of another kind is [None]. *)
Definition LSCValidate (obj : option LocalStorageClass)
    : prog whSig (ValidatorResult + api_error) :=
  match obj with
  | None => mret (inl (mkValidatorResult false ""))
  | Some lsc =>
      err ← wh_call HNewKubeClient;
      match err with
      | Some err => mret (inr err)
      | None =>
          match lsc_LVM (lsc_Spec lsc) with
          | None => mret (inl (refuse ("LocalStorageClass " ++ GetName lsc
                                       ++ " has no spec.lvm configured")))
          | Some lvm =>
              let entries := lvm_LVMVolumeGroups lvm in
              if bool_decide (length entries = 0)
              then mret (inl (refuse "Field spec.lvm.lvmVolumeGroups must not be empty"))
              else
                listDevice ← wh_call HListLVG;
                match listDevice with
                | inr err => mret (inr err)
                | inl listDevice =>
                    let nameEntries :=
                      count (λ e, negb (bool_decide (lvg_Name e = ""))) entries in
                    let selectorEntries :=
                      count (λ e, bool_decide (is_Some (lvg_LabelSelector e))) entries in
                    if (0 <? nameEntries)%nat && (0 <? selectorEntries)%nat
                    then mret (inl (refuse ("spec.lvm.lvmVolumeGroups must use either name "
                           ++ "entries or labelSelector entries, not a mix")))
                    else
                      mret (inl match entries_refused listDevice (lvm_Type lvm) [] 0 entries with
                                | Some errMsg => refuse errMsg
                                | None => mkValidatorResult true ""
                                end)
                end
          end
      end
  end.

(** ** The scheduler of a Pod *)

Definition annBetaStorageProvisioner := "volume.beta.kubernetes.io/storage-provisioner".
Definition annStorageProvisioner := "volume.kubernetes.io/storage-provisioner".
Definition csiAddress := "local.csi.storage.deckhouse.io".
Definition schedulerName := "sds-local-volume".

(** The provisioner by the annotations: the beta one wins. *)
Definition annotated_provisioner (pvc : PersistentVolumeClaim) : string :=
  if map_has (pvc_Annotations pvc) annBetaStorageProvisioner
  then map_get (pvc_Annotations pvc) annBetaStorageProvisioner
  else map_get (pvc_Annotations pvc) annStorageProvisioner.

(** By the StorageClass, which counts only when it is this driver's. *)
Definition discover_by_class (discoveredProvisioner : string) (pvc : PersistentVolumeClaim)
    : prog whSig (string + api_error) :=
  match pvc_StorageClassName pvc with
  | None => mret (inl discoveredProvisioner)
  | Some name =>
      if negb (bool_decide (discoveredProvisioner = "")) || bool_decide (name = "")
      then mret (inl discoveredProvisioner)
      else
        sc ← wh_call (HGetSCProvisioner name);
        mret match sc with
             | inr err => inr err
             | inl provisioner =>
                 inl (if bool_decide (provisioner = csiAddress) then provisioner
                      else discoveredProvisioner)
             end
  end.

(** By the PersistentVolume. *)
Definition discover_by_volume (discoveredProvisioner : string) (pvc : PersistentVolumeClaim)
    : prog whSig (string + api_error) :=
  if negb (bool_decide (discoveredProvisioner = "")) || bool_decide (pvc_VolumeName pvc = "")
  then mret (inl discoveredProvisioner)
  else
    pv ← wh_call (HGetPVDriver (pvc_VolumeName pvc));
    mret match pv with
         | inr err => inr err
         | inl driver => inl (default discoveredProvisioner driver)
         end.

(** The provisioner of a claim. *)
Definition discover (pvc : PersistentVolumeClaim) : prog whSig (string + api_error) :=
  byClass ← discover_by_class (annotated_provisioner pvc) pvc;
  match byClass with
  | inr err => mret (inr err)
  | inl discoveredProvisioner => discover_by_volume discoveredProvisioner pvc
  end.

(** The loop over the volumes: whether one is this driver's. *)
Fixpoint any_volume_ours (namespace : string) (volumes : list (option string))
    : prog whSig (bool + api_error) :=
  match volumes with
  | [] => mret (inl false)
  | None :: volumes => any_volume_ours namespace volumes
  | Some claim :: volumes =>
      pvc ← wh_call (HGetPVC namespace claim);
      match pvc with
      | inr err => mret (inr err)
      | inl pvc =>
          discovered ← discover pvc;
          match discovered with
          | inr err => mret (inr err)
          | inl discoveredProvisioner =>
              if bool_decide (discoveredProvisioner = csiAddress) then mret (inl true)
              else any_volume_ours namespace volumes
          end
      end
  end.

Definition with_scheduler (name : string) (pod : Pod) : Pod :=
  mkPod (pod_Namespace pod) name (pod_Volumes pod).

(** Whether the Pod would go to the default scheduler. *)
Definition scheduled_by_default (pod : Pod) : bool :=
  bool_decide (pod_SchedulerName pod = "")
  || bool_decide (pod_SchedulerName pod = "default-scheduler").

(** PodSchedulerMutate: the mutated object, if any, or the error. *)
Definition PodSchedulerMutate (obj : option Pod) : prog whSig (option Pod + api_error) :=
  match obj with
  | None => mret (inl None)
  | Some pod =>
      if negb (scheduled_by_default pod) then mret (inl (Some pod))
      else
        err ← wh_call HInClusterConfig;
        match err with
        | Some err => mret (inr err)
        | None =>
            err ← wh_call HNewForConfig;
            match err with
            | Some err => mret (inr err)
            | None =>
                ours ← any_volume_ours (pod_Namespace pod) (pod_Volumes pod);
                mret match ours with
                     | inr err => inr err
                     | inl true => inl (Some (with_scheduler schedulerName pod))
                     | inl false => inl (Some pod)
                     end
            end
        end
  end.
End webhooks.
