(* ===== verification/WebhooksSpec.v ===== *)
(** * What the admission webhooks admit

    Each validator admits exactly what it should, and a Pod changes scheduler
    exactly when one of its volumes is this driver's. *)

From S2P Require Import Prelude Effects Kube LSC LSCValidate Webhooks.

Local Open Scope string_scope.

(** ** StorageClasses *)

Section sc_review.
Context `{ReviewParts}.
Context (UnmarshalStorageClass : string → result string ReviewedSC).

(** The fields the source dereferences without a check. *)
Definition has_pointers (sc : ReviewedSC) : Prop :=
  rsc_VolumeBindingMode sc ≠ None ∧ rsc_ReclaimPolicy sc ≠ None ∧
  rsc_AllowVolumeExpansion sc ≠ None.

(** The same class, up to annotations and managed fields. *)
Definition same_but_annotations (sc sc' : ReviewedSC) : Prop :=
  ∃ annotations managedFields,
    sc' = mkReviewedSC annotations managedFields (rsc_MetaRest sc) (rsc_Provisioner sc)
            (rsc_Parameters sc) (rsc_ReclaimPolicy sc) (rsc_MountOptions sc)
            (rsc_AllowVolumeExpansion sc) (rsc_VolumeBindingMode sc)
            (rsc_AllowedTopologies sc).

Lemma changed_or_false b rest : changed_or b rest = Some false ↔ b = false ∧ rest = Some false.
Proof. destruct b; simpl; naive_solver. Qed.

Lemma deref_neq_bind {A} `{EqDecision A} (old new : option A) rest :
  (b ← deref_neq old new; changed_or b rest) = Some false ↔
  old = new ∧ old ≠ None ∧ rest = Some false.
Proof.
  unfold deref_neq. destruct old as [a|], new as [b|]; simpl; try naive_solver.
  rewrite changed_or_false, negb_false_iff, bool_decide_eq_true. naive_solver.
Qed.

Lemma sc_changed_false old new :
  sc_changed old new = Some false ↔ same_but_annotations old new ∧ has_pointers old.
Proof.
  unfold sc_changed, same_but_annotations, has_pointers.
  repeat rewrite ?changed_or_false, ?deref_neq_bind, ?negb_false_iff, ?bool_decide_eq_true.
  destruct old, new. simpl. split.
  - intros (-> & -> & ? & -> & ? & -> & -> & ? & -> & -> & -> & _). eauto 10.
  - intros [(a & m & [= -> -> -> -> -> -> -> -> -> ->]) (? & ? & ?)]. split_and!; done.
Qed.

Lemma unchanged_spec oldRaw newRaw :
  isStorageClassChangedExceptAnnotations UnmarshalStorageClass oldRaw newRaw = Some (inl false) ↔
  ∃ old new, UnmarshalStorageClass oldRaw = inl old ∧ UnmarshalStorageClass newRaw = inl new ∧
    same_but_annotations old new ∧ has_pointers old.
Proof.
  unfold isStorageClassChangedExceptAnnotations.
  destruct (UnmarshalStorageClass oldRaw) as [old|]; [|split; [done|by intros (?&?&?&_)]].
  destruct (UnmarshalStorageClass newRaw) as [new|]; [|split; [done|by intros (?&?&_&?&_)]].
  split.
  - destruct (sc_changed old new) as [b|] eqn:Hc; [|done]. intros [= ->].
    apply sc_changed_false in Hc. by exists old, new.
  - intros (old' & new' & [= <-] & [= <-] & Hs). by apply sc_changed_false in Hs as ->.
Qed.

(** C33: the webhook admits a StorageClass exactly when it is not this module's,
    or the controller asks, or it is an update that leaves everything but
    annotations and managed fields as it was, between objects that can be
    read. *)
Theorem SCValidate_admits review sc msg :
  SCValidate UnmarshalStorageClass review (Some sc) = Some (inl (mkValidatorResult true msg)) ↔
  msg = "" ∧
  (rsc_Provisioner sc ≠ localCSIProvisioner ∨
   ar_Username review = allowedUserName ∨
   (ar_Operation review = OperationUpdate ∧
    ∃ old new, UnmarshalStorageClass (ar_OldObjectRaw review) = inl old ∧
      UnmarshalStorageClass (ar_NewObjectRaw review) = inl new ∧
      same_but_annotations old new ∧ has_pointers old)).
Proof.
  unfold SCValidate. rewrite <-unchanged_spec.
  case_bool_decide as Hprov; simpl; [|naive_solver].
  case_bool_decide as Huser; [naive_solver|].
  case_bool_decide as Hop; simpl; [|naive_solver].
  destruct (isStorageClassChangedExceptAnnotations _ _ _) as [[[]|]|]; simpl; naive_solver.
Qed.
End sc_review.

(** ** LocalStorageClasses *)

Section lsc_review.
Context `{LabelSelectors, ApiMachinery, MapRange}.

Abbreviation hist := (history whSig).
Abbreviation ev := (Ev (S := whSig)).

(** The pool of an entry, as its type asks. *)
Definition pool_ok (type : string) (e : LocalStorageClassLVG) : Prop :=
  if decide (type = LVMThinType) then ∃ thin, lvg_Thin e = Some thin ∧ PoolName thin ≠ ""
  else lvg_Thin e = None.

(** What the webhook asks of one entry, besides the repetitions. *)
Definition admitted_entry (lvgs : list LVMVolumeGroup) (type : string)
    (e : LocalStorageClassLVG) : Prop :=
  match lvg_LabelSelector e with
  | None => lvg_Name e ≠ "" ∧ lvg_Name e ∈ map vg_Name lvgs
  | Some ls => lvg_Name e = "" ∧ ∃ selector, LabelSelectorAsSelector ls = inl selector
  end ∧ pool_ok type e.

(** The names of the entries that are names. *)
Definition entry_names (entries : list LocalStorageClassLVG) : list string :=
  map lvg_Name (List.filter (λ e, bool_decide (lvg_LabelSelector e = None)) entries).

Definition admitted (lvgs : list LVMVolumeGroup) (lvm : LocalStorageClassLVMSpec) : Prop :=
  lvm_LVMVolumeGroups lvm ≠ [] ∧
  (∀ e, e ∈ lvm_LVMVolumeGroups lvm → admitted_entry lvgs (lvm_Type lvm) e) ∧
  NoDup (entry_names (lvm_LVMVolumeGroups lvm)) ∧
  ((∀ e, e ∈ lvm_LVMVolumeGroups lvm → lvg_LabelSelector e = None) ∨
   (∀ e, e ∈ lvm_LVMVolumeGroups lvm → lvg_LabelSelector e ≠ None)).

Lemma listed_name (lvgs : list LVMVolumeGroup) name :
  existsb (λ lvmVG, bool_decide (vg_Name lvmVG = name)) lvgs = true ↔ name ∈ map vg_Name lvgs.
Proof.
  rewrite existsb_exists. setoid_rewrite bool_decide_eq_true.
  change (map vg_Name lvgs) with (vg_Name <$> lvgs). rewrite list_elem_of_fmap.
  setoid_rewrite list_elem_of_In. naive_solver.
Qed.

Lemma refused_or {A} (b : bool) (m : A) (rest : option A) :
  (if b then Some m else rest) = None ↔ b = false ∧ rest = None.
Proof. destruct b; naive_solver. Qed.

(** Exactly one of name and selector. *)
Lemma one_of_two e :
  Bool.eqb (negb (bool_decide (lvg_Name e = ""))) (bool_decide (is_Some (lvg_LabelSelector e)))
    = false ↔
  match lvg_LabelSelector e with None => lvg_Name e ≠ "" | Some _ => lvg_Name e = "" end.
Proof. destruct (lvg_LabelSelector e); simpl; case_bool_decide; simpl; naive_solver. Qed.

Lemma pool_checks type e :
  (if bool_decide (type = "Thin")
   then match lvg_Thin e with None => true | Some thin => bool_decide (PoolName thin = "") end
   else false) = false ∧
  negb (bool_decide (type = "Thin")) && bool_decide (is_Some (lvg_Thin e)) = false ↔
  pool_ok type e.
Proof.
  unfold pool_ok. change "Thin" with LVMThinType. rewrite bool_decide_decide.
  destruct (decide (type = LVMThinType)), (lvg_Thin e) as [thin|]; simpl;
    try case_bool_decide; naive_solver.
Qed.

Lemma entry_refused_None lvgs type unique i e :
  entry_refused lvgs type unique i e = None ↔
  admitted_entry lvgs type e ∧ (lvg_LabelSelector e = None → lvg_Name e ∉ unique).
Proof.
  unfold entry_refused, admitted_entry. cbv zeta.
  rewrite !refused_or, one_of_two, <-pool_checks.
  destruct (lvg_LabelSelector e) as [ls|].
  - destruct (LabelSelectorAsSelector ls) as [sel|err]; [|naive_solver].
    split; [|naive_solver]. intros (? & ? & ? & _). split_and!; try done. by exists sel.
  - rewrite !refused_or, negb_false_iff, listed_name. unfold contains.
    rewrite bool_decide_eq_false. naive_solver.
Qed.

Lemma entry_names_cons e entries :
  entry_names (e :: entries) = match lvg_LabelSelector e with
    | None => lvg_Name e :: entry_names entries
    | Some _ => entry_names entries
    end.
Proof.
  unfold entry_names. simpl. destruct (lvg_LabelSelector e).
  - by rewrite bool_decide_false.
  - by rewrite bool_decide_true.
Qed.

Lemma entries_refused_None lvgs type unique i entries :
  entries_refused lvgs type unique i entries = None ↔
  (∀ e, e ∈ entries → admitted_entry lvgs type e) ∧ NoDup (entry_names entries) ∧
  (∀ name, name ∈ entry_names entries → name ∉ unique).
Proof.
  revert unique i. induction entries as [|e entries IH]; intros unique i; simpl.
  { split; [|done]. intros _. split_and!; [|constructor|]; by intros ? ?%elem_of_nil. }
  pose proof (entry_refused_None lvgs type unique i e) as He.
  setoid_rewrite elem_of_cons. rewrite entry_names_cons.
  destruct (entry_refused lvgs type unique i e) as [msg|].
  - split; [done|]. intros (Hall & _ & Hnew). apply He. split; [apply Hall; by left|].
    intros Hs. rewrite Hs in Hnew. apply Hnew. by left.
  - destruct He as [[He Hnew] _]; [done|]. rewrite IH.
    destruct (lvg_LabelSelector e) as [ls|].
    + naive_solver.
    + rewrite NoDup_cons. setoid_rewrite elem_of_app. setoid_rewrite elem_of_cons.
      setoid_rewrite elem_of_nil. split.
      * intros (Hall & Hnd & Hu). split_and!; [naive_solver| |done|naive_solver].
        intros Hin. by destruct (Hu _ Hin); right; left.
      * intros (Hall & [Hnot Hnd] & Hu). split_and!; [naive_solver|done|].
        intros name Hin [?|[->|[]]]; [by eapply Hu; [right|]|done].
Qed.

(** The verdict of the webhook, once it has the volume groups. *)
Lemma LSCValidate_verdict lvgs lvm :
  (0 <? count (λ e, negb (bool_decide (lvg_Name e = ""))) (lvm_LVMVolumeGroups lvm))%nat
  && (0 <? count (λ e, bool_decide (is_Some (lvg_LabelSelector e))) (lvm_LVMVolumeGroups lvm))%nat
    = false ∧
  lvm_LVMVolumeGroups lvm ≠ [] ∧
  entries_refused lvgs (lvm_Type lvm) [] 0 (lvm_LVMVolumeGroups lvm) = None ↔
  admitted lvgs lvm.
Proof.
  unfold count, admitted. rewrite entries_refused_None.
  assert (Hhom : (∀ e, e ∈ lvm_LVMVolumeGroups lvm → admitted_entry lvgs (lvm_Type lvm) e) →
    ∀ e, e ∈ lvm_LVMVolumeGroups lvm → (lvg_Name e = "" ↔ lvg_LabelSelector e ≠ None)).
  { intros Hall e He. destruct (Hall e He) as [Hone _].
    destruct (lvg_LabelSelector e); naive_solver. }
  split.
  - intros (Hmix & ? & Hall & ? & _). split_and!; try done. by apply homogeneous_spec; auto.
  - intros (? & Hall & ? & Hmix). split_and!; try done; [by apply homogeneous_spec; auto|].
    by intros ? _ ?%elem_of_nil.
Qed.

(** What the controller asks of an admitted class is left to the cluster: its
    StorageClass, the groups the selectors match, and the groups it uses. *)
Definition served_by (scList : list StorageClass) (lsc : LocalStorageClass)
    (lvgList : list LVMVolumeGroup) (effectiveLVGs : list LocalStorageClassLVG)
    (lvm : LocalStorageClassLVMSpec) : Prop :=
  (∀ sc, sc ∈ scList → GetName sc = GetName lsc → GetName lsc ≠ "" →
     sc_Provisioner sc = LocalStorageClassProvisioner) ∧
  (∀ e ls selector, e ∈ lvm_LVMVolumeGroups lvm → lvg_LabelSelector e = Some ls →
     LabelSelectorAsSelector ls = inl selector →
     ∃ lvg, lvg ∈ lvgList ∧ Matches selector (om_Labels (vg_meta lvg)) = true) ∧
  NoDup (used_nodes lvgList effectiveLVGs) ∧
  (∀ l, l ∈ effectiveLVGs → lvg_Name l ∈ map vg_Name lvgList) ∧
  (∀ l, l ∈ effectiveLVGs →
     if decide (lvm_Type lvm = LVMThinType)
     then has_thin_pool (lvgs_by_name lvgList) l = true else lvg_Thin l = None).

Lemma admitted_valid scList lsc lvgs lvgList effectiveLVGs lvm :
  lsc_LVM (lsc_Spec lsc) = Some lvm → admitted lvgs lvm →
  fst (validateLocalStorageClass scList lsc lvgList effectiveLVGs) = true ↔
  served_by scList lsc lvgList effectiveLVGs lvm.
Proof.
  intros Hlvm (Hne & Hall & _ & Hmix). rewrite validate_true. split.
  - intros (lvm' & Heq & [Hmanaged _ Hentries _ Hnode Hexist Hthin]).
    assert (lvm' = lvm) as -> by congruence. split_and!; try done.
    intros e ls selector He Hls Hsel. destruct (Hentries e He) as [Hv _].
    rewrite Hls in Hv. destruct Hv as (_ & selector' & lvg & Hsel' & ? & ?).
    exists lvg. split; [done|]. congruence.
  - intros (Hmanaged & Hsel & Hnode & Hexist & Hthin). exists lvm. split; [done|].
    split; try done. intros e He. destruct (Hall e He) as [Hv Hpool]. split; [|exact Hpool].
    destruct (lvg_LabelSelector e) as [ls|] eqn:Hls; [|by destruct Hv].
    destruct Hv as [? [selector Hs]]. split; [done|].
    destruct (Hsel e ls selector He Hls Hs) as (lvg & ? & ?). by exists selector, lvg.
Qed.

Lemma listed_inj (x y : list LVMVolumeGroup + api_error) :
  ev HListLVG x = ev HListLVG y → x = y.
Proof.
  intros Heq. apply (f_equal (λ e : event whSig,
    match ev_op e as o return wh_res o → option (list LVMVolumeGroup + api_error) with
    | HListLVG => Some
    | _ => λ _, None
    end (ev_res e))) in Heq.
  by injection Heq.
Qed.

Definition admits (out : ValidatorResult + api_error) : Prop :=
  ∃ msg, out = inl (mkValidatorResult true msg).

(** C32: the webhook admits a LocalStorageClass exactly when it has volume groups,
    each entry is either the name of an existing group or a valid selector, not
    a mix of both kinds, with a pool exactly when the type is Thin, and no name
    repeats.  What it admits the controller accepts as soon as the cluster can
    serve it: of the controller's conditions only those on the cluster are
    left. *)
Theorem LSCValidate_admits lsc :
  wp (LSCValidate (Some lsc)) [] (λ out h,
    (admits out ↔
     ∃ lvm lvgs, lsc_LVM (lsc_Spec lsc) = Some lvm ∧
       ev HNewKubeClient None ∈ h ∧ ev HListLVG (inl lvgs) ∈ h ∧ admitted lvgs lvm) ∧
    (admits out →
     ∃ lvm, lsc_LVM (lsc_Spec lsc) = Some lvm ∧
       ∀ scList lvgList effectiveLVGs,
         fst (validateLocalStorageClass scList lsc lvgList effectiveLVGs) = true ↔
         served_by scList lsc lvgList effectiveLVGs lvm)).
Proof.
  apply (wp_mono _ _ (λ out (h : hist), admits out ↔ ∃ lvm lvgs, lsc_LVM (lsc_Spec lsc) = Some lvm ∧
    ev HNewKubeClient None ∈ h ∧ ev HListLVG (inl lvgs) ∈ h ∧ admitted lvgs lvm)).
  2: { intros out h Hiff. split; [done|]. intros (lvm & lvgs & Hlvm & _ & _ & Ha)%Hiff.
       exists lvm. split; [done|]. intros. by eapply admitted_valid. }
  assert (Hno : ∀ (h : hist) err, (∀ lvgs, ev HListLVG (inl lvgs) ∉ h) → admits err ↔ False →
    admits err ↔ ∃ lvm lvgs, lsc_LVM (lsc_Spec lsc) = Some lvm ∧
      ev HNewKubeClient None ∈ h ∧ ev HListLVG (inl lvgs) ∈ h ∧ admitted lvgs lvm).
  { intros h err Hh ->. split; [done|]. intros (? & lvgs & _ & _ & ? & _). by eapply Hh. }
  apply wp_call_bind. intros r. cbn in r. destruct r as [err|].
  { apply wp_ret, Hno; [|by split; [intros [? [=]]|]].
    by intros ? ?%list_elem_of_singleton. }
  destruct (lsc_LVM (lsc_Spec lsc)) as [lvm|] eqn:Hlvm.
  2: { apply wp_ret. split; [by intros [? [=]]|by intros (? & ? & [=] & _)]. }
  pose proof (LSCValidate_verdict) as Hverdict.
  cbv zeta. case_bool_decide as Hlen.
  { apply wp_ret, Hno; [|by split; [intros [? [=]]|]].
    by intros ? ?%list_elem_of_singleton. }
  assert (Hne : lvm_LVMVolumeGroups lvm ≠ []) by (intros Hnil; by rewrite Hnil in Hlen).
  apply wp_call_bind. intros r. cbn in r. destruct r as [lvgs|err].
  2: { apply wp_ret, Hno; [|by split; [intros [? [=]]|]].
       by intros ? [?%listed_inj|?%list_elem_of_singleton]%elem_of_cons. }
  assert (Hiff : (∃ lvm' lvgs', Some lvm = Some lvm' ∧
    ev HNewKubeClient None ∈ [ev HListLVG (inl lvgs); ev HNewKubeClient None] ∧
    ev HListLVG (inl lvgs') ∈ [ev HListLVG (inl lvgs); ev HNewKubeClient None] ∧
    admitted lvgs' lvm') ↔ admitted lvgs lvm).
  { split.
    - intros (lvm' & lvgs' & [= <-] & _ & [Heq%listed_inj|?%list_elem_of_singleton]%elem_of_cons & ?);
        [|done]. by simplify_eq.
    - intros Ha. exists lvm, lvgs. split_and!; [done|right; by left|by left|done]. }
  cbv zeta. specialize (Hverdict lvgs lvm).
  destruct (_ && _); apply wp_ret; rewrite Hiff, <-Hverdict.
  - split; [by intros [? [=]]|by intros [? _]].
  - destruct (entries_refused _ _ _ _ _); split; [by intros [? [=]]|by intros (_ & _ & ?)|done|].
    intros _. by eexists.
Qed.
End lsc_review.

(** ** Pods *)

Section pods.
Context `{LabelSelectors, ApiMachinery}.

Abbreviation hist := (history whSig).
Abbreviation ev := (Ev (S := whSig)).
Implicit Types (h : hist).

(** The provisioner that the annotations of the claim name: the beta one wins. *)
Definition annotation_of (pvc : PersistentVolumeClaim) : string :=
  let annotations := default ∅ (pvc_Annotations pvc) in
  default (default "" (annotations !! "volume.kubernetes.io/storage-provisioner"))
    (annotations !! "volume.beta.kubernetes.io/storage-provisioner").

Lemma annotated_provisioner_spec pvc : annotated_provisioner pvc = annotation_of pvc.
Proof.
  unfold annotated_provisioner, annotation_of, map_has, map_get, annBetaStorageProvisioner,
    annStorageProvisioner. cbv zeta.
  destruct (pvc_Annotations pvc) as [m|]; simpl; [|by rewrite !lookup_empty].
  destruct (m !! "volume.beta.kubernetes.io/storage-provisioner") eqn:Hb.
  - by rewrite bool_decide_true.
  - rewrite bool_decide_false; [done|]. by intros [? [=]].
Qed.

(** The StorageClass of the claim says nothing: there is none, or it belongs
    to another provisioner. *)
Definition class_silent h (pvc : PersistentVolumeClaim) : Prop :=
  pvc_StorageClassName pvc = None ∨ pvc_StorageClassName pvc = Some "" ∨
  ∃ name provisioner, pvc_StorageClassName pvc = Some name ∧
    ev (HGetSCProvisioner name) (inl provisioner) ∈ h ∧ provisioner ≠ csiAddress.

(** What was read tells that the provisioner of the claim is [p]: its
    annotations, else its StorageClass when it is this driver's, else its
    volume. *)
Definition provisioned_by h (pvc : PersistentVolumeClaim) (p : string) : Prop :=
  (annotation_of pvc ≠ "" ∧ p = annotation_of pvc) ∨
  (annotation_of pvc = "" ∧ p = csiAddress ∧
    ∃ name, pvc_StorageClassName pvc = Some name ∧
      ev (HGetSCProvisioner name) (inl csiAddress) ∈ h) ∨
  (annotation_of pvc = "" ∧ class_silent h pvc ∧
    ((pvc_VolumeName pvc = "" ∧ p = "") ∨
     ∃ driver, ev (HGetPVDriver (pvc_VolumeName pvc)) (inl driver) ∈ h ∧ p = default "" driver)).

Lemma suffix_in (e : event whSig) h h' : h `suffix_of` h' → e ∈ h → e ∈ h'.
Proof. intros [k ->] ?. apply elem_of_app. by right. Qed.

Lemma class_silent_suffix h h' pvc :
  h `suffix_of` h' → class_silent h pvc → class_silent h' pvc.
Proof.
  intros Hs [?|[?|(name & p & ? & ? & ?)]]; [by left|by right; left|].
  right. right. exists name, p. split_and!; [done|by eapply suffix_in|done].
Qed.

Lemma provisioned_suffix h h' pvc p :
  h `suffix_of` h' → provisioned_by h pvc p → provisioned_by h' pvc p.
Proof.
  intros Hs [?|[(? & ? & name & ? & ?)|(? & ? & Hv)]]; [by left| |].
  - right. left. split_and!; [done..|]. exists name. split; [done|by eapply suffix_in].
  - right. right. split_and!; [done|by eapply class_silent_suffix|].
    destruct Hv as [?|(driver & ? & ?)]; [by left|]. right. exists driver.
    split; [by eapply suffix_in|done].
Qed.

(** What the StorageClass adds to the annotations. *)
Definition after_class h (pvc : PersistentVolumeClaim) (p : string) : Prop :=
  (annotation_of pvc ≠ "" ∧ p = annotation_of pvc) ∨
  (annotation_of pvc = "" ∧ p = csiAddress ∧
    ∃ name, pvc_StorageClassName pvc = Some name ∧
      ev (HGetSCProvisioner name) (inl csiAddress) ∈ h) ∨
  (annotation_of pvc = "" ∧ p = "" ∧ class_silent h pvc).

Lemma wp_discover_by_class pvc h :
  wp (discover_by_class (annotated_provisioner pvc) pvc) h
    (λ out h', h `suffix_of` h' ∧ ∀ p, out = inl p → after_class h' pvc p).
Proof.
  rewrite annotated_provisioner_spec. unfold discover_by_class, after_class.
  destruct (decide (annotation_of pvc = "")) as [Ha|Ha].
  2: { rewrite (bool_decide_false _ Ha). simpl.
       destruct (pvc_StorageClassName pvc); apply wp_ret; (split; [done|]);
         intros p [= <-]; by left. }
  rewrite Ha, (bool_decide_true _ eq_refl). simpl.
  destruct (pvc_StorageClassName pvc) as [name|] eqn:Hname.
  2: { apply wp_ret. split; [done|]. intros p [= <-]. right. right.
       split_and!; [done..|]. by left. }
  case_bool_decide as Hempty.
  { apply wp_ret. split; [done|]. intros p [= <-]. right. right.
    split_and!; [done..|]. right. left. congruence. }
  apply wp_call_bind. intros r. cbn in r. apply wp_ret. split; [by apply suffix_cons_r|].
  intros p Hp. destruct r as [provisioner|err]; [|done]. injection Hp as <-.
  case_bool_decide as Hours.
  - subst provisioner. right. left. split_and!; [done..|]. exists name. split; [done|by left].
  - right. right. split_and!; [done..|]. right. right. exists name, provisioner.
    split_and!; [done|by left|done].
Qed.

Lemma wp_discover pvc h :
  wp (discover pvc) h (λ out h', h `suffix_of` h' ∧ ∀ p, out = inl p → provisioned_by h' pvc p).
Proof.
  apply wp_bind. eapply wp_mono; [apply wp_discover_by_class|].
  intros [p|err] h1 [Hs Hc]; [|by apply wp_ret].
  specialize (Hc p eq_refl). unfold discover_by_volume, provisioned_by.
  destruct Hc as [[? ->]|[(? & -> & ?)|(Ha & -> & Hsil)]].
  - rewrite bool_decide_false by done. apply wp_ret. split; [done|]. intros p [= <-]. by left.
  - simpl. apply wp_ret. split; [done|]. intros p [= <-]. by right; left.
  - simpl. case_bool_decide as Hv.
    + apply wp_ret. split; [done|]. intros p [= <-]. right. right. split_and!; [done..|].
      by left.
    + apply wp_call_bind. intros r. cbn in r. apply wp_ret.
      split; [by apply suffix_cons_r|]. intros p Hp. destruct r as [driver|err]; [|done].
      injection Hp as <-. right. right. split_and!; [done| |].
      * eapply class_silent_suffix; [|done]. by apply suffix_cons_r.
      * right. exists driver. split; [by left|done].
Qed.

(** A claim was read, with what provisions it. *)
Definition claim_read h (namespace claim p : string) : Prop :=
  ∃ pvc, ev (HGetPVC namespace claim) (inl pvc) ∈ h ∧ provisioned_by h pvc p.

Lemma claim_read_suffix h h' namespace claim p :
  h `suffix_of` h' → claim_read h namespace claim p → claim_read h' namespace claim p.
Proof.
  intros Hs (pvc & ? & ?). exists pvc.
  split; [by eapply suffix_in|by eapply provisioned_suffix].
Qed.

Lemma wp_any_volume_ours namespace volumes h :
  wp (any_volume_ours namespace volumes) h (λ out h', h `suffix_of` h' ∧
    match out with
    | inl true => ∃ claim, Some claim ∈ volumes ∧ claim_read h' namespace claim csiAddress
    | inl false => ∀ claim, Some claim ∈ volumes →
                   ∃ p, claim_read h' namespace claim p ∧ p ≠ csiAddress
    | inr _ => True
    end).
Proof.
  revert h. induction volumes as [|[claim|] volumes IH]; intros h; simpl.
  - apply wp_ret. split; [done|]. by intros ? ?%elem_of_nil.
  - apply wp_call_bind. intros r. cbn in r. destruct r as [pvc|err].
    2: { apply wp_ret. split; [by apply suffix_cons_r|done]. }
    apply wp_bind. eapply wp_mono; [apply wp_discover|].
    intros [p|err] h1 [Hs Hp]; [|apply wp_ret; split; [by eapply suffix_cons_l|done]].
    assert (Hread : claim_read h1 namespace claim p).
    { exists pvc. split; [eapply suffix_in; [exact Hs|by left]|by apply Hp]. }
    case_bool_decide as Hours.
    + apply wp_ret. split; [by eapply suffix_cons_l|]. exists claim.
      split; [by left|]. by subst p.
    + eapply wp_mono; [apply IH|]. intros out h2 [Hs2 Hout].
      split; [etrans; [|exact Hs2]; by eapply suffix_cons_l|].
      destruct out as [[]|err]; [| |done].
      * destruct Hout as (c & ? & ?). exists c. split; [by right|done].
      * intros c [[= ->]|?]%elem_of_cons; [|by apply Hout].
        exists p. split; [|done]. by eapply claim_read_suffix.
  - eapply wp_mono; [apply IH|]. intros out h' [? Hout]. split; [done|].
    destruct out as [[]|err]; [| |done].
    + destruct Hout as (c & ? & ?). exists c. split; [by right|done].
    + intros c [[=]|?]%elem_of_cons. by apply Hout.
Qed.

(** C34: a Pod that is admitted leaves with this module's scheduler exactly when it
    would go to the default scheduler and one of its volumes claims storage of
    this driver, by the annotations of the claim, else its StorageClass, else
    its PersistentVolume; otherwise it leaves as it came, and every claim of a
    Pod of the default scheduler was looked up and found to be served by
    another provisioner. *)
Theorem PodSchedulerMutate_schedules pod :
  wp (PodSchedulerMutate (Some pod)) [] (λ out h,
    match out with
    | inr _ => scheduled_by_default pod = true
    | inl None => False
    | inl (Some pod') =>
        (pod' = with_scheduler schedulerName pod ∧ scheduled_by_default pod = true ∧
         ∃ claim, Some claim ∈ pod_Volumes pod ∧
           claim_read h (pod_Namespace pod) claim csiAddress) ∨
        (pod' = pod ∧ scheduled_by_default pod = false ∧ h = []) ∨
        (pod' = pod ∧ scheduled_by_default pod = true ∧
         ∀ claim, Some claim ∈ pod_Volumes pod →
           ∃ p, claim_read h (pod_Namespace pod) claim p ∧ p ≠ csiAddress)
    end).
Proof.
  unfold PodSchedulerMutate. destruct (scheduled_by_default pod) eqn:Hd; simpl.
  2: { apply wp_ret. right. by left. }
  apply wp_call_bind. intros r. cbn in r. destruct r as [err|]; [by apply wp_ret|].
  apply wp_call_bind. intros r. cbn in r. destruct r as [err|]; [by apply wp_ret|].
  apply wp_bind. eapply wp_mono; [apply wp_any_volume_ours|].
  intros [[]|err] h [_ Hout]; apply wp_ret; [by left|by right; right|done].
Qed.
End pods.
