(* ===== verification/WebhooksMain.v ===== *)
(** * The process of the webhooks

    images/webhooks: the flags and main of cmd/main.go, and the two functions of
    handlers/func.go that build an HTTP handler from an admission function.  The
    admission functions themselves are in Webhooks.v; here they are only names,
    what is shown is which of them is served where. *)

From S2P Require Import Prelude Effects Kube Monitoring Manager Flags Settings Process.

Local Open Scope string_scope.

Definition InfoLevel := "2".
Definition port := ":8443".
Definition PodSchedulerMutatorID := "PodSchedulerMutation".
Definition LSCValidatorID := "LSCValidator".
Definition SCValidatorID := "SCValidator".

(** The type config of main.go *)
Record config := mkConfig { certFile : string; keyFile : string; logLevel : string }.

(** Reading the flags ends the process, fails, or gives the configuration. *)
Inductive flags_read := FlagsExit (status : Z) | FlagsFail | FlagsRead (cfg : config).

Definition webhook_flags : list (string * string) :=
  [("tls-cert-file", ""); ("tls-key-file", ""); ("log-level", InfoLevel)].

(** initFlags, on the arguments after the name of the program *)
Definition initFlags (args : list string) : flags_read :=
  match parse_flags webhook_flags args with
  | Exits status => FlagsExit status
  | Parsed values =>
      let value name := default "" (values !! name) in
      if snd (Level (value "log-level")) then FlagsFail
      else FlagsRead (mkConfig (value "tls-cert-file") (value "tls-key-file") (value "log-level"))
  end.

Section main.
Context `{ApiMachinery, Runtime}.

(** GetMutatingWebhookHandler *)
Definition GetMutatingWebhookHandler (mutationFunc : admission) (mutatorID obj : string)
    : prog procSig (HTTPHandler + string) :=
  mutationWebhook ← proc_call (NewWebhook mutatorID mutationFunc obj);
  match mutationWebhook with
  | inr err => mret (inr err)
  | inl mutationWebhook => proc_call (HandlerFor mutationWebhook)
  end.

(** GetValidatingWebhookHandler *)
Definition GetValidatingWebhookHandler (validationFunc : admission) (validatorID obj : string)
    : prog procSig (HTTPHandler + string) :=
  mutationWebhook ← proc_call (NewWebhook validatorID validationFunc obj);
  match mutationWebhook with
  | inr err => mret (inr err)
  | inl mutationWebhook => proc_call (HandlerFor mutationWebhook)
  end.

(** The functions of resourcesSchemeFuncs *)
Definition resourcesSchemeFuncs : list (prog procSig (option string)) :=
  [proc_call (AddToScheme D8CommonScheme); proc_call (AddToScheme SncScheme);
   proc_call (AddToScheme ClientGoScheme); proc_call (AddToScheme ExtensionsScheme);
   proc_call (AddToScheme CoreScheme); proc_call (AddToScheme StorageScheme)].

(** NewKubeClient, on the environment and the path it is given *)
Definition NewKubeClient (Getenv : string → string) (kubeconfigPath : string)
    : prog procSig (KubeClient + string) :=
  let kubeconfigPath :=
    if bool_decide (kubeconfigPath = "") then Getenv "kubeconfig" else kubeconfigPath in
  config ← proc_call (BuildConfigFromFlags "" kubeconfigPath);
  match config with
  | inr err => mret (inr err)
  | inl config =>
      err ← build_scheme resourcesSchemeFuncs;
      match err with
      | Some err => mret (inr err)
      | None => proc_call (NewClient config)
      end
  end.

Lemma performs_client_types : performs
  (map AddToScheme [D8CommonScheme; SncScheme; ClientGoScheme; ExtensionsScheme; CoreScheme;
                    StorageScheme])
  (build_scheme resourcesSchemeFuncs).
Proof.
  do 6 (apply (performs_build [_]); [apply performs_scheme|]). apply performs_none.
Qed.

(** The client of the webhooks knows every type they use, or there is none. *)
Lemma NewKubeClient_knows_its_types Getenv path :
  wp (NewKubeClient Getenv path) [] (λ client h, ∀ cl, client = inl cl →
    answers h = accepted (map AddToScheme [D8CommonScheme; SncScheme; ClientGoScheme;
                                           ExtensionsScheme; CoreScheme; StorageScheme]) ∧
    ∃ config, Ev (S := procSig) (NewClient config) (inl cl) ∈ h ∧
      Ev (S := procSig) (BuildConfigFromFlags "" (if bool_decide (path = "")
        then Getenv "kubeconfig" else path)) (inl config) ∈ h).
Proof.
  apply wp_call_bind. intros [config|err]; [|by apply wp_ret].
  apply wp_bind. eapply wp_mono; [apply performs_client_types|].
  intros [err|] h (new & -> & Ha); [by apply wp_ret|].
  intros r h' [r' [-> ->]] cl ->. split.
  - match goal with |- answers (?e :: new ++ ?l) = _ =>
      change (answers ([e] ++ new ++ l)%list = accepted (map AddToScheme
        [D8CommonScheme; SncScheme; ClientGoScheme; ExtensionsScheme; CoreScheme; StorageScheme]))
    end.
    by rewrite !answers_app, Ha.
  - exists config. split; [by left|]. right. apply elem_of_app. right. by left.
Qed.

(** A handler that is built, or the process ends. *)
Definition must_handle (p : prog procSig (HTTPHandler + string)) (message : string)
    (rest : HTTPHandler → prog procSig Z) : prog procSig Z :=
  handler ← p;
  match handler with
  | inr _ => _ ← proc_call (Log LevelError message); mret 1%Z
  | inl handler => rest handler
  end.

Definition main (args : list string) : prog procSig Z :=
  match initFlags args with
  | FlagsExit status => mret status
  | FlagsFail => _ ← proc_call (Printf "unable to parse config: err: %s"); mret 1%Z
  | FlagsRead cfg =>
      if snd (Level (logLevel cfg))
      then _ ← proc_call (Printf "unable to create NewLogger, err: %v"); mret 1%Z
      else
        must_handle (GetMutatingWebhookHandler PodSchedulerMutate_ PodSchedulerMutatorID "Pod")
          "unable to create the pod scheduler mutating webhook handler"
          (λ podSchedulerMutatingWebHookHandler,
        must_handle (GetValidatingWebhookHandler LSCValidate_ LSCValidatorID "LocalStorageClass")
          "unable to create the LocalStorageClass validating webhook handler"
          (λ lscValidatingWebhookHandler,
        must_handle (GetValidatingWebhookHandler SCValidate_ SCValidatorID "StorageClass")
          "unable to create the StorageClass validating webhook handler"
          (λ scValidatingWebhookHandler,
        let mux := [("/pod-scheduler-mutate", Some podSchedulerMutatingWebHookHandler);
                    ("/lsc-validate", Some lscValidatingWebhookHandler);
                    ("/sc-validate", Some scValidatingWebhookHandler);
                    ("/healthz", None)] in
        info "listening" (
        must (proc_call (ListenAndServeTLS port (certFile cfg) (keyFile cfg) mux))
          "unable to serve the webhook" (
        mret 0%Z)))))
  end.

(** ** What is served *)

Abbreviation ev := (Ev (S := procSig)).

(** The handler is what was built for an admission function on a kind. *)
Definition built_for (f : admission) (kind : string) (handler : HTTPHandler)
    (h : history procSig) : Prop :=
  ∃ ID w, ev (NewWebhook ID f kind) (inl w) ∈ h ∧ ev (HandlerFor w) (inl handler) ∈ h.

Definition is_serving (e : event procSig) : bool :=
  match ev_op e with ListenAndServeTLS _ _ _ _ => true | _ => false end.

Lemma built_for_app f kind handler new h :
  built_for f kind handler h → built_for f kind handler (new ++ h)%list.
Proof. intros (ID & w & ? & ?). exists ID, w. rewrite !elem_of_app. auto. Qed.

Lemma wp_must_handle f ID kind message rest h (Q : Z → history procSig → Prop) :
  existsb is_serving h = false →
  (∀ h', existsb is_serving h' = false → Q 1%Z h') →
  (∀ handler new, existsb is_serving (new ++ h)%list = false →
     built_for f kind handler (new ++ h)%list → wp (rest handler) (new ++ h)%list Q) →
  wp (must_handle (GetMutatingWebhookHandler f ID kind) message rest) h Q.
Proof.
  intros Hh Hfail Hrest. apply wp_bind, wp_call_bind. intros [w|err].
  - apply wp_do. intros [handler|err]; apply (wp_ret (_ : HTTPHandler + string)).
    + apply (Hrest handler [_; _]); [done|]. exists ID, w. cbn [app]. rewrite !elem_of_cons. auto.
    + apply wp_call_bind. intros r. apply wp_ret, Hfail. done.
  - apply wp_ret, wp_call_bind. intros r. apply wp_ret, Hfail. done.
Qed.

(** The address of a handler. *)
Definition served (mux : list (string * option HTTPHandler)) (path : string)
    : option HTTPHandler :=
  List.find (λ kv, bool_decide (fst kv = path)) mux ≫= snd.

(** The webhooks serve all three handlers or none.  The process either ends
    with a status that is not 0 without ever listening, or listens once, on its
    port with the certificate and key of its flags, with the mutator built for
    Pods, the validator built for LocalStorageClasses and the validator built
    for StorageClasses each at its path; it ends with 0 only if serving ended
    without an error. *)
Theorem webhooks_serve_whole args :
  wp (main args) [] (λ status h,
    (existsb is_serving h = false ∧ (status = 0%Z → initFlags args = FlagsExit 0)) ∨
    ∃ cfg mux r pods lscs scs,
      initFlags args = FlagsRead cfg ∧
      List.filter is_serving h = [ev (ListenAndServeTLS port (certFile cfg) (keyFile cfg) mux) r] ∧
      served mux "/pod-scheduler-mutate" = Some pods ∧ built_for PodSchedulerMutate_ "Pod" pods h ∧
      served mux "/lsc-validate" = Some lscs ∧ built_for LSCValidate_ "LocalStorageClass" lscs h ∧
      served mux "/sc-validate" = Some scs ∧ built_for SCValidate_ "StorageClass" scs h ∧
      (status = 0%Z ↔ r = None)).
Proof.
  unfold main. destruct (initFlags args) as [s| |cfg] eqn:Hflags.
  - apply wp_ret. left. split; [done|]. by intros ->.
  - apply wp_call_bind. intros r. apply wp_ret. by left.
  - destruct (snd (Level (logLevel cfg))).
    { apply wp_call_bind. intros r. apply wp_ret. by left. }
    assert (Hfail : ∀ h', existsb is_serving h' = false →
      existsb is_serving h' = false ∧ (1%Z = 0%Z → FlagsRead cfg = FlagsExit 0)) by done.
    apply wp_must_handle; [done|auto|]. intros pods n1 Hn1 Hpods.
    apply wp_must_handle; [done|auto|]. intros lscs n2 Hn2 Hlscs.
    apply wp_must_handle; [done|auto|]. intros scs n3 Hn3 Hscs. cbv zeta.
    set (h := (n3 ++ n2 ++ n1 ++ [])%list) in *. apply wp_call_bind. intros []. apply wp_bind, wp_do.
    assert (Hnone : List.filter is_serving h = []).
    { destruct (List.filter is_serving h) as [|e l] eqn:E; [done|].
      assert (He : In e (List.filter is_serving h)) by (rewrite E; by left).
      apply filter_In in He as [Hin He].
      assert (existsb is_serving h = true) by (apply existsb_exists; eauto). congruence. }
    assert (Hb : ∀ new, built_for PodSchedulerMutate_ "Pod" pods (new ++ h)%list ∧
      built_for LSCValidate_ "LocalStorageClass" lscs (new ++ h)%list ∧
      built_for SCValidate_ "StorageClass" scs (new ++ h)%list).
    { intros new. split_and!; apply built_for_app; unfold h; auto using built_for_app. }
    intros r. apply (wp_ret (_ : option string)). destruct r as [err|].
    + apply wp_call_bind. intros []. apply wp_ret. right. eexists cfg, _, _, pods, lscs, scs.
      split; [done|]. split; [by simpl; rewrite Hnone|].
      split_and!; try reflexivity; try done; [apply (Hb [_; _; _])..].
    + apply wp_ret. right. eexists cfg, _, _, pods, lscs, scs.
      split; [done|]. split; [by simpl; rewrite Hnone|].
      split_and!; try reflexivity; try done; [apply (Hb [_; _])..].
Qed.
End main.
