(* ===== verification/Worlds.v ===== *)
(** * A concrete cluster

    Instances of every interface to third-party code, which show that the
    behaviour the development relies on can be had, the theorems that have
    hypotheses applied to concrete inputs, and examples. *)

From stdpp Require Import countable.
From S2P Require Import Prelude Effects Kube Monitoring LSC LSCValidate LSCResolve LSCReconcile.
From S2P Require Import LSCConverge GC CSI CSIController CSISizes CSINode CSIInFlight CSINodePaths.
From S2P Require Import NodeWatcher.

Local Open Scope string_scope.

(** ** Serialization

    Any countable value has a text: the bits of its code. *)

Definition zero := Ascii.ascii_of_nat 48.
Definition one := Ascii.ascii_of_nat 49.

Fixpoint bits_of (p : positive) : string :=
  match p with
  | xH => ""
  | xO p => String zero (bits_of p)
  | xI p => String one (bits_of p)
  end.

Fixpoint of_bits (s : string) : option positive :=
  match s with
  | EmptyString => Some xH
  | String (Ascii.Ascii false false false false true true false false) s => xO <$> of_bits s
  | String (Ascii.Ascii true false false false true true false false) s => xI <$> of_bits s
  | String _ _ => None
  end.

Lemma of_bits_of p : of_bits (bits_of p) = Some p.
Proof. induction p as [p IH|p IH|]; simpl; [by rewrite IH..|done]. Qed.

Definition marshal {A} `{Countable A} (a : A) : string := bits_of (encode a).
Definition unmarshal {A} `{Countable A} (s : string) : option A := of_bits s ≫= decode.

Lemma unmarshal_marshal {A} `{Countable A} (a : A) : unmarshal (marshal a) = Some a.
Proof. unfold unmarshal, marshal. rewrite of_bits_of. simpl. apply decode_encode. Qed.

(** ** The API machinery *)

Inductive status_error := NotFoundError | AlreadyExistsError | ConflictError | OtherError.

#[export] Instance status_error_eq_dec : EqDecision status_error.
Proof. solve_decision. Defined.

#[export] Instance concrete_machinery : ApiMachinery := {|
  api_error := status_error;
  error_text e := match e with
                  | NotFoundError => "not found"
                  | AlreadyExistsError => "already exists"
                  | ConflictError => "conflict"
                  | OtherError => "unavailable"
                  end;
  IsNotFound e := bool_decide (e = NotFoundError);
  IsAlreadyExists e := bool_decide (e = AlreadyExistsError);
  IsConflict e := bool_decide (e = ConflictError);
  IsTooManyRequests _ := false;
  IsServerTimeout _ := false;
  IsInternalError _ := false;
  IsTimeout _ := false;
  IsNoMatchError _ := false;
  Quantity := Z;
  Value := i64;
  unstructured := list (list string * string);
  NestedString u path :=
    match List.find (λ kv, bool_decide (kv.1 = path)) u with
    | Some kv => (kv.2, true)
    | None => ("", false)
    end;
|}.

#[export, program] Instance concrete_quantities : Quantities := {|
  NewQuantity n := n;
  zeroQuantity := 0%Z;
  QuantitySub a b := (a - b)%Z;
  QuantityString q := marshal (i64 q);
  ParseQuantity s := unmarshal s;
  MustParse s := if bool_decide (s = "4Mi") then 4194304%Z else default 0%Z (unmarshal s);
|}.
Next Obligation. intros q. apply i64_in_range. Qed.
Next Obligation. intros n Hn. by apply i64_id. Qed.
Next Obligation. done. Qed.
Next Obligation. done. Qed.
Next Obligation.
  intros n Hn. exists n. simpl. by rewrite unmarshal_marshal, i64_id.
Qed.

#[export] Instance concrete_range : MapRange.
Proof. by refine {| range := λ K V _ _ m, map_to_list m |}. Defined.

(** [retry.DefaultBackoff] allows four attempts. *)
#[export] Instance concrete_retry : RetryOnError.
Proof. refine {| OnError := λ S A E retriable fn, attempts retriable fn 3 |}. eauto. Defined.

(** ** Selectors, conditions and YAML *)

#[export] Instance concrete_selectors : LabelSelectors := {|
  LabelSelector := list (string * string);
  Selector := list (string * string);
  LabelSelectorAsSelector := λ s, inl s;
  Matches sel labels :=
    forallb (λ kv, bool_decide (labels ≫= lookup kv.1 = Some kv.2)) sel;
|}.

Definition find_condition (cs : list Condition) (type : string) : option Condition :=
  List.find (λ c, bool_decide (c_Type c = type)) cs.

#[export, program] Instance concrete_conditions : Conditions := {|
  ReasonReconciled := "Reconciled";
  ReasonReconcileFailed := "ReconcileFailed";
  ReasonDeleting := "Deleting";
  TruncateMessage m := m;
  IsTrue cs type := match find_condition cs type with
                    | Some c => bool_decide (c_Status c = ConditionTrue)
                    | None => false
                    end;
  IsStale cs type generation := match find_condition cs type with
                                | Some c => negb (c_ObservedGeneration c =? generation)%Z
                                | None => true
                                end;
  SetCondition cs c := c :: List.filter (λ d, negb (bool_decide (c_Type d = c_Type c))) cs;
|}.
Next Obligation. intros cs c. unfold find_condition. simpl. by rewrite bool_decide_true. Qed.
Next Obligation.
  intros cs c. unfold find_condition. simpl. rewrite bool_decide_true by done.
  by rewrite Z.eqb_refl.
Qed.

Definition lvg_code (l : LocalStorageClassLVG)
    : string * option (list (string * string)) * option string :=
  (lvg_Name l, lvg_LabelSelector l, PoolName <$> lvg_Thin l).

Definition lvg_decode (c : string * option (list (string * string)) * option string)
    : LocalStorageClassLVG :=
  let '(name, selector, pool) := c in mkLVG name selector (mkThinPool <$> pool).

Lemma lvg_decode_code l : lvg_decode (lvg_code l) = l.
Proof. by destruct l as [name selector [[pool]|]]. Qed.

#[export] Instance lvg_countable : Countable LocalStorageClassLVG :=
  inj_countable' lvg_code lvg_decode lvg_decode_code.

#[export, program] Instance concrete_yaml : YamlLVGs := {|
  yaml_Marshal lvgs := inl (marshal lvgs);
  yaml_Unmarshal s := if bool_decide (s = "") then inl []
                      else match unmarshal s with Some l => inl l | None => inr "yaml" end;
|}.
Next Obligation.
  intros lvgs s [= <-]. case_bool_decide as He.
  - pose proof (unmarshal_marshal lvgs) as Hm. rewrite He in Hm.
    assert (Hnil : unmarshal "" = Some ([] : list LocalStorageClassLVG)) by reflexivity.
    rewrite Hnil in Hm. congruence.
  - by rewrite unmarshal_marshal.
Qed.

#[export] Instance concrete_config : ConfigYaml := {|
  UnmarshalConfig s := match unmarshal s with Some l => inl l | None => inr "yaml" end;
|}.

#[export] Instance concrete_groups : VolumeGroupsYaml := {|
  UnmarshalVolumeGroups s := map (λ p : string * string, mkVolumeGroup p.1 p.2) <$> unmarshal s;
|}.

(** ** Two nodes, a volume group on each *)

Definition named (name : string) (labels : option strmap) : ObjectMeta :=
  mkMeta name "" (name +:+ "-uid") "1" 1 None [] labels None [].

Definition GiB : Z := 1073741824.

Definition group_a : LVMVolumeGroup :=
  mkVG (named "vg-a" (Some {[ "tier" := "fast" ]})) (mkVGSpec "vg" "node-a")
    (mkVGStatus ["node-a"] [mkThinPoolStatus "pool" (5 * GiB)%Z] (10 * GiB)%Z (20 * GiB)%Z
       (10 * GiB)%Z 4194304%Z).

Definition group_b : LVMVolumeGroup :=
  mkVG (named "vg-b" (Some {[ "tier" := "fast" ]})) (mkVGSpec "vg" "node-b")
    (mkVGStatus ["node-b"] [mkThinPoolStatus "pool" (9 * GiB)%Z] (30 * GiB)%Z (40 * GiB)%Z
       (10 * GiB)%Z 4194304%Z).

(** A thin class over the groups with the label tier=fast. *)
Definition pool : option LocalStorageClassLVMThinPoolSpec := Some (mkThinPool "pool").
Definition thin_lvm : LocalStorageClassLVMSpec :=
  mkLVM LVMThinType None "" [mkLVG "" (Some [("tier", "fast")]) pool].
Definition thin_class : LocalStorageClass :=
  mkLSC (named "fast" (Some {[ "team" := "storage"; "helm.sh/chart" := "x" ]}))
    (mkLSCSpec "Delete" BindingModeWFFC (Some thin_lvm) "") None.
Definition thin_groups : list LocalStorageClassLVG :=
  [mkLVG "vg-a" None pool; mkLVG "vg-b" None pool].

(** *** The theorems on the volume groups of a class *)

Lemma resolve_order_independent_witness :
  match resolveEffectiveLVGs thin_class [group_a; group_b],
        resolveEffectiveLVGs thin_class [group_b; group_a; group_a] with
  | inl r, inl r' => r = r'
  | inr _, inr _ => True
  | _, _ => False
  end ∧ resolveEffectiveLVGs thin_class [group_b; group_a] = inl thin_groups.
Proof.
  split; [|reflexivity]. apply (resolve_order_independent thin_class).
  intros lvg. rewrite !elem_of_cons, !elem_of_nil. tauto.
Defined.

Definition wanted : result string StorageClass :=
  configureStorageClass thin_class thin_groups ["helm.sh/"].

Definition wanted_sc : StorageClass :=
  match wanted with
  | inl sc => sc
  | inr _ => mkSC "" "" (named "" None) "" None None None None
  end.

Lemma hasSCDiff_exact_witness :
  hasSCDiff wanted_sc thin_class (rev thin_groups) ["helm.sh/"] = Some (inl false).
Proof.
  apply (hasSCDiff_exact wanted_sc thin_class (rev thin_groups) ["helm.sh/"] thin_lvm thin_groups).
  - done.
  - reflexivity.
  - apply (bool_decide_unpack _). reflexivity.
  - apply (bool_decide_unpack _). reflexivity.
  - split_and!; [reflexivity..| |].
    + apply (bool_decide_unpack _). reflexivity.
    + intros _ c e Hc He _. exists (mkThinPool "pool").
      apply list_elem_of_In, in_rev, list_elem_of_In in He.
      unfold thin_groups in *. rewrite !elem_of_cons, !elem_of_nil in Hc, He.
      destruct Hc as [->|[->|[]]], He as [->|[->|[]]]; by split.
Defined.

Lemma labels_propagated_witness :
  ∃ labels, om_Labels (sc_meta wanted_sc) = Some labels ∧
    labels !! "team" = Some "storage" ∧ labels !! "helm.sh/chart" = None.
Proof.
  destruct (labels_propagated thin_class thin_groups ["helm.sh/"] wanted_sc)
    as (labels & Hl & _ & Hiff); [reflexivity|].
  exists labels. split; [done|]. split.
  - apply Hiff; [done|]. split; [reflexivity|].
    intros p ->%list_elem_of_singleton _. reflexivity.
  - destruct (labels !! "helm.sh/chart") as [v|] eqn:E; [|done].
    apply Hiff in E as [_ E]; [|done]. specialize (E "helm.sh/" ltac:(by left) ltac:(done)).
    vm_compute in E. done.
Defined.

(** *** The sizes of the CSI controller *)

Lemma AlignSizeToExtent_rounds_up_witness :
  ∃ q, AlignSizeToExtent (NewQuantity 5000000) (NewQuantity 4194304) = Done q ∧
    rounded_up (Value (NewQuantity 5000000)) (Value (NewQuantity 4194304)) (Value q) ∧
    ∃ q', AlignSizeToExtent q (NewQuantity 4194304) = Done q' ∧ Value q' = Value q.
Proof.
  apply (AlignSizeToExtent_rounds_up (NewQuantity 5000000) (NewQuantity 4194304));
    vm_compute; done.
Defined.

Lemma AlignSizeToExtent_overflows_witness :
  ∃ q, AlignSizeToExtent (NewQuantity 9223372036854775807) (NewQuantity 4194304) = Done q ∧
    (Value q ≤ 0)%Z ∧
    fitsFreeSpace BindingModeI LVMTypeThick q (NewQuantity 0) = true.
Proof.
  apply (AlignSizeToExtent_overflows (NewQuantity 9223372036854775807) (NewQuantity 4194304)
           BindingModeI LVMTypeThick (NewQuantity 0)); vm_compute; done.
Defined.

Lemma immediate_binding_picks_the_largest_witness :
  GetNodeWithMaxFreeSpace [group_a; group_b] ∅ LVMTypeThick =
    Done ("node-b", NewQuantity (30 * GiB)) ∧
  has_free ∅ LVMTypeThick group_b (30 * GiB)%Z.
Proof.
  split; [reflexivity|].
  refine (proj1 (immediate_binding_picks_the_largest [group_a; group_b] ∅ LVMTypeThick "node-b"
                   (NewQuantity (30 * GiB)) group_b _ _ _ _)).
  - apply (bool_decide_unpack _). vm_compute. exact I.
  - reflexivity.
  - reflexivity.
  - reflexivity.
Defined.

(** ** The node service *)

Definition unstage_call : node_request := RUnstage "pvc-1" "/staging".

(** The call right after it entered the table. *)
Definition unstaging : system :=
  mkSystem (snd (Insert "pvc-1" NewInFlight))
    (<[0%nat := (unstage_call,
        r ← orInternal (Unstage "/staging") (λ _, mret (inl tt));
        _ ← node_call (InFlightDelete "pvc-1");
        mret r)]> (<[0%nat := (unstage_call, serve unstage_call)]> ∅)).

Lemma unstaging_reachable : reachable unstaging.
Proof.
  eapply rtc_l; [apply (step_arrive NewInFlight ∅ 0%nat unstage_call); reflexivity|].
  eapply rtc_l; [|apply rtc_refl]. unfold unstaging.
  eapply (step_insert NewInFlight _ 0%nat unstage_call "pvc-1" (λ inserted : bool,
    if negb inserted then refuse Aborted
    else r ← orInternal (Unstage "/staging") (λ _, mret (inl tt));
         _ ← node_call (InFlightDelete "pvc-1");
         mret r)). reflexivity.
Qed.

Lemma one_mount_change_per_volume_witness : (0 = 0)%nat.
Proof.
  eapply (one_mount_change_per_volume unstaging unstaging_reachable 0%nat 0%nat
            unstage_call unstage_call (CleanupMountPoint "/staging")
            (CleanupMountPoint "/staging")); try reflexivity.
Defined.

Lemma no_entry_leaks_witness :
  ∃ t q p, sys_calls unstaging !! t = Some (q, p) ∧ volume_of q = "pvc-1".
Proof.
  apply (no_entry_leaks unstaging unstaging_reachable). by exists true.
Defined.

Lemma toMapperPath_injective_witness : "vg-1" = "vg-1" ∧ "pvc-1" = "pvc-1".
Proof.
  apply (toMapperPath_injective "vg-1" "pvc-1" "vg-1" "pvc-1");
    try (split_and!; [done|repeat split; done|done]). reflexivity.
Defined.

Definition some_statfs : Statfs_t := mkStatfs 4096 1000 600 500 100 90.

Lemma fs_usage_adds_up_witness :
  match fs_usage some_statfs with
  | [bytes; inodes] => (vu_Available bytes + vu_Used bytes ≤ vu_Total bytes)%Z
  | _ => False
  end.
Proof.
  apply (fs_usage_adds_up some_statfs). split; unfold some_statfs, int64_max; simpl; lia.
Defined.

(** The releases of three kernels: the check reads the first two numbers. *)
Fixpoint release (s : string) : list Z :=
  match s with
  | EmptyString => [0; 7]%Z
  | String c s => Z.of_nat (Ascii.nat_of_ascii c) :: release s
  end.

Definition kernel (s : string) : world (S := nodeSig) unit := λ o s0,
  match o return node_res o * unit with
  | Uname => (inl (release s), s0)
  | InFlightInsert _ => (true, s0)
  | InFlightDelete _ | CloseFile _ => (tt, s0)
  | OsStat _ | UnixStat _ | IoctlBlkGetSize64 _ => (inl 0%Z, s0)
  | PathExists _ | IsMountPoint _ | ResizeFs_Resize _ _ | ResizeFs_NeedResize _ _ =>
      (inl false, s0)
  | MkdirAll _ | OpenCreate _ | OpenRead _ | FormatAndMount _ _ _ _ _ | Mount _ _ _ _
  | CleanupMountPoint _ => (None, s0)
  | Statfs _ => (inl some_statfs, s0)
  | GetDeviceNameFromMount _ => (inl "", s0)
  | ListMounts => (inl [], s0)
  end.

Definition legacy_on (s : string) : bool + node_error :=
  fst (fst (run (kernel s) needLegacyXFSSupport tt [])).

Example legacy_kernels :
  map legacy_on ["6.8.0-44-generic"; "5.15.0-91"; "5.16.1"; "4.19.0"] =
  [inl false; inl true; inl false; inl true] ∧
  legacy_on "6.8-rc1" = inr NPlain.
Proof. split; reflexivity. Qed.

(** The class over the groups with a label uses the group of the node, and does
    not keep the node from losing its label; a class that names it does. *)
Example selector_class_does_not_hold_its_node :
  resolveEffectiveLVGs thin_class [group_a] = inl [mkLVG "vg-a" None pool] ∧
  evicted_of "node-a" [group_a] [thin_class] = Some (mkEvicted ∅ ∅) ∧
  (ev_lvgs <$> evicted_of "node-a" [group_a]
     [mkLSC (named "fast" None) (mkLSCSpec "Delete" BindingModeWFFC
        (Some (mkLVM LVMThinType None "" [mkLVG "vg-a" None pool])) "") None])
    = Some {[ "vg-a" := group_a ]}.
Proof. split_and!; reflexivity. Qed.
