(* ===== verification/Memory.v ===== *)
(** * A memory for the deep copies

    The structs of metav1 with one pointer of their own, the requirements of a
    label selector, and the copy of a LocalStorageClass evaluated in a concrete
    heap: what DeepCopy.v assumes of metav1 can be met, and the copy of an
    object survives a write through the original. *)

From S2P Require Import Prelude Kube LSC DeepCopy CSI Worlds.

Local Open Scope string_scope.

(** ** The structs of metav1 *)

#[export] Instance concrete_metav1 : Metav1 := {|
  go_ObjectMeta := ObjectMeta;
  go_ListMeta := string;
  go_LabelSelector := option loc;
  go_Condition := Condition;
  foreign := list (string * string);
  zero_ObjectMeta := mkMeta "" "" "" "" 0 None [] None None [];
  zero_ListMeta := "";
  zero_LabelSelector := None;
  zero_Condition := mkCondition "" "" "" "" 0;
|}.

#[export] Instance foreign_storable : Storable (cell := cell) (list (string * string)).
Proof.
  by refine {| inj := CForeign; proj c := match c with CForeign f => Some f | _ => None end |}.
Defined.

Definition view_value {A} (a : A) : reads A := mret a.

(** A selector without requirements is the empty one. *)
Definition view_selector (p : option loc) : reads (list (string * string)) :=
  r ← view_ptr view_value p; mret (default [] r).

Lemma view_value_local {A} (a : A) : local (view_value a).
Proof. apply local_ret. Qed.

Lemma view_value_copies {A} : copies (view_value (A := A)) mret.
Proof. intros a. by apply copied_ret. Qed.

#[export, program] Instance concrete_copies : Metav1Copies := {|
  ListMeta := string;
  view_ObjectMeta := view_value;
  view_ListMeta := view_value;
  view_LabelSelector := view_selector;
  view_Condition := view_value;
  ObjectMeta_DeepCopyInto := mret;
  ListMeta_DeepCopyInto := mret;
  LabelSelector_DeepCopyInto s := p ← copy_ptr [] mret s; mret p;
  Condition_DeepCopyInto := mret;
|}.
Next Obligation. apply view_value_local. Qed.
Next Obligation. apply view_value_local. Qed.
Next Obligation.
  intros p. apply local_bind; [apply local_ptr, view_value_local|]. intros r. apply local_ret.
Qed.
Next Obligation. apply view_value_local. Qed.
Next Obligation. apply view_value_copies. Qed.
Next Obligation. apply view_value_copies. Qed.
Next Obligation.
  intros p. apply (copied_map _ _ (view_ptr view_value) _ (λ p, p)); [|done].
  apply copied_ptr; [apply view_value_copies|apply view_value_local].
Qed.
Next Obligation. apply view_value_copies. Qed.

(** ** One object in memory *)

(** A class as Go holds it:
    location 1 is the object, 2 its LVM spec, 3 the array of volume groups, 4
    the selector, 5 its requirements, 6 the thin pool, 7 the status and 8 the
    array of its conditions. *)
Definition ready : Condition := mkCondition "Ready" ConditionTrue "Reconciled" "" 1.

Definition memory : gmap loc cell :=
  list_to_map
    [(1%positive, CLSC (go_LSC ("", "") (named "fast" None)
        (go_Spec "Delete" BindingModeWFFC (Some 2%positive) "ext4") (Some 7%positive)));
     (2%positive, CLVM (go_LVM LVMThinType None "" (Some 3%positive)));
     (3%positive, CLVGs [go_LVG "" (Some 4%positive) (Some 6%positive); go_LVG "vg-b" None None]);
     (4%positive, CSelector (Some 5%positive));
     (5%positive, CForeign [("disk", "ssd")]);
     (6%positive, CThin (mkThinPool "pool"));
     (7%positive, CStatus (go_Status "Created" "" 1 (Some 8%positive)));
     (8%positive, CConditions [ready])].

(** What the memory holds of the class at a location: the name, the file
    system, the selectors and thin pools of the volume groups, and the types of
    the conditions. *)
Definition facts (lsc : LocalStorageClass)
    : list string * list (option (list (string * string)) * option string) * list string :=
  ([om_Name (lsc_meta lsc); lsc_FSType (lsc_Spec lsc)],
   map (λ l, (lvg_LabelSelector l, PoolName <$> lvg_Thin l))
     (from_option lvm_LVMVolumeGroups [] (lsc_LVM (lsc_Spec lsc))),
   map c_Type (from_option lsc_Conditions [] (lsc_Status lsc))).

Definition read_class (p : option loc) (h : gmap loc cell) :=
  match view_ptr view_LSC p h with
  | Some (Some (_, lsc), _, _) => Some (facts lsc)
  | _ => None
  end.

(** The copy and the heap it is in. *)
Definition copied_class : option (option loc * gmap loc cell) :=
  LocalStorageClass_DeepCopyObject (Some 1%positive) memory.

(** What the copy reads as after a write to location [l]. *)
Definition copy_after (l : loc) (c : cell) :=
  '(out, h) ← copied_class; read_class out (<[l := c]> h).

(** The copy is equal, sits elsewhere, and a write through the original to the
    array of conditions, or to the requirements of the selector, is not seen
    through it, while it is through the original.  The copy of nil is nil. *)
Example a_copy_survives :
  let groups := [(Some [("disk", "ssd")], Some "pool"); (None, None)] in
  let expected := Some (["fast"; "ext4"], groups, ["Ready"]) in
  read_class (Some 1%positive) memory = expected ∧
  copy_after 8 (CConditions []) = expected ∧
  copy_after 5 (CForeign [("disk", "hdd")]) = expected ∧
  read_class (Some 1%positive) (<[8%positive := CConditions []]> memory)
    = Some (["fast"; "ext4"], groups, []) ∧
  fst <$> LocalStorageClass_DeepCopyObject None memory = Some None.
Proof. split_and!; vm_compute; reflexivity. Qed.
