(* ===== verification/Scenarios.v ===== *)
(** * Scenarios

    Executable worlds that behave as the development assumes third-party code
    does, and runs of the program in them: they show that the assumptions can
    be met together, and what the theorems say of concrete executions. *)

From S2P Require Import Prelude Effects Kube Monitoring Manager LSC LSCValidate LSCResolve.
From S2P Require Import GC GCSweep GCController GCEvents GCPace GCSafety GCLifecycle.
From S2P Require Import LSCReconcile LSCSafety LSCLifecycle Worlds.

Local Open Scope string_scope.

(** ** An API server for one LocalStorageClass *)

Section api.
Context (name : string) (groups : list LVMVolumeGroup) (base : nat).

Definition all_in (l l' : list string) : bool := forallb (contains l') l.

(** An update: the finalizers asked for, the deletion timestamp kept, and no
    new finalizer on an object that is being deleted. *)
Definition update {T} `{Object T} (cur o : T) : T + status_error :=
  if requested cur && negb (all_in (GetFinalizers o) (GetFinalizers cur)) then inr OtherError
  else inl (with_meta (λ m, mkMeta (om_Name m) (om_Namespace m) (om_UID m) (om_ResourceVersion m)
                              (om_Generation m) (GetDeletionTimestamp cur) (om_Finalizers m)
                              (om_Labels m) (om_Annotations m) (om_ManagedFields m)) o).

Definition delete_object (sc : StorageClass) : StorageClass :=
  with_meta (λ m, mkMeta (om_Name m) (om_Namespace m) (om_UID m) (om_ResourceVersion m)
                    (om_Generation m) (Some 1%Z) (om_Finalizers m) (om_Labels m)
                    (om_Annotations m) (om_ManagedFields m)) sc.

(** A new version of the class, which the cache is told of at once. *)
Definition stamp (s : store) (l : LocalStorageClass) : LocalStorageClass :=
  with_meta (SetResourceVersion (pretty (base + length (st_log s)))) l.
Definition put (s : store) (v : option LocalStorageClass) : store :=
  mkStore (st_log s ++ [v]) (length (st_log s)) (st_sc s).
Definition set_sc (s : store) (sc : option StorageClass) : store := mkStore (st_log s) (st_pos s) sc.

Definition api_server : world (S := lscSig) store := λ o s,
  match o return lsc_res o * store with
  | GetObj k _ n =>
      match k return (lobj k + status_error) * store with
      | KLSC => (match st_cached s with
                 | Some l => if bool_decide (n = name) then inl l else inr NotFoundError
                 | None => inr NotFoundError
                 end, s)
      | KSC => (match st_sc s with
                | Some sc => if bool_decide (n = name) then inl sc else inr NotFoundError
                | None => inr NotFoundError
                end, s)
      end
  | UpdateObj k o =>
      match k return lobj k → (lobj k + status_error) * store with
      | KLSC => λ o : LocalStorageClass,
          match st_class s with
          | None => (inr NotFoundError, s)
          | Some cur =>
              if bool_decide (version_of o = version_of cur)
              then match update cur o with
                   | inl stored => (inl (stamp s stored), put s (kept (stamp s stored)))
                   | inr err => (inr err, s)
                   end
              else (inr ConflictError, s)
          end
      | KSC => λ o : StorageClass,
          match st_sc s with
          | None => (inr NotFoundError, s)
          | Some cur =>
              if bool_decide (sc_Provisioner o = sc_Provisioner cur)
              then match update cur o with
                   | inl stored => (inl stored, set_sc s (kept stored))
                   | inr err => (inr err, s)
                   end
              else (inr OtherError, s)
          end
      end o
  | ListSC => (inl match st_sc s with Some sc => [sc] | None => [] end, s)
  | ListLVG => (inl groups, s)
  | ListLSC => (inl match st_cached s with Some l => [l] | None => [] end, s)
  | CreateSC sc =>
      match st_sc s with
      | Some _ => (inr AlreadyExistsError, s)
      | None => if requested sc then (inr OtherError, s) else (inl sc, set_sc s (Some sc))
      end
  | DeleteSC _ =>
      match st_sc s with
      | Some sc => (None, set_sc s (if bool_decide (GetFinalizers sc = []) then None
                                    else Some (delete_object sc)))
      | None => (Some NotFoundError, s)
      end
  | GetSecret _ _ => (inr NotFoundError, s)
  | UpdateStatus _ cond phase reason =>
      match st_class s with
      | Some cur => (None, put s (Some (stamp s (apply_status cond phase reason cur))))
      | None => (Some NotFoundError, s)
      end
  | LNow => (1%Z, s)
  | LMetric _ => (tt, s)
  end.

Lemma update_stored {T} `{Object T} (cur o stored : T) :
  update cur o = inl stored → stored_over cur o stored.
Proof.
  unfold update. destruct (requested cur && _) eqn:E; [done|]. intros [= <-].
  unfold stored_over, GetDeletionTimestamp, GetFinalizers. rewrite meta_with_meta. simpl.
  split_and!; [done|done|]. intros Hr f Hf. rewrite Hr in E. simpl in E.
  apply negb_false_iff in E. unfold all_in in E. rewrite forallb_forall in E.
  apply contains_true, E. by apply list_elem_of_In.
Qed.

Lemma update_provisioner (cur o stored : StorageClass) :
  update cur o = inl stored → sc_Provisioner stored = sc_Provisioner o.
Proof. unfold update. case_match; [done|]. by intros [= <-]. Qed.

(** The versions are numbered, and the cache shows one of them. *)
Definition numbered (s : store) : Prop :=
  (st_pos s < length (st_log s))%nat ∧
  ∀ l, Some l ∈ st_log s → ∃ n, (n < base + length (st_log s))%nat ∧ version_of l = pretty n.

Lemma fresh_stamp s l v : numbered s → v = Some (stamp s l) ∨ v = None → fresh_version v (st_log s).
Proof.
  intros [_ Hn] [-> | ->] l1 l' Hl Hin; [|done]. injection Hl as <-.
  destruct (Hn l' Hin) as (n & Hlt & ->). unfold stamp, version_of. simpl. intros Heq.
  apply (inj pretty) in Heq. lia.
Qed.

Lemma numbered_put s l v : numbered s → v = Some (stamp s l) ∨ v = None → numbered (put s v).
Proof.
  intros [Hp Hn] Hv. split; simpl; rewrite length_app; simpl; [lia|].
  intros l' [Hin|Hin%list_elem_of_singleton]%elem_of_app.
  - destruct (Hn l' Hin) as (n & ? & ?). exists n. split; [lia|done].
  - destruct Hv as [-> | ->]; [|done]. injection Hin as ->.
    exists (base + length (st_log s))%nat. split; [lia|done].
Qed.

Lemma numbered_set_sc s sc : numbered s → numbered (set_sc s sc).
Proof. done. Qed.

Lemma world_stays s : world_may s s.
Proof.
  split; [split; [done|]|split; [lia|by left]]. by destruct (alive (life_of s)) as [[[] d]|].
Qed.

Lemma world_catches_up s v : numbered s → world_may (with_version s v) (put s v).
Proof.
  intros [Hp _]. destruct (world_stays (with_version s v)) as (Ho & _ & Hl).
  split; [exact Ho|]. split; [simpl; lia|exact Hl].
Qed.

(** A step of the server, and of the cache. *)
Definition server_step (s : store) (o : lsc_op) (r : lsc_res o) (s' : store) : Prop :=
  numbered s' ∧ ∃ s1, serves name s (Ev (S := lscSig) o r) s1 ∧ world_may s1 s'.

Lemma server_serves s o r s' : numbered s' → serves name s (Ev (S := lscSig) o r) s' → server_step s o r s'.
Proof. intros Hn Hs. split; [done|]. exists s'. split; [done|apply world_stays]. Qed.

Lemma kept_or_gone s (l : LocalStorageClass) :
  kept (stamp s l) = Some (stamp s l) ∨ kept (stamp s l) = None.
Proof. unfold kept. destruct (_ && _); auto. Qed.

(** It is one of the servers the refinement is about. *)
Lemma api_server_serves o s :
  numbered s → let '(r, s') := api_server o s in server_step s o r s'.
Proof.
  intros Hn. destruct o as [k ns n|k o| | | |sc|o|ns n|l c ph re| |m]; simpl;
    try (by apply server_serves).
  - destruct k; simpl; apply server_serves; try done. split; [done|]. intros l Hl ->.
    destruct (st_cached s); [|done]. rewrite bool_decide_true in Hl by done. by injection Hl as ->.
  - destruct k; simpl.
    + destruct (st_class s) as [cur|] eqn:Hc; simpl; [|by apply server_serves].
      case_bool_decide as Hv; simpl; [|by apply server_serves].
      destruct (update cur o) as [stored|err] eqn:Hu; simpl; [|by apply server_serves].
      pose proof (kept_or_gone s stored) as Hk. split; [by eapply numbered_put|].
      exists (with_version s (kept (stamp s stored))). split; [|by apply world_catches_up].
      exists cur. split_and!; [done|done| |by eapply fresh_stamp|done].
      apply update_stored in Hu. exact Hu.
    + destruct (st_sc s) as [cur|] eqn:Hc; simpl; [|by apply server_serves].
      case_bool_decide as Hp; simpl; [|by apply server_serves].
      destruct (update cur o) as [stored|err] eqn:Hu; simpl; apply server_serves; try done.
      exists cur. split_and!; [done|by apply update_stored| |done]. rewrite <-Hp.
      apply update_provisioner in Hu. done.
  - destruct (st_sc s) eqn:Hc; simpl; [by apply server_serves|].
    destruct (requested sc) eqn:Hr; simpl; by apply server_serves.
  - destruct (st_sc s) as [sc|] eqn:Hc; simpl; [|by apply server_serves].
    apply server_serves; [done|]. split; [done|]. split; [done|].
    unfold set_sc. case_bool_decide; simpl; [done|]. intros ? [= <-]. by apply requested_true.
  - destruct (st_class s) as [cur|] eqn:Hc; simpl; [|by apply server_serves; [|left]].
    set (new := apply_status c ph re cur). split; [by apply (numbered_put s new); [|left]|].
    exists (with_version s (Some (stamp s new))). split; [|by apply world_catches_up]. right.
    exists cur, (stamp s new). split_and!; [done|done|done| |done].
    by apply (fresh_stamp s new); [|left].
Qed.

Lemma run_system {A} (p : prog lscSig A) s0 s h :
  numbered s → system name s0 h s →
  let '(_, s', h') := run api_server p s h in system name s0 h' s'.
Proof.
  revert s h. induction p as [a|o k IH]; intros s h Hn Hs; cbn [run]; [done|].
  pose proof (api_server_serves o s Hn) as Hserves.
  destruct (api_server o s) as [r s']. destruct Hserves as (Hn' & s1 & Hs1 & Hw).
  apply IH; [done|]. eapply system_world; [|done]. by eapply system_event.
Qed.
End api.

(** ** The life of a class *)

Definition cluster_groups : list LVMVolumeGroup := [group_a; group_b].

(** The versions the server makes are numbered from 100. *)
Definition pass (scs : list StorageClass) (lsc : LocalStorageClass) (s : store)
    : option outcome * store * history lscSig :=
  run (api_server "fast" cluster_groups 100) (RunEventReconcile scs lsc ["helm.sh/"]) s [].

Definition asked_to_delete (finalizers : list string) (l : LocalStorageClass)
    : LocalStorageClass :=
  with_meta (λ m, mkMeta (om_Name m) (om_Namespace m) (om_UID m) "9"
                    (om_Generation m) (Some 1%Z) finalizers (om_Labels m)
                    (om_Annotations m) (om_ManagedFields m)) l.

(** A store whose cache is up to date. *)
Definition synced (c : option LocalStorageClass) (sc : option StorageClass) : store := mkStore [c] 0 sc.

Definition just_created : store := synced (Some thin_class) None.
Definition in_use : store := snd (fst (pass [] thin_class just_created)).
Definition class_in_use : LocalStorageClass := default thin_class (st_class in_use).
Definition deleted_class : LocalStorageClass :=
  asked_to_delete (GetFinalizers class_in_use) class_in_use.
Definition going_away : store := synced (Some deleted_class) (st_sc in_use).

(** The first pass guards the class, provisions its StorageClass and reports
    it; after the deletion was requested, a pass withdraws the StorageClass and
    lets the class go. *)
Example life_of_a_class :
  life_of in_use = mkLife (Some (true, false)) true ∧
  st_sc in_use = Some wanted_sc ∧
  (lsc_Phase <$> lsc_Status class_in_use) = Some CreatedStatusPhase ∧
  map action_of (snd (pass [] thin_class just_created)) =
    [Internal; Provision; Guard; Internal; Internal] ∧
  life_of (snd (fst (pass [wanted_sc] deleted_class going_away))) = mkLife None false ∧
  map action_of (snd (pass [wanted_sc] deleted_class going_away)) =
    [Internal; Release; Internal; Withdraw; Internal; Internal].
Proof. split_and!; vm_compute; reflexivity. Qed.


(** A class that is deleted, without the guard, between the list of the pass
    and its own read: the StorageClass is provisioned all the same. *)
Definition slipped_store : store :=
  synced (Some (asked_to_delete ["example.com/finalizer"] thin_class)) None.

Example slip_provisions_without_guard :
  life_of (snd (fst (pass [] thin_class slipped_store))) = mkLife (Some (false, true)) true.
Proof. vm_compute. reflexivity. Qed.

(** A class that is deleted before the cache lists the StorageClass it was just
    given: the class goes, the StorageClass stays. *)
Example unlisted_class_is_overlooked :
  life_of (snd (fst (pass [] deleted_class going_away))) = mkLife None true.
Proof. vm_compute. reflexivity. Qed.

(** A cache that does not catch up: every write is refused, and nothing is
    provisioned. *)
Definition behind : store :=
  mkStore [Some thin_class; Some (asked_to_delete ["example.com/finalizer"] thin_class)] 0 None.

Example stale_reads_provision_nothing :
  life_of (snd (fst (pass [] thin_class behind))) = mkLife (Some (false, true)) false ∧
  Forall (λ a, a = Internal) (map action_of (snd (pass [] thin_class behind))).
Proof. split; [vm_compute; reflexivity|]. vm_compute. repeat constructor. Qed.

(** ** A pass of the garbage collector *)

Definition deleted_meta (name : string) (labels : option strmap) : ObjectMeta :=
  mkMeta name "" "uid" "1" 1 (Some 100)%Z
    [SDSNodeConfiguratorFinalizer; SDSLocalVolumeCSIFinalizer] labels None [].

Definition thick_spec : LVMLogicalVolumeSpec :=
  mkLLVSpec "pvc-1" "Thick" "1Gi" "vg-a" None None None None.

Definition stale_volume : LVMLogicalVolume := mkLLV (deleted_meta "pvc-1" None) thick_spec None.
(** The same volume after an update of its labels. *)
Definition labelled_volume : LVMLogicalVolume :=
  mkLLV (deleted_meta "pvc-1" (Some {[ "team" := "storage" ]})) thick_spec None.

Definition stale_snapshot : LVMLogicalVolumeSnapshot :=
  mkLLVS (deleted_meta "snap-1" None) (mkLLVSSpec "snap-1" "pvc-2") None.
Definition labelled_snapshot : LVMLogicalVolumeSnapshot :=
  mkLLVS (deleted_meta "snap-1" (Some {[ "team" := "storage" ]}))
    (mkLLVSSpec "snap-1" "pvc-2") None.

Definition bound_pv (phase : string) : PersistentVolume :=
  mkPV (named "pv-2" None)
    (mkPVSpec "fast" (Some (mkCSISource LocalStorageClassProvisioner "pvc-2" "ext4" None))) phase.

Definition gc_cfg : gc_options := mkGCOptions Minute 30.
Definition collector : llvGarbageCollector := newGarbageCollector gc_cfg (NewRecorder true).

(** An API server with one volume and one snapshot, both waiting to go, and a
    clock. *)
Definition gc_server : world (S := gcSig) Z := λ o t,
  match o return gc_res o * Z with
  | ListLLV => (inl [stale_volume], t)
  | ListLLVS _ => (inl [stale_snapshot], t)
  | ListPV _ => (inl [bound_pv "Bound"], t)
  | ListVSC => (inl [], t)
  | GetLive k n =>
      match k return (kobj k + status_error) * Z with
      | OLLV => (if bool_decide (n = "pvc-1") then inl stale_volume else inr NotFoundError, t)
      | OLLVS => (if bool_decide (n = "snap-1") then inl stale_snapshot else inr NotFoundError, t)
      end
  | Patch _ _ _ => (None, t)
  | Now => (t, t + Second)%Z
  | CtxErr => (false, t)
  | Metric _ => (tt, t)
  end.

(** What a patch leaves of the finalizers. *)
Definition patched (e : event gcSig) : option (string * list string) :=
  match ev_op e as o return gc_res o → option (string * list string) with
  | Patch k base new => λ r, match r with
                             | None => Some (GetName base, GetFinalizers new)
                             | Some _ => None
                             end
  | _ => λ _, None
  end (ev_res e).

Definition first_pass : sweep_outcome * Z * history gcSig :=
  run gc_server (sweep collector 0) (1000 * Second)%Z [].

Definition failure (o : sweep_outcome) : option string :=
  match so_err o with
  | Some ErrSweepThrottled => Some "throttled"
  | Some _ => Some "failed"
  | None => None
  end.

(** A pass that does not fail and releases both, the snapshot first; a pass
    right after it is throttled. *)
Example a_pass_releases :
  failure (fst (fst first_pass)) = None ∧
  omap patched (snd first_pass) = [("pvc-1", [SDSNodeConfiguratorFinalizer]);
                                   ("snap-1", [SDSNodeConfiguratorFinalizer])] ∧
  failure (fst (fst (run gc_server (sweep collector (so_lastSweep (fst (fst first_pass))))
                       (snd (fst first_pass)) []))) = Some "throttled".
Proof. split; [|split]; vm_compute; reflexivity. Qed.

Lemma same_versions (m m' : ObjectMeta) :
  om_Name m = om_Name m' → om_UID m = om_UID m' →
  om_DeletionTimestamp m = om_DeletionTimestamp m' → versions m m'.
Proof. intros ?? Hd. split_and!; [done|done|]. congruence. Qed.

(** A pass does not depend on the labels of the objects, nor on the phase of a
    PersistentVolume. *)
Lemma dropped_updates_change_no_pass_witness :
  sweep_lists collector 0 [stale_volume] [stale_snapshot]
    (referenced_by (map strip [bound_pv "Bound"])) ≡
  sweep_lists collector 0 [labelled_volume] [labelled_snapshot]
    (referenced_by [bound_pv "Released"]).
Proof.
  apply (dropped_updates_change_no_pass collector 0 [stale_volume] [labelled_volume]
    [stale_snapshot] [labelled_snapshot] [bound_pv "Bound"] [bound_pv "Released"]);
    (apply Forall2_cons; split; [|apply Forall2_nil; exact I]).
  - split; [by apply same_versions|vm_compute; reflexivity].
  - split; [by apply same_versions|vm_compute; reflexivity].
  - split; [by apply same_versions|split; [reflexivity|vm_compute; reflexivity]].
Defined.

(** What the clock showed. *)
Definition clock_reading (e : event gcSig) : option Z :=
  match ev_op e as o return gc_res o → option Z with Now => Some | _ => λ _, None end (ev_res e).

Lemma clock_reading_elem (h : history gcSig) t :
  Ev (S := gcSig) Now t ∈ h → t ∈ omap clock_reading h.
Proof. intros Hin. apply list_elem_of_omap. by exists (Ev (S := gcSig) Now t). Qed.

(** The process from its start: a pass, two wake-ups that are throttled, and a
    third that is late enough for a pass. *)
Definition four_wakes : history gcSig :=
  snd (run gc_server (wakes collector Minute [AtStart; Item; Item; Item] [])
         (1000 * Second)%Z []).

Lemma passes_are_paced_witness : clock_set four_wakes ∧ always (paced collector) four_wakes.
Proof.
  pose proof (run_exec gc_server (wakes collector Minute [AtStart; Item; Item; Item] [])
    (1000 * Second)%Z []) as He.
  assert (Hc : clock_set four_wakes).
  { intros Hin%clock_reading_elem%contains_true. revert Hin. vm_compute. discriminate. }
  split; [exact Hc|]. revert He Hc. unfold four_wakes. destruct (run _ _ _ _) as [[last s] h].
  intros He Hc.
  exact (passes_are_paced gc_cfg (NewRecorder true) [AtStart; Item; Item; Item] last h He Hc).
Defined.

(** The latest first: the pass at start, two wake-ups that are throttled, and a
    third that is late enough for a pass. *)
Example four_wakeups :
  fst (fst (run gc_server (wakes collector Minute [AtStart; Item; Item; Item] [])
              (1000 * Second)%Z []))
  = map (Z.mul Second) [1017; 1005; 1005; 1005]%Z.
Proof. vm_compute. reflexivity. Qed.

Lemma reconcile_asks_for_the_next_witness :
  wp (GCController.Reconcile collector Minute 0) [] (λ '(res, err, _) h,
    (∀ t, Ev (S := gcSig) Now t ∈ h → (0 ≤ t)%Z) →
    err = None → (0 < RequeueAfter res ≤ Minute)%Z).
Proof.
  exact (reconcile_asks_for_the_next gc_cfg (NewRecorder true) 0
    (eq_refl : (0 < opt_LLVSweepInterval gc_cfg)%Z)).
Defined.

(** ** The life of a volume

    The API server of the specification of the collector, for one volume, whose
    caches are up to date. *)

#[export] Instance meta_eq_dec : EqDecision ObjectMeta.
Proof. solve_decision. Defined.
#[export] Instance volume_eq_dec : EqDecision LVMLogicalVolume.
Proof.
  assert (EqDecision LVMLogicalVolumeSpec) by solve_decision.
  assert (EqDecision LVMLogicalVolumeStatus).
  { assert (EqDecision Quantity) by (change Quantity with Z; apply _). solve_decision. }
  solve_decision.
Defined.

Definition volumes_of (s : GCLifecycle.store OLLV) : list LVMLogicalVolume :=
  match st_obj OLLV s with Some o => [o] | None => [] end.

Definition volume_server : world (S := gcSig) (GCLifecycle.store OLLV * Z) := λ o st,
  let '(s, t) := st in
  match o return gc_res o * (GCLifecycle.store OLLV * Z) with
  | ListLLV => (inl (volumes_of s), st)
  | ListLLVS _ => (inl (st_snapshots OLLV s), st)
  | ListPV _ => (inl (st_pvs OLLV s), st)
  | ListVSC => (match st_contents OLLV s with Some l => inl l | None => inr NotFoundError end, st)
  | GetLive k n =>
      match k return (kobj k + status_error) * _ with
      | OLLV => (match List.find (λ o, bool_decide (GetName o = n)) (volumes_of s) with
                 | Some o => inl o
                 | None => inr NotFoundError
                 end, st)
      | OLLVS => (inr NotFoundError, st)
      end
  | Patch k base new =>
      match k return kobj k → kobj k → option status_error * _ with
      | OLLV => λ base new,
          match st_obj OLLV s with
          | Some cur =>
              if bool_decide (GetName base = "pvc-1" ∧ base = cur ∧ GetUID new = GetUID base)
              then (None, (GCLifecycle.mkStore OLLV (Some (with_meta (SetResourceVersion "2") new : kobj OLLV))
                             (st_doomed OLLV s) (st_pvs OLLV s) (st_snapshots OLLV s) (st_contents OLLV s), t))
              else (Some ConflictError, st)
          | None => (Some NotFoundError, st)
          end
      | OLLVS => λ _ _, (Some OtherError, st)
      end base new
  | Now => (t, (s, t + Second)%Z)
  | CtxErr => (false, st)
  | Metric _ => (tt, st)
  end.

(** It is one of the servers of the specification, in a store whose object is
    known to be condemned. *)
Lemma volume_server_serves o s t :
  (∀ v, st_obj OLLV s = Some v → GetUID v ∈ st_doomed OLLV s) →
  let '(r, (s', _)) := volume_server o (s, t) in
  GCLifecycle.serves OLLV "pvc-1" s (Ev (S := gcSig) o r) s'.
Proof.
  intros Hd. destruct o as [|rd|rd| |k n|k base new| | |m]; simpl; try done.
  - split; [done|]. intros l [= <-] _ o Ho _ _. unfold volumes_of in Ho.
    destruct (st_obj OLLV s) as [v|] eqn:E; [|by apply elem_of_nil in Ho].
    apply elem_of_cons in Ho as [->|[]%elem_of_nil]. exact (Hd v eq_refl).
  - destruct rd; [by split|]. split; [done|]. by intros l [= <-].
  - destruct rd; [done|]. split; [done|]. by intros l [= <-].
  - unfold GCLifecycle.serves. destruct (st_contents OLLV s); by split.
  - destruct k; [|by split]. split; [done|]. intros o. destruct (List.find _ _) as [v|] eqn:E; [|done].
    intros [= <-]. apply find_some in E as [_ E]. by apply bool_decide_eq_true in E.
  - destruct k; [|done]. destruct (st_obj OLLV s) as [cur|] eqn:E; [|done].
    case_bool_decide as Hb; [|done]. destruct Hb as (Hn & -> & _). unfold GCLifecycle.serves. cbn [ev_op ev_res].
    rewrite (bool_decide_true (OLLV = OLLV)) by done.
    rewrite (bool_decide_true (GetName _ = _)) by done. by exists cur, (with_meta (SetResourceVersion "2") new : kobj OLLV), "2".
Qed.

(** The object of the store stays one whose deletion was requested. *)
Definition all_condemned (s : GCLifecycle.store OLLV) : Prop :=
  ∀ v, st_obj OLLV s = Some v → GetUID v ∈ st_doomed OLLV s.

Lemma volume_server_condemned o s t :
  all_condemned s → let '(_, (s', _)) := volume_server o (s, t) in all_condemned s'.
Proof.
  intros Hc. destruct o as [| | | |k n|k base new| | |m]; simpl; try done.
  - by destruct k.
  - destruct k; [|done]. destruct (st_obj OLLV s) as [cur|] eqn:E; [|done].
    case_bool_decide as Hb; [|done]. destruct Hb as (_ & -> & Huid). intros v [= <-].
    simpl. replace (GetUID _) with (GetUID (new : LVMLogicalVolume)) by (by destruct new as [[]]).
    rewrite Huid. exact (Hc cur E).
Qed.

Lemma run_volume_system {A} (p : prog gcSig A) s0 s t h :
  all_condemned s → GCLifecycle.system OLLV "pvc-1" s0 h s [] →
  let '(_, (s', _), h') := run volume_server p (s, t) h in
  GCLifecycle.system OLLV "pvc-1" s0 h' s' [].
Proof.
  revert s t h. induction p as [a|o k IH]; intros s t h Hc Hs; [done|]. cbn [run].
  pose proof (volume_server_serves o s t Hc) as Hserves.
  pose proof (volume_server_condemned o s t Hc) as Hc'.
  destruct (volume_server o (s, t)) as [r [s' t']]. apply IH; [done|].
  by eapply GCLifecycle.system_event.
Qed.

Definition volume_store (pvs : list PersistentVolume) : GCLifecycle.store OLLV :=
  GCLifecycle.mkStore OLLV (Some stale_volume) {[ "uid" ]} pvs [] None.

Definition collect (pvs : list PersistentVolume) :=
  run volume_server (reconcile collector Minute 0) (volume_store pvs, 1000 * Second)%Z [].

Definition let_go (h : history gcSig) : nat :=
  length (List.filter (λ e, match GCLifecycle.action_of OLLV "pvc-1" e with LetGo => true | _ => false end) h).

(** A volume nobody uses is let go, once; with a PersistentVolume it is not. *)
Example life_of_a_volume :
  GCLifecycle.alive (GCLifecycle.life_of OLLV "pvc-1" (volume_store [])) = Some ("uid", true, true) ∧
  GCLifecycle.alive (GCLifecycle.life_of OLLV "pvc-1" (fst (snd (fst (collect []))))) =
    Some ("uid", false, true) ∧
  let_go (snd (collect [])) = 1 ∧
  let_go (snd (collect [mkPV (named "pv-1" None) (mkPVSpec "fast"
    (Some (mkCSISource LocalStorageClassProvisioner "pvc-1" "ext4" None))) "Bound"])) = 0.
Proof. repeat (split; [vm_compute; reflexivity|]). vm_compute. reflexivity. Qed.

(** The volume before anybody asked for its deletion. *)
Definition wanted_store : GCLifecycle.store OLLV :=
  GCLifecycle.mkStore OLLV
    (Some (with_meta (λ m, mkMeta (om_Name m) (om_Namespace m) (om_UID m) "0" (om_Generation m) None
                             (om_Finalizers m) (om_Labels m) (om_Annotations m) (om_ManagedFields m))
             stale_volume : kobj OLLV)) ∅ [] [] None.

Lemma deletion_is_requested :
  GCLifecycle.system OLLV "pvc-1" wanted_store [] (volume_store []) [].
Proof.
  eapply GCLifecycle.system_world; [constructor|]. split_and!.
  - simpl. set_solver.
  - simpl. intros u Hu. set_solver.
  - by exists [].
Qed.

Definition contains_action (acts : list GCLifecycle.action) : bool :=
  existsb (λ a, match a with LetGo => true | _ => false end) acts.

Lemma contains_action_true acts : contains_action acts = true → LetGo ∈ acts.
Proof.
  intros ([] & Hin & Ha)%existsb_exists; [|done]. by apply list_elem_of_In.
Qed.

Lemma reconcile_refines_lifecycle_witness :
  let h := snd (collect []) in
  GCLifecycle.lifecycle OLLV (GCLifecycle.life_of OLLV "pvc-1" wanted_store)
    (map (GCLifecycle.action_of OLLV "pvc-1") h)
    (GCLifecycle.life_of OLLV "pvc-1" (fst (snd (fst (collect []))))) [] ∧
  LetGo ∈ map (GCLifecycle.action_of OLLV "pvc-1") h.
Proof.
  assert (Hc : all_condemned (volume_store [])) by (intros v [= <-]; vm_compute; reflexivity).
  pose proof (run_volume_system (reconcile collector Minute 0) wanted_store (volume_store [])
    (1000 * Second)%Z [] Hc deletion_is_requested) as Hs.
  pose proof (run_exec volume_server (reconcile collector Minute 0)
    (volume_store [], 1000 * Second)%Z []) as He.
  assert (Hg : contains_action (map (GCLifecycle.action_of OLLV "pvc-1") (snd (collect []))) = true)
    by (vm_compute; reflexivity).
  revert Hs He Hg. unfold collect. destruct (run _ _ _ _) as [[out [s' t']] h]. intros Hs He Hg.
  split; [|by apply contains_action_true].
  exact (reconcile_refines_lifecycle collector OLLV "pvc-1" Minute 0 out h He
           wanted_store s' [] Hs).
Defined.
