(* ===== verification/ClusterScenarios.v ===== *)
(** * Runs of the cluster

    An API server that keeps the contract Cluster.v has with the driver, and
    executions in it: the deletion of a volume, for the hypotheses of the theorem
    on how a volume can be lost, and the creation of one that is already there. *)

From S2P Require Import Prelude Effects Kube Monitoring LSC GC GCSweep GCSafety GCLifecycle.
From S2P Require Import CSI CSIController CSISizes CSIVolumes CSIRelease Cluster ClusterSafety.
From S2P Require Import Worlds Scenarios.

Local Open Scope string_scope.

Abbreviation cluster := (Cluster.cluster OLLV).
Abbreviation volume := (Cluster.object OLLV).
Abbreviation version_of := (Cluster.version_of OLLV).
Abbreviation drop_volume := (drop_object OLLV).
Abbreviation store_volume := (store_object OLLV).
Abbreviation joint := (Cluster.joint OLLV).
Abbreviation guarded := (Cluster.guarded OLLV).
Abbreviation coherent := (Cluster.coherent OLLV).

(** ** The server *)

(** Longer than every version so far. *)
Definition next_version (c : cluster) : string :=
  foldr (λ v s, version_of v +:+ s) "0" (cl_versions OLLV c).

Lemma string_length_app s1 s2 :
  String.length (s1 +:+ s2) = (String.length s1 + String.length s2)%nat.
Proof.
  induction s1 as [|c s1 IH]; [done|]. change (S (String.length (s1 +:+ s2)) = S (String.length s1) + String.length s2)%nat.
  rewrite IH. lia.
Qed.

Lemma next_version_longer (vs : list (kobj OLLV)) v :
  v ∈ vs → (String.length (version_of v) < String.length (foldr (λ v s, version_of v +:+ s) "0" vs))%nat.
Proof.
  induction vs as [|v' vs IH]; [by intros ?%elem_of_nil|]. cbn [foldr]. rewrite string_length_app.
  intros [->|Hv]%elem_of_cons.
  - assert (0 < String.length (foldr (λ v s, version_of v +:+ s) "0" vs))%nat; [|lia].
    clear IH. induction vs as [|v vs IH]; cbn [foldr]; [simpl; lia|]. rewrite string_length_app. lia.
  - specialize (IH Hv). lia.
Qed.

Lemma next_version_fresh c v : version_of v = next_version c → fresh_version OLLV c v.
Proof.
  intros Hv v' Hin [_ Heq]. apply next_version_longer in Hin.
  assert (version_of v' = next_version c) as Hn by (etrans; [exact Heq|exact Hv]).
  rewrite Hn in Hin. unfold next_version in Hin. lia.
Qed.

(** The version of the volume an update makes. *)
Definition next (c : cluster) (cur sent : LVMLogicalVolume) : LVMLogicalVolume :=
  with_meta (λ m, mkMeta (om_Name m) (om_Namespace m) (GetUID cur) (next_version c) (om_Generation m)
               (GetDeletionTimestamp cur) (om_Finalizers m) (om_Labels m) (om_Annotations m)
               (om_ManagedFields m)) sent.

Section server.
Context (name : string).

Definition driver_server : world (S := csiSig) cluster := λ o c,
  match o return csi_res o * cluster with
  | CGet k n _ =>
      (match k return kobj k + status_error with
       | OLLV => match volume c with
                 | Some v => if bool_decide (GetName v = n) then inl v else inr NotFoundError
                 | None => inr NotFoundError
                 end
       | OLLVS => inr NotFoundError
       end, c)
  | CUpdate k o =>
      match k return kobj k → (kobj k + status_error) * cluster with
      | OLLV => λ sent : LVMLogicalVolume,
          match volume c with
          | Some cur =>
              if bool_decide (GetName sent = name ∧ GetUID cur = GetUID sent ∧ version_of cur = version_of sent)
              then (inl (next c cur sent),
                    if bool_decide (GetDeletionTimestamp cur ≠ None) && bool_decide (GetFinalizers sent = [])
                    then drop_volume c else store_volume (next c cur sent) c)
              else (inr ConflictError, c)
          | None => (inr NotFoundError, c)
          end
      | OLLVS => λ _, (inr NotFoundError, c)
      end o
  | CDelete k o =>
      match k return kobj k → option status_error * cluster with
      | OLLV => λ v : LVMLogicalVolume,
          match volume c with
          | Some cur =>
              if bool_decide (GetName v = name)
              then (None, if bool_decide (GetFinalizers cur = []) then drop_volume (doom OLLV (GetUID cur) c)
                          else doom OLLV (GetUID cur) c)
              else (Some NotFoundError, c)
          | None => (Some NotFoundError, c)
          end
      | OLLVS => λ _, (Some NotFoundError, c)
      end o
  | CCreate _ _ => (inr AlreadyExistsError, c)
  | CListVG => (inl [group_a], c)
  | CGetVG n => (if bool_decide (n = "vg-a") then inl group_a else inr NotFoundError, c)
  | CGetPV _ => (inr NotFoundError, c)
  | CGetLSC _ => (inr NotFoundError, c)
  | CtxDone => (false, c)
  | Sleep _ => (tt, c)
  | UnixNow => (0%Z, c)
  end.

(** It keeps the contract. *)
Lemma driver_server_drives (o : csi_op) c :
  coherent c → drives OLLV name c (Ev (S := csiSig) o (fst (driver_server o c))) (snd (driver_server o c)).
Proof.
  intros [Hk _]. destruct o as [k n ns|k o|k o|k o| | | | | | |]; try done; unfold drives; cbn [ev_op ev_res].
  - split; [done|]. destruct k; simpl; [|done]. destruct (volume c) as [v|] eqn:E; [|done].
    case_bool_decide as Hn; [|done]. intros o [= <-]. split; [done|]. intros v' [= <-] _. by apply Hk.
  - destruct k; simpl; [|done]. destruct (volume c) as [cur|] eqn:E; [|done].
    case_bool_decide as Hb; [|done]. destruct Hb as (Hn & Hu & Hv). split; [done|].
    eexists. split; [apply snapshots_after_refl|]. apply on_object_intro; [exact Hn|].
    exists (next c cur o). split; [done|]. exists cur. split_and!; try done. by apply next_version_fresh.
  - destruct k; simpl; [|done]. destruct (volume c) as [cur|] eqn:E; [|done].
    case_bool_decide as Hn; [|done].
    eexists. split; [apply snapshots_after_refl|]. apply on_object_intro; [exact Hn|].
    exists cur. split; [done|]. repeat case_bool_decide; try done. by left.
Qed.

(** The steps of a call against the server. *)
Fixpoint steps {A} (p : prog csiSig A) (j : nat) (c : cluster) : list step :=
  match p with
  | Ret _ => []
  | Do o k => let '(r, c') := driver_server o c in
              (steps (k r) j c' ++ [ByDriver j (Ev (S := csiSig) o r) (life_in OLLV name c)])%list
  end.

Lemma run_joint {A} (p : prog csiSig A) j c0 tr c (h : history csiSig) :
  joint name c0 tr c → coherent c →
  joint name c0 (steps p j c ++ tr)%list (snd (fst (run driver_server p c h))).
Proof.
  revert tr c h. induction p as [a|o k IH]; intros tr c h Hr Hc; simpl; [done|].
  pose proof (driver_server_drives o c Hc) as Hd.
  destruct (driver_server o c) as [r c1]. simpl in Hd.
  destruct (driver_versions OLLV name _ _ _ Hd Hc) as [Hc1 _].
  rewrite <-app_assoc. apply (IH r (_ :: tr)); [by eapply joint_driver|done].
Qed.

Lemma run_steps {A} (p : prog csiSig A) j c (h : history csiSig) :
  snd (run driver_server p c h) = (call_history j (steps p j c) ++ h)%list.
Proof.
  revert c h. induction p as [a|o k IH]; intros c h; simpl; [done|].
  destruct (driver_server o c) as [r c1]. rewrite IH. unfold call_history. rewrite omap_app. simpl.
  rewrite bool_decide_true by done. by rewrite <-app_assoc.
Qed.

Lemma other_steps {A} (p : prog csiSig A) j j' c : j ≠ j' → call_history j' (steps p j c) = [].
Proof.
  intros Hj. revert c. induction p as [a|o k IH]; intros c; simpl; [done|].
  destruct (driver_server o c) as [r c1]. unfold call_history in *. rewrite omap_app, IH. simpl.
  by rewrite bool_decide_false.
Qed.

Lemma no_pass_steps {A} (p : prog csiSig A) i j c : pass_history i (steps p j c) = [].
Proof.
  revert c. induction p as [a|o k IH]; intros c; simpl; [done|].
  destruct (driver_server o c) as [r c1]. unfold pass_history in *. by rewrite omap_app, IH.
Qed.
End server.

(** ** The deletion of a volume *)

Definition ready_volume : LVMLogicalVolume :=
  mkLLV (mkMeta "pvc-1" "" "uid" "1" 1 None [SDSNodeConfiguratorFinalizer; SDSLocalVolumeCSIFinalizer]
           None None []) thick_spec (Some (mkLLVStatus LLVStatusCreated "" GiB)).

Definition healthy : cluster :=
  mkCluster OLLV (mkStore OLLV (Some ready_volume) ∅ [] [] None) [ready_volume] {[ "uid" ]}.

Lemma healthy_coherent : coherent healthy.
Proof.
  split.
  - intros v [= <-]. by left.
  - intros v v' [->|[]%elem_of_nil]%elem_of_cons [->|[]%elem_of_nil]%elem_of_cons. done.
Qed.

Definition deletion : csi_request := RDeleteVolume CE "pvc-1".
Definition deleted := run (driver_server "pvc-1") (serve_request deletion) healthy [].

Definition deletion_steps := steps "pvc-1" (serve_request deletion) 0 healthy.

Lemma deletion_follows pass :
  follows collector (λ _, pass) (λ _, deletion) deletion_steps.
Proof.
  split.
  - intros i. unfold deletion_steps. rewrite no_pass_steps.
    pose proof (run_exec volume_server (reconcile collector pass.1 pass.2)
      (volume_store [], 0%Z) []) as He.
    destruct (run volume_server _ _ _) as [[a s] h]. exists a, h. by rewrite app_nil_r.
  - intros j. pose proof (run_exec (driver_server "pvc-1") (serve_request deletion) healthy []) as He.
    destruct (run _ _ _ _) as [[[] c] h] eqn:Hrun. destruct (decide (0 = j)) as [<-|Hj].
    + exists []. pose proof (run_steps "pvc-1" (serve_request deletion) 0 healthy []) as Hs.
      rewrite Hrun, app_nil_r in Hs. cbn [snd] in Hs.
      unfold deletion_steps. rewrite <-Hs. exact He.
    + exists h. unfold deletion_steps. by rewrite other_steps, app_nil_r.
Qed.

(** The volume is still there for the agent, which no longer finds it guarded. *)
Example deletion_lets_go :
  guarded ready_volume ∧
  GetFinalizers <$> volume (snd (fst deleted)) = Some [SDSNodeConfiguratorFinalizer] ∧
  doomed_uids OLLV (snd (fst deleted)) = {[ "uid" ]}.
Proof. split; [apply contains_true; vm_compute; reflexivity|]. split; vm_compute; reflexivity. Qed.

Lemma only_what_is_let_go_is_lost_witness :
  let c := snd (fst deleted) in
  joint "pvc-1" healthy deletion_steps c ∧
  ((∃ v', volume c = Some v' ∧ GetUID v' = "uid" ∧ guarded v' ∧ ("uid" ∈ cl_data OLLV healthy → "uid" ∈ cl_data OLLV c)) ∨
   Cluster.let_go OLLV "pvc-1" (λ _, deletion) "uid" deletion_steps ∨
   snapshotted_late OLLV "pvc-1" "uid" deletion_steps).
Proof.
  cbv zeta. assert (Hj : joint "pvc-1" healthy deletion_steps (snd (fst deleted))).
  { unfold deletion_steps. rewrite <-(app_nil_r (steps _ _ _ _)).
    apply run_joint; [apply joint_start|apply healthy_coherent]. }
  split; [exact Hj|].
  exact (only_what_is_let_go_is_lost collector OLLV "pvc-1" (λ _, (Minute, 0%Z)) (λ _, deletion) healthy _ _
    ready_volume Hj (deletion_follows (Minute, 0%Z)) healthy_coherent eq_refl
    (proj1 deletion_lets_go)).
Defined.

(** ** The creation of a volume that is there

    A repeated call finds the volume of the first one, ready, and fails to read
    it once. *)

Definition flaky : world (S := csiSig) (bool * cluster) := λ o '(failed, c),
  match o return csi_res o * (bool * cluster) → csi_res o * (bool * cluster) with
  | CGet k n ns => λ r, if failed then r else (inr OtherError, (true, c))
  | _ => λ r, r
  end (let '(r, c') := driver_server "pvc-1" o c in (r, (failed, c'))).

Definition creation : CreateVolumeRequest :=
  mkCreate "pvc-1"
    (Some {[ TypeKey := Lvm; LvmTypeKey := LVMTypeThick; BindingModeKey := BindingModeWFFC;
             LVMVolumeGroupKey := marshal [("vg-a", "")] ]})
    (Some [mkCap None]) (Some GiB) None (Some [Some {[ TopologyKey := "node-a" ]}]).

(** Something was created. *)
Definition creates (e : event csiSig) : bool :=
  match ev_op e as o return csi_res o → bool with
  | CCreate _ _ => λ r, match r with inl _ => true | inr _ => false end
  | _ => λ _, false
  end (ev_res e).

Definition created_again := run flaky (CreateVolume CE 10 creation) (false, healthy) [].

(** The call creates nothing, fails, and lets the volume of the first call go. *)
Example repeated_creation_lets_go :
  fst (fst created_again) = Fails (API OtherError) ∧
  existsb creates (snd created_again) = false ∧
  llv_Phase <$> (volume healthy ≫= llv_Status) = Some LLVStatusCreated ∧
  GetFinalizers <$> volume (snd (snd (fst created_again))) = Some [SDSNodeConfiguratorFinalizer] ∧
  doomed_uids OLLV (snd (snd (fst created_again))) = {[ "uid" ]}.
Proof. repeat split; vm_compute; reflexivity. Qed.

(** ** A snapshot of a volume that is being deleted *)

Definition leaving_volume : LVMLogicalVolume :=
  mkLLV (deleted_meta "pvc-1" None)
    (mkLLVSpec "pvc-1" "Thin" "1Gi" "vg-a" None (Some "pool") None None)
    (Some (mkLLVStatus LLVStatusCreated "" GiB)).

Definition snapshot_server : world (S := csiSig) unit := λ o s,
  match o return csi_res o * unit with
  | CGet k n _ =>
      (inl match k return kobj k with
           | OLLV => leaving_volume
           | OLLVS => mkLLVS (named n None) (mkLLVSSpec n "pvc-1")
                        (Some (mkLLVSStatus "node-a" "vg" LLVSStatusCreated "" GiB 0%Z))
           end, s)
  | CCreate _ o => (inl o, s)
  | CUpdate _ o => (inl o, s)
  | CDelete _ _ => (None, s)
  | CListVG => (inl [group_a], s)
  | CGetVG _ => (inl group_a, s)
  | CGetPV _ => (inr NotFoundError, s)
  | CGetLSC _ => (inr NotFoundError, s)
  | CtxDone => (false, s)
  | Sleep _ => (tt, s)
  | UnixNow => (0%Z, s)
  end.

Definition snapshot_taken :=
  run snapshot_server (CreateSnapshot 10 (mkCreateSnapshot "pvc-1" "snap-1" None)) tt [].

(** The call succeeds, whatever the deletion timestamp of the source says. *)
Example snapshot_of_a_leaving_volume :
  is_Some (GetDeletionTimestamp leaving_volume) ∧
  omap takes_snapshot_of (snd snapshot_taken) = ["pvc-1"] ∧
  match fst (fst snapshot_taken) with Done s => snap_SourceVolumeId s = "pvc-1" | _ => False end.
Proof. split; [by eexists|]. split; vm_compute; reflexivity. Qed.
