(* ===== verification/ProvisioningScenarios.v ===== *)
(** * A class, a volume and a mount

    One run through the three programs of Provisioning.v: the StorageClass of a
    thin class, a volume of it, and the volume staged on its node; and the
    hypotheses of the theorem at that run. *)

From S2P Require Import Prelude Effects Kube LSC LSCResolve GC CSI CSIController CSISizes CSIVolumes.
From S2P Require Import CSINode CSINodeSpec Provisioning Worlds.

Local Open Scope string_scope.

(** ** One document for both programs *)

Definition document_reads (s : string) : option (list LocalStorageClassLVG) :=
  match s with String _ s => unmarshal s | EmptyString => None end.

#[local, program] Instance document_written : YamlLVGs := {|
  yaml_Marshal lvgs := inl ("-" +:+ marshal lvgs);
  yaml_Unmarshal s := match document_reads s with Some l => inl l | None => inr "yaml" end;
|}.
Next Obligation.
  intros lvgs s [= <-]. change (document_reads _) with (unmarshal (A := list LocalStorageClassLVG) (marshal lvgs)).
  by rewrite unmarshal_marshal.
Qed.

#[local] Instance document_read : VolumeGroupsYaml := {|
  UnmarshalVolumeGroups s := map read_group <$> document_reads s;
|}.

#[local] Instance documents_agree : YamlAgrees.
Proof.
  split; intros lvgs s [= <-]; [|done].
  change (map read_group <$> unmarshal (A := list LocalStorageClassLVG) (marshal lvgs) = Some (map read_group lvgs)).
  by rewrite unmarshal_marshal.
Qed.

(** ** The run *)

Definition class_sc : StorageClass :=
  match configureStorageClass thin_class thin_groups [] with
  | inl sc => sc
  | inr _ => mkSC "" "" (named "" None) "" None None None None
  end.

Definition class_request : CreateVolumeRequest :=
  mkCreate "pvc-1" (sc_Parameters class_sc) (Some [mkCap None]) (Some GiB) None
    (Some [Some {[ TopologyKey := "node-a" ]}]).

(** An API server that makes every volume ready. *)
Definition ready_server : world (S := csiSig) (option LVMLogicalVolume) := λ o s,
  match o return csi_res o * option LVMLogicalVolume with
  | CGet k n _ =>
      (match k return kobj k + status_error with
       | OLLV => match s with
                 | Some v => inl (mkLLV (llv_meta v) (llv_Spec v) (Some (mkLLVStatus LLVStatusCreated "" GiB)))
                 | None => inr NotFoundError
                 end
       | OLLVS => inr NotFoundError
       end, s)
  | CCreate k o =>
      (inl o, match k return kobj k → option LVMLogicalVolume with OLLV => Some | OLLVS => λ _, s end o)
  | CUpdate _ o => (inl o, s)
  | CDelete _ _ => (None, s)
  | CListVG => (inl [group_a; group_b], s)
  | CGetVG _ => (inl group_a, s)
  | CGetPV _ => (inr NotFoundError, s)
  | CGetLSC _ => (inr NotFoundError, s)
  | CtxDone => (false, s)
  | Sleep _ => (tt, s)
  | UnixNow => (0%Z, s)
  end.

Definition creation := run ready_server (CreateVolume CE 10 class_request) None [].

Definition answer : CreateVolumeResponse :=
  match fst (fst creation) with Done resp => resp | _ => mkCreated 0 "" ∅ None ∅ end.

Definition stage_request : NodeStageVolumeRequest :=
  mkStage (vol_VolumeId answer) "/staging"
    (Some (mkCap (Some (AccessMount (Some (mkMount (file_system class_sc) []))))))
    (Some (vol_VolumeContext answer)).

(** A node with the block device, on which everything works. *)
Definition node_a : world (S := nodeSig) unit := λ o s0,
  match o return node_res o * unit with
  | Uname => (inl (release "6.8.0-44-generic"), s0)
  | InFlightInsert _ => (true, s0)
  | InFlightDelete _ | CloseFile _ => (tt, s0)
  | OsStat _ => (inl ModeDevice, s0)
  | UnixStat _ => (inl S_IFBLK, s0)
  | IoctlBlkGetSize64 _ => (inl 0%Z, s0)
  | PathExists _ => (inl true, s0)
  | IsMountPoint _ | ResizeFs_Resize _ _ | ResizeFs_NeedResize _ _ => (inl false, s0)
  | MkdirAll _ | OpenCreate _ | OpenRead _ | FormatAndMount _ _ _ _ _ | Mount _ _ _ _
  | CleanupMountPoint _ => (None, s0)
  | Statfs _ => (inl some_statfs, s0)
  | GetDeviceNameFromMount _ => (inl "", s0)
  | ListMounts => (inl [], s0)
  end.

Definition staging := run node_a (NodeStageVolume stage_request) tt [].

Definition formats (e : event nodeSig) : option (string * string * string) :=
  match ev_op e with FormatAndMount dev target fsType _ _ => Some (dev, target, fsType) | _ => None end.

(** The logical volume of the class, in the group of its node, is formatted with
    the file system of the class and mounted. *)
Example class_to_mount :
  (llv_LVMVolumeGroupName ∘ llv_Spec <$> snd (fst creation), llv_Thin ∘ llv_Spec <$> snd (fst creation)) =
    (Some "vg-a", Some (Some "pool")) ∧
  fst (fst staging) = inl tt ∧ omap formats (snd staging) = [("/dev/vg/pvc-1", "/staging", "ext4")].
Proof. split_and!; vm_compute; reflexivity. Qed.

(** ** The theorem at this run *)

Lemma class_request_passes : passes class_sc class_request.
Proof. by intros k _. Qed.

Lemma creation_answers : fst (fst creation) = Done answer.
Proof.
  assert (match fst (fst creation) with Done _ => true | _ => false end = true) as H
    by (vm_compute; reflexivity).
  unfold answer. by destruct (fst (fst creation)).
Qed.

Lemma a_class_becomes_a_mount_witness :
  fst (fst creation) = Done answer ∧ ∃ lvm spec created listed lvg,
    lsc_LVM (lsc_Spec thin_class) = Some lvm ∧ as_the_class_says [group_a; group_b] lvm spec ∧
    Ev (S := csiSig) (CCreate OLLV (mkLLV (new_meta "pvc-1") spec None)) created ∈ snd creation ∧
    Ev (S := csiSig) CListVG (inl listed) ∈ snd creation ∧ lvg ∈ listed ∧
    vg_Name lvg = llv_LVMVolumeGroupName spec ∧
    ∀ stage, stages answer (file_system class_sc) stage →
      wp (NodeStageVolume stage) [] (λ staged past, staged = inl tt →
        device_mounted (vg_ActualVGNameOnTheNode (vg_Spec lvg)) (llv_ActualLVNameOnTheNode spec)
          "ext4" (ns_StagingTargetPath stage) past).
Proof.
  split; [exact creation_answers|]. generalize creation_answers. generalize answer as resp.
  pose proof (run_exec ready_server (CreateVolume CE 10 class_request) None []) as He.
  change (run ready_server (CreateVolume CE 10 class_request) None []) with creation in He.
  destruct creation as [[r s] h]. simpl.
  refine (proj2 (a_class_becomes_a_mount CE 10 thin_class [group_a; group_b] thin_groups class_sc
    class_request _ _ class_request_passes r h He)).
  - vm_compute. reflexivity.
  - exists []. left. reflexivity.
Defined.

(** The kubelet's request is one the theorem speaks of. *)
Lemma stage_request_stages : stages answer (file_system class_sc) stage_request.
Proof. split; [done|done|]. intros volCap [= <-]. by exists []. Qed.
